(* ===== verification/_CoqProject ===== *)
-Q . S2P
Prelude.v
Cxx.v
NetBuffer.v
Codec.v
Channel.v
EpollPoller.v
CxxString.v
LoadBalancer.v
ThreadPool.v
ZooKeeper.v
ZkClient.v
ServiceRegistry.v
RegistryTyping.v
RegistryReal.v
RegistryWatch.v
EventLoop.v
IOLoopThread.v
TcpConnection.v
TcpServer.v
Rpc.v
RpcServer.v
RpcChannel.v
ServiceProxy.v
RpcCalls.v
RpcProgress.v
RpcSystem.v
TcpOwner.v
RpcServe.v
RpcWire.v
RpcLife.v
RpcResources.v
RpcLocal.v
RpcEndToEnd.v
RpcExamples.v
ExampleClients.v
ServerMain.v
