(* ===== verification/Prelude.v ===== *)
(** * The RPC framework: a verification library

    The program is a Reactor server and a blocking client that exchange
    protobuf envelopes in frames [Magic:4, Length:4, Body], with a service
    registry and load balancing on the side.

    ** How the parts interact

    Server: [EventLoop] turns [EpollPoller]'s answers into [Channel] events and
    then runs the functors other threads queued; [TcpServer] accepts and keeps
    [TcpConnection]s, which read into and write from [Buffer]s; [Codec] cuts
    frames out of the input buffer; [RpcServer::on_frame] parses a request and
    hands it to the [ThreadPool]; a worker calls the service and queues the
    response on the connection's loop, which frames and sends it.
    Client: [RpcChannel::CallMethod] enters a call in [pending_calls_], writes a
    frame and waits; a reader thread cuts frames with the same format and
    completes the calls; [ServiceProxy] owns the channel.
    Registry: [ServiceRegistry] keeps endpoints in ZooKeeper (a server, or the
    in-memory stub), caches them and selects one with a [LoadBalancer].

    ** The files and what they model

    - Prelude: the monad [M] (state, exceptions, undefined behaviour, fuel),
      lenses for the state of the callee inside that of the caller, mutexes,
      the rules of [wp] and [wpe] and their tactics, [moves] (how far code moves
      the state), lists with [Z] positions.
    - Cxx, CxxString: object memory, byte order, [std::string].
    - NetBuffer: net/buffer.h, net/buffer.cpp.  [run_refines]: a byte queue.
    - Codec: codec/protocol.h, codec/codec.cpp.  [Framing] is the wire format;
      [on_message_refines], [stream_roundtrip], [segmentation_invariance].
    - Channel: net/channel.*.  The dispatch of events.
    - EpollPoller: net/epoll_poller.*.  [requests_legal]: the epoll requests
      are legal and match the channels.
    - EventLoop: net/event_loop.*.  The member functions; [Wakeup] is the loop
      with the threads that queue work, as a transition system
      ([no_lost_wakeup]).
    - IOLoopThread: the class of net/tcp_server.cpp that runs a loop in a thread
      of its own, which no code uses; its two threads as a transition system.
    - TcpConnection: net/tcp_connection.*.  [connection_run] and the behaviour
      of sending, reading and shutting down, for arbitrary callbacks.
    - TcpServer: net/tcp_server.*.  The table and the life of the connections,
      composed with their loop, poller and channels, for any owner of the
      server; [server_run], [closing_releases], [destructor_unregisters],
      [queued_send_outlives_connection].
    - ThreadPool: net/thread_pool.*, as a transition system of its threads, and
      a constructor that cannot start them.
    - Rpc, RpcServer: the messages, rpc/rpc_controller.h, rpc/rpc_server.*.
      [one_response_per_request].
    - RpcChannel, RpcCalls: rpc/rpc_channel.*, the framing of the client and
      its threads over [pending_calls_].
    - RpcProgress: the same threads; calls that are answered finish
      ([answered_calls_finish]).
    - ServiceProxy: rpc/service_proxy.h, over the channels of a program.
    - RpcSystem: the path of the bytes; what the client calls reaches
      [on_frame], and what the server answers reaches the client's reader.
    - TcpOwner: what a [TcpServer] does to its owner: only what the owner's
      callbacks and functors do, each functor once and in order.
    - RpcServe: the whole server, [RpcServer] as the owner of its [TcpServer]
      with its codec, callbacks, workers and destructor.  [rpc_server_run]: it
      is safe; [server_refines]: it does what RpcServer.v says.
    - RpcWire: what the whole server reads and writes on each connection, as
      the wire format says ([server_on_the_wire]).
    - RpcLife: [RpcServer::start] as a thread among the others; it ends on
      [quit()] ([start_ends_on_quit]).
    - RpcResources: the constructors and destructors of [RpcServer] and all its
      members, with their error paths, over the open descriptors
      ([construct_server_or_nothing], [server_life]).
    - RpcLocal: the client's calls against a server that sends answers:
      [returned_is_local].
    - RpcEndToEnd: any number of clients and the server together, over
      connections that may be cut.  [every_call_is_local]: a call returns what
      the method returns; [all_calls_finish].
    - RpcExamples, ExampleClients: src/example, the services with their remote
      calls, and [main] of both clients ([calc_client_main]).
    - ServerMain: [main] of the example servers, from the registration to
      whatever the started server does ([calc_server_main]).
    - LoadBalancer: registry/load_balancer.*, the four strategies.
    - ZooKeeper, ZkClient: registry/zookeeper_client.*, both builds, against
      one abstract tree.
    - ServiceRegistry: registry/service_registry.*, over any client
      ([Registry.ZooKeeperClient], a class), with the theorems for the in-memory
      build; RegistryTyping takes any tree and any run ([registry_typed]).
    - RegistryReal: the registry over a ZooKeeper server
      ([real_registry_follows]).
    - RegistryWatch: refreshes at the same time, as a transition system of the
      threads, the watches and the events ([cache_follows_tree],
      [late_store_is_stale]).

    A class of the code is a [Record] of its data members [t] in a [Module] of
    its name; a member function is a [Definition] of its name in [M] over any
    state that holds the object (a [Lens]), with the objects and callbacks that
    it calls as arguments.  A field the code does not change after construction
    is an argument too.  [size_t], [uint32_t] and [uint16_t] are [Z], reduced
    where the code can wrap.

    ** Interfaces

    [Codec]'s input is any state with a buffer, and any function that cuts
    frames out of reads is a [reads] of Codec.v: the server's codec and the
    client's reader are two instances.  [TcpConnection] is proved for any
    owner: [J] and [gone] say what holds of the owner and when it has let the
    connection go; [TcpServer] is the owner.  [TcpServer] in turn is proved
    for an owner with a state [A] and functors [G]: [app_holds] says which
    connections the state holds, [app_ok] what it keeps true; RpcServe discharges
    this for [RpcServer], Demo for one that counts.  The registry's code is
    written over the class [Registry.ZooKeeperClient], with the two builds of the
    client as instances.  The code that is not in the
    repository is a class or a record of operations, its documented behaviour
    the laws: the socket ([Socket], [SocketOk], [Receiving]), protocol buffers ([Message],
    [MessageOk]), the random engine ([Uniform], [UniformOk]), the ZooKeeper C
    client ([ZkC], [ZkCOk]), user services ([RpcServer.Service]) and the base
    class that protoc generates for them ([Service.Generated]).  Each class
    has an instance, on which the theorems are run.

    ** What the theorems show

    Refinement and equivalence: buffer, codec, client's reader, ZooKeeper
    clients and the whole server implement their abstract specifications; consistent hashing moves
    few keys.  End to end: requests and responses arrive whole, in order, for
    any cutting of the stream; on each connection of the server the bytes read
    and written are frames of requests and of their answers; a remote call leaves what the method, called
    directly, would have left, with any number of clients and no assumption on
    the server.  Safety over all runs: epoll requests, server
    and connections, the whole [RpcServer], pool, loop, calls in flight,
    proxies, the registry's cache against its tree.  Liveness and
    termination: the pool executes what was submitted, the loop runs what was
    queued, [start()] ends on [quit()], every call on a connection that stays is
    over in the end, parsing ends.  Errors: each function's branches, what throws and
    with which state.  Where the code fails, a theorem or an example shows the
    failing run: threads that wait forever, a deadlock in the registry, a use
    of a destroyed connection, a moved proxy that cannot be destroyed, reads of
    uninitialised bytes, sockets that stay open, a loop destroyed on the wrong
    thread, a stale cache.  Resources: a server, or its failing constructor, and a proxy give
    back what they took.  Types: what is read from the tree is checked or
    refused.

    ** Fuel and bounds

    The framing loops get the readable bytes divided by the header's size, plus
    one, as fuel: every turn consumes a header ([on_message_refines] and
    [reader_refines] show that they never run out).  [EventLoop.loop] runs one
    turn per answer of [epoll_wait] that it is given; the theorems about runs of
    the loop are about [Wakeup] instead, which needs none.  A [std::vector]
    stays below 2^63 bytes, ids of connections below 2^64.

    ** Not modelled

    [TcpServer::set_thread_num] creates a pool that nothing uses; nothing uses
    [RpcChannel::on_connection] and [codec_] of [RpcChannel] either.  Log output,
    socket options, the textual peer address, [timeout_ms] and the thread that
    [RpcChannel::connect] detaches (its body is modelled, its life after the
    channel is not).  Data races on plain members such as [sockfd_]: atomic
    accesses and what a mutex protects are the steps of the transition systems;
    in RpcServe a worker's task, with the service's method, is one step.  What
    the examples print: what the clients print is a value, not characters, what
    the servers print is left out.  The code that protoc generates. *)

From Stdlib Require Import ZArith Lia.
From coqutil Require Export Byte Word.LittleEndianList.
From stdpp Require Export base option list gmap strings.

#[export] Set Default Goal Selector "!".
Local Open Scope Z_scope.

(** ** Bytes and sizes *)

(** [char] buffers, [std::string] payloads and wire data. *)
Abbreviation bytes := (list Init.Byte.byte).

(** The length of a C++ sequence, as the [size_t] the code computes with. *)
Definition zlen {A} (l : list A) : Z := Z.of_nat (length l).

(** Machine-width wrap-around. *)
Definition u16 (z : Z) : Z := z mod 2 ^ 16.
Definition u32 (z : Z) : Z := z mod 2 ^ 32.
Definition u64 (z : Z) : Z := z mod 2 ^ 64.

(** The elements from position [n] on, and the first [n] elements. *)
Definition zdrop {A} (n : Z) (l : list A) : list A := drop (Z.to_nat n) l.
Definition ztake {A} (n : Z) (l : list A) : list A := take (Z.to_nat n) l.

(** The values of [int] on the targets the code supports. *)
Definition int_min : Z := - 2 ^ 31.
Definition int_max : Z := 2 ^ 31 - 1.

(** ** Outcomes

    A C++ operation on a state [S] returns, throws (its earlier effects on
    the state stay), or has undefined behaviour, which includes a failed
    [assert] and a self-deadlock on a [std::mutex].  [OutOfFuel] is an
    artefact of bounded recursion; the termination theorems exclude it. *)
Inductive exn :=
| runtime_error (what : string)
| invalid_argument (what : string)
| out_of_range (what : string)
| length_error (what : string).

Inductive outcome (S A : Type) :=
| Ret (s : S) (a : A)
| Throw (s : S) (e : exn)
| Ub (why : string)
| OutOfFuel.
Arguments Ret {S A} s a.
Arguments Throw {S A} s e.
Arguments Ub {S A} why.
Arguments OutOfFuel {S A}.

#[export] Instance exn_eq_dec : EqDecision exn.
Proof. solve_decision. Defined.

(** ** The state-and-error monad *)

Definition M (S A : Type) : Type := S -> outcome S A.

#[export] Instance M_ret {S} : MRet (M S) := fun A a s => Ret s a.
#[export] Instance M_bind {S} : MBind (M S) := fun A B f m s =>
  match m s with
  | Ret s' a => f a s'
  | Throw s' e => Throw s' e
  | Ub why => Ub why
  | OutOfFuel => OutOfFuel
  end.

Section monad_ops.
Context {S : Type}.

Definition gets {A} (f : S -> A) : M S A := fun s => Ret s (f s).
Definition modify (f : S -> S) : M S unit := fun s => Ret (f s) ().
Definition throw {A} (e : exn) : M S A := fun s => Throw s e.
Definition ub {A} (why : string) : M S A := fun _ => Ub why.
Definition out_of_fuel {A} : M S A := fun _ => OutOfFuel.

(** [assert(b)]: a false condition aborts, modelled as undefined behaviour. *)
Definition assert_ (b : bool) (why : string) : M S unit :=
  if b then mret () else ub why.

(** [if (c) body;] *)
Definition when (c : bool) (body : M S unit) : M S unit :=
  if c then body else mret ().

(** [if (cb) cb(...)] for a [std::function] that may be empty. *)
Definition call_if (cb : option (M S unit)) : M S unit :=
  match cb with Some f => f | None => mret () end.

(** [for (auto& x : l) body(x);] *)
Fixpoint for_each {A} (body : A -> M S unit) (l : list A) : M S unit :=
  match l with
  | [] => mret ()
  | x :: l' => body x ;; for_each body l'
  end.

End monad_ops.

(** ** Lenses: a member of an object as a state of its own *)

Record Lens (S A : Type) := mkLens { lget : S -> A; lset : A -> S -> S }.
Arguments mkLens {S A} lget lset.
Arguments lget {S A} l s.
Arguments lset {S A} l a s.

Class LensOk {S A} (l : Lens S A) : Prop := {
  lens_get_set a s : lget l (lset l a s) = a;
  lens_set_get s : lset l (lget l s) s = s;
  lens_set_set a b s : lset l a (lset l b s) = lset l a s;
}.

(** Run a member function of a member object. *)
Definition zoom {S A X} (l : Lens S A) (m : M A X) : M S X := fun s =>
  match m (lget l s) with
  | Ret a x => Ret (lset l a s) x
  | Throw a e => Throw (lset l a s) e
  | Ub why => Ub why
  | OutOfFuel => OutOfFuel
  end.

(** Run [m] with a local variable of initial value [x], destroyed at the end. *)
Definition with_local {S B X} (x : B) (m : M (S * B) X) : M S X := fun s =>
  match m (s, x) with
  | Ret p a => Ret p.1 a
  | Throw p e => Throw p.1 e
  | Ub why => Ub why
  | OutOfFuel => OutOfFuel
  end.

Definition lens_id {S} : Lens S S := mkLens (fun s => s) (fun s _ => s).
Definition lens_fst {A B} : Lens (A * B) A := mkLens fst (fun a p => (a, p.2)).
Definition lens_snd {A B} : Lens (A * B) B := mkLens snd (fun b p => (p.1, b)).

#[export] Instance lens_id_ok {S} : LensOk (@lens_id S).
Proof. by split. Qed.
#[export] Instance lens_fst_ok {A B} : LensOk (@lens_fst A B).
Proof. split; by try intros []. Qed.
#[export] Instance lens_snd_ok {A B} : LensOk (@lens_snd A B).
Proof. split; by try intros []. Qed.

(** [std::lock_guard lk(mu); m]: the mutex [mu] is held while [m] runs and
    released when it returns or throws.  Within one thread, locking a mutex
    that is already held never returns. *)
Definition lock_guard {S X} (mu : Lens S bool) (m : M S X) : M S X := fun s =>
  if lget mu s then Ub "deadlock: the mutex is already held"
  else
    match m (lset mu true s) with
    | Ret s' x => Ret (lset mu false s') x
    | Throw s' e => Throw (lset mu false s') e
    | Ub why => Ub why
    | OutOfFuel => OutOfFuel
    end.

(** ** Weakest preconditions

    [wpe m s Q E]: from [s], [m] returns in a state and with a value that
    satisfy [Q], or throws in a state and with an exception that satisfy [E];
    it has no undefined behaviour and does not run out of fuel.
    [wp m s Q]: [m] returns, and [Q] holds. *)
Definition wpe {S A} (m : M S A) (s : S) (Q : S -> A -> Prop)
    (E : S -> exn -> Prop) : Prop :=
  match m s with
  | Ret s' a => Q s' a
  | Throw s' e => E s' e
  | Ub _ | OutOfFuel => False
  end.

Definition wp {S A} (m : M S A) (s : S) (Q : S -> A -> Prop) : Prop :=
  wpe m s Q (fun _ _ => False).

Create HintDb wp.
#[export] Hint Constants Opaque : wp.

Section wp_rules.
Context {S : Type}.
Implicit Types (s : S).

Lemma wpe_mono {A} (m : M S A) s (Q Q' : S -> A -> Prop) (E E' : S -> exn -> Prop) :
  wpe m s Q E -> (forall s' a, Q s' a -> Q' s' a) ->
  (forall s' e, E s' e -> E' s' e) -> wpe m s Q' E'.
Proof. unfold wpe. destruct (m s); naive_solver. Qed.

Lemma wp_mono {A} (m : M S A) s (Q Q' : S -> A -> Prop) :
  wp m s Q -> (forall s' a, Q s' a -> Q' s' a) -> wp m s Q'.
Proof. unfold wp. eauto using wpe_mono. Qed.

Lemma wp_ret_inv {A} (m : M S A) s (Q : S -> A -> Prop) :
  wp m s Q <-> exists s' a, m s = Ret s' a /\ Q s' a.
Proof. unfold wp, wpe. destruct (m s); naive_solver. Qed.

Lemma wp_conj {A} (m : M S A) s (Q Q' : S -> A -> Prop) :
  wp m s Q -> wp m s Q' -> wp m s (fun s' a => Q s' a /\ Q' s' a).
Proof. unfold wp, wpe. destruct (m s); naive_solver. Qed.

Lemma bind_ret_inv {A B} (m : M S A) (k : A -> M S B) s s' b :
  (m ≫= k) s = Ret s' b -> exists s1 a, m s = Ret s1 a /\ k a s1 = Ret s' b.
Proof. unfold mbind, M_bind. destruct (m s) as [s1 a| | |]; try done. by exists s1, a. Qed.

Lemma wpe_ret {A} (a : A) s Q E : Q s a -> wpe (mret a : M S A) s Q E.
Proof. done. Qed.

Lemma wpe_bind {A B} (m : M S A) (f : A -> M S B) s Q E :
  wpe m s (fun s' a => wpe (f a) s' Q E) E -> wpe (m ≫= f) s Q E.
Proof. unfold wpe, mbind, M_bind. by destruct (m s). Qed.

Lemma wp_bind {A B} (m : M S A) (f : A -> M S B) s Q :
  wp m s (fun s' a => wp (f a) s' Q) -> wp (m ≫= f) s Q.
Proof. apply wpe_bind. Qed.

Lemma wp_ret {A} (a : A) s Q : Q s a -> wp (mret a : M S A) s Q.
Proof. done. Qed.

Lemma wp_gets {A} (f : S -> A) s Q : Q s (f s) -> wp (gets f) s Q.
Proof. done. Qed.

Lemma wp_modify f s (Q : S -> unit -> Prop) : Q (f s) () -> wp (modify f) s Q.
Proof. done. Qed.

Lemma wp_assert b why s (Q : S -> unit -> Prop) :
  b = true -> Q s () -> wp (assert_ b why) s Q.
Proof. by intros ->. Qed.

Lemma wp_when_true c body s (Q : S -> unit -> Prop) :
  c = true -> wp body s Q -> wp (when c body) s Q.
Proof. by intros ->. Qed.

Lemma wp_when_false c body s (Q : S -> unit -> Prop) :
  c = false -> Q s () -> wp (when c body) s Q.
Proof. by intros ->. Qed.

(** The loop rule: [I k] holds after the first [k] elements. *)
Lemma wp_for_each {A} (body : A -> M S unit) (l : list A) s (I : list A -> S -> Prop) :
  I [] s ->
  (forall done x todo s', l = done ++ x :: todo -> I done s' ->
     wp (body x) s' (fun s'' _ => I (done ++ [x]) s'')) ->
  wp (for_each body l) s (fun s' _ => I l s').
Proof.
  intros H0 Hstep.
  assert (forall todo done s', l = done ++ todo -> I done s' ->
    wp (for_each body todo) s' (fun s'' _ => I l s'')) as Hgen.
  { induction todo as [|x todo IH]; intros done s' Hl HI; simpl.
    - apply wp_ret. by rewrite Hl, app_nil_r.
    - apply wp_bind. eapply wp_mono; [by eapply Hstep|].
      intros s'' [] HI'. apply (IH (done ++ [x])); [|done].
      by rewrite <- app_assoc. }
  by apply (Hgen l []).
Qed.

Lemma wpe_zoom {A X} (l : Lens S A) (m : M A X) s Q E :
  wpe m (lget l s) (fun a x => Q (lset l a s) x) (fun a e => E (lset l a s) e) ->
  wpe (zoom l m) s Q E.
Proof. unfold wpe, zoom. by destruct (m (lget l s)). Qed.

Lemma wp_zoom {A X} (l : Lens S A) (m : M A X) s Q :
  wp m (lget l s) (fun a x => Q (lset l a s) x) -> wp (zoom l m) s Q.
Proof. apply (wpe_zoom l m s Q (fun _ _ => False)). Qed.

Lemma wp_with_local {B X} (x : B) (m : M (S * B) X) s Q :
  wp m (s, x) (fun p a => Q p.1 a) -> wp (with_local x m) s Q.
Proof. unfold wp, wpe, with_local. by destruct (m (s, x)). Qed.

Lemma wp_wpe {A} (m : M S A) s Q E : wp m s Q -> wpe m s Q E.
Proof. unfold wp, wpe. by destruct (m s). Qed.

Lemma wpe_gets {A} (f : S -> A) s Q E : Q s (f s) -> wpe (gets f) s Q E.
Proof. done. Qed.

Lemma wpe_modify f s (Q : S -> unit -> Prop) E : Q (f s) () -> wpe (modify f) s Q E.
Proof. done. Qed.

Lemma wpe_throw {A} e s (Q : S -> A -> Prop) E : E s e -> wpe (throw e) s Q E.
Proof. done. Qed.

Lemma wpe_with_local {B X} (x : B) (m : M (S * B) X) s Q E :
  wpe m (s, x) (fun p a => Q p.1 a) (fun p e => E p.1 e) -> wpe (with_local x m) s Q E.
Proof. unfold wpe, with_local. by destruct (m (s, x)). Qed.

Lemma wpe_when_ret c s (Q : S -> unit -> Prop) E : Q s () -> wpe (when c (mret ())) s Q E.
Proof. by destruct c. Qed.

Lemma wpe_for_each {A} (body : A -> M S unit) (l : list A) s (I : S -> Prop) E :
  I s -> (forall x s', x ∈ l -> I s' -> wpe (body x) s' (fun s'' _ => I s'') E) ->
  wpe (for_each body l) s (fun s' _ => I s') E.
Proof.
  revert s. induction l as [|x l IH]; intros s H0 Hstep; simpl; [by apply wpe_ret|].
  apply wpe_bind. eapply wpe_mono; [apply Hstep; [by left|done]| |done].
  intros s' [] HI. apply IH; [done|]. intros y s'' Hy. apply Hstep. by right.
Qed.

End wp_rules.

(** Symbolic execution of the pure steps at the head of a [wp] goal. *)
Ltac wp_step :=
  lazymatch goal with
  | |- wp (mbind _ _) _ _ => apply wp_bind
  | |- wp (mret _) _ _ => apply wp_ret
  | |- wp (gets _) _ _ => apply wp_gets
  | |- wp (modify _) _ _ => apply wp_modify
  | |- wp (zoom _ _) _ _ => apply wp_zoom
  | |- wp (with_local _ _) _ _ => apply wp_with_local
  end; cbv beta.
Ltac wp_pures := repeat wp_step.

Ltac wpe_step :=
  lazymatch goal with
  | |- wpe (mbind _ _) _ _ _ => apply wpe_bind
  | |- wpe (mret _) _ _ _ => apply wpe_ret
  | |- wpe (gets _) _ _ _ => apply wpe_gets
  | |- wpe (modify _) _ _ _ => apply wpe_modify
  | |- wpe (zoom _ _) _ _ _ => apply wpe_zoom
  | |- wpe (with_local _ _) _ _ _ => apply wpe_with_local
  end; cbv beta.
Ltac wpe_pures := repeat wpe_step.

(** Case analysis on the scrutinee at the head of a [wp] goal. *)
Ltac wp_case H :=
  match goal with
  | |- wp (if ?c then _ else _) _ _ => destruct c eqn:H
  | |- wp (match ?c with _ => _ end) _ _ => destruct c eqn:H
  end.

(** ** How far an operation moves the state

    [moves R m]: when [m] returns, the new state is related to the old one by
    [R], a preorder.  No more is said than that; [keeps f] is the case of an
    [R] that leaves the part [f] of the state alone. *)
Definition moves {S A} (R : S -> S -> Prop) (m : M S A) : Prop :=
  forall s s' a, m s = Ret s' a -> R s s'.

Definition unchanged {S X} (f : S -> X) (s s' : S) : Prop := f s' = f s.
Abbreviation keeps f := (moves (unchanged f)).

#[export] Instance unchanged_preorder {S X} (f : S -> X) : PreOrder (unchanged f).
Proof. split; [by intros s|]. unfold unchanged. intros s1 s2 s3. congruence. Qed.

Create HintDb moves.

Section moves_rules.
Context {S : Type} (R : S -> S -> Prop) `{!PreOrder R}.

Lemma moves_ret {A} (a : A) : moves R (mret a : M S A).
Proof. by intros s s' b [= <- _]. Qed.

Lemma moves_gets {A} (g : S -> A) : moves R (gets g).
Proof. by intros s s' b [= <- _]. Qed.

Lemma moves_throw {A} e : moves R (throw e : M S A).
Proof. done. Qed.

Lemma moves_ub {A} why : moves R (ub why : M S A).
Proof. done. Qed.

Lemma moves_out_of_fuel {A} : moves R (out_of_fuel : M S A).
Proof. done. Qed.

Lemma moves_assert b why : moves R (assert_ b why).
Proof. destruct b; [apply moves_ret|done]. Qed.

Lemma moves_modify g : (forall s, R s (g s)) -> moves R (modify g).
Proof. intros Hg s s' a [= <- _]. apply Hg. Qed.

Lemma moves_bind {A B} (m : M S A) (k : A -> M S B) :
  moves R m -> (forall a, moves R (k a)) -> moves R (m ≫= k).
Proof.
  intros Hm Hk s s' b. unfold mbind, M_bind. destruct (m s) as [s1 a| | |] eqn:Hs; try done.
  intros Hs1. etrans; [by eapply Hm|by eapply Hk].
Qed.

Lemma moves_zoom {A B} (l : Lens S A) (m : M A B) :
  (forall a s, R s (lset l a s)) -> moves R (zoom l m).
Proof. intros Hl s s' b. unfold zoom. destruct (m (lget l s)); try done. intros [= <- _]. apply Hl. Qed.

(** The callee moves its own state. *)
Lemma moves_zoom_in {A B} (l : Lens S A) (RA : A -> A -> Prop) (m : M A B) :
  (forall s a, RA (lget l s) a -> R s (lset l a s)) -> moves RA m -> moves R (zoom l m).
Proof.
  intros Hset Hm s s' b. unfold zoom. destruct (m (lget l s)) as [a x| | |] eqn:Ha; try done.
  intros [= <- _]. eapply Hset, Hm, Ha.
Qed.

Lemma moves_with_local {B A} (x : B) (m : M (S * B) A) :
  moves (fun p q => R p.1 q.1) m -> moves R (with_local x m).
Proof.
  intros Hm s s' a. unfold with_local. destruct (m (s, x)) as [p b| | |] eqn:Hp; try done.
  intros [= <- _]. by apply Hm in Hp.
Qed.

Lemma moves_when c m : moves R m -> moves R (when c m).
Proof. intros Hm. destruct c; [done|apply moves_ret]. Qed.

Lemma moves_if {A} (c : bool) (m1 m2 : M S A) :
  moves R m1 -> moves R m2 -> moves R (if c then m1 else m2).
Proof. by destruct c. Qed.

Lemma moves_for_each {A} (body : A -> M S unit) (l : list A) :
  (forall x, moves R (body x)) -> moves R (for_each body l).
Proof.
  intros Hb. induction l as [|x l IH]; simpl; [apply moves_ret|]. by apply moves_bind.
Qed.

Lemma moves_mono {A} (R' : S -> S -> Prop) (m : M S A) :
  (forall s s', R s s' -> R' s s') -> moves R m -> moves R' m.
Proof. intros Hr Hm s s' a Hs. by eapply Hr, Hm. Qed.

(** What an operation does and how far it moves. *)
Lemma wpe_moves {A} (m : M S A) s Q E :
  moves R m -> wpe m s Q E -> wpe m s (fun s' a => Q s' a /\ R s s') E.
Proof. intros Hm. specialize (Hm s). unfold wpe. destruct (m s); naive_solver. Qed.

End moves_rules.

#[export] Hint Resolve moves_ret moves_gets moves_throw moves_ub moves_out_of_fuel moves_assert : moves.
#[export] Hint Extern 0 (unchanged _ _ _) => reflexivity : moves.

(** Walks through an operation; it leaves what is not a step of the monad. *)
Ltac moves_step :=
  match goal with
  | |- moves _ (mbind _ _) => apply moves_bind; [exact _| |intros ?]
  | |- moves _ (zoom _ _) => apply moves_zoom; solve [intros ? ?; eauto with moves]
  | |- moves _ (modify _) => apply moves_modify; solve [intros ?; eauto with moves]
  | |- moves _ (when _ _) => apply moves_when; [exact _|]
  | |- moves _ (if _ then _ else _) => apply moves_if
  | |- moves _ (match ?x with _ => _ end) => destruct x
  | |- moves _ _ => solve [eauto with moves typeclass_instances]
  end.
Ltac moves_walk := repeat moves_step.

(** ** Partial correctness

    [wlp m s Q]: if [m] returns from [s], then in a state and with a value that
    satisfy [Q]. *)
Definition wlp {S A} (m : M S A) (s : S) (Q : S -> A -> Prop) : Prop :=
  forall s' a, m s = Ret s' a -> Q s' a.

Section wlp_rules.
Context {S : Type}.
Implicit Types (s : S).

Lemma wpe_wlp {A} (m : M S A) s Q E : wpe m s Q E -> wlp m s Q.
Proof. unfold wpe, wlp. intros Hm s' a Hs. by rewrite Hs in Hm. Qed.

Lemma wp_wlp {A} (m : M S A) s Q : wp m s Q -> wlp m s Q.
Proof. apply wpe_wlp. Qed.

Lemma wlp_mono {A} (m : M S A) s (Q Q' : S -> A -> Prop) :
  wlp m s Q -> (forall s' a, Q s' a -> Q' s' a) -> wlp m s Q'.
Proof. unfold wlp. eauto. Qed.

Lemma wlp_conj {A} (m : M S A) s (Q Q' : S -> A -> Prop) :
  wlp m s Q -> wlp m s Q' -> wlp m s (fun s' a => Q s' a /\ Q' s' a).
Proof. unfold wlp. eauto. Qed.

Lemma moves_wlp {A} (R : S -> S -> Prop) (m : M S A) s : moves R m -> wlp m s (fun s' _ => R s s').
Proof. unfold wlp. eauto. Qed.

Lemma wlp_ret {A} (a : A) s (Q : S -> A -> Prop) : Q s a -> wlp (mret a) s Q.
Proof. by intros HQ s' a' [= <- <-]. Qed.

Lemma wlp_bind {A B} (m : M S A) (k : A -> M S B) s Q :
  wlp m s (fun s1 a => wlp (k a) s1 Q) -> wlp (m ≫= k) s Q.
Proof. intros Hm s' b (s1 & a & Hs & Hk)%bind_ret_inv. by eapply Hm. Qed.

Lemma wlp_gets {A} (f : S -> A) s (Q : S -> A -> Prop) : Q s (f s) -> wlp (gets f) s Q.
Proof. by intros HQ s' a [= <- <-]. Qed.

Lemma wlp_modify f s (Q : S -> unit -> Prop) : Q (f s) () -> wlp (modify f) s Q.
Proof. by intros HQ s' [] [= <-]. Qed.

Lemma wlp_zoom {A B} (l : Lens S A) (m : M A B) s Q :
  wlp m (lget l s) (fun a b => Q (lset l a s) b) -> wlp (zoom l m) s Q.
Proof. intros Hm s' b. unfold zoom. destruct (m (lget l s)) as [a x| | |] eqn:Ha; try done. intros [= <- <-]. by apply Hm. Qed.

Lemma wlp_with_local {A B} (x : B) (m : M (S * B) A) s (Q : S -> A -> Prop) :
  wlp m (s, x) (fun p a => Q p.1 a) -> wlp (with_local x m) s Q.
Proof.
  intros Hm s' a. unfold with_local. destruct (m (s, x)) as [p b| | |] eqn:Hp; try done.
  intros [= <- <-]. by apply (Hm p).
Qed.

Lemma wlp_when c m s (Q : S -> unit -> Prop) :
  (c = true -> wlp m s Q) -> (c = false -> Q s ()) -> wlp (when c m) s Q.
Proof. destruct c; intros Ht Hf; [by apply Ht|by apply wlp_ret, Hf]. Qed.

Lemma wlp_for_each {A} (body : A -> M S unit) (l : list A) (I : S -> Prop) s :
  I s -> (forall x s1, x ∈ l -> I s1 -> wlp (body x) s1 (fun s2 _ => I s2)) ->
  wlp (for_each body l) s (fun s' _ => I s').
Proof.
  revert s. induction l as [|x l IH]; intros s Hs Hb; simpl; [by apply wlp_ret|].
  apply wlp_bind. eapply wlp_mono; [apply Hb; [by left|done]|]. intros s1 [] Hs1.
  apply IH; [done|]. intros y s2 Hy. apply Hb. by right.
Qed.

End wlp_rules.

Ltac wlp_step :=
  match goal with
  | |- wlp (mbind _ _) _ _ => apply wlp_bind
  | |- wlp (mret _) _ _ => apply wlp_ret
  | |- wlp (gets _) _ _ => apply wlp_gets
  | |- wlp (modify _) _ _ => apply wlp_modify
  | |- wlp (zoom _ _) _ _ => apply wlp_zoom
  end; cbv beta.
Ltac wlp_pures := repeat wlp_step.

(** What every step keeps holds after any number of steps. *)
Lemma rtc_keeps {S} (R : S -> S -> Prop) (P : S -> Prop) s s' :
  (forall x y, P x -> R x y -> P y) -> P s -> rtc R s s' -> P s'.
Proof. intros Hstep Hs Hr. induction Hr as [|x y z Hxy _ IH]; [done|]. by eapply IH, Hstep. Qed.

(** What every step makes smaller is not endless. *)
Lemma ranked_sn {S} (f : S -> nat) (R : S -> S -> Prop) :
  (forall s s', R s s' -> (f s' < f s)%nat) -> forall s, sn R s.
Proof.
  intros Hf s. remember (f s) as n eqn:Hn. revert s Hn.
  induction (lt_wf n) as [n _ IH]. intros s ->. constructor. intros s' Hs. by eapply IH; [apply Hf|].
Qed.

(** An element of a sum replaced. *)
Lemma sum_list_insert (l : list nat) i x y :
  l !! i = Some x -> (sum_list (<[i := y]> l) + x = sum_list l + y)%nat.
Proof.
  revert i. induction l as [|z l IH]; intros [|i] Hi; simpl in *; simplify_eq; [lia|].
  specialize (IH i Hi). lia.
Qed.

(** ** Sequences with [Z] positions *)

Section zlist.
Context {A : Type}.
Implicit Types (l k : list A).

Lemma zlen_nonneg l : 0 <= zlen l.
Proof. unfold zlen. lia. Qed.

Lemma zlen_nil : zlen (@nil A) = 0.
Proof. done. Qed.

Lemma zlen_cons x l : zlen (x :: l) = 1 + zlen l.
Proof. unfold zlen. simpl. lia. Qed.

Lemma zlen_app l k : zlen (l ++ k) = zlen l + zlen k.
Proof. unfold zlen. rewrite length_app. lia. Qed.

Lemma zlen_ztake n l : 0 <= n <= zlen l -> zlen (ztake n l) = n.
Proof. unfold zlen, ztake. intros ?. rewrite length_take. lia. Qed.

Lemma zlen_zdrop n l : 0 <= n <= zlen l -> zlen (zdrop n l) = zlen l - n.
Proof. unfold zlen, zdrop. intros ?. rewrite length_drop. lia. Qed.

Lemma zlen_replicate n (x : A) : 0 <= n -> zlen (replicate (Z.to_nat n) x) = n.
Proof. unfold zlen. intros ?. rewrite length_replicate. lia. Qed.

Lemma zlen_0_nil l : zlen l = 0 -> l = [].
Proof. destruct l; [done|]. rewrite zlen_cons. pose proof (zlen_nonneg l). lia. Qed.

Lemma ztake_zdrop n l : ztake n l ++ zdrop n l = l.
Proof. apply take_drop. Qed.

Lemma ztake_0 l : ztake 0 l = [].
Proof. done. Qed.

Lemma zdrop_0 l : zdrop 0 l = l.
Proof. done. Qed.

Lemma ztake_all n l : zlen l <= n -> ztake n l = l.
Proof. unfold zlen, ztake. intros ?. apply take_ge. lia. Qed.

Lemma zdrop_all n l : zlen l <= n -> zdrop n l = [].
Proof. unfold zlen, zdrop. intros ?. apply drop_ge. lia. Qed.

Lemma zdrop_zdrop n m l : 0 <= n -> 0 <= m -> zdrop n (zdrop m l) = zdrop (m + n) l.
Proof. unfold zdrop. intros ??. rewrite drop_drop. f_equal. lia. Qed.

Lemma ztake_ztake n m l : 0 <= n <= m -> ztake n (ztake m l) = ztake n l.
Proof. unfold ztake. intros ?. rewrite take_take. f_equal. lia. Qed.

Lemma ztake_app_le n l k : n <= zlen l -> ztake n (l ++ k) = ztake n l.
Proof. unfold zlen, ztake. intros ?. apply take_app_le. lia. Qed.

Lemma ztake_app_ge n l k :
  zlen l <= n -> ztake n (l ++ k) = l ++ ztake (n - zlen l) k.
Proof.
  unfold zlen, ztake. intros ?. rewrite take_app_ge by lia. do 2 f_equal. lia.
Qed.

Lemma zdrop_app_le n l k : n <= zlen l -> zdrop n (l ++ k) = zdrop n l ++ k.
Proof. unfold zlen, zdrop. intros ?. apply drop_app_le. lia. Qed.

Lemma zdrop_app_ge n l k : zlen l <= n -> zdrop n (l ++ k) = zdrop (n - zlen l) k.
Proof. unfold zlen, zdrop. intros ?. rewrite drop_app_ge by lia. f_equal. lia. Qed.

Lemma ztake_app_exact l k : ztake (zlen l) (l ++ k) = l.
Proof. rewrite ztake_app_le by done. by apply ztake_all. Qed.

Lemma zdrop_app_exact l k : zdrop (zlen l) (l ++ k) = k.
Proof. rewrite zdrop_app_ge by done. by rewrite Z.sub_diag, zdrop_0. Qed.

Lemma ztake_zdrop_comm n m l :
  0 <= n -> 0 <= m -> ztake n (zdrop m l) = zdrop m (ztake (m + n) l).
Proof.
  unfold ztake, zdrop. intros ??. rewrite take_drop_commute. do 2 f_equal. lia.
Qed.

End zlist.

Create Rewrite HintDb zlen.
#[export] Hint Rewrite @zlen_app @zlen_cons @zlen_nil : zlen.
#[export] Hint Rewrite @zlen_ztake @zlen_zdrop @zlen_replicate using lia : zlen.

(** ** No wrap-around inside the machine's range *)

Lemma u64_small z : 0 <= z < 2 ^ 64 -> u64 z = z.
Proof. apply Z.mod_small. Qed.

Lemma u32_small z : 0 <= z < 2 ^ 32 -> u32 z = z.
Proof. apply Z.mod_small. Qed.

Lemma u16_small z : 0 <= z < 2 ^ 16 -> u16 z = z.
Proof. apply Z.mod_small. Qed.

Lemma u64_range z : 0 <= u64 z < 2 ^ 64.
Proof. by apply Z.mod_pos_bound. Qed.

Lemma u32_range z : 0 <= u32 z < 2 ^ 32.
Proof. by apply Z.mod_pos_bound. Qed.

(** Normalise lengths, record that they are non-negative, and decide. *)
Ltac zlen_nonneg_all :=
  repeat match goal with
  | |- context [zlen ?l] =>
      lazymatch goal with H : 0 <= zlen l |- _ => fail | _ => pose proof (zlen_nonneg l) end
  | _ : context [zlen ?l] |- _ =>
      lazymatch goal with H : 0 <= zlen l |- _ => fail | _ => pose proof (zlen_nonneg l) end
  end.
Ltac zlia := autorewrite with zlen in *; zlen_nonneg_all; lia.
