(* ===== verification/Cxx.v ===== *)
(** * What the code uses of C++ and libc: object memory and byte order

    [Mem]: [std::memcpy], [std::memmove] and [std::vector<char>::resize] on a
    block of bytes, with an access outside the block as undefined behaviour.
    [Wire]: [htonl], [ntohl] and the object representation of a [uint32_t],
    for both host byte orders. *)

From Stdlib Require Import ZArith Lia.
From S2P Require Import Prelude.
Local Open Scope Z_scope.

Module Mem.

(** [std::vector<char>::max_size()]: no object exceeds [PTRDIFF_MAX] bytes. *)
Definition max_size : Z := 2 ^ 63 - 1.

(** Read [n] bytes at offset [off] of the block. *)
Definition read (off n : Z) (m : bytes) : option bytes :=
  if (0 <=? off) && (0 <=? n) && (off + n <=? zlen m)
  then Some (ztake n (zdrop off m)) else None.

(** Write [data] at offset [off] of the block. *)
Definition write (off : Z) (data : bytes) (m : bytes) : option bytes :=
  if (0 <=? off) && (off + zlen data <=? zlen m)
  then Some (ztake off m ++ data ++ zdrop (off + zlen data) m) else None.

(** [resize(n)]: new bytes are value-initialised. *)
Definition resize (n : Z) (m : bytes) : bytes :=
  ztake n m ++ replicate (Z.to_nat (n - zlen m)) Byte.x00.

Lemma read_ok off n m :
  0 <= off -> 0 <= n -> off + n <= zlen m ->
  read off n m = Some (ztake n (zdrop off m)).
Proof.
  intros. unfold read.
  by rewrite !(proj2 (Z.leb_le _ _)) by lia.
Qed.

Lemma write_ok off data m :
  0 <= off -> off + zlen data <= zlen m ->
  write off data m = Some (ztake off m ++ data ++ zdrop (off + zlen data) m).
Proof.
  intros. unfold write.
  by rewrite !(proj2 (Z.leb_le _ _)) by lia.
Qed.

(** What a write leaves readable: the bytes before it, and itself. *)
Lemma write_take off (data m : bytes) :
  0 <= off -> off + zlen data <= zlen m ->
  ztake (off + zlen data) (ztake off m ++ data ++ zdrop (off + zlen data) m)
  = ztake off m ++ data.
Proof.
  intros. zlen_nonneg_all.
  rewrite app_assoc, ztake_app_le by zlia.
  apply ztake_all. zlia.
Qed.

Lemma write_zlen off (data m : bytes) :
  0 <= off -> off + zlen data <= zlen m ->
  zlen (ztake off m ++ data ++ zdrop (off + zlen data) m) = zlen m.
Proof. intros. zlen_nonneg_all. zlia. Qed.

Lemma resize_zlen n (m : bytes) : 0 <= n -> zlen (resize n m) = n.
Proof.
  intros. unfold resize. rewrite zlen_app.
  destruct (Z.le_ge_cases n (zlen m)).
  - rewrite zlen_ztake by lia. replace (Z.to_nat (n - zlen m)) with 0%nat by lia.
    simpl. rewrite zlen_nil. lia.
  - rewrite ztake_all, zlen_replicate by lia. lia.
Qed.

Lemma resize_grow n m :
  zlen m <= n -> resize n m = m ++ replicate (Z.to_nat (n - zlen m)) Byte.x00.
Proof. intros. unfold resize. by rewrite ztake_all. Qed.

End Mem.

Module Wire.

(** The byte order of the host. *)
Inductive endian := LittleEndian | BigEndian.

(** The object representation of a [uint32_t], and its value. *)
Definition store_u32 (host : endian) (x : Z) : bytes :=
  match host with
  | LittleEndian => le_split 4 x
  | BigEndian => reverse (le_split 4 x)
  end.
Definition load_u32 (host : endian) (bs : bytes) : Z :=
  match host with
  | LittleEndian => le_combine bs
  | BigEndian => le_combine (reverse bs)
  end.

(** [htonl] and [ntohl]: a byte swap on a little-endian host. *)
Definition bswap32 (x : Z) : Z := le_combine (reverse (le_split 4 x)).
Definition htonl (host : endian) (x : Z) : Z :=
  match host with LittleEndian => bswap32 x | BigEndian => u32 x end.
Definition ntohl (host : endian) (x : Z) : Z := htonl host x.

(** Network byte order: the four bytes, most significant first. *)
Definition be32 (x : Z) : bytes := reverse (le_split 4 x).
Definition be32_value (bs : bytes) : Z := le_combine (reverse bs).

Lemma be32_length x : length (be32 x) = 4%nat.
Proof. unfold be32. by rewrite length_reverse, length_le_split. Qed.

Lemma be32_zlen x : zlen (be32 x) = 4.
Proof. unfold zlen. by rewrite be32_length. Qed.

Lemma be32_value_be32 x : be32_value (be32 x) = u32 x.
Proof. unfold be32, be32_value. rewrite reverse_involutive. apply le_combine_split. Qed.

Lemma be32_be32_value bs : length bs = 4%nat -> be32 (be32_value bs) = bs.
Proof.
  intros Hl. unfold be32, be32_value.
  rewrite split_le_combine' by by rewrite length_reverse.
  apply reverse_involutive.
Qed.

Lemma be32_value_bound bs : length bs = 4%nat -> 0 <= be32_value bs < 2 ^ 32.
Proof.
  intros Hl. unfold be32_value.
  pose proof (le_combine_bound (reverse bs)) as H.
  by rewrite length_reverse, Hl in H.
Qed.

Lemma be32_u32 x : be32 (u32 x) = be32 x.
Proof. unfold be32. by rewrite (le_split_mod x 4). Qed.

(** The code's [htonl] + [append] writes network byte order on every host. *)
Lemma store_htonl host x : store_u32 host (htonl host x) = be32 x.
Proof.
  destruct host; [|exact (be32_u32 x)].
  unfold be32, store_u32, htonl, bswap32.
  apply split_le_combine'. by rewrite length_reverse, length_le_split.
Qed.

(** The code's [memcpy] + [ntohl] reads network byte order on every host. *)
Lemma ntohl_load host bs :
  length bs = 4%nat -> ntohl host (load_u32 host bs) = be32_value bs.
Proof.
  intros Hl. unfold ntohl, be32_value. destruct host; simpl.
  - unfold bswap32. by rewrite split_le_combine'.
  - apply Z.mod_small. pose proof (be32_value_bound bs Hl). unfold be32_value in *. lia.
Qed.

End Wire.

#[global] Arguments Wire.be32 : simpl never.
#[global] Arguments Wire.be32_value : simpl never.
#[global] Arguments Wire.store_u32 : simpl never.
#[global] Arguments Wire.load_u32 : simpl never.
#[global] Arguments Wire.htonl : simpl never.
#[export] Hint Rewrite Wire.be32_zlen : zlen.
