(* ===== verification/NetBuffer.v ===== *)
(** * The byte buffer (include/net/buffer.h, src/net/buffer.cpp)

    [Buffer.t] is the object: the vector [buf_] and the two indices.  Every
    member function is a monadic operation on it, with the [size_t]
    arithmetic of the code at 64 bits and every memory access checked.
    [contents] is the abstract value, the readable bytes; [Queue] is the
    specification, a byte queue, and [run_refines] shows that the buffer
    implements it for every sequence of operations. *)

From Stdlib Require Import ZArith Lia.
From S2P Require Import Prelude Cxx.
Local Open Scope Z_scope.

Module Buffer.

Definition kPrependSize : Z := 8.
Definition kInitialSize : Z := 4096.

Record t := mk { buf_ : bytes; read_idx_ : Z; write_idx_ : Z }.

(** [explicit Buffer(size_t initial_size)] *)
Definition make (initial_size : Z) : t :=
  {| buf_ := replicate (Z.to_nat (kPrependSize + initial_size)) Byte.x00;
     read_idx_ := kPrependSize; write_idx_ := kPrependSize |}.

Definition set_buf (m : bytes) (b : t) : t := mk m (read_idx_ b) (write_idx_ b).
Definition set_read (i : Z) (b : t) : t := mk (buf_ b) i (write_idx_ b).
Definition set_write (i : Z) (b : t) : t := mk (buf_ b) (read_idx_ b) i.

Definition readable (b : t) : Z := u64 (write_idx_ b - read_idx_ b).
Definition writable (b : t) : Z := u64 (zlen (buf_ b) - write_idx_ b).
Definition prependable (b : t) : Z := read_idx_ b.

(** [memcpy(dst, peek() + off, len)]: the bytes behind the read pointer. *)
Definition peek (off len : Z) : M t bytes := fun b =>
  match Mem.read (read_idx_ b + off) len (buf_ b) with
  | Some bs => Ret b bs
  | None => Ub "read outside the buffer"
  end.

(** [memcpy(begin_write(), data, len)] *)
Definition write_at_end (data : bytes) : M t unit := fun b =>
  match Mem.write (write_idx_ b) data (buf_ b) with
  | Some m => Ret (set_buf m b) ()
  | None => Ub "write outside the buffer"
  end.

Definition has_written (len : Z) : M t unit :=
  modify (fun b => set_write (u64 (write_idx_ b + len)) b).

Definition reset : M t unit :=
  modify (fun b => set_write kPrependSize (set_read kPrependSize b)).

(** [std::memmove(begin() + kPrependSize, peek(), readable_bytes)] *)
Definition move_front (n : Z) : M t unit := fun b =>
  match Mem.read (read_idx_ b) n (buf_ b) with
  | Some bs =>
      match Mem.write kPrependSize bs (buf_ b) with
      | Some m => Ret (set_buf m b) ()
      | None => Ub "memmove outside the buffer"
      end
  | None => Ub "memmove outside the buffer"
  end.

(** [buf_.resize(n)] *)
Definition resize_buf (n : Z) : M t unit := fun b =>
  if n <=? Mem.max_size then Ret (set_buf (Mem.resize n (buf_ b)) b) ()
  else Throw b (length_error "vector::_M_default_append").

Definition grow (len : Z) : M t unit :=
  b ← gets id;
  if u64 (len + kPrependSize) <=? u64 (writable b + prependable b) then
    let readable_bytes := readable b in
    move_front readable_bytes ;;
    modify (set_read kPrependSize) ;;
    modify (fun b' => set_write (u64 (read_idx_ b' + readable_bytes)) b')
  else
    resize_buf (u64 (write_idx_ b + len)).

Definition ensure_writable (len : Z) : M t unit :=
  b ← gets id;
  when (writable b <? len) (grow len).

(** [append(const char* data, size_t len)] and [append(const std::string&)] *)
Definition append (data : bytes) : M t unit :=
  ensure_writable (zlen data) ;;
  write_at_end data ;;
  has_written (zlen data).

Definition retrieve (len : Z) : M t unit :=
  b ← gets id;
  assert_ (len <=? readable b) "len <= readable()" ;;
  modify (fun b' => set_read (u64 (read_idx_ b' + len)) b') ;;
  b' ← gets id;
  when (read_idx_ b' =? write_idx_ b') reset.

Definition retrieve_as_string (len : Z) : M t bytes :=
  b ← gets id;
  assert_ (len <=? readable b) "len <= readable()" ;;
  res ← peek 0 len;
  retrieve len ;;
  mret res.

Definition retrieve_all_as_string : M t bytes :=
  b ← gets id;
  retrieve_as_string (readable b).

(** The result of [readv]: an error with its [errno], or the bytes stored. *)
Inductive read_result :=
| ReadErr (errno : Z)
| ReadOk (data : bytes).

Definition kExtraSize : Z := 65536.

(** The bytes [readv] may store: the writable part, and the stack buffer
    when the writable part is smaller than it. *)
Definition iov_capacity (b : t) : Z :=
  let writable_bytes := writable b in
  if writable_bytes <? kExtraSize then writable_bytes + kExtraSize
  else writable_bytes.

(** [read_fd] after [readv] answered [res]: the vector's first
    [writable_bytes] bytes go to the buffer, the others to [extra].  The value
    is [n], with [errno] for a negative one. *)
Definition read_fd (res : read_result) : M t (Z * Z) :=
  b ← gets id;
  let writable_bytes := writable b in
  match res with
  | ReadErr errno => mret (-1, errno)
  | ReadOk data =>
      let n := zlen data in
      write_at_end (ztake writable_bytes data) ;;
      let extra := zdrop writable_bytes data in
      (if n <=? writable_bytes then has_written n
       else
         modify (fun b' => set_write (zlen (buf_ b')) b') ;;
         append (ztake (n - writable_bytes) extra)) ;;
      mret (n, 0)
  end.

(** ** Invariant and abstract value *)

(** The class's invariant: the layout [prependable | readable | writable]. *)
Record wf (b : t) : Prop := {
  wf_prepend : kPrependSize <= read_idx_ b;
  wf_order : read_idx_ b <= write_idx_ b;
  wf_end : write_idx_ b <= zlen (buf_ b);
  wf_size : zlen (buf_ b) <= Mem.max_size;
}.

(** The readable bytes. *)
Definition contents (b : t) : bytes :=
  zdrop (read_idx_ b) (ztake (write_idx_ b) (buf_ b)).

(** A byte string that exists as a C++ object. *)
Definition is_object (data : bytes) : Prop := zlen data <= Mem.max_size.

(** The vector's size once [len] bytes fit behind the write index: it grows
    only when neither the writable part nor compaction gives the room. *)
Definition size_after (b : t) (len : Z) : Z :=
  let size := zlen (buf_ b) in
  if (write_idx_ b + len <=? size)
     || (kPrependSize + (write_idx_ b - read_idx_ b) + len <=? size)
  then size else write_idx_ b + len.

(** ** The specification: a byte queue *)

Module Queue.

Inductive op :=
| Append (data : bytes)
| Retrieve (len : Z)
| RetrieveAsString (len : Z)
| RetrieveAll
| ReadFd (res : read_result).

(** What an operation returns to its caller. *)
Inductive answer := Done | Str (s : bytes) | Count (n errno : Z).

Definition step (o : op) (q : bytes) : option (bytes * answer) :=
  match o with
  | Append data => Some (q ++ data, Done)
  | Retrieve len =>
      if (0 <=? len) && (len <=? zlen q) then Some (zdrop len q, Done) else None
  | RetrieveAsString len =>
      if (0 <=? len) && (len <=? zlen q)
      then Some (zdrop len q, Str (ztake len q)) else None
  | RetrieveAll => Some ([], Str q)
  | ReadFd (ReadErr errno) => Some (q, Count (-1) errno)
  | ReadFd (ReadOk data) => Some (q ++ data, Count (zlen data) 0)
  end.

Fixpoint run (ops : list op) (q : bytes) : option (bytes * list answer) :=
  match ops with
  | [] => Some (q, [])
  | o :: ops' =>
      match step o q with
      | Some (q', a) =>
          match run ops' q' with
          | Some (q'', l) => Some (q'', a :: l)
          | None => None
          end
      | None => None
      end
  end.

End Queue.

(** The buffer's side of an operation, and of a sequence of them. *)
Definition exec (o : Queue.op) : M t Queue.answer :=
  match o with
  | Queue.Append data => append data ;; mret Queue.Done
  | Queue.Retrieve len => retrieve len ;; mret Queue.Done
  | Queue.RetrieveAsString len => s ← retrieve_as_string len; mret (Queue.Str s)
  | Queue.RetrieveAll => s ← retrieve_all_as_string; mret (Queue.Str s)
  | Queue.ReadFd res => p ← read_fd res; mret (Queue.Count p.1 p.2)
  end.

Fixpoint exec_all (ops : list Queue.op) : M t (list Queue.answer) :=
  match ops with
  | [] => mret []
  | o :: ops' => a ← exec o; l ← exec_all ops'; mret (a :: l)
  end.

(** The bytes an operation adds: the sum bounds what a run can allocate. *)
Definition op_size (o : Queue.op) : Z :=
  match o with
  | Queue.Append data | Queue.ReadFd (ReadOk data) => zlen data
  | _ => 0
  end.

Definition ops_size (ops : list Queue.op) : Z :=
  foldr (fun o n => op_size o + n) 0 ops.

(** ** Lemmas *)

Section lemmas.
Implicit Types (b : t) (data : bytes).

Lemma wf_bounds b :
  wf b -> 8 <= read_idx_ b <= write_idx_ b /\ write_idx_ b <= zlen (buf_ b) < 2 ^ 63.
Proof. intros [H1 H2 H3 H4]. unfold kPrependSize, Mem.max_size in *. lia. Qed.

Lemma contents_zlen b : wf b -> zlen (contents b) = write_idx_ b - read_idx_ b.
Proof.
  intros Hwf%wf_bounds. unfold contents.
  rewrite zlen_zdrop, zlen_ztake by (rewrite ?zlen_ztake; lia). lia.
Qed.

Lemma readable_eq b : wf b -> readable b = zlen (contents b).
Proof.
  intros Hwf. rewrite contents_zlen by done. apply wf_bounds in Hwf.
  unfold readable. apply u64_small. lia.
Qed.

Lemma writable_eq b : wf b -> writable b = zlen (buf_ b) - write_idx_ b.
Proof. intros Hwf%wf_bounds. unfold writable. apply u64_small. lia. Qed.

Lemma make_wf n : 0 <= n -> n + 8 <= Mem.max_size -> wf (make n).
Proof.
  intros. split; simpl; unfold kPrependSize; rewrite ?zlen_replicate by lia; lia.
Qed.

Lemma make_contents n : 0 <= n -> contents (make n) = [].
Proof.
  intros. unfold contents, make, kPrependSize. simpl.
  apply zdrop_all. rewrite zlen_ztake; rewrite ?zlen_replicate; lia.
Qed.

Lemma make_zlen n : 0 <= n -> zlen (buf_ (make n)) = n + 8.
Proof. intros. simpl. unfold kPrependSize. rewrite zlen_replicate; lia. Qed.

Lemma default_wf : wf (make kInitialSize).
Proof. apply make_wf; unfold kInitialSize, Mem.max_size; lia. Qed.

(** Reading behind the read pointer. *)
Lemma peek_spec b off len (Q : t -> bytes -> Prop) :
  wf b -> 0 <= off -> 0 <= len -> off + len <= zlen (contents b) ->
  Q b (ztake len (zdrop off (contents b))) ->
  wp (peek off len) b Q.
Proof.
  intros Hwf Ho Hl Hc HQ. rewrite contents_zlen in Hc by done.
  apply wf_bounds in Hwf. unfold wp, wpe, peek.
  rewrite Mem.read_ok by lia.
  unfold contents in HQ. rewrite zdrop_zdrop in HQ by lia.
  rewrite (ztake_zdrop_comm len), ztake_ztake, <- ztake_zdrop_comm in HQ by lia.
  done.
Qed.

(** Compaction keeps the readable bytes and the vector's size. *)
Lemma compact_spec b n :
  wf b -> n = readable b ->
  wp (move_front n ;; modify (set_read kPrependSize) ;;
      modify (fun b' => set_write (u64 (read_idx_ b' + n)) b')) b
    (fun b' _ => wf b' /\ contents b' = contents b /\ read_idx_ b' = kPrependSize /\
       write_idx_ b' = kPrependSize + zlen (contents b) /\ zlen (buf_ b') = zlen (buf_ b)).
Proof.
  intros Hwf ->. rewrite (readable_eq b Hwf).
  pose proof (contents_zlen b Hwf) as Hlen. pose proof (wf_bounds b Hwf) as Hb.
  apply wp_bind. unfold wp at 1, wpe, move_front.
  rewrite Mem.read_ok by lia.
  rewrite ztake_zdrop_comm by lia.
  replace (read_idx_ b + zlen (contents b)) with (write_idx_ b) by lia.
  change (zdrop (read_idx_ b) (ztake (write_idx_ b) (buf_ b))) with (contents b).
  unfold kPrependSize. rewrite Mem.write_ok by lia.
  wp_pures. simpl. rewrite u64_small by lia.
  rewrite Mem.write_zlen by lia.
  split_and!; try done.
  - split; simpl; unfold kPrependSize; try rewrite Mem.write_zlen; try lia.
    apply Hwf.
  - unfold contents at 1. simpl.
    rewrite Mem.write_take by lia.
    rewrite zdrop_app_ge by (rewrite zlen_ztake by lia; lia).
    by rewrite zlen_ztake, Z.sub_diag, zdrop_0 by lia.
Qed.

Definition too_long (b : t) (len : Z) (b' : t) (e : exn) : Prop :=
  b' = b /\ e = length_error "vector::_M_default_append" /\
  Mem.max_size < write_idx_ b + len.

Lemma ensure_writable_spec b len :
  wf b -> 0 <= len <= Mem.max_size ->
  wpe (ensure_writable len) b
    (fun b' _ => wf b' /\ contents b' = contents b /\
       write_idx_ b' + len <= zlen (buf_ b') /\ zlen (buf_ b') = size_after b len)
    (too_long b len).
Proof.
  intros Hwf Hlen. pose proof (wf_bounds b Hwf) as Hb.
  pose proof (contents_zlen b Hwf) as Hc.
  unfold Mem.max_size in Hlen. unfold size_after, kPrependSize.
  unfold ensure_writable. apply wpe_bind. unfold wpe at 1, gets, id.
  rewrite (writable_eq b Hwf).
  destruct (Z.ltb_spec (zlen (buf_ b) - write_idx_ b) len) as [Hlt|Hge]; simpl;
    [|rewrite (proj2 (Z.leb_le _ _)) by lia; unfold wpe; simpl; split_and!; (done || lia)].
  rewrite (proj2 (Z.leb_gt (write_idx_ b + len) _)) by lia. simpl.
  unfold grow. apply wpe_bind. unfold wpe at 1, gets, id.
  rewrite (writable_eq b Hwf). unfold prependable, kPrependSize at 1 2.
  rewrite !u64_small by lia.
  destruct (Z.leb_spec (len + 8) (zlen (buf_ b) - write_idx_ b + read_idx_ b)) as [Hroom|Hno];
    [rewrite (proj2 (Z.leb_le _ _)) by lia|rewrite (proj2 (Z.leb_gt _ _)) by lia].
  - apply wp_wpe. eapply wp_mono; [by apply compact_spec|].
    unfold kPrependSize. cbv beta. intros b' _ (?&?&?&?&?). split_and!; try done; lia.
  - unfold wpe, resize_buf.
    destruct (Z.leb_spec (write_idx_ b + len) Mem.max_size) as [Hfit|Hbig].
    + simpl. rewrite Mem.resize_grow by lia.
      assert (zlen (buf_ b ++ replicate (Z.to_nat (write_idx_ b + len - zlen (buf_ b))) Byte.x00)
              = write_idx_ b + len) as Hz.
      { rewrite zlen_app, zlen_replicate by lia. lia. }
      split_and!.
      * split; simpl; rewrite ?Hz; unfold kPrependSize; lia.
      * unfold contents. simpl. by rewrite ztake_app_le by lia.
      * simpl. rewrite Hz. lia.
      * simpl. rewrite Hz. lia.
    + by split_and!.
Qed.

(** [begin_write()] filled with [data]: the bytes become readable when the
    write index moves over them. *)
Lemma write_at_end_wp b data :
  wf b -> write_idx_ b + zlen data <= zlen (buf_ b) ->
  wp (write_at_end data) b
    (fun b' _ => write_idx_ b' = write_idx_ b /\ zlen (buf_ b') = zlen (buf_ b) /\
       wf (set_write (write_idx_ b + zlen data) b') /\
       contents (set_write (write_idx_ b + zlen data) b') = contents b ++ data).
Proof.
  intros Hwf Hfit. pose proof (wf_bounds b Hwf) as Hb. zlen_nonneg_all.
  unfold wp, wpe, write_at_end. rewrite Mem.write_ok by lia. simpl.
  rewrite Mem.write_zlen by lia. split_and!; try done.
  - split; simpl; rewrite ?Mem.write_zlen by lia; unfold kPrependSize; try lia.
    apply Hwf.
  - unfold contents at 1. simpl. rewrite Mem.write_take by lia.
    rewrite zdrop_app_le; [done|]. rewrite zlen_ztake; lia.
Qed.

Lemma write_has_written_wp b data :
  wf b -> write_idx_ b + zlen data <= zlen (buf_ b) ->
  wp (write_at_end data ;; has_written (zlen data)) b
    (fun b' _ => wf b' /\ contents b' = contents b ++ data /\ zlen (buf_ b') = zlen (buf_ b)).
Proof.
  intros Hwf Hfit. pose proof (wf_bounds b Hwf) as Hb. zlen_nonneg_all.
  apply wp_bind. eapply wp_mono; [by apply write_at_end_wp|].
  cbv beta. intros b' [] (Hw & Hz & ? & ?). unfold has_written. wp_pures.
  rewrite Hw, u64_small by lia. done.
Qed.

Lemma append_wpe b data :
  wf b -> is_object data ->
  wpe (append data) b
    (fun b' _ => wf b' /\ contents b' = contents b ++ data /\
       zlen (buf_ b') = size_after b (zlen data))
    (too_long b (zlen data)).
Proof.
  intros Hwf Hobj. zlen_nonneg_all. unfold append. apply wpe_bind.
  eapply wpe_mono; [apply ensure_writable_spec; [done|] | | done].
  - unfold is_object in Hobj. lia.
  - intros b' _ (Hwf' & Hc & Hroom). apply wp_wpe.
    eapply wp_mono; [apply write_has_written_wp; [done|lia]|].
    cbv beta. intros b'' _ (? & -> & ?). rewrite Hc. split_and!; try done. lia.
Qed.

Lemma size_after_le b len :
  wf b -> 0 <= len -> size_after b len <= zlen (buf_ b) + len.
Proof.
  intros Hwf%wf_bounds ?. unfold size_after. destruct (_ || _); lia.
Qed.

(** With room below the size limit, [append] returns. *)
Lemma append_wp b data :
  wf b -> zlen (buf_ b) + zlen data <= Mem.max_size ->
  wp (append data) b
    (fun b' _ => wf b' /\ contents b' = contents b ++ data /\
       zlen (buf_ b') <= zlen (buf_ b) + zlen data).
Proof.
  intros Hwf Hfit. pose proof (wf_bounds b Hwf). zlen_nonneg_all.
  eapply wpe_mono; [apply append_wpe; [done|] | |].
  - unfold is_object. lia.
  - intros b' _ (?&?& ->). split_and!; try done. by apply size_after_le.
  - intros b' e (_ & _ & ?). simpl. lia.
Qed.

Lemma retrieve_wp b len :
  wf b -> 0 <= len <= zlen (contents b) ->
  wp (retrieve len) b
    (fun b' _ => wf b' /\ contents b' = zdrop len (contents b) /\ buf_ b' = buf_ b).
Proof.
  intros Hwf Hlen. pose proof (wf_bounds b Hwf) as Hb.
  pose proof (contents_zlen b Hwf) as Hc.
  unfold retrieve. wp_pures. unfold id.
  apply wp_assert; [apply Z.leb_le; rewrite readable_eq by done; lia|].
  wp_pures. simpl. rewrite u64_small by lia.
  assert (wf (set_read (read_idx_ b + len) b)) as Hwf'.
  { destruct Hwf. split; simpl; lia. }
  assert (contents (set_read (read_idx_ b + len) b) = zdrop len (contents b)) as Hc'.
  { unfold contents. simpl. by rewrite zdrop_zdrop by lia. }
  destruct (Z.eqb_spec (read_idx_ b + len) (write_idx_ b)) as [Heq|Hne]; simpl.
  - unfold reset. wp_pures. split_and!; [| |done].
    + destruct Hwf. split; simpl; unfold kPrependSize in *; lia.
    + rewrite <- Hc'. unfold contents. simpl. unfold kPrependSize.
      rewrite !zdrop_all; [done|rewrite zlen_ztake; lia..].
  - wp_pures. by split_and!.
Qed.

Lemma retrieve_as_string_wp b len :
  wf b -> 0 <= len <= zlen (contents b) ->
  wp (retrieve_as_string len) b
    (fun b' s => wf b' /\ s = ztake len (contents b) /\
       contents b' = zdrop len (contents b) /\ buf_ b' = buf_ b).
Proof.
  intros Hwf Hlen. unfold retrieve_as_string. wp_pures. unfold id.
  apply wp_assert; [apply Z.leb_le; rewrite readable_eq by done; lia|].
  apply wp_bind. apply peek_spec; try done; try lia.
  wp_pures. eapply wp_mono; [by apply retrieve_wp|].
  intros b' _ (?&?&?). wp_pures. by rewrite zdrop_0.
Qed.

Lemma retrieve_all_wp b :
  wf b ->
  wp retrieve_all_as_string b
    (fun b' s => wf b' /\ s = contents b /\ contents b' = [] /\ buf_ b' = buf_ b).
Proof.
  intros Hwf. unfold retrieve_all_as_string. wp_pures. unfold id.
  rewrite readable_eq by done. zlen_nonneg_all.
  eapply wp_mono; [apply retrieve_as_string_wp; [done|lia]|].
  intros b' s (? & -> & -> & ?). by rewrite ztake_all, zdrop_all by lia.
Qed.

Lemma full_wf b : wf b -> wf (set_write (zlen (buf_ b)) b).
Proof. intros []. split; simpl; lia. Qed.

(** [readv] obeys its contract: it stores no more than the two blocks hold. *)
Lemma read_fd_wp b data :
  wf b -> zlen data <= iov_capacity b ->
  zlen (buf_ b) + zlen data <= Mem.max_size ->
  wp (read_fd (ReadOk data)) b
    (fun b' r => wf b' /\ contents b' = contents b ++ data /\ r = (zlen data, 0) /\
       zlen (buf_ b') <= zlen (buf_ b) + zlen data).
Proof.
  intros Hwf Hcap Hfit. pose proof (wf_bounds b Hwf) as Hb.
  pose proof (zlen_nonneg data). unfold read_fd. wp_pures. unfold id.
  rewrite (writable_eq b Hwf). set (w := zlen (buf_ b) - write_idx_ b).
  destruct (Z.leb_spec (zlen data) w) as [Hle|Hgt].
  - rewrite (ztake_all w) by lia.
    eapply wp_mono; [apply write_at_end_wp; [done|lia]|].
    cbv beta. intros b1 [] (Hw & Hz & ? & ?). unfold has_written. wp_pures.
    rewrite Hw, u64_small by lia. split_and!; try done. simpl. lia.
  - assert (zlen (ztake w data) = w) as Hzt by (apply zlen_ztake; lia).
    eapply wp_mono; [apply write_at_end_wp; [done|lia]|].
    rewrite Hzt. cbv beta. intros b1 [] (Hw & Hz & Hwf1 & Hc1). wp_pures.
    replace (write_idx_ b + w) with (zlen (buf_ b1)) in Hwf1, Hc1 by lia.
    rewrite (ztake_all (zlen data - w)) by (rewrite zlen_zdrop; lia).
    eapply wp_mono; [apply append_wp; [done|simpl; rewrite zlen_zdrop; lia]|].
    simpl. intros b2 [] (? & Hc2 & Hz2). wp_pures. rewrite zlen_zdrop in Hz2 by lia.
    rewrite Hc2, Hc1, <- app_assoc, ztake_zdrop. split_and!; try done. lia.
Qed.

(** Without a bound on the vector: the only failure is the allocation. *)
Lemma read_fd_wpe b data :
  wf b -> zlen data <= iov_capacity b ->
  wpe (read_fd (ReadOk data)) b
    (fun b' r => wf b' /\ contents b' = contents b ++ data /\ r = (zlen data, 0))
    (fun b' e => wf b' /\ e = length_error "vector::_M_default_append").
Proof.
  intros Hwf Hcap. pose proof (wf_bounds b Hwf) as Hb. pose proof (wf_size _ Hwf) as Hsz.
  pose proof (zlen_nonneg data). unfold iov_capacity, kExtraSize in Hcap.
  unfold read_fd. wpe_pures. unfold id.
  rewrite (writable_eq b Hwf) in *. set (w := zlen (buf_ b) - write_idx_ b) in *.
  destruct (Z.leb_spec (zlen data) w) as [Hle|Hgt].
  - rewrite (ztake_all w) by lia. apply wp_wpe.
    eapply wp_mono; [apply write_at_end_wp; [done|lia]|].
    cbv beta. intros b1 [] (Hw & Hz & ? & ?). unfold has_written. wpe_pures.
    rewrite Hw, u64_small by lia. done.
  - assert (zlen (ztake w data) = w) as Hzt by (apply zlen_ztake; lia).
    apply wp_wpe. eapply wp_mono; [apply write_at_end_wp; [done|lia]|].
    rewrite Hzt. cbv beta. intros b1 [] (Hw & Hz & Hwf1 & Hc1). wpe_pures.
    replace (write_idx_ b + w) with (zlen (buf_ b1)) in Hwf1, Hc1 by lia.
    rewrite (ztake_all (zlen data - w)) by (rewrite zlen_zdrop; lia).
    eapply wpe_mono; [apply append_wpe; [done|]| |].
    + unfold is_object, Mem.max_size. rewrite zlen_zdrop by lia.
      destruct (Z.ltb_spec w 65536); lia.
    + simpl. intros b2 [] (? & Hc2 & Hz2). wpe_pures.
      by rewrite Hc2, Hc1, <- app_assoc, ztake_zdrop.
    + intros b2 e (-> & -> & _). done.
Qed.

End lemmas.

(** ** The buffer implements the queue *)

(** Arguments the code can be called with: a [size_t], and an answer of
    [readv] that fits the blocks it was given. *)
Definition op_ok (o : Queue.op) (b : t) : Prop :=
  match o with
  | Queue.Append _ | Queue.RetrieveAll | Queue.ReadFd (ReadErr _) => True
  | Queue.Retrieve len | Queue.RetrieveAsString len => 0 <= len
  | Queue.ReadFd (ReadOk data) => zlen data <= iov_capacity b
  end.

Fixpoint ops_ok (ops : list Queue.op) (b : t) : Prop :=
  match ops with
  | [] => True
  | o :: ops' => op_ok o b /\ match exec o b with Ret b' _ => ops_ok ops' b' | _ => True end
  end.

(** One operation of the buffer is one step of the queue, and fails an
    assertion exactly when the queue has no step. *)
Definition simulates {A} (m : M t A) (b : t) (spec : option (bytes * A)) (room : Z) : Prop :=
  match spec with
  | Some (q, a) =>
      wp m b (fun b' a' => wf b' /\ contents b' = q /\ a' = a /\
                zlen (buf_ b') <= zlen (buf_ b) + room)
  | None => exists why, m b = Ub why
  end.

Lemma retrieve_too_much b len :
  wf b -> zlen (contents b) < len ->
  retrieve len b = Ub "len <= readable()" /\
  retrieve_as_string len b = Ub "len <= readable()".
Proof.
  intros Hwf Hlen. unfold retrieve, retrieve_as_string, mbind, M_bind, gets, id, assert_.
  rewrite readable_eq by done. by rewrite (proj2 (Z.leb_gt _ _)) by lia.
Qed.

Lemma exec_simulates o b :
  wf b -> op_ok o b -> zlen (buf_ b) + op_size o <= Mem.max_size ->
  simulates (exec o) b (Queue.step o (contents b)) (op_size o).
Proof.
  intros Hwf Hok Hroom. unfold simulates.
  destruct o as [data|len|len| |[errno|data]]; simpl in *.
  - apply wp_bind. eapply wp_mono; [by apply append_wp|]. cbv beta.
    intros b' _ (?&?&?). wp_pures. by split_and!.
  - rewrite (proj2 (Z.leb_le 0 len)) by done. simpl.
    destruct (Z.leb_spec len (zlen (contents b))).
    + apply wp_bind. eapply wp_mono; [by apply retrieve_wp|]. cbv beta.
      intros b' _ (?&?& Hb). wp_pures. rewrite Hb. split_and!; try done. lia.
    + eexists. unfold mbind, M_bind.
      by rewrite (proj1 (retrieve_too_much b len Hwf ltac:(lia))).
  - rewrite (proj2 (Z.leb_le 0 len)) by done. simpl.
    destruct (Z.leb_spec len (zlen (contents b))).
    + apply wp_bind. eapply wp_mono; [by apply retrieve_as_string_wp|]. cbv beta.
      intros b' s (?& -> &?& Hb). wp_pures. rewrite Hb. split_and!; try done. lia.
    + eexists. unfold mbind, M_bind.
      by rewrite (proj2 (retrieve_too_much b len Hwf ltac:(lia))).
  - apply wp_bind. eapply wp_mono; [by apply retrieve_all_wp|]. cbv beta.
    intros b' s (?& -> &?& Hb). wp_pures. rewrite Hb. split_and!; try done. lia.
  - wp_pures. unfold id. wp_pures. split_and!; try done. lia.
  - apply wp_bind. eapply wp_mono; [by apply read_fd_wp|]. cbv beta.
    intros b' r (?&?& -> &?). wp_pures. by split_and!.
Qed.

(** C17. The buffer implements a byte queue.  For every sequence of member
    calls whose [readv] answers fit the blocks, as long as the bytes added stay
    below the vector's maximal size: where the queue has a run, the buffer
    returns with the same answers, the same contents and its layout invariant,
    its vector no longer than before by more than the bytes added; where the
    queue has none (a retrieve of more than is readable), an assertion fails. *)
Theorem run_refines ops b :
  wf b -> ops_ok ops b -> zlen (buf_ b) + ops_size ops <= Mem.max_size ->
  simulates (exec_all ops) b (Queue.run ops (contents b)) (ops_size ops).
Proof.
  revert b. induction ops as [|o ops IH]; intros b Hwf Hok Hroom; simpl in *.
  { unfold simulates. wp_pures. split_and!; try done. lia. }
  destruct Hok as [Ho Hops].
  assert (0 <= op_size o /\ 0 <= ops_size ops) as [??].
  { split; [destruct o as [| | | |[]]; simpl; zlen_nonneg_all; lia|].
    clear. induction ops as [|[| | | |[]] ops IH]; simpl; zlen_nonneg_all; lia. }
  pose proof (exec_simulates o b Hwf Ho ltac:(lia)) as Hsim.
  destruct (Queue.step o (contents b)) as [[q a]|]; simpl in Hsim.
  - apply wp_ret_inv in Hsim as (b1 & a1 & Heq & Hwf1 & <- & -> & Hz1).
    rewrite Heq in Hops. specialize (IH b1 Hwf1 Hops ltac:(lia)).
    destruct (Queue.run ops (contents b1)) as [[q' l]|]; simpl in IH |- *.
    + apply wp_ret_inv in IH as (b2 & l2 & Heq2 & Hwf2 & Hq & -> & Hz2).
      unfold wp, wpe, mbind, M_bind. rewrite Heq, Heq2. simpl.
      split_and!; try done. lia.
    + destruct IH as [why Hub]. exists why. unfold mbind, M_bind. by rewrite Heq, Hub.
  - destruct Hsim as [why Hub]. exists why. unfold mbind, M_bind. by rewrite Hub.
Qed.

Lemma run_refines_witness :
  let b := make 16 in
  let data := Byte.x61 :: Byte.x62 :: replicate 30 Byte.x63 in
  let ops := [Queue.Append data; Queue.Retrieve 20; Queue.ReadFd (ReadOk data);
              Queue.RetrieveAsString 3; Queue.ReadFd (ReadErr 11); Queue.RetrieveAll] in
  simulates (exec_all ops) b (Queue.run ops []) (ops_size ops).
Proof.
  apply (run_refines _ (make 16)).
  - apply make_wf; vm_compute; congruence.
  - vm_compute. repeat split; congruence.
  - vm_compute. congruence.
Defined.

(** C31. [append] on every branch: the bytes follow the readable ones, with or
    without compaction; the vector is reallocated only when compaction does
    not give the room, to exactly the length needed; past the vector's maximal
    size it throws [length_error] and leaves the buffer unchanged. *)
Theorem append_spec b data :
  wf b -> is_object data ->
  wpe (append data) b
    (fun b' _ => wf b' /\ contents b' = contents b ++ data /\
       zlen (buf_ b') = size_after b (zlen data))
    (fun b' e => b' = b /\ e = length_error "vector::_M_default_append" /\
       Mem.max_size < write_idx_ b + zlen data).
Proof. intros. by apply append_wpe. Qed.

Lemma append_spec_witness :
  wpe (append [Byte.x61; Byte.x62]) (make 1)
    (fun b' _ => wf b' /\ contents b' = contents (make 1) ++ [Byte.x61; Byte.x62] /\
       zlen (buf_ b') = size_after (make 1) 2)
    (fun b' e => b' = make 1 /\ e = length_error "vector::_M_default_append" /\
       Mem.max_size < write_idx_ (make 1) + 2).
Proof.
  apply (append_spec (make 1) [Byte.x61; Byte.x62]).
  - apply make_wf; vm_compute; congruence.
  - vm_compute. congruence.
Defined.

End Buffer.
