(* ===== verification/Codec.v ===== *)
(** * Framing (include/codec/protocol.h, codec.h, src/codec/codec.cpp)

    [Protocol]: the wire constants.  [Framing]: the specification of the wire
    format, a pure parser [deframe] of a byte stream and the encoder
    [encode], with the laws of segmentation and round trip.  [Codec]: the
    code, over any connection state [W] that holds an input buffer, with the
    theorems that it implements the specification on every segmentation of
    the stream. *)

From Stdlib Require Import ZArith Lia.
From S2P Require Import Prelude Cxx NetBuffer.
Local Open Scope Z_scope.

Module Protocol.
Definition kMagicNumber : Z := 0xCAFEBABE.
Definition kHeaderSize : Z := 8.
Definition kMaxBodySize : Z := 64 * 1024 * 1024.
End Protocol.
Import Protocol.

(** ** The specification *)

Module Framing.

(** Why a parser stops: no complete frame, or a header it refuses. *)
Inductive status := NeedMore | BadMagic | TooLarge.

#[export] Instance status_eq_dec : EqDecision status.
Proof. solve_decision. Defined.

Inductive next := Stop (st : status) | Frame (body rest : bytes).

(** The first frame of [q], for a receiver that accepts bodies up to [cap]. *)
Definition next_frame (cap : Z) (q : bytes) : next :=
  if zlen q <? kHeaderSize then Stop NeedMore
  else if negb (Wire.be32_value (ztake 4 q) =? kMagicNumber) then Stop BadMagic
  else
    let len := Wire.be32_value (ztake 4 (zdrop 4 q)) in
    if cap <? len then Stop TooLarge
    else if zlen q <? kHeaderSize + len then Stop NeedMore
    else Frame (ztake len (zdrop kHeaderSize q)) (zdrop (kHeaderSize + len) q).

Fixpoint deframe_fuel (cap : Z) (fuel : nat) (q : bytes) : list bytes * bytes * status :=
  match fuel with
  | O => ([], q, NeedMore)
  | S fuel' =>
      match next_frame cap q with
      | Stop st => ([], q, st)
      | Frame body rest =>
          let '(fs, r, st) := deframe_fuel cap fuel' rest in (body :: fs, r, st)
      end
  end.

(** All frames of [q], the bytes left, and why parsing stopped. *)
Definition deframe (cap : Z) (q : bytes) : list bytes * bytes * status :=
  deframe_fuel cap (S (length q)) q.

(** A frame on the wire: magic, body length modulo 2^32, body. *)
Definition encode (body : bytes) : bytes :=
  Wire.be32 kMagicNumber ++ Wire.be32 (zlen body) ++ body.

Section laws.
Variable cap : Z.
Implicit Types (q x body : bytes).

Lemma next_frame_shrinks q body rest :
  next_frame cap q = Frame body rest ->
  zlen rest + kHeaderSize <= zlen q /\ q = ztake kHeaderSize q ++ body ++ rest.
Proof.
  unfold next_frame, kHeaderSize. intros H.
  destruct (Z.ltb_spec (zlen q) 8); [done|]. destruct (negb _); [done|].
  set (len := Wire.be32_value _) in *.
  assert (0 <= len).
  { apply Wire.be32_value_bound. unfold ztake, zdrop, zlen in *.
    rewrite length_take, length_drop. lia. }
  destruct (cap <? len); [done|].
  destruct (Z.ltb_spec (zlen q) (8 + len)); [done|]. injection H as <- <-.
  rewrite zlen_zdrop by lia. split; [lia|].
  rewrite <- (zdrop_zdrop len 8) by lia. by rewrite !ztake_zdrop.
Qed.

Lemma deframe_fuel_enough fuel1 fuel2 q :
  (length q < fuel1)%nat -> (length q < fuel2)%nat ->
  deframe_fuel cap fuel1 q = deframe_fuel cap fuel2 q.
Proof.
  revert fuel2 q. induction fuel1 as [|fuel1 IH]; intros [|fuel2] q H1 H2; [lia..|].
  simpl. destruct (next_frame cap q) as [|body rest] eqn:Hn; [done|].
  apply next_frame_shrinks in Hn as [Hn _]. unfold zlen, kHeaderSize in Hn.
  rewrite (IH fuel2); [done|lia..].
Qed.

(** The recursion equation of the parser, free of fuel. *)
Lemma deframe_eq q :
  deframe cap q =
    match next_frame cap q with
    | Stop st => ([], q, st)
    | Frame body rest => let '(fs, r, st) := deframe cap rest in (body :: fs, r, st)
    end.
Proof.
  unfold deframe at 1. simpl. destruct (next_frame cap q) as [|body rest] eqn:Hn; [done|].
  apply next_frame_shrinks in Hn as [Hn _]. unfold zlen, kHeaderSize in Hn.
  unfold deframe. rewrite (deframe_fuel_enough (length q) (S (length rest))); [done|lia..].
Qed.

(** Induction along the frames of a stream. *)
Lemma deframe_ind (P : bytes -> Prop) :
  (forall q st, next_frame cap q = Stop st -> P q) ->
  (forall q body rest, next_frame cap q = Frame body rest -> P rest -> P q) ->
  forall q, P q.
Proof.
  intros Hstop Hframe q. remember (length q) as n eqn:Hn. revert q Hn.
  induction n as [n IH] using lt_wf_ind. intros q ->.
  destruct (next_frame cap q) as [st|body rest] eqn:Hf; [by eapply Hstop|].
  eapply Hframe; [done|]. apply next_frame_shrinks in Hf as [Hf _].
  unfold zlen, kHeaderSize in Hf. apply (IH (length rest)); [lia|done].
Qed.

(** Bytes that arrive later change neither a frame nor a refusal. *)
Lemma next_frame_app q x :
  match next_frame cap q with
  | Frame body rest => next_frame cap (q ++ x) = Frame body (rest ++ x)
  | Stop NeedMore => True
  | Stop st => next_frame cap (q ++ x) = Stop st
  end.
Proof.
  unfold next_frame, kHeaderSize. rewrite zlen_app. pose proof (zlen_nonneg x).
  destruct (Z.ltb_spec (zlen q) 8); [done|].
  rewrite (proj2 (Z.ltb_ge (zlen q + zlen x) 8)) by lia.
  rewrite (ztake_app_le 4 q) by lia. destruct (negb _); [done|].
  rewrite (zdrop_app_le 4 q), (ztake_app_le 4 (zdrop 4 q)) by (rewrite ?zlen_zdrop; lia).
  set (len := Wire.be32_value _).
  assert (0 <= len).
  { apply Wire.be32_value_bound. unfold ztake, zdrop, zlen in *.
    rewrite length_take, length_drop. lia. }
  destruct (cap <? len); [done|].
  destruct (Z.ltb_spec (zlen q) (8 + len)); [done|].
  rewrite (proj2 (Z.ltb_ge (zlen q + zlen x) (8 + len))) by lia.
  rewrite !zdrop_app_le by lia. by rewrite ztake_app_le by (rewrite zlen_zdrop; lia).
Qed.

(** The segmentation law: parsing a prefix first and then what it left
    together with the rest gives the frames of the whole stream. *)
Lemma deframe_app q x :
  deframe cap (q ++ x) =
    match deframe cap q with
    | (fs, r, NeedMore) => let '(fs', r', st) := deframe cap (r ++ x) in (fs ++ fs', r', st)
    | (fs, r, st) => (fs, r ++ x, st)
    end.
Proof.
  induction q as [q st Hn|q body rest Hn IH] using deframe_ind.
  - rewrite (deframe_eq q), Hn. pose proof (next_frame_app q x) as Happ. rewrite Hn in Happ.
    destruct st; [by destruct (deframe cap (q ++ x)) as [[]]|..];
      rewrite deframe_eq, Happ; done.
  - rewrite (deframe_eq q), Hn. pose proof (next_frame_app q x) as Happ. rewrite Hn in Happ.
    rewrite deframe_eq, Happ, IH. destruct (deframe cap rest) as [[fs r] []]; try done.
    by destruct (deframe cap (r ++ x)) as [[]].
Qed.

(** What is left of a stream is a suffix the parser makes no progress on. *)
Lemma deframe_stop q fs r st :
  deframe cap q = (fs, r, st) -> deframe cap r = ([], r, st).
Proof.
  revert fs r st. induction q as [q st Hn|q body rest Hn IH] using deframe_ind;
    intros fs r st'; rewrite deframe_eq, Hn.
  - intros [= <- <- <-]. by rewrite deframe_eq, Hn.
  - destruct (deframe cap rest) as [[fs' r'] st''] eqn:Hd. intros [= <- <- <-]. eauto.
Qed.

(** What the parser makes of a header with the right magic number. *)
Lemma next_frame_header n x :
  next_frame cap (Wire.be32 kMagicNumber ++ Wire.be32 n ++ x) =
    if cap <? u32 n then Stop TooLarge
    else if zlen x <? u32 n then Stop NeedMore
    else Frame (ztake (u32 n) x) (zdrop (u32 n) x).
Proof.
  assert (forall v (l : bytes), ztake 4 (Wire.be32 v ++ l) = Wire.be32 v) as Ht.
  { intros v l. rewrite <- (Wire.be32_zlen v). apply ztake_app_exact. }
  assert (forall v (l : bytes), zdrop 4 (Wire.be32 v ++ l) = l) as Hd.
  { intros v l. rewrite <- (Wire.be32_zlen v). apply zdrop_app_exact. }
  assert (forall v w (l : bytes), zdrop 8 (Wire.be32 v ++ Wire.be32 w ++ l) = l) as H8.
  { intros v w l. change 8 with (4 + 4). by rewrite <- zdrop_zdrop, !Hd by lia. }
  unfold next_frame, kHeaderSize. pose proof (zlen_nonneg x). pose proof (u32_range n).
  rewrite (proj2 (Z.ltb_ge _ 8)) by zlia.
  rewrite Ht, Hd, Ht, !Wire.be32_value_be32.
  replace (u32 kMagicNumber =? kMagicNumber) with true by done. cbn [negb].
  rewrite <- (zdrop_zdrop (u32 n) 8), H8 by lia.
  replace (zlen (Wire.be32 kMagicNumber ++ Wire.be32 n ++ x)) with (8 + zlen x) by zlia.
  destruct (cap <? u32 n); [done|].
  by destruct (Z.ltb_spec (8 + zlen x) (8 + u32 n)), (Z.ltb_spec (zlen x) (u32 n)); try lia.
Qed.

Lemma encode_app body x :
  encode body ++ x = Wire.be32 kMagicNumber ++ Wire.be32 (zlen body) ++ body ++ x.
Proof. unfold encode. by rewrite <- !app_assoc. Qed.

Lemma next_frame_encode body x :
  zlen body <= cap -> cap < 2 ^ 32 ->
  next_frame cap (encode body ++ x) = Frame body x.
Proof.
  intros Hb Hc. rewrite encode_app, next_frame_header. zlen_nonneg_all.
  rewrite u32_small, (proj2 (Z.ltb_ge cap _)), (proj2 (Z.ltb_ge _ (zlen body))) by zlia.
  by rewrite ztake_app_exact, zdrop_app_exact.
Qed.

(** The round trip, for a whole sequence of frames. *)
Lemma deframe_encode_all bodies x :
  cap < 2 ^ 32 -> Forall (fun body => zlen body <= cap) bodies ->
  deframe cap (concat (map encode bodies) ++ x) =
    let '(fs, r, st) := deframe cap x in (bodies ++ fs, r, st).
Proof.
  intros Hc. induction 1 as [|body bodies Hb _ IH]; cbn [map concat].
  - simpl. by destruct (deframe cap x) as [[]].
  - rewrite <- app_assoc, deframe_eq, next_frame_encode, IH by done.
    by destruct (deframe cap x) as [[]].
Qed.

End laws.
End Framing.

(** ** The code *)

Module Codec.
Section code.

(** The state the codec runs in, and the input buffer inside it. *)
Context {W : Type} (host : Wire.endian) (input : Lens W Buffer.t).

(** The callbacks of the class, and [conn->force_close()]. *)
Variable msg_cb_ : bytes -> M W unit.
Variable err_cb_ : option (string -> M W unit).
Variable force_close : M W unit.

(** [if (err_cb_) err_cb_(conn, reason); conn->force_close(); return;] *)
Definition reject (reason : string) : M W unit :=
  call_if ((fun cb => cb reason) <$> err_cb_) ;; force_close.

(** [std::memcpy(&v, buf->peek() + off, 4); v = ntohl(v);] *)
Definition peek_u32 (off : Z) : M W Z :=
  bs ← zoom input (Buffer.peek off 4);
  mret (Wire.ntohl host (Wire.load_u32 host bs)).

Fixpoint on_message_loop (fuel : nat) : M W unit :=
  match fuel with
  | O => out_of_fuel
  | S fuel' =>
      n ← gets (fun w => Buffer.readable (lget input w));
      if n <? kHeaderSize then mret ()
      else
        magic ← peek_u32 0;
        if negb (magic =? kMagicNumber) then reject "bad magic number"
        else
          body_len ← peek_u32 4;
          if kMaxBodySize <? body_len then reject "body too large"
          else
            n ← gets (fun w => Buffer.readable (lget input w));
            if n <? kHeaderSize + body_len then mret ()
            else
              zoom input (Buffer.retrieve kHeaderSize) ;;
              frame ← zoom input (Buffer.retrieve_as_string body_len);
              msg_cb_ frame ;;
              on_message_loop fuel'
  end.

(** Every turn of the loop consumes a header: this fuel is enough. *)
Definition on_message : M W unit :=
  n ← gets (fun w => Buffer.readable (lget input w));
  on_message_loop (S (Z.to_nat (n / kHeaderSize))).

(** [void TcpConnection::send(Buffer* buf)], with the buffer beside the state. *)
Variable conn_send : M (W * Buffer.t) unit.

Definition send_raw (body : bytes) : M W unit :=
  let magic_net := Wire.htonl host kMagicNumber in
  let body_len_net := Wire.htonl host (u32 (zlen body)) in
  with_local (Buffer.make Buffer.kInitialSize) (
    zoom lens_snd (Buffer.append (Wire.store_u32 host magic_net)) ;;
    zoom lens_snd (Buffer.append (Wire.store_u32 host body_len_net)) ;;
    zoom lens_snd (Buffer.append body) ;;
    conn_send).

(** [SerializeToString]'s answer: [None] when it returns false. *)
Definition send (serialized : option bytes) : M W unit :=
  match serialized with
  | Some body => send_raw body
  | None => mret ()
  end.

End code.

(** ** A stream read in pieces

    [feed c] takes the bytes [c] of one read; [P fs w] says that the frames
    [fs] have been delivered.  If one read does what the parser does on the
    bytes buffered and read, so does any sequence of reads. *)
Section reads.
Context {W : Type} (input : Lens W Buffer.t) (cap : Z) (feed : bytes -> M W unit).
Variable P : list bytes -> W -> Prop.

(** Every read stays within the blocks given to [readv]. *)
Fixpoint reads_ok (chunks : list bytes) (w : W) : Prop :=
  match chunks with
  | [] => True
  | c :: cs =>
      zlen c <= Buffer.iov_capacity (lget input w) /\
      match feed c w with Ret w' _ => reads_ok cs w' | _ => True end
  end.

Hypothesis one_read : forall c fs0 fs rest w,
  Buffer.wf (lget input w) -> P fs0 w ->
  zlen c <= Buffer.iov_capacity (lget input w) ->
  zlen (Buffer.buf_ (lget input w)) + zlen c <= Mem.max_size ->
  Framing.next_frame cap (Buffer.contents (lget input w)) = Framing.Stop Framing.NeedMore ->
  Framing.deframe cap (Buffer.contents (lget input w) ++ c) = (fs, rest, Framing.NeedMore) ->
  wp (feed c) w (fun w' _ => P (fs0 ++ fs) w' /\ Buffer.wf (lget input w') /\
    Buffer.contents (lget input w') = rest /\
    zlen (Buffer.buf_ (lget input w')) <= zlen (Buffer.buf_ (lget input w)) + zlen c).

Lemma reads_spec chunks fs0 fs rest w :
  Buffer.wf (lget input w) -> P fs0 w -> reads_ok chunks w ->
  zlen (Buffer.buf_ (lget input w)) + zlen (concat chunks) <= Mem.max_size ->
  Framing.next_frame cap (Buffer.contents (lget input w)) = Framing.Stop Framing.NeedMore ->
  Framing.deframe cap (Buffer.contents (lget input w) ++ concat chunks)
    = (fs, rest, Framing.NeedMore) ->
  wp (for_each feed chunks) w
    (fun w' _ => P (fs0 ++ fs) w' /\ Buffer.wf (lget input w') /\
       Buffer.contents (lget input w') = rest).
Proof.
  revert fs0 fs w. induction chunks as [|c cs IH]; intros fs0 fs w Hwf HP Hok Hroom Hn Hd.
  { simpl in *. rewrite app_nil_r, Framing.deframe_eq, Hn in Hd. injection Hd as <- <-.
    wp_pures. by rewrite app_nil_r. }
  simpl in Hok, Hroom, Hd. destruct Hok as [Hcap Hok]. rewrite zlen_app in Hroom.
  pose proof (zlen_nonneg (concat cs)). pose proof (zlen_nonneg c).
  rewrite app_assoc, Framing.deframe_app in Hd.
  destruct (Framing.deframe cap (Buffer.contents (lget input w) ++ c))
    as [[fs1 r1] []] eqn:Hd1; [|done..].
  pose proof (one_read c fs0 fs1 r1 w Hwf HP Hcap ltac:(lia) Hn Hd1) as Hfeed.
  apply wp_ret_inv in Hfeed as (w1 & [] & Heq & HP1 & Hwf1 & Hc1 & Hz1).
  rewrite Heq in Hok. simpl. apply wp_bind. unfold wp at 1, wpe. rewrite Heq.
  destruct (Framing.deframe cap (r1 ++ concat cs)) as [[fs2 r2] st2] eqn:Hd2.
  injection Hd as <- <- ->. rewrite app_assoc. apply IH; try done; [lia| |by rewrite Hc1].
  rewrite Hc1. apply Framing.deframe_stop in Hd1. rewrite Framing.deframe_eq in Hd1.
  destruct (Framing.next_frame cap r1) as [st|body' rest']; [by injection Hd1 as ->|].
  by destruct (Framing.deframe _ rest') as [[]].
Qed.

(** The reads of a sequence of frames, from an empty buffer. *)
Lemma reads_frames_spec bodies chunks w :
  Buffer.wf (lget input w) -> Buffer.contents (lget input w) = [] -> P [] w ->
  Forall (fun body => zlen body <= cap) bodies -> cap < 2 ^ 32 ->
  concat chunks = concat (map Framing.encode bodies) -> reads_ok chunks w ->
  zlen (Buffer.buf_ (lget input w)) + zlen (concat chunks) <= Mem.max_size ->
  wp (for_each feed chunks) w
    (fun w' _ => P bodies w' /\ Buffer.contents (lget input w') = []).
Proof.
  intros Hwf Hc HP Hb Hcap Heq Hok Hroom.
  assert (forall q, q = [] -> Framing.deframe cap q = ([], [], Framing.NeedMore)) as Hnil by by intros ? ->.
  eapply wp_mono; [eapply (reads_spec chunks [] bodies []); try done|].
  - by rewrite Hc.
  - rewrite Hc, Heq, app_nil_l, <- (app_nil_r (concat _)).
    rewrite Framing.deframe_encode_all, Hnil by done. by rewrite app_nil_r.
  - cbv beta. by intros w' _ (?&_&?).
Qed.

End reads.

(** ** The code implements the specification

    A client of the codec gives a predicate [P fs w], "the frames [fs] have
    been delivered", that its message callback advances, and [R st fs w] for a
    rejected stream; neither the callback nor the rejection touches the input
    buffer. *)
Section refinement.
Context {W : Type} (host : Wire.endian) (input : Lens W Buffer.t) `{!LensOk input}.
Variable msg_cb_ : bytes -> M W unit.
Variable err_cb_ : option (string -> M W unit).
Variable force_close : M W unit.

Definition reason_of (st : Framing.status) : string :=
  match st with
  | Framing.BadMagic => "bad magic number"
  | Framing.TooLarge => "body too large"
  | Framing.NeedMore => ""
  end.

Variable P : list bytes -> W -> Prop.
Variable R : Framing.status -> list bytes -> W -> Prop.

Hypothesis P_input : forall fs b w, P fs w -> P fs (lset input b w).
Hypothesis msg_cb_spec : forall fs f w, P fs w ->
  wp (msg_cb_ f) w (fun w' _ => P (fs ++ [f]) w' /\ lget input w' = lget input w).
Hypothesis reject_spec : forall fs st w, P fs w -> st <> Framing.NeedMore ->
  wp (reject err_cb_ force_close (reason_of st)) w
    (fun w' _ => R st fs w' /\ lget input w' = lget input w).

(** What has happened once the parser stopped with [st] after [fs]. *)
Definition settled (fs : list bytes) (st : Framing.status) (w : W) : Prop :=
  match st with Framing.NeedMore => P fs w | _ => R st fs w end.

Implicit Types (b : Buffer.t) (w : W).

Lemma peek_u32_wp off w (Q : W -> Z -> Prop) :
  Buffer.wf (lget input w) -> 0 <= off -> off + 4 <= zlen (Buffer.contents (lget input w)) ->
  Q w (Wire.be32_value (ztake 4 (zdrop off (Buffer.contents (lget input w))))) ->
  wp (peek_u32 host input off) w Q.
Proof.
  intros Hwf Ho Hl HQ. unfold peek_u32. wp_pures.
  apply Buffer.peek_spec; [done|lia..|]. rewrite lens_set_get. wp_pures.
  rewrite Wire.ntohl_load; [done|].
  unfold ztake, zdrop, zlen in *. rewrite length_take, length_drop. lia.
Qed.

(** The two [retrieve] calls of a turn take the first frame off the buffer. *)
Lemma take_frame_wpe {A} len w (k : bytes -> M W A) (Q : W -> A -> Prop) E :
  let q := Buffer.contents (lget input w) in
  Buffer.wf (lget input w) -> 0 <= len -> kHeaderSize + len <= zlen q ->
  (forall b, Buffer.wf b -> Buffer.contents b = zdrop (kHeaderSize + len) q ->
     Buffer.buf_ b = Buffer.buf_ (lget input w) ->
     wpe (k (ztake len (zdrop kHeaderSize q))) (lset input b w) Q E) ->
  wpe (zoom input (Buffer.retrieve kHeaderSize) ;;
      frame ← zoom input (Buffer.retrieve_as_string len); k frame) w Q E.
Proof.
  intros q Hwf Hl Hlen HQ. unfold kHeaderSize in *. wpe_pures. apply wp_wpe.
  eapply wp_mono; [apply Buffer.retrieve_wp; [done|unfold q in *; lia]|].
  cbv beta. intros b1 [] (Hwf1 & Hc1 & Hb1). wpe_pures. rewrite lens_get_set. apply wp_wpe.
  eapply wp_mono.
  { apply Buffer.retrieve_as_string_wp; [done|].
    rewrite Hc1, zlen_zdrop by (unfold q in *; lia). unfold q in *. lia. }
  cbv beta. intros b2 s (Hwf2 & -> & Hc2 & Hb2). rewrite lens_set_set, Hc1.
  apply HQ; [done| |congruence].
  rewrite Hc2, Hc1. unfold q. by rewrite zdrop_zdrop by lia.
Qed.

(** One turn of the loop takes the specification's first frame. *)
Lemma on_message_loop_turn fuel w (Q : W -> unit -> Prop) E :
  Buffer.wf (lget input w) ->
  match Framing.next_frame kMaxBodySize (Buffer.contents (lget input w)) with
  | Framing.Stop Framing.NeedMore => Q w ()
  | Framing.Stop st => wpe (reject err_cb_ force_close (reason_of st)) w Q E
  | Framing.Frame body rest =>
      forall b, Buffer.wf b -> Buffer.contents b = rest ->
        Buffer.buf_ b = Buffer.buf_ (lget input w) ->
        wpe (msg_cb_ body ;; on_message_loop host input msg_cb_ err_cb_ force_close fuel)
          (lset input b w) Q E
  end ->
  wpe (on_message_loop host input msg_cb_ err_cb_ force_close (S fuel)) w Q E.
Proof.
  intros Hwf HQ. simpl. wpe_pures. rewrite (Buffer.readable_eq _ Hwf).
  unfold Framing.next_frame in HQ.
  destruct (Z.ltb_spec (zlen (Buffer.contents (lget input w))) kHeaderSize) as [|Hhdr];
    [by wpe_pures|]. unfold kHeaderSize in Hhdr.
  wpe_pures. apply wp_wpe, peek_u32_wp; [done|lia..|]. rewrite zdrop_0.
  destruct (negb _); [done|].
  wpe_pures. apply wp_wpe, peek_u32_wp; [done|lia..|].
  set (len := Wire.be32_value _) in *.
  assert (0 <= len).
  { apply Wire.be32_value_bound. unfold ztake, zdrop, zlen in *.
    rewrite length_take, length_drop. lia. }
  destruct (kMaxBodySize <? len); [done|].
  wpe_pures. rewrite (Buffer.readable_eq _ Hwf).
  destruct (Z.ltb_spec (zlen (Buffer.contents (lget input w))) (kHeaderSize + len));
    [by wpe_pures|].
  apply take_frame_wpe; [done..|].
  intros b Hb Hc Hm. by apply HQ.
Qed.

Lemma on_message_loop_spec fuel fs0 w :
  Buffer.wf (lget input w) -> P fs0 w ->
  zlen (Buffer.contents (lget input w)) < kHeaderSize * Z.of_nat fuel ->
  let '(fs, rest, st) := Framing.deframe kMaxBodySize (Buffer.contents (lget input w)) in
  wp (on_message_loop host input msg_cb_ err_cb_ force_close fuel) w
    (fun w' _ => settled (fs0 ++ fs) st w' /\ Buffer.wf (lget input w') /\
       Buffer.contents (lget input w') = rest /\
       Buffer.buf_ (lget input w') = Buffer.buf_ (lget input w)).
Proof.
  revert fs0 w. induction fuel as [|fuel IH]; intros fs0 w Hwf HP Hfuel.
  { pose proof (zlen_nonneg (Buffer.contents (lget input w))). unfold kHeaderSize in *. lia. }
  rewrite Framing.deframe_eq.
  destruct (Framing.next_frame kMaxBodySize (Buffer.contents (lget input w)))
    as [st|body rest] eqn:Hn.
  - apply on_message_loop_turn; [done|]. rewrite Hn, app_nil_r.
    destruct st; [by split_and!|..];
      (eapply wp_mono; [by apply reject_spec|]; cbv beta; by intros w' _ [? ->]).
  - destruct (Framing.deframe kMaxBodySize rest) as [[fs r] st] eqn:Hd.
    apply on_message_loop_turn; [done|]. rewrite Hn. intros b Hb <- Hm.
    apply Framing.next_frame_shrinks in Hn as [Hsh _]. unfold kHeaderSize in *.
    apply wp_bind. eapply wp_mono; [apply msg_cb_spec; by apply P_input|].
    cbv beta. intros w1 [] [HP1 Hi1]. rewrite lens_get_set in Hi1.
    specialize (IH (fs0 ++ [body]) w1). rewrite Hi1, Hd in IH.
    eapply wp_mono; [apply IH; [done..|lia]|]. cbv beta.
    rewrite <- app_assoc, Hm. done.
Qed.

(** [on_message] drains the buffer as the specification's parser does. *)
Lemma on_message_spec fs0 w :
  Buffer.wf (lget input w) -> P fs0 w ->
  let '(fs, rest, st) := Framing.deframe kMaxBodySize (Buffer.contents (lget input w)) in
  wp (on_message host input msg_cb_ err_cb_ force_close) w
    (fun w' _ => settled (fs0 ++ fs) st w' /\ Buffer.wf (lget input w') /\
       Buffer.contents (lget input w') = rest /\
       Buffer.buf_ (lget input w') = Buffer.buf_ (lget input w)).
Proof.
  intros Hwf HP. pose proof (on_message_loop_spec
    (S (Z.to_nat (zlen (Buffer.contents (lget input w)) / kHeaderSize))) fs0 w Hwf HP) as Hspec.
  destruct (Framing.deframe _ _) as [[fs rest] st].
  unfold on_message. wp_pures. rewrite (Buffer.readable_eq _ Hwf). apply Hspec.
  unfold kHeaderSize. zlen_nonneg_all.
  pose proof (Z.mul_succ_div_gt (zlen (Buffer.contents (lget input w))) 8). 
  pose proof (Z.div_pos (zlen (Buffer.contents (lget input w))) 8). lia.
Qed.

(** ** Segmentation

    [feed c]: the bytes of one read arrive ([Buffer::read_fd]) and the codec
    runs on the input buffer, as [TcpConnection::handle_read] does. *)
Definition feed (chunk : bytes) : M W unit :=
  zoom input (Buffer.read_fd (Buffer.ReadOk chunk)) ;;
  on_message host input msg_cb_ err_cb_ force_close.

Abbreviation feeds_ok := (reads_ok input feed).

Lemma feed_spec c fs0 w :
  Buffer.wf (lget input w) -> P fs0 w ->
  zlen c <= Buffer.iov_capacity (lget input w) ->
  zlen (Buffer.buf_ (lget input w)) + zlen c <= Mem.max_size ->
  let '(fs, rest, st) := Framing.deframe kMaxBodySize (Buffer.contents (lget input w) ++ c) in
  wp (feed c) w
    (fun w' _ => settled (fs0 ++ fs) st w' /\ Buffer.wf (lget input w') /\
       Buffer.contents (lget input w') = rest /\
       zlen (Buffer.buf_ (lget input w')) <= zlen (Buffer.buf_ (lget input w)) + zlen c).
Proof.
  intros Hwf HP Hcap Hroom. destruct (Framing.deframe _ _) as [[fs rest] st] eqn:Hd.
  unfold feed. wp_pures. eapply wp_mono; [by apply Buffer.read_fd_wp|].
  cbv beta. intros b r (Hwf1 & Hc1 & _ & Hz1).
  pose proof (on_message_spec fs0 (lset input b w)) as Hspec.
  rewrite lens_get_set, Hc1, Hd in Hspec.
  eapply wp_mono; [by apply Hspec; [|apply P_input]|].
  cbv beta. intros w' _ (? & ? & ? & ->). by split_and!.
Qed.

(** A read that leaves the stream in order. *)
Lemma feed_need_more c fs0 fs rest w :
  Buffer.wf (lget input w) -> P fs0 w ->
  zlen c <= Buffer.iov_capacity (lget input w) ->
  zlen (Buffer.buf_ (lget input w)) + zlen c <= Mem.max_size ->
  Framing.next_frame kMaxBodySize (Buffer.contents (lget input w)) = Framing.Stop Framing.NeedMore ->
  Framing.deframe kMaxBodySize (Buffer.contents (lget input w) ++ c)
    = (fs, rest, Framing.NeedMore) ->
  wp (feed c) w (fun w' _ => P (fs0 ++ fs) w' /\ Buffer.wf (lget input w') /\
    Buffer.contents (lget input w') = rest /\
    zlen (Buffer.buf_ (lget input w')) <= zlen (Buffer.buf_ (lget input w)) + zlen c).
Proof.
  intros Hwf HP Hcap Hroom _ Hd. pose proof (feed_spec c fs0 w Hwf HP Hcap Hroom) as H.
  by rewrite Hd in H.
Qed.

(** C15. The codec on one call: it delivers to the message callback exactly
    the frames the wire format's parser finds in the input buffer, in order,
    leaves exactly the bytes the parser leaves, and reports a bad magic number
    or an oversized body, closing the connection, exactly when the parser
    does.  It always returns: no access outside the buffer, no failed
    assertion, and the loop terminates. *)
Theorem on_message_refines fs0 w :
  Buffer.wf (lget input w) -> P fs0 w ->
  let '(fs, rest, st) := Framing.deframe kMaxBodySize (Buffer.contents (lget input w)) in
  wp (on_message host input msg_cb_ err_cb_ force_close) w
    (fun w' _ => settled (fs0 ++ fs) st w' /\ Buffer.wf (lget input w') /\
       Buffer.contents (lget input w') = rest /\
       Buffer.buf_ (lget input w') = Buffer.buf_ (lget input w)).
Proof. apply on_message_spec. Qed.

(** C16. Splitting and sticking of packets is invisible: however the network
    cuts the sent frames into reads, the callback gets exactly the bodies
    that were sent, whole, once each and in order, and no byte is left. *)
Theorem stream_roundtrip bodies chunks w :
  Buffer.wf (lget input w) -> Buffer.contents (lget input w) = [] -> P [] w ->
  Forall (fun body => zlen body <= kMaxBodySize) bodies ->
  concat chunks = concat (map Framing.encode bodies) ->
  feeds_ok chunks w ->
  zlen (Buffer.buf_ (lget input w)) + zlen (concat chunks) <= Mem.max_size ->
  wp (for_each feed chunks) w
    (fun w' _ => P bodies w' /\ Buffer.contents (lget input w') = []).
Proof.
  intros Hwf Hc HP Hb Heq Hok Hroom.
  by eapply reads_frames_spec; [apply feed_need_more|..].
Qed.

(** At every moment of a stream the codec is where the parser is: after
    any sequence of reads, however cut, whose bytes the format does not
    refuse, the frames delivered and the bytes still buffered are those of the
    concatenation of the reads. *)
Theorem segmentation_invariance chunks fs0 fs rest w :
  Buffer.wf (lget input w) -> P fs0 w -> feeds_ok chunks w ->
  zlen (Buffer.buf_ (lget input w)) + zlen (concat chunks) <= Mem.max_size ->
  Framing.next_frame kMaxBodySize (Buffer.contents (lget input w)) = Framing.Stop Framing.NeedMore ->
  Framing.deframe kMaxBodySize (Buffer.contents (lget input w) ++ concat chunks)
    = (fs, rest, Framing.NeedMore) ->
  wp (for_each feed chunks) w
    (fun w' _ => P (fs0 ++ fs) w' /\ Buffer.wf (lget input w') /\
       Buffer.contents (lget input w') = rest).
Proof. apply reads_spec, feed_need_more. Qed.

End refinement.

(** ** Callbacks that may throw

    [on_message] keeps any invariant that its callbacks keep, terminates, and
    throws only what they throw. *)
Section invariant.
Context {W : Type} (host : Wire.endian) (input : Lens W Buffer.t) `{!LensOk input}.
Variable msg_cb_ : bytes -> M W unit.
Variable err_cb_ : option (string -> M W unit).
Variable force_close : M W unit.
Variables (I : W -> Prop) (E : W -> exn -> Prop).
Hypothesis I_wf : forall w, I w -> Buffer.wf (lget input w).
Hypothesis I_input : forall w b, I w -> Buffer.wf b -> I (lset input b w).
Hypothesis msg_cb_keeps : forall f w, I w ->
  wpe (msg_cb_ f) w (fun w' _ => I w' /\ lget input w' = lget input w) E.
Hypothesis reject_keeps : forall why w, I w ->
  wpe (reject err_cb_ force_close why) w (fun w' _ => I w') E.

Lemma on_message_loop_keeps fuel w :
  I w -> zlen (Buffer.contents (lget input w)) < kHeaderSize * Z.of_nat fuel ->
  wpe (on_message_loop host input msg_cb_ err_cb_ force_close fuel) w (fun w' _ => I w') E.
Proof.
  revert w. induction fuel as [|fuel IH]; intros w Hw Hfuel.
  { pose proof (zlen_nonneg (Buffer.contents (lget input w))). unfold kHeaderSize in *. lia. }
  apply on_message_loop_turn; [done|by apply I_wf|].
  destruct (Framing.next_frame kMaxBodySize (Buffer.contents (lget input w))) as [st|body rest] eqn:Hn.
  - destruct st; [done|by apply reject_keeps..].
  - intros b Hb Hc _. apply Framing.next_frame_shrinks in Hn as [Hsh _]. unfold kHeaderSize in *.
    apply wpe_bind. eapply wpe_mono; [by apply msg_cb_keeps, I_input| |done].
    cbv beta. intros w1 [] [Hw1 Hi1]. apply IH; [done|]. rewrite Hi1, lens_get_set, Hc. lia.
Qed.

Lemma on_message_keeps w :
  I w -> wpe (on_message host input msg_cb_ err_cb_ force_close) w (fun w' _ => I w') E.
Proof.
  intros Hw. unfold on_message. wpe_pures. rewrite (Buffer.readable_eq _ (I_wf w Hw)).
  apply on_message_loop_keeps; [done|]. unfold kHeaderSize. zlen_nonneg_all.
  pose proof (Z.mul_succ_div_gt (zlen (Buffer.contents (lget input w))) 8).
  pose proof (Z.div_pos (zlen (Buffer.contents (lget input w))) 8). lia.
Qed.

End invariant.

(** ** When [on_message] returns

    Whatever its callbacks do otherwise: it has delivered what the parser finds. *)
Section on_message_returns.
Context {W : Type} (host : Wire.endian) (input : Lens W Buffer.t) `{!LensOk input}.
Variable msg_cb_ : bytes -> M W unit.
Variable err_cb_ : option (string -> M W unit).
Variable force_close : M W unit.
Variable P : list bytes -> W -> Prop.
Hypothesis P_input : forall fs b w, Buffer.wf b -> P fs w -> P fs (lset input b w).
Hypothesis msg_cb_returns : forall fs f w, Buffer.wf (lget input w) -> P fs w ->
  wlp (msg_cb_ f) w (fun w' _ => P (fs ++ [f]) w' /\ lget input w' = lget input w).
Hypothesis reject_returns : forall fs why w, Buffer.wf (lget input w) -> P fs w ->
  wlp (reject err_cb_ force_close why) w (fun w' _ => P fs w' /\ lget input w' = lget input w).

Lemma on_message_loop_returns_turn fuel w (Q : W -> unit -> Prop) :
  Buffer.wf (lget input w) ->
  match Framing.next_frame kMaxBodySize (Buffer.contents (lget input w)) with
  | Framing.Stop Framing.NeedMore => Q w ()
  | Framing.Stop _ => forall why, wlp (reject err_cb_ force_close why) w Q
  | Framing.Frame body rest => forall b, Buffer.wf b -> Buffer.contents b = rest ->
      wlp (msg_cb_ body ;; on_message_loop host input msg_cb_ err_cb_ force_close fuel) (lset input b w) Q
  end ->
  wlp (on_message_loop host input msg_cb_ err_cb_ force_close (S fuel)) w Q.
Proof.
  intros Hwf HQ. simpl. wlp_pures. rewrite (Buffer.readable_eq _ Hwf). unfold Framing.next_frame in HQ.
  destruct (Z.ltb_spec (zlen (Buffer.contents (lget input w))) kHeaderSize) as [|Hhdr]; [by wlp_pures|].
  unfold kHeaderSize in Hhdr. wlp_pures. apply wp_wlp, (peek_u32_wp host input); [done|lia..|]. rewrite zdrop_0.
  destruct (negb _); [done|]. wlp_pures. apply wp_wlp, (peek_u32_wp host input); [done|lia..|].
  set (len := Wire.be32_value _) in *.
  assert (0 <= len).
  { apply Wire.be32_value_bound. unfold ztake, zdrop, zlen in *. rewrite length_take, length_drop. lia. }
  destruct (kMaxBodySize <? len); [done|]. wlp_pures. rewrite (Buffer.readable_eq _ Hwf).
  destruct (Z.ltb_spec (zlen (Buffer.contents (lget input w))) (kHeaderSize + len)); [by wlp_pures|].
  unfold kHeaderSize in *. wlp_pures.
  apply wp_wlp. eapply wp_mono; [apply Buffer.retrieve_wp; [done|lia]|].
  cbv beta. intros b1 [] (Hwf1 & Hc1 & _). wlp_pures. rewrite lens_get_set.
  apply wp_wlp. eapply wp_mono; [apply Buffer.retrieve_as_string_wp; [done|rewrite Hc1, zlen_zdrop by lia; lia]|].
  cbv beta. intros b2 frame (Hwf2 & -> & Hc2 & _). rewrite lens_set_set, Hc1.
  apply HQ; [done|]. by rewrite Hc2, Hc1, zdrop_zdrop by lia.
Qed.

Lemma on_message_loop_returns fuel fs0 w :
  Buffer.wf (lget input w) -> P fs0 w ->
  wlp (on_message_loop host input msg_cb_ err_cb_ force_close fuel) w (fun w' _ =>
    let '(fs, rest, _) := Framing.deframe kMaxBodySize (Buffer.contents (lget input w)) in
    P (fs0 ++ fs) w' /\ Buffer.wf (lget input w') /\ Buffer.contents (lget input w') = rest).
Proof.
  revert fs0 w. induction fuel as [|fuel IH]; intros fs0 w Hwf HP; [by intros w' x [=]|].
  rewrite Framing.deframe_eq.
  destruct (Framing.next_frame kMaxBodySize (Buffer.contents (lget input w))) as [st|body rest] eqn:Hn.
  - apply on_message_loop_returns_turn; [done|]. rewrite Hn, app_nil_r.
    destruct st; [by split_and!|..]; intros why;
      (eapply wlp_mono; [by apply reject_returns|]; cbv beta; by intros w' _ [? ->]).
  - destruct (Framing.deframe kMaxBodySize rest) as [[fs r] st] eqn:Hd.
    apply on_message_loop_returns_turn; [done|]. rewrite Hn. intros b Hb <-. apply wlp_bind.
    eapply wlp_mono; [apply msg_cb_returns; [by rewrite lens_get_set|by apply P_input]|].
    cbv beta. intros w1 [] [HP1 Hi1]. rewrite lens_get_set in Hi1.
    specialize (IH (fs0 ++ [body]) w1). rewrite Hi1, Hd, <- app_assoc in IH. by apply IH.
Qed.

Lemma on_message_returns fs0 w :
  Buffer.wf (lget input w) -> P fs0 w ->
  wlp (on_message host input msg_cb_ err_cb_ force_close) w (fun w' _ =>
    let '(fs, rest, _) := Framing.deframe kMaxBodySize (Buffer.contents (lget input w)) in
    P (fs0 ++ fs) w' /\ Buffer.wf (lget input w') /\ Buffer.contents (lget input w') = rest).
Proof. intros Hwf HP. unfold on_message. wlp_pures. by apply on_message_loop_returns. Qed.

End on_message_returns.

(** ** How far [on_message] moves the state: input and callbacks *)

Section on_message_moves.
Context {W : Type} (host : Wire.endian) (input : Lens W Buffer.t).
Variable msg_cb_ : bytes -> M W unit.
Variable err_cb_ : option (string -> M W unit).
Variable force_close : M W unit.
Variable R : W -> W -> Prop.
Context `{!PreOrder R}.
Hypothesis R_input : forall b w, R w (lset input b w).
Hypothesis msg_cb_moves : forall f, moves R (msg_cb_ f).
Hypothesis reject_moves : forall why, moves R (reject err_cb_ force_close why).
#[local] Hint Resolve R_input msg_cb_moves reject_moves : moves.

Lemma on_message_moves : moves R (on_message host input msg_cb_ err_cb_ force_close).
Proof.
  unfold on_message. apply moves_bind; [done|apply moves_gets; done|]. intros n.
  generalize (Datatypes.S (Z.to_nat (n / kHeaderSize))) as fuel. clear n.
  induction fuel as [|fuel IH]; simpl; [by apply moves_out_of_fuel|]. unfold peek_u32. moves_walk.
Qed.

End on_message_moves.


(** ** Sending *)

Section sending.
Context {W : Type} (host : Wire.endian).
Variable conn_send : M (W * Buffer.t) unit.

(** The frame is put together, and then it is sent. *)
Lemma send_raw_eq body w :
  Buffer.kPrependSize + Buffer.kInitialSize + 8 + zlen body <= Mem.max_size ->
  exists b, Buffer.wf b /\ Buffer.contents b = Framing.encode body /\
    send_raw host conn_send body w = with_local b conn_send w.
Proof.
  unfold Buffer.kPrependSize, Buffer.kInitialSize. intros Hroom.
  pose proof (Buffer.make_zlen Buffer.kInitialSize ltac:(done)) as Hz0.
  pose proof Buffer.default_wf as Hwf0. unfold Buffer.kInitialSize in *. pose proof (zlen_nonneg body).
  assert (forall b data, Buffer.wf b -> zlen (Buffer.buf_ b) + zlen data <= Mem.max_size ->
    exists b', Buffer.append data b = Ret b' () /\ Buffer.wf b' /\
      Buffer.contents b' = Buffer.contents b ++ data /\ zlen (Buffer.buf_ b') <= zlen (Buffer.buf_ b) + zlen data)
    as Happ.
  { intros b data Hb Hl. pose proof (Buffer.append_wp b data Hb Hl) as (b' & [] & Hrun & Hwf & Hc & Hz)%wp_ret_inv.
    by exists b'. }
  destruct (Happ (Buffer.make 4096) (Wire.be32 kMagicNumber)) as (b1 & Hr1 & Hwf1 & Hc1 & Hz1); [done|zlia|].
  destruct (Happ b1 (Wire.be32 (u32 (zlen body)))) as (b2 & Hr2 & Hwf2 & Hc2 & Hz2); [done|zlia|].
  destruct (Happ b2 body) as (b3 & Hr3 & Hwf3 & Hc3 & _); [done|zlia|].
  exists b3. split_and!; [done| |].
  - rewrite Hc3, Hc2, Hc1, Buffer.make_contents, Wire.be32_u32 by done.
    unfold Framing.encode. by rewrite app_nil_l, <- app_assoc.
  - unfold send_raw, with_local, mbind, M_bind, zoom, Buffer.kInitialSize. rewrite !Wire.store_htonl.
    cbn [lget lset lens_snd fst snd]. rewrite Hr1. cbn [lget lset lens_snd fst snd]. rewrite Hr2.
    cbn [lget lset lens_snd fst snd]. by rewrite Hr3.
Qed.

Lemma send_raw_wpe body w (Q : W -> Prop) E :
  Buffer.kPrependSize + Buffer.kInitialSize + 8 + zlen body <= Mem.max_size ->
  (forall b, Buffer.wf b -> Buffer.contents b = Framing.encode body ->
     wpe conn_send (w, b) (fun p _ => Q p.1) (fun p e => E p.1 e)) ->
  wpe (send_raw host conn_send body) w (fun w' _ => Q w') E.
Proof.
  intros Hroom Hsend. destruct (send_raw_eq body w Hroom) as (b & Hb & Hc & Heq).
  unfold wpe. rewrite Heq. apply wpe_with_local. by apply Hsend.
Qed.

(** [send_raw] hands the connection a buffer that holds one frame: magic
    and length in network byte order on every host, then the body. *)
Theorem send_raw_frame body w (Q : W -> Prop) :
  Buffer.kPrependSize + Buffer.kInitialSize + 8 + zlen body <= Mem.max_size ->
  (forall b, Buffer.wf b -> Buffer.contents b = Framing.encode body ->
     wp conn_send (w, b) (fun p _ => Q p.1)) ->
  wp (send_raw host conn_send body) w (fun w' _ => Q w').
Proof. intros Hroom Hsend. by apply send_raw_wpe. Qed.

End sending.

Section receiving.
Context {W : Type} (host : Wire.endian) (input : Lens W Buffer.t) `{!LensOk input}.
Variable msg_cb_ : bytes -> M W unit.
Variable err_cb_ : option (string -> M W unit).
Variable force_close : M W unit.

(** [send_raw] does not check the size it frames.  A body over the cap and
    below 2^32 bytes is refused by the codec that receives it: the frame is not
    delivered, the error is reported and the connection closed. *)
Theorem oversized_body_is_refused body x w (Q : W -> unit -> Prop) :
  kMaxBodySize < zlen body < 2 ^ 32 ->
  Buffer.wf (lget input w) ->
  Buffer.contents (lget input w) = Framing.encode body ++ x ->
  wp (reject err_cb_ force_close "body too large") w Q ->
  wp (on_message host input msg_cb_ err_cb_ force_close) w Q.
Proof.
  intros Hb Hwf Hc HQ. unfold on_message. wp_pures. apply on_message_loop_turn; [done..|].
  rewrite Hc, Framing.encode_app, Framing.next_frame_header, u32_small
    by (unfold kMaxBodySize in *; lia).
  by rewrite (proj2 (Z.ltb_lt _ _)) by lia.
Qed.

End receiving.

(** ** Concrete runs

    A connection that records what its callbacks saw: the frames, and whether
    it was closed. *)
Module Recorder.

Definition W : Type := Buffer.t * (list bytes * bool).
Definition input : Lens W Buffer.t := lens_fst.
Definition msg_cb (f : bytes) : M W unit := modify (fun w => (w.1, (w.2.1 ++ [f], w.2.2))).
Definition close : M W unit := modify (fun w => (w.1, (w.2.1, true))).
Definition delivered (fs : list bytes) (w : W) : Prop := w.2 = (fs, false).
Definition refused (st : Framing.status) (fs : list bytes) (w : W) : Prop := w.2 = (fs, true).

Lemma delivered_input fs b w : delivered fs w -> delivered fs (lset input b w).
Proof. done. Qed.

Lemma msg_cb_ok fs f w :
  delivered fs w ->
  wp (msg_cb f) w (fun w' _ => delivered (fs ++ [f]) w' /\ lget input w' = lget input w).
Proof. unfold delivered, msg_cb. intros H. wp_pures. simpl. by rewrite H. Qed.

Lemma reject_ok fs st w :
  delivered fs w -> st <> Framing.NeedMore ->
  wp (reject None close (reason_of st)) w
    (fun w' _ => refused st fs w' /\ lget input w' = lget input w).
Proof. unfold delivered, refused. intros H _. unfold wp, wpe. simpl. by rewrite H. Qed.

(** A connection whose input buffer holds [q]. *)
Definition holding (q : bytes) : W :=
  (Buffer.mk (replicate 8 Byte.x00 ++ q) 8 (8 + zlen q), ([], false)).

Lemma holding_wf q : zlen q < 2 ^ 62 -> Buffer.wf (holding q).1.
Proof.
  intros Hq. pose proof (zlen_nonneg q).
  split; cbn [holding fst Buffer.read_idx_ Buffer.write_idx_ Buffer.buf_];
    unfold Buffer.kPrependSize, Mem.max_size; rewrite ?zlen_app;
    change (zlen (replicate 8 Byte.x00)) with 8; lia.
Qed.

Lemma holding_contents q : Buffer.contents (holding q).1 = q.
Proof.
  unfold Buffer.contents. cbn [holding fst Buffer.read_idx_ Buffer.write_idx_ Buffer.buf_].
  rewrite ztake_all by (rewrite zlen_app; by change (zlen (replicate 8 Byte.x00)) with 8).
  by apply (zdrop_app_exact (replicate 8 Byte.x00)).
Qed.

End Recorder.

(** Two frames and a partial header, in one buffer. *)
Lemma on_message_refines_witness :
  let w := Recorder.holding
    (Framing.encode [Byte.x61; Byte.x62] ++ Framing.encode [] ++ [Byte.xca]) in
  let '(fs, rest, st) := Framing.deframe kMaxBodySize (Buffer.contents w.1) in
  wp (on_message Wire.LittleEndian Recorder.input Recorder.msg_cb None Recorder.close) w
    (fun w' _ => settled Recorder.delivered Recorder.refused ([] ++ fs) st w' /\
       Buffer.wf w'.1 /\ Buffer.contents w'.1 = rest /\ Buffer.buf_ w'.1 = Buffer.buf_ w.1)
  /\ (fs, rest, st) = ([[Byte.x61; Byte.x62]; []], [Byte.xca], Framing.NeedMore).
Proof.
  intros w. pose proof (on_message_refines Wire.LittleEndian Recorder.input
    Recorder.msg_cb None Recorder.close Recorder.delivered Recorder.refused
    Recorder.delivered_input Recorder.msg_cb_ok Recorder.reject_ok [] w) as H.
  replace (Framing.deframe kMaxBodySize (Buffer.contents w.1))
    with ([[Byte.x61; Byte.x62]; []], [Byte.xca], Framing.NeedMore) in * by (vm_compute; reflexivity).
  cbv beta iota. split; [|reflexivity].
  replace (Framing.deframe kMaxBodySize (Buffer.contents (lget Recorder.input w)))
    with ([[Byte.x61; Byte.x62]; []], [Byte.xca], Framing.NeedMore) in H by (vm_compute; reflexivity).
  apply H; [|reflexivity].
  split; vm_compute; congruence.
Defined.

(** The same bytes cut in the middle of a header and of a body. *)
Definition cut_stream : list bytes :=
  let s := Framing.encode [Byte.x61; Byte.x62] ++ Framing.encode [Byte.x63] in
  [ztake 3 s; ztake 6 (zdrop 3 s); zdrop 9 s].

Lemma stream_roundtrip_witness :
  wp (for_each (feed Wire.BigEndian Recorder.input Recorder.msg_cb None Recorder.close)
        cut_stream) (Buffer.make 16, ([], false))
    (fun w' _ => Recorder.delivered [[Byte.x61; Byte.x62]; [Byte.x63]] w' /\
       Buffer.contents w'.1 = []).
Proof.
  apply (stream_roundtrip Wire.BigEndian Recorder.input Recorder.msg_cb None Recorder.close
    Recorder.delivered Recorder.refused Recorder.delivered_input Recorder.msg_cb_ok
    Recorder.reject_ok).
  - apply Buffer.make_wf; vm_compute; congruence.
  - reflexivity.
  - reflexivity.
  - repeat constructor; vm_compute; congruence.
  - reflexivity.
  - vm_compute. repeat split; congruence.
  - vm_compute. congruence.
Defined.

Lemma segmentation_invariance_witness :
  wp (for_each (feed Wire.LittleEndian Recorder.input Recorder.msg_cb None Recorder.close)
        (cut_stream ++ [[Byte.xca; Byte.xfe]])) (Buffer.make 16, ([], false))
    (fun w' _ => Recorder.delivered ([] ++ [[Byte.x61; Byte.x62]; [Byte.x63]]) w' /\
       Buffer.wf w'.1 /\ Buffer.contents w'.1 = [Byte.xca; Byte.xfe]).
Proof.
  apply (segmentation_invariance Wire.LittleEndian Recorder.input Recorder.msg_cb None
    Recorder.close Recorder.delivered Recorder.refused Recorder.delivered_input
    Recorder.msg_cb_ok Recorder.reject_ok).
  - apply Buffer.make_wf; vm_compute; congruence.
  - reflexivity.
  - vm_compute. repeat split; congruence.
  - vm_compute. congruence.
  - reflexivity.
  - vm_compute. reflexivity.
Defined.

(** A connection that keeps what it was asked to send. *)
Definition record_send : M (bytes * Buffer.t) unit :=
  bs ← zoom lens_snd Buffer.retrieve_all_as_string;
  zoom lens_fst (modify (fun sent => sent ++ bs)).

Lemma send_raw_frame_witness :
  wp (send_raw Wire.LittleEndian record_send [Byte.x68; Byte.x69]) []
    (fun sent _ => sent = Framing.encode [Byte.x68; Byte.x69]).
Proof.
  apply (send_raw_frame Wire.LittleEndian record_send [Byte.x68; Byte.x69] []
    (fun sent => sent = Framing.encode [Byte.x68; Byte.x69])).
  - vm_compute. congruence.
  - intros b Hwf Hc. unfold record_send. wp_pures.
    eapply wp_mono; [by apply Buffer.retrieve_all_wp|].
    cbv beta. intros b' s (_ & -> & _). wp_pures. simpl. done.
Defined.

(** The smallest oversized body. *)
Lemma oversized_body_is_refused_witness :
  let body := replicate (Z.to_nat (kMaxBodySize + 1)) Byte.x00 in
  wp (on_message Wire.LittleEndian Recorder.input Recorder.msg_cb None Recorder.close)
    (Recorder.holding (Framing.encode body ++ []))
    (fun w' _ => w'.2 = ([], true)).
Proof.
  intros body.
  assert (zlen body = kMaxBodySize + 1) as Hz.
  { unfold body. apply zlen_replicate. unfold kMaxBodySize. lia. }
  apply (oversized_body_is_refused Wire.LittleEndian Recorder.input Recorder.msg_cb None
    Recorder.close body []).
  - rewrite Hz. unfold kMaxBodySize. lia.
  - apply Recorder.holding_wf. rewrite app_nil_r. unfold Framing.encode.
    rewrite !zlen_app, !Wire.be32_zlen, Hz. unfold kMaxBodySize. lia.
  - apply Recorder.holding_contents.
  - reflexivity.
Defined.

End Codec.
