(* ===== verification/Channel.v ===== *)
(** * Event channels (include/net/channel.h, src/net/channel.cpp)

    [Channel.t] is the object; its operations run in any state [W] that holds
    it, with the owner loop's [update_channel]/[remove_channel] and the four
    event callbacks as arguments.  [handle_event_dispatch] says which callbacks
    an event runs, and in which order. *)

From Stdlib Require Import ZArith Lia.
From S2P Require Import Prelude.
Local Open Scope Z_scope.

(** The event bits of [<sys/epoll.h>]. *)
Module Epoll.
Definition EPOLLIN : Z := 0x001.
Definition EPOLLPRI : Z := 0x002.
Definition EPOLLOUT : Z := 0x004.
Definition EPOLLERR : Z := 0x008.
Definition EPOLLHUP : Z := 0x010.
Definition EPOLLRDHUP : Z := 0x2000.
Definition EPOLLET : Z := 2 ^ 31.

(** A bit test as the code writes it: [x & mask] as a condition. *)
Definition has (x mask : Z) : bool := negb (Z.land x mask =? 0).
End Epoll.
Import Epoll.

Module Channel.

Definition kNoneEvent : Z := 0.
Definition kReadEvent : Z := Z.lor EPOLLIN EPOLLPRI.
Definition kWriteEvent : Z := EPOLLOUT.

(** [tied_] and [tie_]: [Some obj] once [tie()] was called with [obj]. *)
Record t := mk {
  fd_ : Z;
  events_ : Z;
  revents_ : Z;
  index_ : Z;
  tie_ : option nat;
}.

(** [Channel(EventLoop* loop, int fd)] *)
Definition make (fd : Z) : t := mk fd 0 0 (-1) None.

Definition set_events (e : Z) (c : t) : t := mk (fd_ c) e (revents_ c) (index_ c) (tie_ c).
Definition set_revents (r : Z) (c : t) : t := mk (fd_ c) (events_ c) r (index_ c) (tie_ c).
Definition set_index (i : Z) (c : t) : t := mk (fd_ c) (events_ c) (revents_ c) i (tie_ c).
Definition set_tie (o : option nat) (c : t) : t :=
  mk (fd_ c) (events_ c) (revents_ c) (index_ c) o.

Definition is_writing (c : t) : bool := has (events_ c) kWriteEvent.
Definition is_reading (c : t) : bool := has (events_ c) kReadEvent.
Definition is_none_event (c : t) : bool := events_ c =? kNoneEvent.

Section ops.
Context {W : Type} (self : Lens W t).

(** [loop_->update_channel(this)] and [loop_->remove_channel(this)]. *)
Variable update : M W unit.
Variable loop_remove_channel : M W unit.

Definition change_events (f : Z -> Z) : M W unit :=
  zoom self (modify (fun c => set_events (f (events_ c)) c)) ;; update.

Definition enable_reading : M W unit := change_events (fun e => Z.lor e kReadEvent).
Definition disable_reading : M W unit := change_events (fun e => Z.land e (Z.lnot kReadEvent)).
Definition enable_writing : M W unit := change_events (fun e => Z.lor e kWriteEvent).
Definition disable_writing : M W unit := change_events (fun e => Z.land e (Z.lnot kWriteEvent)).
Definition disable_all : M W unit := change_events (fun _ => kNoneEvent).

Definition remove : M W unit := disable_all ;; loop_remove_channel.

Definition tie (obj : nat) : M W unit := zoom self (modify (set_tie (Some obj))).

(** [~Channel()] *)
Definition destroy : M W unit :=
  c ← gets (lget self);
  assert_ (is_none_event c) "is_none_event()".

(** The callbacks, and whether the tied object is still alive
    ([tie_.lock()] succeeds). *)
Variables read_cb_ write_cb_ error_cb_ close_cb_ : option (M W unit).
Variable alive : W -> nat -> bool.

Definition handle_event_with_guard : M W unit :=
  c ← gets (lget self);
  when (has (revents_ c) EPOLLHUP && negb (has (revents_ c) EPOLLIN)) (call_if close_cb_) ;;
  c ← gets (lget self);
  when (has (revents_ c) EPOLLERR) (call_if error_cb_) ;;
  c ← gets (lget self);
  when (has (revents_ c) (Z.lor (Z.lor EPOLLIN EPOLLPRI) EPOLLRDHUP)) (call_if read_cb_) ;;
  c ← gets (lget self);
  when (has (revents_ c) EPOLLOUT) (call_if write_cb_).

Definition handle_event : M W unit :=
  c ← gets (lget self);
  match tie_ c with
  | Some obj =>
      live ← gets (fun w => alive w obj);
      when live handle_event_with_guard
  | None => handle_event_with_guard
  end.

End ops.

(** ** What an event runs *)

Inductive kind := Close | Error | Read | Write.

(** The callbacks selected by an event mask, in the order they run. *)
Definition selected (revents : Z) : list kind :=
  (if has revents EPOLLHUP && negb (has revents EPOLLIN) then [Close] else []) ++
  (if has revents EPOLLERR then [Error] else []) ++
  (if has revents (Z.lor (Z.lor EPOLLIN EPOLLPRI) EPOLLRDHUP) then [Read] else []) ++
  (if has revents EPOLLOUT then [Write] else []).

Section dispatch.
Context {W : Type} (self : Lens W t).
Variable cb : kind -> option (M W unit).
Variable alive : W -> nat -> bool.

(** "The callbacks [ks] have run": every callback advances it and leaves the
    channel's received events alone, which only the poller writes. *)
Variable P : list kind -> W -> Prop.
Hypothesis cb_spec : forall ks k w, P ks w ->
  wp (call_if (cb k)) w
    (fun w' _ => P (ks ++ [k]) w' /\ revents_ (lget self w') = revents_ (lget self w)).

Lemma dispatch_one (c : bool) k ks w r :
  P ks w -> revents_ (lget self w) = r ->
  wp (when c (call_if (cb k))) w
    (fun w' _ => P (ks ++ (if c then [k] else [])) w' /\ revents_ (lget self w') = r).
Proof.
  intros HP Hr. destruct c; simpl.
  - eapply wp_mono; [by apply cb_spec|]. cbv beta. intros w' _ [? ->]. done.
  - wp_pures. by rewrite app_nil_r.
Qed.

Lemma guard_dispatch ks w :
  P ks w ->
  wp (handle_event_with_guard self (cb Read) (cb Write) (cb Error) (cb Close)) w
    (fun w' _ => P (ks ++ selected (revents_ (lget self w))) w').
Proof.
  intros HP. set (r := revents_ (lget self w)). unfold handle_event_with_guard, selected.
  wp_pures. fold r.
  eapply wp_mono; [exact (dispatch_one _ Close _ w r HP eq_refl)|]. cbv beta.
  intros w1 _ [HP1 Hr1]. wp_pures. rewrite Hr1.
  eapply wp_mono; [exact (dispatch_one _ Error _ w1 r HP1 Hr1)|]. cbv beta.
  intros w2 _ [HP2 Hr2]. wp_pures. rewrite Hr2.
  eapply wp_mono; [exact (dispatch_one _ Read _ w2 r HP2 Hr2)|]. cbv beta.
  intros w3 _ [HP3 Hr3]. wp_pures. rewrite Hr3.
  eapply wp_mono; [exact (dispatch_one _ Write _ w3 r HP3 Hr3)|]. cbv beta.
  intros w4 _ [HP4 _]. by rewrite <- !app_assoc in HP4.
Qed.

(** An event runs exactly the callbacks its mask selects, in the order
    close, error, read, write, each at most once; on a channel tied to an
    object that is gone it runs none. *)
Theorem handle_event_dispatch ks w :
  P ks w ->
  wp (handle_event self (cb Read) (cb Write) (cb Error) (cb Close) alive) w
    (fun w' _ =>
       P (ks ++ match tie_ (lget self w) with
                | Some obj => if alive w obj then selected (revents_ (lget self w)) else []
                | None => selected (revents_ (lget self w))
                end) w').
Proof.
  intros HP. unfold handle_event. wp_pures.
  destruct (tie_ (lget self w)) as [obj|]; [|by apply guard_dispatch].
  wp_pures. destruct (alive w obj); simpl; [by apply guard_dispatch|].
  wp_pures. by rewrite app_nil_r.
Qed.

End dispatch.

(** A reset connection: hang-up and error without data run the close and the
    error callback, in one event. *)
Lemma handle_event_dispatch_witness :
  let cb := fun k => Some (modify (fun w : t * list kind => (w.1, w.2 ++ [k]))) in
  wp (handle_event lens_fst (cb Read) (cb Write) (cb Error) (cb Close) (fun _ _ => true))
    (set_tie (Some 7%nat) (set_revents (Z.lor EPOLLHUP EPOLLERR) (make 5)), [])
    (fun w' _ => w'.2 = [] ++ [Close; Error]).
Proof.
  intros cb.
  apply (handle_event_dispatch (W := t * list kind) lens_fst cb (fun _ _ => true)
    (fun ks w => w.2 = ks)); [|reflexivity].
  intros ks k w <-. unfold wp, wpe, call_if, cb, modify. simpl. split; reflexivity.
Defined.

End Channel.
