(* ===== verification/EpollPoller.v ===== *)
(** * The epoll wrapper (include/net/epoll_poller.h, src/net/epoll_poller.cpp)

    The poller works on the channels of a store, by pointer, as the code does.
    The kernel's answer to [epoll_wait] is an input; the code ignores the
    answer to [epoll_ctl], so the model only records the calls, in [calls].
    [Interest] states what the manual page of [epoll_ctl] demands of a sequence
    of calls; [requests_legal] shows that the poller always meets it and that
    the registered masks are those of the channels. *)

From Stdlib Require Import ZArith Lia.
From S2P Require Import Prelude Channel.
Local Open Scope Z_scope.

Module EpollPoller.

Definition kInitEventListSize : Z := 16.
Definition kNew : Z := -1.
Definition kAdded : Z := 0.
Definition kDeleted : Z := 1.

(** A [Channel*]. *)
Abbreviation ptr := nat.

Inductive ctl_op := EPOLL_CTL_ADD | EPOLL_CTL_DEL | EPOLL_CTL_MOD.

(** One call [epoll_ctl(epfd_, op, fd, {events, ptr})]. *)
Record ctl_call := mk_call { op : ctl_op; fd : Z; mask : Z; data_ptr : ptr }.

Record t := mk {
  events_size : Z;            (* events_.size() *)
  channels_ : gmap Z ptr;     (* fd -> Channel* *)
  calls : list ctl_call;      (* the epoll_ctl calls made so far *)
}.

Definition make : t := mk kInitEventListSize ∅ [].

(** [EpollPoller()], over the open descriptors; [epfd] is what
    [epoll_create1] answered. *)
Definition construct (epfd : Z) : M (gset Z) t :=
  if epfd <? 0 then throw (runtime_error "epoll_create1 failed")
  else modify (fun fds => {[epfd]} ∪ fds) ;; mret make.

(** [::close(fd)], over the open descriptors: closing one that is not open, or
    is not open any more, is an error of the program. *)
Definition close (fd : Z) : M (gset Z) unit :=
  fds ← gets id;
  assert_ (bool_decide (fd ∈ fds)) "close of a descriptor that is not open" ;;
  modify (fun fds => fds ∖ {[fd]}).

(** [~EpollPoller()] *)
Definition destroy (epfd : Z) : M (gset Z) unit := close epfd.

Lemma close_wp fd fds (Q : gset Z -> unit -> Prop) :
  fd ∈ fds -> Q (fds ∖ {[fd]}) () -> wp (close fd) fds Q.
Proof.
  intros Hin HQ. unfold close. wp_pures. apply wp_assert; [by apply bool_decide_eq_true_2|]. by wp_pures.
Qed.

Definition set_channels (m : gmap Z ptr) (p : t) : t := mk (events_size p) m (calls p).
Definition set_events_size (n : Z) (p : t) : t := mk n (channels_ p) (calls p).
Definition add_call (c : ctl_call) (p : t) : t := mk (events_size p) (channels_ p) (calls p ++ [c]).

(** A channel and the poller it is registered with. *)
Abbreviation reg := (Channel.t * t)%type.

Definition epoll_ctl (o : ctl_op) (ch : ptr) : M reg unit :=
  modify (fun s => (s.1, add_call (mk_call o (Channel.fd_ s.1) (u32 (Channel.events_ s.1)) ch) s.2)).

Definition set_index (i : Z) : M reg unit := zoom lens_fst (modify (Channel.set_index i)).

Definition update_channel (ch : ptr) : M reg unit :=
  index ← gets (fun s : reg => Channel.index_ s.1);
  if (index =? kNew) || (index =? kDeleted) then
    when (index =? kNew)
      (modify (fun s => (s.1, set_channels (<[Channel.fd_ s.1 := ch]> (channels_ s.2)) s.2))) ;;
    set_index kAdded ;;
    epoll_ctl EPOLL_CTL_ADD ch
  else
    none ← gets (fun s : reg => Channel.is_none_event s.1);
    if (none : bool) then epoll_ctl EPOLL_CTL_DEL ch ;; set_index kDeleted
    else epoll_ctl EPOLL_CTL_MOD ch.

Definition remove_channel (ch : ptr) : M reg unit :=
  modify (fun s => (s.1, set_channels (delete (Channel.fd_ s.1) (channels_ s.2)) s.2)) ;;
  index ← gets (fun s : reg => Channel.index_ s.1);
  when (index =? kAdded) (epoll_ctl EPOLL_CTL_DEL ch) ;;
  set_index kNew.

(** ** Polling the channels of a store *)

Abbreviation store := (gmap ptr Channel.t).

(** The answer of [epoll_wait]: an error, or the events it stored. *)
Inductive wait_result := WaitErr (errno : Z) | WaitOk (evs : list (ptr * Z)).

(** [static_cast<int>(uint32_t)] *)
Definition int_of_u32 (z : Z) : Z := if z <? 2 ^ 31 then z else z - 2 ^ 32.

Fixpoint fill_active_channels (evs : list (ptr * Z)) (active : list ptr) :
    M (store * t) (list ptr) :=
  match evs with
  | [] => mret active
  | (ch, e) :: evs' =>
      chs ← gets (fun s : store * t => s.1);
      match chs !! ch with
      | Some c =>
          modify (fun s => (<[ch := Channel.set_revents (int_of_u32 e) c]> s.1, s.2)) ;;
          fill_active_channels evs' (active ++ [ch])
      | None => ub "event for a destroyed channel"
      end
  end.

(** [poll(timeout_ms, active_channels)] after [epoll_wait] answered [res]. *)
Definition poll (res : wait_result) (active : list ptr) : M (store * t) (list ptr) :=
  match res with
  | WaitErr _ => mret active
  | WaitOk evs =>
      active' ← fill_active_channels evs active;
      n ← gets (fun s : store * t => events_size s.2);
      when (zlen evs =? n)
        (modify (fun s => (s.1, set_events_size (events_size s.2 * 2) s.2))) ;;
      mret active'
  end.

(** ** The channel's operations through the poller *)

Inductive chan_op :=
| EnableReading | DisableReading | EnableWriting | DisableWriting | DisableAll | Remove.

Definition run_op (ch : ptr) (o : chan_op) : M reg unit :=
  match o with
  | EnableReading => Channel.enable_reading lens_fst (update_channel ch)
  | DisableReading => Channel.disable_reading lens_fst (update_channel ch)
  | EnableWriting => Channel.enable_writing lens_fst (update_channel ch)
  | DisableWriting => Channel.disable_writing lens_fst (update_channel ch)
  | DisableAll => Channel.disable_all lens_fst (update_channel ch)
  | Remove => Channel.remove lens_fst (update_channel ch) (remove_channel ch)
  end.

(** An operation on the channel behind a pointer. *)
Definition run_at (ch : ptr) (o : chan_op) : M (store * t) unit := fun s =>
  match s.1 !! ch with
  | Some c =>
      match run_op ch o (c, s.2) with
      | Ret (c', p') _ => Ret (<[ch := c']> s.1, p') ()
      | Throw (c', p') e => Throw (<[ch := c']> s.1, p') e
      | Ub why => Ub why
      | OutOfFuel => OutOfFuel
      end
  | None => Ub "dangling Channel*"
  end.

Definition run_all : list (ptr * chan_op) -> M (store * t) unit :=
  for_each (fun x => run_at x.1 x.2).

(** ** The contract of [epoll_ctl] *)

Module Interest.

(** The interest set of an epoll instance: the mask of every registered fd. *)
Definition set := gmap Z Z.

(** ADD needs a new fd (else EEXIST), MOD and DEL a registered one (ENOENT). *)
Definition ctl (c : ctl_call) (k : gmap Z Z) : option (gmap Z Z) :=
  match op c, k !! fd c with
  | EPOLL_CTL_ADD, None => Some (<[fd c := mask c]> k)
  | EPOLL_CTL_MOD, Some _ => Some (<[fd c := mask c]> k)
  | EPOLL_CTL_DEL, Some _ => Some (delete (fd c) k)
  | _, _ => None
  end.

Fixpoint replay (cs : list ctl_call) (k : gmap Z Z) : option (gmap Z Z) :=
  match cs with
  | [] => Some k
  | c :: cs' => match ctl c k with Some k' => replay cs' k' | None => None end
  end.

Lemma replay_snoc cs c k :
  replay (cs ++ [c]) k = match replay cs k with Some k' => ctl c k' | None => None end.
Proof.
  revert k. induction cs as [|c' cs IH]; intros k; simpl; [by destruct (ctl c k)|].
  by destruct (ctl c' k).
Qed.

End Interest.

(** What the kernel should hold for a channel: its mask, while it is added. *)
Definition wanted (c : Channel.t) : option Z :=
  if Channel.index_ c =? kAdded then Some (u32 (Channel.events_ c)) else None.

(** The poller's map holds the channels that are not new. *)
Definition known (c : Channel.t) (ch : ptr) : option ptr :=
  if Channel.index_ c =? kNew then None else Some ch.

Definition index_ok (c : Channel.t) : Prop :=
  Channel.index_ c = kNew \/ Channel.index_ c = kAdded \/ Channel.index_ c = kDeleted.

(** The bits the code ever asks for. *)
Definition kAllEvents : Z := Z.lor Channel.kReadEvent Channel.kWriteEvent.
Definition level_triggered (m : Z) : Prop := Z.land m (Z.lnot kAllEvents) = 0.

(** One channel agrees with the poller and with the interest set [k]. *)
Record consistent (ch : ptr) (c : Channel.t) (p : t) (k : gmap Z Z) : Prop := {
  cons_index : index_ok c;
  cons_kernel : k !! Channel.fd_ c = wanted c;
  cons_map : channels_ p !! Channel.fd_ c = known c ch;
  cons_mask : level_triggered (Channel.events_ c);
}.

(** Every channel of the store is consistent, and fds are not shared. *)
Record inv (s : store * t) : Prop := {
  inv_fds : forall ch1 ch2 c1 c2, s.1 !! ch1 = Some c1 -> s.1 !! ch2 = Some c2 ->
    Channel.fd_ c1 = Channel.fd_ c2 -> ch1 = ch2;
  inv_legal : exists k, Interest.replay (calls s.2) ∅ = Some k /\
    forall ch c, s.1 !! ch = Some c -> consistent ch c s.2 k;
  inv_masks : Forall (fun c => level_triggered (mask c)) (calls s.2);
}.

(** ** Proofs *)

Section proofs.
Variables (ch : ptr) (fd0 : Z) (k0 : gmap Z Z) (m0 : gmap Z ptr).

(** A registration in progress: the kernel holds [fd0] exactly while the
    channel is added, perhaps with an old mask; the other fds are untouched. *)
Record registered (exact : Prop) (s : reg) (k : gmap Z Z) : Prop := {
  reg_fd : Channel.fd_ s.1 = fd0;
  reg_index : index_ok s.1;
  reg_replay : Interest.replay (calls s.2) ∅ = Some k;
  reg_kernel : is_Some (k !! fd0) <-> Channel.index_ s.1 = kAdded;
  reg_exact : exact -> k !! fd0 = wanted s.1;
  reg_map : channels_ s.2 !! fd0 = known s.1 ch;
  reg_mask : level_triggered (Channel.events_ s.1);
  reg_masks : Forall (fun c => level_triggered (mask c)) (calls s.2);
  reg_frame : forall fd, fd <> fd0 -> k !! fd = k0 !! fd /\ channels_ s.2 !! fd = m0 !! fd;
}.

Lemma level_triggered_u32 e : level_triggered e -> u32 e = e /\ level_triggered (u32 e).
Proof.
  unfold level_triggered. intros H.
  assert (Z.land e (Z.ones 32) = e) as He.
  { assert (e = Z.land e kAllEvents) as He.
    { apply Z.bits_inj'. intros i Hi. rewrite Z.land_spec.
      assert (Z.testbit (Z.land e (Z.lnot kAllEvents)) i = false) as Hb
        by (rewrite H; apply Z.bits_0).
      rewrite Z.land_spec, Z.lnot_spec in Hb by lia.
      by destruct (Z.testbit e i), (Z.testbit kAllEvents i). }
    rewrite He, <- Z.land_assoc. f_equal. }
  assert (u32 e = e) as Hu by (unfold u32; rewrite <- Z.land_ones by lia; exact He).
  by rewrite Hu.
Qed.

(** The three kinds of call, from a registration in progress. *)
Lemma epoll_ctl_spec o s k k' :
  registered False s k ->
  match o with
  | EPOLL_CTL_ADD => k !! fd0 = None /\ k' = <[fd0 := u32 (Channel.events_ s.1)]> k
  | EPOLL_CTL_MOD => is_Some (k !! fd0) /\ k' = <[fd0 := u32 (Channel.events_ s.1)]> k
  | EPOLL_CTL_DEL => is_Some (k !! fd0) /\ k' = delete fd0 k
  end ->
  let s' := (s.1, add_call (mk_call o (Channel.fd_ s.1) (u32 (Channel.events_ s.1)) ch) s.2) in
  Interest.replay (calls s'.2) ∅ = Some k' /\
  Forall (fun c => level_triggered (mask c)) (calls s'.2).
Proof.
  intros H Ho s'. simpl. rewrite Interest.replay_snoc, (reg_replay _ _ _ H), (reg_fd _ _ _ H).
  split.
  - unfold Interest.ctl. simpl. destruct o.
    + by destruct Ho as [-> ->].
    + by destruct Ho as [[? ->] ->].
    + by destruct Ho as [[? ->] ->].
  - apply Forall_app. split; [apply (reg_masks _ _ _ H)|].
    repeat constructor. simpl. apply level_triggered_u32, (reg_mask _ _ _ H).
Qed.

Lemma not_added s k : registered False s k -> Channel.index_ s.1 <> kAdded -> k !! fd0 = None.
Proof.
  intros H Hn. apply eq_None_not_Some. by rewrite (reg_kernel _ _ _ H).
Qed.

Lemma is_added s k : registered False s k -> Channel.index_ s.1 = kAdded -> is_Some (k !! fd0).
Proof. intros H Hn. by apply (reg_kernel _ _ _ H). Qed.

(** A call followed (or preceded) by the matching change of the channel's
    index, with the poller's map [m] already updated. *)
Lemma call_registered o c p k k' i :
  registered False (c, p) k ->
  match o with
  | EPOLL_CTL_ADD => k !! fd0 = None /\ k' = <[fd0 := u32 (Channel.events_ c)]> k /\ i = kAdded
  | EPOLL_CTL_MOD =>
      is_Some (k !! fd0) /\ k' = <[fd0 := u32 (Channel.events_ c)]> k /\ i = kAdded
  | EPOLL_CTL_DEL => is_Some (k !! fd0) /\ k' = delete fd0 k /\ (i = kDeleted \/ i = kNew)
  end ->
  forall m, m !! fd0 = known (Channel.set_index i c) ch ->
  (forall fd, fd <> fd0 -> m !! fd = m0 !! fd) ->
  registered True
    (Channel.set_index i c,
     set_channels m (add_call (mk_call o (Channel.fd_ c) (u32 (Channel.events_ c)) ch) p)) k'.
Proof.
  intros H Ho m Hm Hm0.
  assert (fd0 = Channel.fd_ c) as Hfd by by rewrite <- (reg_fd _ _ _ H).
  pose proof (epoll_ctl_spec o (c, p) k k' H) as Hctl. simpl in Hctl.
  destruct Hctl as [Hrep Hmasks]; [destruct o; naive_solver|].
  split; simpl; try done.
  - by destruct o; destruct Ho as (_ & _ & Hi); unfold index_ok; simpl; try tauto.
  - destruct o; destruct Ho as (? & -> & Hi).
    + rewrite lookup_insert_eq. naive_solver.
    + rewrite lookup_delete_eq. unfold kDeleted, kNew, kAdded in *.
      split; [by intros []|]. lia.
    + rewrite lookup_insert_eq. naive_solver.
  - intros _. unfold wanted. simpl. destruct o; destruct Ho as (? & -> & Hi).
    + by rewrite Hi, lookup_insert_eq.
    + rewrite lookup_delete_eq. by destruct Hi as [-> | ->].
    + by rewrite Hi, lookup_insert_eq.
  - apply (reg_mask _ _ _ H).
  - intros fd Hne. split; [|by apply Hm0].
    rewrite <- (proj1 (reg_frame _ _ _ H fd Hne)).
    destruct o; destruct Ho as (_ & -> & _);
      by rewrite ?lookup_insert_ne, ?lookup_delete_ne by done.
Qed.

Lemma update_channel_spec s k :
  registered False s k ->
  wp (update_channel ch) s (fun s' _ => exists k', registered True s' k' /\
    s'.1 = Channel.set_index
      (if (Channel.index_ s.1 =? kAdded) && Channel.is_none_event s.1
       then kDeleted else kAdded) s.1).
Proof.
  destruct s as [c p]. intros H. pose proof (reg_fd _ _ _ H) as Hfd. simpl in Hfd.
  pose proof (reg_map _ _ _ H) as Hmap. unfold known in Hmap. simpl in Hmap.
  unfold update_channel. wp_pures. simpl.
  destruct (reg_index _ _ _ H) as [Hi|[Hi|Hi]]; simpl in Hi; rewrite Hi in *; cbn.
  - unfold epoll_ctl, set_index. wp_pures. simpl. eexists. split; [|done].
    refine (call_registered EPOLL_CTL_ADD c p k _ kAdded H _ _ _ _); simpl.
    + split_and!; [|done..]. apply (not_added _ _ H). simpl. by rewrite Hi.
    + by rewrite Hfd, lookup_insert_eq.
    + intros fd Hne. rewrite Hfd, lookup_insert_ne by done. by apply (reg_frame _ _ _ H).
  - wp_pures. simpl. destruct (Channel.is_none_event c); unfold epoll_ctl, set_index;
      wp_pures; simpl.
    + eexists. split; [|done].
      refine (call_registered EPOLL_CTL_DEL c p k _ kDeleted H _ (channels_ p) _ _); simpl.
      * split_and!; [by apply (is_added _ _ H)|done|by left].
      * done.
      * intros fd Hne. by apply (reg_frame _ _ _ H).
    + assert (c = Channel.set_index kAdded c) as Hc by (destruct c; simpl in *; by rewrite Hi).
      eexists. split; [|exact Hc]. rewrite Hc at 1.
      refine (call_registered EPOLL_CTL_MOD c p k _ kAdded H _ (channels_ p) _ _); simpl.
      * split_and!; [by apply (is_added _ _ H)|done..].
      * done.
      * intros fd Hne. by apply (reg_frame _ _ _ H).
  - unfold epoll_ctl, set_index. wp_pures. simpl. eexists. split; [|done].
    refine (call_registered EPOLL_CTL_ADD c p k _ kAdded H _ (channels_ p) _ _); simpl.
    + split_and!; [|done..]. apply (not_added _ _ H). simpl. by rewrite Hi.
    + done.
    + intros fd Hne. by apply (reg_frame _ _ _ H).
Qed.

Lemma remove_channel_spec s k :
  registered False s k ->
  wp (remove_channel ch) s (fun s' _ => exists k', registered True s' k' /\
    s'.1 = Channel.set_index kNew s.1).
Proof.
  destruct s as [c p]. intros H. pose proof (reg_fd _ _ _ H) as Hfd. simpl in Hfd.
  unfold remove_channel, set_index. wp_pures. simpl.
  assert (forall fd, fd <> fd0 -> delete (Channel.fd_ c) (channels_ p) !! fd = m0 !! fd) as Hm.
  { intros fd Hne. rewrite Hfd, lookup_delete_ne by done. by apply (reg_frame _ _ _ H). }
  destruct (Z.eqb_spec (Channel.index_ c) kAdded) as [Hi|Hi]; simpl.
  - unfold epoll_ctl. wp_pures. simpl. eexists. split; [|done].
    refine (call_registered EPOLL_CTL_DEL c p k _ kNew H _ _ _ Hm); simpl.
    + split_and!; [by apply (is_added _ _ H)|done|by right].
    + by rewrite Hfd, lookup_delete_eq.
  - wp_pures. simpl. exists k. split; [|done].
    pose proof (not_added _ _ H Hi) as Hk.
    split; simpl; try done.
    + by left.
    + apply (reg_replay _ _ _ H).
    + rewrite Hk. split; [by intros []|]. done.
    + by rewrite Hfd, lookup_delete_eq.
    + apply (reg_mask _ _ _ H).
    + apply (reg_masks _ _ _ H).
    + intros fd Hne. split; [by apply (reg_frame _ _ _ H)|by apply Hm].
Qed.

(** Changing the mask leaves the registration in progress. *)
Lemma change_events_registered s k f :
  registered True s k -> level_triggered (f (Channel.events_ s.1)) ->
  registered False (Channel.set_events (f (Channel.events_ s.1)) s.1, s.2) k.
Proof. intros [] ?. by split. Qed.

Lemma weaken s k : registered True s k -> registered False s k.
Proof. intros []. by split. Qed.

Lemma change_events_spec s k f :
  registered True s k -> level_triggered (f (Channel.events_ s.1)) ->
  wp (Channel.change_events lens_fst (update_channel ch) f) s
    (fun s' _ => exists k', registered True s' k').
Proof.
  intros H Hf. unfold Channel.change_events. wp_pures. simpl.
  eapply wp_mono; [by eapply update_channel_spec, change_events_registered|].
  cbv beta. naive_solver.
Qed.

Lemma level_lor e m :
  level_triggered e -> Z.land m (Z.lnot kAllEvents) = 0 -> level_triggered (Z.lor e m).
Proof. unfold level_triggered. intros He Hm. by rewrite Z.land_lor_distr_l, He, Hm. Qed.

Lemma level_land e m : level_triggered e -> level_triggered (Z.land e m).
Proof.
  unfold level_triggered. intros He.
  by rewrite <- Z.land_assoc, (Z.land_comm m), Z.land_assoc, He.
Qed.

Lemma run_op_spec s k o :
  registered True s k -> wp (run_op ch o) s (fun s' _ => exists k', registered True s' k').
Proof.
  intros H. pose proof (reg_mask _ _ _ H) as He.
  destruct o; simpl; try (eapply change_events_spec; [done|]).
  - by apply level_lor.
  - by apply level_land.
  - by apply level_lor.
  - by apply level_land.
  - done.
  - unfold Channel.remove. apply wp_bind.
    eapply wp_mono; [by eapply change_events_spec|]. cbv beta. intros s' _ [k' H'].
    eapply wp_mono; [eapply remove_channel_spec, weaken, H'|]. cbv beta. naive_solver.
Qed.

End proofs.

(** ** One channel among others *)

Section focus.
Variables (ch : ptr) (c : Channel.t) (p : t) (k : gmap Z Z).
Hypothesis Hrep : Interest.replay (calls p) ∅ = Some k.
Hypothesis Hmasks : Forall (fun c => level_triggered (mask c)) (calls p).

(** A consistent channel is registered, with all else as it is. *)
Lemma consistent_registered :
  consistent ch c p k -> registered ch (Channel.fd_ c) k (channels_ p) True (c, p) k.
Proof.
  intros [Hidx Hk Hm He]. split; simpl; try done. rewrite Hk. unfold wanted.
  destruct (Z.eqb_spec (Channel.index_ c) kAdded); [split; [done|by eexists]|].
  split; [by intros []|done].
Qed.

(** Its operations keep it consistent, *)
Lemma registered_consistent c' p' k' :
  registered ch (Channel.fd_ c) k (channels_ p) True (c', p') k' ->
  Channel.fd_ c' = Channel.fd_ c /\ consistent ch c' p' k'.
Proof.
  intros [Hfd Hidx Hr Hkern Hex Hmap Hmask Hms Hfr]. simpl in *. split; [done|].
  rewrite <- Hfd in *. split; try done. by apply Hex.
Qed.

(** and the channels of other descriptors too. *)
Lemma consistent_frame c' p' k' ch1 c1 :
  registered ch (Channel.fd_ c) k (channels_ p) True (c', p') k' ->
  Channel.fd_ c1 <> Channel.fd_ c -> consistent ch1 c1 p k -> consistent ch1 c1 p' k'.
Proof.
  intros Hreg Hne [Hidx Hk Hm He].
  destruct (reg_frame _ _ _ _ _ _ _ Hreg _ Hne) as [Hk1 Hm1]. simpl in Hm1.
  split; try done; congruence.
Qed.

End focus.

(** ** Every channel of a store *)

Lemma run_at_inv ch o s :
  inv s -> is_Some (s.1 !! ch) ->
  wp (run_at ch o) s (fun s' _ => inv s' /\ dom s'.1 = dom s.1).
Proof.
  destruct s as [chs p]. intros [Hfds (k & Hrep & Hcons) Hmasks] [c Hc]. simpl in *.
  pose proof (consistent_registered ch c p k Hrep Hmasks (Hcons ch c Hc)) as Hreg.
  pose proof (run_op_spec _ _ _ _ _ k o Hreg) as Hop.
  apply wp_ret_inv in Hop as ([c' p'] & [] & Heq & k' & Hreg').
  unfold wp, wpe, run_at. simpl. rewrite Hc, Heq. simpl.
  destruct (registered_consistent ch c p k c' p' k' Hreg') as [Hfd Hcons'].
  split; [|rewrite dom_insert_lookup_L by done; done].
  split; simpl.
  - intros ch1 ch2 c1 c2 H1 H2 Hf.
    destruct (decide (ch1 = ch)) as [->|], (decide (ch2 = ch)) as [->|]; simplify_map_eq; try done.
    + eapply Hfds; [done..|congruence].
    + eapply Hfds; [done..|congruence].
    + by eapply Hfds.
  - exists k'. split; [apply (reg_replay _ _ _ _ _ _ _ Hreg')|]. intros ch1 c1 H1.
    destruct (decide (ch1 = ch)) as [->|Hne]; simplify_map_eq; [done|].
    eapply consistent_frame; [exact Hreg'| |by apply Hcons].
    intros Hf. apply Hne. by eapply Hfds.
  - apply (reg_masks _ _ _ _ _ _ _ Hreg').
Qed.

(** The state after start-up: new channels, an empty epoll instance. *)
Lemma initial_inv (chs : store) :
  (forall ch c, chs !! ch = Some c -> c = Channel.make (Channel.fd_ c)) ->
  (forall ch1 ch2 c1 c2, chs !! ch1 = Some c1 -> chs !! ch2 = Some c2 ->
     Channel.fd_ c1 = Channel.fd_ c2 -> ch1 = ch2) ->
  inv (chs, make).
Proof.
  intros Hnew Hfds. split; simpl; [done| |by constructor].
  exists ∅. split; [done|]. intros ch c Hc. rewrite (Hnew ch c Hc).
  split; simpl; try done. by left.
Qed.

(** C20. Whatever is asked of the channels, in any order and number, the
    [epoll_ctl] requests meet the call's contract: no fd is added twice, none is
    modified or deleted while it is not registered.  At the end the interest
    set holds exactly the channels that are added, with the masks the channels
    hold, and [channels_] exactly those that are not new. *)
Theorem requests_legal ops s :
  inv s -> Forall (fun x => is_Some (s.1 !! x.1)) ops ->
  wp (run_all ops) s (fun s' _ => inv s').
Proof.
  intros Hinv Hops.
  eapply wp_mono;
    [apply (wp_for_each _ ops s (fun _ s' => inv s' /\ dom s'.1 = dom s.1)); [done|]|].
  - intros done_ [ch o] todo s' -> [Hinv' Hdom]. apply Forall_app in Hops as [_ Hops].
    apply Forall_cons in Hops as [Hch _]. simpl in *.
    eapply wp_mono; [apply run_at_inv; [done|]|].
    + apply elem_of_dom. rewrite Hdom. by apply elem_of_dom.
    + cbv beta. intros s'' _ [? ->]. done.
  - cbv beta. tauto.
Qed.

(** A listening and a connected socket, one of them closed. *)
Lemma requests_legal_witness :
  let chs : store := {[ 1%nat := Channel.make 4; 2%nat := Channel.make 9 ]} in
  wp (run_all [(1%nat, EnableReading); (2%nat, EnableReading); (2%nat, EnableWriting);
               (2%nat, DisableAll); (2%nat, Remove); (1%nat, DisableAll)]) (chs, make)
    (fun s' _ => inv s').
Proof.
  intros chs. apply requests_legal.
  - apply initial_inv; unfold chs.
    + intros ch c [[<- <-]|[_ [<- <-]%lookup_singleton_Some]]%lookup_insert_Some; reflexivity.
    + intros ch1 ch2 c1 c2
        [[<- <-]|[_ [<- <-]%lookup_singleton_Some]]%lookup_insert_Some
        [[<- <-]|[_ [<- <-]%lookup_singleton_Some]]%lookup_insert_Some Hf; done.
  - unfold chs. repeat constructor; eexists; reflexivity.
Defined.

(** The reactor is level-triggered: no request the channels can cause asks
    for [EPOLLET], or for any bit other than input, priority and output. *)
Theorem never_edge_triggered ops s s' :
  inv s -> run_all ops s = Ret s' () ->
  Forall (fun c => Epoll.has (mask c) Epoll.EPOLLET = false /\
                   Z.land (mask c) (Z.lnot kAllEvents) = 0) (calls s'.2).
Proof.
  intros Hinv Hrun.
  assert (inv s') as [_ _ Hmasks].
  { revert s Hinv Hrun. induction ops as [|[ch o] ops IH]; intros s Hinv Hrun; simpl in *.
    { by injection Hrun as <-. }
    unfold run_all in Hrun. simpl in Hrun. unfold mbind, M_bind in Hrun.
    destruct (decide (is_Some (s.1 !! ch))) as [Hch|Hch].
    - pose proof (run_at_inv ch o s Hinv Hch) as H.
      apply wp_ret_inv in H as (s1 & [] & Heq & H1 & _). rewrite Heq in Hrun. by eapply IH.
    - unfold run_at in Hrun. apply eq_None_not_Some in Hch. by rewrite Hch in Hrun. }
  eapply Forall_impl; [exact Hmasks|]. cbv beta. intros c Hc. split; [|done].
  unfold Epoll.has. apply negb_false_iff, Z.eqb_eq. unfold level_triggered in Hc.
  apply Z.bits_inj'. intros i Hi. rewrite Z.land_spec, Z.bits_0.
  assert (Z.testbit (Z.land (mask c) (Z.lnot kAllEvents)) i = false) as Hb
    by (rewrite Hc; apply Z.bits_0).
  rewrite Z.land_spec, Z.lnot_spec in Hb by lia. unfold Epoll.EPOLLET.
  rewrite Z.pow2_bits_eqb by lia. destruct (Z.eqb_spec 31 i) as [<-|]; [|by rewrite andb_false_r].
  replace (Z.testbit kAllEvents 31) with false in Hb by reflexivity.
  by rewrite andb_true_r in *.
Qed.

Lemma never_edge_triggered_witness :
  let s := ({[ 1%nat := Channel.make 4 ]} : store, make) in
  exists s', run_all [(1%nat, EnableReading); (1%nat, EnableWriting)] s = Ret s' () /\
  Forall (fun c => Epoll.has (mask c) Epoll.EPOLLET = false /\
                   Z.land (mask c) (Z.lnot kAllEvents) = 0) (calls s'.2) /\
  length (calls s'.2) = 2%nat.
Proof.
  intros s. eexists. split; [reflexivity|]. split; [|reflexivity].
  apply (never_edge_triggered [(1%nat, EnableReading); (1%nat, EnableWriting)] s); [|reflexivity].
  apply initial_inv.
  - intros ch c [<- <-]%lookup_singleton_Some. reflexivity.
  - intros ch1 ch2 c1 c2 [<- <-]%lookup_singleton_Some [<- <-]%lookup_singleton_Some _. done.
Defined.

(** ** Polling *)

Lemma fill_spec evs active (s : store * t) :
  Forall (fun e => is_Some (s.1 !! e.1)) evs ->
  wp (fill_active_channels evs active) s
    (fun s' a => a = active ++ map fst evs /\ s'.2 = s.2 /\
       forall ch, s'.1 !! ch =
         fold_left (fun o e => if decide (e.1 = ch)
                               then Channel.set_revents (int_of_u32 e.2) <$> o else o)
           evs (s.1 !! ch)).
Proof.
  revert active s. induction evs as [|[ch e] evs IH]; intros active s Hevs; simpl.
  { wp_pures. by rewrite app_nil_r. }
  apply Forall_cons in Hevs as [[c Hc] Hevs]. simpl in Hc. wp_pures. rewrite Hc. wp_pures.
  eapply wp_mono; [apply IH|].
  - eapply Forall_impl; [exact Hevs|]. cbv beta. simpl. intros [ch' e'] [c' Hc']. simpl in *.
    destruct (decide (ch = ch')) as [->|]; simplify_map_eq; by eexists.
  - cbv beta. simpl. intros s' a (-> & -> & Hs). rewrite <- app_assoc. split_and!; try done.
    intros ch'. rewrite Hs. destruct (decide (ch = ch')) as [->|]; simplify_map_eq; done.
Qed.

(** One poll reports the channels of the events the kernel returned, in the
    kernel's order, sets each reported channel's received events to the last
    mask reported for it and changes no other channel, and doubles the event
    array exactly when the kernel filled it. *)
Theorem poll_spec evs (s : store * t) :
  Forall (fun e => is_Some (s.1 !! e.1)) evs ->
  wp (poll (WaitOk evs) []) s
    (fun s' a => a = map fst evs /\
       (forall ch, s'.1 !! ch =
          fold_left (fun o e => if decide (e.1 = ch)
                                then Channel.set_revents (int_of_u32 e.2) <$> o else o)
            evs (s.1 !! ch)) /\
       channels_ s'.2 = channels_ s.2 /\ calls s'.2 = calls s.2 /\
       events_size s'.2 =
         (if zlen evs =? events_size s.2 then 2 * events_size s.2 else events_size s.2)).
Proof.
  intros Hevs. unfold poll. wp_pures. eapply wp_mono; [by apply fill_spec|].
  cbv beta. intros [chs p] a (-> & Hp & Hs). simpl in *. subst p. wp_pures. simpl.
  destruct (zlen evs =? events_size s.2) eqn:Hn; simpl; unfold when; wp_pures; simpl;
    split_and!; try done; lia.
Qed.

Lemma poll_spec_witness :
  let s := ({[ 1%nat := Channel.make 4 ]} : store, make) in
  wp (poll (WaitOk [(1%nat, Epoll.EPOLLIN)]) []) s
    (fun s' a => a = [1%nat] /\
       (forall ch, s'.1 !! ch =
          fold_left (fun o (e : ptr * Z) => if decide (e.1 = ch)
                                then Channel.set_revents (int_of_u32 e.2) <$> o else o)
            [(1%nat, Epoll.EPOLLIN)] (s.1 !! ch)) /\
       channels_ s'.2 = channels_ s.2 /\ calls s'.2 = calls s.2 /\
       events_size s'.2 = 16).
Proof.
  intros s. apply (poll_spec [(1%nat, Epoll.EPOLLIN)] s).
  repeat constructor. eexists. reflexivity.
Defined.

End EpollPoller.
