(* ===== verification/CxxString.v ===== *)
(** * What the code uses of [std::string] and its number conversions

    [rfind], [substr], [std::to_string] and [std::stoi], with the lemmas that
    relate them: printing and reading a number is the identity, and a string
    splits at the last separator it was joined with. *)

From Stdlib Require Import ZArith Lia Ascii.
From S2P Require Import Prelude.
Local Open Scope Z_scope.

Module Str.

(** [s.rfind(c)]: the position of the last [c], or [npos]. *)
Fixpoint rfind (c : ascii) (s : string) : option nat :=
  match s with
  | EmptyString => None
  | String a s' =>
      match rfind c s' with
      | Some i => Some (S i)
      | None => if decide (a = c) then Some 0%nat else None
      end
  end.

(** [s.substr(0, n)] and [s.substr(n)], for [n <= s.size()]. *)
Fixpoint substr_to (n : nat) (s : string) : string :=
  match n, s with
  | S n', String a s' => String a (substr_to n' s')
  | _, _ => EmptyString
  end.
Fixpoint substr_from (n : nat) (s : string) : string :=
  match n, s with
  | S n', String _ s' => substr_from n' s'
  | _, _ => s
  end.

(** [c] does not occur in [s]. *)
Fixpoint free_of (c : ascii) (s : string) : bool :=
  match s with
  | EmptyString => true
  | String a s' => bool_decide (a <> c) && free_of c s'
  end.

Lemma append_cons a s t : (String a s +:+ t = String a (s +:+ t))%string.
Proof. reflexivity. Qed.

Lemma append_empty t : ("" +:+ t = t)%string.
Proof. reflexivity. Qed.

Lemma append_nil s : (s +:+ "")%string = s.
Proof. induction s as [|a s IH]; [done|by rewrite ?append_cons, IH]. Qed.

Lemma append_assoc s1 s2 s3 : ((s1 +:+ s2) +:+ s3 = s1 +:+ (s2 +:+ s3))%string.
Proof. induction s1 as [|a s IH]; [done|by rewrite ?append_cons, IH]. Qed.

Lemma append_inj_l s t1 t2 : (s +:+ t1 = s +:+ t2)%string -> t1 = t2.
Proof.
  induction s as [|a s IH]; [done|]. rewrite !append_cons. intros [= H]. by apply IH.
Qed.

Lemma free_of_app c s t : free_of c (s +:+ t)%string = free_of c s && free_of c t.
Proof.
  induction s as [|a s IH]; [done|]. rewrite append_cons. simpl. by rewrite IH, andb_assoc.
Qed.

Lemma rfind_free c s : free_of c s = true -> rfind c s = None.
Proof.
  induction s as [|a s IH]; simpl; [done|].
  intros [Ha Hs]%andb_true_iff. apply bool_decide_eq_true in Ha. rewrite IH by done.
  by rewrite decide_False.
Qed.

(** Joining with a separator and splitting at its last occurrence. *)
Lemma rfind_join c h t : free_of c t = true -> rfind c (h +:+ String c t)%string = Some (String.length h).
Proof.
  intros Ht. induction h as [|a h IH].
  - rewrite append_empty. simpl. by rewrite rfind_free, decide_True by done.
  - rewrite append_cons. simpl. by rewrite IH.
Qed.

Lemma substr_to_join h t : substr_to (String.length h) (h +:+ t)%string = h.
Proof.
  induction h as [|a h IH]; [by destruct t|]. rewrite append_cons. simpl. by rewrite IH.
Qed.

Lemma substr_from_join h c t : substr_from (S (String.length h)) (h +:+ String c t)%string = t.
Proof. induction h as [|a h IH]; [by destruct t|]. rewrite append_cons. exact IH. Qed.

Lemma rfind_split c s i :
  rfind c s = Some i ->
  s = (substr_to i s +:+ String c (substr_from (S i) s))%string /\
  free_of c (substr_from (S i) s) = true.
Proof.
  revert i. induction s as [|a s IH]; intros i; simpl; [done|].
  destruct (rfind c s) as [j|] eqn:Hr.
  - intros [= <-]. destruct (IH j eq_refl) as [H1 H2]. simpl. rewrite append_cons. split; [by f_equal|done].
  - case_decide as Ha; [|done]. intros [= <-]. subst a.
    assert (forall s', substr_from 0 s' = s') as Hz by by intros [].
    rewrite Hz, append_empty. split; [done|]. clear IH. induction s as [|b s IH]; simpl in *; [done|].
    destruct (rfind c s); [done|]. case_decide; [done|].
    rewrite bool_decide_true by done. by apply IH.
Qed.

(** ** [std::to_string] *)

Definition digit (d : Z) : ascii := ascii_of_nat (48 + Z.to_nat d).

(** The decimal digits of [n], before [rest]. *)
Fixpoint digits (fuel : nat) (n : Z) (rest : string) : string :=
  match fuel with
  | O => rest
  | S fuel' =>
      let rest' := String (digit (n mod 10)) rest in
      if n <? 10 then rest' else digits fuel' (n / 10) rest'
  end.

(** A number has no more decimal digits than binary ones. *)
Definition to_string_nonneg (n : Z) : string := digits (S (Z.to_nat (Z.log2 n))) n "".

Definition to_string (z : Z) : string :=
  if z <? 0 then String "-" (to_string_nonneg (- z)) else to_string_nonneg z.

(** ** [std::stoi] *)

Definition digit_value (c : ascii) : option Z :=
  let n := Z.of_nat (nat_of_ascii c) - 48 in
  if (0 <=? n) && (n <=? 9) then Some n else None.

Definition is_space (c : ascii) : bool :=
  let n := nat_of_ascii c in (n =? 32)%nat || ((9 <=? n)%nat && (n <=? 13)%nat).

Fixpoint skip_spaces (s : string) : string :=
  match s with
  | String c s' => if is_space c then skip_spaces s' else s
  | EmptyString => s
  end.

(** The longest run of digits; [None] when there is none. *)
Fixpoint read_digits (acc : Z) (seen : bool) (s : string) : option Z :=
  match s with
  | String c s' =>
      match digit_value c with
      | Some d => read_digits (10 * acc + d) true s'
      | None => if seen then Some acc else None
      end
  | EmptyString => if seen then Some acc else None
  end.

Definition read_int (s : string) : option Z :=
  match skip_spaces s with
  | String c s' =>
      if Ascii.eqb c "-" then Z.opp <$> read_digits 0 false s'
      else if Ascii.eqb c "+" then read_digits 0 false s'
      else read_digits 0 false (String c s')
  | EmptyString => None
  end.

Definition stoi {S} (s : string) : M S Z :=
  match read_int s with
  | None => throw (invalid_argument "stoi")
  | Some z =>
      if (int_min <=? z) && (z <=? int_max) then mret z else throw (out_of_range "stoi")
  end.

(** ** Printing and reading *)

#[local] Arguments digit : simpl never.
#[local] Arguments digit_value : simpl never.

(** The ten cases of a digit. *)
Ltac digit_cases d :=
  let H := fresh in
  assert (d = 0 \/ d = 1 \/ d = 2 \/ d = 3 \/ d = 4 \/ d = 5 \/ d = 6 \/ d = 7 \/
    d = 8 \/ d = 9) as H by lia;
  repeat destruct H as [-> | H]; [..|subst d].

Lemma digit_value_digit d : 0 <= d <= 9 -> digit_value (digit d) = Some d.
Proof.
  intros Hd. by digit_cases d.
Qed.

Lemma digits_read fuel n rest :
  0 <= n < 10 ^ Z.of_nat fuel ->
  (0 < fuel)%nat ->
  exists k, 0 <= k /\ forall acc seen,
    read_digits acc seen (digits fuel n rest) = read_digits (acc * 10 ^ k + n) true rest.
Proof.
  revert n rest. induction fuel as [|fuel IH]; intros n rest Hn Hf; [lia|]. simpl.
  pose proof (Z.mod_pos_bound n 10). destruct (Z.ltb_spec n 10).
  - exists 1. split; [lia|]. intros acc seen. cbn [read_digits].
    rewrite Z.mod_small by lia. rewrite digit_value_digit, Z.pow_1_r by lia. f_equal. lia.
  - destruct fuel as [|fuel]; [simpl in Hn; lia|].
    rewrite Nat2Z.inj_succ, Z.pow_succ_r in Hn by lia.
    destruct (IH (n / 10) (String (digit (n mod 10)) rest)) as (k & Hk & Hread); [|lia|].
    { split; [apply Z.div_pos; lia|]. apply Z.div_lt_upper_bound; lia. }
    exists (Z.succ k). split; [lia|]. intros acc seen. rewrite Hread. cbn [read_digits].
    rewrite digit_value_digit by lia. f_equal. rewrite Z.pow_succ_r by lia.
    pose proof (Z.div_mod n 10). lia.
Qed.

Lemma read_to_string_nonneg n : 0 <= n -> read_digits 0 false (to_string_nonneg n) = Some n.
Proof.
  intros Hn. unfold to_string_nonneg.
  destruct (digits_read (S (Z.to_nat (Z.log2 n))) n "") as (k & _ & Hread); [|lia|].
  - split; [done|]. rewrite Nat2Z.inj_succ, Z2Nat.id by apply Z.log2_nonneg.
    destruct (decide (n = 0)) as [->|]; [reflexivity|].
    destruct (Z.log2_spec n) as [_ Hlt]; [lia|].
    eapply Z.lt_le_trans; [exact Hlt|]. apply Z.pow_le_mono_l. lia.
  - by rewrite Hread.
Qed.

(** A printed number begins with a digit. *)
Lemma digits_head fuel n rest :
  (0 < fuel)%nat -> exists d s, digits fuel n rest = String (digit d) s /\ 0 <= d <= 9.
Proof.
  revert n rest. induction fuel as [|fuel IH]; intros n rest Hf; [lia|].
  cbn [digits]. pose proof (Z.mod_pos_bound n 10). destruct (n <? 10).
  - eexists _, _. split; [reflexivity|lia].
  - destruct fuel as [|fuel]; [eexists _, _; split; [reflexivity|lia]|]. apply IH. lia.
Qed.

Lemma digits_free c fuel n rest :
  (forall d, 0 <= d <= 9 -> digit d <> c) ->
  free_of c rest = true -> free_of c (digits fuel n rest) = true.
Proof.
  intros Hc. revert n rest. induction fuel as [|fuel IH]; intros n rest Hr; cbn [digits]; [done|].
  assert (free_of c (String (digit (n mod 10)) rest) = true) as Hr'.
  { cbn [free_of]. pose proof (Z.mod_pos_bound n 10).
    by rewrite bool_decide_true by (apply Hc; lia). }
  destruct (n <? 10); [done|]. by apply IH.
Qed.

Lemma to_string_free c z :
  c <> "-"%char -> (forall d, 0 <= d <= 9 -> digit d <> c) -> free_of c (to_string z) = true.
Proof.
  intros Hm Hd. unfold to_string, to_string_nonneg. destruct (z <? 0); cbn [free_of].
  - rewrite bool_decide_true by congruence. by apply (digits_free c (S _)).
  - by apply (digits_free c (S _)).
Qed.

Lemma read_int_minus s : read_int (String "-" s) = Z.opp <$> read_digits 0 false s.
Proof. reflexivity. Qed.

Lemma read_int_digit d s :
  0 <= d <= 9 -> read_int (String (digit d) s) = read_digits 0 false (String (digit d) s).
Proof. intros Hd. by digit_cases d. Qed.

Lemma read_to_string z : read_int (to_string z) = Some z.
Proof.
  unfold to_string. destruct (Z.ltb_spec z 0).
  - rewrite read_int_minus, read_to_string_nonneg by lia. cbn. f_equal. lia.
  - pose proof (read_to_string_nonneg z ltac:(lia)) as Hread. unfold to_string_nonneg in *.
    destruct (digits_head (S (Z.to_nat (Z.log2 z))) z "") as (d & s & Heq & Hd); [lia|].
    rewrite Heq in *. by rewrite read_int_digit.
Qed.

(** [std::stoi(std::to_string(z))] is [z]. *)
Lemma stoi_to_string {S} z (s : S) :
  int_min <= z <= int_max -> stoi (to_string z) s = Ret s z.
Proof.
  intros Hz. unfold stoi. rewrite read_to_string.
  by rewrite !(proj2 (Z.leb_le _ _)) by lia.
Qed.

Lemma to_string_inj z1 z2 : to_string z1 = to_string z2 -> z1 = z2.
Proof. intros H. apply (f_equal read_int) in H. rewrite !read_to_string in H. congruence. Qed.

Lemma digit_not_separator d : 0 <= d <= 9 -> digit d <> ":"%char /\ digit d <> "/"%char.
Proof.
  intros Hd. by digit_cases d.
Qed.

Lemma to_string_no_colon z : free_of ":" (to_string z) = true.
Proof. apply to_string_free; [done|]. intros d Hd. by apply digit_not_separator. Qed.

Lemma to_string_no_slash z : free_of "/" (to_string z) = true.
Proof. apply to_string_free; [done|]. intros d Hd. by apply digit_not_separator. Qed.

Lemma to_string_no_nul z : free_of "000" (to_string z) = true.
Proof. apply to_string_free; [done|]. intros d Hd. by digit_cases d. Qed.

Lemma digits_length fuel n rest : (String.length (digits fuel n rest) <= fuel + String.length rest)%nat.
Proof.
  revert n rest. induction fuel as [|fuel IH]; intros n rest; cbn [digits]; [lia|].
  destruct (n <? 10); [simpl; lia|]. etrans; [apply IH|]. simpl. lia.
Qed.

(** The decimal form of an [int] is short. *)
Lemma to_string_length z : int_min <= z <= int_max -> (String.length (to_string z) <= 34)%nat.
Proof.
  intros Hz. unfold to_string, to_string_nonneg.
  assert (forall n, 0 <= n <= 2 ^ 31 -> (String.length (digits (S (Z.to_nat (Z.log2 n))) n "") <= 33)%nat) as Hn.
  { intros n Hn. etrans; [apply digits_length|]. pose proof (Z.log2_le_mono n (2 ^ 31) ltac:(lia)) as Hl.
    rewrite Z.log2_pow2 in Hl by lia. simpl. lia. }
  unfold int_min, int_max in Hz. destruct (Z.ltb_spec z 0).
  - simpl. pose proof (Hn (- z) ltac:(lia)). simpl in *. lia.
  - pose proof (Hn z ltac:(lia)). lia.
Qed.

End Str.
