(* ===== verification/LoadBalancer.v ===== *)
(** * Load balancing (include/registry/load_balancer.h, src/registry/load_balancer.cpp)

    The four strategies.  A random engine of type [G] and the answers of
    [std::uniform_int_distribution] are the class [Uniform], whose law
    [UniformOk] is the range the standard promises.  [Fnv], [Ring]: the hash
    and the ordered map of the consistent-hash strategy. *)

From Stdlib Require Import ZArith Lia Ascii.
From S2P Require Import Prelude CxxString.
Local Open Scope Z_scope.

Module LoadBalancer.

Record ServiceEndpoint := mkEndpoint { host : string; port : Z; weight : Z }.

#[export] Instance endpoint_eq_dec : EqDecision ServiceEndpoint.
Proof. solve_decision. Defined.

Definition endpoint_to_string (ep : ServiceEndpoint) : string :=
  (host ep +:+ (":" +:+ Str.to_string (port ep)))%string.

(** [std::uniform_int_distribution(a, b)(rng)]: a value and the engine after it. *)
Class Uniform (G : Type) := uniform : Z -> Z -> G -> Z * G.
Class UniformOk (G : Type) {U : Uniform G} : Prop :=
  uniform_range a b (g : G) : a <= b -> a <= (uniform a b g).1 <= b.

Section random.
Context {G : Type} `{Uniform G}.

(** Its precondition is [a <= b]. *)
Definition draw (a b : Z) : M G Z := fun g =>
  if a <=? b then Ret (uniform a b g).2 (uniform a b g).1
  else Ub "uniform_int_distribution(a, b) with b < a".

(** [v\[i\]] *)
Definition at_index {S A} (l : list A) (i : Z) : M S A :=
  match (if 0 <=? i then l !! Z.to_nat i else None) with
  | Some x => mret x
  | None => ub "vector index out of range"
  end.

Definition no_endpoints : exn := runtime_error "no available endpoints".

(** ** Random *)

Definition random_select (endpoints : list ServiceEndpoint) : M G ServiceEndpoint :=
  if bool_decide (endpoints = []) then throw no_endpoints
  else
    i ← draw 0 (zlen endpoints - 1);
    at_index endpoints i.

(** ** Weighted random *)

(** [a + b] on [int]: overflow is undefined. *)
Definition int_op {S} (z : Z) : M S Z :=
  if (int_min <=? z) && (z <=? int_max) then mret z else ub "signed overflow".

(** [for (ep : endpoints) total += ep.weight;] *)
Fixpoint total_weight {S} (endpoints : list ServiceEndpoint) (total : Z) : M S Z :=
  match endpoints with
  | [] => mret total
  | ep :: eps => t ← int_op (total + weight ep); total_weight eps t
  end.

(** [for (ep : endpoints) { r -= ep.weight; if (r < 0) return ep; }
     return endpoints.back();] *)
Fixpoint weighted_pick {S} (endpoints : list ServiceEndpoint) (r : Z)
    (back : ServiceEndpoint) : M S ServiceEndpoint :=
  match endpoints with
  | [] => mret back
  | ep :: eps =>
      r' ← int_op (r - weight ep);
      if r' <? 0 then mret ep else weighted_pick eps r' back
  end.

Definition weighted_select (endpoints : list ServiceEndpoint) : M G ServiceEndpoint :=
  match last endpoints with
  | None => throw no_endpoints
  | Some back =>
      total ← total_weight endpoints 0;
      top ← int_op (total - 1);
      r ← draw 0 top;
      weighted_pick endpoints r back
  end.

End random.

(** ** Round robin: the state is [counter_] *)

Definition round_robin_select (endpoints : list ServiceEndpoint) : M Z ServiceEndpoint :=
  if bool_decide (endpoints = []) then throw no_endpoints
  else
    c ← gets id;
    modify (fun c => u64 (c + 1)) ;;
    at_index endpoints (c mod zlen endpoints).

(** ** Consistent hash *)

Module Fnv.

Definition offset_basis : Z := 2166136261.
Definition prime : Z := 16777619.

(** [h ^= c; h *= 16777619u;] *)
Definition step (h : Z) (c : ascii) : Z := u32 (Z.lxor h (Z.of_nat (nat_of_ascii c)) * prime).

Fixpoint hash_from (h : Z) (s : string) : Z :=
  match s with
  | EmptyString => h
  | String c s' => hash_from (step h c) s'
  end.

Definition hash (s : string) : Z := hash_from offset_basis s.

Example hash_empty : hash "" = 0x811c9dc5.
Proof. reflexivity. Qed.
Example hash_a : hash "a" = 0xe40c292c.
Proof. reflexivity. Qed.
Example hash_foobar : hash "foobar" = 0xbf9cf968.
Proof. reflexivity. Qed.

End Fnv.

(** [std::map<uint32_t, const ServiceEndpoint*>] and its lookups. *)
Module Ring.

(** The entry with the least key. *)
Fixpoint least {V} (l : list (Z * V)) : option (Z * V) :=
  match l with
  | [] => None
  | x :: l' =>
      match least l' with
      | Some y => if x.1 <=? y.1 then Some x else Some y
      | None => Some x
      end
  end.

Section ring.
Context {V : Type}.
Implicit Types (m : gmap Z V).

(** [*begin()] and [*lower_bound(h)]. *)
Definition begin m : option (Z * V) := least (map_to_list m).
Definition lower_bound (h : Z) m : option (Z * V) :=
  least (filter (fun x => h <= x.1) (map_to_list m)).

Lemma least_spec (l : list (Z * V)) :
  match least l with
  | Some x => x ∈ l /\ forall y, y ∈ l -> x.1 <= y.1
  | None => l = []
  end.
Proof.
  induction l as [|x l IH]; simpl; [done|]. destruct (least l) as [y|].
  - destruct IH as [Hy Hmin]. destruct (Z.leb_spec x.1 y.1); (split; [set_solver|]);
      intros z [->|Hz]%elem_of_cons; try lia; specialize (Hmin z Hz); lia.
  - subst l. split; [set_solver|]. intros z ->%list_elem_of_singleton. lia.
Qed.

Lemma begin_Some m k v :
  begin m = Some (k, v) -> m !! k = Some v /\ forall k' v', m !! k' = Some v' -> k <= k'.
Proof.
  unfold begin. intros Hl. pose proof (least_spec (map_to_list m)) as H. rewrite Hl in H.
  destruct H as [Hin Hmin]. split; [by apply elem_of_map_to_list|].
  intros k' v' Hk'. apply (Hmin (k', v')). by apply elem_of_map_to_list.
Qed.

Lemma begin_None m : begin m = None -> m = ∅.
Proof.
  unfold begin. intros Hl. pose proof (least_spec (map_to_list m)) as H. rewrite Hl in H.
  by apply map_to_list_empty_iff.
Qed.

Lemma lower_bound_Some m h k v :
  lower_bound h m = Some (k, v) ->
  m !! k = Some v /\ h <= k /\ forall k' v', m !! k' = Some v' -> h <= k' -> k <= k'.
Proof.
  unfold lower_bound. intros Hl.
  pose proof (least_spec (filter (fun x => h <= x.1) (map_to_list m))) as H. rewrite Hl in H.
  destruct H as [[? Hin]%list_elem_of_filter Hmin]. simpl in *.
  split_and!; [by apply elem_of_map_to_list|done|]. intros k' v' Hk' Hh.
  apply (Hmin (k', v')). apply list_elem_of_filter. split; [done|by apply elem_of_map_to_list].
Qed.

Lemma lower_bound_None m h k v : lower_bound h m = None -> m !! k = Some v -> k < h.
Proof.
  unfold lower_bound. intros Hl Hk.
  pose proof (least_spec (filter (fun x => h <= x.1) (map_to_list m))) as H. rewrite Hl in H.
  destruct (Z.lt_ge_cases k h) as [|Hge]; [done|]. exfalso.
  assert ((k, v) ∈ filter (fun x => h <= x.1) (map_to_list m)) as Hin.
  { apply list_elem_of_filter. split; [done|by apply elem_of_map_to_list]. }
  rewrite H in Hin. by apply not_elem_of_nil in Hin.
Qed.

(** The entry the code picks for a key: the first at or after it, else the
    first of all. *)
Definition successor (h : Z) m : option (Z * V) :=
  match lower_bound h m with Some x => Some x | None => begin m end.

(** The successor's key, as a specification. *)
Definition is_successor (h k : Z) m : Prop :=
  is_Some (m !! k) /\
  ((h <= k /\ forall k', is_Some (m !! k') -> h <= k' -> k <= k') \/
   ((forall k', is_Some (m !! k') -> k' < h) /\ forall k', is_Some (m !! k') -> k <= k')).

Lemma successor_sound h m k v :
  successor h m = Some (k, v) -> is_successor h k m /\ m !! k = Some v.
Proof.
  unfold successor. destruct (lower_bound h m) as [[k1 v1]|] eqn:Hl.
  - intros [= <- <-]. apply lower_bound_Some in Hl as (Hk & Hh & Hmin).
    split; [|done]. split; [by eexists|]. left. split; [done|]. intros k' [v' ?]. eauto.
  - intros Hb. apply begin_Some in Hb as [Hk Hmin].
    split; [|done]. split; [by eexists|]. right.
    split; intros k' [v' ?]; [by eapply lower_bound_None|eauto].
Qed.

Lemma is_successor_inj h m k k1 : is_successor h k m -> is_successor h k1 m -> k1 = k.
Proof.
  intros [Hm [[? Hmin]|[Hlt Hmin]]] [Hm1 [[? Hmin1]|[Hlt1 Hmin1]]].
  - apply Z.le_antisymm; auto.
  - specialize (Hlt1 k Hm). lia.
  - specialize (Hlt k1 Hm1). lia.
  - apply Z.le_antisymm; auto.
Qed.

Lemma successor_spec h m k v :
  successor h m = Some (k, v) <-> is_successor h k m /\ m !! k = Some v.
Proof.
  split; [apply successor_sound|]. intros [Hs Hk].
  destruct (successor h m) as [[k1 v1]|] eqn:H1.
  - apply successor_sound in H1 as [Hs1 Hk1].
    assert (k1 = k) as -> by by eapply is_successor_inj. congruence.
  - unfold successor in H1. destruct (lower_bound h m); [done|].
    apply begin_None in H1. subst m. by rewrite lookup_empty in Hk.
Qed.

End ring.
End Ring.

(** [hash(ep.to_string() + "#" + std::to_string(i))] *)
Definition vnode (ep : ServiceEndpoint) (i : Z) : Z :=
  Fnv.hash (endpoint_to_string ep +:+ ("#" +:+ Str.to_string i))%string.

(** The inner loop for one endpoint, and the ring of a list of endpoints. *)
Definition add_endpoint (virtual_nodes : Z) (ring : gmap Z ServiceEndpoint)
    (ep : ServiceEndpoint) : gmap Z ServiceEndpoint :=
  fold_left (fun ring i => <[vnode ep i := ep]> ring) (seqZ 0 virtual_nodes) ring.

Definition build_ring (virtual_nodes : Z) (endpoints : list ServiceEndpoint)
    : gmap Z ServiceEndpoint :=
  fold_left (add_endpoint virtual_nodes) endpoints ∅.

(** The state is [(virtual_nodes_, key_)]. *)
Definition consistent_hash_select (endpoints : list ServiceEndpoint)
    : M (Z * string) ServiceEndpoint :=
  if bool_decide (endpoints = []) then throw no_endpoints
  else
    vn ← gets fst;
    key ← gets snd;
    let ring := build_ring vn endpoints in
    let key_hash := Fnv.hash (if String.eqb key "" then "default" else key)%string in
    match Ring.successor key_hash ring with
    | Some (_, ep) => mret ep
    | None => ub "dereference of end()"
    end.

Definition set_hash_key (key : string) : M (Z * string) unit :=
  modify (fun s => (s.1, key)).

(** ** The balancers behind the common interface *)

Inductive LBStrategy := Random | RoundRobin | Weighted | ConsistentHash.

Inductive balancer :=
| RandomLoadBalancer
| RoundRobinLoadBalancer (counter_ : Z)
| WeightedLoadBalancer
| ConsistentHashLoadBalancer (virtual_nodes_ : Z) (key_ : string).

Definition make_load_balancer (strategy : LBStrategy) : balancer :=
  match strategy with
  | Random => RandomLoadBalancer
  | RoundRobin => RoundRobinLoadBalancer 0
  | Weighted => WeightedLoadBalancer
  | ConsistentHash => ConsistentHashLoadBalancer 150 ""
  end.

(** Run the member function on the member state [x], which [back] puts back. *)
Definition on_member {G B A} (x : B) (back : B -> balancer) (m : M B A) : M (balancer * G) A :=
  fun s =>
  match m x with
  | Ret y a => Ret (back y, s.2) a
  | Throw y e => Throw (back y, s.2) e
  | Ub why => Ub why
  | OutOfFuel => OutOfFuel
  end.

(** The virtual call [lb->select(endpoints)]. *)
Definition select {G} `{Uniform G} (endpoints : list ServiceEndpoint)
    : M (balancer * G) ServiceEndpoint := fun s =>
  match s.1 with
  | RandomLoadBalancer => zoom lens_snd (random_select endpoints) s
  | WeightedLoadBalancer => zoom lens_snd (weighted_select endpoints) s
  | RoundRobinLoadBalancer c =>
      on_member c RoundRobinLoadBalancer (round_robin_select endpoints) s
  | ConsistentHashLoadBalancer vn key =>
      on_member (vn, key) (fun x => ConsistentHashLoadBalancer x.1 x.2)
        (consistent_hash_select endpoints) s
  end.

(** ** Weighted random is proportional to the weights *)

Definition weights (endpoints : list ServiceEndpoint) : Z :=
  foldr (fun ep acc => weight ep + acc) 0 endpoints.

#[export] Instance weights_proper : Proper ((≡ₚ) ==> (=)) weights.
Proof. induction 1; simpl; lia. Qed.

(** What the entries equal to [ep] weigh together. *)
Definition weight_of (ep : ServiceEndpoint) (endpoints : list ServiceEndpoint) : Z :=
  weights (filter (fun x => x = ep) endpoints).

(** The entry in whose interval the draw [r] falls. *)
Fixpoint pick (endpoints : list ServiceEndpoint) (back : ServiceEndpoint) (r : Z)
    : ServiceEndpoint :=
  match endpoints with
  | [] => back
  | ep :: eps => if r <? weight ep then ep else pick eps back (r - weight ep)
  end.

Definition nonneg (endpoints : list ServiceEndpoint) : Prop :=
  Forall (fun ep => 0 <= weight ep) endpoints.

Lemma weights_nonneg endpoints : nonneg endpoints -> 0 <= weights endpoints.
Proof. induction 1; simpl; lia. Qed.

Lemma int_op_ok {S} z (s : S) : int_min <= z <= int_max -> int_op z s = Ret s z.
Proof. intros ?. unfold int_op. by rewrite !(proj2 (Z.leb_le _ _)) by lia. Qed.

Lemma total_weight_ok {S} endpoints acc (s : S) :
  nonneg endpoints -> 0 <= acc -> acc + weights endpoints <= int_max ->
  total_weight endpoints acc s = Ret s (acc + weights endpoints).
Proof.
  intros Hw. revert acc. induction Hw as [|ep eps Hep Hw IH]; intros acc Hacc Hle; simpl in *.
  - by rewrite Z.add_0_r.
  - pose proof (weights_nonneg eps Hw). unfold mbind, M_bind.
    rewrite int_op_ok by (unfold int_min in *; lia). rewrite IH by lia. f_equal. lia.
Qed.

Lemma weighted_pick_ok {S} endpoints r back (s : S) :
  nonneg endpoints -> weights endpoints <= int_max -> 0 <= r <= int_max ->
  weighted_pick endpoints r back s = Ret s (pick endpoints back r).
Proof.
  intros Hw. revert r. induction Hw as [|ep eps Hep Hw IH]; intros r Hle Hr; simpl in *; [done|].
  pose proof (weights_nonneg eps Hw). unfold mbind, M_bind.
  rewrite int_op_ok by (unfold int_min, int_max in *; lia).
  destruct (Z.ltb_spec (r - weight ep) 0), (Z.ltb_spec r (weight ep)); try lia; [done|].
  apply IH; lia.
Qed.

(** The number of draws in [\[a, a + n)] for which [f] answers [ep]. *)
Definition draws_for (f : Z -> ServiceEndpoint) (ep : ServiceEndpoint) (a n : Z) : Z :=
  zlen (filter (fun r => f r = ep) (seqZ a n)).

Lemma draws_for_app f ep a n m :
  0 <= n -> 0 <= m -> draws_for f ep a (n + m) = draws_for f ep a n + draws_for f ep (a + n) m.
Proof. intros ??. unfold draws_for. by rewrite seqZ_app, filter_app, zlen_app by lia. Qed.

Lemma draws_for_const f ep x a n :
  0 <= n -> (forall r, a <= r < a + n -> f r = x) ->
  draws_for f ep a n = if decide (x = ep) then n else 0.
Proof.
  intros Hn Hf. unfold draws_for.
  assert (forall l, Forall (fun r => f r = x) l ->
    zlen (filter (fun r => f r = ep) l) = if decide (x = ep) then zlen l else 0) as ->.
  { induction 1 as [|r l Hr _ IH]; [by case_decide|]. rewrite filter_cons, Hr.
    case_decide; [rewrite !zlen_cons; by rewrite IH|done]. }
  - case_decide; [|done]. unfold zlen. rewrite length_seqZ. lia.
  - apply Forall_forall. intros r Hr%elem_of_seqZ. by apply Hf.
Qed.

Lemma draws_for_shift f g ep a n :
  0 <= n -> (forall r, 0 <= r < n -> f (a + r) = g r) -> draws_for f ep a n = draws_for g ep 0 n.
Proof.
  intros Hn Hfg. unfold draws_for. rewrite <- (Z.add_0_r a), <- fmap_add_seqZ.
  assert (forall l, Forall (fun r => f (a + r) = g r) l ->
    zlen (filter (fun r => f r = ep) (Z.add a <$> l)) = zlen (filter (fun r => g r = ep) l)) as ->.
  { induction 1 as [|r l Hr _ IH]; [done|]. rewrite fmap_cons, !filter_cons, <- Hr.
    case_decide; [rewrite !zlen_cons; by rewrite IH|done]. }
  - done.
  - apply Forall_forall. intros r Hr%elem_of_seqZ. apply Hfg. lia.
Qed.

Lemma pick_draws endpoints back ep :
  nonneg endpoints ->
  draws_for (pick endpoints back) ep 0 (weights endpoints) = weight_of ep endpoints.
Proof.
  induction 1 as [|x eps Hx Hw IH]; [done|]. unfold weight_of in *.
  pose proof (weights_nonneg eps Hw).
  change (weights (x :: eps)) with (weight x + weights eps). rewrite draws_for_app by done.
  rewrite (draws_for_const _ _ x), (draws_for_shift _ (pick eps back)), IH; [|done| |done|].
  - rewrite filter_cons. by case_decide.
  - intros r Hr. simpl. rewrite (proj2 (Z.ltb_ge _ _)) by lia. f_equal. lia.
  - intros r Hr. simpl. by rewrite (proj2 (Z.ltb_lt _ _)) by lia.
Qed.

Definition heavy : ServiceEndpoint := mkEndpoint "10.0.0.1" 8080 3.
Definition light : ServiceEndpoint := mkEndpoint "10.0.0.2" 8080 1.
Definition third : ServiceEndpoint := mkEndpoint "10.0.0.3" 9090 2.

(** A scripted engine: it is the value it will answer. *)
Definition scripted : Uniform Z := fun a b g => (Z.max a (Z.min b g), g).
Lemma scripted_ok : UniformOk Z (U := scripted).
Proof. intros a b g ?. unfold uniform, scripted. simpl. lia. Qed.

Lemma draw_ok {G} `{Uniform G} a b (g : G) :
  a <= b -> draw a b g = Ret (uniform a b g).2 (uniform a b g).1.
Proof. intros ?. unfold draw. by rewrite (proj2 (Z.leb_le _ _)). Qed.

Lemma weighted_select_eq {G} `{UniformOk G} endpoints back (g : G) :
  last endpoints = Some back -> nonneg endpoints -> 0 < weights endpoints <= int_max ->
  weighted_select endpoints g =
    Ret (uniform 0 (weights endpoints - 1) g).2
        (pick endpoints back (uniform 0 (weights endpoints - 1) g).1).
Proof.
  intros Hlast Hw Ht. unfold weighted_select. rewrite Hlast. unfold mbind, M_bind.
  rewrite total_weight_ok by (done || lia). rewrite Z.add_0_l.
  rewrite int_op_ok by (unfold int_min, int_max in *; lia).
  pose proof (uniform_range 0 (weights endpoints - 1) g).
  rewrite draw_ok, weighted_pick_ok by (done || lia). done.
Qed.

(** C26. The weighted strategy is fair: for endpoints whose weights are not
    negative and have a positive total that fits an int, the endpoint it
    returns is a function of the draw alone, and over the possible draws
    0..total-1 the number that select an endpoint is exactly that endpoint's
    weight. *)
Theorem weighted_proportional endpoints (Hw : nonneg endpoints)
    (Ht : 0 < weights endpoints <= int_max) :
  exists choice : Z -> ServiceEndpoint,
    (forall G (U : Uniform G), UniformOk G -> forall g : G,
       weighted_select endpoints g =
         let '(r, g') := uniform 0 (weights endpoints - 1) g in Ret g' (choice r)) /\
    (forall ep, draws_for choice ep 0 (weights endpoints) = weight_of ep endpoints).
Proof.
  destruct (last endpoints) as [back|] eqn:Hlast.
  - exists (pick endpoints back). split; [|intros ep; by apply pick_draws].
    intros G U HU g. rewrite (weighted_select_eq _ back) by done. by destruct (uniform _ _ g).
  - apply last_None in Hlast. subst. simpl in Ht. lia.
Qed.

Lemma weighted_proportional_witness :
  exists choice : Z -> ServiceEndpoint,
    (forall G (U : Uniform G), UniformOk G -> forall g : G,
       weighted_select [heavy; light; heavy] g =
         let '(r, g') := uniform 0 6 g in Ret g' (choice r)) /\
    (forall ep, draws_for choice ep 0 7 = weight_of ep [heavy; light; heavy]).
Proof.
  apply (weighted_proportional [heavy; light; heavy]).
  - repeat constructor; vm_compute; discriminate.
  - split; [reflexivity|vm_compute; discriminate].
Defined.

(** ** Round robin *)

(** [n] consecutive selects. *)
Fixpoint selects {S} (n : nat) (sel : M S ServiceEndpoint) : M S (list ServiceEndpoint) :=
  match n with
  | O => mret []
  | Datatypes.S n' => ep ← sel; eps ← selects n' sel; mret (ep :: eps)
  end.

Lemma round_robin_select_eq endpoints c :
  endpoints <> [] -> 0 <= c ->
  exists ep, endpoints !! Z.to_nat (c mod zlen endpoints) = Some ep /\
    round_robin_select endpoints c = Ret (u64 (c + 1)) ep.
Proof.
  intros Hne Hc. assert (0 < zlen endpoints) as Hpos.
  { destruct endpoints; [done|]. rewrite zlen_cons. pose proof (zlen_nonneg endpoints). lia. }
  pose proof (Z.mod_pos_bound c _ Hpos) as Hmod.
  destruct (lookup_lt_is_Some_2 endpoints (Z.to_nat (c mod zlen endpoints))) as [ep Hep].
  { unfold zlen in *. lia. }
  exists ep. split; [done|]. unfold round_robin_select. rewrite bool_decide_eq_false_2 by done.
  unfold mbind, M_bind, gets, modify, id, at_index. simpl.
  rewrite (proj2 (Z.leb_le _ _)) by lia. by rewrite Hep.
Qed.

Lemma round_robin_selects endpoints n c :
  endpoints <> [] -> 0 <= c -> c + Z.of_nat n < 2 ^ 64 ->
  exists eps, selects n (round_robin_select endpoints) c = Ret (c + Z.of_nat n) eps /\
    length eps = n /\
    forall i, (i < n)%nat ->
      eps !! i = endpoints !! Z.to_nat ((c + Z.of_nat i) mod zlen endpoints).
Proof.
  intros Hne. revert c. induction n as [|n IH]; intros c Hc Hle.
  - exists []. split_and!; [|done|lia]. by rewrite Z.add_0_r.
  - destruct (round_robin_select_eq endpoints c Hne Hc) as (ep & Hep & Hsel).
    destruct (IH (c + 1)) as (eps & Hrun & Hlen & Hnth); [lia..|].
    exists (ep :: eps). split_and!.
    + cbn [selects]. unfold mbind, M_bind. rewrite Hsel, u64_small by lia. rewrite Hrun.
      unfold mret, M_ret. f_equal. lia.
    + simpl. by rewrite Hlen.
    + intros [|i] Hi; [by rewrite Z.add_0_r|]. simpl. rewrite Hnth by lia.
      do 3 f_equal. lia.
Qed.

(** Round robin is fair: as long as the 64-bit counter does not wrap, any
    [n] consecutive selects over [n] endpoints return every endpoint exactly
    once, in list order from the position the counter points to. *)
Theorem round_robin_fair endpoints c (Hne : endpoints <> [])
    (Hc : 0 <= c) (Hle : c + zlen endpoints < 2 ^ 64) :
  let k := c mod zlen endpoints in
  selects (length endpoints) (round_robin_select endpoints) c
    = Ret (c + zlen endpoints) (zdrop k endpoints ++ ztake k endpoints).
Proof.
  intros k. destruct (round_robin_selects endpoints (length endpoints) c) as
    (eps & Hrun & Hlen & Hnth); [done..|]. rewrite Hrun. f_equal.
  assert (0 < zlen endpoints) as Hpos.
  { destruct endpoints; [done|]. rewrite zlen_cons. zlen_nonneg_all. lia. }
  pose proof (Z.mod_pos_bound c _ Hpos). fold k in H.
  assert (c = zlen endpoints * (c / zlen endpoints) + k) as Hdiv by (by apply Z.div_mod; lia).
  apply list_eq. intros i. unfold zdrop, ztake, zlen in *.
  destruct (decide (i < length endpoints)%nat) as [Hi|Hi].
  2: { rewrite !lookup_ge_None_2; [done| |lia]. rewrite length_app, length_drop, length_take. lia. }
  rewrite Hnth by done.
  replace (c + Z.of_nat i) with
    (k + Z.of_nat i + c / Z.of_nat (length endpoints) * Z.of_nat (length endpoints)) by lia.
  rewrite Z.mod_add by lia.
  destruct (decide (Z.to_nat k + i < length endpoints)%nat) as [Hki|Hki].
  - rewrite Z.mod_small by lia. rewrite lookup_app_l by (rewrite length_drop; lia).
    rewrite lookup_drop. f_equal. lia.
  - rewrite lookup_app_r by (rewrite length_drop; lia). rewrite length_drop.
    rewrite lookup_take_lt by lia. f_equal.
    rewrite <- (Z.mod_unique (k + Z.of_nat i) (Z.of_nat (length endpoints)) 1
      (k + Z.of_nat i - Z.of_nat (length endpoints))) by lia. lia.
Qed.

Lemma round_robin_fair_witness :
  selects 3 (round_robin_select [heavy; light; third]) 7 = Ret 10 [light; third; heavy].
Proof.
  apply (round_robin_fair [heavy; light; third] 7);
    [discriminate|vm_compute; discriminate|reflexivity].
Defined.

(** ** Consistent hashing *)

Lemma fold_insert_lookup (ep : ServiceEndpoint) (f : Z -> Z) l (ring : gmap Z ServiceEndpoint) k :
  fold_left (fun ring i => <[f i := ep]> ring) l ring !! k =
    if decide (k ∈ f <$> l) then Some ep else ring !! k.
Proof.
  revert ring. induction l as [|i l IH]; intros ring; [done|].
  cbn [fold_left]. rewrite IH, fmap_cons. destruct (decide (k = f i)) as [->|Hne].
  - rewrite lookup_insert_eq.
    rewrite (decide_True (P := f i ∈ f i :: _)) by apply list_elem_of_here. by case_decide.
  - rewrite lookup_insert_ne by done.
    destruct (decide (k ∈ f <$> l)); destruct (decide (k ∈ f i :: (f <$> l))); set_solver.
Qed.

(** The points of an endpoint on the ring. *)
Definition points (vn : Z) (ep : ServiceEndpoint) : list Z := vnode ep <$> seqZ 0 vn.

Lemma add_endpoint_lookup vn ring ep k :
  add_endpoint vn ring ep !! k = if decide (k ∈ points vn ep) then Some ep else ring !! k.
Proof. apply fold_insert_lookup. Qed.

(** Two rings that differ only at points where the first one has [x]. *)
Definition adds_only (x : ServiceEndpoint) (ring' ring : gmap Z ServiceEndpoint) : Prop :=
  forall k, ring' !! k = ring !! k \/ ring' !! k = Some x.

Lemma add_endpoint_adds_only vn x ep ring' ring :
  adds_only x ring' ring -> adds_only x (add_endpoint vn ring' ep) (add_endpoint vn ring ep).
Proof. intros H k. rewrite !add_endpoint_lookup. case_decide; [by left|apply H]. Qed.

Lemma build_ring_adds_only vn l1 x l2 :
  adds_only x (build_ring vn (l1 ++ x :: l2)) (build_ring vn (l1 ++ l2)).
Proof.
  unfold build_ring. rewrite !fold_left_app. cbn [fold_left].
  assert (forall r' r, adds_only x r' r ->
    adds_only x (fold_left (add_endpoint vn) l2 r') (fold_left (add_endpoint vn) l2 r)) as Hfold.
  { induction l2 as [|y l2 IH]; [done|]. intros r' r H. simpl.
    by apply IH, add_endpoint_adds_only. }
  apply Hfold. intros k. rewrite add_endpoint_lookup. case_decide; [by right|by left].
Qed.

Lemma build_ring_member vn endpoints k ep :
  build_ring vn endpoints !! k = Some ep -> ep ∈ endpoints /\ k ∈ points vn ep.
Proof.
  unfold build_ring. induction endpoints as [|x l IH] using rev_ind; [done|].
  rewrite fold_left_app. cbn [fold_left]. rewrite add_endpoint_lookup.
  case_decide; [intros [= <-]; set_solver|]. intros [? ?]%IH. set_solver.
Qed.

Lemma build_ring_nonempty vn endpoints :
  0 < vn -> endpoints <> [] -> build_ring vn endpoints <> ∅.
Proof.
  intros Hvn Hne Hempty. destruct endpoints as [|x l _] using rev_ind; [done|].
  apply (f_equal (lookup (vnode x 0))) in Hempty. revert Hempty.
  unfold build_ring. rewrite fold_left_app. cbn [fold_left].
  rewrite add_endpoint_lookup, lookup_empty, decide_True; [done|].
  apply list_elem_of_fmap_2, elem_of_seqZ. lia.
Qed.

Lemma successor_adds_only x ring' ring h k ep :
  adds_only x ring' ring -> Ring.successor h ring' = Some (k, ep) ->
  ep = x \/ Ring.successor h ring = Some (k, ep).
Proof.
  intros Hadd [Hs Hk]%Ring.successor_spec. destruct (Hadd k) as [Heq|Heq]; [|left; congruence].
  right. apply Ring.successor_spec. split; [|congruence].
  assert (forall k', is_Some (ring !! k') -> is_Some (ring' !! k')) as Hdom.
  { intros k' Hk'. destruct (Hadd k') as [->| ->]; by eauto. }
  destruct Hs as [? Hs]. split; [by rewrite <- Heq|].
  destruct Hs as [[? Hmin]|[Hlt Hmin]]; [left|right]; split; auto.
Qed.

Lemma successor_total h (m : gmap Z ServiceEndpoint) :
  m <> ∅ -> exists k ep, Ring.successor h m = Some (k, ep).
Proof.
  intros Hne. unfold Ring.successor. destruct (Ring.lower_bound h m) as [[k ep]|]; [by eauto|].
  destruct (Ring.begin m) as [[k ep]|] eqn:Hb; [by eauto|]. by apply Ring.begin_None in Hb.
Qed.

Definition key_hash (key : string) : Z :=
  Fnv.hash (if String.eqb key "" then "default" else key)%string.

Lemma consistent_hash_select_eq vn key endpoints :
  0 < vn -> endpoints <> [] ->
  exists k ep, Ring.successor (key_hash key) (build_ring vn endpoints) = Some (k, ep) /\
    ep ∈ endpoints /\ consistent_hash_select endpoints (vn, key) = Ret (vn, key) ep.
Proof.
  intros Hvn Hne.
  destruct (successor_total (key_hash key) (build_ring vn endpoints)) as (k & ep & Hs).
  { by apply build_ring_nonempty. }
  exists k, ep. split; [done|]. split.
  - apply Ring.successor_spec in Hs as [_ Hk]. by apply build_ring_member in Hk as [? _].
  - unfold consistent_hash_select. rewrite bool_decide_eq_false_2 by done.
    unfold mbind, M_bind, gets. simpl. fold (key_hash key). by rewrite Hs.
Qed.

(** C25. Consistent hashing disturbs as little as it can: adding one endpoint,
    at any position of the list, leaves the endpoint chosen for a key as it
    was or moves the key to the new endpoint; read the other way, removing an
    endpoint moves only the keys that were on it. *)
Theorem minimal_disruption vn key l1 x l2 (Hvn : 0 < vn) (Hne : l1 ++ l2 <> []) :
  consistent_hash_select (l1 ++ x :: l2) (vn, key) = Ret (vn, key) x \/
  consistent_hash_select (l1 ++ x :: l2) (vn, key) =
    consistent_hash_select (l1 ++ l2) (vn, key).
Proof.
  destruct (consistent_hash_select_eq vn key (l1 ++ x :: l2)) as (k' & ep' & Hs' & _ & ->);
    [done|by destruct l1|].
  destruct (consistent_hash_select_eq vn key (l1 ++ l2)) as (k & ep & Hs & _ & ->); [done..|].
  destruct (successor_adds_only x _ _ _ _ _ (build_ring_adds_only vn l1 x l2) Hs')
    as [->|Hs'']; [by left|right; congruence].
Qed.

Lemma minimal_disruption_witness :
  consistent_hash_select [heavy; third; light] (3, "user-42"%string)
    = Ret (3, "user-42"%string) third \/
  consistent_hash_select [heavy; third; light] (3, "user-42"%string) =
    consistent_hash_select [heavy; light] (3, "user-42"%string).
Proof.
  apply (minimal_disruption 3 "user-42" [heavy] third [light]); [reflexivity|discriminate].
Defined.

(** ** Every strategy answers with one of the endpoints it is given *)

Lemma pick_member endpoints back r :
  last endpoints = Some back -> pick endpoints back r ∈ endpoints.
Proof.
  intros Hlast%last_Some_elem_of.
  cut (forall r, pick endpoints back r = back \/ pick endpoints back r ∈ endpoints).
  { intros H. by destruct (H r) as [->|]. }
  clear. induction endpoints as [|x l IH]; intros r; simpl; [by left|].
  case_match; [right; set_solver|]. destruct (IH (r - weight x)); [by left|right; set_solver].
Qed.

(** What a strategy needs of the endpoints and of its own members. *)
Definition can_select (endpoints : list ServiceEndpoint) (b : balancer) : Prop :=
  match b with
  | RandomLoadBalancer => True
  | RoundRobinLoadBalancer c => 0 <= c
  | WeightedLoadBalancer => nonneg endpoints /\ 0 < weights endpoints <= int_max
  | ConsistentHashLoadBalancer vn _ => 0 < vn
  end.

#[export] Instance can_select_proper : Proper ((≡ₚ) ==> eq ==> iff) can_select.
Proof.
  intros eps eps' Hp b _ <-. destruct b; simpl; [done..| |done]. unfold nonneg. by rewrite Hp.
Qed.

(** The members after a select that found an endpoint. *)
Definition after_select (b : balancer) : balancer :=
  match b with
  | RoundRobinLoadBalancer c => RoundRobinLoadBalancer (u64 (c + 1))
  | _ => b
  end.

Lemma random_select_eq {G} `{UniformOk G} endpoints (g : G) :
  endpoints <> [] ->
  exists g' ep, random_select endpoints g = Ret g' ep /\ ep ∈ endpoints.
Proof.
  intros Hne. assert (0 < zlen endpoints) as Hpos.
  { destruct endpoints; [done|]. rewrite zlen_cons. zlen_nonneg_all. lia. }
  pose proof (uniform_range 0 (zlen endpoints - 1) g) as Hr.
  unfold random_select. rewrite bool_decide_eq_false_2 by done. unfold mbind, M_bind.
  rewrite draw_ok by lia. unfold at_index. rewrite (proj2 (Z.leb_le _ _)) by lia.
  destruct (lookup_lt_is_Some_2 endpoints (Z.to_nat (uniform 0 (zlen endpoints - 1) g).1))
    as [ep Hep]; [unfold zlen in *; lia|].
  rewrite Hep. do 2 eexists. split; [done|]. by eapply list_elem_of_lookup_2.
Qed.

(** Every strategy answers, and with one of the endpoints it was given:
    with no undefined behaviour, and with only the round-robin counter
    changed; on an empty list every strategy throws
    runtime_error("no available endpoints") and changes nothing. *)
Theorem select_spec {G} `{UniformOk G} endpoints b (g : G)
    (Hok : can_select endpoints b) :
  wpe (select endpoints) (b, g)
    (fun s ep => ep ∈ endpoints /\ s.1 = after_select b)
    (fun s e => endpoints = [] /\ s = (b, g) /\ e = runtime_error "no available endpoints").
Proof.
  destruct (decide (endpoints = [])) as [->|Hne]; [by destruct b|].
  destruct b as [|c| |vn key]; unfold wpe, select, zoom, on_member; simpl in *.
  - destruct (random_select_eq endpoints g Hne) as (g' & ep & -> & Hin). done.
  - destruct (round_robin_select_eq endpoints c Hne Hok) as (ep & Hep & ->).
    split; [by eapply list_elem_of_lookup_2|done].
  - destruct Hok as [Hw Ht]. destruct (last endpoints) as [back|] eqn:Hl.
    2: { by apply last_None in Hl. }
    rewrite (weighted_select_eq _ back) by done. split; [by apply pick_member|done].
  - destruct (consistent_hash_select_eq vn key endpoints Hok Hne) as (k & ep & _ & Hin & ->).
    done.
Qed.

Lemma select_spec_witness :
  wpe (select (H := scripted) [heavy; light]) (WeightedLoadBalancer, 3)
    (fun s ep => ep ∈ [heavy; light] /\ s.1 = WeightedLoadBalancer)
    (fun s e => [heavy; light] = [] /\ s = (WeightedLoadBalancer, 3)
       /\ e = runtime_error "no available endpoints").
Proof.
  apply (select_spec (H := scripted_ok) [heavy; light] WeightedLoadBalancer 3).
  split.
  - repeat constructor; vm_compute; discriminate.
  - split; [reflexivity|vm_compute; discriminate].
Defined.

(** Without positive weights, or with no virtual node, the code has undefined
    behaviour on a nonempty list. *)
Example zero_weights_ub :
  select (H := scripted) [mkEndpoint "h" 1 0] (WeightedLoadBalancer, 0)
    = Ub "uniform_int_distribution(a, b) with b < a".
Proof. reflexivity. Qed.

Example no_virtual_nodes_ub :
  select (H := scripted) [heavy] (ConsistentHashLoadBalancer 0 "", 0) = Ub "dereference of end()".
Proof. reflexivity. Qed.

End LoadBalancer.
