(* ===== verification/ThreadPool.v ===== *)
(** * The worker pool (include/net/thread_pool.h, src/net/thread_pool.cpp)

    The pool as a transition system: its workers, the threads that call
    [submit] and the thread that runs the destructor take atomic steps over
    the shared members.  Each thread's program counter says where it stands in
    the code; a step is one access to shared state, or a stretch of code that
    runs with [mu_] held and touches only what [mu_] protects.  The scheduler
    is arbitrary, waits may wake up spuriously, and a task is an opaque unit
    of work that returns. *)

From Stdlib Require Import ZArith Lia Wellfounded.
From S2P Require Import Prelude.
Local Open Scope nat_scope.

Module ThreadPool.
Section pool.
Context {Task : Type}.

(** Where a worker stands in [worker()]. *)
Inductive worker_pc :=
| WStart                  (* before [unique_lock lock(mu_)] *)
| WPred                   (* holds mu_, about to evaluate the predicate of [wait] *)
| WEnroll                 (* holds mu_, the predicate was false: about to block *)
| WWaiting                (* blocked in cv_, mu_ released *)
| WWoken                  (* woken up, about to take mu_ again *)
| WCheck                  (* holds mu_, [wait] returned *)
| WPop                    (* holds mu_, about to take the front task *)
| WRun (t : Task)         (* about to run its task *)
| WExit.                  (* returned *)

(** Where a thread stands in its call [submit(t)]. *)
Inductive submit_pc :=
| SStart (t : Task)       (* before [lock_guard lock(mu_)] *)
| SCheck (t : Task)       (* holds mu_, about to read stop_ *)
| SPush (t : Task)        (* holds mu_, about to push *)
| SNotify (t : Task)      (* mu_ released, about to notify *)
| SDone (t : Task)        (* returned *)
| SThrew (t : Task).      (* threw "submit on stopped pool" *)

(** Where the destructor stands; [DIdle] is before it. *)
Inductive dtor_pc := DIdle | DNotify | DJoin (k : nat) | DDone.

Inductive thread := Worker (i : nat) | Submitter (j : nat).

#[export] Instance thread_eq_dec : EqDecision thread.
Proof. solve_decision. Defined.

(** The members, the threads, and what happened so far: the tasks pushed, the
    tasks taken from the queue and the tasks run, each in order. *)
Record pool := mk {
  tasks_ : list Task;
  mu_ : option thread;
  stop_ : bool;
  workers : list worker_pc;
  submitters : list submit_pc;
  dtor : dtor_pc;
  pushed : list Task;
  taken : list Task;
  executed : list Task;
}.

(** [ThreadPool(thread_count)], with the submits that will be made. *)
Definition make (thread_count : nat) (submits : list Task) : pool :=
  mk [] None false (replicate thread_count WStart) (SStart <$> submits) DIdle [] [] [].

(** The constructor's loop; [spawn i] says whether the system can start thread
    [i].  When it cannot, [std::thread] throws a [system_error], and [threads_]
    is destroyed, where a thread that runs calls [std::terminate]. *)
Fixpoint start_threads {S} (spawn : nat -> bool) (started todo : nat) : M S unit :=
  match todo with
  | 0 => mret ()
  | Datatypes.S todo' =>
      if spawn started then start_threads spawn (Datatypes.S started) todo'
      else if started =? 0 then throw (runtime_error "system_error")
      else ub "std::terminate: destruction of a joinable thread"
  end.
Definition construct {S} (spawn : nat -> bool) (thread_count : nat) (submits : list Task) : M S pool :=
  start_threads spawn 0 thread_count ;; mret (make thread_count submits).

Definition is_empty {A} (l : list A) : bool := match l with [] => true | _ => false end.

Definition set_worker (i : nat) (pc : worker_pc) (s : pool) : pool :=
  mk (tasks_ s) (mu_ s) (stop_ s) (<[i := pc]> (workers s)) (submitters s) (dtor s)
    (pushed s) (taken s) (executed s).
Definition set_submitter (j : nat) (pc : submit_pc) (s : pool) : pool :=
  mk (tasks_ s) (mu_ s) (stop_ s) (workers s) (<[j := pc]> (submitters s)) (dtor s)
    (pushed s) (taken s) (executed s).
Definition set_dtor (pc : dtor_pc) (s : pool) : pool :=
  mk (tasks_ s) (mu_ s) (stop_ s) (workers s) (submitters s) pc
    (pushed s) (taken s) (executed s).
Definition set_mu (o : option thread) (s : pool) : pool :=
  mk (tasks_ s) o (stop_ s) (workers s) (submitters s) (dtor s)
    (pushed s) (taken s) (executed s).
Definition store_stop (s : pool) : pool :=
  mk (tasks_ s) (mu_ s) true (workers s) (submitters s) (dtor s)
    (pushed s) (taken s) (executed s).
Definition push_task (t : Task) (s : pool) : pool :=
  mk (tasks_ s ++ [t]) (mu_ s) (stop_ s) (workers s) (submitters s) (dtor s)
    (pushed s ++ [t]) (taken s) (executed s).
Definition pop_task (t : Task) (ts : list Task) (s : pool) : pool :=
  mk ts (mu_ s) (stop_ s) (workers s) (submitters s) (dtor s)
    (pushed s) (taken s ++ [t]) (executed s).
Definition ran_task (t : Task) (s : pool) : pool :=
  mk (tasks_ s) (mu_ s) (stop_ s) (workers s) (submitters s) (dtor s)
    (pushed s) (taken s) (executed s ++ [t]).

(** A step of a thread: it cannot go on now, goes on, or is undefined. *)
Inductive attempt := Blocked | Goes (s : pool) | Undefined.

(** Take [mu_] if it is free. *)
Definition acquire (th : thread) (s : pool) : attempt :=
  match mu_ s with None => Goes (set_mu (Some th) s) | Some _ => Blocked end.
Definition after (a : attempt) (f : pool -> pool) : attempt :=
  match a with Goes s => Goes (f s) | _ => a end.

(** [worker()] *)
Definition worker_step (i : nat) (s : pool) : attempt :=
  match workers s !! i with
  | Some WStart | Some WWoken => after (acquire (Worker i) s) (set_worker i WPred)
  | Some WPred =>
      if stop_ s || negb (is_empty (tasks_ s)) then Goes (set_worker i WCheck s)
      else Goes (set_worker i WEnroll s)
  | Some WEnroll => Goes (set_worker i WWaiting (set_mu None s))
  | Some WCheck =>
      if stop_ s && is_empty (tasks_ s) then Goes (set_worker i WExit (set_mu None s))
      else Goes (set_worker i WPop s)
  | Some WPop =>
      match tasks_ s with
      | t :: ts => Goes (set_worker i (WRun t) (set_mu None (pop_task t ts s)))
      | [] => Undefined                                    (* front() of an empty queue *)
      end
  | Some (WRun t) => Goes (set_worker i WStart (ran_task t s))
  | Some WWaiting | Some WExit | None => Blocked
  end.

(** [cv_.notify_one()]: wakes one waiting worker, of the scheduler's choice,
    or does nothing when there is none. *)
Definition is_waiting (pc : worker_pc) : bool :=
  match pc with WWaiting => true | _ => false end.
Definition notify_one (choice : option nat) (s : pool) : attempt :=
  match choice with
  | Some i =>
      match workers s !! i with
      | Some WWaiting => Goes (set_worker i WWoken s)
      | _ => Blocked
      end
  | None => if existsb is_waiting (workers s) then Blocked else Goes s
  end.

(** [cv_.notify_all()] *)
Definition wake (pc : worker_pc) : worker_pc :=
  match pc with WWaiting => WWoken | _ => pc end.
Definition notify_all (s : pool) : pool :=
  mk (tasks_ s) (mu_ s) (stop_ s) (wake <$> workers s) (submitters s) (dtor s)
    (pushed s) (taken s) (executed s).

(** [submit(t)] *)
Definition submit_step (j : nat) (choice : option nat) (s : pool) : attempt :=
  match submitters s !! j with
  | Some (SStart t) => after (acquire (Submitter j) s) (set_submitter j (SCheck t))
  | Some (SCheck t) =>
      if stop_ s then Goes (set_submitter j (SThrew t) (set_mu None s))
      else Goes (set_submitter j (SPush t) s)
  | Some (SPush t) => Goes (set_submitter j (SNotify t) (set_mu None (push_task t s)))
  | Some (SNotify t) => after (notify_one choice s) (set_submitter j (SDone t))
  | Some (SDone _) | Some (SThrew _) | None => Blocked
  end.

(** [~ThreadPool()] *)
Definition dtor_step (s : pool) : attempt :=
  match dtor s with
  | DIdle => Goes (set_dtor DNotify (store_stop s))
  | DNotify => Goes (set_dtor (DJoin 0) (notify_all s))
  | DJoin k =>
      match workers s !! k with
      | Some WExit => Goes (set_dtor (DJoin (S k)) s)
      | Some _ => Blocked
      | None => Goes (set_dtor DDone s)
      end
  | DDone => Blocked
  end.

(** One step of the system; [Spurious] is a wake-up without a notification. *)
Inductive action :=
| AWorker (i : nat)
| ASubmit (j : nat) (choice : option nat)
| ADtor
| ASpurious (i : nat).

Definition perform (a : action) (s : pool) : attempt :=
  match a with
  | AWorker i => worker_step i s
  | ASubmit j choice => submit_step j choice s
  | ADtor => dtor_step s
  | ASpurious i =>
      match workers s !! i with
      | Some WWaiting => Goes (set_worker i WWoken s)
      | _ => Blocked
      end
  end.

Definition step (s s' : pool) : Prop := exists a, perform a s = Goes s'.

(** A step of the program itself. *)
Definition proper (a : action) : bool := match a with ASpurious _ => false | _ => true end.
Definition proper_step (s s' : pool) : Prop := exists a, proper a = true /\ perform a s = Goes s'.

Definition reachable (n : nat) (submits : list Task) (s : pool) : Prop :=
  rtc step (make n submits) s.

(** A schedule of actions; [None] if one of them is not possible. *)
Fixpoint run (acts : list action) (s : pool) : option pool :=
  match acts with
  | [] => Some s
  | a :: acts' =>
      match perform a s with Goes s' => run acts' s' | _ => None end
  end.

(** ** The invariant *)

Definition holds_mu (pc : worker_pc) : bool :=
  match pc with WPred | WEnroll | WCheck | WPop => true | _ => false end.
Definition submit_holds_mu (pc : submit_pc) : bool :=
  match pc with SCheck _ | SPush _ => true | _ => false end.

(** The worker will look at the queue again without being notified. *)
Definition active (pc : worker_pc) : bool :=
  match pc with WEnroll | WWaiting | WExit => false | _ => true end.

Definition running (pc : worker_pc) : option Task :=
  match pc with WRun t => Some t | _ => None end.
Definition accepted (pc : submit_pc) : option Task :=
  match pc with SNotify t | SDone t => Some t | _ => None end.

Definition task_of (pc : submit_pc) : Task :=
  match pc with
  | SStart t | SCheck t | SPush t | SNotify t | SDone t | SThrew t => t
  end.

(** The thread that holds [mu_], according to the program counters. *)
Definition held_by (ws : list worker_pc) (ss : list submit_pc) (th : thread) : bool :=
  match th with
  | Worker i => from_option holds_mu false (ws !! i)
  | Submitter j => from_option submit_holds_mu false (ss !! j)
  end.
Definition mu_ok (mu : option thread) ws ss : Prop :=
  forall th, held_by ws ss th = bool_decide (mu = Some th).

(** What a worker knows where it stands. *)
Definition worker_ok (stop : bool) (tasks : list Task) (pc : worker_pc) : Prop :=
  match pc with
  | WEnroll => tasks = []
  | WCheck => stop = true \/ tasks <> []
  | WPop => tasks <> []
  | WExit => stop = true /\ tasks = []
  | _ => True
  end.

(** The workers below the destructor's position have returned. *)
Definition exited_upto (k : nat) (ws : list worker_pc) : Prop :=
  forall i pc, i < k -> ws !! i = Some pc -> pc = WExit.
Definition joined (n : nat) (d : dtor_pc) : nat :=
  match d with DIdle | DNotify => 0 | DJoin k => k | DDone => n end.
Definition started (d : dtor_pc) : bool := match d with DIdle => false | _ => true end.

Definition is_active (pc : worker_pc) : Prop := active pc = true.
Definition is_notify (pc : submit_pc) : Prop := match pc with SNotify _ => True | _ => False end.

Record inv (n : nat) (submits : list Task) (s : pool) : Prop := {
  inv_workers : length (workers s) = n;
  inv_mu : mu_ok (mu_ s) (workers s) (submitters s);
  inv_ok : Forall (worker_ok (stop_ s) (tasks_ s)) (workers s);
  inv_fifo : pushed s = taken s ++ tasks_ s;
  inv_executed : taken s ≡ₚ executed s ++ omap running (workers s);
  inv_pushed : pushed s ≡ₚ omap accepted (submitters s);
  inv_submits : task_of <$> submitters s = submits;
  inv_push : forall j t, submitters s !! j = Some (SPush t) -> WExit ∉ workers s;
  inv_stop : stop_ s = started (dtor s);
  inv_dtor : exited_upto (joined n (dtor s)) (workers s);
  inv_wake : 0 < n -> tasks_ s = [] \/ Exists is_active (workers s) \/
    Exists is_notify (submitters s);
}.

(** Replacing one entry, up to permutation. *)
Lemma omap_insert {A B} (f : A -> option B) (l : list A) i x y :
  l !! i = Some x ->
  exists rest, omap f l ≡ₚ option_list (f x) ++ rest /\
    omap f (<[i := y]> l) ≡ₚ option_list (f y) ++ rest.
Proof.
  intros Hx. exists (omap f (take i l ++ drop (S i) l)). split.
  - rewrite <- (take_drop_middle l i x) at 1 by done.
    rewrite <- Permutation_middle. simpl. by destruct (f x).
  - rewrite insert_take_drop by (by eapply lookup_lt_Some).
    rewrite <- Permutation_middle. simpl. by destruct (f y).
Qed.

Lemma pool_inv_make n submits : inv n submits (make n submits).
Proof.
  split; simpl; try done.
  - by rewrite length_replicate.
  - intros [i|j]; simpl.
    + destruct (replicate n WStart !! i) as [pc|] eqn:H; [|done].
      apply lookup_replicate in H as [-> _]. done.
    + rewrite list_lookup_fmap. by destruct (submits !! j).
  - apply Forall_replicate. done.
  - induction n; simpl; done.
  - induction submits; simpl; done.
  - induction submits as [|t l IH]; simpl; [done|]. by f_equal.
  - intros j t. rewrite list_lookup_fmap. intros (? & _ & ?)%fmap_Some. done.
  - intros i pc. simpl. lia.
  - by left.
Qed.

(** The permutation fields after a change of one program counter. *)
Lemma running_insert (l : list worker_pc) i pc pc' (tk ex : list Task) :
  l !! i = Some pc -> tk ≡ₚ ex ++ omap running l ->
  running pc = running pc' -> tk ≡ₚ ex ++ omap running (<[i := pc']> l).
Proof.
  intros Hi Htk Hr. destruct (omap_insert running l i pc pc' Hi) as (rest & H1 & H2).
  by rewrite Htk, H1, H2, Hr.
Qed.

Lemma accepted_insert (l : list submit_pc) j pc pc' (ps : list Task) :
  l !! j = Some pc -> ps ≡ₚ omap accepted l ->
  accepted pc = accepted pc' -> ps ≡ₚ omap accepted (<[j := pc']> l).
Proof.
  intros Hj Hps Hr. destruct (omap_insert accepted l j pc pc' Hj) as (rest & H1 & H2).
  by rewrite Hps, H1, H2, Hr.
Qed.

Lemma task_of_insert (l : list submit_pc) j pc pc' :
  l !! j = Some pc -> task_of pc = task_of pc' -> task_of <$> <[j := pc']> l = task_of <$> l.
Proof.
  intros Hj Heq. rewrite list_fmap_insert. apply list_insert_id.
  by rewrite list_lookup_fmap, Hj, <- Heq.
Qed.

Lemma Exists_insert_here {A} (P : A -> Prop) l i x y :
  l !! i = Some x -> P y -> Exists P (<[i := y]> l).
Proof.
  intros Hi Hy. apply Exists_exists. exists y. split; [|done].
  apply list_elem_of_insert. by eapply lookup_lt_Some.
Qed.

Lemma Exists_insert_keep {A} (P : A -> Prop) l i x y :
  l !! i = Some x -> ~ P x -> Exists P l -> Exists P (<[i := y]> l).
Proof.
  intros Hi Hx (z & Hz & HPz)%Exists_exists. apply Exists_exists. exists z. split; [|done].
  apply list_elem_of_lookup in Hz as [k Hk]. apply (list_elem_of_lookup_2 _ k).
  rewrite list_lookup_insert_ne; [done|]. intros ->. congruence.
Qed.

Lemma not_elem_of_insert {A} (l : list A) i x y : x ∉ l -> x <> y -> x ∉ <[i := y]> l.
Proof.
  intros Hx Hne [k Hk]%list_elem_of_lookup.
  apply list_lookup_insert_Some in Hk as [(_ & <- & _)|[_ Hk]]; [done|].
  apply Hx. by eapply list_elem_of_lookup_2.
Qed.

(** The mutex: taking it, giving it up, and steps that do neither. *)
Lemma mu_ok_worker mu mu' ws ss i pc pc' :
  ws !! i = Some pc -> mu_ok mu ws ss ->
  (forall th, th <> Worker i -> mu = Some th <-> mu' = Some th) ->
  holds_mu pc' = bool_decide (mu' = Some (Worker i)) ->
  mu_ok mu' (<[i := pc']> ws) ss.
Proof.
  intros Hi Hmu Hoth Hpc' th. destruct (decide (th = Worker i)) as [->|Hne].
  - simpl. by rewrite list_lookup_insert_eq by (by eapply lookup_lt_Some).
  - transitivity (held_by ws ss th).
    + destruct th as [k|k]; simpl; [|done]. rewrite list_lookup_insert_ne by congruence. done.
    + rewrite (Hmu th). by apply bool_decide_ext, Hoth.
Qed.

Lemma mu_ok_submitter mu mu' ws ss j pc pc' :
  ss !! j = Some pc -> mu_ok mu ws ss ->
  (forall th, th <> Submitter j -> mu = Some th <-> mu' = Some th) ->
  submit_holds_mu pc' = bool_decide (mu' = Some (Submitter j)) ->
  mu_ok mu' ws (<[j := pc']> ss).
Proof.
  intros Hj Hmu Hoth Hpc' th. destruct (decide (th = Submitter j)) as [->|Hne].
  - simpl. by rewrite list_lookup_insert_eq by (by eapply lookup_lt_Some).
  - transitivity (held_by ws ss th).
    + destruct th as [k|k]; simpl; [done|]. rewrite list_lookup_insert_ne by congruence. done.
    + rewrite (Hmu th). by apply bool_decide_ext, Hoth.
Qed.

Lemma mu_ok_holder_worker mu ws ss i pc :
  mu_ok mu ws ss -> ws !! i = Some pc -> holds_mu pc = bool_decide (mu = Some (Worker i)).
Proof. intros Hmu Hi. rewrite <- (Hmu (Worker i)). simpl. by rewrite Hi. Qed.

Lemma mu_ok_holder_submitter mu ws ss j pc :
  mu_ok mu ws ss -> ss !! j = Some pc ->
  submit_holds_mu pc = bool_decide (mu = Some (Submitter j)).
Proof. intros Hmu Hj. rewrite <- (Hmu (Submitter j)). simpl. by rewrite Hj. Qed.

Lemma mu_ok_acquire_worker ws ss i pc pc' :
  ws !! i = Some pc -> holds_mu pc' = true -> mu_ok None ws ss ->
  mu_ok (Some (Worker i)) (<[i := pc']> ws) ss.
Proof.
  intros Hi Hpc' Hmu. eapply mu_ok_worker; [done..| |].
  - intros th Hne. split; [done|congruence].
  - by rewrite bool_decide_eq_true_2.
Qed.

Lemma mu_ok_release_worker mu ws ss i pc pc' :
  ws !! i = Some pc -> holds_mu pc = true -> holds_mu pc' = false -> mu_ok mu ws ss ->
  mu_ok None (<[i := pc']> ws) ss.
Proof.
  intros Hi Hpc Hpc' Hmu. pose proof (mu_ok_holder_worker _ _ _ _ _ Hmu Hi) as Hh.
  rewrite Hpc in Hh. symmetry in Hh. apply bool_decide_eq_true_1 in Hh.
  eapply mu_ok_worker; [done..| |by rewrite bool_decide_eq_false_2].
  intros th Hne. split; congruence.
Qed.

Lemma mu_ok_keep_worker mu ws ss i pc pc' :
  ws !! i = Some pc -> holds_mu pc = holds_mu pc' -> mu_ok mu ws ss ->
  mu_ok mu (<[i := pc']> ws) ss.
Proof.
  intros Hi Hpc Hmu. eapply mu_ok_worker; [done..|].
  rewrite <- Hpc. by eapply mu_ok_holder_worker.
Qed.

Lemma mu_ok_acquire_submitter ws ss j pc pc' :
  ss !! j = Some pc -> submit_holds_mu pc' = true -> mu_ok None ws ss ->
  mu_ok (Some (Submitter j)) ws (<[j := pc']> ss).
Proof.
  intros Hj Hpc' Hmu. eapply mu_ok_submitter; [done..| |].
  - intros th Hne. split; [done|congruence].
  - by rewrite bool_decide_eq_true_2.
Qed.

Lemma mu_ok_release_submitter mu ws ss j pc pc' :
  ss !! j = Some pc -> submit_holds_mu pc = true -> submit_holds_mu pc' = false ->
  mu_ok mu ws ss -> mu_ok None ws (<[j := pc']> ss).
Proof.
  intros Hj Hpc Hpc' Hmu. pose proof (mu_ok_holder_submitter _ _ _ _ _ Hmu Hj) as Hh.
  rewrite Hpc in Hh. symmetry in Hh. apply bool_decide_eq_true_1 in Hh.
  eapply mu_ok_submitter; [done..| |by rewrite bool_decide_eq_false_2].
  intros th Hne. split; congruence.
Qed.

Lemma mu_ok_keep_submitter mu ws ss j pc pc' :
  ss !! j = Some pc -> submit_holds_mu pc = submit_holds_mu pc' -> mu_ok mu ws ss ->
  mu_ok mu ws (<[j := pc']> ss).
Proof.
  intros Hj Hpc Hmu. eapply mu_ok_submitter; [done..|].
  rewrite <- Hpc. by eapply mu_ok_holder_submitter.
Qed.

(** Two threads cannot both hold the mutex. *)
Lemma mu_ok_excl mu ws ss i pc th :
  mu_ok mu ws ss -> ws !! i = Some pc -> holds_mu pc = true ->
  held_by ws ss th = true -> th = Worker i.
Proof.
  intros Hmu Hi Hpc Hth. rewrite (Hmu th) in Hth. apply bool_decide_eq_true_1 in Hth.
  rewrite (mu_ok_holder_worker _ _ _ _ _ Hmu Hi) in Hpc. apply bool_decide_eq_true_1 in Hpc.
  congruence.
Qed.

Lemma exited_upto_insert k ws i pc pc' :
  exited_upto k ws -> ws !! i = Some pc -> pc <> WExit -> exited_upto k (<[i := pc']> ws).
Proof.
  intros Hex Hi Hpc i' pc'' Hk [(<- & _ & _)|[_ Hl]]%list_lookup_insert_Some.
  - by destruct (Hpc (Hex _ _ Hk Hi)).
  - by eapply Hex.
Qed.

(** The steps of a worker, one by one. *)
Lemma worker_step_inv i s s' :
  worker_step i s = Goes s' ->
  exists pc, workers s !! i = Some pc /\
  match pc with
  | WStart | WWoken => mu_ s = None /\ s' = set_worker i WPred (set_mu (Some (Worker i)) s)
  | WPred =>
      (stop_ s = true \/ tasks_ s <> []) /\ s' = set_worker i WCheck s \/
      tasks_ s = [] /\ s' = set_worker i WEnroll s
  | WEnroll => s' = set_worker i WWaiting (set_mu None s)
  | WCheck =>
      stop_ s = true /\ tasks_ s = [] /\ s' = set_worker i WExit (set_mu None s) \/
      (tasks_ s = [] -> stop_ s = false) /\ s' = set_worker i WPop s
  | WPop => exists t ts, tasks_ s = t :: ts /\
      s' = set_worker i (WRun t) (set_mu None (pop_task t ts s))
  | WRun t => s' = set_worker i WStart (ran_task t s)
  | WWaiting | WExit => False
  end.
Proof.
  unfold worker_step, acquire. destruct (workers s !! i) as [pc|]; [|done].
  intros H. exists pc. split; [done|]. destruct pc; simpl in H; try done.
  - destruct (mu_ s); naive_solver.
  - destruct (stop_ s), (tasks_ s); simpl in H; naive_solver.
  - naive_solver.
  - destruct (mu_ s); naive_solver.
  - destruct (stop_ s), (tasks_ s); simpl in H; naive_solver.
  - destruct (tasks_ s); naive_solver.
  - naive_solver.
Qed.

(** A step that only moves a worker. *)
Lemma inv_move_worker n submits i pc pc' s :
  inv n submits s -> workers s !! i = Some pc -> pc <> WExit ->
  holds_mu pc = holds_mu pc' -> running pc = running pc' -> pc' <> WExit ->
  worker_ok (stop_ s) (tasks_ s) pc' ->
  (is_active pc' \/ tasks_ s = []) ->
  inv n submits (set_worker i pc' s).
Proof.
  intros [] Hi Hpc Hmu Hrun Hpc' Hok Hact. split; simpl; try done.
  - by rewrite length_insert.
  - by eapply mu_ok_keep_worker.
  - by apply Forall_insert.
  - by eapply running_insert.
  - intros j t Hj. apply not_elem_of_insert; [by eapply inv_push0|done].
  - by eapply exited_upto_insert.
  - intros _. destruct Hact as [Hact|Hact]; [|by left]. right. left.
    by eapply Exists_insert_here.
Qed.

Lemma inv_acquire_worker n submits i pc s :
  inv n submits s -> workers s !! i = Some pc -> pc = WStart \/ pc = WWoken -> mu_ s = None ->
  inv n submits (set_worker i WPred (set_mu (Some (Worker i)) s)).
Proof.
  intros [] Hi Hpc Hmu. split; simpl; try done.
  - by rewrite length_insert.
  - eapply mu_ok_acquire_worker; [done..|by rewrite <- Hmu].
  - by apply Forall_insert.
  - eapply running_insert; [done..|]. by destruct Hpc as [-> | ->].
  - intros j t Hj. apply not_elem_of_insert; [by eapply inv_push0|done].
  - eapply exited_upto_insert; [done..|]. by destruct Hpc as [-> | ->].
  - intros _. right. left. by eapply Exists_insert_here.
Qed.

Lemma inv_enroll n submits i s :
  inv n submits s -> workers s !! i = Some WEnroll ->
  inv n submits (set_worker i WWaiting (set_mu None s)).
Proof.
  intros [] Hi. pose proof (Forall_lookup_1 _ _ _ _ inv_ok0 Hi) as Hempty. simpl in Hempty.
  split; simpl; try done.
  - by rewrite length_insert.
  - by eapply mu_ok_release_worker.
  - by apply Forall_insert.
  - by eapply running_insert.
  - intros j t Hj. apply not_elem_of_insert; [by eapply inv_push0|done].
  - by eapply exited_upto_insert.
  - by left.
Qed.

Lemma inv_return n submits i s :
  inv n submits s -> workers s !! i = Some WCheck -> stop_ s = true -> tasks_ s = [] ->
  inv n submits (set_worker i WExit (set_mu None s)).
Proof.
  intros [] Hi Hstop Hempty. split; simpl; try done.
  - by rewrite length_insert.
  - by eapply mu_ok_release_worker.
  - by apply Forall_insert.
  - by eapply running_insert.
  - intros j t Hj. exfalso.
    assert (Submitter j = Worker i) as [=]; eapply mu_ok_excl; [done..|]. simpl. by rewrite Hj.
  - by eapply exited_upto_insert.
  - by left.
Qed.

Lemma inv_pop n submits i t ts s :
  inv n submits s -> workers s !! i = Some WPop -> tasks_ s = t :: ts ->
  inv n submits (set_worker i (WRun t) (set_mu None (pop_task t ts s))).
Proof.
  intros [] Hi Htasks. split; simpl; try done.
  - by rewrite length_insert.
  - by eapply mu_ok_release_worker.
  - apply Forall_lookup. intros k pc Hk.
    apply list_lookup_insert_Some in Hk as [(_ & <- & _)|[Hne Hk]]; [done|].
    pose proof (Forall_lookup_1 _ _ _ _ inv_ok0 Hk) as Hok.
    destruct (holds_mu pc) eqn:Hh.
    + assert (Worker k = Worker i) as [= ->]; [|done].
      eapply mu_ok_excl; [done..|]. simpl. by rewrite Hk.
    + destruct pc; try done. simpl in Hok. rewrite Htasks in Hok. by destruct Hok.
  - rewrite inv_fifo0, Htasks. by rewrite <- app_assoc.
  - destruct (omap_insert running _ i WPop (WRun t) Hi) as (rest & H1 & H2).
    rewrite inv_executed0, H1, H2. simpl. rewrite <- app_assoc. apply Permutation_app_head.
    apply Permutation_app_comm.
  - intros j t' Hj. apply not_elem_of_insert; [by eapply inv_push0|done].
  - by eapply exited_upto_insert.
  - intros _. right. left. by eapply Exists_insert_here.
Qed.

Lemma inv_run n submits i t s :
  inv n submits s -> workers s !! i = Some (WRun t) ->
  inv n submits (set_worker i WStart (ran_task t s)).
Proof.
  intros [] Hi. split; simpl; try done.
  - by rewrite length_insert.
  - by eapply mu_ok_keep_worker.
  - by apply Forall_insert.
  - destruct (omap_insert running _ i (WRun t) WStart Hi) as (rest & H1 & H2).
    by rewrite inv_executed0, H1, H2, <- app_assoc.
  - intros j t' Hj. apply not_elem_of_insert; [by eapply inv_push0|done].
  - by eapply exited_upto_insert.
  - intros _. right. left. by eapply Exists_insert_here.
Qed.

Lemma inv_worker_step n submits i s s' :
  inv n submits s -> worker_step i s = Goes s' -> inv n submits s'.
Proof.
  intros Hinv (pc & Hi & Hstep)%worker_step_inv.
  pose proof (Forall_lookup_1 _ _ _ _ (inv_ok _ _ _ Hinv) Hi) as Hok.
  destruct pc; simpl in Hok; try done.
  - destruct Hstep as [Hmu ->]. by eapply inv_acquire_worker; eauto.
  - destruct Hstep as [[Hcond ->]|[Hempty ->]]; eapply inv_move_worker; eauto; try done.
    by left.
  - subst s'. by apply inv_enroll.
  - destruct Hstep as [Hmu ->]. by eapply inv_acquire_worker; eauto.
  - destruct Hstep as [(Hs & He & ->)|[Hcond ->]]; [by apply inv_return|].
    eapply inv_move_worker; eauto; try done; [|by left]. simpl.
    intros He. rewrite He, (Hcond He) in Hok. by destruct Hok.
  - destruct Hstep as (t & ts & Htasks & ->). by apply inv_pop.
  - subst s'. by apply inv_run.
Qed.

(** The steps of a submit. *)
Lemma submit_step_inv j choice s s' :
  submit_step j choice s = Goes s' ->
  exists pc, submitters s !! j = Some pc /\
  match pc with
  | SStart t => mu_ s = None /\ s' = set_submitter j (SCheck t) (set_mu (Some (Submitter j)) s)
  | SCheck t =>
      stop_ s = true /\ s' = set_submitter j (SThrew t) (set_mu None s) \/
      stop_ s = false /\ s' = set_submitter j (SPush t) s
  | SPush t => s' = set_submitter j (SNotify t) (set_mu None (push_task t s))
  | SNotify t =>
      (exists i, workers s !! i = Some WWaiting /\
         s' = set_submitter j (SDone t) (set_worker i WWoken s)) \/
      existsb is_waiting (workers s) = false /\ s' = set_submitter j (SDone t) s
  | SDone _ | SThrew _ => False
  end.
Proof.
  unfold submit_step, acquire. destruct (submitters s !! j) as [pc|]; [|done].
  intros H. exists pc. split; [done|]. destruct pc; simpl in H; try done.
  - destruct (mu_ s); naive_solver.
  - destruct (stop_ s); naive_solver.
  - naive_solver.
  - unfold notify_one in H. destruct choice as [i|].
    + destruct (workers s !! i) as [[]|] eqn:Hi; try done. naive_solver.
    + destruct (existsb is_waiting (workers s)); naive_solver.
Qed.

(** A step that only moves a submitter, and does not notify. *)
Lemma inv_move_submitter n submits j pc pc' mu s :
  inv n submits s -> submitters s !! j = Some pc -> task_of pc = task_of pc' ->
  accepted pc = None -> accepted pc' = None ->
  mu_ok mu (workers s) (<[j := pc']> (submitters s)) ->
  (forall t, pc' = SPush t -> stop_ s = false) ->
  inv n submits (set_submitter j pc' (set_mu mu s)).
Proof.
  intros [] Hj Htask Hacc Hacc' Hmu Hpush. split; simpl; try done.
  - eapply accepted_insert; [done..|congruence].
  - by erewrite task_of_insert.
  - intros j' t [(<- & -> & _)|[_ Hj']]%list_lookup_insert_Some; [|by eapply inv_push0].
    intros Hexit. rewrite Forall_forall in inv_ok0. apply inv_ok0 in Hexit as [Hs _].
    rewrite (Hpush t eq_refl) in Hs. done.
  - intros Hn. destruct (inv_wake0 Hn) as [?|[?|?]]; [by left|by right; left|].
    right. right. eapply Exists_insert_keep; [done| |done].
    by destruct pc; intros Hn'; simpl in *.
Qed.

Lemma inv_push_step n submits j t s :
  inv n submits s -> submitters s !! j = Some (SPush t) ->
  inv n submits (set_submitter j (SNotify t) (set_mu None (push_task t s))).
Proof.
  intros [] Hj. split; simpl; try done.
  - by eapply mu_ok_release_submitter.
  - apply Forall_lookup. intros k pc Hk.
    destruct (holds_mu pc) eqn:Hh.
    { assert (Submitter j = Worker k) as [=]; eapply mu_ok_excl; [done..|]. simpl. by rewrite Hj. }
    destruct pc; try done. exfalso. eapply inv_push0; [done|]. by eapply list_elem_of_lookup_2.
  - rewrite inv_fifo0. by rewrite app_assoc.
  - destruct (omap_insert accepted _ j (SPush t) (SNotify t) Hj) as (rest & H1 & H2).
    rewrite inv_pushed0, H1, H2. simpl. by rewrite Permutation_app_comm.
  - by erewrite task_of_insert.
  - intros j' t' [(<- & [=] & _)|[_ Hj']]%list_lookup_insert_Some. by eapply inv_push0.
  - intros _. right. right. by eapply Exists_insert_here.
Qed.

Lemma inv_notified n submits j t s :
  inv n submits s -> submitters s !! j = Some (SNotify t) ->
  (0 < n -> tasks_ s = [] \/ Exists is_active (workers s)) ->
  inv n submits (set_submitter j (SDone t) s).
Proof.
  intros [] Hj Hwake. split; simpl; try done.
  - by eapply mu_ok_keep_submitter.
  - by eapply accepted_insert.
  - by erewrite task_of_insert.
  - intros j' t' [(<- & [=] & _)|[_ Hj']]%list_lookup_insert_Some. by eapply inv_push0.
  - intros Hn. destruct (Hwake Hn); [by left|by right; left].
Qed.

Lemma inv_wake_worker n submits i s :
  inv n submits s -> workers s !! i = Some WWaiting ->
  inv n submits (set_worker i WWoken s).
Proof. intros Hinv Hi. eapply inv_move_worker; eauto; try done. by left. Qed.

(** With nobody waiting, somebody is active or there is nothing to do. *)
Lemma nobody_waiting n submits s :
  inv n submits s -> existsb is_waiting (workers s) = false -> 0 < n ->
  tasks_ s = [] \/ Exists is_active (workers s).
Proof.
  intros [] Hno Hn. rewrite <- inv_workers0 in Hn. destruct (workers s) as [|pc ws]; [simpl in Hn; lia|].
  apply Forall_cons in inv_ok0 as [Hok _].
  destruct pc; simpl in *; try done; try (by right; constructor); left; tauto.
Qed.

Lemma inv_submit_step n submits j choice s s' :
  inv n submits s -> submit_step j choice s = Goes s' -> inv n submits s'.
Proof.
  intros Hinv (pc & Hj & Hstep)%submit_step_inv. pose proof (inv_mu _ _ _ Hinv) as Hmu.
  destruct pc; try done.
  - destruct Hstep as [Hnone ->]. rewrite Hnone in Hmu.
    eapply inv_move_submitter; eauto; [by eapply mu_ok_acquire_submitter|done].
  - destruct Hstep as [[Hs ->]|[Hs ->]].
    + eapply inv_move_submitter; eauto; [|done]. by eapply mu_ok_release_submitter.
    + replace s with (set_mu (mu_ s) s) by by destruct s.
      eapply inv_move_submitter; eauto. by eapply mu_ok_keep_submitter.
  - subst s'. by apply inv_push_step.
  - destruct Hstep as [(i & Hi & ->)|[Hno ->]].
    + apply inv_notified; [by apply inv_wake_worker|done|]. intros _. right. simpl.
      by eapply Exists_insert_here.
    + apply inv_notified; [done..|]. by eapply nobody_waiting.
Qed.

Lemma inv_dtor_step n submits s s' :
  inv n submits s -> dtor_step s = Goes s' -> inv n submits s'.
Proof.
  intros [] Hstep. unfold dtor_step in Hstep. destruct (dtor s) as [| |k|] eqn:Hd; simplify_eq.
  - split; simpl; try done. eapply Forall_impl; [exact inv_ok0|]. intros []; simpl; naive_solver.
  - split; simpl; try done.
    + by rewrite length_fmap.
    + intros [i|j]; rewrite <- inv_mu0; simpl; [|done]. rewrite list_lookup_fmap.
      by destruct (workers s !! i) as [[]|].
    + apply Forall_fmap. eapply Forall_impl; [exact inv_ok0|]. by intros [].
    + rewrite inv_executed0. apply Permutation_app_head.
      assert (forall ws, omap running (wake <$> ws) = omap running ws) as ->; [|done].
      induction ws as [|pc ws IH]; [done|]. rewrite fmap_cons.
      destruct pc; csimpl; by rewrite ?IH.
    + intros j t Hj (pc & Hpc & Hin)%list_elem_of_fmap.
      destruct pc; try done. by eapply inv_push0.
    + intros i pc. lia.
    + intros Hn. destruct (inv_wake0 Hn) as [?|[Hact|?]]; [by left| |by right; right].
      right. left. apply Exists_fmap. eapply Exists_impl; [exact Hact|]. by intros [].
  - destruct (workers s !! k) as [pc|] eqn:Hk.
    + destruct pc; simplify_eq. split; simpl; try done. intros i pc Hi Hpc. simpl in *.
      destruct (decide (i = k)) as [->|]; [congruence|]. eapply inv_dtor0; [|done]. simpl. lia.
    + simplify_eq. split; simpl; try done. intros i pc Hi Hpc. eapply inv_dtor0; [|done]. simpl.
      apply lookup_ge_None in Hk. lia.
Qed.

Lemma inv_step n submits s s' : inv n submits s -> step s s' -> inv n submits s'.
Proof.
  intros Hinv [[i|j choice| |i] Hstep]; simpl in Hstep.
  - by eapply inv_worker_step.
  - by eapply inv_submit_step.
  - by eapply inv_dtor_step.
  - destruct (workers s !! i) as [[]|] eqn:Hi; simplify_eq. by apply inv_wake_worker.
Qed.

Lemma inv_reachable n submits s : reachable n submits s -> inv n submits s.
Proof.
  unfold reachable. intros H. pose proof (pool_inv_make n submits) as Hinv.
  induction H; eauto using inv_step.
Qed.

(** ** Termination of the proper steps *)

Definition worker_weight (pc : worker_pc) : nat :=
  match pc with
  | WRun _ => 5 | WStart | WWoken => 4 | WPred => 3 | WEnroll | WCheck => 2 | WPop => 1
  | WWaiting | WExit => 0
  end.
Definition submit_weight (pc : submit_pc) : nat :=
  match pc with
  | SStart _ => 24 | SCheck _ => 23 | SPush _ => 22 | SNotify _ => 5 | SDone _ | SThrew _ => 0
  end.
Definition dtor_weight (n : nat) (d : dtor_pc) : nat :=
  match d with
  | DIdle => 5 * n + 4 | DNotify => 5 * n + 3 | DJoin k => S (n - k) | DDone => 0
  end.
Definition measure (s : pool) : nat :=
  10 * length (tasks_ s) + sum_list_with worker_weight (workers s)
    + sum_list_with submit_weight (submitters s) + dtor_weight (length (workers s)) (dtor s).

Lemma sum_insert {A} (f : A -> nat) (l : list A) i x y :
  l !! i = Some x -> sum_list_with f (<[i := y]> l) + f x = sum_list_with f l + f y.
Proof.
  revert i. induction l as [|z l IH]; intros [|i] Hi; simplify_eq/=; [lia|].
  specialize (IH i Hi). lia.
Qed.

Lemma sum_wake (ws : list worker_pc) :
  sum_list_with worker_weight (wake <$> ws) <= sum_list_with worker_weight ws + 4 * length ws.
Proof. induction ws as [|pc ws IH]; csimpl; [lia|]. destruct pc; simpl in *; lia. Qed.

Ltac weigh Hi y :=
  pose proof (sum_insert worker_weight _ _ _ y Hi).

Lemma worker_step_measure i s s' : worker_step i s = Goes s' -> measure s' < measure s.
Proof.
  intros (pc & Hi & Hstep)%worker_step_inv. unfold measure.
  destruct pc; try done; repeat
    match goal with
    | H : _ \/ _ |- _ => destruct H
    | H : _ /\ _ |- _ => destruct H
    | H : exists _, _ |- _ => destruct H
    end; subst s'; simpl; rewrite ?length_insert;
    match goal with
    | |- context [<[i := ?y]> (workers s)] =>
        pose proof (sum_insert worker_weight _ _ _ y Hi); simpl in *
    end; try lia.
  match goal with H : tasks_ s = _ |- _ => rewrite H; simpl end. lia.
Qed.

Lemma submit_step_measure j choice s s' :
  submit_step j choice s = Goes s' -> measure s' < measure s.
Proof.
  intros (pc & Hj & Hstep)%submit_step_inv. unfold measure.
  destruct pc as [t|t|t|t|t|t]; try done.
  - destruct Hstep as [_ ->]. simpl.
    pose proof (sum_insert submit_weight _ _ _ (SCheck t) Hj) as Hw; simpl in Hw. lia.
  - destruct Hstep as [[_ ->]|[_ ->]]; simpl.
    + pose proof (sum_insert submit_weight _ _ _ (SThrew t) Hj) as Hw; simpl in Hw. lia.
    + pose proof (sum_insert submit_weight _ _ _ (SPush t) Hj) as Hw; simpl in Hw. lia.
  - subst s'. simpl. rewrite length_app. simpl.
    pose proof (sum_insert submit_weight _ _ _ (SNotify t) Hj) as Hw; simpl in Hw. lia.
  - pose proof (sum_insert submit_weight _ _ _ (SDone t) Hj) as Hw; simpl in Hw.
    destruct Hstep as [(i & Hi & ->)|[_ ->]]; simpl; [|lia]. rewrite length_insert.
    pose proof (sum_insert worker_weight _ _ _ WWoken Hi) as Hw'; simpl in Hw'. lia.
Qed.

Lemma dtor_step_measure s s' : dtor_step s = Goes s' -> measure s' < measure s.
Proof.
  unfold dtor_step, measure. destruct (dtor s) as [| |k|] eqn:Hd; intros Hstep; simplify_eq; simpl.
  - lia.
  - rewrite length_fmap. pose proof (sum_wake (workers s)). lia.
  - destruct (workers s !! k) as [pc|] eqn:Hk; [|simplify_eq; simpl; lia].
    apply lookup_lt_Some in Hk. destruct pc; simplify_eq. simpl. lia.
Qed.

Lemma proper_step_measure s s' : proper_step s s' -> measure s' < measure s.
Proof.
  intros ([i|j choice| |i] & Hp & Hstep); simpl in Hstep.
  - by eapply worker_step_measure.
  - by eapply submit_step_measure.
  - by eapply dtor_step_measure.
  - done.
Qed.

Lemma proper_steps_terminate s : sn proper_step s.
Proof.
  remember (measure s) as m eqn:Hm. revert s Hm.
  induction (lt_wf m) as [m _ IH]. intros s ->. constructor. intros s' Hs'.
  eapply IH; [by apply proper_step_measure|done].
Qed.

(** ** Construction *)

Lemma start_threads_spec {S} (spawn : nat -> bool) started todo (s : S) :
  match start_threads spawn started todo s with
  | Ret s' _ => s' = s /\ forall i, started <= i < started + todo -> spawn i = true
  | Throw s' _ => s' = s /\ started = 0 /\ 0 < todo /\ spawn 0 = false
  | Ub _ => exists i, 0 < i < started + todo /\ spawn i = false
  | OutOfFuel => False
  end.
Proof.
  revert started. induction todo as [|todo IH]; intros started; simpl; [split; [done|lia]|].
  destruct (spawn started) eqn:Hs.
  - specialize (IH (Datatypes.S started)). destruct (start_threads _ _ _ _) as [s' []|s' e|w|]; [..|done].
    + destruct IH as [-> IH]. split; [done|]. intros i Hi.
      destruct (decide (i = started)) as [->|]; [done|]. apply IH. lia.
    + destruct IH as (_ & [=] & _).
    + destruct IH as (i & Hi & ?). exists i. split; [lia|done].
  - destruct (Nat.eqb_spec started 0) as [->|Hne]; simpl; [split_and!; [done..|lia|done]|].
    exists started. split; [lia|done].
Qed.

(** A pool, an exception when the first thread cannot be started, or the end
    of the program when a later one cannot. *)
Lemma construct_spec {S} (spawn : nat -> bool) thread_count submits (s : S) :
  match construct spawn thread_count submits s with
  | Ret s' p => s' = s /\ p = make thread_count submits
  | Throw s' _ => s' = s /\ 0 < thread_count /\ spawn 0 = false
  | Ub _ => exists i, 0 < i < thread_count /\ spawn i = false
  | OutOfFuel => False
  end.
Proof.
  unfold construct, mbind, M_bind. pose proof (start_threads_spec spawn 0 thread_count s) as Hs.
  destruct (start_threads _ _ _ _); naive_solver.
Qed.

(** ** States in which nothing can happen *)

(** Only a finished worker, a waiting one, or a returned or refused submit is
    stuck: the mutex is free, so every other thread could go on. *)
Lemma stuck_threads n submits s :
  inv n submits s -> nf proper_step s ->
  mu_ s = None /\
  Forall (fun pc => pc = WWaiting \/ pc = WExit) (workers s) /\
  Forall (fun pc => exists t, pc = SDone t \/ pc = SThrew t) (submitters s).
Proof.
  intros Hinv Hnf.
  assert (forall a s', proper a = true -> perform a s <> Goes s') as Hno.
  { intros a s' Ha Hp. apply Hnf. exists s', a. done. }
  assert (mu_ s = None) as Hfree.
  { destruct (mu_ s) as [th|] eqn:Hmu; [exfalso|done].
    pose proof (inv_mu _ _ _ Hinv th) as Hh. rewrite bool_decide_eq_true_2 in Hh by done.
    destruct th as [i|j]; simpl in Hh.
    - destruct (workers s !! i) as [pc|] eqn:Hi; [|done].
      pose proof (Forall_lookup_1 _ _ _ _ (inv_ok _ _ _ Hinv) Hi) as Hok.
      pose proof (fun s' => Hno (AWorker i) s' eq_refl) as Hw. simpl in Hw. unfold worker_step in Hw.
      rewrite Hi in Hw. destruct pc; try done; try (by eapply Hw); simpl in *.
      + destruct (_ || _); by eapply Hw.
      + destruct (_ && _); by eapply Hw.
      + destruct (tasks_ s); [done|by eapply Hw].
    - destruct (submitters s !! j) as [pc|] eqn:Hj; [|done].
      pose proof (fun s' => Hno (ASubmit j None) s' eq_refl) as Hw. simpl in Hw.
      unfold submit_step in Hw.
      rewrite Hj in Hw. destruct pc; try done; simpl in *; [|by eapply Hw].
      destruct (stop_ s); by eapply Hw. }
  split_and!; [done|apply Forall_lookup; intros i pc Hi|apply Forall_lookup; intros j pc Hj].
  - pose proof (fun s' => Hno (AWorker i) s' eq_refl) as Hw. simpl in Hw.
    unfold worker_step, acquire in Hw. rewrite Hi, Hfree in Hw.
    pose proof (mu_ok_holder_worker _ _ _ _ _ (inv_mu _ _ _ Hinv) Hi) as Hh.
    rewrite Hfree, bool_decide_eq_false_2 in Hh by done.
    destruct pc; try done; try (by left); try (by right); simpl in *; by edestruct Hw.
  - pose proof (mu_ok_holder_submitter _ _ _ _ _ (inv_mu _ _ _ Hinv) Hj) as Hh.
    rewrite Hfree, bool_decide_eq_false_2 in Hh by done.
    destruct pc as [t|t|t|t|t|t]; try done; try (exists t; tauto); exfalso.
    + eapply (Hno (ASubmit j None)); [done|]. simpl. unfold submit_step, acquire.
      by rewrite Hj, Hfree.
    + destruct (existsb is_waiting (workers s)) eqn:Hex.
      * apply existsb_exists in Hex as (pc & Hin & Hpc). destruct pc; try done.
        apply list_elem_of_In, list_elem_of_lookup in Hin as [i Hi].
        eapply (Hno (ASubmit j (Some i))); [done|]. simpl. unfold submit_step.
        rewrite Hj. simpl. by rewrite Hi.
      * eapply (Hno (ASubmit j None)); [done|]. simpl. unfold submit_step.
        rewrite Hj. simpl. by rewrite Hex.
Qed.

Lemma omap_none {A B} (f : A -> option B) l : Forall (fun x => f x = None) l -> omap f l = [].
Proof. induction 1 as [|x l Hx _ IH]; csimpl; [done|]. by rewrite Hx. Qed.

(** Nothing runs and nothing is queued: everything pushed was executed. *)
Lemma drained n submits s :
  inv n submits s -> tasks_ s = [] -> Forall (fun pc => running pc = None) (workers s) ->
  executed s ≡ₚ omap accepted (submitters s).
Proof.
  intros [] Hempty Hrun. rewrite omap_none, app_nil_r in inv_executed0 by done.
  rewrite Hempty, app_nil_r in inv_fifo0. by rewrite <- inv_pushed0, inv_fifo0, <- inv_executed0.
Qed.

(** ** The theorems *)

(** C23. Safety of the pool, in every reachable state and for any interleaving
    of workers, submits, destructor and spurious wake-ups: no worker takes the
    front of an empty queue, at most one thread holds the mutex, tasks leave
    the queue in the order they were pushed, each task pushed belongs to one
    accepted submit, and each task taken is either being run or was executed,
    once. *)
Theorem pool_safety n submits s (Hr : reachable n submits s) :
  (forall a, perform a s <> Undefined) /\
  (forall th th', held_by (workers s) (submitters s) th = true ->
     held_by (workers s) (submitters s) th' = true -> th = th') /\
  pushed s = taken s ++ tasks_ s /\
  pushed s ≡ₚ omap accepted (submitters s) /\
  taken s ≡ₚ executed s ++ omap running (workers s) /\
  task_of <$> submitters s = submits.
Proof.
  apply inv_reachable in Hr as Hinv. split_and!; try apply Hinv.
  - intros [i|j choice| |i]; simpl.
    + unfold worker_step, acquire. destruct (workers s !! i) as [pc|] eqn:Hi; [|done].
      pose proof (Forall_lookup_1 _ _ _ _ (inv_ok _ _ _ Hinv) Hi) as Hok.
      destruct pc, (mu_ s), (tasks_ s); simpl in *; try done; try by destruct (stop_ s).
    + unfold submit_step, acquire, notify_one. repeat case_match; by simplify_eq/=.
    + unfold dtor_step. by repeat case_match.
    + by repeat case_match.
  - intros th th' H1 H2. pose proof (inv_mu _ _ _ Hinv) as Hmu.
    rewrite (Hmu th) in H1. rewrite (Hmu th') in H2.
    apply bool_decide_eq_true_1 in H1, H2. congruence.
Qed.

(** The destructor drains the queue: when it has returned, all workers
    have returned, the queue is empty, and the tasks executed are exactly
    those of the accepted submits, each once. *)
Theorem destructor_drains n submits s (Hn : 0 < n)
    (Hr : reachable n submits s) (Hd : dtor s = DDone) :
  Forall (eq WExit) (workers s) /\ tasks_ s = [] /\
  executed s ≡ₚ omap accepted (submitters s).
Proof.
  apply inv_reachable in Hr as Hinv. pose proof (inv_dtor _ _ _ Hinv) as Hex.
  rewrite Hd in Hex. simpl in Hex.
  assert (Forall (eq WExit) (workers s)) as Hall.
  { apply Forall_lookup. intros i pc Hi. symmetry. eapply Hex; [|done].
    rewrite <- (inv_workers _ _ _ Hinv). by eapply lookup_lt_Some. }
  assert (tasks_ s = []) as Hempty.
  { pose proof (inv_ok _ _ _ Hinv) as Hok. pose proof (inv_workers _ _ _ Hinv) as Hlen.
    destruct (workers s) as [|pc ws]; [simpl in Hlen; lia|].
    apply Forall_cons in Hall as [<- _]. by apply Forall_cons in Hok as [[_ ?] _]. }
  split_and!; [done..|]. apply (drained n submits); [done..|].
  eapply Forall_impl; [exact Hall|]. by intros pc <-.
Qed.

(** C19. No submit is lost: from any reachable state the program, left alone
    (no spurious wake-ups), stops after finitely many steps, and wherever it
    stops every submit has returned or was refused, the queue is empty and
    every accepted task was executed exactly once, whether or not the pool is
    being destroyed. *)
Theorem submits_are_executed n submits s (Hn : 0 < n) (Hr : reachable n submits s) :
  sn proper_step s /\
  forall s', rtc proper_step s s' -> nf proper_step s' ->
    Forall (fun pc => exists t, pc = SDone t \/ pc = SThrew t) (submitters s') /\
    tasks_ s' = [] /\ executed s' ≡ₚ omap accepted (submitters s').
Proof.
  split; [apply proper_steps_terminate|]. intros s' Hss' Hnf.
  assert (inv n submits s') as Hinv.
  { apply inv_reachable. unfold reachable in *. etrans; [exact Hr|]. eapply rtc_subrel; [|done].
    intros x y (a & _ & Ha). by exists a. }
  destruct (stuck_threads _ _ _ Hinv Hnf) as (_ & Hws & Hss).
  assert (tasks_ s' = []) as Hempty.
  { destruct (inv_wake _ _ _ Hinv Hn) as [?|[Hact|Hnot]]; [done|exfalso..].
    - apply Exists_exists in Hact as (pc & Hin & Hact). rewrite Forall_forall in Hws.
      by destruct (Hws pc Hin) as [-> | ->].
    - apply Exists_exists in Hnot as (pc & Hin & Hnot). rewrite Forall_forall in Hss.
      by destruct (Hss pc Hin) as (t & [-> | ->]). }
  split_and!; [done..|]. apply (drained n submits); [done..|].
  eapply Forall_impl; [exact Hws|]. by intros pc [-> | ->].
Qed.

(** C32. The destructor sets [stop_] and notifies without holding [mu_], so a
    worker that has just found the predicate of its wait false can miss both:
    for every pool size there is a run of proper steps after which the
    destructor is joining a worker that waits forever, so that no later state
    has the destructor finished. *)
Theorem destructor_can_hang n (Hn : 0 < n) :
  exists s, rtc proper_step (make n []) s /\
    forall s', rtc proper_step s s' -> dtor s' = DJoin 0 /\ workers s' !! 0 = Some WWaiting.
Proof.
  destruct n as [|m]; [lia|].
  set (ws := fun pc : worker_pc => pc :: replicate m WStart).
  exists (mk [] None true (ws WWaiting) [] (DJoin 0) [] [] []). split.
  - assert (wake <$> ws WEnroll = ws WEnroll) as Hwake.
    { unfold ws. by rewrite fmap_cons, fmap_replicate. }
    pose (s := fun d => mk [] (Some (Worker 0)) true (ws WEnroll) [] d [] [] []).
    assert (perform ADtor (s DNotify) = Goes (s (DJoin 0))) as Hnotify.
    { unfold s. rewrite <- Hwake at 2. reflexivity. }
    eapply rtc_l; [by exists (AWorker 0); split; reflexivity|].
    eapply rtc_l; [by exists (AWorker 0); split; reflexivity|].
    eapply rtc_l; [by exists ADtor; split; reflexivity|].
    eapply rtc_l; [exists ADtor; split; [done|exact Hnotify]|].
    eapply rtc_l; [by exists (AWorker 0); split; reflexivity|]. apply rtc_refl.
  - assert (forall s s', dtor s = DJoin 0 /\ workers s !! 0 = Some WWaiting /\ submitters s = [] ->
      rtc proper_step s s' -> dtor s' = DJoin 0 /\ workers s' !! 0 = Some WWaiting /\
      submitters s' = []) as Hstuck.
    { intros s s' H Hrtc. induction Hrtc as [|s s1 s' Hstep _ IH]; [done|]. apply IH. clear IH.
      destruct H as (Hd & Hw & Hss). destruct Hstep as ([i|j choice| |i] & Hp & Hstep); simpl in Hstep.
      - apply worker_step_inv in Hstep as (pc & Hi & Hpc).
        assert (i <> 0) as Hne by (intros ->; rewrite Hw in Hi; by simplify_eq).
        destruct pc; try done; repeat
          match goal with
          | H : _ \/ _ |- _ => destruct H
          | H : _ /\ _ |- _ => destruct H
          | H : exists _, _ |- _ => destruct H
          end; subst s1; simpl; by rewrite list_lookup_insert_ne.
      - unfold submit_step in Hstep. by rewrite Hss in Hstep.
      - unfold dtor_step in Hstep. by rewrite Hd, Hw in Hstep.
      - done. }
    intros s' Hrtc.
    assert (dtor s' = DJoin 0 /\ workers s' !! 0 = Some WWaiting /\ submitters s' = [])
      as (? & ? & _); [|done].
    revert Hrtc. by apply Hstuck.
Qed.

End pool.

Lemma destructor_can_hang_witness :
  exists s, rtc proper_step (make (Task := nat) 4 []) s /\
    forall s', rtc proper_step s s' -> dtor s' = DJoin 0 /\ workers s' !! 0 = Some WWaiting.
Proof. apply (destructor_can_hang (Task := nat) 4). lia. Defined.

(** Two workers, three tasks, then the destructor: one complete run. *)
Definition schedule : list action :=
  [ASubmit 0 None; ASubmit 0 None; ASubmit 0 None; ASubmit 0 None;
   AWorker 0; AWorker 0; AWorker 0; AWorker 0;
   ASubmit 1 None; ASubmit 1 None; ASubmit 1 None; ASubmit 1 None;
   AWorker 0; AWorker 1; AWorker 1; AWorker 1; AWorker 1; AWorker 1; ADtor; ADtor;
   ASubmit 2 None; ASubmit 2 None;
   AWorker 0; AWorker 0; AWorker 0; AWorker 1; AWorker 1; AWorker 1; ADtor; ADtor; ADtor].

Definition final : pool (Task := nat) :=
  mk [] None true [WExit; WExit] [SDone 10; SDone 11; SThrew 12] DDone [10; 11] [10; 11] [10; 11].

Lemma run_reachable {Task} acts n (submits : list Task) s s' :
  reachable n submits s -> run acts s = Some s' -> reachable n submits s'.
Proof.
  revert s. induction acts as [|a acts IH]; simpl; intros s Hr Hrun; [congruence|].
  destruct (perform a s) as [|s1|] eqn:Ha; try done. eapply IH; [|done].
  eapply rtc_r; [exact Hr|]. by exists a.
Qed.

Lemma final_reachable : reachable 2 [10; 11; 12] final.
Proof. eapply (run_reachable schedule); [apply rtc_refl|]. vm_compute. reflexivity. Qed.

Lemma pool_safety_witness :
  reachable 2 [10; 11; 12] final /\ pushed final = taken final ++ tasks_ final.
Proof.
  split; [exact final_reachable|]. exact (proj1 (proj2 (proj2 (pool_safety 2 [10; 11; 12] final
    final_reachable)))).
Defined.

Lemma destructor_drains_witness :
  executed final ≡ₚ omap accepted (submitters final) /\ executed final = [10; 11].
Proof.
  split; [|reflexivity].
  exact (proj2 (proj2 (destructor_drains 2 [10; 11; 12] final
    ltac:(lia) final_reachable eq_refl))).
Defined.

Lemma submits_are_executed_witness :
  sn proper_step (make 2 [10; 11; 12]).
Proof.
  exact (proj1 (submits_are_executed 2 [10; 11; 12] (make 2 [10; 11; 12])
    ltac:(lia) (rtc_refl _ _))).
Defined.

(** A pool without workers accepts a task that nobody runs. *)
Definition idle : pool (Task := nat) := mk [10] None false [] [SDone 10] DIdle [10] [] [].
Example no_workers :
  run (replicate 4 (ASubmit 0 None)) (make 0 [10]) = Some idle /\
  forall a, a <> ADtor -> forall s, perform a idle <> Goes s.
Proof. split; [reflexivity|]. intros [i|[|j] choice| |i] Ha s; try done; by destruct i. Qed.

End ThreadPool.
