(* ===== verification/ZooKeeper.v ===== *)
(** * The ZooKeeper client, in-memory build (include/registry/zookeeper_client.h,
      src/registry/zookeeper_client.cpp, the branch without WITH_ZOOKEEPER)

    [Zk.t] is the [Stub]: its mutex, nodes, child lists and watchers.  A
    [WatchCallback] is a closure over other objects, so the operations run in
    any state [W] that holds a stub, and [fire] says what a stored callback
    does to that state.  [Tree] is the abstract specification: a map from
    paths to data; [stub_refines] shows that the stub implements it. *)

From Stdlib Require Import ZArith Lia Ascii.
From S2P Require Import Prelude CxxString.

Module Zk.

Record t (C : Type) := mk {
  mu : bool;
  nodes : gmap string string;
  children : gmap string (list string);
  watchers : gmap string C;
}.
Arguments mk {C} mu nodes children watchers.
Arguments mu {C} t.
Arguments nodes {C} t.
Arguments children {C} t.
Arguments watchers {C} t.

Definition make {C} : t C := mk false ∅ ∅ ∅.

Definition set_mu {C} (b : bool) (z : t C) : t C := mk b (nodes z) (children z) (watchers z).
Definition set_nodes {C} m (z : t C) : t C := mk (mu z) m (children z) (watchers z).
Definition set_children {C} m (z : t C) : t C := mk (mu z) (nodes z) m (watchers z).
Definition set_watchers {C} m (z : t C) : t C := mk (mu z) (nodes z) (children z) m.

(** [children\[parent\]], which is empty for an unknown parent. *)
Definition kids {C} (parent : string) (z : t C) : list string :=
  default [] (children z !! parent).

(** [path.rfind('/')], when it is found after position 0, with the two parts
    of the path around it. *)
Definition split_path (path : string) : option (string * string) :=
  match Str.rfind "/" path with
  | Some (S _ as slash) => Some (Str.substr_to slash path, Str.substr_from (S slash) path)
  | _ => None
  end.

Section ops.
Context {W C : Type} (self : Lens W (t C)).
(** What running a watcher on a path does. *)
Variable fire : C -> string -> M W unit.

Definition mutex : Lens W bool :=
  mkLens (fun w => mu (lget self w)) (fun b w => lset self (set_mu b (lget self w)) w).

Definition zk_modify (f : t C -> t C) : M W unit := zoom self (modify f).

(** [bool create(path, data)] *)
Definition create (path data : string) : M W bool :=
  lock_guard mutex (
    zk_modify (fun z => set_nodes (<[path := data]> (nodes z)) z) ;;
    match split_path path with
    | Some (parent, child) =>
        ks ← gets (fun w => kids parent (lget self w));
        if bool_decide (child ∈ ks) then mret true
        else
          zk_modify (fun z => set_children (<[parent := ks ++ [child]]> (children z)) z) ;;
          cb ← gets (fun w => watchers (lget self w) !! parent);
          match cb with Some cb => fire cb parent | None => mret () end ;;
          mret true
    | None => mret true
    end).

Definition create_ephemeral (path data : string) : M W bool := create path data.

(** [std::string get(path)] *)
Definition get (path : string) : M W string :=
  lock_guard mutex (gets (fun w => default ""%string (nodes (lget self w) !! path))).

Definition get_children (path : string) : M W (list string) :=
  lock_guard mutex (gets (fun w => kids path (lget self w))).

Definition watch_children (path : string) (cb : C) : M W bool :=
  lock_guard mutex (
    zk_modify (fun z => set_watchers (<[path := cb]> (watchers z)) z) ;; mret true).

Definition remove (path : string) : M W bool :=
  lock_guard mutex (
    zk_modify (fun z => set_nodes (delete path (nodes z)) z) ;;
    match split_path path with
    | Some (parent, child) =>
        zk_modify (fun z => set_children
          (<[parent := filter (fun c => c <> child) (kids parent z)]> (children z)) z) ;;
        mret true
    | None => mret true
    end).

End ops.

(** ** Paths *)

Definition join_path (parent child : string) : string := (parent +:+ String "/" child)%string.

Lemma split_join parent child :
  parent <> ""%string -> Str.free_of "/" child = true ->
  split_path (join_path parent child) = Some (parent, child).
Proof.
  intros Hp Hc. unfold split_path, join_path. rewrite Str.rfind_join by done.
  rewrite Str.substr_to_join, Str.substr_from_join. destruct parent; [done|]. reflexivity.
Qed.

Lemma split_path_Some path parent child :
  split_path path = Some (parent, child) ->
  path = join_path parent child /\ parent <> ""%string /\ Str.free_of "/" child = true.
Proof.
  unfold split_path, join_path. destruct (Str.rfind "/" path) as [[|i]|] eqn:H; [done| |done].
  intros [= <- <-]. pose proof (Str.rfind_split _ _ _ H) as [Hs Hfree].
  split_and!; [done| |done]. by destruct path.
Qed.

Lemma join_path_inj p1 c1 p2 c2 :
  p1 <> ""%string -> p2 <> ""%string ->
  Str.free_of "/" c1 = true -> Str.free_of "/" c2 = true ->
  join_path p1 c1 = join_path p2 c2 -> p1 = p2 /\ c1 = c2.
Proof.
  intros Hp1 Hp2 Hc1 Hc2 Heq. pose proof (split_join p1 c1 Hp1 Hc1) as H1.
  rewrite Heq, split_join in H1 by done. by simplify_eq.
Qed.

(** ** The abstract tree *)

Module Tree.

Inductive op :=
| Create (path data : string)
| CreateEphemeral (path data : string)
| Get (path : string)
| GetChildren (path : string)
| Remove (path : string).

Inductive answer := Done | Data (s : string) | Names (l : list string).

(** A node [parent/child] exists. *)
Definition has_child (tree : gmap string string) (parent child : string) : Prop :=
  parent <> ""%string /\ Str.free_of "/" child = true /\
  is_Some (tree !! join_path parent child).

(** [step o tree a tree']: the operation answers [a] and leaves [tree']. *)
Inductive step : op -> gmap string string -> answer -> gmap string string -> Prop :=
| step_create path data tree :
    step (Create path data) tree Done (<[path := data]> tree)
| step_create_ephemeral path data tree :
    step (CreateEphemeral path data) tree Done (<[path := data]> tree)
| step_get path tree :
    step (Get path) tree (Data (default ""%string (tree !! path))) tree
| step_get_children path tree l :
    NoDup l -> (forall c, c ∈ l <-> has_child tree path c) ->
    step (GetChildren path) tree (Names l) tree
| step_remove path tree :
    step (Remove path) tree Done (delete path tree).

Inductive steps : list op -> gmap string string -> list answer -> gmap string string -> Prop :=
| steps_nil tree : steps [] tree [] tree
| steps_cons o os tree a tree' as_ tree'' :
    step o tree a tree' -> steps os tree' as_ tree'' -> steps (o :: os) tree (a :: as_) tree''.

End Tree.

Section refinement.
Context {C : Type}.
Implicit Types (z : t C).

Definition quiet : C -> string -> M (t C) unit := fun _ _ => ub "a watcher ran".

(** One client call on a stub. *)
Definition call (o : Tree.op) : M (t C) Tree.answer :=
  match o with
  | Tree.Create path data => create lens_id quiet path data ;; mret Tree.Done
  | Tree.CreateEphemeral path data => create_ephemeral lens_id quiet path data ;; mret Tree.Done
  | Tree.Get path => s ← get lens_id path; mret (Tree.Data s)
  | Tree.GetChildren path => l ← get_children lens_id path; mret (Tree.Names l)
  | Tree.Remove path => remove lens_id path ;; mret Tree.Done
  end.

Fixpoint calls (os : list Tree.op) : M (t C) (list Tree.answer) :=
  match os with
  | [] => mret []
  | o :: os' => a ← call o; as_ ← calls os'; mret (a :: as_)
  end.

(** The child lists are those of the nodes. *)
Record inv z : Prop := {
  inv_unlocked : mu z = false;
  inv_kids : forall parent child, child ∈ kids parent z <-> Tree.has_child (nodes z) parent child;
  inv_NoDup : forall parent, NoDup (kids parent z);
}.

Lemma zk_inv_make : inv make.
Proof.
  split; [done| |].
  - intros parent child. unfold kids, Tree.has_child. simpl. rewrite !lookup_empty. simpl.
    split; [by intros ?%not_elem_of_nil|]. by intros (_ & _ & [? ?]).
  - intros parent. unfold kids. simpl. rewrite lookup_empty. constructor.
Qed.

Lemma kids_insert p l parent z :
  kids parent (set_children (<[p := l]> (children z)) z) =
    if decide (parent = p) then l else kids parent z.
Proof.
  unfold kids. simpl. case_decide as Hp.
  - subst. by rewrite lookup_insert_eq.
  - by rewrite lookup_insert_ne.
Qed.

Lemma has_child_insert (m : gmap string string) path data parent child :
  Tree.has_child (<[path := data]> m) parent child <->
  Tree.has_child m parent child \/ split_path path = Some (parent, child).
Proof.
  unfold Tree.has_child. rewrite lookup_insert_is_Some'. split.
  - intros (Hp & Hc & [->|Hm]); [right; by apply split_join|by left].
  - intros [(Hp & Hc & Hm)|Hs]; [by auto|].
    apply split_path_Some in Hs as (-> & Hp & Hc). by auto.
Qed.

Lemma has_child_delete (m : gmap string string) path parent child :
  Tree.has_child (delete path m) parent child <->
  Tree.has_child m parent child /\ split_path path <> Some (parent, child).
Proof.
  unfold Tree.has_child. rewrite lookup_delete_is_Some. split.
  - intros (Hp & Hc & Hne & Hm). split; [done|]. intros (-> & _)%split_path_Some. done.
  - intros [(Hp & Hc & Hm) Hs]. split_and!; [done..| |done]. intros ->.
    by rewrite split_join in Hs.
Qed.

(** The state after [create] and after [remove]. *)
Definition created path data z : t C :=
  let z := set_nodes (<[path := data]> (nodes z)) z in
  match split_path path with
  | Some (parent, child) =>
      if bool_decide (child ∈ kids parent z) then z
      else set_children (<[parent := kids parent z ++ [child]]> (children z)) z
  | None => z
  end.
Definition removed path z : t C :=
  let z := set_nodes (delete path (nodes z)) z in
  match split_path path with
  | Some (parent, child) =>
      set_children (<[parent := filter (fun c => c <> child) (kids parent z)]> (children z)) z
  | None => z
  end.

Lemma kids_created path data parent z :
  kids parent (created path data z) =
    match split_path path with
    | Some (p, child) =>
        if decide (parent = p /\ child ∉ kids p z) then kids parent z ++ [child]
        else kids parent z
    | None => kids parent z
    end.
Proof.
  unfold created. destruct (split_path path) as [[p child]|]; [|done].
  set (z1 := set_nodes _ z). change (kids p z) with (kids p z1).
  change (kids parent z) with (kids parent z1).
  case_bool_decide as Hin; [by rewrite decide_False by naive_solver|].
  rewrite kids_insert. case_decide as Hp; [subst|]; [by rewrite decide_True|].
  by rewrite decide_False by naive_solver.
Qed.

Lemma nodes_created path data z : nodes (created path data z) = <[path := data]> (nodes z).
Proof. unfold created. by repeat case_match. Qed.

Lemma inv_created path data z : inv z -> inv (created path data z).
Proof.
  intros [Hmu Hk Hnd]. split.
  - unfold created. by repeat case_match.
  - intros parent child. rewrite nodes_created, has_child_insert, kids_created, <- Hk.
    destruct (split_path path) as [[p c]|]; [|naive_solver].
    case_decide as Hd; [|].
    + destruct Hd as [-> Hc]. rewrite elem_of_app, list_elem_of_singleton. naive_solver.
    + split; [by left|]. intros [?|[= -> ->]]; [done|].
      destruct (decide (child ∈ kids parent z)); [done|]. by destruct Hd.
  - intros parent. rewrite kids_created. destruct (split_path path) as [[p c]|]; [|done].
    case_decide as Hd; [|done]. destruct Hd as [-> Hc]. apply NoDup_app. split_and!; [done| |].
    + intros x Hx ->%list_elem_of_singleton. done.
    + apply NoDup_singleton.
Qed.

Lemma inv_removed path z : inv z -> inv (removed path z).
Proof.
  intros [Hmu Hk Hnd]. unfold removed.
  destruct (split_path path) as [[p c]|] eqn:Hs; [|]; split; try done.
  - intros parent child. rewrite kids_insert. simpl. rewrite has_child_delete, <- Hk, Hs.
    change (kids p (set_nodes (delete path (nodes z)) z)) with (kids p z).
    change (kids parent (set_nodes (delete path (nodes z)) z)) with (kids parent z).
    case_decide as Hp; [subst; rewrite list_elem_of_filter|]; naive_solver.
  - intros parent. rewrite kids_insert. case_decide; [|apply Hnd]. apply NoDup_filter, Hnd.
  - intros parent child. simpl. rewrite has_child_delete, Hs.
    change (kids parent (set_nodes (delete path (nodes z)) z)) with (kids parent z).
    rewrite <- Hk. naive_solver.
Qed.

End refinement.

(** ** What the operations do, in any state that holds a stub *)

Section effects.
Context {W C : Type} (self : Lens W (t C)) `{!LensOk self} (fire : C -> string -> M W unit).

(** No watcher runs when [path] is created. *)
Definition silent (path : string) (z : t C) : Prop :=
  match split_path path with
  | Some (parent, child) => child ∈ kids parent z \/ watchers z !! parent = None
  | None => True
  end.

Lemma set_mu_false z : mu z = false -> set_mu (C := C) false z = z.
Proof. by destruct z; simpl; intros ->. Qed.

Lemma create_eq path data w :
  mu (lget self w) = false -> silent path (lget self w) ->
  create self fire path data w = Ret (lset self (created path data (lget self w)) w) true.
Proof.
  intros Hmu Hsil. unfold create, lock_guard, mutex. simpl. rewrite Hmu.
  unfold mbind, M_bind, zk_modify, zoom, modify, silent, created, gets, mret, M_ret in *. simpl.
  rewrite !lens_get_set, lens_set_set.
  destruct (split_path path) as [[p c]|]; rewrite ?lens_get_set.
  - change (kids p (set_nodes _ (set_mu true (lget self w)))) with (kids p (lget self w)).
    change (kids p (set_nodes (<[path:=data]> (nodes (lget self w))) (lget self w)))
      with (kids p (lget self w)).
    case_bool_decide; rewrite ?lens_get_set, ?lens_set_set.
    + do 2 f_equal. by rewrite <- set_mu_false by done.
    + destruct Hsil as [?|Hw]; [done|]. simpl. rewrite Hw. rewrite ?lens_get_set, ?lens_set_set.
      do 2 f_equal. by rewrite <- set_mu_false by done.
  - rewrite lens_set_set. do 2 f_equal. by rewrite <- set_mu_false by done.
Qed.

(** Creating a new child of a watched node runs the watcher with the mutex
    held. *)
Lemma create_fires path data parent child cb w :
  mu (lget self w) = false -> split_path path = Some (parent, child) ->
  child ∉ kids parent (lget self w) -> watchers (lget self w) !! parent = Some cb ->
  (forall w', mu (lget self w') = true -> fire cb parent w' = Ub "deadlock: the mutex is already held") ->
  create self fire path data w = Ub "deadlock: the mutex is already held".
Proof.
  intros Hmu Hs Hc Hw Hfire. unfold create, lock_guard, mutex. simpl. rewrite Hmu.
  unfold mbind, M_bind, zk_modify, zoom, modify, gets. simpl.
  rewrite !lens_get_set, lens_set_set, Hs, lens_get_set.
  change (kids parent (set_nodes _ (set_mu true (lget self w)))) with (kids parent (lget self w)).
  rewrite bool_decide_eq_false_2 by done. rewrite ?lens_get_set, ?lens_set_set. simpl.
  rewrite Hw. rewrite Hfire; [done|]. by rewrite lens_get_set.
Qed.

Lemma remove_eq path w :
  mu (lget self w) = false ->
  remove self path w = Ret (lset self (removed path (lget self w)) w) true.
Proof.
  intros Hmu. unfold remove, lock_guard, mutex. simpl. rewrite Hmu.
  unfold mbind, M_bind, zk_modify, zoom, modify, removed, mret, M_ret in *. simpl.
  rewrite !lens_get_set, lens_set_set.
  destruct (split_path path) as [[p c]|]; rewrite ?lens_get_set, ?lens_set_set;
    do 2 f_equal; by rewrite <- set_mu_false by done.
Qed.

Lemma lock_gets_eq {X} (f : W -> X) w :
  mu (lget self w) = false ->
  lock_guard (mutex self) (gets f) w = Ret w (f (lset self (set_mu true (lget self w)) w)).
Proof.
  intros Hmu. unfold lock_guard, mutex, gets. simpl. rewrite Hmu, lens_get_set, lens_set_set.
  change (set_mu false (set_mu true (lget self w))) with (set_mu false (lget self w)).
  by rewrite set_mu_false, lens_set_get.
Qed.

Lemma get_eq path w :
  mu (lget self w) = false ->
  get self path w = Ret w (default ""%string (nodes (lget self w) !! path)).
Proof. intros Hmu. unfold get. rewrite lock_gets_eq by done. by rewrite lens_get_set. Qed.

Lemma get_children_eq path w :
  mu (lget self w) = false ->
  get_children self path w = Ret w (kids path (lget self w)).
Proof. intros Hmu. unfold get_children. rewrite lock_gets_eq by done. by rewrite lens_get_set. Qed.

Lemma watch_children_eq path cb w :
  mu (lget self w) = false ->
  watch_children self path cb w =
    Ret (lset self (set_watchers (<[path := cb]> (watchers (lget self w))) (lget self w)) w) true.
Proof.
  intros Hmu. unfold watch_children, lock_guard, mutex. simpl. rewrite Hmu.
  unfold mbind, M_bind, zk_modify, zoom, modify, mret, M_ret. simpl.
  rewrite !lens_get_set, !lens_set_set. do 2 f_equal. by rewrite <- set_mu_false by done.
Qed.

End effects.

Section refines.
Context {C : Type}.
Implicit Types (z : t C).

Lemma created_watchers path data z : watchers (created path data z) = watchers z.
Proof. unfold created. by repeat case_match. Qed.
Lemma created_mu path data z : mu (created path data z) = mu z.
Proof. unfold created. by repeat case_match. Qed.
Lemma removed_watchers path z : watchers (removed path z) = watchers z.
Proof. unfold removed. by repeat case_match. Qed.
Lemma removed_nodes path z : nodes (removed path z) = delete path (nodes z).
Proof. unfold removed. by repeat case_match. Qed.

Lemma silent_no_watchers path z : watchers z = ∅ -> silent path z.
Proof.
  intros Hw. unfold silent. destruct (split_path path) as [[p c]|]; [|done].
  right. by rewrite Hw, lookup_empty.
Qed.

Lemma call_refines o z :
  inv z -> watchers z = ∅ ->
  wp (call o) z (fun z' a =>
    Tree.step o (nodes z) a (nodes z') /\ inv z' /\ watchers z' = ∅).
Proof.
  intros Hinv Hw. pose proof (inv_unlocked _ Hinv) as Hmu.
  destruct o as [path data|path data|path|path|path]; unfold call, create_ephemeral; apply wp_bind;
    apply wp_ret_inv; do 2 eexists.
  - split; [apply (create_eq lens_id quiet); [done|by apply silent_no_watchers]|]. wp_pures. simpl.
    rewrite nodes_created, created_watchers. split_and!; [constructor|by apply inv_created|done].
  - split; [apply (create_eq lens_id quiet); [done|by apply silent_no_watchers]|]. wp_pures. simpl.
    rewrite nodes_created, created_watchers. split_and!; [constructor|by apply inv_created|done].
  - split; [by apply (get_eq lens_id)|]. wp_pures. split_and!; [constructor|done..].
  - split; [by apply (get_children_eq lens_id)|]. wp_pures. split_and!; [|done..].
    constructor; [by apply inv_NoDup|]. intros c. by apply inv_kids.
  - split; [by apply (remove_eq lens_id)|]. wp_pures. simpl.
    rewrite removed_nodes, removed_watchers. split_and!; [constructor|by apply inv_removed|done].
Qed.


(** The header's "creates parent nodes as needed": the stub does not. *)
Example parents_are_not_created :
  calls [Tree.Create "/a/b" "x"; Tree.Get "/a/b"; Tree.GetChildren "/a"; Tree.GetChildren "/"]
    (make (C := C)) =
  Ret (mk false {["/a/b" := "x"]} {["/a" := ["b"]]} ∅)
    [Tree.Done; Tree.Data "x"; Tree.Names ["b"]; Tree.Names []].
Proof. reflexivity. Qed.

End refines.

End Zk.
