(* ===== verification/ZkClient.v ===== *)
(** * The ZooKeeper client, WITH_ZOOKEEPER build
      (src/registry/zookeeper_client.cpp, the first branch)

    The wrapper around the ZooKeeper C client.  The C library with the server
    behind it is the class [ZkC], whose laws [ZkCOk] are its documented answers
    in a healthy session.  [real_refines]: on the calls that it answers without
    an error, this build implements the abstract tree that the in-memory build
    of ZooKeeper.v implements; on the others the builds differ, as the
    examples show. *)

From Stdlib Require Import ZArith Lia Ascii.
From S2P Require Import Prelude CxxString ZooKeeper.
Local Open Scope Z_scope.

Module ZkClient.

(** ** The C library *)

Inductive rc := ZOK | ZNODEEXISTS | ZERR (e : Z).
#[export] Instance rc_eq_dec : EqDecision rc.
Proof. solve_decision. Defined.

Inductive event := ZOO_CHILD_EVENT | OtherEvent (type : Z).

(** What [zoo_get] leaves: the bytes it wrote at the front of the caller's
    buffer, and the value of [*buffer_len]. *)
Record get_answer := mk_get { get_rc : rc; written : string; buffer_len : Z }.

(** A watcher context is the number of an allocated callback. *)
Class ZkC (L : Type) := {
  zookeeper_init : string -> Z -> L -> bool * L;        (* is the handle non-null? *)
  zookeeper_close : L -> L;
  zoo_connected : L -> bool;                            (* the state is ZOO_CONNECTED_STATE *)
  zoo_create : string -> string -> bool -> L -> rc * L; (* path, data, ephemeral *)
  zoo_get : string -> Z -> L -> get_answer * L;
  zoo_get_children : string -> L -> rc * list string * L;
  zoo_wget_children : string -> nat -> L -> rc * list string * L;
  zoo_delete : string -> L -> rc * L;
}.

(** ** The wrapper *)

(** The members, the callbacks allocated with [new], and the library. *)
Record t (L C : Type) := mk {
  hosts_ : string;
  zh_ : bool;
  contexts : list C;
  lib : L;
}.
Arguments mk {L C} hosts_ zh_ contexts lib.
Arguments hosts_ {L C} t.
Arguments zh_ {L C} t.
Arguments contexts {L C} t.
Arguments lib {L C} t.

(** A path goes to the library as [path.c_str()]: up to the first NUL. *)
Fixpoint c_str (s : string) : string :=
  match s with
  | EmptyString => EmptyString
  | String a s' => if decide (a = "000"%char) then EmptyString else String a (c_str s')
  end.

Definition kGetBufSize : Z := 512.

Section code.
Context {L C W : Type} `{ZkC L} (self : Lens W (t L C)).
(** What running an allocated callback on a path does. *)
Variable run_callback : C -> string -> M W unit.

(** A call of the library. *)
Definition zoo {X} (f : L -> X * L) : M W X := fun w =>
  let z := lget self w in
  let '(x, l) := f (lib z) in Ret (lset self (mk (hosts_ z) (zh_ z) (contexts z) l) w) x.

(** [ZooKeeperClient(hosts, session_timeout_ms)] *)
Definition construct (hosts : string) (session_timeout_ms : Z) : M W unit :=
  zoom self (modify (fun z => mk hosts (zh_ z) (contexts z) (lib z))) ;;
  ok ← zoo (zookeeper_init (c_str hosts) session_timeout_ms);
  zoom self (modify (fun z => mk (hosts_ z) ok (contexts z) (lib z))) ;;
  if (ok : bool) then mret () else throw (runtime_error "zookeeper_init failed").

Definition destroy : M W unit :=
  z ← gets (lget self);
  when (zh_ z) (zoo (fun l => ((), zookeeper_close l))).

Definition connected : M W bool :=
  z ← gets (lget self); mret (zh_ z && zoo_connected (lib z)).

(** [rc == ZOK || rc == ZNODEEXISTS] *)
Definition created_ok (r : rc) : bool := bool_decide (r = ZOK) || bool_decide (r = ZNODEEXISTS).

Definition create (path data : string) : M W bool :=
  r ← zoo (zoo_create (c_str path) data false); mret (created_ok r).
Definition create_ephemeral (path data : string) : M W bool :=
  r ← zoo (zoo_create (c_str path) data true); mret (created_ok r).

(** [char buf\[512\]] is not initialised: only what [zoo_get] wrote can be read. *)
Definition get (path : string) : M W string :=
  a ← zoo (zoo_get (c_str path) kGetBufSize);
  let n := if 0 <? buffer_len a then buffer_len a else 0 in
  assert_ (n <=? kGetBufSize) "read past the end of buf" ;;
  assert_ (n <=? Z.of_nat (String.length (written a))) "read of indeterminate bytes" ;;
  mret (Str.substr_to (Z.to_nat n) (written a)).

Definition get_children (path : string) : M W (list string) :=
  a ← zoo (zoo_get_children (c_str path)); mret (a : rc * list string).2.

Definition watch_children (path : string) (cb : C) : M W bool :=
  z ← gets (lget self);
  let ctx := length (contexts z) in
  zoom self (modify (fun z => mk (hosts_ z) (zh_ z) (contexts z ++ [cb]) (lib z))) ;;
  a ← zoo (zoo_wget_children (c_str path) ctx);
  mret (bool_decide ((a : rc * list string).1 = ZOK)).

(** The callback the library calls, with the context it was given. *)
Definition zk_watcher (type : event) (path : option string) (ctx : option nat) : M W unit :=
  match type, ctx with
  | ZOO_CHILD_EVENT, Some i =>
      z ← gets (lget self);
      match contexts z !! i with
      | Some cb => run_callback cb (default ""%string path)
      | None => ub "dangling watcher context"
      end
  | _, _ => mret ()
  end.

Definition remove (path : string) : M W bool :=
  r ← zoo (zoo_delete (c_str path)); mret (bool_decide (r = ZOK)).

Lemma wp_zoo {X} (f : L -> X * L) w (Q : W -> X -> Prop) :
  (forall x l, f (lib (lget self w)) = (x, l) ->
    Q (lset self (mk (hosts_ (lget self w)) (zh_ (lget self w)) (contexts (lget self w)) l) w) x) ->
  wp (zoo f) w Q.
Proof. intros HQ. unfold wp, wpe, zoo. destruct (f (lib (lget self w))) as [x l] eqn:Hf. by apply HQ. Qed.

End code.

(** ** The library's laws *)

Definition path_ok (path : string) : Prop := c_str path = path.
Definition parent_exists (tree : gmap string string) (path : string) : Prop :=
  match Zk.split_path path with Some (parent, _) => is_Some (tree !! parent) | None => True end.
Definition leaf (tree : gmap string string) (path : string) : Prop :=
  forall child, ~ Zk.Tree.has_child tree path child.

(** What is documented of the calls in a session that stays connected, on the
    tree of nodes that the server keeps. *)
Class ZkCOk (L : Type) `{ZkC L} := {
  tree : L -> gmap string string;
  healthy : L -> Prop;
  create_new path data eph l r l' : healthy l -> zoo_create path data eph l = (r, l') ->
    tree l !! path = None -> parent_exists (tree l) path ->
    r = ZOK /\ tree l' = <[path := data]> (tree l) /\ healthy l';
  create_exists path data eph l r l' : healthy l -> zoo_create path data eph l = (r, l') ->
    is_Some (tree l !! path) -> r = ZNODEEXISTS /\ tree l' = tree l /\ healthy l';
  get_data path cap l a l' d : healthy l -> zoo_get path cap l = (a, l') ->
    tree l !! path = Some d -> Z.of_nat (String.length d) <= cap ->
    written a = d /\ buffer_len a = Z.of_nat (String.length d) /\ tree l' = tree l /\ healthy l';
  children_names path l r names l' : healthy l -> zoo_get_children path l = (r, names, l') ->
    is_Some (tree l !! path) ->
    NoDup names /\ (forall c, c ∈ names <-> Zk.Tree.has_child (tree l) path c) /\
    tree l' = tree l /\ healthy l';
  watch_set path ctx l r names l' : healthy l -> zoo_wget_children path ctx l = (r, names, l') ->
    is_Some (tree l !! path) -> r = ZOK /\ tree l' = tree l /\ healthy l';
  delete_leaf path l r l' : healthy l -> zoo_delete path l = (r, l') ->
    is_Some (tree l !! path) -> leaf (tree l) path ->
    r = ZOK /\ tree l' = delete path (tree l) /\ healthy l';
}.

Section refinement.
Context {L C : Type} `{ZkCOk L}.
Implicit Types (z : t L C).

(** One client call. *)
Definition call (o : Zk.Tree.op) : M (t L C) Zk.Tree.answer :=
  match o with
  | Zk.Tree.Create path data => create lens_id path data ;; mret Zk.Tree.Done
  | Zk.Tree.CreateEphemeral path data => create_ephemeral lens_id path data ;; mret Zk.Tree.Done
  | Zk.Tree.Get path => s ← get lens_id path; mret (Zk.Tree.Data s)
  | Zk.Tree.GetChildren path => l ← get_children lens_id path; mret (Zk.Tree.Names l)
  | Zk.Tree.Remove path => remove lens_id path ;; mret Zk.Tree.Done
  end.

Fixpoint calls (os : list Zk.Tree.op) : M (t L C) (list Zk.Tree.answer) :=
  match os with
  | [] => mret []
  | o :: os' => a ← call o; as_ ← calls os'; mret (a :: as_)
  end.

(** The calls that the server answers without an error: new nodes under
    existing ones, reads of existing nodes whose data fits the buffer, and
    removals of leaves. *)
Definition plain (tr : gmap string string) (o : Zk.Tree.op) : Prop :=
  match o with
  | Zk.Tree.Create path _ | Zk.Tree.CreateEphemeral path _ =>
      path_ok path /\ tr !! path = None /\ parent_exists tr path
  | Zk.Tree.Get path => path_ok path /\ exists d, tr !! path = Some d /\
      Z.of_nat (String.length d) <= kGetBufSize
  | Zk.Tree.GetChildren path => path_ok path /\ is_Some (tr !! path)
  | Zk.Tree.Remove path => path_ok path /\ is_Some (tr !! path) /\ leaf tr path
  end.

(** The tree after a call, by the specification. *)
Definition after (o : Zk.Tree.op) (tr : gmap string string) : gmap string string :=
  match o with
  | Zk.Tree.Create path data | Zk.Tree.CreateEphemeral path data => <[path := data]> tr
  | Zk.Tree.Remove path => delete path tr
  | _ => tr
  end.

Fixpoint all_plain (tr : gmap string string) (os : list Zk.Tree.op) : Prop :=
  match os with [] => True | o :: os' => plain tr o /\ all_plain (after o tr) os' end.

Lemma substr_to_length s : Str.substr_to (String.length s) s = s.
Proof. induction s as [|a s IH]; [done|]. simpl. by rewrite IH. Qed.

Lemma call_refines_tree o z :
  healthy (lib z) -> plain (tree (lib z)) o ->
  wp (call o) z (fun z' a => Zk.Tree.step o (tree (lib z)) a (tree (lib z')) /\
    tree (lib z') = after o (tree (lib z)) /\ healthy (lib z')).
Proof.
  intros Hh Hp. destruct o as [path data|path data|path|path|path]; simpl in Hp;
    destruct Hp as [Hpath Hp]; unfold call, create, create_ephemeral, get, get_children, remove;
    rewrite Hpath; wp_pures; apply wp_zoo; intros r l Heq; simpl in Heq; wp_pures; simpl.
  - destruct Hp as [Hn Hpar]. destruct (create_new _ _ _ _ _ _ Hh Heq Hn Hpar) as (_ & -> & ?).
    split_and!; [constructor|done..].
  - destruct Hp as [Hn Hpar]. destruct (create_new _ _ _ _ _ _ Hh Heq Hn Hpar) as (_ & -> & ?).
    split_and!; [constructor|done..].
  - destruct Hp as (d & Hd & Hlen). destruct (get_data _ _ _ _ _ _ Hh Heq Hd Hlen) as (-> & -> & Htree & ?).
    assert ((if 0 <? Z.of_nat (String.length d) then Z.of_nat (String.length d) else 0)
      = Z.of_nat (String.length d)) as -> by (destruct (Z.ltb_spec 0 (Z.of_nat (String.length d))); lia).
    apply wp_assert; [by apply Z.leb_le|]. wp_pures. apply wp_assert; [apply Z.leb_refl|]. wp_pures.
    simpl.
    rewrite Nat2Z.id, substr_to_length, Htree. split_and!; [|done..].
    replace d with (default ""%string (tree (lib z) !! path)) by by rewrite Hd. constructor.
  - destruct r as [r names]. destruct (children_names _ _ _ _ _ Hh Heq Hp) as (? & ? & -> & ?).
    split_and!; [by constructor|done..].
  - destruct Hp as [Hs Hleaf]. destruct (delete_leaf _ _ _ _ Hh Heq Hs Hleaf) as (_ & -> & ?).
    split_and!; [constructor|done..].
Qed.


(** A node that exists keeps its data: [create] answers true and ignores the
    new one. *)
Lemma create_keeps_data path data z :
  healthy (lib z) -> path_ok path -> is_Some (tree (lib z) !! path) ->
  wp (create lens_id path data) z (fun z' r => r = true /\ tree (lib z') = tree (lib z)).
Proof.
  intros Hh Hpath Hs. unfold create. rewrite Hpath. wp_pures. apply wp_zoo. intros r l Heq. wp_pures.
  simpl. by destruct (create_exists _ _ _ _ _ _ Hh Heq Hs) as (-> & -> & _).
Qed.

(** An answer that leaves the buffer and the length as they were, as on an
    error, makes [get] read the buffer that nobody wrote. *)
Lemma get_after_error path z a l :
  zoo_get (c_str path) kGetBufSize (lib z) = (a, l) -> written a = ""%string ->
  buffer_len a = kGetBufSize -> get lens_id path z = Ub "read of indeterminate bytes".
Proof.
  intros Heq Hw Hl. unfold get, zoo, mbind, M_bind. simpl. rewrite Heq, Hl, Hw. reflexivity.
Qed.

End refinement.

(** ** A server in the test: a tree, always connected *)

Module Demo.

Definition ZNONODE : Z := -101.
Definition names_of (m : gmap string string) (path : string) : list string :=
  elements (set_omap (fun key => match Zk.split_path key with
    | Some (p, c) => if decide (p = path) then Some c else None
    | None => None
    end) (dom m) : gset string).

#[export] Instance server : ZkC (gmap string string) := {
  zookeeper_init hosts timeout m := (true, m);
  zookeeper_close m := m;
  zoo_connected m := true;
  zoo_create path data eph m :=
    match m !! path with
    | Some _ => (ZNODEEXISTS, m)
    | None =>
        match Zk.split_path path with
        | Some (parent, _) =>
            if decide (is_Some (m !! parent)) then (ZOK, <[path := data]> m) else (ZERR ZNONODE, m)
        | None => (ZOK, <[path := data]> m)
        end
    end;
  zoo_get path cap m :=
    match m !! path with
    | Some d =>
        let n := Z.to_nat (Z.min cap (Z.of_nat (String.length d))) in
        (mk_get ZOK (Str.substr_to n d) (Z.of_nat n), m)
    | None => (mk_get (ZERR ZNONODE) "" cap, m)
    end;
  zoo_get_children path m :=
    if decide (is_Some (m !! path)) then (ZOK, names_of m path, m) else (ZERR ZNONODE, [], m);
  zoo_wget_children path ctx m :=
    if decide (is_Some (m !! path)) then (ZOK, names_of m path, m) else (ZERR ZNONODE, [], m);
  zoo_delete path m :=
    match m !! path with
    | Some _ => if bool_decide (names_of m path = []) then (ZOK, delete path m) else (ZERR (-111), m)
    | None => (ZERR ZNONODE, m)
    end;
}.

Lemma names_of_spec m path c : c ∈ names_of m path <-> Zk.Tree.has_child m path c.
Proof.
  unfold names_of. rewrite elem_of_elements, elem_of_set_omap. unfold Zk.Tree.has_child. split.
  - intros (key & Hkey & Hs). destruct (Zk.split_path key) as [[p c']|] eqn:Hk; [|done].
    case_decide; [|done]. simplify_eq. apply Zk.split_path_Some in Hk as (-> & ? & ?).
    split_and!; [done..|]. by apply elem_of_dom.
  - intros (Hp & Hc & Hs). exists (Zk.join_path path c). split; [by apply elem_of_dom|].
    rewrite Zk.split_join by done. by rewrite decide_True.
Qed.

#[export] Instance server_ok : ZkCOk (gmap string string).
Proof.
  refine {| tree := fun m => m; healthy := fun _ => True |}.
  - intros path data eph m r m' _ Heq Hn Hp. simpl in Heq. rewrite Hn in Heq. unfold parent_exists in Hp.
    destruct (Zk.split_path path) as [[p c]|]; [rewrite decide_True in Heq by done|]; by simplify_eq.
  - intros path data eph m r m' _ Heq [d Hd]. simpl in Heq. rewrite Hd in Heq. by simplify_eq.
  - intros path cap m a m' d _ Heq Hd Hcap. simpl in Heq. rewrite Hd in Heq. simplify_eq. simpl.
    rewrite Z.min_r, Nat2Z.id by done. by rewrite substr_to_length.
  - intros path m r names m' _ Heq Hs. simpl in Heq. rewrite decide_True in Heq by done. simplify_eq.
    split_and!; [apply NoDup_elements|apply names_of_spec|done..].
  - intros path ctx m r names m' _ Heq Hs. simpl in Heq. rewrite decide_True in Heq by done. by simplify_eq.
  - intros path m r m' _ Heq [d Hd] Hleaf. simpl in Heq. rewrite Hd in Heq.
    rewrite bool_decide_eq_true_2 in Heq; [by simplify_eq|].
    destruct (names_of m path) as [|c l] eqn:Hn; [done|]. destruct (Hleaf c).
    apply names_of_spec. rewrite Hn. by left.
Defined.

Definition client : t (gmap string string) unit := mk "localhost:2181" true [] ∅.
Definition session : list Zk.Tree.op :=
  [Zk.Tree.Create "/rpc" ""; Zk.Tree.Create "/rpc/calc" "";
   Zk.Tree.CreateEphemeral "/rpc/calc/h:1" "3"; Zk.Tree.Get "/rpc/calc/h:1";
   Zk.Tree.GetChildren "/rpc/calc"; Zk.Tree.Remove "/rpc/calc/h:1"].

Lemma session_leaf (m : gmap string string) path : names_of m path = [] -> leaf m path.
Proof. intros Hn c Hc. apply names_of_spec in Hc. rewrite Hn in Hc. by apply not_elem_of_nil in Hc. Qed.

Lemma session_plain : all_plain (tree (lib client)) session.
Proof.
  simpl. split_and!; try reflexivity; try (eexists; reflexivity).
  - eexists. split; [reflexivity|vm_compute; discriminate].
  - apply session_leaf. by vm_compute.
Qed.


(** Where the builds differ.  Registering an endpoint again changes its weight
    in memory, and does nothing on a server; reading a node that is not there
    gives the empty string in memory, and 512 bytes that nobody wrote from a
    server; and only a server refuses a node without a parent. *)
Example builds_differ :
  let again := [Zk.Tree.Create "/n" "1"; Zk.Tree.Create "/n" "2"; Zk.Tree.Get "/n"] in
  (match calls again client with Ret _ as_ => nth_error as_ 2 = Some (Zk.Tree.Data "1") | _ => False end) /\
  (match Zk.calls (C := unit) again Zk.make with
   | Ret _ as_ => nth_error as_ 2 = Some (Zk.Tree.Data "2")
   | _ => False
   end) /\
  get lens_id "/n" client = Ub "read of indeterminate bytes" /\
  (match Zk.get lens_id "/n" (Zk.make (C := unit)) with Ret _ d => d = ""%string | _ => False end) /\
  (match create lens_id "/a/b" "x" client with Ret _ ok => ok = false | _ => False end) /\
  (match Zk.create lens_id Zk.quiet "/a/b" "x" (Zk.make (C := unit)) with Ret _ ok => ok = true | _ => False end).
Proof. by vm_compute. Qed.

End Demo.

End ZkClient.
