(* ===== verification/ServiceRegistry.v ===== *)
(** * The service registry (include/registry/service_registry.h,
      src/registry/service_registry.cpp)

    The registry over the in-memory client: registration, discovery through
    the local cache and the load balancer, and unregistration.  A watcher
    captures the registry and a service name and calls [refresh], so watchers
    are stored as service names. *)

From Stdlib Require Import ZArith Lia Ascii.
From S2P Require Import Prelude CxxString LoadBalancer ZooKeeper.
Import LoadBalancer.
Local Open Scope Z_scope.

Module Registry.

Definition kRootPath : string := "/rpc".

(** The client's operations, for an object of type [K] that is part of a state
    [W].  A callback given to [watch_children] is stored as a service name; the
    first argument of [create] says what running one does, for the build in
    which a creation runs the watchers. *)
Class ZooKeeperClient (K : Type) := {
  create {W} : (string -> string -> M W unit) -> Lens W K -> string -> string -> M W bool;
  create_ephemeral {W} : (string -> string -> M W unit) -> Lens W K -> string -> string -> M W bool;
  get {W} : Lens W K -> string -> M W string;
  get_children {W} : Lens W K -> string -> M W (list string);
  watch_children {W} : Lens W K -> string -> string -> M W bool;
  remove {W} : Lens W K -> string -> M W bool;
}.

(** The build without ZooKeeper. *)
#[export] Instance in_memory : ZooKeeperClient (Zk.t string) := {
  create W fire self := Zk.create self fire;
  create_ephemeral W fire self := Zk.create_ephemeral self fire;
  get W self := Zk.get self;
  get_children W self := Zk.get_children self;
  watch_children W self := Zk.watch_children self;
  remove W self := Zk.remove self;
}.

Section in_memory.
Context {W : Type} (fire : string -> string -> M W unit) (self : Lens W (Zk.t string)).
Lemma create_in_memory : create fire self = Zk.create self fire.
Proof. done. Qed.
Lemma create_ephemeral_in_memory : create_ephemeral fire self = Zk.create_ephemeral self fire.
Proof. done. Qed.
Lemma get_in_memory : get self = Zk.get self.
Proof. done. Qed.
Lemma get_children_in_memory : get_children self = Zk.get_children self.
Proof. done. Qed.
Lemma watch_children_in_memory : watch_children self = Zk.watch_children self.
Proof. done. Qed.
Lemma remove_in_memory : remove self = Zk.remove self.
Proof. done. Qed.
End in_memory.

Create Rewrite HintDb in_memory.
#[export] Hint Rewrite @create_in_memory @create_ephemeral_in_memory @get_in_memory @get_children_in_memory
  @watch_children_in_memory @remove_in_memory : in_memory.

(** The members, and the random engine the balancers draw from. *)
Record t (K G : Type) := mk {
  zk_ : K;
  lb_ : balancer;
  mu_ : bool;
  cache_ : gmap string (list ServiceEndpoint);
  rng : G;
}.
Arguments mk {K G} zk_ lb_ mu_ cache_ rng.
Arguments zk_ {K G} t.
Arguments lb_ {K G} t.
Arguments mu_ {K G} t.
Arguments cache_ {K G} t.
Arguments rng {K G} t.

Definition service_path (service_name : string) : string :=
  (kRootPath +:+ ("/" +:+ service_name))%string.
Definition node_path (service_name host : string) (port : Z) : string :=
  (service_path service_name +:+ ("/" +:+ (host +:+ (":" +:+ Str.to_string port))))%string.

(** The loop body of [refresh] for one child, with the reading of its weight:
    its endpoint, or nothing when the name has no colon.  A weight that is not
    stored leaves the default. *)
Definition parse_child_with {W} (get_weight : M W string) (child : string) : M W (option ServiceEndpoint) :=
  match Str.rfind ":" child with
  | None => mret None
  | Some colon =>
      let host := Str.substr_to colon child in
      p ← Str.stoi (Str.substr_from (S colon) child);
      weight_str ← get_weight;
      if String.eqb weight_str ""
      then mret (Some (mkEndpoint host (u16 p) 1))
      else w ← Str.stoi weight_str; mret (Some (mkEndpoint host (u16 p) w))
  end.

Section code.
Context {K G : Type} `{ZooKeeperClient K} `{engine : Uniform G}.

Definition zk_lens : Lens (t K G) K :=
  mkLens zk_ (fun z r => mk z (lb_ r) (mu_ r) (cache_ r) (rng r)).
Definition mu_lens : Lens (t K G) bool :=
  mkLens mu_ (fun b r => mk (zk_ r) (lb_ r) b (cache_ r) (rng r)).
Definition cache_lens : Lens (t K G) (gmap string (list ServiceEndpoint)) :=
  mkLens cache_ (fun c r => mk (zk_ r) (lb_ r) (mu_ r) c (rng r)).
Definition lb_lens : Lens (t K G) (balancer * G) :=
  mkLens (fun r => (lb_ r, rng r)) (fun p r => mk (zk_ r) p.1 (mu_ r) (cache_ r) p.2).

#[export] Instance zk_lens_ok : LensOk zk_lens.
Proof. split; [by intros ? []|by intros []|by intros ?? []]. Qed.

Definition parse_child (service_name child : string) : M (t K G) (option ServiceEndpoint) :=
  parse_child_with (get zk_lens (service_path service_name +:+ ("/" +:+ child))%string) child.

Fixpoint parse_children (service_name : string) (children : list string)
    (endpoints : list ServiceEndpoint) : M (t K G) (list ServiceEndpoint) :=
  match children with
  | [] => mret endpoints
  | child :: children' =>
      ep ← parse_child service_name child;
      parse_children service_name children'
        (match ep with Some ep => endpoints ++ [ep] | None => endpoints end)
  end.

Definition refresh (service_name : string) : M (t K G) unit :=
  watch_children zk_lens (service_path service_name) service_name ;;
  children ← get_children zk_lens (service_path service_name);
  endpoints ← parse_children service_name children [];
  lock_guard mu_lens (zoom cache_lens (modify (<[service_name := endpoints]>))).

(** A watcher: [\[this, service_name\](const std::string&) { refresh(service_name); }]. *)
Definition fire (service_name path : string) : M (t K G) unit := refresh service_name.

Definition register_service (service_name host : string) (port weight : Z) : M (t K G) bool :=
  create fire zk_lens (service_path service_name) "" ;;
  create_ephemeral fire zk_lens (node_path service_name host port) (Str.to_string weight).

Definition discover (service_name : string) : M (t K G) ServiceEndpoint :=
  endpoints ← lock_guard mu_lens (gets (fun r => default [] (cache_ r !! service_name)));
  endpoints ←
    (if bool_decide (endpoints = []) then
       refresh service_name ;;
       lock_guard mu_lens (
         e ← gets (fun r => default [] (cache_ r !! service_name));
         zoom cache_lens (modify (<[service_name := e]>)) ;;     (* operator[] *)
         mret e)
     else mret endpoints);
  zoom lb_lens (select endpoints).

Definition unregister_service (service_name host : string) (port : Z) : M (t K G) bool :=
  remove zk_lens (node_path service_name host port).

(** [ServiceRegistry(zk_hosts, strategy)]: the members before the body of the
    constructor, with the client [zk] and the engine [g], and the body. *)
Definition make_with (zk : K) (strategy : LBStrategy) (g : G) : t K G :=
  mk zk (make_load_balancer strategy) false ∅ g.
Definition ctor : M (t K G) unit := create fire zk_lens kRootPath "" ;; mret ().

(** Selecting touches only the balancer and the engine. *)
Lemma wpe_select eps (r : t K G) `{!UniformOk G} :
  can_select eps (lb_ r) ->
  wpe (zoom lb_lens (select eps)) r
    (fun r' ep => ep ∈ eps /\ cache_ r' = cache_ r /\ zk_ r' = zk_ r /\ mu_ r' = mu_ r)
    (fun r' e => eps = [] /\ e = runtime_error "no available endpoints").
Proof.
  intros Hok. apply wpe_zoom. eapply wpe_mono.
  - apply (select_spec eps (lb_ r) (rng r) Hok).
  - intros s' ep [Hin _]. by split_and!.
  - naive_solver.
Qed.

End code.

(** ** The registry over the in-memory client *)

Section registry.
Context {G : Type} `{Uniform G}.
Abbreviation registry := (t (Zk.t string) G).
Implicit Types (r : registry).

Definition make (strategy : LBStrategy) (g : G) : registry := make_with Zk.make strategy g.

(** ** Paths of the registry *)

Definition child_name (host : string) (port : Z) : string :=
  (host +:+ (":" +:+ Str.to_string port))%string.

Lemma service_path_join s : service_path s = Zk.join_path kRootPath s.
Proof. reflexivity. Qed.

Lemma node_path_join s h p : node_path s h p = Zk.join_path (service_path s) (child_name h p).
Proof. reflexivity. Qed.

Lemma endpoint_child ep : endpoint_to_string ep = child_name (host ep) (port ep).
Proof. reflexivity. Qed.

Lemma service_path_nonempty s : service_path s <> ""%string.
Proof. done. Qed.

Lemma service_path_inj s1 s2 : service_path s1 = service_path s2 -> s1 = s2.
Proof. unfold service_path. by intros ?%Str.append_inj_l%Str.append_inj_l. Qed.

Lemma service_path_not_root s : service_path s <> kRootPath.
Proof.
  unfold service_path. rewrite <- (Str.append_nil kRootPath) at 2. intros H0%Str.append_inj_l. done.
Qed.

Lemma child_name_free h p : Str.free_of "/" h = true -> Str.free_of "/" (child_name h p) = true.
Proof.
  intros Hh. unfold child_name. rewrite !Str.free_of_app, Hh, Str.to_string_no_slash. done.
Qed.

Lemma split_service_path s :
  Str.free_of "/" s = true -> Zk.split_path (service_path s) = Some (kRootPath, s).
Proof. intros Hs. rewrite service_path_join. by apply Zk.split_join. Qed.

Lemma split_node_path s h p :
  Str.free_of "/" h = true ->
  Zk.split_path (node_path s h p) = Some (service_path s, child_name h p).
Proof. intros Hh. rewrite node_path_join. by apply Zk.split_join, child_name_free. Qed.

Lemma node_path_not_service s s' h p :
  Str.free_of "/" s = true -> Str.free_of "/" h = true -> node_path s' h p <> service_path s.
Proof.
  intros Hs Hh Heq. pose proof (split_service_path s Hs) as H1.
  rewrite <- Heq, split_node_path in H1 by done.
  apply (service_path_not_root s'). congruence.
Qed.

Lemma child_name_colon h p : Str.rfind ":" (child_name h p) = Some (String.length h).
Proof. apply (Str.rfind_join ":" h), Str.to_string_no_colon. Qed.

Lemma child_name_host h p : Str.substr_to (String.length h) (child_name h p) = h.
Proof. apply Str.substr_to_join. Qed.

Lemma child_name_port h p : Str.substr_from (S (String.length h)) (child_name h p) = Str.to_string p.
Proof. apply (Str.substr_from_join h ":"). Qed.

Lemma child_name_inj h1 p1 h2 p2 : child_name h1 p1 = child_name h2 p2 -> h1 = h2 /\ p1 = p2.
Proof.
  intros Heq. pose proof (child_name_colon h1 p1) as H1. rewrite Heq, child_name_colon in H1.
  injection H1 as H1. split.
  - by rewrite <- (child_name_host h1 p1), Heq, <- H1, child_name_host.
  - apply Str.to_string_inj. by rewrite <- (child_name_port h1), Heq, <- H1, child_name_port.
Qed.

Lemma node_path_inj s1 h1 p1 s2 h2 p2 :
  Str.free_of "/" h1 = true -> Str.free_of "/" h2 = true ->
  node_path s1 h1 p1 = node_path s2 h2 p2 -> s1 = s2 /\ h1 = h2 /\ p1 = p2.
Proof.
  intros Hh1 Hh2 Heq. rewrite !node_path_join in Heq.
  apply Zk.join_path_inj in Heq as [Hs Hc]; [|done|done|by apply child_name_free..].
  apply service_path_inj in Hs. apply child_name_inj in Hc as [-> ->]. done.
Qed.

(** ** The directory, as a specification

    The endpoints of a service in the order of their first registration, with
    the weight registered last. *)

Fixpoint upsert (ep : ServiceEndpoint) (l : list ServiceEndpoint) : list ServiceEndpoint :=
  match l with
  | [] => [ep]
  | x :: l' =>
      if decide (host x = host ep /\ port x = port ep) then ep :: l' else x :: upsert ep l'
  end.

Definition registration : Type := string * ServiceEndpoint.

Definition listing (s : string) (regs : list registration) : list ServiceEndpoint :=
  fold_left (fun l reg => if decide (reg.1 = s) then upsert reg.2 l else l) regs [].

(** Names without a slash, a 16-bit port and a weight that is an [int]. *)
Definition valid_endpoint (ep : ServiceEndpoint) : Prop :=
  Str.free_of "/" (host ep) = true /\ 0 <= port ep < 2 ^ 16 /\
  int_min <= weight ep <= int_max.
Definition valid (reg : registration) : Prop :=
  Str.free_of "/" reg.1 = true /\ valid_endpoint reg.2.

Definition register (reg : registration) : M registry unit :=
  register_service reg.1 (host reg.2) (port reg.2) (weight reg.2) ;; mret ().

Lemma upsert_children ep l :
  endpoint_to_string <$> upsert ep l =
    (endpoint_to_string <$> l) ++
    (if decide (endpoint_to_string ep ∈ endpoint_to_string <$> l)
     then [] else [endpoint_to_string ep]).
Proof.
  induction l as [|x l IH]; [done|]. cbn [upsert]. rewrite fmap_cons.
  destruct (decide (host x = host ep /\ port x = port ep)) as [[Hh Hp]|Hne].
  - assert (endpoint_to_string x = endpoint_to_string ep) as ->
      by (by rewrite !endpoint_child, Hh, Hp).
    rewrite fmap_cons. rewrite decide_True by (by left). by rewrite app_nil_r.
  - assert (endpoint_to_string ep <> endpoint_to_string x) as Hne'.
    { rewrite !endpoint_child. intros [? ?]%child_name_inj. naive_solver. }
    rewrite fmap_cons, IH. cbn [app]. f_equal. f_equal.
    destruct (decide (endpoint_to_string ep ∈ endpoint_to_string <$> l)) as [Hin|Hin].
    + by rewrite decide_True by (by right).
    + rewrite decide_False; [done|]. intros [?|?]%elem_of_cons; done.
Qed.

Lemma upsert_elem x ep l :
  NoDup (endpoint_to_string <$> l) -> x ∈ upsert ep l ->
  x = ep \/ x ∈ l /\ endpoint_to_string x <> endpoint_to_string ep.
Proof.
  induction l as [|y l IH]; cbn [upsert].
  - intros _ ->%list_elem_of_singleton. by left.
  - rewrite fmap_cons. intros [Hy Hnd]%NoDup_cons.
    destruct (decide (host y = host ep /\ port y = port ep)) as [[Hh Hp]|Hne].
    + intros [->|Hx]%elem_of_cons; [by left|]. right. split; [by right|]. intros Heq.
      apply Hy. rewrite !endpoint_child in *. rewrite Hh, Hp, <- Heq, <- endpoint_child.
      by apply list_elem_of_fmap_2.
    + intros [->|Hx]%elem_of_cons.
      * right. split; [by left|]. rewrite !endpoint_child. intros [? ?]%child_name_inj. naive_solver.
      * destruct (IH Hnd Hx) as [->|[? ?]]; [by left|]. right. split; [by right|done].
Qed.

Lemma upsert_NoDup ep l :
  NoDup (endpoint_to_string <$> l) -> NoDup (endpoint_to_string <$> upsert ep l).
Proof.
  intros Hnd. rewrite upsert_children. case_decide as Hin; [by rewrite app_nil_r|].
  apply NoDup_app. split_and!; [done| |apply NoDup_singleton].
  intros x Hx ->%list_elem_of_singleton. done.
Qed.

Lemma listing_app s regs reg :
  listing s (regs ++ [reg]) =
    if decide (reg.1 = s) then upsert reg.2 (listing s regs) else listing s regs.
Proof. unfold listing. by rewrite fold_left_app. Qed.

Lemma listing_NoDup s regs : NoDup (endpoint_to_string <$> listing s regs).
Proof.
  induction regs as [|reg regs IH] using rev_ind; [constructor|].
  rewrite listing_app. case_decide; [by apply upsert_NoDup|done].
Qed.

Lemma upsert_Forall (P : ServiceEndpoint -> Prop) ep l :
  P ep -> Forall P l -> Forall P (upsert ep l).
Proof.
  intros Hep. induction 1 as [|x l Hx Hl IH]; cbn [upsert]; [by constructor|].
  case_decide; by constructor.
Qed.

Lemma listing_valid s regs : Forall valid regs -> Forall valid_endpoint (listing s regs).
Proof.
  induction regs as [|reg regs IH] using rev_ind; [constructor|].
  intros [Hregs [Hreg _]%Forall_cons]%Forall_app. rewrite listing_app.
  case_decide; [|by apply IH]. apply upsert_Forall; [apply Hreg|by apply IH].
Qed.

(** The stub holds the directory [regs], and watches at most service paths. *)
Record holds (regs : list registration) (z : Zk.t string) : Prop := {
  holds_mu : Zk.mu z = false;
  holds_kids : forall s, Str.free_of "/" s = true ->
    Zk.kids (service_path s) z = endpoint_to_string <$> listing s regs;
  holds_nodes : forall s ep, Str.free_of "/" s = true -> ep ∈ listing s regs ->
    Zk.nodes z !! node_path s (host ep) (port ep) = Some (Str.to_string (weight ep));
  holds_root : Zk.watchers z !! kRootPath = None;
}.

Lemma holds_create_root z :
  z = Zk.make -> holds [] (Zk.created kRootPath "" z).
Proof.
  intros ->. split; [done| |by intros s ep _ ?%not_elem_of_nil|done].
  intros s Hs. rewrite Zk.kids_created. reflexivity.
Qed.

Lemma holds_create_service regs s z :
  Forall valid regs -> Str.free_of "/" s = true -> holds regs z ->
  holds regs (Zk.created (service_path s) "" z).
Proof.
  intros Hv Hs [Hmu Hk Hn Hr]. split.
  - unfold Zk.created. by repeat case_match.
  - intros s' Hs'. rewrite Zk.kids_created, split_service_path by done.
    rewrite decide_False; [by apply Hk|]. intros [?%service_path_not_root _]. done.
  - intros s' ep Hs' Hep. rewrite Zk.nodes_created. rewrite lookup_insert_ne; [by apply Hn|].
    intros Heq. symmetry in Heq. apply node_path_not_service in Heq; [done..|].
    pose proof (listing_valid s' _ Hv) as Hl. rewrite Forall_forall in Hl. by apply Hl.
  - by rewrite Zk.created_watchers.
Qed.

Lemma holds_create_node regs s ep z :
  Forall valid regs -> Str.free_of "/" s = true -> valid_endpoint ep -> holds regs z ->
  holds (regs ++ [(s, ep)])
    (Zk.created (node_path s (host ep) (port ep)) (Str.to_string (weight ep)) z).
Proof.
  intros Hv Hs Hep [Hmu Hk Hn Hr]. split.
  - unfold Zk.created. by repeat case_match.
  - intros s' Hs'. rewrite Zk.kids_created, split_node_path, listing_app by apply Hep. simpl.
    destruct (decide (s = s')) as [->|Hne].
    + rewrite upsert_children, Hk, <- endpoint_child by done.
      destruct (decide (endpoint_to_string ep ∈ endpoint_to_string <$> listing s' regs)).
      * rewrite decide_False by naive_solver. by rewrite app_nil_r.
      * by rewrite decide_True.
    + rewrite decide_False; [by apply Hk|]. intros [?%service_path_inj _]. congruence.
  - intros s' x Hs' Hx. rewrite Zk.nodes_created, listing_app in *. simpl in Hx.
    assert (forall y, y ∈ listing s' regs -> Str.free_of "/" (host y) = true) as Hfree.
    { intros y Hy. pose proof (listing_valid s' _ Hv) as Hl. rewrite Forall_forall in Hl.
      by apply Hl. }
    destruct (decide (s = s')) as [->|Hne].
    + destruct (upsert_elem _ _ _ (listing_NoDup _ _) Hx) as [->|[Hin Hkey]].
      * by rewrite lookup_insert_eq.
      * rewrite lookup_insert_ne; [by apply Hn|]. intros Heq.
        apply node_path_inj in Heq as (_ & Hh & Hp); [|apply Hep|by apply Hfree].
        apply Hkey. by rewrite !endpoint_child, Hh, Hp.
    + rewrite lookup_insert_ne; [by apply Hn|]. intros Heq.
      apply node_path_inj in Heq as (Hss & _); [done|apply Hep|by apply Hfree].
  - by rewrite Zk.created_watchers.
Qed.

(** ** Registration *)

Definition set_zk (z : Zk.t string) (r : registry) : registry := lset zk_lens z r.

Definition registered (reg : registration) (z : Zk.t string) : Zk.t string :=
  let s := reg.1 in let ep := reg.2 in
  Zk.created (node_path s (host ep) (port ep)) (Str.to_string (weight ep))
    (Zk.created (service_path s) "" z).

Lemma registered_holds regs reg z :
  Forall valid regs -> valid reg -> holds regs z -> holds (regs ++ [reg]) (registered reg z).
Proof.
  intros Hv [Hs Hep] Hz. destruct reg as [s ep].
  apply holds_create_node; [done..|]. by apply holds_create_service.
Qed.

Lemma registered_watchers reg z : Zk.watchers (registered reg z) = Zk.watchers z.
Proof. unfold registered. by rewrite !Zk.created_watchers. Qed.

(** Registering runs no watcher when nobody watches the service, or the
    endpoint is known. *)
Lemma register_eq regs reg r :
  Forall valid regs -> valid reg -> holds regs (zk_ r) ->
  Zk.watchers (zk_ r) !! service_path reg.1 = None ->
  register reg r = Ret (set_zk (registered reg (zk_ r)) r) ().
Proof.
  intros Hv [Hs Hep] Hz Hw. destruct reg as [s ep]. simpl in *.
  pose proof (holds_create_service _ _ _ Hv Hs Hz) as Hz'.
  unfold register, register_service. autorewrite with in_memory.
  unfold Zk.create_ephemeral, mbind, M_bind. simpl.
  rewrite (Zk.create_eq zk_lens).
  2: { apply Hz. }
  2: { unfold Zk.silent. rewrite split_service_path by done. right. apply Hz. }
  rewrite (Zk.create_eq zk_lens); [done| |]; rewrite lens_get_set.
  - apply Hz'.
  - unfold Zk.silent. rewrite split_node_path by apply Hep. right.
    by rewrite Zk.created_watchers.
Qed.

Lemma registers_eq regs r :
  Forall valid regs -> holds [] (zk_ r) -> Zk.watchers (zk_ r) = ∅ ->
  exists z, for_each register regs r = Ret (set_zk z r) () /\ holds regs z /\ Zk.watchers z = ∅.
Proof.
  intros Hv Hz Hw.
  assert (forall todo done z, regs = done ++ todo -> holds done z -> Zk.watchers z = ∅ ->
    exists z', for_each register todo (set_zk z r) = Ret (set_zk z' r) () /\
      holds regs z' /\ Zk.watchers z' = ∅) as Hgen.
  { induction todo as [|reg todo IH]; intros dn z Heq Hz1 Hw1.
    - exists z. split; [done|]. rewrite Heq, app_nil_r. done.
    - rewrite Heq in Hv. apply Forall_app in Hv as [Hdone [Hreg _]%Forall_cons].
      destruct (IH (dn ++ [reg]) (registered reg z)) as (z' & Hrun & Hz' & Hw').
      + by rewrite <- app_assoc.
      + by apply registered_holds.
      + by rewrite registered_watchers.
      + exists z'. split; [|done]. cbn [for_each]. unfold mbind, M_bind.
        rewrite (register_eq dn) by (done || by simpl; rewrite Hw1, lookup_empty). exact Hrun. }
  destruct (Hgen regs [] (zk_ r) eq_refl Hz Hw) as (z & Hrun & ?). exists z. split; [|done].
  rewrite <- Hrun. unfold set_zk. change (zk_ r) with (lget zk_lens r). by rewrite lens_set_get.
Qed.

(** ** Refresh *)

Lemma parse_child_eq s ep r :
  valid_endpoint ep -> Zk.mu (zk_ r) = false ->
  Zk.nodes (zk_ r) !! node_path s (host ep) (port ep) = Some (Str.to_string (weight ep)) ->
  parse_child s (endpoint_to_string ep) r = Ret r (Some ep).
Proof.
  intros (Hh & Hp & Hwt) Hmu Hnode. unfold parse_child, parse_child_with. autorewrite with in_memory. rewrite endpoint_child.
  rewrite child_name_colon, child_name_host, child_name_port. unfold mbind, M_bind.
  rewrite Str.stoi_to_string by (unfold int_min, int_max in *; lia).
  rewrite (Zk.get_eq zk_lens) by done. simpl.
  change (service_path s +:+ ("/" +:+ child_name (host ep) (port ep)))%string
    with (node_path s (host ep) (port ep)).
  rewrite Hnode. simpl.
  destruct (String.eqb_spec (Str.to_string (weight ep)) "") as [He|_].
  - exfalso. pose proof (Str.read_to_string (weight ep)) as Hread. rewrite He in Hread. done.
  - rewrite Str.stoi_to_string by done. rewrite u16_small by done. by destruct ep.
Qed.

Lemma parse_children_eq s eps acc r :
  Forall valid_endpoint eps -> Zk.mu (zk_ r) = false ->
  (forall ep, ep ∈ eps ->
     Zk.nodes (zk_ r) !! node_path s (host ep) (port ep) = Some (Str.to_string (weight ep))) ->
  parse_children s (endpoint_to_string <$> eps) acc r = Ret r (acc ++ eps).
Proof.
  intros Hv Hmu. revert acc. induction Hv as [|ep eps Hep Hv IH]; intros acc Hn.
  - by rewrite app_nil_r.
  - rewrite fmap_cons. cbn [parse_children]. unfold mbind, M_bind.
    rewrite parse_child_eq by (done || apply Hn; by left).
    rewrite IH by (intros ??; apply Hn; by right). by rewrite <- app_assoc.
Qed.

(** The registry after a refresh of [s] that found [eps]. *)
Definition refreshed (s : string) (eps : list ServiceEndpoint) (r : registry) : registry :=
  mk (Zk.set_watchers (<[service_path s := s]> (Zk.watchers (zk_ r))) (zk_ r)) (lb_ r) false
    (<[s := eps]> (cache_ r)) (rng r).

Lemma refresh_eq regs s r :
  Forall valid regs -> Str.free_of "/" s = true -> holds regs (zk_ r) -> mu_ r = false ->
  refresh s r = Ret (refreshed s (listing s regs) r) ().
Proof.
  intros Hv Hs Hz Hmu. unfold refresh. autorewrite with in_memory. unfold mbind, M_bind.
  rewrite (Zk.watch_children_eq zk_lens) by apply Hz.
  set (r1 := lset zk_lens _ r).
  assert (Zk.mu (zk_ r1) = false) as Hmu1 by apply Hz.
  rewrite (Zk.get_children_eq zk_lens) by done.
  assert (Zk.kids (service_path s) (lget zk_lens r1) = endpoint_to_string <$> listing s regs)
    as -> by by apply Hz.
  rewrite parse_children_eq; [|by apply listing_valid|done|by intros ep; apply Hz].
  unfold lock_guard. simpl. rewrite Hmu. reflexivity.
Qed.

Lemma read_cache_eq {X} (f : gmap string (list ServiceEndpoint) -> X) r :
  mu_ r = false -> lock_guard mu_lens (gets (fun r => f (cache_ r))) r = Ret r (f (cache_ r)).
Proof. intros Hmu. unfold lock_guard. simpl. rewrite Hmu. destruct r; simpl in *. by subst. Qed.

Lemma discover_refresh_eq regs s r :
  Forall valid regs -> Str.free_of "/" s = true -> holds regs (zk_ r) -> mu_ r = false ->
  default [] (cache_ r !! s) = [] ->
  discover s r = zoom lb_lens (select (listing s regs)) (refreshed s (listing s regs) r).
Proof.
  intros Hv Hs Hz Hmu Hc. unfold discover. unfold mbind, M_bind.
  rewrite (read_cache_eq (fun c => default [] (c !! s))), Hc by done. simpl.
  rewrite (refresh_eq regs) by done. unfold lock_guard. simpl.
  rewrite lookup_insert_eq. simpl. unfold refreshed. by rewrite insert_insert_eq.
Qed.

Lemma discover_cached_eq s eps r :
  mu_ r = false -> cache_ r !! s = Some eps -> eps <> [] ->
  discover s r = zoom lb_lens (select eps) r.
Proof.
  intros Hmu Hc Hne. unfold discover. unfold mbind, M_bind.
  rewrite (read_cache_eq (fun c => default [] (c !! s))), Hc by done. simpl.
  by rewrite bool_decide_eq_false_2.
Qed.

(** The constructor and some registrations. *)
Definition setup (regs : list registration) : M registry unit := ctor ;; for_each register regs.

Lemma setup_eq strategy g regs :
  Forall valid regs ->
  exists z, setup regs (make strategy g) = Ret (set_zk z (make strategy g)) () /\
    holds regs z /\ Zk.watchers z = ∅.
Proof.
  intros Hv. unfold setup, ctor. autorewrite with in_memory. unfold mbind, M_bind.
  rewrite (Zk.create_eq zk_lens); [|done|done].
  set (r1 := lset zk_lens _ _).
  destruct (registers_eq regs r1 Hv) as (z & Hrun & Hz & Hw).
  { by apply holds_create_root. }
  { done. }
  exists z. split; [exact Hrun|done].
Qed.

(** C30. What is registered is discovered: after the constructor and any
    registrations with slash-free names, 16-bit ports and int weights,
    [discover s] answers with one of the endpoints registered for [s], with
    its host, port and last weight intact through their textual form in the
    tree, and caches exactly the list of them; it throws "no available
    endpoints" only for a service nobody registered. *)
Theorem discover_registered `{!UniformOk G} strategy g regs s
    (Hv : Forall valid regs) (Hs : Str.free_of "/" s = true)
    (Hsel : can_select (listing s regs) (make_load_balancer strategy)) :
  wpe (setup regs ;; discover s) (make strategy g)
    (fun r ep => ep ∈ listing s regs /\ cache_ r !! s = Some (listing s regs))
    (fun r e => listing s regs = [] /\ e = runtime_error "no available endpoints").
Proof.
  destruct (setup_eq strategy g regs Hv) as (z & Hrun & Hz & Hw).
  apply wpe_bind. unfold wpe at 1. rewrite Hrun.
  unfold wpe. rewrite (discover_refresh_eq regs) by done.
  eapply wpe_mono; [by apply wpe_select| |done].
  intros r ep (Hin & Hc & _). split; [done|]. rewrite Hc. apply lookup_insert_eq.
Qed.

(** C33. Once a service was discovered its path is watched, and registering a
    further endpoint for it from this process never returns: the stub runs the
    watcher inside [create] with its mutex held, and the watcher's [refresh]
    locks that mutex again. *)
Theorem register_after_discover_deadlocks `{!UniformOk G} strategy g regs s ep
    (Hv : Forall valid regs) (Hs : Str.free_of "/" s = true) (Hep : valid_endpoint ep)
    (Hne : listing s regs <> [])
    (Hsel : can_select (listing s regs) (make_load_balancer strategy))
    (Hnew : endpoint_to_string ep ∉ endpoint_to_string <$> listing s regs) :
  (setup regs ;; discover s ;; register (s, ep)) (make strategy g)
    = Ub "deadlock: the mutex is already held".
Proof.
  destruct (setup_eq strategy g regs Hv) as (z & Hrun & Hz & Hw).
  unfold mbind at 1, M_bind. rewrite Hrun.
  unfold mbind at 1, M_bind. rewrite (discover_refresh_eq regs) by done.
  pose proof (wpe_select (listing s regs)
    (refreshed s (listing s regs) (set_zk z (make strategy g))) Hsel) as Hd.
  unfold wpe in Hd.
  destruct (zoom lb_lens _ _) as [r a|r e| |]; [|by destruct Hd|done..].
  destruct Hd as (_ & _ & Hzk & _).
  unfold register, register_service. autorewrite with in_memory.
  unfold Zk.create_ephemeral, mbind, M_bind. simpl.
  rewrite (Zk.create_eq zk_lens).
  2: { simpl. rewrite Hzk. apply Hz. }
  2: { unfold Zk.silent. rewrite split_service_path by done. right. simpl. rewrite Hzk. simpl.
       rewrite lookup_insert_ne by apply service_path_not_root. apply Hz. }
  erewrite (Zk.create_fires zk_lens); [done| |by apply split_node_path, Hep| | |].
  - rewrite lens_get_set. rewrite Zk.created_mu. simpl. rewrite Hzk. apply Hz.
  - rewrite lens_get_set, Zk.kids_created, split_service_path by done.
    rewrite decide_False by (by intros [?%service_path_not_root _]).
    simpl. rewrite Hzk. change (child_name (host ep) (port ep)) with (endpoint_to_string ep).
    pose proof (holds_kids _ _ Hz s Hs) as Hk. unfold Zk.kids in *. simpl in *. by rewrite Hk.
  - rewrite lens_get_set, Zk.created_watchers. simpl. rewrite Hzk. apply lookup_insert_eq.
  - intros w' Hmu'. unfold fire, refresh. autorewrite with in_memory. unfold Zk.watch_children, mbind, M_bind, lock_guard.
    simpl. simpl in Hmu'. by rewrite Hmu'.
Qed.

(** The cache outlives an unregistration: removing a node runs no watcher,
    so after [unregister_service] took an endpoint out of the tree, [discover]
    still selects from the cached list that contains it. *)
Theorem stale_after_unregister s ep eps r
    (Hmu : mu_ r = false) (Hzk : Zk.inv (zk_ r)) (Hep : valid_endpoint ep)
    (Hcache : cache_ r !! s = Some eps) (Hin : ep ∈ eps) :
  wp (unregister_service s (host ep) (port ep)) r (fun r' _ =>
    (endpoint_to_string ep ∉ Zk.kids (service_path s) (zk_ r')) /\
    Zk.nodes (zk_ r') !! node_path s (host ep) (port ep) = None /\
    discover s r' = zoom lb_lens (select eps) r').
Proof.
  apply wp_ret_inv. do 2 eexists. split.
  { apply (Zk.remove_eq zk_lens). apply Hzk. }
  simpl. rewrite Zk.removed_nodes, lookup_delete_eq.
  pose proof (Zk.inv_removed (node_path s (host ep) (port ep)) _ Hzk) as [_ Hk _].
  split_and!; [|done|].
  - rewrite Hk. intros (_ & _ & [d Hd]). rewrite Zk.removed_nodes in Hd.
    change (Zk.join_path (service_path s) (endpoint_to_string ep))
      with (node_path s (host ep) (port ep)) in Hd.
    by rewrite lookup_delete_eq in Hd.
  - apply discover_cached_eq; [done..|]. intros ->. by apply not_elem_of_nil in Hin.
Qed.

End registry.

Definition example_regs : list registration :=
  [("calc"%string, heavy); ("hello"%string, third); ("calc"%string, light)].

Lemma example_valid : Forall valid example_regs.
Proof. repeat constructor; vm_compute; discriminate. Qed.

Lemma discover_registered_witness :
  wpe (setup example_regs ;; discover (engine := scripted) "calc")
    (make Weighted 3)
    (fun r ep => ep ∈ [heavy; light] /\ cache_ r !! "calc"%string = Some [heavy; light])
    (fun r e => [heavy; light] = [] /\ e = runtime_error "no available endpoints").
Proof.
  apply (discover_registered (UniformOk0 := scripted_ok) Weighted 3 example_regs "calc").
  - apply example_valid.
  - reflexivity.
  - split; [repeat constructor; vm_compute; discriminate|].
    split; [reflexivity|vm_compute; discriminate].
Defined.

Lemma register_after_discover_deadlocks_witness :
  (setup example_regs ;; discover (engine := scripted) "calc" ;;
   register ("calc"%string, third)) (make RoundRobin 0)
    = Ub "deadlock: the mutex is already held".
Proof.
  apply (register_after_discover_deadlocks (UniformOk0 := scripted_ok)
    RoundRobin 0 example_regs "calc" third).
  - apply example_valid.
  - reflexivity.
  - repeat constructor; vm_compute; discriminate.
  - discriminate.
  - vm_compute. discriminate.
  - vm_compute. intros H. inversion H as [|? ? ? H1]; subst.
    inversion H1 as [|? ? ? H2]; subst. inversion H2.
Defined.

Lemma stale_after_unregister_witness :
  let r := refreshed (G := Z) "calc" [heavy] (set_zk (Zk.created (node_path "calc" "10.0.0.1" 8080) "3"
    Zk.make) (make RoundRobin 0)) in
  wp (unregister_service "calc" "10.0.0.1" 8080) r (fun r' _ =>
    (endpoint_to_string heavy ∉ Zk.kids (service_path "calc") (zk_ r')) /\
    Zk.nodes (zk_ r') !! node_path "calc" "10.0.0.1" 8080 = None /\
    discover (engine := scripted) "calc" r' = zoom lb_lens (select (H := scripted) [heavy]) r').
Proof.
  intros r. apply (stale_after_unregister (H := scripted) "calc" heavy [heavy] r).
  - reflexivity.
  - destruct (Zk.inv_created (C := string) (node_path "calc" "10.0.0.1" 8080) "3" Zk.make Zk.zk_inv_make).
    split; assumption.
  - repeat constructor; vm_compute; discriminate.
  - reflexivity.
  - left.
Defined.

End Registry.
