(* ===== verification/RegistryTyping.v ===== *)
(** * What the registry's values are (src/registry/service_registry.cpp)

    The types of the code as an invariant of a whole run, with no assumption on
    what is in the tree: names without a colon, ports and weights that are no
    numbers or do not fit, children that other programs created.  An operation
    returns, or throws one of the exceptions named here, and leaves a registry whose
    cache holds [uint16_t] ports and [int] weights, whose mutexes are free,
    whose balancer keeps its strategy and whose watchers watch the path of
    their service. *)

From Stdlib Require Import ZArith Lia.
From S2P Require Import Prelude CxxString LoadBalancer ZooKeeper ServiceRegistry.
Import LoadBalancer.
Local Open Scope Z_scope.

Module RegistryTyping.
Import Registry.

(** ** Types *)

Definition endpoint_typed (ep : ServiceEndpoint) : Prop :=
  0 <= port ep < 2 ^ 16 /\ int_min <= weight ep <= int_max.

(** [counter_] is a [size_t], [virtual_nodes_] an [int]. *)
Definition balancer_typed (strategy : LBStrategy) (b : balancer) : Prop :=
  match strategy, b with
  | Random, RandomLoadBalancer | Weighted, WeightedLoadBalancer => True
  | RoundRobin, RoundRobinLoadBalancer c => 0 <= c < 2 ^ 64
  | ConsistentHash, ConsistentHashLoadBalancer vn _ => int_min <= vn <= int_max
  | _, _ => False
  end.

(** What [std::stoi] throws. *)
Definition stoi_throws (e : exn) : Prop := e = invalid_argument "stoi" \/ e = out_of_range "stoi".

Section typing.
Context {G : Type} `{Uniform G}.
Abbreviation registry := (t (Zk.t string) G).
Implicit Types (r : registry) (ep : ServiceEndpoint).

Record typed (strategy : LBStrategy) r : Prop := {
  ty_mu : mu_ r = false;
  ty_zk : Zk.mu (zk_ r) = false;
  ty_cache : forall s eps, cache_ r !! s = Some eps -> Forall endpoint_typed eps;
  ty_lb : balancer_typed strategy (lb_ r);
  ty_watch : forall path s, Zk.watchers (zk_ r) !! path = Some s -> path = service_path s;
}.

(** ** Operations *)

Inductive op :=
| RegisterService (service_name host : string) (port weight : Z)
| Discover (service_name : string)
| UnregisterService (service_name host : string) (port : Z).

Inductive result := Bool (b : bool) | Endpoint (ep : ServiceEndpoint).
Definition result_typed (x : result) : Prop :=
  match x with Bool _ => True | Endpoint ep => endpoint_typed ep end.

Definition run_op (o : op) : M registry result :=
  match o with
  | RegisterService s h p w => b ← register_service s h p w; mret (Bool b)
  | Discover s => ep ← discover s; mret (Endpoint ep)
  | UnregisterService s h p => b ← unregister_service s h p; mret (Bool b)
  end.

(** ** Parsing *)

Lemma stoi_cases {S} text (s : S) :
  (exists z, Str.stoi text s = Ret s z /\ int_min <= z <= int_max) \/
  (exists e, Str.stoi text s = Throw s e /\ stoi_throws e).
Proof.
  unfold Str.stoi. destruct (Str.read_int text) as [z|]; [|right; eexists; split; [done|by left]].
  destruct (Z.leb_spec int_min z), (Z.leb_spec z int_max); simpl;
    first [left; by exists z | right; eexists; split; [done|by right]].
Qed.

Lemma u16_typed z : 0 <= u16 z < 2 ^ 16.
Proof. apply Z.mod_pos_bound. lia. Qed.

Lemma parse_child_cases s child r :
  Zk.mu (zk_ r) = false ->
  (exists o, parse_child s child r = Ret r o /\ forall ep, o = Some ep -> endpoint_typed ep) \/
  (exists e, parse_child s child r = Throw r e /\ stoi_throws e).
Proof.
  intros Hmu. unfold parse_child, parse_child_with. autorewrite with in_memory. destruct (Str.rfind _ child) as [colon|]; [|left; by eexists].
  unfold mbind, M_bind.
  destruct (stoi_cases (Str.substr_from (S colon) child) r) as [(p & -> & _)|(e & -> & He)];
    [|right; by exists e].
  rewrite (Zk.get_eq zk_lens) by done. case_match.
  - left. eexists. split; [done|]. intros ep [= <-]. split; [apply u16_typed|]. simpl. unfold int_min, int_max. lia.
  - destruct (stoi_cases (default ""%string (Zk.nodes (lget zk_lens r) !!
      (service_path s +:+ ("/" +:+ child))%string)) r) as [(w & -> & Hw)|(e & -> & He)]; [left|right; by exists e].
    eexists. split; [done|]. intros ep [= <-]. split; [apply u16_typed|done].
Qed.

Lemma parse_children_cases s children eps r :
  Zk.mu (zk_ r) = false -> Forall endpoint_typed eps ->
  (exists eps', parse_children s children eps r = Ret r eps' /\ Forall endpoint_typed eps') \/
  (exists e, parse_children s children eps r = Throw r e /\ stoi_throws e).
Proof.
  intros Hmu. revert eps. induction children as [|child children IH]; intros eps Heps; simpl.
  - left. by exists eps.
  - unfold mbind, M_bind.
    destruct (parse_child_cases s child r Hmu) as [([ep|] & -> & Hep)|(e & -> & He)]; [|by apply IH|right; by exists e].
    apply IH. apply Forall_app. split; [done|]. apply Forall_singleton. by apply Hep.
Qed.

(** ** Refresh *)

Lemma refresh_typed strategy s r :
  typed strategy r ->
  wpe (refresh s) r (fun r' _ => typed strategy r') (fun r' e => typed strategy r' /\ stoi_throws e).
Proof.
  intros [Hmu Hzk Hc Hlb Hw]. unfold refresh. autorewrite with in_memory. unfold mbind, M_bind, wpe.
  rewrite (Zk.watch_children_eq zk_lens) by done. set (r1 := lset zk_lens _ r).
  assert (typed strategy r1) as Ht1.
  { split; [done..|]. simpl. intros path s' [[<- <-]|[_ Hp]]%lookup_insert_Some; [done|by apply Hw]. }
  rewrite (Zk.get_children_eq zk_lens) by done.
  destruct (parse_children_cases s (Zk.kids (service_path s) (lget zk_lens r1)) [] r1)
    as [(eps & -> & Heps)|(e & -> & He)]; [done|by constructor| |done].
  unfold lock_guard. simpl. rewrite Hmu. simpl. destruct Ht1 as [_ Hzk1 _ _ Hw1].
  split; [done..| |done|done]. simpl. intros s' eps' [[<- <-]|[_ Hs']]%lookup_insert_Some; [done|by apply (Hc s')].
Qed.

(** A refresh that a watcher runs under the tree's mutex never ends. *)
Lemma fire_deadlocks s path r :
  Zk.mu (zk_ r) = true -> fire s path r = Ub "deadlock: the mutex is already held".
Proof.
  intros Hmu. unfold fire, refresh. autorewrite with in_memory. unfold Zk.watch_children, mbind, M_bind, lock_guard. simpl. by rewrite Hmu.
Qed.

Lemma create_typed strategy path data r :
  typed strategy r ->
  (exists r', Zk.create zk_lens fire path data r = Ret r' true /\ typed strategy r') \/
  Zk.create zk_lens fire path data r = Ub "deadlock: the mutex is already held".
Proof.
  intros [Hmu Hzk Hc Hlb Hw].
  assert (Zk.silent path (zk_ r) \/ exists parent child s, Zk.split_path path = Some (parent, child) /\
    (child ∉ Zk.kids parent (zk_ r)) /\ Zk.watchers (zk_ r) !! parent = Some s) as [Hs|(parent & child & s & Hs & Hk & Hwp)].
  { unfold Zk.silent. destruct (Zk.split_path path) as [[parent child]|]; [|by left].
    destruct (decide (child ∈ Zk.kids parent (zk_ r))); [by left; left|].
    destruct (Zk.watchers (zk_ r) !! parent) as [s|] eqn:Hp; [right|left; by right].
    by exists parent, child, s. }
  - left. eexists. split; [by apply (Zk.create_eq zk_lens)|]. split; simpl; [done| |done|done|].
    + by rewrite Zk.created_mu.
    + rewrite Zk.created_watchers. exact Hw.
  - right. eapply (Zk.create_fires zk_lens); [done|exact Hs|exact Hk|exact Hwp|].
    intros w' Hw'. by apply fire_deadlocks.
Qed.

(** ** Selection *)

Lemma at_index_member {S} (l : list ServiceEndpoint) i (s : S) :
  match at_index l i s with
  | Ret s' ep => s' = s /\ ep ∈ l
  | Ub _ => True
  | _ => False
  end.
Proof.
  unfold at_index. destruct (0 <=? i); [|done]. destruct (l !! Z.to_nat i) as [ep|] eqn:Hl; [|done].
  split; [done|]. by eapply list_elem_of_lookup_2.
Qed.

Lemma total_weight_stays {S} l total (s : S) :
  match total_weight l total s with Ret s' _ => s' = s | Ub _ => True | _ => False end.
Proof.
  revert total. induction l as [|ep l IH]; intros total; simpl; [done|].
  unfold mbind, M_bind, int_op. destruct (_ && _); [apply IH|done].
Qed.

Lemma weighted_pick_member {S} l rr back (s : S) :
  match weighted_pick l rr back s with Ret s' ep => s' = s /\ (ep ∈ l \/ ep = back) | Ub _ => True | _ => False end.
Proof.
  revert rr. induction l as [|ep l IH]; intros rr; simpl; [by split; [|right]|].
  unfold mbind, M_bind, int_op. destruct (_ && _); [|done]. simpl. destruct (_ <? 0); [split; [done|left; left]|].
  specialize (IH (rr - weight ep)). destruct (weighted_pick l _ back s); try done.
  destruct IH as [? [?|?]]; (split; [done|]); [left; by right|by right].
Qed.

(** Whatever the weights and the draws: a selection that ends answers with an
    endpoint of the list, or the list is empty. *)
Lemma select_typed strategy eps b (g : G) :
  balancer_typed strategy b ->
  match select eps (b, g) with
  | Ret s ep => ep ∈ eps /\ balancer_typed strategy s.1
  | Throw s e => s = (b, g) /\ eps = [] /\ e = no_endpoints
  | Ub _ => True
  | OutOfFuel => False
  end.
Proof.
  intros Hb. unfold select. destruct b as [|c| |vn key]; unfold zoom, on_member; cbn [fst snd lget lset lens_snd].
  - unfold random_select. case_bool_decide; [done|]. unfold mbind, M_bind, draw.
    destruct (_ <=? _); [|done].
    pose proof (at_index_member eps (uniform 0 (zlen eps - 1) g).1 (uniform 0 (zlen eps - 1) g).2) as Hi.
    destruct (at_index eps _ _) as [s ep|s e|w|]; naive_solver.
  - unfold round_robin_select. case_bool_decide; [by destruct strategy|]. unfold mbind, M_bind, gets, modify.
    pose proof (at_index_member eps (c mod zlen eps) (u64 (c + 1))) as Hi. simpl.
    destruct (at_index eps (c mod zlen eps) _) as [s ep|s e|w|]; try done.
    destruct Hi as [-> Hi]. split; [done|]. destruct strategy; try done. simpl. apply Z.mod_pos_bound. lia.
  - unfold weighted_select. destruct (last eps) as [back|] eqn:Hl; [|by apply last_None in Hl].
    unfold mbind, M_bind. pose proof (total_weight_stays eps 0 g) as Ht.
    destruct (total_weight eps 0 g) as [g' total|g' e|w|]; [|done..]. unfold int_op, draw.
    destruct (_ && _); [|done]. simpl. destruct (0 <=? total - 1); [|done].
    pose proof (weighted_pick_member eps (uniform 0 (total - 1) g').1 back (uniform 0 (total - 1) g').2) as Hp.
    destruct (weighted_pick eps _ back _) as [s ep|s e|w|]; try done. destruct Hp as [_ [? | -> ]]; (split; [|done]); [done|].
    rewrite last_lookup in Hl. by eapply list_elem_of_lookup_2.
  - unfold consistent_hash_select. case_bool_decide; [by destruct strategy|].
    unfold mbind, M_bind, gets. simpl.
    destruct (Ring.successor _ _) as [[k ep]|] eqn:Hr; [|done].
    apply Ring.successor_sound in Hr as [_ Hr]. split; [by apply build_ring_member in Hr as [? _]|done].
Qed.

(** ** Runs *)

(** A program that catches what an operation throws and goes on. *)
Definition attempt (o : op) : M registry (result + exn) := fun r =>
  match run_op o r with
  | Ret r' x => Ret r' (inl x)
  | Throw r' e => Ret r' (inr e)
  | Ub why => Ub why
  | OutOfFuel => OutOfFuel
  end.
Fixpoint run (ops : list op) : M registry (list (result + exn)) :=
  match ops with
  | [] => mret []
  | o :: ops' => x ← attempt o; xs ← run ops'; mret (x :: xs)
  end.

(** The answers of each operation: only [discover] throws. *)
Definition answer_typed (o : op) (x : result + exn) : Prop :=
  match o, x with
  | Discover _, inl (Endpoint ep) => endpoint_typed ep
  | Discover _, inr e => stoi_throws e \/ e = no_endpoints
  | RegisterService _ _ _ _, inl (Bool b) | UnregisterService _ _ _, inl (Bool b) => b = true
  | _, _ => False
  end.

(** The operations that can go wrong: a registration under a watched path
    deadlocks, and a selection may have an empty range or overflow. *)
Definition may_go_wrong (o : op) (why : string) : Prop :=
  match o with
  | RegisterService _ _ _ _ => why = "deadlock: the mutex is already held"%string
  | Discover _ => True
  | UnregisterService _ _ _ => False
  end.

Lemma select_step strategy eps r :
  typed strategy r -> Forall endpoint_typed eps ->
  match zoom lb_lens (select eps) r with
  | Ret r' ep => typed strategy r' /\ endpoint_typed ep
  | Throw r' e => typed strategy r' /\ e = no_endpoints
  | Ub _ => True
  | OutOfFuel => False
  end.
Proof.
  intros [Hmu Hzk Hc Hlb Hw] Heps. unfold zoom. simpl.
  pose proof (select_typed strategy eps (lb_ r) (rng r) Hlb) as Hs.
  destruct (select eps _) as [[b g] ep|[b g] e|w|]; [..|done|done].
  - destruct Hs as [Hin Hb]. split; [by split|]. by apply (proj1 (Forall_forall _ _) Heps).
  - destruct Hs as ([= -> ->] & _ & ->). split; [by split|done].
Qed.

Lemma attempt_typed strategy o r :
  typed strategy r ->
  match attempt o r with
  | Ret r' x => typed strategy r' /\ answer_typed o x
  | Ub why => may_go_wrong o why
  | _ => False
  end.
Proof.
  intros Ht. destruct o as [s host p w|s|s host p]; unfold attempt, run_op, mbind, M_bind.
  - unfold register_service. autorewrite with in_memory. unfold mbind, M_bind, Zk.create_ephemeral.
    destruct (create_typed strategy (service_path s) "" r Ht) as [(r1 & -> & Ht1)| -> ]; [|done].
    destruct (create_typed strategy (node_path s host p) (Str.to_string w) r1 Ht1) as [(r2 & -> & Ht2)| -> ]; done.
  - pose proof Ht as [Hmu Hzk Hc Hlb Hw]. unfold discover, mbind, M_bind.
    rewrite (read_cache_eq (fun c => default [] (c !! s))) by done. case_bool_decide as Hempty.
    + pose proof (refresh_typed strategy s r Ht) as Hr. unfold wpe in Hr.
      destruct (refresh s r) as [r1 []|r1 e| |]; [..|done|done]; [|by destruct Hr; split; [|left]].
      pose proof Hr as [Hmu1 Hzk1 Hc1 Hlb1 Hw1]. unfold lock_guard. simpl. rewrite Hmu1. simpl.
      set (eps := default [] (cache_ r1 !! s)). set (r2 := mk _ _ _ _ _).
      assert (Forall endpoint_typed eps) as Heps.
      { unfold eps. destruct (cache_ r1 !! s) as [l|] eqn:Hl; [by apply (Hc1 s)|by constructor]. }
      assert (typed strategy r2) as Ht2.
      { split; simpl; [done..| |done|done]. intros s' l [[_ <-]|[_ Hl]]%lookup_insert_Some; [done|by apply (Hc1 s')]. }
      pose proof (select_step strategy eps r2 Ht2 Heps) as Hsel.
      destruct (zoom lb_lens _ r2) as [r3 ep|r3 e| |]; naive_solver.
    + assert (Forall endpoint_typed (default [] (cache_ r !! s))) as Heps.
      { destruct (cache_ r !! s) as [l|] eqn:Hl; [by apply (Hc s)|by constructor]. }
      simpl. pose proof (select_step strategy _ r Ht Heps) as Hsel.
      destruct (zoom lb_lens _ r) as [r3 ep|r3 e| |]; naive_solver.
  - unfold unregister_service. autorewrite with in_memory. destruct Ht as [Hmu Hzk Hc Hlb Hw]. rewrite (Zk.remove_eq zk_lens) by done.
    split; [|done]. split; simpl; [done| |done|done|]; unfold Zk.removed; by destruct (Zk.split_path _) as [[??]|].
Qed.

Lemma made_typed strategy (g : G) : typed strategy (make strategy g).
Proof.
  split; simpl; [done|done| | |]; [intros ??; by rewrite lookup_empty| |intros ??; by rewrite lookup_empty].
  destruct strategy; simpl; unfold int_min, int_max; lia || done.
Qed.


End typing.

(** Any node under the path of a service counts as its endpoint: another
    service's name with a slash makes [discover] throw. *)
Example foreign_child_throws :
  match (ctor ;; run (H := scripted) [RegisterService "calc/x:abc" "10.0.0.1" 8080 1; Discover "calc"])
    (make RoundRobin 0) with
  | Ret _ xs => xs = [inl (Bool true); inr (invalid_argument "stoi")]
  | _ => False
  end.
Proof. by vm_compute. Qed.

End RegistryTyping.
