(* ===== verification/RegistryReal.v ===== *)
(** * The registry over a ZooKeeper server (src/registry/service_registry.cpp,
      src/registry/zookeeper_client.cpp built WITH_ZOOKEEPER)

    The code of ServiceRegistry.v on the client of ZkClient.v.  The tree is the
    server's and other programs read it, a node that exists keeps its data, the
    order of children is the server's, and watchers run when the library
    delivers an event, not inside [create].  [real_registry_follows]: what is
    registered is discovered, and a registration after that reaches the cache
    with the event, where the in-memory build deadlocks. *)

From Stdlib Require Import ZArith Lia Ascii.
From S2P Require Import Prelude CxxString LoadBalancer ZooKeeper ZkClient ServiceRegistry.
Import LoadBalancer.
Local Open Scope Z_scope.

Module RegistryReal.
Import Registry.

#[export] Instance with_zookeeper {L} `{ZkClient.ZkC L} : ZooKeeperClient (ZkClient.t L string) := {
  create W fire self := ZkClient.create self;
  create_ephemeral W fire self := ZkClient.create_ephemeral self;
  get W self := ZkClient.get self;
  get_children W self := ZkClient.get_children self;
  watch_children W self := ZkClient.watch_children self;
  remove W self := ZkClient.remove self;
}.

(** ** The directory on a server: the first registration of an endpoint stays *)

Definition add_new (ep : ServiceEndpoint) (l : list ServiceEndpoint) : list ServiceEndpoint :=
  if decide (endpoint_to_string ep ∈ endpoint_to_string <$> l) then l else l ++ [ep].
Definition first_listing (s : string) (regs : list registration) : list ServiceEndpoint :=
  fold_left (fun l reg => if decide (reg.1 = s) then add_new reg.2 l else l) regs [].

(** Names that reach the server whole: without NUL. *)
Definition sendable (reg : registration) : Prop :=
  valid reg /\ Str.free_of "000" reg.1 = true /\ Str.free_of "000" (host reg.2) = true.

Lemma first_listing_app s regs reg :
  first_listing s (regs ++ [reg]) =
    if decide (reg.1 = s) then add_new reg.2 (first_listing s regs) else first_listing s regs.
Proof. unfold first_listing. by rewrite fold_left_app. Qed.

Lemma first_listing_NoDup s regs : NoDup (endpoint_to_string <$> first_listing s regs).
Proof.
  induction regs as [|reg regs IH] using rev_ind; [constructor|]. rewrite first_listing_app.
  unfold add_new. repeat case_decide; [done| |done]. rewrite fmap_app. apply NoDup_app.
  split_and!; [done| |apply NoDup_singleton]. by intros x Hx ->%list_elem_of_singleton.
Qed.

Lemma first_listing_valid s regs : Forall sendable regs -> Forall valid_endpoint (first_listing s regs).
Proof.
  induction regs as [|reg regs IH] using rev_ind; [constructor|].
  intros [Hregs [[[_ Hreg] _] _]%Forall_cons]%Forall_app. rewrite first_listing_app. unfold add_new.
  repeat case_decide; [by apply IH| |by apply IH]. apply Forall_app. split; [by apply IH|by constructor].
Qed.

Lemma first_listing_not_empty s regs : s ∈ regs.*1 -> first_listing s regs <> [].
Proof.
  induction regs as [|reg regs IH] using rev_ind; [by intros ?%elem_of_nil|].
  rewrite fmap_app, elem_of_app, first_listing_app. unfold add_new. intros [Hin|Hin].
  - repeat case_decide; try by apply IH. by intros [_ [=]]%app_nil.
  - apply list_elem_of_singleton in Hin as ->. rewrite decide_True by done. case_decide as Hkey.
    + intros Hnil. rewrite Hnil in Hkey. by apply elem_of_nil in Hkey.
    + by intros [_ [=]]%app_nil.
Qed.

(** ** Paths *)

Lemma c_str_free s : Str.free_of "000" s = true -> ZkClient.path_ok s.
Proof.
  unfold ZkClient.path_ok. induction s as [|a s IH]; cbn [Str.free_of ZkClient.c_str]; [done|].
  intros [Ha%bool_decide_eq_true Hs]%andb_true_iff. rewrite decide_False by done. by rewrite IH.
Qed.

Lemma service_path_sendable s : Str.free_of "000" s = true -> Str.free_of "000" (service_path s) = true.
Proof. intros Hs. unfold service_path. by rewrite !Str.free_of_app, Hs. Qed.

Lemma node_path_sendable s h p :
  Str.free_of "000" s = true -> Str.free_of "000" h = true -> Str.free_of "000" (node_path s h p) = true.
Proof.
  intros Hs Hh. unfold node_path. rewrite !Str.free_of_app, service_path_sendable, Hh, Str.to_string_no_nul by done.
  done.
Qed.

(** ** The server's tree *)

Record holds (regs : list registration) (tr : gmap string string) : Prop := {
  ho_root : is_Some (tr !! kRootPath);
  ho_services : forall reg, reg ∈ regs -> is_Some (tr !! service_path reg.1);
  ho_children : forall s c, Str.free_of "/" s = true ->
    Zk.Tree.has_child tr (service_path s) c <-> c ∈ endpoint_to_string <$> first_listing s regs;
  ho_nodes : forall s ep, Str.free_of "/" s = true -> ep ∈ first_listing s regs ->
    tr !! node_path s (host ep) (port ep) = Some (Str.to_string (weight ep));
}.

(** The tree after a [create]. *)
Definition created (path data : string) (tr : gmap string string) : gmap string string :=
  match tr !! path with Some _ => tr | None => <[path := data]> tr end.

Lemma created_is_Some path data tr p : is_Some (created path data tr !! p) <-> p = path \/ is_Some (tr !! p).
Proof.
  unfold created. destruct (tr !! path) as [d|] eqn:Hp.
  - split; [by right|]. intros [->|?]; [by eexists|done].
  - destruct (decide (p = path)) as [->|Hne]; [rewrite lookup_insert_eq; naive_solver|].
    rewrite lookup_insert_ne by done. naive_solver.
Qed.

Lemma created_keeps path data tr p d : tr !! p = Some d -> created path data tr !! p = Some d.
Proof.
  intros Hp. unfold created. destruct (tr !! path) eqn:Hpath; [done|]. rewrite lookup_insert_ne; [done|congruence].
Qed.

Lemma created_child path data tr parent c :
  Zk.Tree.has_child (created path data tr) parent c <->
  Zk.Tree.has_child tr parent c \/
  parent <> ""%string /\ Str.free_of "/" c = true /\ Zk.join_path parent c = path.
Proof. unfold Zk.Tree.has_child. rewrite created_is_Some. naive_solver. Qed.

Lemma holds_service regs s tr :
  Str.free_of "/" s = true -> holds regs tr -> holds regs (created (service_path s) "" tr).
Proof.
  intros Hs [Hr Hsv Hc Hn]. split.
  - apply created_is_Some. by right.
  - intros reg Hreg. apply created_is_Some. right. by apply Hsv.
  - intros s' c Hs'. rewrite created_child, Hc by done. split; [|by left].
    intros [?|(_ & Hcf & Heq)]; [done|]. rewrite service_path_join in Heq.
    apply Zk.join_path_inj in Heq as [Heq _]; [|done..]. by apply service_path_not_root in Heq.
  - intros s' ep Hs' Hep. by apply created_keeps, Hn.
Qed.

Lemma holds_node regs s ep tr :
  Forall sendable regs -> sendable (s, ep) -> is_Some (tr !! service_path s) -> holds regs tr ->
  holds (regs ++ [(s, ep)]) (created (node_path s (host ep) (port ep)) (Str.to_string (weight ep)) tr).
Proof.
  intros Hv ([Hs Hep] & _ & _) Hpath [Hr Hsv Hc Hn]. simpl in Hs, Hep.
  assert (Str.free_of "/" (endpoint_to_string ep) = true) as Hfree.
  { rewrite endpoint_child. apply child_name_free, Hep. }
  split.
  - apply created_is_Some. by right.
  - intros reg [Hreg|Hreg%list_elem_of_singleton]%elem_of_app; apply created_is_Some; right; [by apply Hsv|by subst reg].
  - intros s' c Hs'. rewrite created_child, Hc, first_listing_app, node_path_join, <- endpoint_child by done. simpl.
    unfold add_new. destruct (decide (s = s')) as [->|Hne].
    + assert (c = endpoint_to_string ep <-> service_path s' <> ""%string /\ Str.free_of "/" c = true /\
        Zk.join_path (service_path s') c = Zk.join_path (service_path s') (endpoint_to_string ep)) as <-.
      { split; [by intros ->|]. intros (_ & Hcf & Heq). by apply Zk.join_path_inj in Heq as [_ ?]. }
      case_decide; [naive_solver|]. rewrite fmap_app, elem_of_app.
      change (endpoint_to_string <$> [ep]) with [endpoint_to_string ep]. rewrite list_elem_of_singleton. naive_solver.
    + split; [|by left]. intros [?|(_ & Hcf & Heq)]; [done|].
      apply Zk.join_path_inj in Heq as [Heq%service_path_inj _]; [congruence|done..].
  - intros s' x Hs'. rewrite first_listing_app. simpl. unfold add_new. repeat case_decide; subst;
      try (intros Hx; by apply created_keeps, Hn).
    intros [Hx|Hx%list_elem_of_singleton]%elem_of_app; [by apply created_keeps, Hn|]. subst x.
    unfold created. destruct (tr !! node_path s' (host ep) (port ep)) eqn:Hnode; [|by rewrite lookup_insert_eq].
    exfalso. match goal with Hnin : _ ∉ _ |- _ => apply Hnin end. apply Hc; [done|].
    split_and!; [done..|]. by eexists.
Qed.

(** ** The code on a healthy session *)

Section with_zookeeper.
Context {L W : Type} `{ZkClient.ZkC L} (fire : string -> string -> M W unit) (self : Lens W (ZkClient.t L string)).
Lemma create_with_zookeeper : create fire self = ZkClient.create self.
Proof. done. Qed.
Lemma create_ephemeral_with_zookeeper : create_ephemeral fire self = ZkClient.create_ephemeral self.
Proof. done. Qed.
Lemma get_with_zookeeper : get self = ZkClient.get self.
Proof. done. Qed.
Lemma get_children_with_zookeeper : get_children self = ZkClient.get_children self.
Proof. done. Qed.
Lemma watch_children_with_zookeeper : watch_children self = ZkClient.watch_children self.
Proof. done. Qed.
End with_zookeeper.

Create Rewrite HintDb with_zookeeper.
#[export] Hint Rewrite @create_with_zookeeper @create_ephemeral_with_zookeeper @get_with_zookeeper
  @get_children_with_zookeeper @watch_children_with_zookeeper : with_zookeeper.

Section registry.
Context {L G : Type} `{ZkClient.ZkCOk L} `{engine : Uniform G}.
Abbreviation registry := (t (ZkClient.t L string) G).
Implicit Types (r : registry).

Definition server_tree r : gmap string string := ZkClient.tree (ZkClient.lib (zk_ r)).
Definition session_ok r : Prop := ZkClient.healthy (ZkClient.lib (zk_ r)).

(** What a client call leaves as it is. *)
Definition same r r' : Prop :=
  lb_ r' = lb_ r /\ mu_ r' = mu_ r /\ cache_ r' = cache_ r /\
  ZkClient.contexts (zk_ r') = ZkClient.contexts (zk_ r).

(** A library call whose effect on the library is [P]. *)
Lemma wp_zoo_registry {X} (f : L -> X * L) r (P : X -> L -> Prop) :
  (forall x l, f (ZkClient.lib (zk_ r)) = (x, l) -> P x l) ->
  wp (ZkClient.zoo zk_lens f) r (fun r' x => P x (ZkClient.lib (zk_ r')) /\ same r r').
Proof. intros HP. apply ZkClient.wp_zoo. intros x l Hf. split; [by apply HP|done]. Qed.

Lemma zoo_create_created path data eph r :
  session_ok r -> ZkClient.path_ok path -> ZkClient.parent_exists (server_tree r) path ->
  wp (ZkClient.zoo zk_lens (ZkClient.zoo_create (ZkClient.c_str path) data eph)) r (fun r' rc =>
    ZkClient.created_ok rc = true /\ same r r' /\ session_ok r' /\
    server_tree r' = created path data (server_tree r)).
Proof.
  intros Hh Hpath Hpar. rewrite Hpath. eapply wp_mono.
  - refine (wp_zoo_registry _ r (fun rc l => ZkClient.created_ok rc = true /\ ZkClient.healthy l /\
      ZkClient.tree l = created path data (server_tree r)) _).
    intros rc l Heq. unfold created. destruct (server_tree r !! path) as [d|] eqn:Hp.
    + by destruct (ZkClient.create_exists _ _ _ _ _ _ Hh Heq (mk_is_Some _ _ Hp)) as (-> & -> & ?).
    + by destruct (ZkClient.create_new _ _ _ _ _ _ Hh Heq Hp Hpar) as (-> & -> & ?).
  - cbv beta. intros r' rc [(? & ? & ?) ?]. by split_and!.
Qed.

Lemma create_wp path data r :
  session_ok r -> ZkClient.path_ok path -> ZkClient.parent_exists (server_tree r) path ->
  wp (ZkClient.create zk_lens path data) r (fun r' ok =>
    ok = true /\ same r r' /\ session_ok r' /\ server_tree r' = created path data (server_tree r)) /\
  wp (ZkClient.create_ephemeral zk_lens path data) r (fun r' ok =>
    ok = true /\ same r r' /\ session_ok r' /\ server_tree r' = created path data (server_tree r)).
Proof.
  intros Hh Hpath Hpar. split; unfold ZkClient.create, ZkClient.create_ephemeral; wp_pures;
    (eapply wp_mono; [by apply zoo_create_created|]); cbv beta; intros r' rc Hr; by wp_pures.
Qed.

(** The registry's directory is on the server. *)
Definition serves (regs : list registration) r : Prop := session_ok r /\ holds regs (server_tree r).

Lemma same_trans r1 r2 r3 : same r1 r2 -> same r2 r3 -> same r1 r3.
Proof. unfold same. naive_solver congruence. Qed.

Definition register_real (reg : registration) : M registry unit :=
  register_service reg.1 (host reg.2) (port reg.2) (weight reg.2) ;; mret ().

(** Registering answers true, runs no watcher, and never blocks. *)
Lemma register_wp regs reg r :
  Forall sendable regs -> sendable reg -> serves regs r ->
  wp (register_service reg.1 (host reg.2) (port reg.2) (weight reg.2)) r (fun r' ok =>
    ok = true /\ same r r' /\ serves (regs ++ [reg]) r').
Proof.
  intros Hv Hreg [Hh Hd]. pose proof Hreg as ([Hs Hep] & Hns & Hnh). destruct reg as [s ep]. simpl in *.
  unfold register_service. autorewrite with with_zookeeper. wp_pures.
  eapply wp_mono; [apply create_wp; [done|by apply c_str_free, service_path_sendable|]|].
  { unfold ZkClient.parent_exists. rewrite split_service_path by done. apply Hd. }
  cbv beta. intros r1 b (_ & Hsame1 & Hh1 & Ht1).
  eapply wp_mono; [apply create_wp; [done|by apply c_str_free, node_path_sendable|]|].
  { unfold ZkClient.parent_exists. rewrite split_node_path by apply Hep. rewrite Ht1. apply created_is_Some. by left. }
  cbv beta. intros r2 ok (-> & Hsame2 & Hh2 & Ht2). split; [done|]. split; [by eapply same_trans|]. split; [done|].
  rewrite Ht2. apply holds_node; [done|done| |].
  - rewrite Ht1. apply created_is_Some. by left.
  - rewrite Ht1. by apply holds_service.
Qed.

(** *** Reading *)

(** A call that only reads. *)
Definition reads r r' : Prop := same r r' /\ session_ok r' /\ server_tree r' = server_tree r.

Lemma get_wp path d r :
  session_ok r -> ZkClient.path_ok path -> server_tree r !! path = Some d ->
  Z.of_nat (String.length d) <= ZkClient.kGetBufSize ->
  wp (ZkClient.get zk_lens path) r (fun r' s => s = d /\ reads r r').
Proof.
  intros Hh Hpath Hd Hlen. unfold ZkClient.get. rewrite Hpath. wp_pures. eapply wp_mono.
  { refine (wp_zoo_registry _ r (fun a l => ZkClient.written a = d /\
      ZkClient.buffer_len a = Z.of_nat (String.length d) /\ ZkClient.tree l = server_tree r /\ ZkClient.healthy l) _).
    intros a l Heq. exact (ZkClient.get_data _ _ _ _ _ _ Hh Heq Hd Hlen). }
  cbv beta. intros r1 a [(-> & -> & Ht & Hh1) Hsame].
  assert ((if 0 <? Z.of_nat (String.length d) then Z.of_nat (String.length d) else 0) = Z.of_nat (String.length d))
    as -> by (destruct (Z.ltb_spec 0 (Z.of_nat (String.length d))); lia).
  apply wp_bind, wp_assert; [by apply Z.leb_le|]. apply wp_bind, wp_assert; [apply Z.leb_refl|]. wp_pures.
  by rewrite Nat2Z.id, ZkClient.substr_to_length.
Qed.

Lemma reads_serves regs r r' : reads r r' -> serves regs r -> serves regs r'.
Proof. intros (_ & Hh & Ht) [_ Hd]. split; [done|]. by rewrite Ht. Qed.
Lemma reads_trans r1 r2 r3 : reads r1 r2 -> reads r2 r3 -> reads r1 r3.
Proof. intros (? & _ & ?) (? & ? & ?). split_and!; [by eapply same_trans|done|congruence]. Qed.

(** An endpoint of the directory whose name can be sent. *)
Definition listed (s : string) (regs : list registration) (ep : ServiceEndpoint) : Prop :=
  ep ∈ first_listing s regs /\ valid_endpoint ep /\ Str.free_of "000" (host ep) = true.

Lemma listed_all s regs : Forall sendable regs -> Forall (listed s regs) (first_listing s regs).
Proof.
  intros Hv. apply Forall_forall. intros ep Hep. split; [done|]. revert Hep.
  induction regs as [|reg regs IH] using rev_ind; [by intros ?%elem_of_nil|].
  apply Forall_app in Hv as [Hregs [([_ ?] & _ & ?) _]%Forall_cons]. rewrite first_listing_app. unfold add_new.
  repeat case_decide; [by apply IH| |by apply IH].
  intros [?|Hx%list_elem_of_singleton]%elem_of_app; [by apply IH|by subst ep].
Qed.

Lemma parse_child_wp regs s ep r :
  serves regs r -> Str.free_of "/" s = true -> Str.free_of "000" s = true -> listed s regs ep ->
  wp (parse_child s (endpoint_to_string ep)) r (fun r' o => o = Some ep /\ reads r r').
Proof.
  intros [Hh Hd] Hs Hns (Hin & (Hhost & Hp & Hwt) & Hnh). unfold parse_child, parse_child_with. autorewrite with with_zookeeper.
  rewrite endpoint_child, child_name_colon, child_name_host, child_name_port. wp_pures.
  unfold wp at 1, wpe. rewrite Str.stoi_to_string by (unfold int_min, int_max in *; lia).
  change (service_path s +:+ ("/" +:+ child_name (host ep) (port ep)))%string with (node_path s (host ep) (port ep)).
  pose proof (Str.to_string_length (weight ep) Hwt) as Hlen. apply wp_bind.
  eapply wp_mono; [apply get_wp; [done|by apply c_str_free, node_path_sendable|by apply (ho_nodes _ _ Hd)|]|].
  { unfold ZkClient.kGetBufSize. lia. }
  cbv beta. intros r1 text [-> Hreads].
  destruct (String.eqb_spec (Str.to_string (weight ep)) "") as [He|_].
  { exfalso. pose proof (Str.read_to_string (weight ep)) as Hread. by rewrite He in Hread. }
  unfold wp, wpe, mbind, M_bind. rewrite Str.stoi_to_string, u16_small by done. split; [by destruct ep|done].
Qed.

Lemma parse_children_wp regs s eps acc r :
  serves regs r -> Str.free_of "/" s = true -> Str.free_of "000" s = true -> Forall (listed s regs) eps ->
  wp (parse_children s (endpoint_to_string <$> eps) acc) r (fun r' l => l = acc ++ eps /\ reads r r').
Proof.
  intros Hr Hs Hns Heps. revert acc r Hr. induction Heps as [|ep eps Hep _ IH]; intros acc r Hr.
  - simpl. wp_pures. rewrite app_nil_r. split; [done|]. by destruct Hr.
  - rewrite fmap_cons. cbn [parse_children]. apply wp_bind.
    eapply wp_mono; [by apply (parse_child_wp regs)|]. cbv beta. intros r1 o [-> Hreads].
    eapply wp_mono; [apply IH; by eapply reads_serves|]. cbv beta. intros r2 l [-> Hreads2].
    rewrite <- app_assoc. split; [done|by eapply reads_trans].
Qed.

(** A refresh sets one more watch, and caches the directory in the server's
    order. *)
Definition refreshed_to (regs : list registration) (s : string) r r' : Prop :=
  serves regs r' /\ mu_ r' = false /\ lb_ r' = lb_ r /\
  ZkClient.contexts (zk_ r') = ZkClient.contexts (zk_ r) ++ [s] /\
  exists eps, eps ≡ₚ first_listing s regs /\ cache_ r' = <[s := eps]> (cache_ r).

Lemma watch_wp regs s r :
  serves regs r -> Str.free_of "000" s = true -> is_Some (server_tree r !! service_path s) ->
  wp (ZkClient.watch_children zk_lens (service_path s) s) r (fun r' ok =>
    ok = true /\ serves regs r' /\ server_tree r' = server_tree r /\
    lb_ r' = lb_ r /\ mu_ r' = mu_ r /\ cache_ r' = cache_ r /\
    ZkClient.contexts (zk_ r') = ZkClient.contexts (zk_ r) ++ [s]).
Proof.
  intros [Hh Hd] Hns Hnode. unfold ZkClient.watch_children. rewrite (c_str_free _ (service_path_sendable s Hns)).
  wp_pures. set (r0 := lset zk_lens _ r). eapply wp_mono.
  { refine (wp_zoo_registry _ r0 (fun a l => a.1 = ZkClient.ZOK /\ ZkClient.tree l = server_tree r /\ ZkClient.healthy l) _).
    intros [rc names] l Heq. exact (ZkClient.watch_set _ _ _ _ _ _ Hh Heq Hnode). }
  cbv beta. intros r1 a [(-> & Ht & Hh1) (Hlb & Hmu & Hc & Hctx)]. wp_pures.
  assert (server_tree r1 = server_tree r) as Ht1 by exact Ht.
  split_and!; [by apply bool_decide_eq_true_2| |done..]. split; [done|]. by rewrite Ht1.
Qed.

Lemma names_are_listed regs s names r :
  holds regs (server_tree r) -> Str.free_of "/" s = true -> NoDup names ->
  (forall c, c ∈ names <-> Zk.Tree.has_child (server_tree r) (service_path s) c) ->
  exists eps, eps ≡ₚ first_listing s regs /\ names = endpoint_to_string <$> eps.
Proof.
  intros Hd Hs Hnd Hnames.
  assert (names ≡ₚ endpoint_to_string <$> first_listing s regs) as Hp.
  { apply NoDup_Permutation; [done|apply first_listing_NoDup|]. intros c. rewrite Hnames. by apply Hd. }
  apply Permutation_map_inv in Hp as (eps & -> & Hp). by exists eps.
Qed.

Lemma refresh_wp regs s r :
  Forall sendable regs -> serves regs r -> mu_ r = false ->
  Str.free_of "/" s = true -> Str.free_of "000" s = true -> s ∈ regs.*1 ->
  wp (refresh s) r (fun r' _ => refreshed_to regs s r r').
Proof.
  intros Hv Hr Hmu Hs Hns ((s' & ep) & -> & Hreg)%list_elem_of_fmap. simpl in *.
  assert (is_Some (server_tree r !! service_path s')) as Hnode by by apply (ho_services _ _ (proj2 Hr) (s', ep)).
  unfold refresh. autorewrite with with_zookeeper. apply wp_bind.
  eapply wp_mono; [by apply (watch_wp regs)|]. cbv beta. intros r1 ok (_ & Hr1 & Ht1 & Hlb1 & Hmu1 & Hc1 & Hctx1).
  rewrite <- Ht1 in Hnode. apply wp_bind. unfold ZkClient.get_children.
  rewrite (c_str_free _ (service_path_sendable s' Hns)). wp_pures. eapply wp_mono.
  { refine (wp_zoo_registry _ r1 (fun a l => (NoDup a.2 /\
      forall c, c ∈ a.2 <-> Zk.Tree.has_child (server_tree r1) (service_path s') c) /\
      ZkClient.tree l = server_tree r1 /\ ZkClient.healthy l) _).
    intros [rc names] l Heq.
    by destruct (ZkClient.children_names _ _ _ _ _ (proj1 Hr1) Heq Hnode) as (? & ? & ? & ?). }
  cbv beta. intros r2 [rc names] [[[Hnd Hnames] [Ht2 Hh2]] Hsame2]. wp_pures. simpl in Hnd, Hnames |- *.
  assert (reads r1 r2) as Hreads by (by split).
  destruct (names_are_listed regs s' names r1 (proj2 Hr1) Hs Hnd Hnames) as (eps & Hperm & ->).
  eapply wp_mono; [apply (parse_children_wp regs); [by eapply reads_serves|done..|]|].
  { rewrite Hperm. by apply listed_all. }
  cbv beta. intros r3 l [-> Hreads3]. destruct (reads_trans _ _ _ Hreads Hreads3) as ((Hlb3 & Hmu3 & Hc3 & Hctx3) & Hh3 & Ht3).
  unfold wp, wpe, lock_guard. simpl. rewrite Hmu3, Hmu1, Hmu. split_and!; simpl.
  - split; [exact Hh3|]. destruct Hr1 as [_ Hd1]. rewrite <- Ht3 in Hd1. exact Hd1.
  - done.
  - congruence.
  - congruence.
  - exists eps. split; [done|]. congruence.
Qed.

(** *** The event *)

(** The library runs the watcher of a watch that was set. *)
Lemma notify_wp regs s ctx r :
  Forall sendable regs -> serves regs r -> mu_ r = false ->
  Str.free_of "/" s = true -> Str.free_of "000" s = true -> s ∈ regs.*1 ->
  ZkClient.contexts (zk_ r) !! ctx = Some s ->
  wp (ZkClient.zk_watcher zk_lens fire ZkClient.ZOO_CHILD_EVENT (Some (service_path s)) (Some ctx)) r
    (fun r' _ => refreshed_to regs s r r').
Proof.
  intros Hv Hr Hmu Hs Hns Hin Hctx. unfold ZkClient.zk_watcher. wp_pures. simpl. rewrite Hctx.
  by apply refresh_wp.
Qed.

Lemma ctor_wp r :
  session_ok r -> (forall s c, ~ Zk.Tree.has_child (server_tree r) (service_path s) c) ->
  wp ctor r (fun r' _ => same r r' /\ serves [] r').
Proof.
  intros Hh Hnone. unfold ctor. autorewrite with with_zookeeper. apply wp_bind.
  eapply wp_mono; [apply create_wp; done|]. cbv beta. intros r1 ok (_ & Hsame & Hh1 & Ht1). wp_pures.
  split; [done|]. split; [done|]. rewrite Ht1. split.
  - apply created_is_Some. by left.
  - by intros reg ?%elem_of_nil.
  - intros s c Hs. rewrite created_child. split; [|by intros ?%elem_of_nil]. intros [Hc|(_ & Hc & Heq)].
    + by apply Hnone in Hc.
    + assert (Zk.split_path kRootPath = None) as Hroot by done.
      rewrite <- Heq, Zk.split_join in Hroot by done. done.
  - by intros s ep _ ?%elem_of_nil.
Qed.

Lemma registers_wp done todo r :
  Forall sendable (done ++ todo) -> serves done r ->
  wp (for_each register_real todo) r (fun r' _ => same r r' /\ serves (done ++ todo) r').
Proof.
  revert done r. induction todo as [|reg todo IH]; intros dn r Hv Hr; cbn [for_each].
  { wp_pures. by rewrite app_nil_r. }
  pose proof Hv as [Hdone [Hreg _]%Forall_cons]%Forall_app. apply wp_bind. unfold register_real at 1. apply wp_bind.
  eapply wp_mono; [by apply (register_wp dn reg)|]. cbv beta. intros r1 ok (_ & Hsame & Hr1). wp_pures.
  rewrite (cons_middle reg), app_assoc in Hv |- *. eapply wp_mono; [by apply IH|]. cbv beta.
  intros r2 _ [Hsame2 Hr2]. split; [by eapply same_trans|done].
Qed.

Section discovery.
Context `{!UniformOk G}.

Lemma discover_wp regs s r :
  Forall sendable regs -> serves regs r -> mu_ r = false -> cache_ r !! s = None ->
  Str.free_of "/" s = true -> Str.free_of "000" s = true -> s ∈ regs.*1 ->
  can_select (first_listing s regs) (lb_ r) ->
  wp (discover s) r (fun r' ep => ep ∈ first_listing s regs /\ serves regs r' /\ mu_ r' = false /\
    ZkClient.contexts (zk_ r') = ZkClient.contexts (zk_ r) ++ [s]).
Proof.
  intros Hv Hr Hmu Hc Hs Hns Hin Hsel. unfold discover. apply wp_bind.
  unfold wp at 1, wpe, lock_guard, gets. simpl. rewrite Hmu, Hc. simpl. apply wp_bind, wp_bind.
  eapply wp_mono; [apply (refresh_wp regs); done|]. cbv beta.
  intros r1 _ (Hr1 & Hmu1 & Hlb1 & Hctx1 & eps & Hp & Hc1). simpl in Hc1, Hlb1, Hctx1.
  unfold wp at 1, wpe, lock_guard. simpl. rewrite Hmu1. simpl. rewrite Hc1, lookup_insert_eq. simpl.
  set (r2 := mk _ _ _ _ _). unfold wp. eapply wpe_mono.
  - apply (wpe_select eps r2). rewrite Hp. simpl. by rewrite Hlb1.
  - cbv beta. intros r3 ep (Hep & _ & Hzk & Hmu3). rewrite Hp in Hep. unfold serves, session_ok, server_tree.
    rewrite Hzk. simpl. split_and!; [done|apply Hr1..|done|done].
  - cbv beta. intros _ e [He _]. rewrite He in Hp. apply Permutation_nil_l in Hp.
    by apply (first_listing_not_empty s regs Hin).
Qed.


End discovery.

End registry.

(** ** An empty server *)

Module Demo.
Import ZkClient.Demo.

Definition session : ZkClient.t (gmap string string) string := ZkClient.mk "localhost:2181" true [] ∅.

Lemma regs_sendable : Forall sendable example_regs.
Proof.
  repeat constructor; vm_compute; discriminate.
Qed.

Lemma third_sendable : sendable ("calc"%string, third).
Proof. repeat constructor; vm_compute; discriminate. Qed.

Lemma nothing_registered s c :
  ~ Zk.Tree.has_child (ZkClient.tree (ZkClient.lib session)) (service_path s) c.
Proof. intros (_ & _ & Hs). change (is_Some ((∅ : gmap string string) !! Zk.join_path (service_path s) c)) in Hs.
  rewrite lookup_empty in Hs. by destruct Hs. Qed.


(** The event makes the difference: until it is delivered the cache is the old
    one. *)
Example cache_waits_for_the_event :
  match (ctor ;; for_each register_real example_regs ;; discover (engine := scripted) "calc" ;;
         register_real ("calc"%string, third)) (make_with session RoundRobin 0) with
  | Ret r _ => length (default [] (cache_ r !! "calc"%string)) = 2%nat
  | _ => False
  end.
Proof. by vm_compute. Qed.

End Demo.

End RegistryReal.
