(* ===== verification/RegistryWatch.v ===== *)
(** * Refreshes at the same time (src/registry/service_registry.cpp:
      [refresh], its watcher and [discover], built WITH_ZOOKEEPER)

    With a server, [refresh] runs on the threads that call [discover] and on the
    library's thread that delivers events, and only its last line holds [mu_].
    A transition system for one service whose node exists: a step is one call
    of the library, or what is done under one hold of [mu_].
    [cache_follows_tree]: the refreshes end, and as long as they store in the
    order in which they read, the cache is then the directory.
    [late_store_is_stale]: nothing in the code keeps that order. *)

From Stdlib Require Import ZArith Lia.
From S2P Require Import Prelude CxxString LoadBalancer ServiceRegistry.
Import LoadBalancer.
Local Open Scope nat_scope.

Module RegistryWatch.

(** Where a [refresh] stands: before [watch_children], before [get_children],
    in the loop with the names left and the endpoints so far, at its end.  The
    number of a read tells the reads apart. *)
Inductive refresh_pc :=
| PWatch
| PRead
| PLoop (number : nat) (todo : list string) (endpoints : list ServiceEndpoint)
| PDone
| PFailed.          (* an exception, or the read of a node that is gone *)

(** The server's children of the service, with their data; the watches that are
    set; the events not yet delivered; the refreshes; [cache_\[service\]], empty
    if it is not there; the number of reads, and of the read that is cached. *)
Record state := mk {
  tree : gmap string string;
  armed : nat;
  events : nat;
  refreshes : list refresh_pc;
  cache : list ServiceEndpoint;
  reads : nat;
  stored : nat;
}.

Definition init (t : gmap string string) : state := mk t 0 0 [] [] 0 0.

Definition set_tree t s := mk t 0 (events s + armed s) (refreshes s) (cache s) (reads s) (stored s).
Definition set_pc i p s := mk (tree s) (armed s) (events s) (<[i := p]> (refreshes s)) (cache s) (reads s) (stored s).
Definition new_refresh e s := mk (tree s) (armed s) e (refreshes s ++ [PWatch]) (cache s) (reads s) (stored s).

(** The loop body for a child whose data is [data]. *)
Definition parse (child data : string) : outcome unit (option ServiceEndpoint) :=
  Registry.parse_child_with (mret data) child ().
Definition entry (child data : string) : option ServiceEndpoint :=
  match parse child data with Ret _ o => o | _ => None end.
Definition readable (t : gmap string string) : Prop :=
  map_Forall (fun c d => match parse c d with Ret _ _ => True | _ => False end) t.

(** The endpoints that the tree holds. *)
Definition directory (t : gmap string string) : list ServiceEndpoint :=
  omap (fun p => entry p.1 p.2) (map_to_list t).

(** The next step of refresh [i]; [names] is the server's answer to
    [get_children]. *)
Definition act (i : nat) (names : list string) (s : state) : option state :=
  match refreshes s !! i with
  | Some PWatch =>
      Some (mk (tree s) (S (armed s)) (events s) (<[i := PRead]> (refreshes s)) (cache s) (reads s) (stored s))
  | Some PRead =>
      if bool_decide (NoDup names /\ list_to_set names = dom (tree s))
      then Some (mk (tree s) (armed s) (events s) (<[i := PLoop (S (reads s)) names []]> (refreshes s)) (cache s)
        (S (reads s)) (stored s))
      else None
  | Some (PLoop n (c :: cs) eps) =>
      match tree s !! c with
      | Some d =>
          match parse c d with
          | Ret _ o => Some (set_pc i (PLoop n cs (match o with Some ep => eps ++ [ep] | None => eps end)) s)
          | _ => Some (set_pc i PFailed s)
          end
      | None => Some (set_pc i PFailed s)
      end
  | Some (PLoop n [] eps) =>
      Some (mk (tree s) (armed s) (events s) (<[i := PDone]> (refreshes s)) eps (reads s) n)
  | _ => None
  end.

(** The children change, and every watch becomes an event; a [discover] that
    finds nothing in the cache begins a refresh; the library delivers an event,
    that is runs a watcher; a refresh goes on. *)
Inductive event :=
| Change (t : gmap string string)
| Begin
| Deliver
| Act (i : nat) (names : list string).

Definition step (e : event) (s : state) : option state :=
  match e with
  | Change t => if bool_decide (dom t <> dom (tree s)) then Some (set_tree t s) else None
  | Begin => if bool_decide (cache s = []) then Some (new_refresh (events s) s) else None
  | Deliver => match events s with O => None | S e => Some (new_refresh e s) end
  | Act i names => act i names s
  end.

(** Nothing on the server makes a refresh throw. *)
Definition event_ok (e : event) : Prop := match e with Change t => readable t | _ => True end.

(** Refresh [i] does not store what it has read before what is cached. *)
Definition in_order (e : event) (s : state) : Prop :=
  match e with
  | Act i _ => match refreshes s !! i with Some (PLoop n [] _) => stored s < n | _ => True end
  | _ => True
  end.

Definition reachable (t : gmap string string) : state -> Prop :=
  rtc (fun s s' => exists e, event_ok e /\ step e s = Some s') (init t).
Definition ordered (t : gmap string string) : state -> Prop :=
  rtc (fun s s' => exists e, event_ok e /\ in_order e s /\ step e s = Some s') (init t).

(** What goes on while the tree stays and nobody discovers. *)
Definition own_step (s s' : state) : Prop :=
  exists e, match e with Change _ | Begin => False | _ => True end /\ step e s = Some s'.

Definition quiet (s : state) : Prop :=
  events s = 0 /\ Forall (fun p => p = PDone \/ p = PFailed) (refreshes s).

(** ** The refreshes end *)

Definition pc_rank (size : nat) (p : refresh_pc) : nat :=
  match p with PWatch => size + 3 | PRead => size + 2 | PLoop _ todo _ => length todo + 1 | PDone | PFailed => 0 end.
Definition rank (s : state) : nat :=
  sum_list (pc_rank (size (dom (tree s))) <$> refreshes s) + events s * (size (dom (tree s)) + 4).

Lemma rank_act i p p' s s' :
  refreshes s !! i = Some p -> refreshes s' = <[i := p']> (refreshes s) -> tree s' = tree s -> events s' = events s ->
  pc_rank (size (dom (tree s))) p' < pc_rank (size (dom (tree s))) p -> rank s' < rank s.
Proof.
  intros Hi Hr Ht He Hlt. unfold rank. rewrite Hr, Ht, He, list_fmap_insert.
  pose proof (sum_list_insert (pc_rank (size (dom (tree s))) <$> refreshes s) i (pc_rank (size (dom (tree s))) p)
    (pc_rank (size (dom (tree s))) p')) as Hs.
  rewrite list_lookup_fmap, Hi in Hs. specialize (Hs eq_refl). lia.
Qed.

Lemma own_step_rank s s' : own_step s s' -> rank s' < rank s.
Proof.
  intros ([t| | |i names] & Hown & Hs); try done; simpl in Hs.
  - destruct (events s) as [|e] eqn:He; simplify_eq. unfold rank. simpl. rewrite He, fmap_app, sum_list_with_app. simpl. lia.
  - unfold act in Hs. destruct (refreshes s !! i) as [p|] eqn:Hi; [|done].
    destruct p as [| |n [|c cs] eps| |]; simplify_eq.
    + by eapply rank_act; [done..|simpl; lia].
    + case_bool_decide as Hn; simplify_eq. destruct Hn as [Hnd Hdom].
      eapply rank_act; [done..|]. simpl. rewrite <- Hdom, size_list_to_set by done. lia.
    + by eapply rank_act; [done..|simpl; lia].
    + repeat case_match; simplify_eq; (eapply rank_act; [done..|]); simpl; lia.
Qed.

(** At rest every event is delivered and every refresh over. *)
Lemma rest_is_quiet s : nf own_step s -> quiet s.
Proof.
  intros Hnf. assert (forall e s', match e with Change _ | Begin => False | _ => True end -> step e s = Some s' -> False) as Hno.
  { intros e s' He Hs. apply Hnf. by exists s', e. }
  split.
  - destruct (events s) as [|e] eqn:He; [done|]. exfalso. apply (Hno Deliver (new_refresh e s)); [done|].
    simpl. by rewrite He.
  - apply Forall_forall. intros p [i Hi]%list_elem_of_lookup.
    pose proof (Hno (Act i (elements (dom (tree s))))) as Hact. simpl in Hact. unfold act in Hact. rewrite Hi in Hact.
    destruct p as [| |n [|c cs] eps| |]; [| | | |by left|by right]; exfalso; try by eapply Hact.
    + rewrite bool_decide_eq_true_2 in Hact; [by eapply Hact|].
      split; [apply NoDup_elements|]. apply list_to_set_elements_L.
    + destruct (tree s !! c) as [d|]; [destruct (parse c d)|]; by eapply Hact.
Qed.

(** ** What a refresh has read is the directory, or an event is coming *)

(** What the loop will have, if the tree stays. *)
Definition to_come (t : gmap string string) (todo : list string) : list ServiceEndpoint :=
  omap (fun c => d ← t !! c; entry c d) todo.
#[export] Instance to_come_proper t : Proper ((≡ₚ) ==> (≡ₚ)) (to_come t).
Proof.
  intros l l' Hp. unfold to_come. induction Hp as [|c l l' _ IH|c c' l|l l' l'' _ IH1 _ IH2]; simpl; [done| | |by etrans].
  - by destruct (t !! c ≫= entry c); rewrite IH.
  - destruct (t !! c ≫= entry c), (t !! c' ≫= entry c'); done || apply perm_swap.
Qed.
Definition snapshot (t : gmap string string) (todo : list string) (eps : list ServiceEndpoint) : Prop :=
  (forall c, c ∈ todo -> is_Some (t !! c)) /\ eps ++ to_come t todo ≡ₚ directory t.

(** The last read is cached, or its refresh has not stored yet. *)
Definition latest_fresh (s : state) : Prop :=
  (stored s = reads s /\ cache s ≡ₚ directory (tree s)) \/
  exists i todo eps, refreshes s !! i = Some (PLoop (reads s) todo eps) /\ snapshot (tree s) todo eps.

Record inv (s : state) : Prop := {
  in_readable : readable (tree s);
  in_numbers : forall i n todo eps, refreshes s !! i = Some (PLoop n todo eps) -> n <= reads s;
  in_stored : stored s <= reads s;
  in_armed : reads s <> 0 \/ PRead ∈ refreshes s -> armed s <> 0 \/ events s <> 0 \/ PWatch ∈ refreshes s;
  in_latest : events s <> 0 \/ PWatch ∈ refreshes s \/ PRead ∈ refreshes s \/ reads s = 0 \/ latest_fresh s;
}.

Lemma init_state_inv t : readable t -> inv (init t).
Proof.
  intros Ht. split; simpl; [done|done|done| |by do 3 right; left].
  intros [?|Hin]; [done|by apply elem_of_nil in Hin].
Qed.

(** The server's answer to [get_children] is a snapshot. *)
Lemma read_is_snapshot t names :
  NoDup names -> list_to_set names = dom t -> snapshot t names [].
Proof.
  intros Hnd Hdom.
  assert (forall c, c ∈ names <-> is_Some (t !! c)) as Hin.
  { intros c. rewrite <- elem_of_dom, <- Hdom. by rewrite elem_of_list_to_set. }
  split; [by intros c ?%Hin|]. simpl.
  assert (names ≡ₚ (map_to_list t).*1) as ->.
  { apply NoDup_Permutation; [done|apply NoDup_fst_map_to_list|]. intros c. rewrite Hin.
    rewrite list_elem_of_fmap. split.
    - intros [d Hd]. exists (c, d). split; [done|by apply elem_of_map_to_list].
    - intros ([c' d] & -> & Hd%elem_of_map_to_list). by eexists. }
  unfold to_come, directory.
  assert (forall l, (forall p, p ∈ l -> t !! p.1 = Some p.2) ->
    omap (fun c => d ← t !! c; entry c d) l.*1 = omap (fun p => entry p.1 p.2) l) as Hl.
  { induction l as [|p l IH]; intros Hp; [done|]. simpl. rewrite (Hp p) by (by left). simpl.
    assert (forall q, q ∈ l -> t !! q.1 = Some q.2) as Hq by (intros q Hq; apply Hp; by right).
    destruct (entry p.1 p.2); [f_equal|]; exact (IH Hq). }
  rewrite Hl; [done|]. intros [c d] Hp. by apply elem_of_map_to_list.
Qed.

(** The loop keeps a snapshot, and does not fail on one. *)
Lemma loop_keeps_snapshot t c cs eps :
  readable t -> snapshot t (c :: cs) eps ->
  exists d o, t !! c = Some d /\ parse c d = Ret () o /\
    snapshot t cs (match o with Some ep => eps ++ [ep] | None => eps end).
Proof.
  intros Hr [Hin Hp]. destruct (Hin c) as [d Hd]; [by left|]. exists d.
  pose proof (Hr c d Hd) as Hparse. simpl in Hparse. destruct (parse c d) as [[] o|? ?|?|] eqn:Ho; try done.
  exists o. split_and!; [done..|]. split; [by intros c' ?; apply Hin; right|].
  rewrite <- Hp. unfold to_come. simpl. rewrite Hd. simpl. unfold entry at 2. rewrite Ho.
  destruct o as [ep|]; [|done]. by rewrite <- app_assoc.
Qed.

Lemma snapshot_done t eps : snapshot t [] eps -> eps ≡ₚ directory t.
Proof. intros [_ Hp]. unfold to_come in Hp. simpl in Hp. by rewrite app_nil_r in Hp. Qed.

(** A refresh that stands elsewhere stays. *)
Lemma pc_kept i p p' (l : list refresh_pc) q : l !! i = Some p -> p <> q -> q ∈ l -> q ∈ <[i := p']> l.
Proof.
  intros Hi Hne [j Hj]%list_elem_of_lookup. apply list_elem_of_lookup. exists j.
  rewrite list_lookup_insert_ne; [done|]. intros ->. congruence.
Qed.

Lemma pc_gone i p p' (l : list refresh_pc) q : l !! i = Some p -> p' <> q -> q ∈ <[i := p']> l -> q ∈ l.
Proof.
  intros Hi Hne [j Hj]%list_elem_of_lookup. apply list_lookup_insert_Some in Hj as [(_ & ? & _)|[_ Hj]]; [done|].
  by eapply list_elem_of_lookup_2.
Qed.

Lemma change_inv t s : inv s -> readable t -> inv (set_tree t s).
Proof.
  intros [Hr Hn Hs Ha Hl] Ht. split; simpl; [done..| |].
  - intros Hread. destruct (Ha Hread) as [?|[?|?]]; [right; left; lia..|by right; right].
  - destruct (decide (reads s = 0)) as [?|Hread]; [by do 3 right; left|].
    destruct (Ha (or_introl Hread)) as [?|[?|?]]; [left; lia..|by right; left].
Qed.

Lemma new_refresh_inv e s : inv s -> inv (new_refresh e s).
Proof.
  intros [Hr Hn Hs Ha Hl].
  assert (PWatch ∈ refreshes s ++ [PWatch]) as Hw by (apply elem_of_app; right; by left).
  split; simpl; [done| |done|by right; right|by right; left].
  intros i n todo eps [Hi|[_ Hi]]%lookup_app_Some; [by eapply Hn|].
  apply list_lookup_singleton_Some in Hi as [_ ?]. done.
Qed.

(** The step of a refresh that stands in its loop, to [p']. *)
Lemma loop_inv s i n todo eps p' cache' stored' :
  inv s -> refreshes s !! i = Some (PLoop n todo eps) -> (p' <> PWatch /\ p' <> PRead) ->
  (forall m todo' eps', p' = PLoop m todo' eps' -> m <= reads s) -> stored' <= reads s ->
  (latest_fresh s -> latest_fresh (mk (tree s) (armed s) (events s) (<[i := p']> (refreshes s)) cache' (reads s) stored')) ->
  inv (mk (tree s) (armed s) (events s) (<[i := p']> (refreshes s)) cache' (reads s) stored').
Proof.
  intros [Hr Hn Hs Ha Hl] Hi [Hw Hrd] Hm Hst Hlatest. split; simpl; [done| |done| |].
  - intros j m todo' eps' [(_ & Hp & _)|[_ Hj]]%list_lookup_insert_Some; [by eapply Hm|by eapply Hn].
  - intros Hread. destruct Ha as [?|[?|?]]; [|by left|by right; left|right; right; by eapply pc_kept].
    destruct Hread as [?|Hread]; [by left|right; by eapply pc_gone].
  - destruct Hl as [?|[?|[?|[?|?]]]]; [by left|right; left; by eapply pc_kept|right; right; left; by eapply pc_kept
      |by do 3 right; left|by do 4 right; apply Hlatest].
Qed.

Lemma act_inv i names s s' :
  inv s -> in_order (Act i names) s -> act i names s = Some s' -> inv s'.
Proof.
  intros Hinv Hord Hs. simpl in Hord. unfold act in Hs. destruct (refreshes s !! i) as [p|] eqn:Hi; [|done].
  destruct p as [| |n [|c cs] eps| |]; simplify_eq.
  - destruct Hinv as [Hr Hn Hst Ha Hl].
    assert (PRead ∈ <[i := PRead]> (refreshes s)) as Hrd.
    { apply list_elem_of_lookup. exists i. apply list_lookup_insert_eq. by eapply lookup_lt_Some. }
    split; simpl; [done| |done|by left|by right; right; left].
    intros j n todo eps [(_ & ? & _)|[_ Hj]]%list_lookup_insert_Some; [done|by eapply Hn].
  - case_bool_decide as Hnames; simplify_eq. destruct Hnames as [Hnd Hdom], Hinv as [Hr Hn Hst Ha Hl].
    split; simpl; [done| |lia| |].
    + intros j n todo eps [(_ & [= <- _ _] & _)|[_ Hj]]%list_lookup_insert_Some; [done|]. specialize (Hn _ _ _ _ Hj). lia.
    + intros _. destruct Ha as [?|[?|?]]; [right; by eapply list_elem_of_lookup_2|by left|by right; left|].
      right; right. by eapply pc_kept.
    + do 4 right. right. exists i, names, []. split; [|by apply read_is_snapshot].
      apply list_lookup_insert_eq. by eapply lookup_lt_Some.
  - apply (loop_inv s i n [] eps); [done|done|done|done|by eapply in_numbers|].
    pose proof (in_numbers s Hinv _ _ _ _ Hi) as Hle. intros [[Heq _]|(j & todo & eps' & Hj & Hsnap)]; [lia|].
    destruct (decide (j = i)) as [->|Hne].
    + left. simplify_eq. split; [done|]. by apply snapshot_done.
    + right. exists j, todo, eps'. simpl. by rewrite list_lookup_insert_ne.
  - assert (forall p', (p' <> PWatch /\ p' <> PRead) ->
      (forall m todo' eps', p' = PLoop m todo' eps' -> m <= reads s) ->
      (n = reads s -> snapshot (tree s) (c :: cs) eps ->
        exists eps', p' = PLoop n cs eps' /\ snapshot (tree s) cs eps') -> inv (set_pc i p' s)) as Hgo.
    { intros p' Hp' Hm Hsnap. apply (loop_inv s i n (c :: cs) eps); [done..|by apply in_stored|].
      intros [?|(j & todo & eps' & Hj & Hsn)]; [by left|right]. destruct (decide (j = i)) as [->|Hne].
      - simplify_eq. destruct (Hsnap eq_refl Hsn) as (eps2 & -> & Hsn2). exists i, cs, eps2. split; [|done].
        apply list_lookup_insert_eq. by eapply lookup_lt_Some.
      - exists j, todo, eps'. simpl. by rewrite list_lookup_insert_ne. }
    pose proof (fun Hsn => loop_keeps_snapshot (tree s) c cs eps (in_readable s Hinv) Hsn) as Hkeep.
    pose proof (in_numbers s Hinv _ _ _ _ Hi) as Hle.
    destruct (tree s !! c) as [d|] eqn:Hd.
    + destruct (parse c d) as [[] o|? ?|?|] eqn:Ho; simplify_eq; apply Hgo; try done.
      * by intros m todo' eps' [= <- _ _].
      * intros _ Hsn. destruct (Hkeep Hsn) as (d' & o' & [= <-] & Ho' & Hsn'). rewrite Ho in Ho'. simplify_eq. by eexists.
      * intros _ Hsn. destruct (Hkeep Hsn) as (d' & o' & [= <-] & Ho' & _). congruence.
      * intros _ Hsn. destruct (Hkeep Hsn) as (d' & o' & [= <-] & Ho' & _). congruence.
      * intros _ Hsn. destruct (Hkeep Hsn) as (d' & o' & [= <-] & Ho' & _). congruence.
    + simplify_eq. apply Hgo; [done..|]. intros _ Hsn. by destruct (Hkeep Hsn) as (d' & o' & ? & _).
Qed.

Lemma ordered_inv t s : readable t -> ordered t s -> inv s.
Proof.
  intros Ht. revert s. refine (rtc_ind_r _ _ _ _); [by apply init_state_inv|].
  intros s s' _ (e & Hok & Hord & Hs) Hinv. destruct e as [t'| | |i names]; simpl in Hs.
  - case_bool_decide; simplify_eq. by apply change_inv.
  - case_bool_decide; simplify_eq. by apply new_refresh_inv.
  - destruct (events s) as [|e] eqn:He; simplify_eq. by apply new_refresh_inv.
  - by eapply act_inv.
Qed.


(** ** The order is not kept *)

Abbreviation moves_to := (rtc (fun s s' => exists e, event_ok e /\ step e s = Some s')).

Lemma moves_once e s s' : event_ok e -> step e s = Some s' -> moves_to s s'.
Proof. intros He Hs. apply rtc_once. by exists e. Qed.

(** A loop that nothing disturbs. *)
Lemma loop_runs i n todo eps s :
  readable (tree s) -> refreshes s !! i = Some (PLoop n todo eps) -> snapshot (tree s) todo eps ->
  exists eps', moves_to s (set_pc i (PLoop n [] eps') s) /\ eps' ≡ₚ directory (tree s).
Proof.
  intros Hr. revert s eps Hr. induction todo as [|c cs IH]; intros s eps Hr Hi Hsn.
  - exists eps. split; [|by apply snapshot_done]. assert (set_pc i (PLoop n [] eps) s = s) as ->; [|apply rtc_refl].
    unfold set_pc. rewrite list_insert_id by done. by destruct s.
  - destruct (loop_keeps_snapshot _ _ _ _ Hr Hsn) as (d & o & Hd & Ho & Hsn').
    set (eps1 := match o with Some ep => eps ++ [ep] | None => eps end) in Hsn'.
    destruct (IH (set_pc i (PLoop n cs eps1) s) eps1 Hr) as (eps' & Hrun & Hp).
    { apply list_lookup_insert_eq. by eapply lookup_lt_Some. } { done. }
    exists eps'. split; [|done]. unfold set_pc in Hrun. simpl in Hrun. rewrite list_insert_insert_eq in Hrun.
    etrans; [|exact Hrun]. apply (moves_once (Act i [])); [done|]. simpl. unfold act. by rewrite Hi, Hd, Ho.
Qed.

Lemma elements_are_names (t : gmap string string) :
  bool_decide (NoDup (elements (dom t)) /\ list_to_set (elements (dom t)) = dom t) = true.
Proof. apply bool_decide_eq_true_2. split; [apply NoDup_elements|apply list_to_set_elements_L]. Qed.

(** Refresh [i] reads the whole directory. *)
Lemma refresh_reads i s :
  readable (tree s) -> refreshes s !! i = Some PWatch ->
  exists eps, eps ≡ₚ directory (tree s) /\
    moves_to s (mk (tree s) (S (armed s)) (events s) (<[i := PLoop (S (reads s)) [] eps]> (refreshes s)) (cache s)
      (S (reads s)) (stored s)).
Proof.
  intros Hr Hi. pose proof (lookup_lt_Some _ _ _ Hi) as Hlen.
  set (s1 := mk (tree s) (S (armed s)) (events s) (<[i := PRead]> (refreshes s)) (cache s) (reads s) (stored s)).
  set (names := elements (dom (tree s))).
  set (s2 := mk (tree s) (S (armed s)) (events s) (<[i := PLoop (S (reads s)) names []]> (refreshes s)) (cache s)
    (S (reads s)) (stored s)).
  destruct (loop_runs i (S (reads s)) names [] s2) as (eps & Hrun & Hp).
  - done.
  - by apply list_lookup_insert_eq.
  - apply read_is_snapshot; [apply NoDup_elements|apply list_to_set_elements_L].
  - exists eps. split; [done|]. unfold set_pc, s2 in Hrun. simpl in Hrun. rewrite list_insert_insert_eq in Hrun.
    etrans; [apply (moves_once (Act i names) s s1); [done|simpl; unfold act; by rewrite Hi]|].
    etrans; [|exact Hrun]. apply (moves_once (Act i names)); [done|]. simpl. unfold act, s1. simpl.
    rewrite list_lookup_insert_eq by done. unfold names. rewrite elements_are_names. by rewrite list_insert_insert_eq.
Qed.

(** C34. A refresh can overwrite a later one.  For any directory that changes to
    any other: a [discover] reads the first, the change's event runs a watcher that
    reads and stores the second, and then the [discover] stores the first.  Now
    all refreshes are over and no event is to come, yet the cache holds the old directory;
    and if that is not empty nothing happens any more until the children change
    again: every [discover] answers from it. *)
Theorem late_store_is_stale t1 t2 (H1 : readable t1) (H2 : readable t2) (Hne : dom t2 <> dom t1) :
  exists s, reachable t1 s /\ quiet s /\ tree s = t2 /\ cache s ≡ₚ directory t1 /\
    (directory t1 <> [] -> forall e s', step e s = Some s' -> exists t, e = Change t).
Proof.
  destruct (refresh_reads 0 (new_refresh 0 (init t1))) as (eps1 & Hp1 & Hrun1); [done..|]. simpl in Hrun1.
  set (s5 := mk t2 0 0 [PLoop 1 [] eps1; PWatch] [] 1 0).
  destruct (refresh_reads 1 s5) as (eps2 & Hp2 & Hrun2); [done..|]. simpl in Hrun2.
  set (s := mk t2 1 0 [PDone; PDone] eps1 2 1). exists s. split.
  - unfold reachable. etrans; [by apply (moves_once Begin)|]. etrans; [exact Hrun1|].
    etrans; [apply (moves_once (Change t2) _ (mk t2 0 1 [PLoop 1 [] eps1] [] 1 0)); [done|]|].
    { simpl. rewrite bool_decide_eq_true_2 by done. reflexivity. }
    etrans; [by apply (moves_once Deliver _ s5)|]. etrans; [exact Hrun2|].
    etrans; [by apply (moves_once (Act 1 []) _ (mk t2 1 0 [PLoop 1 [] eps1; PDone] eps2 2 2))|].
    by apply (moves_once (Act 0 [])).
  - split; [by split; [|repeat constructor]|]. split; [done|]. split; [done|]. intros Hd e s' Hs. simpl in Hp1.
    destruct e as [t| | |i names]; [by exists t| |done|]; exfalso; simpl in Hs.
    + rewrite bool_decide_eq_false_2 in Hs; [done|]. simpl. intros ->. by apply Permutation_nil_l in Hp1.
    + unfold act in Hs. by destruct i as [|[|i]].
Qed.

(** ** Two endpoints, of which one goes *)

Module Demo.

Definition two : gmap string string := {["a:1" := "3"; "b:2" := "1"]}%string.
Definition one : gmap string string := {["b:2" := "1"]}%string.

Lemma two_readable : readable two.
Proof. by apply map_Forall_insert_2; [vm_compute|apply map_Forall_singleton; vm_compute]. Qed.
Lemma one_readable : readable one.
Proof. by apply map_Forall_singleton; vm_compute. Qed.

Definition in_orderb (e : event) (s : state) : bool :=
  match e with
  | Act i _ => match refreshes s !! i with Some (PLoop n [] _) => Nat.ltb (stored s) n | _ => true end
  | _ => true
  end.
Fixpoint play (es : list event) (s : state) : option state :=
  match es with
  | [] => Some s
  | e :: es' => if in_orderb e s then match step e s with Some s' => play es' s' | None => None end else None
  end.

Lemma play_ordered t es s s' :
  Forall (fun e => match e with Change t' => t' = one | _ => True end) es ->
  ordered t s -> play es s = Some s' -> ordered t s'.
Proof.
  intros Hes. revert s. induction Hes as [|e es He _ IH]; intros s Hs Hp; simpl in Hp; [by simplify_eq|].
  destruct (in_orderb e s) eqn:Hord; [|done]. destruct (step e s) as [s1|] eqn:Hstep; [|done].
  apply (IH s1); [|done]. eapply rtc_r; [exact Hs|]. exists e. split_and!; [|  |done].
  - destruct e; try done. simpl in *. subst. exact one_readable.
  - destruct e as [| | |i ns]; try done. simpl in *. repeat case_match; try done. by apply Nat.ltb_lt.
Qed.

(** A [discover], a change, its watcher. *)
Definition names (t : gmap string string) : list string := elements (dom t).
Definition followed : list event :=
  [Begin; Act 0 []; Act 0 (names two); Act 0 []; Act 0 []; Act 0 []; Change one;
   Deliver; Act 1 []; Act 1 (names one); Act 1 []; Act 1 []].
Definition followed_to : state := default (init two) (play followed (init two)).

Lemma followed_ends : tree followed_to = one /\ cache followed_to = [mkEndpoint "b" 2 1] /\
  events followed_to = 0 /\ refreshes followed_to = [PDone; PDone] /\ reads followed_to = 2.
Proof. by vm_compute. Qed.


Lemma late_store_is_stale_witness :
  exists s, reachable two s /\ quiet s /\ tree s = one /\ cache s ≡ₚ directory two /\
    (directory two <> [] -> forall e s', step e s = Some s' -> exists t, e = Change t).
Proof.
  apply (late_store_is_stale two one two_readable one_readable). intros Hdom.
  assert (is_Some (one !! "a:1"%string)) as Hs.
  { apply elem_of_dom. rewrite Hdom. apply elem_of_dom. exists "3"%string. reflexivity. }
  destruct Hs as [d Hd]. discriminate Hd.
Defined.

End Demo.

End RegistryWatch.
