(* ===== verification/EventLoop.v ===== *)
(** * The event loop (include/net/event_loop.h, src/net/event_loop.cpp)

    [EventLoop] holds the member functions, over the functors [F] that the
    loop's clients queue and over any state [W] that holds the loop.
    [Wakeup] is the loop and its clients as a transition system: the threads
    that queue functors interleave with the loop's turns.  Its theorems say
    that no wake-up is lost and that functors run once, in queueing order. *)

From Stdlib Require Import ZArith Lia.
From S2P Require Import Prelude Channel EpollPoller.
Local Open Scope Z_scope.

Module EventLoop.

(** The members; [eventfd] is the counter behind [wakeup_fd_]. *)
Record t (F : Type) := mk {
  quit_ : bool;
  poller_ : EpollPoller.t;
  pending_functors_ : list F;
  calling_pending_functors_ : bool;
  eventfd : Z;
}.
Arguments mk {F} quit_ poller_ pending_functors_ calling_pending_functors_ eventfd.
Arguments quit_ {F} t.
Arguments poller_ {F} t.
Arguments pending_functors_ {F} t.
Arguments calling_pending_functors_ {F} t.
Arguments eventfd {F} t.

Definition set_quit {F} (b : bool) (l : t F) : t F :=
  mk b (poller_ l) (pending_functors_ l) (calling_pending_functors_ l) (eventfd l).
Definition set_poller {F} (p : EpollPoller.t) (l : t F) : t F :=
  mk (quit_ l) p (pending_functors_ l) (calling_pending_functors_ l) (eventfd l).
Definition set_pending {F} (fs : list F) (l : t F) : t F :=
  mk (quit_ l) (poller_ l) fs (calling_pending_functors_ l) (eventfd l).
Definition set_calling {F} (b : bool) (l : t F) : t F :=
  mk (quit_ l) (poller_ l) (pending_functors_ l) b (eventfd l).
Definition set_eventfd {F} (n : Z) (l : t F) : t F :=
  mk (quit_ l) (poller_ l) (pending_functors_ l) (calling_pending_functors_ l) n.

(** The largest value of an eventfd counter; a write that would pass it fails
    on a non-blocking descriptor. *)
Definition eventfd_max : Z := 2 ^ 64 - 2.
Definition eventfd_add (n : Z) : Z := if n <? eventfd_max then n + 1 else n.

Lemma eventfd_add_pos n : 0 <= n -> 0 < eventfd_add n.
Proof. unfold eventfd_add, eventfd_max. intros ?. case_match eqn:Hlt; lia. Qed.

Lemma eventfd_add_le n : n <= eventfd_add n.
Proof. unfold eventfd_add. case_match; lia. Qed.

(** What a callback may do to its loop: [quit_] stays, and no wake-up is lost. *)
Record calm {F} (l l' : t F) : Prop := {
  calm_quit : quit_ l' = quit_ l;
  calm_eventfd : eventfd l <= eventfd l';
}.

#[global] Instance calm_preorder {F} : PreOrder (calm (F := F)).
Proof. split; [by intros l|]. intros l1 l2 l3 [??] [??]. split; [congruence|lia]. Qed.

Lemma calm_same {F} (l l' : t F) : quit_ l' = quit_ l -> eventfd l' = eventfd l -> calm l l'.
Proof. intros Hq He. split; [done|lia]. Qed.

Section ops.
Context {W F : Type} (self : Lens W (t F)).
(** What calling a functor does. *)
Variable call : F -> M W unit.

(** [uint64_t one = 1; ::write(wakeup_fd_, &one, sizeof(one));] *)
Definition wakeup : M W unit :=
  zoom self (modify (fun l => set_eventfd (eventfd_add (eventfd l)) l)).

(** [::read(wakeup_fd_, &one, sizeof(one));] *)
Definition handle_read : M W unit := zoom self (modify (set_eventfd 0)).

(** In each operation [in_loop] is [is_in_loop_thread()] of the caller. *)
Definition quit (in_loop : bool) : M W unit :=
  zoom self (modify (set_quit true)) ;; when (negb in_loop) wakeup.

Definition queue_in_loop (in_loop : bool) (f : F) : M W unit :=
  zoom self (modify (fun l => set_pending (pending_functors_ l ++ [f]) l)) ;;
  l ← gets (lget self);
  when (negb in_loop || calling_pending_functors_ l) wakeup.

Definition run_in_loop (in_loop : bool) (f : F) : M W unit :=
  if in_loop then call f else queue_in_loop in_loop f.

Definition assert_in_loop_thread (in_loop : bool) : M W unit :=
  if in_loop then mret () else throw (runtime_error "EventLoop called from a wrong thread").

(** [reg] is the channel with the loop's poller. *)
Definition update_channel (reg : Lens W (Channel.t * EpollPoller.t)) (in_loop : bool)
    (ch : EpollPoller.ptr) : M W unit :=
  assert_ in_loop "is_in_loop_thread()" ;; zoom reg (EpollPoller.update_channel ch).
Definition remove_channel (reg : Lens W (Channel.t * EpollPoller.t)) (in_loop : bool)
    (ch : EpollPoller.ptr) : M W unit :=
  assert_ in_loop "is_in_loop_thread()" ;; zoom reg (EpollPoller.remove_channel ch).

Definition do_pending_functors : M W unit :=
  zoom self (modify (set_calling true)) ;;
  functors ← gets (fun w => pending_functors_ (lget self w));
  zoom self (modify (set_pending [])) ;;
  for_each call functors ;;
  zoom self (modify (set_calling false)).

(** The body of [loop()], with the answer of one [epoll_wait]; [poll] fills
    [active_channels_] and [handle_event] dispatches one channel. *)
Variable poll : EpollPoller.wait_result -> M W (list EpollPoller.ptr).
Variable handle_event : EpollPoller.ptr -> M W unit.

Definition loop_turn (res : EpollPoller.wait_result) : M W unit :=
  active_channels_ ← poll res;
  for_each handle_event active_channels_ ;;
  do_pending_functors.

(** [while (!quit_) ...]: one [epoll_wait] answer per turn. *)
Fixpoint loop_while (answers : list EpollPoller.wait_result) : M W unit :=
  q ← gets (fun w => quit_ (lget self w));
  if (q : bool) then mret ()
  else
    match answers with
    | [] => out_of_fuel
    | res :: answers' => loop_turn res ;; loop_while answers'
    end.

Definition loop (in_loop : bool) (answers : list EpollPoller.wait_result) : M W unit :=
  assert_ in_loop "is_in_loop_thread()" ;;
  zoom self (modify (set_quit false)) ;;
  loop_while answers.

End ops.

(** [EventLoop()]: [wakeup_fd] is the descriptor [eventfd()] returned, and
    [wakeup_ch] the address of the wake-up channel. *)
Definition make {F} (wakeup_fd : Z) (wakeup_ch : EpollPoller.ptr) : M Channel.t (t F) := fun c =>
  if wakeup_fd <? 0 then Throw c (runtime_error "eventfd failed")
  else
    match EpollPoller.run_op wakeup_ch EpollPoller.EnableReading
            (Channel.make wakeup_fd, EpollPoller.make) with
    | Ret (c', p) _ => Ret c' (mk false p [] false 0)
    | Throw (c', p) e => Throw c' e
    | Ub why => Ub why
    | OutOfFuel => OutOfFuel
    end.

(** The whole constructor, over the open descriptors: when [eventfd()] fails the
    poller is destroyed.  It gives the wake-up channel and the loop. *)
Definition construct {F} (epfd wakeup_fd : Z) (wakeup_ch : EpollPoller.ptr) :
    M (gset Z) (Channel.t * t F) :=
  EpollPoller.construct epfd ;;
  match make wakeup_fd wakeup_ch (Channel.make wakeup_fd) with
  | Ret c l => modify (fun fds => {[wakeup_fd]} ∪ fds) ;; mret (c, l)
  | Throw _ e => modify (fun fds => fds ∖ {[epfd]}) ;; throw e
  | Ub why => ub why
  | OutOfFuel => out_of_fuel
  end.

(** The loop and its wake-up channel when the constructor returns. *)
Definition registered_wakeup (wakeup_fd : Z) : Channel.t :=
  Channel.mk wakeup_fd Channel.kReadEvent 0 EpollPoller.kAdded None.
Definition new_loop {F} (wakeup_fd : Z) (wakeup_ch : EpollPoller.ptr) : t F :=
  mk false (EpollPoller.mk EpollPoller.kInitEventListSize {[wakeup_fd := wakeup_ch]}
    [EpollPoller.mk_call EpollPoller.EPOLL_CTL_ADD wakeup_fd Channel.kReadEvent wakeup_ch]) [] false 0.

Lemma make_eq {F} wakeup_fd wakeup_ch c :
  0 <= wakeup_fd ->
  make (F := F) wakeup_fd wakeup_ch c = Ret (registered_wakeup wakeup_fd) (new_loop wakeup_fd wakeup_ch).
Proof. intros Hfd. unfold make. by destruct (Z.ltb_spec wakeup_fd 0); [lia|]. Qed.

(** The constructor returns with both descriptors open, or throws with none. *)
Lemma construct_loop_wpe {F} epfd wakeup_fd wakeup_ch fds :
  epfd ∉ fds ->
  wpe (construct (F := F) epfd wakeup_fd wakeup_ch) fds (fun fds' cl =>
    0 <= epfd /\ 0 <= wakeup_fd /\ fds' = {[wakeup_fd]} ∪ ({[epfd]} ∪ fds) /\
    cl = (registered_wakeup wakeup_fd, new_loop wakeup_fd wakeup_ch)) (fun fds' _ => fds' = fds).
Proof.
  intros Hep. unfold construct, EpollPoller.construct.
  destruct (Z.ltb_spec epfd 0); [apply wpe_bind; by apply wpe_throw|]. wpe_pures.
  destruct (Z.ltb_spec wakeup_fd 0).
  - unfold make. destruct (Z.ltb_spec wakeup_fd 0); [|lia]. wpe_pures. apply wpe_throw. set_solver.
  - rewrite make_eq by done. by wpe_pures.
Qed.

(** ** Its destructor *)

(** A loop with its wake-up channel and the open descriptors. *)
Record owned (F : Type) := mk_owned {
  wakeup_channel_ : Channel.t;
  the_loop : t F;
  fds : gset Z;
}.
Arguments mk_owned {F} wakeup_channel_ the_loop fds.
Arguments wakeup_channel_ {F} o.
Arguments the_loop {F} o.
Arguments fds {F} o.

Section destructor.
Context {F : Type}.
Abbreviation W := (owned F).
Definition wakeup_lens : Lens W Channel.t :=
  mkLens wakeup_channel_ (fun c w => mk_owned c (the_loop w) (fds w)).
Definition wakeup_reg : Lens W (Channel.t * EpollPoller.t) :=
  mkLens (fun w => (wakeup_channel_ w, poller_ (the_loop w)))
    (fun p w => mk_owned p.1 (set_poller p.2 (the_loop w)) (fds w)).
Definition fds_lens : Lens W (gset Z) :=
  mkLens fds (fun s w => mk_owned (wakeup_channel_ w) (the_loop w) s).

Variable wakeup_ch : EpollPoller.ptr.

(** [~EventLoop()]: its body, run by the loop's thread or not; *)
Definition destroy (in_loop : bool) : M W unit :=
  Channel.disable_all wakeup_lens (update_channel wakeup_reg in_loop wakeup_ch) ;;
  Channel.remove wakeup_lens (update_channel wakeup_reg in_loop wakeup_ch)
    (remove_channel wakeup_reg in_loop wakeup_ch) ;;
  wakeup_fd_ ← gets (fun w => Channel.fd_ (wakeup_channel_ w));
  zoom fds_lens (EpollPoller.close wakeup_fd_).

(** then, after the functors that are still pending, the members. *)
Definition destroy_members (epfd : Z) : M W unit :=
  Channel.destroy wakeup_lens ;;
  zoom fds_lens (EpollPoller.destroy epfd).

(** On another thread than the loop's it fails an assertion at once. *)
Lemma destroy_elsewhere w : destroy false w = Ub "is_in_loop_thread()".
Proof. done. Qed.

Abbreviation registered fd k0 m0 p k := (EpollPoller.registered wakeup_ch fd k0 m0 True p k).

Lemma wakeup_change_wp fd k0 m0 w k f :
  registered fd k0 m0 (lget wakeup_reg w) k ->
  (forall e, EpollPoller.level_triggered e -> EpollPoller.level_triggered (f e)) ->
  wp (Channel.change_events wakeup_lens (update_channel wakeup_reg true wakeup_ch) f) w (fun w' _ =>
    exists c p k', w' = lset wakeup_reg (c, p) w /\ registered fd k0 m0 (c, p) k' /\
      Channel.events_ c = f (Channel.events_ (wakeup_channel_ w))).
Proof.
  intros Hreg Hf. unfold Channel.change_events, update_channel. wp_pures. apply wp_assert; [done|]. wp_pures.
  eapply wp_mono.
  { eapply EpollPoller.update_channel_spec, (EpollPoller.change_events_registered _ _ _ _ _ _ f Hreg), Hf.
    apply (EpollPoller.reg_mask _ _ _ _ _ _ _ Hreg). }
  cbv beta. intros [c p] _ (k' & Hreg' & Hc). simpl in Hc. exists c, p, k'. split_and!; [done..|by rewrite Hc].
Qed.

(** On the loop's thread it takes the wake-up channel off the poller, leaves the
    others as they are, and closes its descriptor. *)
Lemma destroy_wp fd k0 m0 w k (Hreg : registered fd k0 m0 (lget wakeup_reg w) k) (Hfd : fd ∈ fds w) :
  wp (destroy true) w (fun w' _ => exists c p k',
    w' = mk_owned c (set_poller p (the_loop w)) (fds w ∖ {[fd]}) /\ registered fd k0 m0 (c, p) k' /\
    k' !! fd = None /\ Channel.is_none_event c = true).
Proof.
  unfold destroy. apply wp_bind. eapply wp_mono; [by apply (wakeup_change_wp fd k0 m0 w k (fun _ => 0))|].
  cbv beta. intros w1 _ (c1 & p1 & k1 & -> & Hreg1 & _). apply wp_bind. unfold Channel.remove. apply wp_bind.
  eapply wp_mono; [by apply (wakeup_change_wp fd k0 m0 _ k1 (fun _ => 0))|].
  cbv beta. intros w2 _ (c2 & p2 & k2 & -> & Hreg2 & He2). unfold remove_channel. wp_pures.
  apply wp_assert; [done|]. wp_pures.
  eapply wp_mono; [eapply EpollPoller.remove_channel_spec, EpollPoller.weaken, Hreg2|].
  cbv beta. intros [c3 p3] _ (k3 & Hreg3 & Hc3). simpl in Hc3. wp_pures.
  pose proof (EpollPoller.reg_fd _ _ _ _ _ _ _ Hreg3) as Hfd3. simpl in Hfd3. simpl. rewrite Hfd3.
  apply EpollPoller.close_wp; [done|]. exists c3, p3, k3. split_and!; [done|done| |].
  - rewrite (EpollPoller.reg_exact _ _ _ _ _ _ _ Hreg3 I), Hc3. done.
  - rewrite Hc3. unfold Channel.is_none_event. simpl. by rewrite He2.
Qed.

Lemma destroy_members_wp epfd w :
  Channel.is_none_event (wakeup_channel_ w) = true -> epfd ∈ fds w ->
  wp (destroy_members epfd) w (fun w' _ => w' = mk_owned (wakeup_channel_ w) (the_loop w) (fds w ∖ {[epfd]})).
Proof.
  intros Hn Hep. unfold destroy_members, Channel.destroy. wp_pures. apply wp_assert; [done|]. wp_pures.
  by apply EpollPoller.close_wp.
Qed.

End destructor.

(** ** Pending functors

    [P fs w]: the functors [fs] have run.  A functor may queue others. *)
Section pending.
Context {W F : Type} (self : Lens W (t F)) `{!LensOk self} (call : F -> M W unit).
Variable P : list F -> W -> Prop.
Hypothesis P_loop : forall fs l w, P fs w -> P fs (lset self l w).
(** Running a functor keeps what is pending and may add to it; whatever it
    adds comes with a wake-up, because [calling_pending_functors_] is set. *)
Hypothesis call_spec : forall fs f w, P fs w ->
  calling_pending_functors_ (lget self w) = true -> 0 <= eventfd (lget self w) ->
  wp (call f) w (fun w' _ => P (fs ++ [f]) w' /\
    calling_pending_functors_ (lget self w') = true /\
    eventfd (lget self w) <= eventfd (lget self w') /\
    exists added, pending_functors_ (lget self w') = pending_functors_ (lget self w) ++ added /\
      (added <> [] -> 0 < eventfd (lget self w'))).

(** [do_pending_functors] runs each functor that was pending exactly once,
    in queueing order.  Functors queued meanwhile are left for the next turn,
    and if there are any the eventfd is readable, so that turn comes at once. *)
Theorem do_pending_functors_spec fs w (HP : P fs w) (Hfd : 0 <= eventfd (lget self w)) :
  wp (do_pending_functors self call) w (fun w' _ =>
    P (fs ++ pending_functors_ (lget self w)) w' /\
    calling_pending_functors_ (lget self w') = false /\
    (pending_functors_ (lget self w') <> [] -> 0 < eventfd (lget self w'))).
Proof.
  unfold do_pending_functors. wp_pures. rewrite lens_set_set, !lens_get_set. simpl.
  set (l0 := lget self w). set (w0 := lset self _ w).
  eapply wp_mono.
  { apply (wp_for_each _ _ _ (fun dn w' => P (fs ++ dn) w' /\
      calling_pending_functors_ (lget self w') = true /\ 0 <= eventfd (lget self w') /\
      (pending_functors_ (lget self w') <> [] -> 0 < eventfd (lget self w')))).
    - unfold w0. rewrite app_nil_r, lens_get_set. simpl. split_and!; [by apply P_loop|done..].
    - intros dn f todo w1 Heq (HP1 & Hc1 & Hfd1 & Hw1).
      eapply wp_mono; [by apply call_spec|]. cbv beta.
      intros w2 _ (HP2 & Hc2 & Hfd2 & added & Hadd & Hwake).
      split_and!; [by rewrite app_assoc|done|lia|]. rewrite Hadd. intros Hne.
      destruct added; [|by apply Hwake]. rewrite app_nil_r in Hne. specialize (Hw1 Hne). lia. }
  cbv beta. intros w1 _ (HP1 & Hc1 & _ & Hw1). wp_pures. rewrite lens_get_set. simpl.
  split_and!; [by apply P_loop|done|done].
Qed.

End pending.

(** Functors that count down: each logs itself and queues its predecessor. *)
Definition countdown (n : nat) : M (t nat * list nat) unit :=
  modify (fun w => (w.1, w.2 ++ [n])) ;;
  match n with O => mret () | S m => queue_in_loop lens_fst true m end.

Lemma countdown_spec fs n (w : t nat * list nat) :
  w.2 = fs -> calling_pending_functors_ w.1 = true -> 0 <= eventfd w.1 ->
  wp (countdown n) w (fun w' _ => w'.2 = fs ++ [n] /\
    calling_pending_functors_ w'.1 = true /\ eventfd w.1 <= eventfd w'.1 /\
    exists added, pending_functors_ w'.1 = pending_functors_ w.1 ++ added /\
      (added <> [] -> 0 < eventfd w'.1)).
Proof.
  destruct w as [l log]. simpl. intros -> Hc Hfd. unfold countdown. wp_pures.
  destruct n as [|m]; [wp_pures; split_and!; try done; exists []; by rewrite app_nil_r|].
  unfold queue_in_loop, wakeup. wp_pures. simpl. rewrite Hc. simpl. wp_pures. simpl.
  pose proof (eventfd_add_pos _ Hfd). pose proof (eventfd_add_le (eventfd l)).
  split_and!; [done..|exists [m]; by split].
Qed.

Lemma do_pending_functors_spec_witness :
  let w : t nat * list nat := (mk false EpollPoller.make [2; 0]%nat false 0, []) in
  wp (do_pending_functors lens_fst countdown) w (fun w' _ =>
    w'.2 = [] ++ [2; 0]%nat /\ calling_pending_functors_ w'.1 = false /\
    (pending_functors_ w'.1 <> [] -> 0 < eventfd w'.1)).
Proof.
  intros w. apply (do_pending_functors_spec (W := t nat * list nat) lens_fst countdown
    (fun fs w => w.2 = fs)).
  - intros fs l w1 H. exact H.
  - exact countdown_spec.
  - reflexivity.
  - discriminate.
Defined.

(** The countdown took two turns of the loop to queue its last functor. *)
Example countdown_runs :
  match (do_pending_functors lens_fst countdown ;; do_pending_functors lens_fst countdown)
    (mk false EpollPoller.make [2; 0]%nat false 0, []) with
  | Ret w _ => w.2 = [2; 0; 1]%nat /\ pending_functors_ w.1 = [0]%nat /\ eventfd w.1 = 2
  | _ => False
  end.
Proof. by vm_compute. Qed.

(** [quit()] before [loop()] has no effect: [loop()] clears the flag first. *)
Example quit_before_loop_is_lost :
  let poll := fun _ => mret [] : M (t nat * list nat) (list EpollPoller.ptr) in
  let turn := EpollPoller.WaitOk [] in
  (quit lens_fst true ;;
   loop lens_fst countdown poll (fun _ => mret ()) true [turn; turn; turn])
    (mk false EpollPoller.make [] false 0, []) = OutOfFuel.
Proof. reflexivity. Qed.

End EventLoop.

(** * The loop and the threads that queue work for it *)

Module Wakeup.
Import EventLoop.
Section wakeup.
Context {F : Type}.
(** The functors a functor queues while it runs. *)
Variable spawns : F -> list F.

(** Where the loop's thread stands in [loop()]. *)
Inductive loop_pc :=
| LTest                                 (* about to test quit_ *)
| LPoll                                 (* in epoll_wait *)
| LHandleRead                           (* about to read the eventfd *)
| LEvents                               (* handling the other channels *)
| LSetCalling                           (* about to set calling_pending_functors_ *)
| LSwap                                 (* about to take the pending functors *)
| LRun (functors : list F)              (* about to run the next functor *)
| LQueue (gs functors : list F)         (* in a functor, about to queue gs *)
| LWake (gs functors : list F)          (* in a functor, about to wake up *)
| LReturned.

(** What another thread still has to call, and whether it is between the
    change of state and the [wakeup()] of such a call. *)
Inductive request := QueueInLoop (f : F) | Quit.
Inductive client_pc := CIdle (todo : list request) | CWake (todo : list request).

Record state := mk {
  quit_ : bool;
  calling : bool;
  pending : list F;
  counter : Z;                          (* the eventfd *)
  pc : loop_pc;
  clients : list client_pc;
  pushed : list F;                      (* all functors queued so far *)
  executed : list F;                    (* all functors run so far *)
}.

Definition set_pc (p : loop_pc) (s : state) : state :=
  mk (quit_ s) (calling s) (pending s) (counter s) p (clients s) (pushed s) (executed s).
Definition set_client (j : nat) (c : client_pc) (s : state) : state :=
  mk (quit_ s) (calling s) (pending s) (counter s) (pc s) (<[j := c]> (clients s))
    (pushed s) (executed s).
Definition set_quit (b : bool) (s : state) : state :=
  mk b (calling s) (pending s) (counter s) (pc s) (clients s) (pushed s) (executed s).
Definition set_calling (b : bool) (s : state) : state :=
  mk (quit_ s) b (pending s) (counter s) (pc s) (clients s) (pushed s) (executed s).
Definition set_counter (n : Z) (s : state) : state :=
  mk (quit_ s) (calling s) (pending s) n (pc s) (clients s) (pushed s) (executed s).
Definition push (f : F) (s : state) : state :=
  mk (quit_ s) (calling s) (pending s ++ [f]) (counter s) (pc s) (clients s)
    (pushed s ++ [f]) (executed s).
Definition take_pending (s : state) : state :=
  mk (quit_ s) (calling s) [] (counter s) (pc s) (clients s) (pushed s) (executed s).
Definition ran (f : F) (s : state) : state :=
  mk (quit_ s) (calling s) (pending s) (counter s) (pc s) (clients s) (pushed s)
    (executed s ++ [f]).

Definition init (clients : list (list request)) : state :=
  mk false false [] 0 LTest (CIdle <$> clients) [] [].

(** A step of the loop's thread.  [epoll_wait] returns with or without the
    wake-up channel; without it also by its timeout. *)
Inductive loop_step (s : state) : state -> Prop :=
| step_return : pc s = LTest -> quit_ s = true -> loop_step s (set_pc LReturned s)
| step_poll : pc s = LTest -> quit_ s = false -> loop_step s (set_pc LPoll s)
| step_wake_event : pc s = LPoll -> 0 < counter s -> loop_step s (set_pc LHandleRead s)
| step_other_events : pc s = LPoll -> loop_step s (set_pc LEvents s)
| step_handle_read : pc s = LHandleRead -> loop_step s (set_pc LEvents (set_counter 0 s))
| step_handler_queues f : pc s = LEvents -> calling s = false -> loop_step s (push f s)
| step_handler_quits : pc s = LEvents -> loop_step s (set_quit true s)
| step_events_done : pc s = LEvents -> loop_step s (set_pc LSetCalling s)
| step_set_calling : pc s = LSetCalling -> loop_step s (set_pc LSwap (set_calling true s))
| step_swap : pc s = LSwap -> loop_step s (set_pc (LRun (pending s)) (take_pending s))
| step_run f fs : pc s = LRun (f :: fs) -> loop_step s (set_pc (LQueue (spawns f) fs) (ran f s))
| step_queue g gs fs : pc s = LQueue (g :: gs) fs ->
    loop_step s (set_pc (if calling s then LWake gs fs else LQueue gs fs) (push g s))
| step_wakeup gs fs : pc s = LWake gs fs ->
    loop_step s (set_pc (LQueue gs fs) (set_counter (eventfd_add (counter s)) s))
| step_functor_done fs : pc s = LQueue [] fs -> loop_step s (set_pc (LRun fs) s)
| step_turn_done : pc s = LRun [] -> loop_step s (set_pc LTest (set_calling false s)).

(** A step of another thread. *)
Inductive client_step (s : state) : state -> Prop :=
| step_client_queue j f todo : clients s !! j = Some (CIdle (QueueInLoop f :: todo)) ->
    client_step s (set_client j (CWake todo) (push f s))
| step_client_quit j todo : clients s !! j = Some (CIdle (Quit :: todo)) ->
    client_step s (set_client j (CWake todo) (set_quit true s))
| step_client_wakeup j todo : clients s !! j = Some (CWake todo) ->
    client_step s (set_client j (CIdle todo) (set_counter (eventfd_add (counter s)) s)).

Definition step (s s' : state) : Prop := loop_step s s' \/ client_step s s'.
Definition reachable (cs : list (list request)) (s : state) : Prop := rtc step (init cs) s.

(** The functors taken from the queue and not yet run. *)
Definition batch (p : loop_pc) : list F :=
  match p with LRun fs | LQueue _ fs | LWake _ fs => fs | _ => [] end.

(** The loop will take the pending functors before it polls again. *)
Definition will_take (p : loop_pc) : bool :=
  match p with LHandleRead | LEvents | LSetCalling | LSwap => true | _ => false end.
Definition is_waking (p : loop_pc) : bool := match p with LWake _ _ => true | _ => false end.
Definition client_waking (c : client_pc) : Prop := match c with CWake _ => True | _ => False end.
Definition in_functors (p : loop_pc) : bool :=
  match p with LSwap | LRun _ | LQueue _ _ | LWake _ _ => true | _ => false end.

Record inv (s : state) : Prop := {
  inv_queue : pushed s = executed s ++ batch (pc s) ++ pending s;
  inv_counter : 0 <= counter s;
  inv_calling : calling s = in_functors (pc s);
  inv_awake : pending s <> [] -> will_take (pc s) = false -> pc s <> LReturned ->
    0 < counter s \/ is_waking (pc s) = true \/ Exists client_waking (clients s);
}.

Lemma Exists_set_client (l : list client_pc) j c :
  is_Some (l !! j) -> client_waking c -> Exists client_waking (<[j := c]> l).
Proof.
  intros [x Hj] Hc. apply Exists_exists. exists c. split; [|done].
  apply list_elem_of_insert. by eapply lookup_lt_Some.
Qed.

Lemma wakeup_init cs : inv (init cs).
Proof. by split. Qed.

Lemma loop_step_inv s s' : inv s -> loop_step s s' -> inv s'.
Proof.
  intros [Hq Hc Hcall Haw] Hstep.
  destruct Hstep; match goal with Hpc : pc s = _ |- _ => rewrite Hpc in Hq, Hcall, Haw end;
    simpl in Hq, Hcall, Haw;
    (split; simpl; rewrite ?Hcall, ?Hq, <- ?app_assoc, ?app_nil_r; simpl; try done).
  all: try (by intros; apply Haw).
  all: try match goal with Hpc : pc _ = LEvents |- _ => by rewrite ?Hpc end.
  - intros ???. by right; left.
  - pose proof (eventfd_add_le (counter s)). lia.
  - intros ???. left. by apply eventfd_add_pos.
Qed.

Lemma client_step_inv s s' : inv s -> client_step s s' -> inv s'.
Proof.
  intros [Hq Hc Hcall Haw] Hstep. destruct Hstep as [j f todo Hj|j todo Hj|j todo Hj]; split; simpl;
    try done.
  - by rewrite Hq, !app_assoc.
  - intros ???. right. right. by apply Exists_set_client.
  - intros ???. right. right. by apply Exists_set_client.
  - pose proof (eventfd_add_le (counter s)). lia.
  - intros ???. left. by apply eventfd_add_pos.
Qed.

Lemma reachable_inv cs s : reachable cs s -> inv s.
Proof.
  unfold reachable. intros H. pose proof (wakeup_init cs) as Hinv.
  induction H as [|s1 s2 s3 [Hl|Hc] _ IH]; [done| |]; apply IH;
    eauto using loop_step_inv, client_step_inv.
Qed.

(** No functor is lost or run twice, and none overtakes another: in every
    reachable state, for any interleaving of the loop with the threads that
    queue work, the functors queued so far, in the order of their insertion,
    are those run so far, in the order they ran, then the batch being run, then
    the pending ones. *)
Theorem functors_run_once_in_order cs s (Hr : reachable cs s) :
  pushed s = executed s ++ batch (pc s) ++ pending s.
Proof. by apply reachable_inv in Hr as []. Qed.

(** C21. No wake-up is lost: whenever the loop waits in [epoll_wait] with
    functors pending, the eventfd is readable, so that the wait ends at once,
    or a thread that queued a functor is still about to write to it. *)
Theorem no_lost_wakeup cs s (Hr : reachable cs s) (Hpc : pc s = LPoll) (Hp : pending s <> []) :
  0 < counter s \/ Exists client_waking (clients s).
Proof.
  apply reachable_inv in Hr as [_ _ _ Haw]. rewrite Hpc in Haw. simpl in Haw.
  destruct Haw as [?|[?|?]]; [done..|by left|done|by right].
Qed.

(** What a turn of the loop that began with [todo] pushed has achieved. *)
Definition progress (todo : list F) (s : state) : Prop :=
  todo `prefix_of` executed s \/
  match pc s with
  | LPoll | LHandleRead | LEvents | LSetCalling | LSwap => todo `prefix_of` pushed s
  | LRun fs | LQueue _ fs | LWake _ fs => todo `prefix_of` executed s ++ fs
  | LTest | LReturned => False
  end.

Lemma progress_step todo s s' : inv s -> progress todo s -> step s s' -> progress todo s'.
Proof.
  intros [Hq _ Hcall _] [Hd|Hp] Hstep.
  - left. destruct Hstep as [[]|[]]; simpl; try done. by apply prefix_app_r.
  - destruct Hstep as [Hl|Hc].
    + destruct Hl; match goal with Hpc : pc s = _ |- _ => rewrite Hpc in Hp, Hq, Hcall end;
        simpl in Hp, Hq, Hcall; try done; unfold progress; simpl; auto.
      * right. match goal with Hpc : pc s = _ |- _ => rewrite Hpc end. by apply prefix_app_r.
      * right. by match goal with Hpc : pc s = _ |- _ => rewrite Hpc end.
      * right. by rewrite <- Hq.
      * right. by rewrite <- app_assoc.
      * right. by rewrite Hcall.
      * left. by rewrite app_nil_r in Hp.
    + right. destruct Hc; simpl; destruct (pc s); try done; by apply prefix_app_r.
Qed.

(** Queued work runs within one turn: whatever was queued before the loop
    enters [epoll_wait] has been run, in order, when the loop next tests its
    [quit_] flag, whatever the handlers, the functors and the other threads do
    in between. *)
Theorem queued_work_runs_this_turn cs s s' (Hr : reachable cs s) (Hpc : pc s = LPoll)
    (Hss : rtc step s s') (Hpc' : pc s' = LTest) :
  pushed s `prefix_of` executed s'.
Proof.
  assert (progress (pushed s) s') as Hprog.
  { apply reachable_inv in Hr. assert (progress (pushed s) s) as H.
    { right. by rewrite Hpc. }
    clear Hpc Hpc'. revert H. generalize (pushed s) as todo. intros todo.
    induction Hss as [|s1 s2 s3 Hstep _ IH]; [done|]. intros H. apply IH.
    - destruct Hstep; eauto using loop_step_inv, client_step_inv.
    - by eapply progress_step. }
  destruct Hprog as [?|Hp]; [done|]. by rewrite Hpc' in Hp.
Qed.

End wakeup.
(** A client queues a functor that queues another while the loop polls. *)
Definition example_spawns (f : nat) : list nat := match f with O => [] | S g => [g] end.
Definition example_clients : list (list request) := [[QueueInLoop 1%nat]].
Definition example_polling : state :=
  mk false false [1%nat] 0 LPoll [CWake []] [1%nat] [].
Definition example_turn_done : state :=
  mk false false [0%nat] 1 LTest [CIdle []] [1%nat; 0%nat] [1%nat].

Lemma example_polling_reachable : reachable example_spawns example_clients example_polling.
Proof.
  eapply rtc_l; [left; by apply step_poll|].
  eapply rtc_l; [right; by eapply (step_client_queue _ 0)|]. apply rtc_refl.
Qed.

Lemma example_turn : rtc (step example_spawns) example_polling example_turn_done.
Proof.
  eapply rtc_l; [right; by eapply (step_client_wakeup _ 0)|].
  eapply rtc_l; [left; by eapply step_wake_event|].
  eapply rtc_l; [left; by eapply step_handle_read|].
  eapply rtc_l; [left; by eapply step_events_done|].
  eapply rtc_l; [left; by eapply step_set_calling|].
  eapply rtc_l; [left; by eapply step_swap|].
  eapply rtc_l; [left; by eapply step_run|].
  eapply rtc_l; [left; by eapply step_queue|].
  eapply rtc_l; [left; by eapply step_wakeup|].
  eapply rtc_l; [left; by eapply step_functor_done|].
  eapply rtc_l; [left; by eapply step_turn_done|]. apply rtc_refl.
Qed.

Lemma no_lost_wakeup_witness :
  0 < counter example_polling \/ Exists client_waking (clients example_polling).
Proof.
  apply (no_lost_wakeup example_spawns example_clients example_polling
    example_polling_reachable); [reflexivity|discriminate].
Defined.

Lemma functors_run_once_in_order_witness :
  pushed example_turn_done =
    executed example_turn_done ++ batch (pc example_turn_done) ++ pending example_turn_done.
Proof.
  apply (functors_run_once_in_order example_spawns example_clients example_turn_done).
  unfold reachable. etrans; [exact example_polling_reachable|exact example_turn].
Defined.

Lemma queued_work_runs_this_turn_witness :
  pushed example_polling `prefix_of` executed example_turn_done.
Proof.
  apply (queued_work_runs_this_turn example_spawns example_clients
    example_polling example_turn_done example_polling_reachable); [reflexivity| |reflexivity].
  exact example_turn.
Defined.

End Wakeup.
