(* ===== verification/IOLoopThread.v ===== *)
(** * The IO thread's loop (src/net/tcp_server.cpp, class IOLoopThread)

    A thread that creates an [EventLoop] of its own and runs it, as a transition
    system: the owner runs the constructor and later the destructor, the thread
    the lambda that the constructor gives it.  The two synchronise through
    [ready_], [ready_cv_] and [quit_].  No code of the program instantiates the
    class; the theorems say what would happen. *)

From Stdlib Require Import ZArith Lia.
From S2P Require Import Prelude Channel EpollPoller EventLoop.
Local Open Scope Z_scope.

Module IOLoopThread.

(** Where the owner stands. *)
Inductive owner_pc :=
| CSpawn        (* about to start [thread_] *)
| CLock         (* about to lock [mu_], which only the owner uses *)
| CPred         (* about to evaluate the predicate of [wait] *)
| CEnroll       (* it was false: about to block *)
| CWaiting      (* blocked in [ready_cv_] *)
| CReturned     (* the constructor has returned *)
| CThrew        (* [std::thread] could not be started *)
| DTest         (* in the destructor, about to test [loop_] *)
| DQuit         (* in [quit()], about to store [quit_] *)
| DWake         (* in [quit()], about to wake the loop up *)
| DJoin         (* in [join()] *)
| DMembers      (* about to destroy the members *)
| DDone.

(** Where the thread stands in its lambda. *)
Inductive thread_pc :=
| TNone         (* not started *)
| TMake         (* about to create the loop *)
| TReady        (* about to store [ready_] *)
| TNotify       (* about to notify *)
| TClear        (* in [loop()], about to clear [quit_] *)
| TTest         (* about to test [quit_] *)
| TTurn         (* in a turn of the loop *)
| TExited.

#[export] Instance owner_pc_eq_dec : EqDecision owner_pc.
Proof. solve_decision. Defined.
#[export] Instance thread_pc_eq_dec : EqDecision thread_pc.
Proof. solve_decision. Defined.

(** What [epoll_create1] and [eventfd] answer, and the wake-up channel's address. *)
Record answers := mk_answers { epoll_ret : Z; eventfd_ret : Z; wakeup_ch : EpollPoller.ptr }.

(** The members; [loop_] comes with its wake-up channel and what is open. *)
Record t := mk {
  loop_ : option (EventLoop.owned unit);
  ready_ : bool;
  owner : owner_pc;
  thread_ : thread_pc;
}.

Definition set_loop l (s : t) : t := mk l (ready_ s) (owner s) (thread_ s).
Definition set_ready b (s : t) : t := mk (loop_ s) b (owner s) (thread_ s).
Definition set_owner p (s : t) : t := mk (loop_ s) (ready_ s) p (thread_ s).
Definition set_thread p (s : t) : t := mk (loop_ s) (ready_ s) (owner s) p.

Definition init : t := mk None false CSpawn TNone.

(** [loop()] *)
Definition loop (s : t) : option (EventLoop.owned unit) := loop_ s.

Definition map_loop (f : EventLoop.t unit -> EventLoop.t unit) (s : t) : t :=
  set_loop ((fun o => EventLoop.mk_owned (EventLoop.wakeup_channel_ o) (f (EventLoop.the_loop o)) (EventLoop.fds o))
    <$> loop_ s) s.
Definition quitting (s : t) : bool :=
  match loop_ s with Some o => EventLoop.quit_ (EventLoop.the_loop o) | None => false end.

(** A step cannot be taken now, is taken, or ends the program: a failed
    assertion, or an exception that leaves a thread. *)
Inductive attempt := Blocked | Goes (s : t) | Aborts (why : string).

Section steps.
Variable sys : answers.

(** The destructors of the members: [loop_] is destroyed on the owner's thread. *)
Definition destroy_members : M (EventLoop.owned unit) unit :=
  EventLoop.destroy (wakeup_ch sys) false ;; EventLoop.destroy_members (epoll_ret sys).

Definition owner_step (s : t) : attempt :=
  match owner s with
  | CSpawn => Goes (set_owner CLock (set_thread TMake s))
  | CLock => Goes (set_owner CPred s)
  | CPred => Goes (set_owner (if ready_ s then CReturned else CEnroll) s)
  | CEnroll => Goes (set_owner CWaiting s)
  | CReturned => Goes (set_owner DTest s)                   (* [~IOLoopThread()] *)
  | DTest => Goes (set_owner (match loop_ s with Some _ => DQuit | None => DJoin end) s)
  | DQuit => Goes (set_owner DWake (map_loop (EventLoop.set_quit true) s))
  | DWake => Goes (set_owner DJoin (map_loop (fun l =>
      EventLoop.set_eventfd (EventLoop.eventfd_add (EventLoop.eventfd l)) l) s))
  | DJoin => if decide (thread_ s = TExited) then Goes (set_owner DMembers s) else Blocked
  | DMembers =>
      match loop_ s with
      | None => Goes (set_owner DDone s)
      | Some o =>
          match destroy_members o with
          | Ret _ _ => Goes (set_owner DDone (set_loop None s))
          | Throw _ _ => Aborts "std::terminate"
          | Ub why => Aborts why
          | OutOfFuel => Blocked
          end
      end
  | CWaiting | CThrew | DDone => Blocked
  end.

(** Starting the thread fails; a wait ends without a notification. *)
Definition spawn_fails (s : t) : attempt :=
  match owner s with CSpawn => Goes (set_owner CThrew s) | _ => Blocked end.
Definition spurious (s : t) : attempt :=
  match owner s with CWaiting => Goes (set_owner CLock s) | _ => Blocked end.

(** [ready_cv_.notify_one()] *)
Definition notify_one (s : t) : t :=
  match owner s with CWaiting => set_owner CLock s | _ => s end.

Definition thread_step (s : t) : attempt :=
  match thread_ s with
  | TMake =>
      match EventLoop.construct (epoll_ret sys) (eventfd_ret sys) (wakeup_ch sys) ∅ with
      | Ret fds (c, l) => Goes (set_thread TReady (set_loop (Some (EventLoop.mk_owned c l fds)) s))
      | Throw _ _ => Aborts "std::terminate"
      | Ub why => Aborts why
      | OutOfFuel => Blocked
      end
  | TReady => Goes (set_thread TNotify (set_ready true s))
  | TNotify => Goes (set_thread TClear (notify_one s))
  | TClear => Goes (set_thread TTest (map_loop (EventLoop.set_quit false) s))
  | TTest => Goes (set_thread (if quitting s then TExited else TTurn) s)
  | TTurn => Goes (set_thread TTest (map_loop (EventLoop.set_eventfd 0) s))
  | TNone | TExited => Blocked
  end.

Inductive action := AOwner | AThread | ASpawnFails | ASpurious.
Definition perform (a : action) : t -> attempt :=
  match a with
  | AOwner => owner_step
  | AThread => thread_step
  | ASpawnFails => spawn_fails
  | ASpurious => spurious
  end.

Definition step (s s' : t) : Prop := exists a, perform a s = Goes s'.
(** Without spurious wake-ups. *)
Definition proper_step (s s' : t) : Prop := exists a, a <> ASpurious /\ perform a s = Goes s'.
Definition reachable (s : t) : Prop := rtc step init s.

(** ** Invariant *)

(** The loop exists, [ready_] is set, and [loop()] has begun. *)
Definition made (p : thread_pc) : bool :=
  match p with TNone | TMake => false | _ => true end.
Definition announced (p : thread_pc) : bool :=
  match p with TNone | TMake | TReady => false | _ => true end.
(** The constructor has returned. *)
Definition constructed (p : owner_pc) : bool :=
  match p with CReturned | DTest | DQuit | DWake | DJoin | DMembers | DDone => true | _ => false end.
(** The destructor has stored [quit_]. *)
Definition told (p : owner_pc) : bool :=
  match p with DWake | DJoin | DMembers | DDone => true | _ => false end.

Definition is_some {A} (o : option A) : bool := match o with Some _ => true | None => false end.

(** What holds of [loop_], [ready_], the two threads and [quit_]: a finite check. *)
Definition consistent (has_loop ready : bool) (o : owner_pc) (th : thread_pc) (quit : bool) : bool :=
  Bool.eqb has_loop (made th) && Bool.eqb ready (announced th) &&
  implb (bool_decide (o = CSpawn \/ o = CThrew)) (bool_decide (th = TNone)) &&
  implb (constructed o) ready &&
  implb (bool_decide (th = TExited)) (told o) && implb quit (told o) &&
  implb (bool_decide (o = DMembers)) (bool_decide (th = TExited)) &&
  negb (bool_decide (o = DDone)).
Definition inv (s : t) : Prop :=
  consistent (is_some (loop_ s)) (ready_ s) (owner s) (thread_ s) (quitting s) = true.

Lemma destroy_members_aborts o : destroy_members o = Ub "is_in_loop_thread()".
Proof. unfold destroy_members, mbind, M_bind. by rewrite EventLoop.destroy_elsewhere. Qed.

Lemma initially_inv : inv init.
Proof. done. Qed.

(** The steps are cases on the program counters. *)
Ltac finish Hq :=
  try done; try match goal with H : Goes _ = Goes _ |- _ => injection H as <- end;
  simpl in *; rewrite ?Hq; try done.

Lemma owner_step_inv s s' : inv s -> owner_step s = Goes s' -> inv s'.
Proof.
  destruct s as [[w|] r o th]; unfold inv, owner_step, quitting; simpl.
  - destruct (EventLoop.quit_ (EventLoop.the_loop w)) eqn:Hq; intros Hinv Hs;
      destruct r, o, th; try done; simpl in Hs; rewrite ?destroy_members_aborts in Hs; finish Hq.
  - intros Hinv Hs. destruct r, o, th; finish initially_inv.
Qed.

Lemma thread_step_inv s s' : inv s -> thread_step s = Goes s' -> inv s'.
Proof.
  destruct s as [l r o th]. destruct (decide (th = TMake)) as [->|Hth].
  - intros Hinv Hs. assert (l = None /\ r = false /\ constructed o = false) as (-> & -> & Ho).
    { unfold inv in Hinv. simpl in Hinv. by destruct l, r, o. }
    unfold thread_step in Hs. simpl in Hs.
    pose proof (EventLoop.construct_loop_wpe (F := unit) (epoll_ret sys) (eventfd_ret sys) (wakeup_ch sys) ∅
      (not_elem_of_empty _)) as Hwp. unfold wpe in Hwp.
    destruct (EventLoop.construct _ _ _ ∅) as [fds [c l]| | |]; try done.
    destruct Hwp as (_ & _ & _ & [= -> ->]). injection Hs as <-. unfold inv in *. simpl in *. by destruct o.
  - unfold inv, thread_step, quitting. destruct l as [w|]; simpl.
    + destruct (EventLoop.quit_ (EventLoop.the_loop w)) eqn:Hq; intros Hinv Hs;
        destruct r, o, th; try done; simpl in Hs; finish Hq.
    + intros Hinv Hs. destruct r, o, th; finish initially_inv.
Qed.

Lemma step_inv s s' : inv s -> step s s' -> inv s'.
Proof.
  intros Hinv [[] Hs]; simpl in Hs; [by eapply owner_step_inv|by eapply thread_step_inv|..].
  - destruct s as [l r [] th]; try done. injection Hs as <-. exact Hinv.
  - destruct s as [l r [] th]; try done. injection Hs as <-. exact Hinv.
Qed.

Lemma reached_inv s : reachable s -> inv s.
Proof.
  apply rtc_keeps; [apply step_inv|exact initially_inv].
Qed.

(** ** [quit()] in the loop *)

Definition in_loop (p : thread_pc) : bool := match p with TTest | TTurn | TExited => true | _ => false end.

(** The steps to the end of [join()]. *)
Definition steps_left (s : t) : nat :=
  match owner s with DWake => 2 | DJoin => 1 | _ => 0 end +
  match thread_ s with TTurn => 2 | TTest => 1 | _ => 0 end.

Definition leaving (s : t) : Prop := inv s /\ quitting s = true /\ in_loop (thread_ s) = true.

Lemma leaving_step s s' : leaving s -> step s s' -> leaving s' /\ (steps_left s' < steps_left s)%nat.
Proof.
  intros (Hinv & Hq & Hth) Hs. pose proof (step_inv s s' Hinv Hs) as Hinv'.
  unfold leaving. split; [split; [done|]|]; clear Hinv'; revert Hs;
    destruct s as [[w|] r o th]; unfold inv, quitting in *; simpl in *; try done; rewrite Hq in Hinv;
    intros [[] Hs]; unfold perform, owner_step, thread_step, spawn_fails, spurious, quitting in Hs; simpl in Hs;
    destruct r, o, th; try done; simpl in Hs; rewrite ?destroy_members_aborts, ?Hq in Hs; try done;
    injection Hs as <-; unfold steps_left; simpl; split_and?; try done; lia.
Qed.

Lemma leaving_ends s : leaving s -> sn step s.
Proof.
  remember (steps_left s) as n eqn:Hn. revert s Hn. induction (lt_wf n) as [n _ IH]. intros s -> Hs.
  constructor. intros s' Hstep. destruct (leaving_step s s' Hs Hstep) as [Hs' Hlt]. by eapply IH.
Qed.

Lemma leaving_stuck s : leaving s -> nf step s -> owner s = DMembers /\ thread_ s = TExited.
Proof.
  intros (Hinv & Hq & Hth) Hnf.
  assert (forall a s', perform a s <> Goes s') as Hno by (intros a s' Ha; apply Hnf; exists s', a; exact Ha).
  pose proof (Hno AOwner) as Ho. pose proof (Hno AThread) as Ht. clear Hnf Hno.
  destruct s as [[w|] r o th]; unfold inv, quitting in *; simpl in *; [|done]. rewrite Hq in Hinv.
  destruct r, o, th; try done; exfalso; first [eapply Ho; reflexivity|eapply Ht; reflexivity].
Qed.

(** C36. What an [IOLoopThread] gives.  In any interleaving: when its constructor
    has returned, [loop()] is a loop, and its thread runs; when [quit()] comes
    after [loop()] has cleared the flag, the destructor's [join()] returns after
    at most [steps_left] more steps; but the destructor never finishes, for it
    destroys the loop on the owner's thread, where [~EventLoop()] fails its
    assertion. *)
Theorem io_loop_thread_life s (Hr : reachable s) :
  (owner s = CReturned -> is_Some (loop s) /\ announced (thread_ s) = true /\ thread_ s <> TExited) /\
  (quitting s = true -> in_loop (thread_ s) = true ->
     sn step s /\ forall s', rtc step s s' -> nf step s' -> owner s' = DMembers /\ thread_ s' = TExited) /\
  owner s <> DDone /\ (owner s = DMembers -> owner_step s = Aborts "is_in_loop_thread()").
Proof.
  apply reached_inv in Hr. split_and!.
  - destruct s as [[w|] r o th]; unfold inv in Hr; simpl in *; intros ->; [|by destruct r, th].
    split; [by eexists|]. by destruct r, th.
  - intros Hq Hth. assert (leaving s) as Hs by done. split; [by apply leaving_ends|].
    intros s' Hss' Hnf. apply leaving_stuck; [|done]. revert Hss'. apply rtc_keeps; [|done].
    intros x y Hx Hxy. by destruct (leaving_step x y Hx Hxy).
  - intros Ho. unfold inv in Hr. rewrite Ho in Hr. by destruct (is_some _), (ready_ s), (thread_ s), (quitting s).
  - intros Ho. destruct s as [[w|] r o th]; simpl in *; subst o; unfold owner_step; simpl.
    + done.
    + by destruct r, th.
Qed.

(** ** What can go wrong *)

Hypothesis epoll_works : 0 <= epoll_ret sys.
Hypothesis eventfd_works : 0 <= eventfd_ret sys.

(** The loop when the thread has made it. *)
Definition new : EventLoop.owned unit :=
  EventLoop.mk_owned (EventLoop.registered_wakeup (eventfd_ret sys))
    (EventLoop.new_loop (eventfd_ret sys) (wakeup_ch sys)) ({[eventfd_ret sys]} ∪ ({[epoll_ret sys]} ∪ ∅)).

Lemma makes_loop r o : thread_step (mk None r o TMake) = Goes (mk (Some new) r o TReady).
Proof.
  unfold thread_step, EventLoop.construct, EpollPoller.construct. simpl.
  destruct (Z.ltb_spec (epoll_ret sys) 0); [lia|]. unfold mbind, M_bind, modify. simpl.
  by rewrite EventLoop.make_eq.
Qed.

(** The owner waits for a notification that is over. *)
Definition missed (s : t) : Prop := owner s = CWaiting /\ ready_ s = true /\ thread_ s <> TNotify /\ thread_ s <> TReady /\
  thread_ s <> TMake /\ thread_ s <> TNone.
Lemma missed_step s s' : missed s -> proper_step s s' -> missed s'.
Proof.
  destruct s as [l r o th]. intros (Ho & Hr & Hth) ([] & Ha & Hs); simpl in *; subst o; try done.
  unfold missed. destruct th; try naive_solver; simpl in Hs; injection Hs as <-; simpl; try naive_solver.
  by destruct (quitting _).
Qed.

(** The owner waits for a thread that was told to quit too early. *)
Definition deaf (s : t) : Prop := owner s = DJoin /\ quitting s = false /\ (thread_ s = TTest \/ thread_ s = TTurn).
Lemma deaf_step s s' : deaf s -> step s s' -> deaf s'.
Proof.
  destruct s as [l r o th]. intros (Ho & Hq & Hth) ([] & Hs); simpl in *; subst o; try done;
    destruct Hth as [-> | ->]; try done; simpl in Hs; rewrite ?Hq in Hs; injection Hs as <-;
    unfold deaf, quitting in *; simpl in *; destruct l; simpl in *; rewrite ?Hq; auto.
Qed.

(** [IOLoopThread] can hang at both ends.  [ready_] is stored and notified
    without [mu_]: between the owner's test and its wait both are missed, and
    the constructor never returns (but for a spurious wake-up).  And [quit()]
    of a destructor that comes before [loop()] has begun is cleared by it: the
    thread runs on and [join()] never returns. *)
Theorem io_loop_thread_can_hang :
  (exists s, rtc proper_step init s /\ forall s', rtc proper_step s s' -> owner s' = CWaiting) /\
  (exists s, rtc proper_step init s /\ forall s', rtc step s s' -> owner s' = DJoin).
Proof.
  assert (forall a s s', a <> ASpurious -> perform a s = Goes s' -> proper_step s s') as Hdo by (intros; by exists a).
  split.
  - exists (mk (Some new) true CWaiting TClear). split.
    + do 3 (eapply rtc_l; [by apply (Hdo AOwner)|]).
      eapply rtc_l; [by apply (Hdo AThread), makes_loop|].
      do 2 (eapply rtc_l; [by apply (Hdo AThread)|]).
      eapply rtc_l; [by apply (Hdo AOwner)|]. apply rtc_refl.
    + intros s' Hss'. apply (rtc_keeps proper_step missed (mk (Some new) true CWaiting TClear) s'); [|done..].
      apply missed_step.
  - eexists. split.
    + do 2 (eapply rtc_l; [by apply (Hdo AOwner)|]).
      eapply rtc_l; [by apply (Hdo AThread), makes_loop|].
      eapply rtc_l; [by apply (Hdo AThread)|].
      do 5 (eapply rtc_l; [by apply (Hdo AOwner)|]).
      do 2 (eapply rtc_l; [by apply (Hdo AThread)|]). apply rtc_refl.
    + intros s' Hss'. assert (deaf s') as [? _]; [|done]. revert Hss'. apply rtc_keeps; [apply deaf_step|].
      split_and!; [done|done|by left].
Qed.

End steps.

(** ** Schedules *)

Module Demo.

Definition sys : answers := mk_answers 5 4 100%nat.

Fixpoint run (acts : list action) (s : t) : attempt :=
  match acts with
  | [] => Goes s
  | a :: acts' => match perform sys a s with Goes s' => run acts' s' | x => x end
  end.

Lemma run_steps acts s s' : run acts s = Goes s' -> rtc (step sys) s s'.
Proof.
  revert s. induction acts as [|a acts IH]; intros s; simpl; [by intros [= ->]; apply rtc_refl|].
  destruct (perform sys a s) as [|s1|] eqn:Hs; try done. intros Hr. eapply rtc_l; [by exists a|]. by apply IH.
Qed.

(** The loop runs when the destructor begins: [join()] returns, and the
    assertion fails. *)
Definition up : list action := [AOwner; AOwner; AThread; AThread; AThread; AThread; AOwner].
Definition down : list action := [AOwner; AOwner; AOwner].
Definition end_of (acts : list action) : t := match run acts init with Goes s => s | _ => init end.

Example stops_in_the_destructor :
  run (up ++ down ++ [AOwner; AThread; AOwner; AOwner]) init = Aborts "is_in_loop_thread()".
Proof. by vm_compute. Qed.

(** Without [eventfd] the exception ends the program. *)
Example no_eventfd : thread_step (mk_answers 5 (-1) 100%nat) (mk None false CWaiting TMake) = Aborts "std::terminate".
Proof. by vm_compute. Qed.

Lemma io_loop_thread_life_witness :
  is_Some (loop (end_of up)) /\
  sn (step sys) (end_of (up ++ down)) /\
  (forall s', rtc (step sys) (end_of (up ++ down)) s' -> nf (step sys) s' -> owner s' = DMembers /\ thread_ s' = TExited).
Proof.
  split.
  - apply (io_loop_thread_life sys (end_of up)); [|reflexivity]. apply (run_steps up). vm_compute. reflexivity.
  - apply (io_loop_thread_life sys (end_of (up ++ down))); [|reflexivity..].
    apply (run_steps (up ++ down)). vm_compute. reflexivity.
Defined.

Lemma io_loop_thread_can_hang_witness :
  (exists s, rtc (proper_step sys) init s /\ forall s', rtc (proper_step sys) s s' -> owner s' = CWaiting) /\
  (exists s, rtc (proper_step sys) init s /\ forall s', rtc (step sys) s s' -> owner s' = DJoin).
Proof. apply (io_loop_thread_can_hang sys); simpl; lia. Defined.

End Demo.

End IOLoopThread.
