(* ===== verification/TcpConnection.v ===== *)
(** * TCP connections (include/net/tcp_connection.h, src/net/tcp_connection.cpp)

    A connection on its loop: the object, the loop it lives on, its socket in
    the kernel and the state [U] of the code its callbacks belong to.  The
    socket is the class [Socket], whose laws [SocketOk] are the documented
    behaviour of [write], [readv] and [shutdown]. *)

From Stdlib Require Import ZArith Lia.
From S2P Require Import Prelude NetBuffer Channel EpollPoller EventLoop.
Local Open Scope Z_scope.

(** ** The kernel's side of a stream socket *)

Inductive write_result := WriteErr (errno : Z) | WriteOk (n : Z).

Definition EWOULDBLOCK : Z := 11.

Class Socket (K : Type) := {
  sys_write : bytes -> K -> write_result * K;
  sys_readv : Z -> K -> Buffer.read_result * K;     (* the capacity of the iovec *)
  sys_shutdown : K -> K;                            (* shutdown(fd, SHUT_WR) *)
}.

(** [sent]: the bytes the kernel has accepted for sending, in order. *)
Class SocketOk (K : Type) `{Socket K} := {
  sent : K -> bytes;
  write_ok data k n k' : sys_write data k = (WriteOk n, k') ->
    0 <= n <= zlen data /\ sent k' = sent k ++ ztake n data;
  write_err data k e k' : sys_write data k = (WriteErr e, k') -> sent k' = sent k;
  readv_ok cap k d k' : 0 <= cap -> sys_readv cap k = (Buffer.ReadOk d, k') ->
    zlen d <= cap /\ sent k' = sent k;
  readv_err cap k e k' : sys_readv cap k = (Buffer.ReadErr e, k') -> sent k' = sent k;
  shutdown_sent k : sent (sys_shutdown k) = sent k;
}.

Module TcpConnection.

Inductive State := kConnecting | kConnected | kDisconnecting | kDisconnected.

#[export] Instance state_eq_dec : EqDecision State.
Proof. solve_decision. Defined.

(** The data members that change. *)
Record t := mk {
  state_ : State;
  channel_ : Channel.t;
  input_buf_ : Buffer.t;
  output_buf_ : Buffer.t;
}.

(** The functors a connection queues in its loop. *)
Inductive functor :=
| SendInLoop (data : bytes)       (* [this, data]{ send_in_loop(data) } *)
| ShutdownInLoop                  (* [this]{ shutdown_in_loop() } *)
| HandleClose.                    (* [self]{ self->handle_close() } *)

(** [TcpConnection(loop, sockfd, ...)] *)
Definition make (sockfd : Z) : t :=
  mk kConnecting (Channel.make sockfd) (Buffer.make Buffer.kInitialSize)
    (Buffer.make Buffer.kInitialSize).

(** [~TcpConnection()], over the open descriptors, then the channel's. *)
Definition destroy : M (t * gset Z) unit :=
  sockfd_ ← gets (fun w => Channel.fd_ (channel_ w.1));
  zoom lens_snd (EpollPoller.close sockfd_) ;;
  c ← gets (fun w => channel_ w.1);
  with_local c (Channel.destroy lens_snd).

Record world (K U : Type) := mk_world {
  conn : t;
  loop : EventLoop.t functor;
  sock : K;
  user : U;
}.
Arguments mk_world {K U} conn loop sock user.
Arguments conn {K U} w.
Arguments loop {K U} w.
Arguments sock {K U} w.
Arguments user {K U} w.

Section code.
Context {K U : Type} `{Socket K}.
Abbreviation W := (world K U).

Definition set_conn (c : t) (w : W) : W := mk_world c (loop w) (sock w) (user w).
Definition set_loop (l : EventLoop.t functor) (w : W) : W := mk_world (conn w) l (sock w) (user w).
Definition set_sock (k : K) (w : W) : W := mk_world (conn w) (loop w) k (user w).

Definition loop_lens : Lens W (EventLoop.t functor) := mkLens loop set_loop.
Definition state_lens : Lens W State := mkLens (fun w => state_ (conn w)) (fun s w =>
  set_conn (mk s (channel_ (conn w)) (input_buf_ (conn w)) (output_buf_ (conn w))) w).
Definition channel_lens : Lens W Channel.t := mkLens (fun w => channel_ (conn w)) (fun c w =>
  set_conn (mk (state_ (conn w)) c (input_buf_ (conn w)) (output_buf_ (conn w))) w).
Definition input_lens : Lens W Buffer.t := mkLens (fun w => input_buf_ (conn w)) (fun b w =>
  set_conn (mk (state_ (conn w)) (channel_ (conn w)) b (output_buf_ (conn w))) w).
Definition output_lens : Lens W Buffer.t := mkLens (fun w => output_buf_ (conn w)) (fun b w =>
  set_conn (mk (state_ (conn w)) (channel_ (conn w)) (input_buf_ (conn w)) b) w).

(** The channel together with the loop's poller. *)
Definition reg_lens : Lens W (Channel.t * EpollPoller.t) :=
  mkLens (fun w => (channel_ (conn w), EventLoop.poller_ (loop w)))
    (fun p w => set_loop (EventLoop.set_poller p.2 (loop w)) (lset channel_lens p.1 w)).

(** The address of the channel and the callbacks of the connection. *)
Variable ch : EpollPoller.ptr.
Variables conn_cb_ msg_cb_ wc_cb_ close_cb_ : option (M W unit).

Definition load_state : M W State := gets (lget state_lens).
Definition store_state (s : State) : M W unit := zoom state_lens (modify (fun _ => s)).
Definition is_writing : M W bool := gets (fun w => Channel.is_writing (channel_ (conn w))).

(** The connection's channel operations: its callers run on the loop's thread. *)
Definition update_channel : M W unit := EventLoop.update_channel reg_lens true ch.
Definition remove_from_loop : M W unit := EventLoop.remove_channel reg_lens true ch.
Definition enable_reading : M W unit := Channel.enable_reading channel_lens update_channel.
Definition enable_writing : M W unit := Channel.enable_writing channel_lens update_channel.
Definition disable_writing : M W unit := Channel.disable_writing channel_lens update_channel.
Definition disable_all : M W unit := Channel.disable_all channel_lens update_channel.
Definition channel_remove : M W unit :=
  Channel.remove channel_lens update_channel remove_from_loop.

Definition write (data : bytes) : M W write_result := fun w =>
  let '(r, k) := sys_write data (sock w) in Ret (set_sock k w) r.
Definition readv (cap : Z) : M W Buffer.read_result := fun w =>
  let '(r, k) := sys_readv cap (sock w) in Ret (set_sock k w) r.

Definition handle_close : M W unit :=
  store_state kDisconnected ;;
  disable_all ;;
  call_if conn_cb_ ;;
  call_if close_cb_.

Definition handle_error : M W unit := handle_close.

Definition send_in_loop (in_loop : bool) (data : bytes) : M W unit :=
  EventLoop.assert_in_loop_thread in_loop ;;
  s ← load_state;
  if decide (s = kDisconnected) then mret ()
  else
    writing ← is_writing;
    readable ← gets (fun w => Buffer.readable (output_buf_ (conn w)));
    let buffer_rest (written : Z) : M W unit :=
      zoom output_lens (Buffer.append (zdrop written data)) ;;
      writing ← is_writing;
      when (negb writing) enable_writing in
    if negb writing && (readable =? 0) then
      r ← write data;
      match r with
      | WriteErr e => if negb (e =? EWOULDBLOCK) then handle_error else buffer_rest 0
      | WriteOk n => if n =? zlen data then call_if wc_cb_ else buffer_rest n
      end
    else buffer_rest 0.

Definition shutdown_in_loop : M W unit :=
  writing ← is_writing;
  when (negb writing) (modify (fun w => set_sock (sys_shutdown (sock w)) w)).

Definition run_functor (f : functor) : M W unit :=
  match f with
  | SendInLoop data => send_in_loop true data
  | ShutdownInLoop => shutdown_in_loop
  | HandleClose => handle_close
  end.

Definition run_in_loop (in_loop : bool) (f : functor) : M W unit :=
  EventLoop.run_in_loop loop_lens run_functor in_loop f.

(** In the functions that any thread may call, [in_loop] says whether the
    caller is the loop's thread. *)
Definition send (in_loop : bool) (data : bytes) : M W unit :=
  s ← load_state;
  if decide (s = kConnected) then
    if in_loop then send_in_loop in_loop data else run_in_loop in_loop (SendInLoop data)
  else mret ().

(** [send(Buffer* buf)], with the caller's buffer *)
Definition send_buffer (in_loop : bool) : M (W * Buffer.t) unit :=
  s ← zoom lens_fst load_state;
  if decide (s = kConnected) then
    data ← zoom lens_snd Buffer.retrieve_all_as_string;
    zoom lens_fst (run_in_loop in_loop (SendInLoop data))
  else mret ().

(** [shutdown()]: the test and the store are two accesses to [state_]. *)
Definition shutdown_test : M W bool := s ← load_state; mret (bool_decide (s = kConnected)).
Definition shutdown_act (in_loop : bool) : M W unit :=
  store_state kDisconnecting ;; run_in_loop in_loop ShutdownInLoop.
Definition shutdown (in_loop : bool) : M W unit :=
  c ← shutdown_test; when c (shutdown_act in_loop).

Definition force_close (in_loop : bool) : M W unit :=
  s ← load_state;
  c ← (if decide (s = kConnected) then mret true
       else s' ← load_state; mret (bool_decide (s' = kDisconnecting)));
  when c (store_state kDisconnecting ;; EventLoop.queue_in_loop loop_lens in_loop HandleClose).

Definition handle_read : M W unit :=
  cap ← gets (fun w => Buffer.iov_capacity (input_buf_ (conn w)));
  res ← readv cap;
  r ← zoom input_lens (Buffer.read_fd res);
  let n := r.1 in
  if 0 <? n then call_if msg_cb_
  else if n =? 0 then handle_close
  else handle_error.

Definition handle_write : M W unit :=
  writing ← is_writing;
  if negb writing then mret ()
  else
    readable ← gets (fun w => Buffer.readable (output_buf_ (conn w)));
    data ← zoom output_lens (Buffer.peek 0 readable);
    r ← write data;
    match r with
    | WriteErr _ => mret ()
    | WriteOk n =>
        when (0 <? n) (
          zoom output_lens (Buffer.retrieve n) ;;
          readable ← gets (fun w => Buffer.readable (output_buf_ (conn w)));
          when (readable =? 0) (
            disable_writing ;;
            call_if wc_cb_ ;;
            s ← load_state;
            when (bool_decide (s = kDisconnecting)) shutdown_in_loop))
    end.

Definition connection_established : M W unit :=
  store_state kConnected ;;
  Channel.tie channel_lens ch ;;
  enable_reading ;;
  call_if conn_cb_.

Definition connection_destroyed : M W unit :=
  s ← load_state;
  when (bool_decide (s = kConnected)) (
    store_state kDisconnected ;;
    disable_all ;;
    call_if conn_cb_) ;;
  channel_remove.

(** An event on the connection's channel; the connection is alive while its
    loop dispatches. *)
Definition on_event (revents : Z) : M W unit :=
  zoom channel_lens (modify (Channel.set_revents revents)) ;;
  Channel.handle_event channel_lens (Some handle_read) (Some handle_write)
    (Some handle_error) (Some handle_close) (fun _ _ => true).

End code.

#[export] Instance input_lens_ok {K U} : LensOk (@input_lens K U).
Proof. split; [done|by intros [[] ? ? ?]|done]. Qed.

(** ** Invariant *)

Definition rank (s : State) : Z :=
  match s with kConnecting => 0 | kConnected => 1 | kDisconnecting => 2 | kDisconnected => 3 end.

(** The one failure that is not excluded: the vector of a buffer cannot grow. *)
Definition oom {W} (_ : W) (e : exn) : Prop := e = length_error "vector::_M_default_append".

Section proofs.
Context {K U : Type} `{SocketOk K}.
Abbreviation W := (world K U).
Variable ch : EpollPoller.ptr.
Variables conn_cb_ msg_cb_ wc_cb_ close_cb_ : option (M W unit).

(** The connection's descriptor, and the registrations of all others. *)
Variables (fd0 : Z) (k0 : gmap Z Z) (m0 : gmap Z EpollPoller.ptr).
Implicit Types (w : W).

(** The object that owns the connection: what holds of it and of the functors
    the connection has queued, the functors that may be queued, and when it has
    let the connection go. *)
Variable J : U -> list functor -> Prop.
Variable allowed : functor -> Prop.
Variable gone : U -> Prop.
Hypothesis J_push : forall u fs f, allowed f -> J u fs -> J u (fs ++ [f]).

(** What was accepted for sending: the bytes the kernel has, then the bytes
    still buffered. *)
Definition stream w : bytes := sent (sock w) ++ Buffer.contents (output_buf_ (conn w)).
Definition writing w : bool := Channel.is_writing (channel_ (conn w)).
Definition state w : State := state_ (conn w).
Definition buffered w : bytes := Buffer.contents (output_buf_ (conn w)).

Definition registered (p : Channel.t * EpollPoller.t) : Prop :=
  exists k, EpollPoller.registered ch fd0 k0 m0 True p k.

(** The buffers are well formed, the kernel's interest set agrees with the
    channel, and buffered data has a write event coming. *)
Record inv w : Prop := {
  inv_input : Buffer.wf (input_buf_ (conn w));
  inv_output : Buffer.wf (output_buf_ (conn w));
  inv_reg : registered (lget reg_lens w);
  inv_write : buffered w <> [] -> state w <> kDisconnected -> writing w = true;
  inv_user : J (user w) (EventLoop.pending_functors_ (loop w));
}.

(** Progress: nothing accepted is lost, reordered or repeated, the state only
    moves on, and a connection that was let go is not taken back. *)
Record ext0 w w' : Prop := {
  ext_stream : stream w `prefix_of` stream w';
  ext_sent : sent (sock w) `prefix_of` sent (sock w');
  ext_rank : rank (state w) <= rank (state w');
  ext_gone : gone (user w) -> gone (user w');
}.

(** A channel that is off the poller and asks for nothing. *)
Definition unhooked (c : Channel.t) : Prop :=
  Channel.index_ c = EpollPoller.kNew /\ Channel.events_ c = Channel.kNoneEvent.

(** A connection that was let go is closed and not registered any more. *)
Definition off w : Prop :=
  state w = kDisconnected /\ unhooked (channel_ (conn w)).
Definition clean w : Prop := gone (user w) -> off w.

(** Whole operations also let the connection go when they close it, and leave
    it off. *)
Record ext w w' : Prop := {
  ext_base : ext0 w w';
  ext_closed : state w' = kDisconnected -> state w = kDisconnected \/ gone (user w');
  ext_clean : clean w -> clean w';
}.

#[export] Instance ext0_preorder : PreOrder ext0.
Proof.
  split.
  - intros w. by split.
  - intros w1 w2 w3 [] []. split; [by etrans..|lia|auto].
Qed.

#[export] Instance ext_preorder : PreOrder ext.
Proof.
  split.
  - intros w. split; [done|by left|done].
  - intros w1 w2 w3 [H12 Hc12 Hl12] [H23 Hc23 Hl23]. split; [by etrans| |auto].
    intros Hs. destruct (Hc23 Hs) as [Hs2|?]; [|by right].
    destruct (Hc12 Hs2) as [|Hg]; [by left|right]. by apply H23.
Qed.

(** Progress while the connection is open, *)
Lemma ext_while_open w w' :
  ext0 w w' -> user w' = user w -> state w <> kDisconnected -> state w' <> kDisconnected ->
  ext w w'.
Proof.
  intros He Hu Hs Hs'. split; [done|done|]. intros Hc. unfold clean. rewrite Hu.
  intros Hg. by destruct (Hc Hg).
Qed.

(** while it is written to, *)
Lemma ext_while_writing w w' :
  ext0 w w' -> user w' = user w -> state w' = state w -> writing w = true -> ext w w'.
Proof.
  intros He Hu Hs Hw. split; [done|rewrite Hs; by left|]. intros Hc. unfold clean. rewrite Hu.
  intros Hg. destruct (Hc Hg) as (_ & _ & Hev). unfold writing, Channel.is_writing in Hw.
  by rewrite Hev in Hw.
Qed.

(** and when its registration does not change. *)
Lemma ext_same_reg w w' :
  ext0 w w' -> user w' = user w -> state w' = state w ->
  Channel.index_ (channel_ (conn w')) = Channel.index_ (channel_ (conn w)) ->
  Channel.events_ (channel_ (conn w')) = Channel.events_ (channel_ (conn w)) -> ext w w'.
Proof.
  intros He Hu Hs Hi Hev. split; [done|rewrite Hs; by left|]. unfold clean, off, unhooked.
  by rewrite Hu, Hs, Hi, Hev.
Qed.

(** An operation that keeps the invariant and makes progress. *)
Definition good (m : M W unit) : Prop :=
  forall w, inv w -> wpe m w (fun w' _ => inv w' /\ ext w w') oom.

Lemma good_ret : good (mret ()).
Proof. intros w Hw. apply wpe_ret. by split. Qed.

Lemma good_seq m1 m2 : good m1 -> good m2 -> good (m1 ;; m2).
Proof.
  intros H1 H2 w Hw. apply wpe_bind. eapply wpe_mono; [by apply H1| |done].
  intros w1 [] [Hw1 He1]. eapply wpe_mono; [by apply H2| |done].
  intros w2 [] [Hw2 He2]. split; [done|]. by etrans.
Qed.

Lemma good_when c m : good m -> good (when c m).
Proof. intros Hm. destruct c; [done|apply good_ret]. Qed.

(** From a state with the same stream and at most the same rank. *)
Lemma good_from m w w0 : good m -> inv w0 -> ext w w0 -> wpe m w0 (fun w' _ => inv w' /\ ext w w') oom.
Proof.
  intros Hm Hw0 He. eapply wpe_mono; [by apply Hm| |done].
  intros w' [] [Hw' He']. split; [done|]. by etrans.
Qed.

(** ** Channel operations *)

Lemma change_events_wp f w :
  registered (lget reg_lens w) ->
  EpollPoller.level_triggered (f (Channel.events_ (channel_ (conn w)))) ->
  wp (Channel.change_events channel_lens (update_channel ch) f) w (fun w' _ =>
    exists c p, w' = lset reg_lens (c, p) w /\ registered (c, p) /\
      Channel.events_ c = f (Channel.events_ (channel_ (conn w)))).
Proof.
  intros [k Hreg] Hlt. unfold Channel.change_events, update_channel, EventLoop.update_channel.
  wp_pures. apply wp_assert; [done|]. wp_pures.
  eapply wp_mono.
  { eapply EpollPoller.update_channel_spec.
    exact (EpollPoller.change_events_registered _ _ _ _ _ _ f Hreg Hlt). }
  cbv beta. intros [c p] _ (k' & Hreg' & Hc). exists c, p. split_and!; [done|by exists k'|].
  simpl in Hc. by rewrite Hc.
Qed.

Lemma inv_set_reg c p w :
  inv w -> registered (c, p) ->
  (buffered w <> [] -> state w <> kDisconnected -> Channel.is_writing c = true) ->
  inv (lset reg_lens (c, p) w) /\ ext0 w (lset reg_lens (c, p) w).
Proof. intros [] Hreg Hwr. split; [by split|by split]. Qed.

Lemma change_events_open f w :
  (forall e, EpollPoller.level_triggered e -> EpollPoller.level_triggered (f e)) ->
  inv w -> state w <> kDisconnected ->
  (buffered w <> [] -> Epoll.has (f (Channel.events_ (channel_ (conn w)))) Channel.kWriteEvent = true) ->
  wpe (Channel.change_events channel_lens (update_channel ch) f) w
    (fun w' _ => inv w' /\ ext w w' /\ state w' = state w) oom.
Proof.
  intros Hlt Hw Hs Hwr. apply wp_wpe. eapply wp_mono.
  { apply change_events_wp; [apply Hw|]. apply Hlt. destruct (inv_reg _ Hw) as [k Hk].
    apply (EpollPoller.reg_mask _ _ _ _ _ _ _ Hk). }
  cbv beta. intros w' _ (c & p & -> & Hreg & He).
  destruct (inv_set_reg c p w Hw Hreg) as [Hw' He'].
  { intros Hb _. unfold Channel.is_writing. rewrite He. by apply Hwr. }
  split_and!; [done|by apply ext_while_open|done].
Qed.

Lemma has_lor e m : Epoll.has e Channel.kWriteEvent = true ->
  Epoll.has (Z.lor e m) Channel.kWriteEvent = true.
Proof.
  unfold Epoll.has. intros Hn%negb_true_iff%Z.eqb_neq. apply negb_true_iff, Z.eqb_neq.
  rewrite Z.land_lor_distr_l. intros [He _]%Z.lor_eq_0_iff. done.
Qed.

Lemma has_lor_write e : Epoll.has (Z.lor e Channel.kWriteEvent) Channel.kWriteEvent = true.
Proof.
  unfold Epoll.has. apply negb_true_iff, Z.eqb_neq. rewrite Z.land_lor_distr_l.
  intros [_ He]%Z.lor_eq_0_iff. done.
Qed.

Lemma enable_reading_wpe w :
  inv w -> state w <> kDisconnected ->
  wpe (enable_reading ch) w (fun w' _ => inv w' /\ ext w w' /\ state w' = state w) oom.
Proof.
  intros Hw Hs. apply change_events_open; [|done..|].
  - intros e He. by apply EpollPoller.level_lor.
  - intros Hb. apply has_lor. by apply Hw.
Qed.

(** ** Member functions, with well-behaved callbacks *)

Hypothesis conn_cb_good : good (call_if conn_cb_).
Hypothesis msg_cb_good : good (call_if msg_cb_).
Hypothesis wc_cb_good : good (call_if wc_cb_).
(** The close callback lets the connection go. *)
Hypothesis close_cb_lets_go : forall w, inv w -> state w = kDisconnected ->
  wpe (call_if close_cb_) w (fun w' _ => inv w' /\ ext0 w w' /\ gone (user w') /\ off w') oom.

Lemma rank_le_max s : rank s <= rank kDisconnected.
Proof. destruct s; simpl; lia. Qed.

Lemma rank_disconnected s : rank kDisconnected <= rank s -> s = kDisconnected.
Proof. destruct s; simpl; (lia || done). Qed.

Lemma ext_disconnected w w' : ext0 w w' -> state w = kDisconnected -> state w' = kDisconnected.
Proof. intros [_ _ Hr _] Hs. apply rank_disconnected. by rewrite <- Hs. Qed.

(** Storing a later state. *)
Lemma store_state_base s w :
  inv w -> rank (state w) <= rank s ->
  inv (lset state_lens s w) /\ ext0 w (lset state_lens s w).
Proof.
  intros [] Hr. split; [|by split]. split; try done. simpl. intros Hb Hne.
  apply inv_write0; [done|]. intros Hs. apply Hne. rewrite Hs in Hr.
  by apply rank_disconnected in Hr.
Qed.

Lemma store_state_later s w :
  inv w -> rank (state w) <= rank s -> s <> kDisconnected ->
  inv (lset state_lens s w) /\ ext w (lset state_lens s w).
Proof.
  intros Hw Hr Hs. destruct (store_state_base s w Hw Hr) as [Hw' He'].
  split; [done|]. apply ext_while_open; [done..| |done].
  intros Hd. rewrite Hd in Hr. by apply rank_disconnected in Hr.
Qed.

(** Closing up to the callbacks. *)
Lemma close_channel_spec w (m : M W unit) (Q : W -> unit -> Prop) :
  inv w ->
  (forall w', inv w' -> ext0 w w' -> state w' = kDisconnected ->
     Channel.events_ (channel_ (conn w')) = Channel.kNoneEvent -> wpe m w' Q oom) ->
  wpe (store_state kDisconnected ;; disable_all ch ;; m) w Q oom.
Proof.
  intros Hw Hm. unfold store_state. wpe_pures.
  destruct (store_state_base kDisconnected w Hw) as [Hw1 He1]; [apply rank_le_max|].
  set (w1 := lset state_lens _ w) in *. apply wp_wpe.
  eapply wp_mono; [by apply (change_events_wp (fun _ => Channel.kNoneEvent)); [apply Hw1|]|].
  cbv beta. intros w2 _ (c & p & -> & Hreg & Hev).
  destruct (inv_set_reg c p w1 Hw1 Hreg) as [Hw2 He2]; [by intros _ []|].
  apply Hm; [done|by etrans|done|exact Hev].
Qed.

Lemma handle_close_spec w :
  inv w ->
  wpe (handle_close ch conn_cb_ close_cb_) w
    (fun w' _ => inv w' /\ ext w w' /\ state w' = kDisconnected /\ gone (user w')) oom.
Proof.
  intros Hw. unfold handle_close. apply close_channel_spec; [done|]. intros w1 Hw1 He1 Hs1 _.
  wpe_pures. eapply wpe_mono; [by apply conn_cb_good| |done]. intros w2 [] [Hw2 He2].
  assert (state w2 = kDisconnected) as Hs2 by (eapply ext_disconnected; [apply He2|done]).
  eapply wpe_mono; [by apply close_cb_lets_go| |done]. intros w3 [] (Hw3 & He3 & Hg & Hoff).
  assert (ext0 w w3) as He by (etrans; [exact He1|]; etrans; [apply He2|exact He3]).
  split_and!; [done| |apply Hoff|done]. split; [done|by right|by intros _ _].
Qed.

Lemma good_handle_close : good (handle_close ch conn_cb_ close_cb_).
Proof.
  intros w Hw. eapply wpe_mono; [by apply handle_close_spec| |done]. naive_solver.
Qed.

(** A write to the socket: the stream is the same if what the kernel took is
    then taken off the buffer, or was never in it. *)
Lemma write_wp data w (Q : W -> write_result -> Prop) E :
  (forall r k, sys_write data (sock w) = (r, k) -> Q (set_sock k w) r) ->
  wpe (write data) w Q E.
Proof. intros HQ. unfold wpe, write. destruct (sys_write data (sock w)) as [r k] eqn:Hr. by apply HQ. Qed.

Lemma readable_buffered w :
  inv w -> Buffer.readable (output_buf_ (conn w)) = zlen (buffered w).
Proof. intros Hw. apply Buffer.readable_eq, Hw. Qed.

(** Buffering [rest] after the kernel took [taken]. *)
Lemma buffer_rest_spec rest taken w w1 :
  inv w1 -> Buffer.is_object rest ->
  stream w1 = stream w ++ taken -> sent (sock w) `prefix_of` sent (sock w1) ->
  state w1 = state w -> user w1 = user w -> state w <> kDisconnected ->
  wpe (zoom output_lens (Buffer.append rest) ;;
       writing ← is_writing;
       when (negb writing) (enable_writing ch)) w1
    (fun w' _ => inv w' /\ ext w w' /\ stream w' = stream w ++ taken ++ rest) oom.
Proof.
  intros Hw1 Hobj Hst Hsent Hst1 Hu1 Hopen. wpe_pures.
  eapply wpe_mono; [apply Buffer.append_wpe; [apply Hw1|done]| |by intros b e (_ & -> & _)].
  cbv beta. intros b _ (Hb & Hc & _). unfold is_writing. wpe_pures.
  set (w2 := lset output_lens b w1).
  assert (stream w2 = stream w ++ taken ++ rest) as Hst2.
  { unfold stream at 1, w2. simpl. rewrite Hc, (app_assoc (sent _)).
    change (sent (sock w1) ++ _) with (stream w1). by rewrite Hst, <- app_assoc. }
  assert (forall w', stream w' = stream w2 -> sock w' = sock w1 -> user w' = user w1 ->
    state w' = state w1 -> ext w w') as Hext.
  { intros w' Hs' Hk Hu Hs. apply ext_while_open; [|congruence..].
    split; [rewrite Hs', Hst2; by apply prefix_app_r|by rewrite Hk|by rewrite Hs, Hst1|].
    by rewrite Hu, Hu1. }
  destruct (Channel.is_writing (channel_ (conn w2))) eqn:Hwr; simpl.
  - apply wpe_ret. split_and!; [|by apply Hext|done]. destruct Hw1; by split.
  - (* enabling write events restores the invariant *)
    apply wp_wpe. eapply wp_mono.
    { apply (change_events_wp (fun e => Z.lor e Channel.kWriteEvent)); [apply Hw1|].
      destruct (inv_reg _ Hw1) as [k Hk]. apply EpollPoller.level_lor; [|done].
      apply (EpollPoller.reg_mask _ _ _ _ _ _ _ Hk). }
    cbv beta. intros w3 _ (c & p & -> & Hreg & Hev).
    split_and!; [|by apply Hext|exact Hst2].
    destruct Hw1. split; simpl; try done. intros _ _. unfold writing, Channel.is_writing.
    simpl. rewrite Hev. apply has_lor_write.
Qed.

Lemma zdrop_object n (data : bytes) :
  Buffer.is_object data -> Buffer.is_object (zdrop n data).
Proof. unfold Buffer.is_object, zlen, zdrop. rewrite length_drop. lia. Qed.

(** Changing only the socket, when the kernel has sent no more. *)
Lemma set_sock_same k w :
  inv w -> sent k = sent (sock w) -> inv (set_sock k w) /\ ext w (set_sock k w).
Proof.
  intros Hw Hk. split; [by destruct Hw; split|]. apply ext_same_reg; [|done..].
  split; simpl; [|by rewrite Hk|done..]. unfold stream. simpl. by rewrite Hk.
Qed.

(** What [send_in_loop data] promises. *)
Definition send_post (data : bytes) w w' : Prop :=
  inv w' /\ ext w w' /\ (state w = kDisconnected -> w' = w) /\
  (state w <> kDisconnected ->
     stream w ++ data `prefix_of` stream w' /\
       (wc_cb_ = None -> stream w' = stream w ++ data) \/ state w' = kDisconnected).

Lemma send_in_loop_wpe data w :
  inv w -> Buffer.is_object data ->
  wpe (send_in_loop ch conn_cb_ wc_cb_ close_cb_ true data) w
    (fun w' _ => send_post data w w') oom.
Proof.
  intros Hw Hobj. unfold send_in_loop, EventLoop.assert_in_loop_thread, load_state. wpe_pures.
  change (lget state_lens w) with (state w).
  destruct (decide (state w = kDisconnected)) as [Hs|Hs]; [by apply wpe_ret|].
  assert (forall w', inv w' /\ ext w w' /\ stream w ++ data `prefix_of` stream w' /\
      (wc_cb_ = None -> stream w' = stream w ++ data) ->
    send_post data w w') as Hdone by (intros w' (?&?&?); split_and!; [done..|by left]).
  unfold is_writing. wpe_pures. rewrite (readable_buffered w Hw).
  assert (forall taken w1, inv w1 -> stream w1 = stream w ++ taken -> data = taken ++ zdrop (zlen taken) data ->
    sent (sock w) `prefix_of` sent (sock w1) -> state w1 = state w -> user w1 = user w ->
    wpe (zoom output_lens (Buffer.append (zdrop (zlen taken) data)) ;;
         writing ← is_writing;
         when (negb writing) (enable_writing ch)) w1 (fun w' _ => send_post data w w') oom) as Hrest.
  { intros taken w1 Hw1 Hst Hd Hsent Hs1 Hu1.
    eapply wpe_mono; [apply (buffer_rest_spec _ taken w)| |done]; try done.
    - by apply zdrop_object.
    - intros w' [] (Hw' & He' & Hp). apply Hdone. rewrite <- Hd in Hp. by rewrite Hp. }
  destruct (negb (Channel.is_writing (channel_ (conn w))) && (zlen (buffered w) =? 0)) eqn:Hhappy.
  2: { apply (Hrest []); [done|by rewrite app_nil_r|done..]. }
  apply andb_true_iff in Hhappy as [_ Hempty%Z.eqb_eq]. apply zlen_0_nil in Hempty.
  wpe_pures. apply write_wp. intros r k Hk. wpe_pures. destruct r as [e|n].
  - pose proof (write_err _ _ _ _ Hk) as Hsame.
    destruct (set_sock_same k w Hw Hsame) as [Hw1 He1].
    destruct (negb (e =? EWOULDBLOCK)).
    + eapply wpe_mono; [by apply handle_close_spec| |done].
      intros w' [] (Hw' & He' & Hs' & _). split_and!; [done|by etrans|done|by right].
    + apply (Hrest []); [done| |done| |done|done].
      * rewrite app_nil_r. unfold stream. simpl. by rewrite Hsame.
      * simpl. by rewrite Hsame.
  - destruct (write_ok _ _ _ _ Hk) as [Hn Hsent].
    assert (inv (set_sock k w)) as Hw1 by (destruct Hw; by split).
    assert (stream (set_sock k w) = stream w ++ ztake n data) as Hst.
    { unfold stream. simpl. fold (buffered w). rewrite Hempty, !app_nil_r. done. }
    destruct (Z.eqb_spec n (zlen data)) as [->|Hlt].
    + rewrite ztake_all in Hst, Hsent by done.
      apply (wpe_mono _ _ (fun w' _ => (inv w' /\ ext (set_sock k w) w') /\
        (wc_cb_ = None -> w' = set_sock k w)) _ oom); [|clear Hrest|done].
      { destruct wc_cb_ as [m|]; [|apply wpe_ret; by split_and!].
        eapply wpe_mono; [by apply wc_cb_good| |done]. by intros w' [] ?. }
      intros w' [] [[Hw' He'] Hsame]. apply Hdone.
      assert (ext w (set_sock k w)).
      { apply ext_while_open; [|done..].
        split; simpl; [rewrite Hst; by apply prefix_app_r|rewrite Hsent; by apply prefix_app_r|done..]. }
      split_and!; [done|by etrans|rewrite <- Hst; apply He'|by intros ->%Hsame].
    + specialize (Hrest (ztake n data) (set_sock k w)). rewrite zlen_ztake in Hrest by done.
      apply Hrest; [done..|by rewrite ztake_zdrop| |done|done].
      simpl. rewrite Hsent. by apply prefix_app_r.
Qed.

Lemma good_send_in_loop data :
  Buffer.is_object data -> good (send_in_loop ch conn_cb_ wc_cb_ close_cb_ true data).
Proof.
  intros Hobj w Hw. eapply wpe_mono; [by apply send_in_loop_wpe| |done].
  intros w' [] (?&?&_). done.
Qed.

Lemma good_shutdown_in_loop : good shutdown_in_loop.
Proof.
  intros w Hw. unfold shutdown_in_loop, is_writing. wpe_pures.
  destruct (negb _); simpl; [|by apply good_ret]. apply wpe_modify.
  by apply set_sock_same; [|apply shutdown_sent].
Qed.

(** The functors that are in the loop's queue. *)
Definition functor_ok (f : functor) : Prop :=
  match f with SendInLoop data => Buffer.is_object data | _ => True end.

Lemma good_run_functor f :
  functor_ok f -> good (run_functor ch conn_cb_ wc_cb_ close_cb_ f).
Proof.
  destruct f; simpl; intros Hf;
    [by apply good_send_in_loop|apply good_shutdown_in_loop|apply good_handle_close].
Qed.

Lemma good_queue in_loop f :
  allowed f -> good (EventLoop.queue_in_loop loop_lens in_loop f).
Proof.
  intros Hf w Hw. unfold EventLoop.queue_in_loop, EventLoop.wakeup. wpe_pures.
  destruct (negb in_loop || _); simpl; [apply wpe_zoom, wpe_modify|apply wpe_ret];
    (split; [destruct Hw; split; try done; simpl; by apply J_push|by apply ext_same_reg]).
Qed.

Lemma good_run_in_loop in_loop f :
  functor_ok f -> (in_loop = false -> allowed f) ->
  good (run_in_loop ch conn_cb_ wc_cb_ close_cb_ in_loop f).
Proof.
  intros Hf Ha. unfold run_in_loop, EventLoop.run_in_loop.
  destruct in_loop; [by apply good_run_functor|by apply good_queue, Ha].
Qed.

Lemma good_send in_loop data :
  Buffer.is_object data -> (in_loop = false -> allowed (SendInLoop data)) ->
  good (send ch conn_cb_ wc_cb_ close_cb_ in_loop data).
Proof.
  intros Hobj Ha w Hw. unfold send, load_state. wpe_pures. case_decide; [|by apply good_ret].
  destruct in_loop; [by apply good_send_in_loop|by apply good_run_in_loop].
Qed.

(** [send(Buffer* buf)] on the loop's thread: unless the connection closes, the
    data is behind everything accepted before. *)
Lemma send_buffer_wpe b w :
  inv w -> Buffer.wf b -> Buffer.is_object (Buffer.contents b) ->
  wpe (send_buffer ch conn_cb_ wc_cb_ close_cb_ true) (w, b) (fun p _ =>
    inv p.1 /\ ext w p.1 /\
    (state w = kConnected ->
       stream w ++ Buffer.contents b `prefix_of` stream p.1 /\
         (wc_cb_ = None -> stream p.1 = stream w ++ Buffer.contents b) \/
       state p.1 = kDisconnected))
    (fun p e => oom p.1 e).
Proof.
  intros Hw Hb Hobj. unfold send_buffer, load_state. wpe_pures. simpl.
  change (state_ (conn w)) with (state w).
  case_decide as Hs; [|by apply wpe_ret]. wpe_pures. apply wp_wpe.
  eapply wp_mono; [by apply Buffer.retrieve_all_wp|].
  cbv beta. intros b' data (_ & -> & _). wpe_pures.
  eapply wpe_mono; [by apply (send_in_loop_wpe (Buffer.contents b) w)| |done].
  intros w' [] (Hw' & He' & _ & Hp). split_and!; [done..|]. intros _. apply Hp. by rewrite Hs.
Qed.

Lemma good_shutdown in_loop :
  (in_loop = false -> allowed ShutdownInLoop) ->
  good (shutdown ch conn_cb_ wc_cb_ close_cb_ in_loop).
Proof.
  intros Ha w Hw. unfold shutdown, shutdown_test, shutdown_act, load_state, store_state. wpe_pures.
  case_bool_decide as Hs; simpl; [|by apply good_ret]. wpe_pures.
  destruct (store_state_later kDisconnecting w Hw) as [Hw1 He1]; [|done|].
  { change (state w = kConnected) in Hs. rewrite Hs. simpl. lia. }
  by apply good_from; [apply good_run_in_loop| |].
Qed.

Lemma good_force_close in_loop : allowed HandleClose -> good (force_close in_loop).
Proof.
  intros Ha w Hw. unfold force_close, load_state, store_state. wpe_pures.
  assert (rank (state w) <= 2 ->
    wpe (zoom state_lens (modify (fun _ : State => kDisconnecting)) ;;
         EventLoop.queue_in_loop loop_lens in_loop HandleClose) w
      (fun w' _ => inv w' /\ ext w w') oom) as Hact.
  { intros Hr. wpe_pures. destruct (store_state_later kDisconnecting w Hw) as [Hw1 He1]; [done|done|].
    by apply good_from; [apply good_queue| |]. }
  change (lget state_lens w) with (state w).
  case_decide as Hs; wpe_pures; simpl; [apply Hact; rewrite Hs; simpl; lia|].
  change (lget state_lens w) with (state w).
  case_bool_decide as Hs'; simpl; [|by apply good_ret].
  apply Hact. change (state w = kDisconnecting) in Hs'. rewrite Hs'. simpl. lia.
Qed.

(** What [handle_read] does, by the answer of [readv]. *)
Lemma handle_read_wpe w :
  inv w ->
  wpe (handle_read ch conn_cb_ msg_cb_ close_cb_) w
    (fun w' _ => inv w' /\ ext w w' /\
       match (sys_readv (Buffer.iov_capacity (input_buf_ (conn w))) (sock w)).1 with
       | Buffer.ReadErr _ => state w' = kDisconnected
       | Buffer.ReadOk [] => state w' = kDisconnected
       | Buffer.ReadOk _ => True
       end) oom.
Proof.
  intros Hw. unfold handle_read. wpe_pures. set (cap := Buffer.iov_capacity _).
  assert (0 <= cap) as Hcap.
  { unfold cap, Buffer.iov_capacity. rewrite Buffer.writable_eq by apply Hw.
    pose proof (Buffer.wf_end _ (inv_input _ Hw)). unfold Buffer.kExtraSize. case_match; lia. }
  unfold readv, wpe at 1. destruct (sys_readv cap (sock w)) as [res k] eqn:Hres. simpl.
  assert (sent k = sent (sock w)) as Hsame.
  { destruct res as [e|d]; [by eapply readv_err|]. by eapply (readv_ok cap _ d). }
  destruct (set_sock_same k w Hw Hsame) as [Hw1 He1]. set (w1 := set_sock k w) in *.
  assert (forall w0, inv w0 -> ext w w0 ->
    wpe (handle_close ch conn_cb_ close_cb_) w0
      (fun w' _ => inv w' /\ ext w w' /\ state w' = kDisconnected) oom) as Hclose.
  { intros w0 Hw0 He0. eapply wpe_mono; [by apply handle_close_spec| |done].
    intros w' [] (?&?&?&_). split_and!; [done|by etrans|done]. }
  assert (forall b, Buffer.wf b -> inv (lset input_lens b w1) /\ ext w (lset input_lens b w1))
    as Hset.
  { intros b Hb. split; [destruct Hw1; by split|]. etrans; [exact He1|].
    apply ext_same_reg; [by split|done..]. }
  wpe_pures. destruct res as [e|d].
  { unfold Buffer.read_fd. wpe_pures. simpl. by apply Hclose; apply Hset, Hw1. }
  destruct (readv_ok _ _ _ _ Hcap Hres) as [Hd _].
  eapply wpe_mono; [apply Buffer.read_fd_wpe; [apply Hw|done]| |by intros b e [_ ->]].
  cbv beta. intros b r (Hb & _ & ->). simpl. set (w2 := lset input_lens b w1).
  destruct (Hset b Hb) as [Hw2 He2].
  destruct d as [|x d]; [by apply Hclose|].
  assert ((0 <? zlen (x :: d)) = true) as ->.
  { apply Z.ltb_lt. rewrite zlen_cons. pose proof (zlen_nonneg d). lia. }
  eapply wpe_mono; [by apply (good_from _ w w2 msg_cb_good)| |done]. naive_solver.
Qed.

(** The kernel took [ztake n] of the buffer, and [retrieve n] drops it. *)
Definition flushed k b w : W := lset output_lens b (set_sock k w).

Lemma flushed_spec n k b w :
  inv w -> writing w = true -> 0 <= n <= zlen (buffered w) ->
  sent k = sent (sock w) ++ ztake n (buffered w) ->
  Buffer.wf b -> Buffer.contents b = zdrop n (buffered w) ->
  inv (flushed k b w) /\ ext w (flushed k b w) /\
  stream (flushed k b w) = stream w /\ state (flushed k b w) = state w.
Proof.
  intros Hw Hwr Hn Hk Hb Hc.
  assert (stream (flushed k b w) = stream w) as Hst.
  { unfold stream, flushed. simpl. rewrite Hk, Hc, <- app_assoc, ztake_zdrop. done. }
  split_and!; [destruct Hw; by split| |done..]. apply ext_same_reg; [|done..].
  split; [by rewrite Hst| |done..]. simpl. rewrite Hk. by apply prefix_app_r.
Qed.

(** Write events are switched off when the buffer has drained. *)
Lemma disable_writing_drained w :
  inv w -> buffered w = [] -> writing w = true ->
  wp (disable_writing ch) w (fun w' _ => inv w' /\ ext w w' /\
    exists c p, w' = lset reg_lens (c, p) w /\ Channel.is_writing c = false).
Proof.
  intros Hw Hb Hwr. eapply wp_mono.
  { apply (change_events_wp (fun e => Z.land e (Z.lnot Channel.kWriteEvent))); [apply Hw|].
    destruct (inv_reg _ Hw) as [k Hk]. apply EpollPoller.level_land.
    apply (EpollPoller.reg_mask _ _ _ _ _ _ _ Hk). }
  cbv beta. intros w' _ (c & p & -> & Hreg & He).
  destruct (inv_set_reg c p w Hw Hreg) as [Hw' He']; [by rewrite Hb|].
  split_and!; [done|by apply ext_while_writing|]. exists c, p. split; [done|].
  unfold Channel.is_writing, Epoll.has.
  rewrite He, <- Z.land_assoc, Z.land_comm. done.
Qed.

(** The part of [handle_write] after a write of [n] bytes. *)
Definition after_write (n : Z) : M W unit :=
  when (0 <? n) (
    zoom output_lens (Buffer.retrieve n) ;;
    readable ← gets (fun w => Buffer.readable (output_buf_ (conn w)));
    when (readable =? 0) (
      disable_writing ch ;;
      call_if wc_cb_ ;;
      s ← load_state;
      when (bool_decide (s = kDisconnecting)) shutdown_in_loop)).

Lemma handle_write_head w (Q : W -> unit -> Prop) E :
  inv w -> writing w = true ->
  (forall r k, sys_write (buffered w) (sock w) = (r, k) ->
     wpe (match r with WriteErr _ => mret () | WriteOk n => after_write n end)
       (lset output_lens (output_buf_ (conn w)) (set_sock k w)) Q E) ->
  wpe (handle_write ch wc_cb_) w Q E.
Proof.
  intros Hw Hwr HQ. unfold handle_write, is_writing. wpe_pures.
  change (Channel.is_writing (channel_ (conn w))) with (writing w). rewrite Hwr. simpl.
  wpe_pures. rewrite (readable_buffered w Hw). apply wp_wpe.
  apply Buffer.peek_spec; [apply Hw|done|apply zlen_nonneg|simpl; fold (buffered w); lia|].
  rewrite zdrop_0, ztake_all by (simpl; fold (buffered w); lia).
  wpe_pures. apply write_wp. intros r k Hk. apply HQ. exact Hk.
Qed.

Lemma good_handle_write : good (handle_write ch wc_cb_).
Proof.
  intros w Hw. destruct (writing w) eqn:Hwr.
  2: { unfold handle_write, is_writing. wpe_pures.
       change (Channel.is_writing (channel_ (conn w))) with (writing w). rewrite Hwr.
       by apply good_ret. }
  apply handle_write_head; [done..|]. intros r k Hk.
  set (w0 := lset output_lens _ _). destruct r as [e|n].
  { apply wpe_ret. pose proof (write_err _ _ _ _ Hk) as Hsame.
    destruct (flushed_spec 0 k (output_buf_ (conn w)) w) as (? & ? & _); try done; try apply Hw.
    - split; [done|apply zlen_nonneg].
    - by rewrite ztake_0, app_nil_r. }
  destruct (write_ok _ _ _ _ Hk) as [Hn Hsent]. unfold after_write.
  destruct (Z.ltb_spec 0 n) as [Hpos|Hz]; simpl.
  2: { apply wpe_ret. replace n with 0 in * by lia.
       destruct (flushed_spec 0 k (output_buf_ (conn w)) w) as (? & ? & _); try done; apply Hw. }
  wpe_pures. apply wp_wpe. eapply wp_mono.
  { apply Buffer.retrieve_wp; [apply Hw|exact Hn]. }
  cbv beta. intros b _ (Hb & Hc & _). wpe_pures.
  destruct (flushed_spec n k b w) as (Hw1 & He1 & _ & _); [done..|].
  change (lset output_lens b w0) with (flushed k b w). set (w1 := flushed k b w) in *.
  rewrite (readable_buffered w1 Hw1).
  destruct (Z.eqb_spec (zlen (buffered w1)) 0) as [Hempty%zlen_0_nil|]; simpl.
  2: { by apply wpe_ret. }
  wpe_pures. apply wp_wpe. eapply wp_mono; [by apply disable_writing_drained|].
  cbv beta. intros w2 _ (Hw2 & He2 & _). wpe_pures.
  assert (ext w w2) as He by by etrans.
  eapply wpe_mono; [by apply (good_from _ w w2 wc_cb_good)| |done].
  intros w3 [] [Hw3 He3]. unfold load_state. wpe_pures.
  case_bool_decide; simpl; [by apply good_from; [apply good_shutdown_in_loop| |]|by apply wpe_ret].
Qed.

(** ** Establishing and destroying *)

Lemma tie_wpe w :
  inv w -> wpe (Channel.tie channel_lens ch) w
    (fun w' _ => inv w' /\ ext w w' /\ state w' = state w) oom.
Proof.
  intros Hw. unfold Channel.tie. wpe_pures. destruct (inv_reg _ Hw) as [k Hk].
  assert (registered (Channel.set_tie (Some ch) (channel_ (conn w)), EventLoop.poller_ (loop w)))
    as Hreg by (exists k; destruct Hk; by split).
  apply (inv_set_reg _ _ w Hw) in Hreg as [Hw' He'].
  - split_and!; [destruct Hw'; by split| |done]. apply ext_same_reg; [destruct He'; by split|done..].
  - intros Hb Hs. by apply (inv_write _ Hw).
Qed.

Lemma connection_established_wpe w :
  inv w -> rank (state w) <= rank kConnected ->
  wpe (connection_established ch conn_cb_) w (fun w' _ => inv w' /\ ext w w') oom.
Proof.
  intros Hw Hr. unfold connection_established, store_state. apply wpe_bind, wpe_zoom, wpe_modify.
  destruct (store_state_later kConnected w Hw Hr) as [Hw1 He1]; [done|].
  apply wpe_bind. eapply wpe_mono; [by apply tie_wpe| |done]. intros w2 [] (Hw2 & He2 & Hs2).
  apply wpe_bind. eapply wpe_mono; [apply enable_reading_wpe; [done|by rewrite Hs2]| |done].
  intros w3 [] (Hw3 & He3 & _). apply good_from; [done..|].
  etrans; [exact He1|]. by etrans.
Qed.

(** [remove()] takes the channel off the poller. *)
Lemma channel_remove_wp w :
  registered (lget reg_lens w) ->
  wp (channel_remove ch) w (fun w' _ => exists c p, w' = lset reg_lens (c, p) w /\
    registered (c, p) /\ unhooked c).
Proof.
  intros Hw. unfold channel_remove, Channel.remove. wp_pures.
  eapply wp_mono; [by apply (change_events_wp (fun _ => 0))|].
  cbv beta. intros w1 _ (c & p & -> & [k Hk] & Hev). unfold remove_from_loop, EventLoop.remove_channel.
  wp_pures. apply wp_assert; [done|]. wp_pures.
  eapply wp_mono; [eapply EpollPoller.remove_channel_spec, EpollPoller.weaken, Hk|].
  cbv beta. intros [c' p'] _ (k' & Hreg' & Hc'). simpl in Hc'. exists c', p'.
  split_and!; [done|by exists k'|rewrite Hc'; by split].
Qed.

Lemma channel_remove_wpe w :
  inv w -> state w = kDisconnected ->
  wpe (channel_remove ch) w (fun w' _ => inv w' /\ ext0 w w' /\ off w' /\ user w' = user w) oom.
Proof.
  intros Hw Hs. apply wp_wpe. eapply wp_mono; [by apply channel_remove_wp, Hw|].
  cbv beta. intros w1 _ (c & p & -> & Hreg & Hoff).
  destruct (inv_set_reg c p w Hw Hreg) as [Hw1 He1]; [by intros _ []|].
  by split_and!.
Qed.

(** [connection_destroyed] is called on closed connections, and on open ones
    when the server goes down. *)
Lemma connection_destroyed_wpe w :
  inv w -> state w = kConnected \/ state w = kDisconnected ->
  wpe (connection_destroyed ch conn_cb_) w (fun w' _ => inv w' /\ ext0 w w' /\ off w' /\
    (state w = kDisconnected -> user w' = user w)) oom.
Proof.
  intros Hw Hs. unfold connection_destroyed, load_state. apply wpe_bind, wpe_gets.
  change (lget state_lens w) with (state w).
  case_bool_decide as Hc; simpl; apply wpe_bind; [|wpe_pures].
  2: { destruct Hs as [|Hs]; [done|]. eapply wpe_mono; [by apply channel_remove_wpe| |done].
       intros w' [] (?&?&?&?). by split_and!. }
  apply close_channel_spec; [done|]. intros w1 Hw1 He1 Hs1 _.
  eapply wpe_mono; [by apply conn_cb_good| |done]. intros w2 [] [Hw2 He2].
  eapply wpe_mono.
  - apply channel_remove_wpe; [done|]. eapply ext_disconnected; [apply He2|done].
  - intros w3 [] (Hw3 & He3 & Hoff & _). split_and!; [done| |done|by rewrite Hc].
    etrans; [exact He1|]. etrans; [apply He2|exact He3].
  - done.
Qed.

(** In any state it takes the channel off the poller. *)
Lemma connection_destroyed_unhooks w :
  inv w ->
  wpe (connection_destroyed ch conn_cb_) w (fun w' _ => registered (lget reg_lens w') /\
    unhooked (channel_ (conn w')) /\
    J (user w') (EventLoop.pending_functors_ (loop w'))) oom.
Proof.
  intros Hw. unfold connection_destroyed, load_state. apply wpe_bind, wpe_gets.
  assert (forall w1, inv w1 -> wpe (channel_remove ch) w1 (fun w' _ => registered (lget reg_lens w') /\
    unhooked (channel_ (conn w')) /\
    J (user w') (EventLoop.pending_functors_ (loop w'))) oom) as Hrm.
  { intros w1 Hw1. apply wp_wpe. eapply wp_mono; [by apply channel_remove_wp, Hw1|].
    cbv beta. intros w2 _ (c & p & -> & Hreg & Hoff). split; [done|]. split; [done|]. apply Hw1. }
  case_bool_decide; simpl; apply wpe_bind; [|wpe_pures; by apply Hrm].
  apply close_channel_spec; [done|]. intros w1 Hw1 _ _ _.
  eapply wpe_mono; [by apply conn_cb_good| |done]. intros w2 [] [Hw2 _]. by apply Hrm.
Qed.

(** ** Events *)

Lemma good_event_last (c : Channel.t -> bool) m :
  good m -> good (x ← gets (lget channel_lens); when (c x) m).
Proof. intros Hm w Hw. wpe_pures. by apply good_when. Qed.

Lemma good_event_step (c : Channel.t -> bool) m k :
  good m -> good k -> good (x ← gets (lget channel_lens); when (c x) m ;; k).
Proof. intros Hm Hk w Hw. apply wpe_bind, wpe_gets. apply good_seq; [by apply good_when|done..]. Qed.

(** What [handle_event_with_guard] does after its first test. *)
Definition after_hup : M W unit :=
  c ← gets (lget channel_lens);
  when (Epoll.has (Channel.revents_ c) Epoll.EPOLLERR) (handle_error ch conn_cb_ close_cb_) ;;
  c ← gets (lget channel_lens);
  when (Epoll.has (Channel.revents_ c)
      (Z.lor (Z.lor Epoll.EPOLLIN Epoll.EPOLLPRI) Epoll.EPOLLRDHUP))
    (handle_read ch conn_cb_ msg_cb_ close_cb_) ;;
  c ← gets (lget channel_lens);
  when (Epoll.has (Channel.revents_ c) Epoll.EPOLLOUT) (handle_write ch wc_cb_).

Lemma good_after_hup : good after_hup.
Proof.
  apply (good_event_step (fun c => Epoll.has (Channel.revents_ c) Epoll.EPOLLERR));
    [apply good_handle_close|].
  apply (good_event_step (fun c => Epoll.has (Channel.revents_ c)
    (Z.lor (Z.lor Epoll.EPOLLIN Epoll.EPOLLPRI) Epoll.EPOLLRDHUP))).
  - intros w Hw. eapply wpe_mono; [by apply handle_read_wpe| |done]. naive_solver.
  - apply (good_event_last (fun c => Epoll.has (Channel.revents_ c) Epoll.EPOLLOUT)),
      good_handle_write.
Qed.

Definition hangs_up (revents : Z) : bool :=
  Epoll.has revents Epoll.EPOLLHUP && negb (Epoll.has revents Epoll.EPOLLIN).

Lemma on_event_wpe revents w :
  inv w ->
  wpe (on_event ch conn_cb_ msg_cb_ wc_cb_ close_cb_ revents) w (fun w' _ =>
    inv w' /\ ext w w' /\ (hangs_up revents = true -> gone (user w'))) oom.
Proof.
  intros Hw. unfold on_event, Channel.handle_event. wpe_pures. set (w1 := lset channel_lens _ w).
  assert (inv w1 /\ ext w w1) as [Hw1 He1].
  { destruct (inv_reg _ Hw) as [k Hk]. split; [|by apply ext_same_reg].
    destruct Hw. split; try done. exists k. destruct Hk. by split. }
  assert (wpe (Channel.handle_event_with_guard channel_lens
    (Some (handle_read ch conn_cb_ msg_cb_ close_cb_)) (Some (handle_write ch wc_cb_))
    (Some (handle_error ch conn_cb_ close_cb_)) (Some (handle_close ch conn_cb_ close_cb_))) w1
    (fun w' _ => inv w' /\ ext w w' /\ (hangs_up revents = true -> gone (user w'))) oom) as Hguard.
  { unfold Channel.handle_event_with_guard. apply wpe_bind, wpe_gets, wpe_bind.
    change (_ && _) with (hangs_up revents). simpl call_if.
    apply (wpe_mono _ _ (fun w2 _ => inv w2 /\ ext w w2 /\ (hangs_up revents = true -> gone (user w2)))
      _ oom); [|intros w2 [] (Hw2 & He2 & Hg2)|done].
    - destruct (hangs_up revents); [|by apply wpe_ret].
      eapply wpe_mono; [by apply handle_close_spec| |done].
      intros w2 [] (? & ? & _ & ?). split_and!; [done|by etrans|done].
    - eapply wpe_mono; [by apply good_after_hup| |done]. intros w3 [] [Hw3 He3].
      split_and!; [done|by etrans|]. intros Hh. by apply He3, Hg2. }
  by destruct (Channel.tie_ _); [wpe_pures; simpl|].
Qed.

Lemma good_on_event revents :
  good (on_event ch conn_cb_ msg_cb_ wc_cb_ close_cb_ revents).
Proof. intros w Hw. eapply wpe_mono; [by apply on_event_wpe| |done]. naive_solver. Qed.

(** Another thread's [force_close] leaves the owner to the loop's thread. *)
Lemma force_close_runs w :
  exists w', force_close false w = Ret w' () /\ user w' = user w.
Proof.
  unfold force_close, load_state, mbind, M_bind, gets. simpl.
  destruct (decide _); simpl; [by eexists|]. by case_bool_decide; simpl; eexists.
Qed.

(** ** Runs *)

(** What can happen to an open connection on its loop's thread, and what other
    threads may call. *)
Inductive op :=
| Send (in_loop : bool) (data : bytes)
| Shutdown (in_loop : bool)
| ForceClose (in_loop : bool)
| Functor (f : functor)            (* the loop runs a queued functor *)
| Event (revents : Z).             (* epoll reports events on the socket *)

Definition run_op (o : op) : M W unit :=
  match o with
  | Send in_loop data => send ch conn_cb_ wc_cb_ close_cb_ in_loop data
  | Shutdown in_loop => shutdown ch conn_cb_ wc_cb_ close_cb_ in_loop
  | ForceClose in_loop => force_close in_loop
  | Functor f => run_functor ch conn_cb_ wc_cb_ close_cb_ f
  | Event revents => on_event ch conn_cb_ msg_cb_ wc_cb_ close_cb_ revents
  end.

Definition op_ok (o : op) : Prop :=
  match o with
  | Send in_loop data => Buffer.is_object data /\ (in_loop = false -> allowed (SendInLoop data))
  | Shutdown in_loop => in_loop = false -> allowed ShutdownInLoop
  | ForceClose _ => allowed HandleClose
  | Functor f => functor_ok f
  | Event _ => True
  end.

Lemma good_run_op o : op_ok o -> good (run_op o).
Proof.
  destruct o; simpl; intros Ho.
  - destruct Ho. by apply good_send.
  - by apply good_shutdown.
  - by apply good_force_close.
  - by apply good_run_functor.
  - apply good_on_event.
Qed.


(** [send_in_loop data] on an open connection puts [data] behind everything
    accepted before, in one piece: partly written, partly buffered, or all
    buffered behind older data; the only other outcome is that the write
    failed and the connection is closed.  On a closed one it does nothing. *)
Theorem send_in_loop_spec data w (Hw : inv w) (Hobj : Buffer.is_object data) :
  wpe (send_in_loop ch conn_cb_ wc_cb_ close_cb_ true data) w (fun w' _ =>
    inv w' /\ ext w w' /\ (state w = kDisconnected -> w' = w) /\
    (state w <> kDisconnected ->
       stream w ++ data `prefix_of` stream w' \/ state w' = kDisconnected)) oom.
Proof.
  eapply wpe_mono; [by apply send_in_loop_wpe| |done]. intros w' [] (? & ? & ? & Hp).
  split_and!; [done..|]. intros Hs. destruct (Hp Hs) as [[? _]|?]; auto.
Qed.

(** [handle_read]: data goes to the message callback; end of stream and
    every error close the connection, also EAGAIN and EINTR, which only say
    that there is nothing to read now. *)
Theorem handle_read_spec w (Hw : inv w) :
  wpe (handle_read ch conn_cb_ msg_cb_ close_cb_) w
    (fun w' _ => inv w' /\ ext w w' /\
       match (sys_readv (Buffer.iov_capacity (input_buf_ (conn w))) (sock w)).1 with
       | Buffer.ReadErr _ => state w' = kDisconnected
       | Buffer.ReadOk [] => state w' = kDisconnected
       | Buffer.ReadOk _ => True
       end) oom.
Proof. by apply handle_read_wpe. Qed.

Lemma shutdown_waits w :
  inv w -> state w = kConnected -> buffered w <> [] ->
  shutdown ch conn_cb_ wc_cb_ close_cb_ true w = Ret (lset state_lens kDisconnecting w) ().
Proof.
  intros Hw Hs Hb. pose proof (inv_write _ Hw Hb) as Hwr. rewrite Hs in Hwr.
  unfold shutdown, shutdown_test, shutdown_act, store_state, load_state, mbind, M_bind, gets,
    mret, M_ret.
  change (lget state_lens w) with (state w). rewrite bool_decide_eq_true_2 by done.
  unfold when, zoom, modify, run_in_loop, EventLoop.run_in_loop, run_functor, shutdown_in_loop,
    is_writing, mbind, M_bind, gets.
  change (Channel.is_writing _) with (writing w). by rewrite Hwr.
Qed.

(** C27. Shutdown is graceful.  With data buffered it only changes the state;
    when a write event then lets the kernel take the rest, [handle_write] sends
    the FIN, after every byte that was accepted. *)
Theorem graceful_shutdown w k (Hw : inv w) (Hs : state w = kConnected)
    (Hb : buffered w <> []) (Hwc : wc_cb_ = None)
    (Hk : sys_write (buffered w) (sock w) = (WriteOk (zlen (buffered w)), k)) :
  wp (shutdown ch conn_cb_ wc_cb_ close_cb_ true ;; handle_write ch wc_cb_) w (fun w' _ =>
    sock w' = sys_shutdown k /\ sent (sock w') = stream w /\ buffered w' = [] /\
    writing w' = false /\ state w' = kDisconnecting).
Proof.
  apply wp_bind. unfold wp at 1, wpe. rewrite shutdown_waits by done.
  set (w1 := lset state_lens kDisconnecting w).
  destruct (store_state_later kDisconnecting w Hw) as [Hw1 _]; [rewrite Hs; simpl; lia|done|].
  fold w1 in Hw1. assert (buffered w1 = buffered w) as Hb1 by done.
  assert (writing w1 = true) as Hwr by (apply Hw1; by rewrite ?Hb1).
  destruct (write_ok _ _ _ _ Hk) as [Hn Hsent].
  apply (handle_write_head w1); [done..|]. rewrite Hb1. change (sock w1) with (sock w).
  rewrite Hk. intros r k' [= <- <-]. unfold after_write.
  assert (0 < zlen (buffered w)) as Hpos.
  { destruct (buffered w); [done|]. rewrite zlen_cons. zlen_nonneg_all. lia. }
  rewrite (proj2 (Z.ltb_lt _ _) Hpos). simpl. wpe_pures. apply wp_wpe. eapply wp_mono.
  { apply Buffer.retrieve_wp; [apply Hw|exact Hn]. }
  cbv beta. intros b _ (Hbw & Hc & _). wpe_pures.
  destruct (flushed_spec (zlen (buffered w)) k b w1) as (Hw2 & _ & Hst2 & _); [done..|].
  change (lset output_lens b _) with (flushed k b w1). set (w2 := flushed k b w1) in *.
  assert (buffered w2 = []) as Hb2.
  { transitivity (zdrop (zlen (buffered w)) (buffered w)); [exact Hc|by apply zdrop_all]. }
  rewrite (readable_buffered w2 Hw2), Hb2. simpl. wpe_pures. apply wp_wpe.
  eapply wp_mono; [by apply disable_writing_drained|].
  cbv beta. intros w3 _ (_ & _ & c & p & -> & Hcw). rewrite Hwc. unfold call_if, load_state.
  wpe_pures. simpl. unfold shutdown_in_loop, is_writing. wpe_pures. simpl. rewrite Hcw. simpl.
  split_and!; [done| |exact Hb2|exact Hcw|done].
  change (sent (sys_shutdown k) = stream w). by rewrite shutdown_sent, Hsent, ztake_all.
Qed.

(** [shutdown()] from another thread tests the state and stores the new one
    in two steps.  When the loop closes the connection in between, the store
    takes a closed connection back to kDisconnecting. *)
Theorem shutdown_races_with_close w (Hw : inv w) (Hs : state w = kConnected) :
  wpe (c ← shutdown_test;                                    (* the other thread *)
       handle_close ch conn_cb_ close_cb_ ;;                 (* the loop's thread *)
       s ← load_state;
       when c (shutdown_act ch conn_cb_ wc_cb_ close_cb_ false) ;;   (* the other thread *)
       mret s) w
    (fun w' s => s = kDisconnected /\ state w' = kDisconnecting) oom.
Proof.
  unfold shutdown_test, load_state, shutdown_act, store_state. wpe_pures.
  change (lget state_lens w) with (state w). rewrite bool_decide_eq_true_2 by done.
  eapply wpe_mono; [by apply handle_close_spec| |done]. intros w1 [] (_ & _ & Hs1 & _). wpe_pures.
  simpl. unfold EventLoop.queue_in_loop, EventLoop.wakeup. wpe_pures. simpl. wpe_pures. simpl.
  done.
Qed.

End proofs.

(** ** How far a connection moves the state

    Besides its callbacks, it changes its own object, its loop and its socket;
    and only an event changes its input buffer. *)

Definition the_input {K U} (w : world K U) : Buffer.t := input_buf_ (conn w).

Section moves.
Context {K U : Type} `{Socket K}.
Abbreviation W := (world K U).
Variable ch : EpollPoller.ptr.
Variables conn_cb_ msg_cb_ wc_cb_ close_cb_ : option (M W unit).
Variable R : W -> W -> Prop.
Context `{!PreOrder R}.
Hypothesis R_rest : forall w w', the_input w' = the_input w -> user w' = user w ->
  EventLoop.calm (loop w) (loop w') -> R w w'.
Hypothesis conn_cb_moves : moves R (call_if conn_cb_).
Hypothesis wc_cb_moves : moves R (call_if wc_cb_).
Hypothesis close_cb_moves : moves R (call_if close_cb_).
#[local] Hint Extern 0 (R _ _) =>
  apply R_rest; [reflexivity|reflexivity|apply EventLoop.calm_same; reflexivity] : moves.
#[local] Hint Resolve conn_cb_moves wc_cb_moves close_cb_moves : moves.

Lemma change_events_moves g : moves R (Channel.change_events channel_lens (update_channel ch) g).
Proof. unfold Channel.change_events, update_channel, EventLoop.update_channel. moves_walk. Qed.
#[local] Hint Resolve change_events_moves : moves.

Lemma write_moves data : moves R (write data).
Proof.
  intros w w' r. unfold write. destruct (sys_write data (sock w)). intros [= <- _]. by apply R_rest.
Qed.
#[local] Hint Resolve write_moves : moves.

Lemma handle_close_moves : moves R (handle_close ch conn_cb_ close_cb_).
Proof. unfold handle_close, store_state, disable_all, Channel.disable_all. moves_walk. Qed.
#[local] Hint Resolve handle_close_moves : moves.

Lemma connection_destroyed_moves : moves R (connection_destroyed ch conn_cb_).
Proof.
  unfold connection_destroyed, load_state, store_state, channel_remove, Channel.remove, disable_all,
    Channel.disable_all, remove_from_loop, EventLoop.remove_channel. moves_walk.
Qed.

Lemma connection_established_moves : moves R (connection_established ch conn_cb_).
Proof.
  unfold connection_established, store_state, Channel.tie, enable_reading, Channel.enable_reading.
  moves_walk.
Qed.

Lemma send_in_loop_moves in_loop data :
  moves R (send_in_loop ch conn_cb_ wc_cb_ close_cb_ in_loop data).
Proof.
  unfold send_in_loop, EventLoop.assert_in_loop_thread, load_state, is_writing, handle_error,
    enable_writing, Channel.enable_writing. moves_walk.
Qed.
#[local] Hint Resolve send_in_loop_moves : moves.

Lemma run_functor_moves f : moves R (run_functor ch conn_cb_ wc_cb_ close_cb_ f).
Proof. unfold run_functor, shutdown_in_loop, is_writing. moves_walk. Qed.
#[local] Hint Resolve run_functor_moves : moves.

Lemma loop_moves g :
  (forall l, EventLoop.calm l (g l)) -> moves R (zoom loop_lens (modify g)).
Proof. intros Hg w w' [] [= <-]. apply R_rest; [done..|apply Hg]. Qed.
#[local] Hint Extern 0 (moves R (zoom loop_lens (modify _))) =>
  apply loop_moves; intros; split; [reflexivity|first [reflexivity|apply EventLoop.eventfd_add_le]] : moves.

Lemma queue_in_loop_moves in_loop f : moves R (EventLoop.queue_in_loop loop_lens in_loop f).
Proof. unfold EventLoop.queue_in_loop, EventLoop.wakeup. moves_walk. Qed.
#[local] Hint Resolve queue_in_loop_moves : moves.

Lemma run_in_loop_moves in_loop f : moves R (run_in_loop ch conn_cb_ wc_cb_ close_cb_ in_loop f).
Proof. unfold run_in_loop, EventLoop.run_in_loop. moves_walk. Qed.
#[local] Hint Resolve run_in_loop_moves : moves.

Lemma send_moves in_loop data : moves R (send ch conn_cb_ wc_cb_ close_cb_ in_loop data).
Proof. unfold send, load_state. moves_walk. Qed.

Lemma send_buffer_moves :
  moves (fun p q => R p.1 q.1) (send_buffer ch conn_cb_ wc_cb_ close_cb_ true).
Proof.
  assert (PreOrder (fun p q : W * Buffer.t => R p.1 q.1)).
  { split; [by intros p|intros p q r ??; by etrans]. }
  unfold send_buffer.
  apply moves_bind; [done|by apply (moves_zoom_in _ _ R); [|unfold load_state; moves_walk]|]. intros s.
  case_decide; [|by apply moves_ret].
  apply moves_bind; [done|by apply moves_zoom; intros; simpl|]. intros data.
  apply (moves_zoom_in _ _ R); [done|apply run_in_loop_moves].
Qed.

Lemma shutdown_moves in_loop : moves R (shutdown ch conn_cb_ wc_cb_ close_cb_ in_loop).
Proof. unfold shutdown, shutdown_test, shutdown_act, load_state, store_state. moves_walk. Qed.

Lemma force_close_moves in_loop : moves R (force_close (U := U) (K := K) in_loop).
Proof. unfold force_close, load_state, store_state. moves_walk. Qed.

(** An event also fills the input buffer. *)
Hypothesis msg_cb_moves : moves R (call_if msg_cb_).
Hypothesis R_input : forall b w, R w (lset input_lens b w).
#[local] Hint Resolve msg_cb_moves R_input : moves.

Lemma readv_moves cap : moves R (readv cap).
Proof.
  intros w w' r. unfold readv. destruct (sys_readv cap (sock w)). intros [= <- _]. by apply R_rest.
Qed.
#[local] Hint Resolve readv_moves : moves.

Lemma on_event_moves revents : moves R (on_event ch conn_cb_ msg_cb_ wc_cb_ close_cb_ revents).
Proof.
  unfold on_event, Channel.handle_event, Channel.handle_event_with_guard, call_if, handle_read,
    handle_write, handle_error, is_writing, load_state, disable_writing, Channel.disable_writing,
    shutdown_in_loop. moves_walk.
Qed.

End moves.

(** ** A concrete socket: it takes at most [window] bytes, then would block *)

Module Pipe.

Record pipe := mk_pipe { window : Z; taken : bytes; fin : bool }.

#[export] Instance pipe_socket : Socket pipe := {
  sys_write data k :=
    if (window k <=? 0) && (0 <? zlen data) then (WriteErr EWOULDBLOCK, k)
    else let n := Z.max 0 (Z.min (window k) (zlen data)) in
         (WriteOk n, mk_pipe (window k - n) (taken k ++ ztake n data) (fin k));
  sys_readv cap k := (Buffer.ReadErr EWOULDBLOCK, k);
  sys_shutdown k := mk_pipe (window k) (taken k) true;
}.

#[export] Instance pipe_ok : SocketOk pipe.
Proof.
  refine {| sent := taken |}; simpl.
  - intros data k n k'. case_match; [done|]. intros [= <- <-]. simpl. split; [|done].
    pose proof (zlen_nonneg data). lia.
  - intros data k e k'. case_match; [|done]. by intros [= <- <-].
  - intros cap k d k' _ [=].
  - intros cap k e k'. by intros [= <- <-].
  - done.
Defined.

Definition hello : bytes := [Byte.x68; Byte.x65; Byte.x6c; Byte.x6c; Byte.x6f].

(** A fresh connection on descriptor 9 whose callback for messages answers
    every read with "hello"; its owner notes that it has let it go. *)
Abbreviation pworld := (world pipe bool).
Definition let_go : M pworld unit :=
  modify (fun w => mk_world (conn w) (loop w) (sock w) true) ;; connection_destroyed 0%nat None.
Definition echo : option (M pworld unit) := Some (send 0%nat None None (Some let_go) true hello).
Definition fresh : pworld :=
  mk_world (make 9) (EventLoop.mk false EpollPoller.make [] false 0) (mk_pipe 2 [] false) false.

Definition any_owner (_ : bool) (_ : list functor) : Prop := True.
Definition any_functor (_ : functor) : Prop := True.
Definition was_let_go (b : bool) : Prop := b = true.
Definition any_push (u : bool) fs f (_ : any_functor f) (_ : any_owner u fs) : any_owner u (fs ++ [f]) := I.

Abbreviation pinv := (inv (K := pipe) (U := bool) 0%nat 9 ∅ ∅ any_owner).
Abbreviation pext := (ext (K := pipe) (U := bool) was_let_go).
Abbreviation pgood := (good (K := pipe) (U := bool) 0%nat 9 ∅ ∅ any_owner was_let_go).

Lemma fresh_inv : pinv fresh.
Proof.
  split; simpl; [apply Buffer.default_wf|apply Buffer.default_wf| |by intros []|done].
  exists ∅. split; simpl; try done; [by left|]. split; [by intros [? ?]|done].
Qed.

Lemma hello_object : Buffer.is_object hello.
Proof. vm_compute. discriminate. Qed.

Lemma none_good : pgood (call_if None).
Proof. apply good_ret. Qed.

Lemma let_go_lets_go w : pinv w -> state w = kDisconnected ->
  wpe (call_if (Some let_go)) w
    (fun w' _ => pinv w' /\ ext0 was_let_go w w' /\ was_let_go (user w') /\ off w') oom.
Proof.
  intros Hw Hs. unfold let_go. simpl. wpe_pures. set (w1 := mk_world _ _ _ true).
  assert (pinv w1) as Hw1 by (destruct Hw; by split).
  eapply wpe_mono; [apply (connection_destroyed_wpe 0%nat None 9 ∅ ∅ any_owner was_let_go none_good
    w1 Hw1); by right| |done].
  intros w2 [] (Hw2 & He2 & Hoff & Hu). rewrite (Hu Hs). split_and!; [done| |done|done].
  etrans; [|exact He2]. by split.
Qed.

Lemma echo_good : pgood (call_if echo).
Proof.
  apply (good_send 0%nat None None (Some let_go) 9 ∅ ∅ any_owner any_functor was_let_go any_push
    none_good none_good let_go_lets_go true hello hello_object). done.
Qed.

(** Established, and "hello" sent through a window of two bytes. *)
Definition say_hello : M (pworld) unit :=
  connection_established 0%nat None ;; send 0%nat None None (Some let_go) true hello.
Definition half_sent : pworld :=
  match say_hello fresh with
  | Ret w _ => w
  | _ => fresh
  end.

Lemma result_inv {W} (m : M W unit) w (I : W -> Prop) E :
  wpe m w (fun w' _ => I w') E -> I w ->
  I (match m w with Ret w' _ => w' | _ => w end).
Proof. unfold wpe. by destruct (m w). Qed.

Lemma half_sent_inv : pinv half_sent.
Proof.
  refine (result_inv say_hello fresh pinv oom _ fresh_inv). unfold say_hello. apply wpe_bind.
  eapply wpe_mono.
  - apply (connection_established_wpe 0%nat None 9 ∅ ∅ any_owner was_let_go none_good fresh fresh_inv). simpl. lia.
  - intros w [] [Hw _]. eapply wpe_mono; [by apply (good_send 0%nat None None (Some let_go) 9 ∅ ∅
      any_owner any_functor was_let_go any_push none_good none_good let_go_lets_go true hello
      hello_object)| |done]. by intros w' [] [Hw' _].
  - done.
Qed.

(** The examples' states are compared by name, not by evaluation. *)
#[local] Opaque half_sent.


Lemma send_in_loop_spec_witness :
  wpe (send_in_loop 0%nat None None (Some let_go) true hello) half_sent (fun w' _ =>
    pinv w' /\ pext half_sent w' /\ (state half_sent = kDisconnected -> w' = half_sent) /\
    (state half_sent <> kDisconnected ->
       stream half_sent ++ hello `prefix_of` stream w' \/ state w' = kDisconnected)) oom.
Proof.
  apply (send_in_loop_spec 0%nat None None (Some let_go) 9 ∅ ∅ any_owner was_let_go none_good none_good
    let_go_lets_go hello).
  - exact half_sent_inv.
  - vm_compute. discriminate.
Defined.

Lemma handle_read_spec_witness :
  wpe (handle_read 0%nat None echo (Some let_go)) half_sent
    (fun w' _ => pinv w' /\ pext half_sent w' /\ state w' = kDisconnected) oom.
Proof.
  exact (handle_read_spec 0%nat None echo (Some let_go) 9 ∅ ∅ any_owner was_let_go none_good
    echo_good let_go_lets_go half_sent half_sent_inv).
Defined.

(** The rest of "hello" fits a wider window. *)
Definition widened : pworld :=
  set_sock (mk_pipe 100 (sent (sock half_sent)) false) half_sent.

Lemma widened_inv : pinv widened.
Proof. destruct half_sent_inv. by split. Qed.

#[local] Opaque widened.

Lemma graceful_shutdown_witness :
  stream widened = hello /\
  wp (shutdown 0%nat None None None true ;; handle_write 0%nat None) widened (fun w' _ =>
    sock w' = sys_shutdown (mk_pipe 97 hello false) /\ sent (sock w') = stream widened /\ buffered w' = [] /\
    writing w' = false /\ state w' = kDisconnecting).
Proof.
  split; [vm_compute; reflexivity|].
  apply (graceful_shutdown 0%nat None None None 9 ∅ ∅ any_owner was_let_go widened (mk_pipe 97 hello false)).
  - exact widened_inv.
  - vm_compute. reflexivity.
  - vm_compute. discriminate.
  - reflexivity.
  - vm_compute. reflexivity.
Defined.

Lemma shutdown_races_with_close_witness :
  wpe (c ← shutdown_test; handle_close 0%nat None (Some let_go) ;; s ← load_state;
       when c (shutdown_act 0%nat None None (Some let_go) false) ;; mret s) half_sent
    (fun w' s => s = kDisconnected /\ state w' = kDisconnecting) oom.
Proof.
  apply (shutdown_races_with_close 0%nat None None (Some let_go) 9 ∅ ∅ any_owner was_let_go none_good
    let_go_lets_go).
  - exact half_sent_inv.
  - vm_compute. reflexivity.
Defined.

End Pipe.

End TcpConnection.
