(* ===== verification/TcpServer.v ===== *)
(** * The TCP server (include/net/tcp_server.h, src/net/tcp_server.cpp)

    The acceptor, the table of connections and the life of the
    [TcpConnection] objects, on the one loop that runs them all.  The server
    composes the components below it: its connections are those of
    TcpConnection.v, with [remove_connection] as their close callback; the
    loop, the poller and the channels are shared.  Its owner has a state of its
    own, which may hold connections, and may queue functors on the loop.
    Theorems: no step on the loop's thread uses a destroyed connection or leaves
    one registered, a closed connection is let go, and the destructor leaves
    nothing registered, piece by piece for the owner to build on; a run in which another thread's send does outlive its
    connection. *)

From Stdlib Require Import ZArith Lia.
From S2P Require Import Prelude NetBuffer Channel EpollPoller EventLoop TcpConnection.
Local Open Scope Z_scope.

Module TcpServer.
#[local] Existing Instances TcpConnection.ext0_preorder TcpConnection.ext_preorder.

(** ** [create_listen_fd] *)

(** What its system calls answer, in the order of the code. *)
Record listen_answers := mk_listen_answers {
  socket_ret : Z; bind_ret : Z; listen_ret : Z;
}.

(** Over the set of open descriptors. *)
Definition create_listen_fd (port : string) (a : listen_answers) : M (gset Z) Z :=
  let fd := socket_ret a in
  if fd <? 0 then throw (runtime_error "socket() failed")
  else
    modify (fun fds => {[fd]} ∪ fds) ;;
    if bind_ret a <? 0 then
      modify (fun fds => fds ∖ {[fd]}) ;;
      throw (runtime_error ("bind() failed on port " +:+ port))
    else if listen_ret a <? 0 then
      modify (fun fds => fds ∖ {[fd]}) ;; throw (runtime_error "listen() failed")
    else mret fd.

(** It returns a listening descriptor or throws without leaking one. *)
Lemma create_listen_fd_spec port a fds :
  socket_ret a ∉ fds ->
  wpe (create_listen_fd port a) fds
    (fun fds' fd => fd = socket_ret a /\ 0 <= fd /\ fds' = {[fd]} ∪ fds)
    (fun fds' _ => fds' = fds).
Proof.
  intros Hfresh. unfold create_listen_fd. cbv zeta.
  assert (({[socket_ret a]} ∪ fds) ∖ {[socket_ret a]} = fds) as Hback by set_solver.
  destruct (Z.ltb_spec (socket_ret a) 0); [by apply wpe_throw|]. wpe_pures.
  destruct (bind_ret a <? 0); [wpe_pures; by apply wpe_throw|].
  destruct (listen_ret a <? 0); [wpe_pures; by apply wpe_throw|]. by wpe_pures.
Qed.

(** ** The server *)

(** The functors in the loop's queue: those of the connections, and those of
    the server's owner, which capture a connection (by its shared pointer) and
    some data [G]. *)
Inductive functor (G : Type) :=
| ConnFunctor (id : Z) (f : TcpConnection.functor)
| AppFunctor (id : Z) (g : G).
Arguments ConnFunctor {G} id f.
Arguments AppFunctor {G} id g.

(** The members, the loop, and the [TcpConnection] objects that exist, each
    with its socket, under their ids; [connections_] maps each of its ids to
    the object of that id.  [app] is the state of the server's owner. *)
Record t (K A G : Type) := mk {
  loop_ : EventLoop.t (functor G);
  accept_channel_ : Channel.t;
  started_ : bool;
  next_conn_id_ : Z;
  connections_ : gset Z;
  objects : gmap Z (TcpConnection.t * K);
  app : A;
}.
Arguments mk {K A G} loop_ accept_channel_ started_ next_conn_id_ connections_ objects app.
Arguments loop_ {K A G} t.
Arguments accept_channel_ {K A G} t.
Arguments started_ {K A G} t.
Arguments next_conn_id_ {K A G} t.
Arguments connections_ {K A G} t.
Arguments objects {K A G} t.
Arguments app {K A G} t.

Section code.
Context {K A G : Type} `{Socket K}.
Abbreviation S := (t K A G).
Abbreviation W := (TcpConnection.world K S).

Definition set_loop l (s : S) : S :=
  mk l (accept_channel_ s) (started_ s) (next_conn_id_ s) (connections_ s) (objects s) (app s).
Definition set_accept c (s : S) : S :=
  mk (loop_ s) c (started_ s) (next_conn_id_ s) (connections_ s) (objects s) (app s).
Definition set_started b (s : S) : S :=
  mk (loop_ s) (accept_channel_ s) b (next_conn_id_ s) (connections_ s) (objects s) (app s).
Definition set_next n (s : S) : S :=
  mk (loop_ s) (accept_channel_ s) (started_ s) n (connections_ s) (objects s) (app s).
Definition set_connections m (s : S) : S :=
  mk (loop_ s) (accept_channel_ s) (started_ s) (next_conn_id_ s) m (objects s) (app s).
Definition set_objects m (s : S) : S :=
  mk (loop_ s) (accept_channel_ s) (started_ s) (next_conn_id_ s) (connections_ s) m (app s).
Definition set_app a (s : S) : S :=
  mk (loop_ s) (accept_channel_ s) (started_ s) (next_conn_id_ s) (connections_ s) (objects s) a.

Definition loop_lens : Lens S (EventLoop.t (functor G)) := mkLens loop_ set_loop.
Definition accept_lens : Lens S Channel.t := mkLens accept_channel_ set_accept.
Definition accept_reg : Lens S (Channel.t * EpollPoller.t) :=
  mkLens (fun s => (accept_channel_ s, EventLoop.poller_ (loop_ s)))
    (fun p s => set_loop (EventLoop.set_poller p.2 (loop_ s)) (set_accept p.1 s)).
Definition owner_lens : Lens W S := mkLens TcpConnection.user (fun u w =>
  TcpConnection.mk_world (TcpConnection.conn w) (TcpConnection.loop w) (TcpConnection.sock w) u).

(** The addresses of the channels: ids start at 1. *)
Definition accept_ch : EpollPoller.ptr := 0%nat.
Definition channel_of (id : Z) : EpollPoller.ptr := Z.to_nat id.

(** [TcpServer(loop, host, port)], over the open descriptors; [a] is the state
    of the callbacks' owner. *)
Definition make (listen_fd : Z) (l : EventLoop.t (functor G)) (a : A) : S :=
  mk l (Channel.make listen_fd) false 1 ∅ ∅ a.
Definition construct (l : EventLoop.t (functor G)) (port : string) (ans : listen_answers) (a : A) :
    M (gset Z) S :=
  fd ← create_listen_fd port ans; mret (make fd l a).

(** *** Running a member function of a connection *)

(** The connection's view: its object and socket, the loop with the functors
    that it queues from now on, and the server. *)
Definition enter (s : S) (o : TcpConnection.t * K) : W :=
  let l := loop_ s in
  TcpConnection.mk_world o.1
    (EventLoop.mk (EventLoop.quit_ l) (EventLoop.poller_ l) []
       (EventLoop.calling_pending_functors_ l) (EventLoop.eventfd l)) o.2 s.
Definition leave (id : Z) (w : W) : S :=
  let s := TcpConnection.user w in
  let l := TcpConnection.loop w in
  set_objects (<[id := (TcpConnection.conn w, TcpConnection.sock w)]> (objects s))
    (set_loop (EventLoop.mk (EventLoop.quit_ l) (EventLoop.poller_ l)
       (EventLoop.pending_functors_ (loop_ s) ++ (ConnFunctor id <$> EventLoop.pending_functors_ l))
       (EventLoop.calling_pending_functors_ l) (EventLoop.eventfd l)) s).

(** Through a pointer to the connection: undefined once it is destroyed. *)
Definition on_conn {X} (id : Z) (m : M W X) : M S X := fun s =>
  match objects s !! id with
  | None => Ub "use of a destroyed TcpConnection"
  | Some o =>
      match m (enter s o) with
      | Ret w x => Ret (leave id w) x
      | Throw w e => Throw (leave id w) e
      | Ub why => Ub why
      | OutOfFuel => OutOfFuel
      end
  end.

(** *** Operations *)

(** The server's callbacks, which get the connection; what a functor of the
    owner does; and the connections that the owner's state holds. *)
Variables conn_cb_ msg_cb_ wc_cb_ : option (Z -> M W unit).
Variable app_functor : Z -> G -> M W unit.
Variable app_holds : A -> Z -> bool.
Definition cb_of (cb : option (Z -> M W unit)) (id : Z) : option (M W unit) := (.$ id) <$> cb.

(** [remove_connection(conn)], called on the loop's thread: the functor runs
    at once. *)
Definition remove_connection (id : Z) : M W unit :=
  zoom owner_lens (modify (fun s => set_connections (connections_ s ∖ {[id]}) s)) ;;
  TcpConnection.connection_destroyed (channel_of id) (cb_of conn_cb_ id).

Definition close_cb (id : Z) : option (M W unit) := Some (remove_connection id).

(** [new_connection(sockfd, peer_addr)] on the loop's thread *)
Definition new_connection (sockfd : Z) (k : K) : M S unit :=
  id ← gets next_conn_id_;
  modify (fun s => set_next (u64 (next_conn_id_ s + 1)) s) ;;
  modify (fun s => set_objects (<[id := (TcpConnection.make sockfd, k)]> (objects s)) s) ;;
  modify (fun s => set_connections ({[id]} ∪ connections_ s) s) ;;
  on_conn id (TcpConnection.connection_established (channel_of id) (cb_of conn_cb_ id)).

(** [handle_accept()], by the answer of [accept4]: a descriptor and its socket,
    or an error. *)
Definition handle_accept (accepted : option (Z * K)) : M S unit :=
  match accepted with
  | None => mret ()
  | Some (conn_fd, k) => new_connection conn_fd k
  end.

Definition accept_update : M S unit := EventLoop.update_channel accept_reg true accept_ch.
Definition accept_remove : M S unit := EventLoop.remove_channel accept_reg true accept_ch.

Definition start : M S unit :=
  was ← gets started_;
  modify (set_started true) ;;
  if (was : bool) then mret () else Channel.enable_reading accept_lens accept_update.

(** [~TcpServer()]; [order] is the order in which the table is walked. *)
Definition destroy_acceptor : M S unit :=
  Channel.disable_all accept_lens accept_update ;;
  Channel.remove accept_lens accept_update accept_remove.
Definition destroy_connections (order : list Z) : M S unit :=
  for_each (fun id => on_conn id
    (TcpConnection.connection_destroyed (channel_of id) (cb_of conn_cb_ id))) order.
Definition destroy (order : list Z) : M S unit :=
  destroy_acceptor ;;
  destroy_connections order ;;
  modify (set_connections ∅).   (* the table's destructor *)

(** *** The loop's thread *)

Definition holds (id : Z) (f : functor G) : bool :=
  match f with
  | ConnFunctor id' TcpConnection.HandleClose => id' =? id      (* captures self *)
  | ConnFunctor _ _ => false                                    (* captures this *)
  | AppFunctor id' _ => id' =? id
  end.

(** Besides the table, the queued functors, those of [batch] and the owner's
    state hold connections. *)
Definition holder (batch : list (functor G)) (s : S) (id : Z) : bool :=
  existsb (holds id) (EventLoop.pending_functors_ (loop_ s) ++ batch) || app_holds (app s) id.

(** The objects that nobody holds any more are destroyed. *)
Definition released (batch : list (functor G)) (s : S) : S :=
  set_objects (filter (fun io => io.1 ∈ connections_ s \/ holder batch s io.1 = true) (objects s)) s.
Definition release (batch : list (functor G)) : M S unit := modify (released batch).

Definition run_functor (f : functor G) : M S unit :=
  match f with
  | ConnFunctor id f => on_conn id (TcpConnection.run_functor (channel_of id) (cb_of conn_cb_ id)
      (cb_of wc_cb_ id) (close_cb id) f)
  | AppFunctor id g => on_conn id (app_functor id g)
  end.

(** [do_pending_functors()]: its vector lives to the end. *)
Definition run_pending : M S unit :=
  batch ← gets (fun s => EventLoop.pending_functors_ (loop_ s));
  EventLoop.do_pending_functors loop_lens (fun f => run_functor f ;; release batch) ;;
  release [].

(** The events on the acceptor, by the answer of [accept4], and on a connection,
    whose channel is tied to it while it dispatches. *)
Definition accept_event (revents : Z) (accepted : option (Z * K)) : M S unit :=
  zoom accept_lens (modify (Channel.set_revents revents)) ;;
  Channel.handle_event accept_lens (Some (handle_accept accepted)) None None None (fun _ _ => true) ;;
  release [].
Definition conn_event (id revents : Z) : M S unit :=
  on_conn id (TcpConnection.on_event (channel_of id) (cb_of conn_cb_ id) (cb_of msg_cb_ id)
    (cb_of wc_cb_ id) (close_cb id) revents) ;;
  release [].

(** The loop has the channels that its last [epoll_wait] found active and that
    it has still to dispatch: connections by their ids, the acceptor as 0. *)
Definition config : Type := S * list Z.

Inductive action :=
| Start
| Poll (active : list Z)
| Dispatch (revents : Z) (accepted : option (Z * K))
| RunPending
(* the calls of other threads, which hold the connection while they call *)
| OtherForceClose (id : Z)
| OtherSend (id : Z) (data : bytes)
| OtherShutdown (id : Z).

Definition dispatch (revents : Z) (accepted : option (Z * K)) : M config unit :=
  active ← gets snd;
  match active with
  | [] => mret ()
  | x :: active' =>
      zoom lens_snd (modify (fun _ => active')) ;;
      zoom lens_fst (if x =? 0 then accept_event revents accepted else conn_event x revents)
  end.

Definition perform (a : action) : M config unit :=
  match a with
  | Start => zoom lens_fst start
  | Poll active => zoom lens_snd (modify (fun _ => active))
  | Dispatch revents accepted => dispatch revents accepted
  | RunPending => zoom lens_fst run_pending
  | OtherForceClose id => zoom lens_fst (on_conn id (TcpConnection.force_close false) ;; release [])
  | OtherSend id data => zoom lens_fst (on_conn id (TcpConnection.send (channel_of id)
      (cb_of conn_cb_ id) (cb_of wc_cb_ id) (close_cb id) false data) ;; release [])
  | OtherShutdown id => zoom lens_fst (on_conn id (TcpConnection.shutdown (channel_of id)
      (cb_of conn_cb_ id) (cb_of wc_cb_ id) (close_cb id) false) ;; release [])
  end.

End code.

(** ** Invariant *)

(** What else the loop has open: the descriptors, and what is registered for
    them with the kernel and the poller. *)
Record others := mk_others {
  other_fds : gset Z;
  other_masks : gmap Z Z;
  other_channels : gmap Z EpollPoller.ptr;
}.
#[global] Instance others_elem_of : ElemOf Z others := fun fd r => fd ∈ other_fds r.

Section proofs.
Context {K A G : Type} `{SocketOk K}.
Abbreviation S := (t K A G).
Abbreviation W := (TcpConnection.world K S).
Variables conn_cb_ msg_cb_ wc_cb_ : option (Z -> M W unit).
Variable app_functor : Z -> G -> M W unit.
Variable app_holds : A -> Z -> bool.
(** What holds of the owner's state. *)
Variable app_ok : A -> Prop.
Variable rest : others.
Implicit Types (s : S) (o : TcpConnection.t * K) (id : Z).

Definition poller s : EpollPoller.t := EventLoop.poller_ (loop_ s).
Definition pending s : list (functor G) := EventLoop.pending_functors_ (loop_ s).
Definition chan o : Channel.t := TcpConnection.channel_ o.1.
Definition fd_of o : Z := Channel.fd_ (chan o).

Definition sound_object o : Prop :=
  Buffer.wf (TcpConnection.input_buf_ o.1) /\ Buffer.wf (TcpConnection.output_buf_ o.1) /\
  (Buffer.contents (TcpConnection.output_buf_ o.1) <> [] ->
     TcpConnection.state_ o.1 <> TcpConnection.kDisconnected -> Channel.is_writing (chan o) = true).

(** A closed connection whose channel the poller does not know. *)
Definition off_object o : Prop :=
  TcpConnection.state_ o.1 = TcpConnection.kDisconnected /\ TcpConnection.unhooked (chan o).

(** The poller, the interest set [k] of the kernel and the channels agree,
    nothing else is registered, and no descriptor has two owners. *)
Record poller_ok (k : gmap Z Z) s : Prop := {
  p_replay : EpollPoller.Interest.replay (EpollPoller.calls (poller s)) ∅ = Some k;
  p_masks : Forall (fun c => EpollPoller.level_triggered (EpollPoller.mask c))
    (EpollPoller.calls (poller s));
  p_conns : forall id o, objects s !! id = Some o ->
    EpollPoller.consistent (channel_of id) (chan o) (poller s) k;
  p_accept : EpollPoller.consistent accept_ch (accept_channel_ s) (poller s) k;
  p_fds : forall id1 id2 o1 o2, objects s !! id1 = Some o1 -> objects s !! id2 = Some o2 ->
    fd_of o1 = fd_of o2 -> id1 = id2;
  p_accept_fd : forall id o, objects s !! id = Some o -> fd_of o <> Channel.fd_ (accept_channel_ s);
  p_conn_rest : forall id o, objects s !! id = Some o -> fd_of o ∉ rest;
  p_accept_rest : Channel.fd_ (accept_channel_ s) ∉ rest;
  p_loop : forall fd, fd ∈ rest -> k !! fd = other_masks rest !! fd /\
    EpollPoller.channels_ (poller s) !! fd = other_channels rest !! fd;
  p_rest : forall fd, fd <> Channel.fd_ (accept_channel_ s) -> fd ∉ rest ->
    (forall id o, objects s !! id = Some o -> fd_of o <> fd) ->
    k !! fd = None /\ EpollPoller.channels_ (poller s) !! fd = None;
}.

(** A queued functor that can be run: it holds its connection, which exists. *)
Definition runnable s (f : functor G) : Prop :=
  match f with
  | ConnFunctor id f => f = TcpConnection.HandleClose /\ is_Some (objects s !! id)
  | AppFunctor id _ => is_Some (objects s !! id)
  end.

(** The server is consistent; [batch] are the functors that are being run. *)
Record core (batch : list (functor G)) s : Prop := {
  c_poller : exists k, poller_ok k s;
  c_next : 0 < next_conn_id_ s;
  c_ids : forall id o, objects s !! id = Some o -> 0 < id < next_conn_id_ s;
  c_table : forall id, id ∈ connections_ s -> is_Some (objects s !! id);
  c_objects : forall id o, objects s !! id = Some o -> sound_object o;
  c_open : forall id o, objects s !! id = Some o -> id ∈ connections_ s ->
    TcpConnection.state_ o.1 <> TcpConnection.kDisconnected;
  c_off : forall id o, objects s !! id = Some o -> id ∉ connections_ s -> off_object o;
  c_pending : Forall (runnable s) (pending s ++ batch);
  c_app : forall id, app_holds (app s) id = true -> is_Some (objects s !! id);
  c_app_ok : app_ok (app s);
}.

(** Every object is in the table or held otherwise. *)
Definition held (batch : list (functor G)) s : Prop :=
  forall id o, objects s !! id = Some o -> id ∈ connections_ s \/ holder app_holds batch s id = true.

Definition inv s : Prop := core [] s /\ held [] s.

(** *** What a connection's code may do to the server *)

Definition allowed (f : TcpConnection.functor) : Prop := f = TcpConnection.HandleClose.
Definition gone id (u : S) : Prop := id ∉ connections_ u.
Definition owner id (s u : S) (fs : list TcpConnection.functor) : Prop :=
  Forall allowed fs /\ objects u = objects s /\ next_conn_id_ u = next_conn_id_ s /\
  accept_channel_ u = accept_channel_ s /\ started_ u = started_ s /\ pending u = pending s /\
  (connections_ u = connections_ s \/ connections_ u = connections_ s ∖ {[id]}) /\
  app_ok (app u) /\
  forall id', app_holds (app u) id' = true -> id' = id \/ app_holds (app s) id' = true.

Lemma owner_push id s u fs f : allowed f -> owner id s u fs -> owner id s u (fs ++ [f]).
Proof. intros Hf (Hfs & ?). split; [|done]. apply Forall_app. by repeat constructor. Qed.

Abbreviation good id s m := (forall fd k0 m0,
  TcpConnection.good (channel_of id) fd k0 m0 (owner id s) (gone id) m).

(** The callbacks keep the connection sound and leave the server alone. *)
Hypothesis conn_cb_good : forall id s, good id s (call_if (cb_of conn_cb_ id)).

(** [remove_connection] lets the connection go. *)
Lemma remove_connection_lets_go id s fd k0 m0 w :
  TcpConnection.inv (channel_of id) fd k0 m0 (owner id s) w ->
  TcpConnection.state w = TcpConnection.kDisconnected ->
  wpe (call_if (close_cb conn_cb_ id)) w (fun w' _ =>
    TcpConnection.inv (channel_of id) fd k0 m0 (owner id s) w' /\
    TcpConnection.ext0 (gone id) w w' /\ gone id (TcpConnection.user w') /\
    TcpConnection.off w') TcpConnection.oom.
Proof.
  intros Hw Hs. unfold close_cb, remove_connection, gone. simpl. wpe_pures. set (w1 := lset owner_lens _ w).
  assert (TcpConnection.inv (channel_of id) fd k0 m0 (owner id s) w1) as Hw1.
  { destruct Hw as [? ? ? ? (Hfs & Ho & Hn & Ha & Hst & Hp & Hc & ? & ?)]. split; try done.
    split_and!; try done. right. simpl. destruct Hc as [-> | ->]; set_solver. }
  eapply wpe_mono; [apply (TcpConnection.connection_destroyed_wpe (channel_of id)
    (cb_of conn_cb_ id) fd k0 m0 (owner id s) (gone id)); [apply conn_cb_good|done|by right]| |done].
  intros w2 [] (Hw2 & He2 & Hoff & Hu). rewrite (Hu Hs). split_and!; [done| |simpl; set_solver|done].
  etrans; [|exact He2]. split; try done. unfold gone. simpl. set_solver.
Qed.

Hypothesis msg_cb_good : forall id s, good id s (call_if (cb_of msg_cb_ id)).
Hypothesis wc_cb_good : forall id s, good id s (call_if (cb_of wc_cb_ id)).
Hypothesis app_functor_good : forall id g s, good id s (app_functor id g).

(** *** One connection's operation *)

Lemma conn_focus s id o k :
  poller_ok k s -> objects s !! id = Some o -> sound_object o -> app_ok (app s) ->
  TcpConnection.inv (channel_of id) (fd_of o) k (EpollPoller.channels_ (poller s)) (owner id s)
    (enter s o).
Proof.
  intros Hk Ho (Hin & Hout & Hwr) Hok. split; [done|done| |done|].
  2: { split_and!; try done; [by left|by right]. }
  exists k. apply EpollPoller.consistent_registered; [apply Hk..|by apply (p_conns _ _ Hk)].
Qed.

(** What an operation on connection [id] may have changed in the server. *)
Definition touched id s s' : Prop :=
  next_conn_id_ s' = next_conn_id_ s /\ accept_channel_ s' = accept_channel_ s /\
  started_ s' = started_ s /\
  (connections_ s' = connections_ s \/ connections_ s' = connections_ s ∖ {[id]}) /\
  (exists o', objects s' = <[id := o']> (objects s)) /\
  exists fs, pending s' = pending s ++ (ConnFunctor id <$> fs) /\ Forall allowed fs.

Lemma leave_touched id s k0 m0 fd w :
  TcpConnection.inv (channel_of id) fd k0 m0 (owner id s) w -> touched id s (leave id w).
Proof.
  intros [_ _ _ _ (Hfs & Ho & Hn & Ha & Hst & Hp & Hc & _)]. unfold touched, leave, pending. simpl.
  split_and!; try done.
  - eexists. by rewrite Ho.
  - eexists. split; [|exact Hfs]. unfold pending in Hp. by rewrite Hp.
Qed.

Lemma runnable_mono s s' f :
  (forall id, is_Some (objects s !! id) -> is_Some (objects s' !! id)) ->
  runnable s f -> runnable s' f.
Proof. destruct f as [id f|id g]; intros Hm; [intros [-> Hs]; split; [done|]|]; by apply Hm. Qed.

Lemma leave_poller id s o k w fs :
  poller_ok k s -> objects s !! id = Some o ->
  TcpConnection.registered (channel_of id) (fd_of o) k (EpollPoller.channels_ (poller s))
    (lget TcpConnection.reg_lens w) ->
  owner id s (TcpConnection.user w) fs ->
  exists k', poller_ok k' (leave id w).
Proof.
  intros Hk Ho [k' Hreg] (_ & Hobj & _ & Hacc & _). exists k'.
  destruct (EpollPoller.registered_consistent _ _ _ _ _ _ _ Hreg) as [Hfd Hcons].
  assert (forall id' o', objects (leave id w) !! id' = Some o' ->
    id' = id /\ chan o' = TcpConnection.channel_ (TcpConnection.conn w) \/
    id' <> id /\ objects s !! id' = Some o') as Hlook.
  { intros id' o'. unfold leave. simpl. rewrite Hobj.
    intros [[-> <-]|[Hne Ho']]%lookup_insert_Some; [by left|by right]. }
  assert (forall id' o', objects (leave id w) !! id' = Some o' ->
    exists o0, objects s !! id' = Some o0 /\ fd_of o' = fd_of o0) as Hfds.
  { intros id' o' Ho'. destruct (Hlook id' o' Ho') as [[-> Hch]|[_ Hs]]; [|by exists o'].
    exists o. split; [done|]. unfold fd_of. by rewrite Hch. }
  split.
  - exact (EpollPoller.reg_replay _ _ _ _ _ _ _ Hreg).
  - exact (EpollPoller.reg_masks _ _ _ _ _ _ _ Hreg).
  - intros id' o' Ho'. destruct (Hlook id' o' Ho') as [[-> ->]|[Hne Hs]]; [done|].
    eapply EpollPoller.consistent_frame; [exact Hreg| |by apply (p_conns _ _ Hk)].
    intros Heq. apply Hne. by apply (p_fds _ _ Hk id' id o' o).
  - simpl. rewrite Hacc. eapply EpollPoller.consistent_frame; [exact Hreg| |apply (p_accept _ _ Hk)].
    intros Heq. by apply (p_accept_fd _ _ Hk id o Ho).
  - intros id1 id2 o1 o2 H1 H2 Heq. destruct (Hfds _ _ H1) as (p1 & Hp1 & E1).
    destruct (Hfds _ _ H2) as (p2 & Hp2 & E2). apply (p_fds _ _ Hk id1 id2 p1 p2); congruence.
  - intros id' o' Ho'. destruct (Hfds _ _ Ho') as (p' & Hp' & ->). simpl. rewrite Hacc.
    by apply (p_accept_fd _ _ Hk id').
  - intros id' o' Ho'. destruct (Hfds _ _ Ho') as (p' & Hp' & ->). by apply (p_conn_rest _ _ Hk id').
  - simpl. rewrite Hacc. by apply (p_accept_rest _ _ Hk).
  - intros fd Hr. assert (fd <> fd_of o) as Hother.
    { intros ->. by apply (p_conn_rest _ _ Hk id o). }
    destruct (EpollPoller.reg_frame _ _ _ _ _ _ _ Hreg fd Hother) as [-> Hm].
    unfold poller. simpl in *. rewrite Hm. by apply (p_loop _ _ Hk).
  - simpl. rewrite Hacc. intros fd Hne Hrest Hnone.
    assert (fd <> fd_of o) as Hother.
    { intros ->. apply (Hnone id (TcpConnection.conn w, TcpConnection.sock w)); [|exact Hfd].
      unfold leave. simpl. apply lookup_insert_eq. }
    destruct (EpollPoller.reg_frame _ _ _ _ _ _ _ Hreg fd Hother) as [-> Hm].
    unfold poller. simpl in *. rewrite Hm. apply (p_rest _ _ Hk); [done..|].
    intros id' o' Ho' Heq. destruct (decide (id' = id)) as [->|Hid]; [congruence|].
    apply (Hnone id' o'); [|done]. unfold leave. simpl. by rewrite Hobj, lookup_insert_ne.
Qed.

(** The objects that an operation on [id] left. *)
Lemma leave_lookup id s k0 m0 fd w id' o' :
  TcpConnection.inv (channel_of id) fd k0 m0 (owner id s) w ->
  objects (leave id w) !! id' = Some o' ->
  id' = id /\ o' = (TcpConnection.conn w, TcpConnection.sock w) \/
  id' <> id /\ objects s !! id' = Some o'.
Proof.
  intros [_ _ _ _ (_ & Hobj & _)]. unfold leave. simpl. rewrite Hobj.
  intros [[-> <-]|[? ?]]%lookup_insert_Some; [by left|by right].
Qed.

(** An operation on a connection keeps the server consistent if it leaves the
    connection open in the table, or off. *)
Lemma leave_core batch id s o k w :
  core batch s -> poller_ok k s -> objects s !! id = Some o ->
  TcpConnection.inv (channel_of id) (fd_of o) k (EpollPoller.channels_ (poller s)) (owner id s) w ->
  (id ∈ connections_ (TcpConnection.user w) ->
     TcpConnection.state w <> TcpConnection.kDisconnected) ->
  (gone id (TcpConnection.user w) -> TcpConnection.off w) ->
  core batch (leave id w).
Proof.
  intros Hcore Hk Ho Hw Hopen Hoff.
  pose proof (fun id' o' => leave_lookup id s _ _ _ w id' o' Hw) as Hlook.
  destruct (leave_poller id s o k w _ Hk Ho (TcpConnection.inv_reg _ _ _ _ _ _ Hw)
    (TcpConnection.inv_user _ _ _ _ _ _ Hw)) as [k' Hk'].
  pose proof Hw as [Hin Hout _ Hwr (Hfs & Hobj & Hnext & _ & _ & Hp & Hc & Happ & Hholds)].
  assert (forall id', id' <> id ->
    id' ∈ connections_ (TcpConnection.user w) <-> id' ∈ connections_ s) as Hother.
  { intros id' Hne. destruct Hc as [-> | ->]; set_solver. }
  assert (forall id', is_Some (objects s !! id') -> is_Some (objects (leave id w) !! id')) as Hmono.
  { intros id' Hs. unfold leave. simpl. rewrite Hobj.
    destruct (decide (id' = id)) as [->|Hne]; [rewrite lookup_insert_eq; by eexists|].
    by rewrite lookup_insert_ne. }
  split.
  - by exists k'.
  - simpl. rewrite Hnext. by apply (c_next _ _ Hcore).
  - intros id' o' Ho'. simpl. rewrite Hnext.
    destruct (Hlook id' o' Ho') as [[-> _]|[_ Hs]]; by eapply c_ids.
  - intros id' Hid. apply Hmono, (c_table _ _ Hcore). simpl in Hid.
    destruct Hc as [Hc|Hc]; rewrite Hc in Hid; set_solver.
  - intros id' o' Ho'. destruct (Hlook id' o' Ho') as [[-> ->]|[_ Hs]]; [done|].
    by apply (c_objects _ _ Hcore id').
  - intros id' o' Ho' Hid. simpl in Hid.
    destruct (Hlook id' o' Ho') as [[-> ->]|[Hne Hs]]; [by apply Hopen|].
    apply (c_open _ _ Hcore id'); [done|by apply Hother].
  - intros id' o' Ho' Hid. simpl in Hid.
    destruct (Hlook id' o' Ho') as [[-> ->]|[Hne Hs]]; [by apply Hoff|].
    apply (c_off _ _ Hcore id'); [done|]. by rewrite <- Hother.
  - unfold pending, leave. simpl. unfold pending in Hp. rewrite Hp.
    pose proof (c_pending _ _ Hcore) as Hpend. rewrite !Forall_app in *.
    destruct Hpend as [H1 H2]. split_and!.
    + eapply Forall_impl; [exact H1|]. intros f. by apply runnable_mono.
    + apply Forall_fmap. eapply Forall_impl; [exact Hfs|]. intros f ->. split; [done|].
      apply Hmono. by exists o.
    + eapply Forall_impl; [exact H2|]. intros f. by apply runnable_mono.
  - intros id' Hid'. apply Hmono. simpl in Hid'.
    destruct (Hholds id' Hid') as [->|?]; [by exists o|by apply (c_app _ _ Hcore)].
  - exact Happ.
Qed.

Lemma on_conn_wpe {X} batch id s o (m : M W X) (Q : W -> X -> Prop) :
  core batch s -> objects s !! id = Some o ->
  (forall fd k0 m0, let w := enter s o in
     TcpConnection.inv (channel_of id) fd k0 m0 (owner id s) w ->
     wpe m w (fun w' x => TcpConnection.inv (channel_of id) fd k0 m0 (owner id s) w' /\
       TcpConnection.ext (gone id) w w' /\ Q w' x) TcpConnection.oom) ->
  wpe (on_conn id m) s (fun s' x => core batch s' /\ touched id s s' /\
    exists w', Q w' x /\ s' = leave id w') TcpConnection.oom.
Proof.
  intros Hcore Ho Hm. destruct (c_poller _ _ Hcore) as [k Hk].
  pose proof (conn_focus s id o k Hk Ho (c_objects _ _ Hcore id o Ho) (c_app_ok _ _ Hcore)) as Hin.
  specialize (Hm _ _ _ Hin). unfold on_conn, wpe in *. rewrite Ho.
  destruct (m (enter s o)) as [w' x|w' e|why|]; try done.
  destruct Hm as (Hw' & [_ Hclosed Hclean] & HQ).
  split_and!; [|by eapply leave_touched|by exists w'].
  assert (connections_ (TcpConnection.user w') ⊆ connections_ s) as Hsub.
  { destruct (TcpConnection.inv_user _ _ _ _ _ _ Hw') as (_&_&_&_&_&_&[-> | ->]&_); set_solver. }
  eapply leave_core; [done..| |].
  - intros Hid Hs. destruct (Hclosed Hs) as [Hs0|Hg]; [|done].
    by apply (c_open _ _ Hcore id o Ho); [apply Hsub|].
  - apply Hclean. intros Hg. by apply (c_off _ _ Hcore id o).
Qed.

(** *** The objects that nobody holds *)

Lemma functor_holds id fs : existsb (holds id) fs = true <-> exists f, f ∈ fs /\ @holds G id f = true.
Proof.
  rewrite existsb_exists. split; intros (f & Hin & Hh); exists f; (split; [|done]);
    by apply list_elem_of_In.
Qed.

Lemma released_lookup batch s id o :
  objects (released app_holds batch s) !! id = Some o <->
  objects s !! id = Some o /\ (id ∈ connections_ s \/ holder app_holds batch s id = true).
Proof. unfold released. simpl. by rewrite map_lookup_filter_Some. Qed.

Lemma release_core batch s :
  core batch s -> core batch (released app_holds batch s) /\ held batch (released app_holds batch s).
Proof.
  intros [[k Hk] Hpos Hids Htab Hobj Hopen Hoff Hpend Happ Hok].
  assert (forall id o, objects (released app_holds batch s) !! id = Some o -> objects s !! id = Some o) as Hsub.
  { intros id o. rewrite released_lookup. naive_solver. }
  assert (forall id, is_Some (objects s !! id) -> holder app_holds batch s id = true ->
    is_Some (objects (released app_holds batch s) !! id)) as Hkeep.
  { intros id [o Ho] Hh. exists o. apply released_lookup. auto. }
  split; [|intros id o; rewrite released_lookup; naive_solver].
  split; eauto.
  - exists k. destruct Hk as [Hrep Hmasks Hcons Hacc Hfds Hafd Hcr Har Hloop Hrest]. split; eauto.
    intros fd Hne Hr Hnone.
    destruct (decide (map_Exists (fun _ o => fd_of o = fd) (objects s))) as [Hex|Hex].
    + destruct Hex as (id & o & Ho & Hfd). destruct (Hcons id o Ho) as [_ Hkern Hmap _].
      assert (id ∉ connections_ s) as Hid.
      { intros Hid. apply (Hnone id o); [|done]. apply released_lookup. auto. }
      destruct (Hoff id o Ho Hid) as (_ & Hidx & _). fold (fd_of o) in Hkern, Hmap.
      unfold EpollPoller.wanted, EpollPoller.known in *. rewrite Hidx, Hfd in *. by simpl in *.
    + apply Hrest; [done..|]. intros id o Ho Hfd. apply Hex. by exists id, o.
  - intros id Hid. destruct (Htab id Hid) as [o Ho]. exists o. apply released_lookup. auto.
  - apply Forall_forall. intros f Hin. rewrite Forall_forall in Hpend.
    assert (forall id, holds id f = true -> holder app_holds batch s id = true) as Hh.
    { intros id Hh. apply orb_true_iff. left. apply functor_holds. by exists f. }
    pose proof (Hpend _ Hin) as Hrun. destruct f as [id f|id g]; simpl in *.
    + destruct Hrun as [-> Hs]. split; [done|]. apply Hkeep; [done|]. apply Hh, Z.eqb_refl.
    + apply Hkeep; [done|]. apply Hh, Z.eqb_refl.
  - intros id Hid. apply Hkeep; [by apply Happ|]. apply orb_true_iff. by right.
Qed.

Lemma core_batch_nil batch s : core batch s -> core [] s.
Proof.
  intros []. split; try done. rewrite app_nil_r. by apply Forall_app in c_pending0 as [? _].
Qed.

(** *** The acceptor *)

Lemma accept_registered k s :
  poller_ok k s -> EpollPoller.registered accept_ch (Channel.fd_ (accept_channel_ s)) k
    (EpollPoller.channels_ (poller s)) True (lget accept_reg s) k.
Proof. intros Hk. apply EpollPoller.consistent_registered; apply Hk. Qed.

(** Whatever the acceptor's registration becomes. *)
Lemma accept_reg_core batch s k k' c p :
  core batch s -> poller_ok k s ->
  EpollPoller.registered accept_ch (Channel.fd_ (accept_channel_ s)) k
    (EpollPoller.channels_ (poller s)) True (c, p) k' ->
  core batch (lset accept_reg (c, p) s).
Proof.
  intros Hcore Hk Hreg'.
  destruct (EpollPoller.registered_consistent _ _ _ _ _ _ _ Hreg') as [Hfd Hcons].
  destruct Hcore. split; try done. exists k'. destruct Hk. split; try done.
  - apply (EpollPoller.reg_replay _ _ _ _ _ _ _ Hreg').
  - apply (EpollPoller.reg_masks _ _ _ _ _ _ _ Hreg').
  - intros id o Ho. eapply EpollPoller.consistent_frame; [exact Hreg'|by eapply p_accept_fd0|].
    by apply p_conns0.
  - intros id o Ho. simpl. rewrite Hfd. by apply (p_accept_fd0 id).
  - simpl. by rewrite Hfd.
  - intros fd Hr. assert (fd <> Channel.fd_ (accept_channel_ s)) as Hne by (by intros ->).
    destruct (EpollPoller.reg_frame _ _ _ _ _ _ _ Hreg' fd Hne) as [-> Hm].
    unfold poller. simpl in *. rewrite Hm. by apply p_loop0.
  - simpl. rewrite Hfd. intros fd Hne Hr Hnone.
    destruct (EpollPoller.reg_frame _ _ _ _ _ _ _ Hreg' fd Hne) as [-> Hm].
    unfold poller. simpl in *. rewrite Hm. by apply p_rest0.
Qed.

Lemma accept_change_wp batch s f :
  core batch s ->
  (forall e, EpollPoller.level_triggered e -> EpollPoller.level_triggered (f e)) ->
  wp (Channel.change_events accept_lens accept_update f) s
    (fun s' _ => core batch s' /\ exists c p, s' = lset accept_reg (c, p) s /\
       Channel.fd_ c = Channel.fd_ (accept_channel_ s) /\
       Channel.events_ c = f (Channel.events_ (accept_channel_ s))).
Proof.
  intros Hcore Hf. destruct (c_poller _ _ Hcore) as [k Hk].
  unfold Channel.change_events, accept_update, EventLoop.update_channel, assert_. wp_pures.
  pose proof (accept_registered k s Hk) as Hreg.
  eapply wp_mono.
  { eapply EpollPoller.update_channel_spec.
    apply (EpollPoller.change_events_registered _ _ _ _ _ _ f Hreg), Hf.
    apply (EpollPoller.cons_mask _ _ _ _ (p_accept _ _ Hk)). }
  cbv beta. intros [c p] _ (k' & Hreg' & Hc). simpl in Hc.
  split; [by apply (accept_reg_core batch s k k')|exists c, p; by rewrite Hc].
Qed.

Lemma start_wpe s : inv s ->
  wpe start s (fun s' _ => inv s' /\ connections_ s' = connections_ s) TcpConnection.oom.
Proof.
  intros [Hcore Hheld]. unfold start. wpe_pures.
  assert (core [] (set_started true s)) as Hcore1.
  { destruct Hcore as [[k []]]. split; try done. exists k. by split. }
  destruct (started_ s); [by apply wpe_ret|].
  apply wp_wpe. eapply wp_mono; [apply (accept_change_wp [] _ (fun e => Z.lor e Channel.kReadEvent)); [done|]|].
  - intros e He. by apply EpollPoller.level_lor.
  - by intros s' [] (Hcore' & c & p & -> & _).
Qed.

(** The kernel gives an accepted connection a descriptor that is not open. *)
Definition fresh (fd : Z) s : Prop :=
  fd <> Channel.fd_ (accept_channel_ s) /\ (fd ∉ rest) /\
  forall id o, objects s !! id = Some o -> fd_of o <> fd.

(** The state in which the new connection is established. *)
Definition added sockfd k s : S :=
  let id := next_conn_id_ s in
  set_connections ({[id]} ∪ connections_ s)
    (set_objects (<[id := (TcpConnection.make sockfd, k)]> (objects s))
       (set_next (u64 (next_conn_id_ s + 1)) s)).

Lemma added_core sockfd sk s :
  core [] s -> fresh sockfd s -> next_conn_id_ s < 2 ^ 64 - 1 -> core [] (added sockfd sk s).
Proof.
  intros [[k Hk] Hpos Hids Htab Hobj Hopen Hoff Hpend Happ Hok] (Hfa & Hfr & Hfo) Hnext. unfold added.
  rewrite u64_small by lia.
  assert (objects s !! next_conn_id_ s = None) as Hnew.
  { destruct (objects s !! next_conn_id_ s) as [o|] eqn:Ho; [|done].
    pose proof (Hids _ _ Ho). lia. }
  split; simpl.
  - exists k. destruct Hk as [Hrep Hmasks Hcons Hacc Hfds Hafd Hcr Har Hloop Hrest]. split; simpl; try done.
    + intros id o [[<- <-]|[_ Ho]]%lookup_insert_Some; [|by apply Hcons].
      destruct (Hrest sockfd Hfa Hfr Hfo). split; try done. by left.
    + intros id1 id2 o1 o2. rewrite !lookup_insert_Some.
      intros [[<- <-]|[_ H1]] [[<- <-]|[_ H2]] Heq; [done| | |by eapply Hfds].
      * by destruct (Hfo id2 o2 H2).
      * by destruct (Hfo id1 o1 H1).
    + intros id o [[<- <-]|[_ Ho]]%lookup_insert_Some; [done|by eapply Hafd].
    + intros id o [[<- <-]|[_ Ho]]%lookup_insert_Some; [done|by eapply Hcr].
    + intros fd Hne Hr Hnone. apply Hrest; [done..|]. intros id o Ho.
      apply (Hnone id). rewrite lookup_insert_ne; [done|]. intros <-. congruence.
  - lia.
  - intros id o [[<- <-]|[_ Ho]]%lookup_insert_Some; [|apply Hids in Ho]; lia.
  - intros id [Hid%elem_of_singleton|Hid]%elem_of_union.
    + rewrite Hid, lookup_insert_eq. by eexists.
    + rewrite lookup_insert_ne; [by apply Htab|]. intros <-. destruct (Htab _ Hid). congruence.
  - intros id o [[<- <-]|[_ Ho]]%lookup_insert_Some; [|by eapply Hobj].
    split_and!; [apply Buffer.default_wf..|by intros []].
  - intros id o [[<- <-]|[Hne Ho]]%lookup_insert_Some Hid; [done|]. apply (Hopen id); [done|set_solver].
  - intros id o [[<- <-]|[Hne Ho]]%lookup_insert_Some Hid; [set_solver|]. apply (Hoff id); [done|set_solver].
  - eapply Forall_impl; [exact Hpend|]. intros f. apply runnable_mono. intros id [o Ho]. simpl.
    rewrite lookup_insert_ne; [by exists o|]. intros <-. congruence.
  - intros id Hid. destruct (Happ id Hid) as [o Ho].
    rewrite lookup_insert_ne; [by exists o|]. intros <-. congruence.
  - done.
Qed.

Lemma new_connection_wpe sockfd sk s :
  core [] s -> fresh sockfd s -> next_conn_id_ s < 2 ^ 64 - 1 ->
  wpe (new_connection conn_cb_ sockfd sk) s
    (fun s' _ => core [] s' /\ connections_ s ⊆ connections_ s') TcpConnection.oom.
Proof.
  intros Hcore Hfresh Hnext. unfold new_connection. wpe_pures.
  set (id := next_conn_id_ s).
  pose proof (added_core sockfd sk s Hcore Hfresh Hnext) as Hcore1.
  set (s1 := added sockfd sk s) in *. change (set_connections _ _) with s1.
  assert (id ∉ connections_ s) as Hnew.
  { intros Hid. destruct (c_table _ _ Hcore id Hid) as [o Ho].
    pose proof (c_ids _ _ Hcore id o Ho). unfold id in *. lia. }
  eapply wpe_mono.
  { eapply (on_conn_wpe [] id s1 _ _ (fun _ _ => True)); [exact Hcore1|apply lookup_insert_eq|].
    intros fd k0 m0 w Hw. eapply wpe_mono.
    - apply (TcpConnection.connection_established_wpe (channel_of id) (cb_of conn_cb_ id) fd k0 m0
        (owner id s1) (gone id)); [apply conn_cb_good|exact Hw|simpl; lia].
    - cbv beta. tauto.
    - done. }
  2: done.
  cbv beta. intros s2 [] (Hcore2 & (_ & _ & _ & Hc & _) & _). split; [done|].
  destruct Hc as [-> | ->]; unfold s1, added; simpl; set_solver.
Qed.

Definition accepted_ok s (accepted : option (Z * K)) : Prop :=
  match accepted with Some (fd, _) => fresh fd s /\ next_conn_id_ s < 2 ^ 64 - 1 | None => True end.

Lemma accept_event_wpe revents accepted s :
  core [] s -> accepted_ok s accepted ->
  wpe (accept_event conn_cb_ app_holds revents accepted) s
    (fun s' _ => inv s' /\ connections_ s ⊆ connections_ s') TcpConnection.oom.
Proof.
  intros Hcore Hacc. unfold accept_event. apply wpe_bind, wpe_zoom, wpe_modify.
  set (s1 := lset accept_lens _ s).
  assert (core [] s1) as Hcore1.
  { destruct Hcore as [[k []]]. split; try done. exists k. split; try done.
    destruct p_accept0. by split. }
  set (Q := fun s' (_ : unit) => core [] s' /\ connections_ s ⊆ connections_ s').
  apply wpe_bind. apply (wpe_mono _ _ Q _ TcpConnection.oom).
  2: { intros s' [] [Hc' Hk']. unfold release. wpe_pures. split; [by apply release_core|done]. }
  2: done.
  assert (wpe (handle_accept conn_cb_ accepted) s1 Q TcpConnection.oom) as Haccept.
  { destruct accepted as [[fd sk]|]; [|by apply wpe_ret].
    destruct Hacc as [Hf Hn]. by apply (new_connection_wpe fd sk s1). }
  assert (wpe (Channel.handle_event_with_guard accept_lens (Some (handle_accept conn_cb_ accepted))
    None None None) s1 Q TcpConnection.oom) as Hguard.
  { unfold Channel.handle_event_with_guard. cbv [call_if]. wpe_pures.
    apply wpe_when_ret. wpe_pures. apply wpe_when_ret. wpe_pures. destruct (Epoll.has _ _); simpl.
    - eapply wpe_mono; [exact Haccept| |done]. intros s' [] Hs'. wpe_pures. by apply wpe_when_ret.
    - wpe_pures. by apply wpe_when_ret. }
  unfold Channel.handle_event. wpe_pures. by destruct (Channel.tie_ _); [wpe_pures|].
Qed.

(** *** Events and functors of the connections *)

Lemma conn_event_wpe id revents s :
  core [] s -> is_Some (objects s !! id) ->
  wpe (conn_event conn_cb_ msg_cb_ wc_cb_ app_holds id revents) s (fun s' _ => inv s' /\
    connections_ s ∖ {[id]} ⊆ connections_ s' /\
    (TcpConnection.hangs_up revents = true -> id ∉ connections_ s')) TcpConnection.oom.
Proof.
  intros Hcore [o Ho]. unfold conn_event. apply wpe_bind.
  eapply wpe_mono; [apply (on_conn_wpe [] id s o _
    (fun w _ => TcpConnection.hangs_up revents = true -> gone id (TcpConnection.user w))); [done..|]| |done].
  - intros fd k0 m0 w Hw. apply (TcpConnection.on_event_wpe _ _ _ _ _ fd k0 m0 (owner id s) (gone id)); try done.
    intros w'. apply remove_connection_lets_go.
  - cbv beta. intros s1 [] (Hcore1 & (_ & _ & _ & Hc & _) & w & Hg & ->). unfold release. wpe_pures.
    split_and!; [by apply release_core| |exact Hg]. simpl in *. destruct Hc as [-> | ->]; set_solver.
Qed.

(** A queued functor that can be run is run. *)
Lemma run_functor_wpe batch f s :
  core batch s -> runnable s f ->
  wpe (run_functor conn_cb_ wc_cb_ app_functor f) s (fun s' _ => core batch s') TcpConnection.oom.
Proof.
  intros Hcore Hrun.
  assert (forall id o (m : M W unit), objects s !! id = Some o -> good id s m ->
    wpe (on_conn id m) s (fun s' _ => core batch s') TcpConnection.oom) as Hgood.
  { intros id o m Ho Hm.
    eapply wpe_mono; [apply (on_conn_wpe batch id s o _ (fun _ _ => True)); [done..|]| |done].
    - intros fd k0 m0 w Hw. eapply wpe_mono; [by apply Hm| |done]. cbv beta. tauto.
    - cbv beta. tauto. }
  destruct f as [id f|id g]; simpl in *.
  - destruct Hrun as [-> [o Ho]]. apply (Hgood id o); [done|]. intros fd k0 m0.
    apply (TcpConnection.good_handle_close _ _ _ fd k0 m0 (owner id s) (gone id)); try done.
    intros w'. apply remove_connection_lets_go.
  - destruct Hrun as [o Ho]. by apply (Hgood id o).
Qed.

Lemma run_pending_wpe s : core [] s ->
  wpe (run_pending conn_cb_ wc_cb_ app_functor app_holds) s (fun s' _ => inv s') TcpConnection.oom.
Proof.
  intros Hcore. unfold run_pending. wpe_pures.
  change (EventLoop.pending_functors_ (loop_ s)) with (pending s). set (batch := pending s).
  apply (wpe_mono _ _ (fun s' _ => core batch s') _ TcpConnection.oom).
  2: { intros s' [] Hc. unfold release. wpe_pures. by apply release_core, (core_batch_nil batch). }
  2: done.
  unfold EventLoop.do_pending_functors. wpe_pures. simpl.
  change (EventLoop.pending_functors_ (loop_ s)) with batch.
  apply (wpe_mono _ _ (fun s' _ => core batch s') _ TcpConnection.oom).
  2: { intros s' [] Hc. wpe_pures. destruct Hc as [[k []]]. split; try done. exists k. by split. }
  2: done.
  apply (wpe_for_each _ batch _ (core batch)).
  { destruct Hcore as [[k []]]. split; try done; [exists k; by split|]. simpl.
    by rewrite app_nil_r in c_pending0. }
  intros f s1 Hf Hc1. apply wpe_bind.
  pose proof (c_pending _ _ Hc1) as Hrun. rewrite Forall_app, !Forall_forall in Hrun.
  eapply wpe_mono; [apply run_functor_wpe; [done|by apply Hrun]| |done].
  cbv beta. intros s2 [] Hc2. unfold release. wpe_pures. by apply release_core.
Qed.

Lemma other_force_close_wpe id s :
  core [] s -> is_Some (objects s !! id) ->
  wpe (on_conn id (TcpConnection.force_close false) ;; release app_holds []) s
    (fun s' _ => inv s' /\ connections_ s ⊆ connections_ s') TcpConnection.oom.
Proof.
  intros Hcore [o Ho]. apply wpe_bind.
  eapply wpe_mono; [apply (on_conn_wpe [] id s o _ (fun w _ => TcpConnection.user w = s)); [done..|]| |done].
  - intros fd k0 m0 w Hw.
    pose proof (TcpConnection.good_force_close _ fd k0 m0 (owner id s) allowed (gone id)
      (owner_push id s) false eq_refl w Hw) as Hgood.
    destruct (TcpConnection.force_close_runs w) as (w' & Hrun & Hu). unfold wpe in *.
    rewrite Hrun in *. destruct Hgood. by split_and!.
  - cbv beta. intros s' [] (Hcore' & _ & w & Hu & ->). unfold release. wpe_pures.
    split; [by apply release_core|]. simpl. by rewrite Hu.
Qed.

(** *** Other threads of the owner *)

(** A step of another thread of the owner: its state changes, and it may queue
    functors for connections that it holds; it takes hold of no others. *)
Record app_step s s' : Prop := {
  as_poller : poller s' = poller s;
  as_accept : accept_channel_ s' = accept_channel_ s;
  as_next : next_conn_id_ s' = next_conn_id_ s;
  as_table : connections_ s' = connections_ s;
  as_objects : objects s' = objects s;
  as_ok : app_ok (app s');
  as_holds : forall id, app_holds (app s') id = true -> app_holds (app s) id = true;
  as_pending : exists q, pending s' = pending s ++ (uncurry AppFunctor <$> q) /\
    Forall (fun ig => app_holds (app s) ig.1 = true) q;
}.

Lemma app_step_core s s' : core [] s -> app_step s s' -> core [] s'.
Proof.
  destruct s as [l ac st n cs os a], s' as [l' ac' st' n' cs' os' a'].
  intros [[k []] Hpos Hids Htab Hobj Hopen Hoff Hpend Happ Hok] [Hp Ha Hn Ht Ho Hok' Hh (q & Hq & Hqh)].
  unfold poller, pending in *. simpl in *. subst ac' n' cs' os'.
  split; try done; simpl.
  - exists k. split; unfold poller; simpl; by rewrite ?Hp.
  - unfold pending. simpl. rewrite Hq, app_nil_r in *. apply Forall_app. split; [done|].
    apply Forall_fmap. eapply Forall_impl; [exact Hqh|]. intros [id g] Hid. by apply Happ.
  - intros id Hid. by apply Happ, Hh.
Qed.

(** ** The destructor *)

(** The acceptor's descriptor and those of the connections. *)
Definition descriptors s : Z * gmap Z Z := (Channel.fd_ (accept_channel_ s), fd_of <$> objects s).

(** While the connections of [todo] have still to be unregistered. *)
Record dying (todo : list Z) s : Prop := {
  d_poller : exists k, poller_ok k s;
  d_app : app_ok (app s);
  d_accept : TcpConnection.unhooked (accept_channel_ s);
  d_todo : Forall (fun id => exists o, objects s !! id = Some o /\ sound_object o) todo;
  d_done : forall id o, objects s !! id = Some o ->
    id ∈ todo \/ TcpConnection.unhooked (chan o);
}.

Lemma accept_remove_wp s :
  core [] s ->
  wp (Channel.remove accept_lens accept_update accept_remove) s (fun s' _ => core [] s' /\
    (exists c p, s' = lset accept_reg (c, p) s /\ Channel.fd_ c = Channel.fd_ (accept_channel_ s)) /\
    TcpConnection.unhooked (accept_channel_ s')).
Proof.
  intros Hcore. unfold Channel.remove. wp_pures.
  eapply wp_mono; [by apply (accept_change_wp [] _ (fun _ => 0))|].
  cbv beta. intros s1 _ (Hcore1 & c & p & -> & Hf & He). destruct (c_poller _ _ Hcore1) as [k Hk].
  unfold accept_remove, EventLoop.remove_channel, assert_. wp_pures.
  eapply wp_mono; [eapply EpollPoller.remove_channel_spec, EpollPoller.weaken, accept_registered, Hk|].
  cbv beta. intros [c' p'] _ (k' & Hreg' & Hc'). simpl in Hc'.
  split_and!; [by apply (accept_reg_core [] _ k k')|exists c', p'; by rewrite Hc'|rewrite Hc'; by split].
Qed.

(** One connection is unregistered. *)
Lemma destroy_conn_wpe id todo s :
  dying (id :: todo) s -> id ∉ todo ->
  wpe (on_conn id (TcpConnection.connection_destroyed (channel_of id) (cb_of conn_cb_ id))) s
    (fun s' _ => dying todo s' /\ descriptors s' = descriptors s) TcpConnection.oom.
Proof.
  intros [[k Hk] Hok Hacc Htodo Hdone] Hid.
  apply Forall_cons in Htodo as [(o & Ho & Hsound) Htodo].
  pose proof (conn_focus s id o k Hk Ho Hsound Hok) as Hin.
  pose proof (TcpConnection.connection_destroyed_unhooks (channel_of id) (cb_of conn_cb_ id) _ _ _
    (owner id s) (gone id) (conn_cb_good id s _ _ _) _ Hin) as Hm.
  unfold on_conn, wpe in *. rewrite Ho.
  destruct (TcpConnection.connection_destroyed _ _ (enter s o)) as [w []|w e|why|]; try done.
  destruct Hm as (Hreg & Hidx & Hown). destruct (leave_poller id s o k w _ Hk Ho Hreg Hown) as [k' Hk'].
  destruct Hown as (_ & Hobj & _ & Ha & _ & _ & _ & Hok' & _).
  split.
  2: { destruct Hreg as [k1 Hreg]. destruct (EpollPoller.registered_consistent _ _ _ _ _ _ _ Hreg) as [Hfd _].
       unfold descriptors, leave. simpl. rewrite Ha, Hobj, fmap_insert. f_equal. apply insert_id.
       rewrite lookup_fmap, Ho. simpl. f_equal. unfold fd_of. symmetry. exact Hfd. }
  split; [by exists k'|done| | |].
  - unfold leave. simpl. by rewrite Ha.
  - rewrite Forall_forall in *. intros id' Hin'. destruct (Htodo id' Hin') as (o' & Ho' & Hs').
    exists o'. split; [|done]. unfold leave. simpl. rewrite Hobj, lookup_insert_ne by set_solver. done.
  - intros id' o'. unfold leave. simpl. rewrite Hobj.
    intros [[-> <-]|[Hne Ho']]%lookup_insert_Some; [by right|].
    destruct (Hdone id' o' Ho') as [[->|?]%elem_of_cons|?]; [done|by left|by right].
Qed.

Lemma destroy_conns_wpe todo s :
  dying todo s -> NoDup todo ->
  wpe (for_each (fun id => on_conn id
    (TcpConnection.connection_destroyed (channel_of id) (cb_of conn_cb_ id))) todo) s
    (fun s' _ => dying [] s' /\ descriptors s' = descriptors s) TcpConnection.oom.
Proof.
  revert s. induction todo as [|id todo IH]; intros s Hs Hnd; [done|].
  apply NoDup_cons in Hnd as [Hid Hnd]. simpl. apply wpe_bind.
  eapply wpe_mono; [by apply destroy_conn_wpe| |done]. intros s1 [] [Hs1 Hd]. rewrite <- Hd. by apply IH.
Qed.

(** A channel that is new is not in the poller. *)
Lemma new_unregistered p c pl k :
  EpollPoller.consistent p c pl k -> TcpConnection.unhooked c ->
  k !! Channel.fd_ c = None /\ EpollPoller.channels_ pl !! Channel.fd_ c = None.
Proof.
  intros [_ -> -> _] [Hi _]. unfold EpollPoller.wanted, EpollPoller.known. by rewrite Hi.
Qed.

(** A loop with its own channels only. *)
Definition loop_clear (l : EventLoop.t (functor G)) : Prop :=
  Forall (fun c => EpollPoller.level_triggered (EpollPoller.mask c))
    (EpollPoller.calls (EventLoop.poller_ l)) /\
  exists k, EpollPoller.Interest.replay (EpollPoller.calls (EventLoop.poller_ l)) ∅ = Some k /\
    (forall fd, fd ∉ rest -> k !! fd = None /\ EpollPoller.channels_ (EventLoop.poller_ l) !! fd = None) /\
    (forall fd, fd ∈ rest -> k !! fd = other_masks rest !! fd /\
       EpollPoller.channels_ (EventLoop.poller_ l) !! fd = other_channels rest !! fd).

Lemma dying_nothing_left s :
  dying [] s -> exists k, EpollPoller.Interest.replay (EpollPoller.calls (poller s)) ∅ = Some k /\
    forall fd, fd ∉ rest -> k !! fd = None /\ EpollPoller.channels_ (poller s) !! fd = None.
Proof.
  intros [[k Hk] _ Hacc _ Hdone]. exists k. split; [apply Hk|]. intros fd Hr.
  destruct (decide (fd = Channel.fd_ (accept_channel_ s))) as [->|Hne].
  { eapply new_unregistered; [apply Hk|done]. }
  destruct (decide (map_Exists (fun _ o => fd_of o = fd) (objects s))) as [(id & o & Ho & <-)|Hno].
  - eapply new_unregistered; [by apply (p_conns _ _ Hk)|]. by destruct (Hdone id o Ho) as [[]%elem_of_nil|].
  - apply (p_rest _ _ Hk); [done..|]. intros id o Ho Heq. apply Hno. by exists id, o.
Qed.

Lemma dying_clear s : dying [] s -> loop_clear (loop_ s).
Proof.
  intros Hd. pose proof (dying_nothing_left s Hd) as (k & Hk & Hnone). destruct Hd as [[k' Hk'] _ _ _ _].
  assert (k' = k) as -> by (pose proof (p_replay _ _ Hk'); congruence).
  split; [apply Hk'|]. exists k. split_and!; [done..|apply Hk'].
Qed.

Lemma destroy_acceptor_wp s :
  core [] s ->
  wp destroy_acceptor s (fun s' _ => core [] s' /\
    (exists c p, s' = lset accept_reg (c, p) s /\ Channel.fd_ c = Channel.fd_ (accept_channel_ s)) /\
    TcpConnection.unhooked (accept_channel_ s')).
Proof.
  intros Hcore. unfold destroy_acceptor. apply wp_bind.
  eapply wp_mono; [by apply (accept_change_wp [] _ (fun _ => 0))|].
  cbv beta. intros s1 _ (Hcore1 & c1 & p1 & -> & Hf & _).
  eapply wp_mono; [by apply accept_remove_wp|].
  cbv beta. intros s2 _ (Hcore2 & (c2 & p2 & -> & Hf2) & Hidx).
  split_and!; [done|exists c2, p2; split; [done|exact (eq_trans Hf2 Hf)]|done].
Qed.

Lemma destroy_connections_wpe order s :
  core [] s -> TcpConnection.unhooked (accept_channel_ s) ->
  order ≡ₚ elements (connections_ s) ->
  wpe (destroy_connections conn_cb_ order) s (fun s' _ => dying [] s' /\
    descriptors s' = descriptors s) TcpConnection.oom.
Proof.
  intros Hcore Hidx Horder.
  assert (forall id, id ∈ order <-> id ∈ connections_ s) as Hin
    by (intros id; rewrite Horder; by apply elem_of_elements).
  apply destroy_conns_wpe; [|rewrite Horder; apply NoDup_elements].
  split; [apply (c_poller _ _ Hcore)|apply (c_app_ok _ _ Hcore)|done| |].
  - apply Forall_forall. intros id Hid%Hin. destruct (c_table _ _ Hcore id Hid) as [o Ho].
    exists o. split; [done|by apply (c_objects _ _ Hcore id)].
  - intros id o Ho. rewrite Hin. destruct (decide (id ∈ connections_ s)); [by left|right].
    by apply (c_off _ _ Hcore id o).
Qed.

Lemma dying_set_connections m todo s : dying todo s -> dying todo (set_connections m s).
Proof. intros [[k []] Hok Ha Ht Hdone]. split; try done. by exists k. Qed.

Lemma destroy_wpe order s :
  core [] s -> order ≡ₚ elements (connections_ s) ->
  wpe (destroy conn_cb_ order) s (fun s' _ => dying [] s' /\ connections_ s' = ∅) TcpConnection.oom.
Proof.
  intros Hcore Horder. unfold destroy. apply wpe_bind, wp_wpe.
  eapply wp_mono; [by apply destroy_acceptor_wp|].
  cbv beta. intros s2 _ (Hcore2 & (c2 & p2 & -> & _) & Hidx). set (s2 := lset accept_reg (c2, p2) s) in *.
  apply wpe_bind.
  eapply wpe_mono; [apply destroy_connections_wpe; [exact Hcore2|exact Hidx|exact Horder]| |done].
  intros s3 [] [Hd _]. wpe_pures. by split; [apply dying_set_connections|].
Qed.

(** ** Runs *)

(** A channel the poller knows, as [epoll_wait] reports them. *)
Definition known s (x : Z) : Prop :=
  0 <= x /\ exists fd, (fd ∉ rest) /\ EpollPoller.channels_ (poller s) !! fd = Some (channel_of x).

(** Each channel that the poller knows is the acceptor's, or that of a
    connection that exists. *)
Lemma poller_entry s fd p : core [] s -> fd ∉ rest -> EpollPoller.channels_ (poller s) !! fd = Some p ->
  fd = Channel.fd_ (accept_channel_ s) /\ p = accept_ch \/
  exists id o, objects s !! id = Some o /\ fd_of o = fd /\ p = channel_of id /\
    Channel.index_ (chan o) <> EpollPoller.kNew.
Proof.
  intros Hcore Hr Hfd. destruct (c_poller _ _ Hcore) as [k []].
  destruct (decide (fd = Channel.fd_ (accept_channel_ s))) as [->|Hne].
  { left. rewrite (EpollPoller.cons_map _ _ _ _ p_accept0) in Hfd. unfold EpollPoller.known in Hfd.
    case_match; [done|]. by injection Hfd. }
  right. destruct (decide (map_Exists (fun _ o => fd_of o = fd) (objects s))) as [Hex|Hex].
  - destruct Hex as (id & o & Ho & <-). exists id, o. unfold fd_of in Hfd.
    rewrite (EpollPoller.cons_map _ _ _ _ (p_conns0 id o Ho)) in Hfd. unfold EpollPoller.known in Hfd.
    destruct (Z.eqb_spec (Channel.index_ (chan o)) EpollPoller.kNew); [done|]. by injection Hfd.
  - destruct (p_rest0 fd) as [_ Hnone]; [done..| |congruence]. intros id o Ho Heq. apply Hex. by exists id, o.
Qed.

Lemma known_in_table s x : core [] s -> known s x -> x = 0 \/ x ∈ connections_ s.
Proof.
  intros Hcore (Hx & fd & Hr & Hfd).
  destruct (poller_entry s fd _ Hcore Hr Hfd) as [[_ Heq]|(id & o & Ho & _ & Heq & Hidx)];
    unfold channel_of in Heq; [left; unfold accept_ch in Heq; lia|right].
  pose proof (c_ids _ _ Hcore id o Ho). replace x with id by lia.
  destruct (decide (id ∈ connections_ s)) as [|Hid]; [done|].
  by destruct (c_off _ _ Hcore id o Ho Hid) as (_ & Hidx' & _).
Qed.

(** The loop takes events one turn after the other; a turn's events concern
    distinct channels that the poller knows; the kernel gives new descriptors
    to accepted connections; and other threads call [force_close()] only. *)
Definition action_ok (c : config) (a : action) : Prop :=
  match a with
  | Start => True
  | Poll active => c.2 = [] /\ NoDup active /\ Forall (known c.1) active
  | Dispatch _ accepted => c.2 <> [] /\ accepted_ok c.1 accepted
  | RunPending => c.2 = []
  | OtherForceClose id => is_Some (objects c.1 !! id)
  | OtherSend _ _ | OtherShutdown _ => False
  end.

Abbreviation perform' := (perform conn_cb_ msg_cb_ wc_cb_ app_functor app_holds).

Inductive reachable (s0 : S) : config -> Prop :=
| reach_init : reachable s0 (s0, [])
| reach_step c a c' : reachable s0 c -> action_ok c a -> perform' a c = Ret c' () -> reachable s0 c'
| reach_app s active s' : reachable s0 (s, active) -> app_step s s' ->
    reachable s0 (released app_holds [] s', active).

Definition config_inv (c : config) : Prop :=
  inv c.1 /\ NoDup c.2 /\ Forall (fun x => x = 0 \/ x ∈ connections_ c.1) c.2.

Lemma config_inv_intro ids s s' active :
  inv s' -> NoDup active -> Forall (fun x => x = 0 \/ x ∈ connections_ s) active ->
  connections_ s ∖ ids ⊆ connections_ s' -> (forall x, x ∈ active -> x ∉ ids) ->
  config_inv (s', active).
Proof.
  intros Hinv Hnd Hall Hsub Hids. split_and!; [done..|]. simpl.
  rewrite !Forall_forall in *. intros x Hx. destruct (Hall x Hx); [by left|right].
  apply Hsub. specialize (Hids x Hx). set_solver.
Qed.

Lemma config_inv_keep s s' active :
  inv s' -> NoDup active -> Forall (fun x => x = 0 \/ x ∈ connections_ s) active ->
  connections_ s ⊆ connections_ s' -> config_inv (s', active).
Proof. intros ??? Hsub. apply (config_inv_intro ∅ s); [done..|set_solver|set_solver]. Qed.

Lemma perform_wpe a c :
  config_inv c -> action_ok c a ->
  wpe (perform' a) c (fun c' _ => config_inv c' /\
    forall x active revents accepted, c.2 = x :: active -> x <> 0 -> a = Dispatch revents accepted ->
      TcpConnection.hangs_up revents = true -> x ∉ connections_ c'.1) TcpConnection.oom.
Proof.
  destruct c as [s active]. intros ([Hcore Hheld] & Hnd & Hall) Hok. simpl in *.
  destruct a as [|active'|revents accepted| |id|id data|id]; simpl in *.
  - apply wpe_zoom. eapply wpe_mono; [by apply start_wpe| |done]. intros s' [] [Hinv' Ho].
    split; [|done]. apply (config_inv_keep s); [done..|by rewrite Ho].
  - destruct Hok as (-> & Hnd' & Hk). wpe_pures. split; [|done]. split_and!; [done..|]. simpl.
    eapply Forall_impl; [exact Hk|]. intros x. by apply known_in_table.
  - destruct Hok as [Hne Hacc]. unfold dispatch. wpe_pures. simpl.
    destruct active as [|x active]; [done|]. wpe_pures. simpl.
    apply NoDup_cons in Hnd as [Hx Hnd]. apply Forall_cons in Hall as [Hox Hall].
    destruct (Z.eqb_spec x 0) as [->|Hx0].
    + eapply wpe_mono; [by apply accept_event_wpe| |done]. intros s' [] [Hinv' Hk].
      split; [|by intros x' ??? [= <- _]]. by apply (config_inv_keep s).
    + destruct Hox as [|Hox]; [done|].
      eapply wpe_mono; [by apply conn_event_wpe; [|apply (c_table _ _ Hcore)]| |done].
      intros s' [] (Hinv' & Hk & Hh). split.
      * apply (config_inv_intro {[x]} s); [done..|]. set_solver.
      * by intros x' ? ? ? [= <- <-] _ [= <- <-] ?; apply Hh.
  - subst active. apply wpe_zoom. eapply wpe_mono; [by apply run_pending_wpe| |done].
    intros s' [] Hinv'. split; [|done]. by split_and!.
  - apply wpe_zoom. eapply wpe_mono; [by apply other_force_close_wpe| |done].
    intros s' [] [Hinv' Hk]. split; [|done]. by apply (config_inv_keep s).
  - done.
  - done.
Qed.

Lemma reachable_config_inv s0 c : inv s0 -> reachable s0 c -> config_inv c.
Proof.
  intros Hs0. induction 1 as [|c a c' _ IH Hok Hrun|s active s' _ IH Hstep].
  - split_and!; [done|apply NoDup_nil_2|apply Forall_nil_2].
  - pose proof (perform_wpe a c IH Hok) as Hw. unfold wpe in Hw. rewrite Hrun in Hw. by destruct Hw.
  - destruct IH as ([Hcore _] & Hnd & Hall). apply (config_inv_keep s); [|done..|].
    + by apply release_core, (app_step_core s).
    + simpl. by rewrite (as_table _ _ Hstep).
Qed.

(** The loop when the server is made. *)
Definition loop_ready (l : EventLoop.t (functor G)) : Prop :=
  EventLoop.pending_functors_ l = [] /\ loop_clear l.

(** The owner when the server is made: it holds no connection. *)
Definition app_ready (a : A) : Prop := app_ok a /\ forall id, app_holds a id = false.

Lemma make_inv fd l a : loop_ready l -> app_ready a -> fd ∉ rest -> inv (make fd l a).
Proof.
  intros (Hp & Hmasks & k & Hk & Hnone & Hloop) [Hok Hh] Hfd. split; [|by intros id o].
  split; simpl; try done;
    [exists k|by unfold pending; simpl; rewrite Hp|by intros id; rewrite Hh].
  split; simpl; try done.
  - destruct (Hnone fd Hfd). split; try done. by left.
  - intros fd' _ Hr _. by apply Hnone.
Qed.

Section server.
Variables (listen_fd : Z) (l : EventLoop.t (functor G)) (a0 : A).
Hypothesis Hl : loop_ready l.
Hypothesis Ha0 : app_ready a0.
Hypothesis Hfd : listen_fd ∉ rest.


(** C13. A closed connection is let go: when the loop dispatches a hang-up on a
    connection, it leaves the table, its channel leaves the poller, and it is
    destroyed at once, unless a queued functor or the server's owner still
    holds it. *)
Theorem closing_releases c (Hr : reachable (make listen_fd l a0) c) id active revents accepted
    (Hc : c.2 = id :: active) (Hid : id <> 0) (Hacc : accepted_ok c.1 accepted)
    (Hup : TcpConnection.hangs_up revents = true) :
  wpe (perform' (Dispatch revents accepted)) c (fun c' _ =>
    (id ∉ connections_ c'.1) /\
    (objects c'.1 !! id = None \/ holder app_holds [] c'.1 id = true) /\
    (forall fd, fd ∉ rest -> EpollPoller.channels_ (poller c'.1) !! fd <> Some (channel_of id)))
    TcpConnection.oom.
Proof.
  pose proof (reachable_config_inv _ _ (make_inv _ _ a0 Hl Ha0 Hfd) Hr) as Hinv.
  eapply wpe_mono; [apply (perform_wpe (Dispatch revents accepted) c Hinv)| |done].
  { split; [by rewrite Hc|done]. }
  intros c' [] [(Hinv' & _) Hgone]. pose proof (Hgone id active _ _ Hc Hid eq_refl Hup) as Hout.
  destruct Hinv' as [Hcore' Hheld']. split_and!; [done| |].
  - destruct (objects c'.1 !! id) as [o|] eqn:Ho; [right|by left].
    by destruct (Hheld' id o Ho).
  - intros fd Hrest Hp.
    assert (0 < id) as Hpos.
    { destruct Hinv as ([Hcore _] & _ & Hall). rewrite Hc in Hall.
      apply Forall_cons in Hall as [[|Hin] _]; [done|].
      destruct (c_table _ _ Hcore id Hin) as [o Ho]. apply (c_ids _ _ Hcore id o Ho). }
    destruct (poller_entry c'.1 fd _ Hcore' Hrest Hp) as [[_ Heq]|(id' & o & Ho & _ & Heq & Hidx)].
    { unfold channel_of, accept_ch in Heq. lia. }
    pose proof (c_ids _ _ Hcore' id' o Ho). unfold channel_of in Heq.
    assert (id' = id) as -> by lia. by destruct (c_off _ _ Hcore' id o Ho Hout) as (_ & Hidx' & _).
Qed.

(** The destructor leaves nothing registered.  In every state the server can
    reach, and in whatever order its table is walked, [~TcpServer()] uses no
    destroyed connection and fails no assertion, its requests to epoll are
    legal, and afterwards neither the kernel's interest set nor the poller knows
    the acceptor or any connection: what is left are the loop's own channels. *)
Theorem destructor_unregisters c (Hr : reachable (make listen_fd l a0) c) order
    (Ho : order ≡ₚ elements (connections_ c.1)) :
  wpe (destroy conn_cb_ order) c.1 (fun s' _ => connections_ s' = ∅ /\
    exists k, EpollPoller.Interest.replay (EpollPoller.calls (poller s')) ∅ = Some k /\
      forall fd, fd ∉ rest -> k !! fd = None /\ EpollPoller.channels_ (poller s') !! fd = None)
    TcpConnection.oom.
Proof.
  pose proof (reachable_config_inv _ _ (make_inv _ _ a0 Hl Ha0 Hfd) Hr) as ([Hcore _] & _).
  eapply wpe_mono; [by apply destroy_wpe| |done].
  intros s' [] [Hd Ht]. split; [done|by apply dying_nothing_left].
Qed.

End server.

End proofs.

(** ** A server on the pipe of TcpConnection.v, which counts its callbacks *)

Module Demo.
Import TcpConnection.Pipe.

Abbreviation server := (t pipe nat unit).
Abbreviation cworld := (TcpConnection.world pipe server).
Definition count (_ : Z) : M cworld unit :=
  zoom owner_lens (modify (fun s => set_app (1 + app s)%nat s)).
Definition rest : others := mk_others {[4]} {[4 := Channel.kReadEvent]} {[4 := 100%nat]}.

Lemma not_rest fd : fd <> 4 -> fd ∉ rest.
Proof. intros Hne Hin. by apply Hne, (elem_of_singleton (C := gset Z)). Qed.

(** Its owner queues no functors and holds no connections. *)
Definition no_functor (_ : Z) (_ : unit) : M cworld unit := mret ().
Definition holds_none (_ : nat) (_ : Z) : bool := false.
Definition any_app (_ : nat) : Prop := True.

(** The wake-up channel is registered on descriptor 4. *)
Definition loop0 {G} : EventLoop.t (functor G) :=
  match EventLoop.make 4 100%nat (Channel.make 0) with
  | Ret _ l => l
  | _ => EventLoop.mk false EpollPoller.make [] false 0
  end.
Definition server0 : server := make 3 loop0 0%nat.

Abbreviation run := (for_each (perform (Some count) None None no_functor holds_none)).
Definition result (acts : list action) : config :=
  match run acts (server0, []) with Ret c _ => c | _ => (server0, []) end.

Lemma loop0_ready {G} : loop_ready rest (loop0 (G := G)).
Proof.
  split; [done|]. split; [by repeat constructor|]. exists {[4 := 3]}. split; [by vm_compute|].
  assert (EpollPoller.channels_ (EventLoop.poller_ (loop0 (G := G))) = {[4 := 100%nat]}) as ->
    by by vm_compute.
  split; [|done]. intros fd Hfd. rewrite !lookup_singleton_ne; [done|..]; intros <-; apply Hfd; by vm_compute.
Qed.

Lemma count_good id s fd k0 m0 :
  TcpConnection.good (channel_of id) fd k0 m0 (owner holds_none any_app id s) (gone id)
    (call_if (cb_of (K := pipe) (Some count) id)).
Proof.
  intros w Hw. simpl. unfold count. wpe_pures. destruct Hw. split; [by split|].
  split; [by split|by left|done].
Qed.

Lemma no_cb_good id s fd k0 m0 :
  TcpConnection.good (channel_of id) fd k0 m0 (owner holds_none any_app id s) (gone id)
    (call_if (cb_of (K := pipe) (A := nat) (G := unit) None id)).
Proof. apply TcpConnection.good_ret. Qed.

Lemma no_functor_good id g s fd k0 m0 :
  TcpConnection.good (channel_of id) fd k0 m0 (owner holds_none any_app id s) (gone id) (no_functor id g).
Proof. apply TcpConnection.good_ret. Qed.

Lemma app0_ready : app_ready holds_none any_app 0%nat.
Proof. done. Qed.

(** A connection on descriptor 9 is accepted and its channel becomes active. *)
Definition sock0 : pipe := mk_pipe 2 [] false.
Definition accepting : list action := [Start; Poll [0]; Dispatch Epoll.EPOLLIN (Some (9, sock0))].
Definition serving : list action := accepting ++ [Poll [1]].

Lemma serving_reachable : reachable (Some count) None None no_functor holds_none any_app rest server0 (result serving).
Proof.
  assert (reachable (Some count) None None no_functor holds_none any_app rest server0 (result [Start])) as H1.
  { eapply (reach_step _ _ _ _ _ _ _ _ _ Start); [apply reach_init|done|by vm_compute]. }
  assert (reachable (Some count) None None no_functor holds_none any_app rest server0 (result [Start; Poll [0]])) as H2.
  { eapply (reach_step _ _ _ _ _ _ _ _ _ (Poll [0])); [exact H1| |by vm_compute].
    split_and!; [by vm_compute|apply NoDup_singleton|]. repeat constructor; [done|].
    exists 3. split; [by apply not_rest|by vm_compute]. }
  assert (reachable (Some count) None None no_functor holds_none any_app rest server0 (result accepting)) as H3.
  { eapply (reach_step _ _ _ _ _ _ _ _ _ (Dispatch Epoll.EPOLLIN (Some (9, sock0)))); [exact H2| |by vm_compute].
    split; [by vm_compute|]. split; [|by vm_compute]. split_and!; [by vm_compute|by apply not_rest|].
    assert (objects (result [Start; Poll [0]]).1 = ∅) as -> by by vm_compute. by intros id o. }
  eapply (reach_step _ _ _ _ _ _ _ _ _ (Poll [1])); [exact H3| |by vm_compute].
  split_and!; [by vm_compute|apply NoDup_singleton|]. repeat constructor; [done|].
  exists 9. split; [by apply not_rest|by vm_compute].
Qed.


Lemma closing_releases_witness :
  wpe (perform (Some count) None None no_functor holds_none (Dispatch Epoll.EPOLLHUP None)) (result serving) (fun c' _ =>
    (1 ∉ connections_ c'.1) /\
    (objects c'.1 !! 1 = None \/ holder holds_none [] c'.1 1 = true) /\
    (forall fd, fd ∉ rest -> EpollPoller.channels_ (poller c'.1) !! fd <> Some (channel_of 1)))
    TcpConnection.oom.
Proof.
  apply (closing_releases (Some count) None None no_functor holds_none any_app rest count_good no_cb_good no_cb_good
    no_functor_good 3 loop0 0%nat loop0_ready app0_ready (not_rest 3 ltac:(done)) (result serving) serving_reachable 1 []).
  - vm_compute. reflexivity.
  - discriminate.
  - exact I.
  - vm_compute. reflexivity.
Defined.

Lemma destructor_unregisters_witness :
  wpe (destroy (Some count) [1]) (result serving).1 (fun s' _ => connections_ s' = ∅ /\
    exists k, EpollPoller.Interest.replay (EpollPoller.calls (poller s')) ∅ = Some k /\
      forall fd, fd ∉ rest -> k !! fd = None /\ EpollPoller.channels_ (poller s') !! fd = None)
    TcpConnection.oom.
Proof.
  apply (destructor_unregisters (Some count) None None no_functor holds_none any_app rest count_good no_cb_good no_cb_good
    no_functor_good 3 loop0 0%nat loop0_ready app0_ready (not_rest 3 ltac:(done)) (result serving) serving_reachable).
  vm_compute. reflexivity.
Defined.

(** Nothing of the connection is left after the hang-up. *)
Example hang_up_leaves_nothing :
  let s := (result (serving ++ [Dispatch Epoll.EPOLLHUP None])).1 in
  objects s = ∅ /\ connections_ s = ∅ /\ app s = 2%nat /\
  EpollPoller.Interest.replay (EpollPoller.calls (poller s)) ∅ =
    Some (<[3 := Channel.kReadEvent]> {[4 := Channel.kReadEvent]}).
Proof. by vm_compute. Qed.


(** A queued [shutdown()] does the same. *)
Example queued_shutdown_outlives_connection :
  run (serving ++ [OtherShutdown 1; Dispatch Epoll.EPOLLHUP None; RunPending]) (server0, []) =
    Ub "use of a destroyed TcpConnection".
Proof. by vm_compute. Qed.

(** A queued [force_close()] holds the connection. *)
Example queued_close_holds_connection :
  match run (serving ++ [OtherForceClose 1; Dispatch Epoll.EPOLLHUP None; RunPending]) (server0, []) with
  | Ret c _ => objects c.1 = ∅
  | _ => False
  end.
Proof. by vm_compute. Qed.

(** A reset connection is reported as [EPOLLIN | EPOLLERR | EPOLLHUP]; the
    error callback closes it, and so does the read that follows: the callback
    for connections runs twice for one close. *)
Example reset_calls_back_twice :
  let reset := Z.lor Epoll.EPOLLIN (Z.lor Epoll.EPOLLERR Epoll.EPOLLHUP) in
  app (result serving).1 = 1%nat /\
  app (result (serving ++ [Dispatch reset None])).1 = 3%nat.
Proof. by vm_compute. Qed.

End Demo.

End TcpServer.
