(* ===== verification/Rpc.v ===== *)
(** * RPC messages and controller (proto/rpc.proto, include/rpc/rpc_controller.h)

    The two envelope messages as records.  Their encoding is generated code,
    so it is the class [Message], with the round trip of protocol buffers as
    its law. *)

From Stdlib Require Import ZArith Strings.Byte.
From S2P Require Import Prelude.
Local Open Scope Z_scope.

Module Proto.

Record RpcRequest := mk_request {
  service_name : string;
  method_name : string;
  request_id : Z;
  args_data : bytes;
}.

Record RpcResponse := mk_response {
  response_id : Z;          (* request_id *)
  success : bool;
  result_data : bytes;
  error_msg : string;
}.

#[export] Instance byte_eq_dec : EqDecision Init.Byte.byte := Byte.byte_eq_dec.
#[export] Instance request_eq_dec : EqDecision RpcRequest.
Proof. solve_decision. Defined.
#[export] Instance response_eq_dec : EqDecision RpcResponse.
Proof. solve_decision. Defined.

(** [SerializeToString] returns a flag and the bytes; [ParseFromString]
    succeeds with a message or fails. *)
Class Message (A : Type) := {
  SerializeToString : A -> bool * bytes;
  ParseFromString : bytes -> option A;
}.

(** Parsing undoes a serialization that succeeded. *)
Class MessageOk (A : Type) `{Message A} : Prop :=
  parse_serialize (m : A) bs : SerializeToString m = (true, bs) -> ParseFromString bs = Some m.

Lemma serialized_parses `{MessageOk A} (m : A) :
  (SerializeToString m).1 = true -> ParseFromString (SerializeToString m).2 = Some m.
Proof.
  destruct (SerializeToString m) as [ok bs] eqn:Hm. simpl. intros ->. by apply parse_serialize.
Qed.

End Proto.

Module RpcController.

Record t := mk { failed_ : bool; err_text_ : string }.

Definition make : t := mk false "".
Definition Reset (c : t) : t := mk false "".
Definition Failed (c : t) : bool := failed_ c.
Definition ErrorText (c : t) : string := err_text_ c.
Definition SetFailed (reason : string) (c : t) : t := mk true reason.

End RpcController.
