(* ===== verification/RpcServer.v ===== *)
(** * The RPC server (include/rpc/rpc_server.h, src/rpc/rpc_server.cpp)

    Dispatch of request frames: [on_frame] on the loop's thread, the worker's
    [dispatch_request], and the functor that sends the response from the loop.
    A registered service is user code behind the protobuf interface, so
    [Service] is a record of its operations.  The member functions run in any
    state [W] that holds the server, with [Codec::send] to a connection and the
    loop's [run_in_loop] as arguments.  The runs are those of the server with a
    network of its own; [answered] is what [Codec::send] has been given. *)

From Stdlib Require Import ZArith.
From S2P Require Import Prelude Rpc.
Import Proto.
Local Open Scope Z_scope.

Module RpcServer.

(** [google::protobuf::Service] over the services' own state [U]; a method
    descriptor is a number.  [CallMethod] answers with the controller and the
    response as they are when [done] has run, or [None] if it never runs. *)
Record Service (U Msg : Type) := mk_service {
  full_name : string;
  FindMethodByName : string -> option nat;
  ParseArgs : nat -> bytes -> option Msg;    (* GetRequestPrototype(m).New()->ParseFromString *)
  CallMethod : nat -> Msg -> M U (option (RpcController.t * Msg));
}.
Arguments mk_service {U Msg} full_name FindMethodByName ParseArgs CallMethod.
Arguments full_name {U Msg} s.
Arguments FindMethodByName {U Msg} s name.
Arguments ParseArgs {U Msg} s m args.
Arguments CallMethod {U Msg} s m request.

Section server.
Context {Conn U Msg N : Type} `{Message RpcRequest} `{Message Msg}.

(** A closure given to [worker_pool_.submit]. *)
Record task := mk_task {
  task_conn : Conn;
  task_id : Z;
  task_service : Service U Msg;
  task_method : nat;
  task_request : Msg;
}.

(** The server, the state of its services and of the network; the tasks that
    wait for a worker and the functors that wait for the loop. *)
Record t := mk {
  services_ : gmap string (Service U Msg);
  stopped : bool;                                  (* worker_pool_.stop_ *)
  tasks : list task;
  functors : list (Conn * RpcResponse);
  user : U;
  net : N;
}.

Definition set_services m (s : t) : t :=
  mk m (stopped s) (tasks s) (functors s) (user s) (net s).
Definition set_tasks l (s : t) : t :=
  mk (services_ s) (stopped s) l (functors s) (user s) (net s).
Definition set_functors l (s : t) : t :=
  mk (services_ s) (stopped s) (tasks s) l (user s) (net s).
Definition user_lens : Lens t U := mkLens user (fun u s =>
  mk (services_ s) (stopped s) (tasks s) (functors s) u (net s)).
Definition net_lens : Lens t N := mkLens net (fun n s =>
  mk (services_ s) (stopped s) (tasks s) (functors s) (user s) n).

(** *** The member functions *)

Section code.
Context {W : Type} (self : Lens W t).
(** [codec::Codec::send(conn, resp)], and
    [conn->loop()->run_in_loop(\[conn, resp\]{ codec::Codec::send(conn, resp); })] *)
Variable codec_send : Conn -> RpcResponse -> M W unit.
Variable run_in_loop : Conn -> RpcResponse -> M W unit.

Definition register_service (service : Service U Msg) : M W unit :=
  zoom self (modify (fun s => set_services (<[full_name service := service]> (services_ s)) s)).

Definition error_response (request_id : Z) (msg : string) : RpcResponse :=
  mk_response request_id false [] msg.

Definition submit (task : task) : M W unit :=
  stop ← gets (fun w => stopped (lget self w));
  if (stop : bool) then throw (runtime_error "ThreadPool: submit on stopped pool")
  else zoom self (modify (fun s => set_tasks (tasks s ++ [task]) s)).

Definition on_frame (conn : Conn) (frame : bytes) : M W unit :=
  match ParseFromString frame with
  | None => mret ()
  | Some req =>
      services ← gets (fun w => services_ (lget self w));
      match services !! service_name req with
      | None =>
          codec_send conn (error_response (request_id req)
            ("service not found: " +:+ service_name req))
      | Some service =>
          match FindMethodByName service (method_name req) with
          | None =>
              codec_send conn (error_response (request_id req)
                ("method not found: " +:+ method_name req))
          | Some method =>
              match ParseArgs service method (args_data req) with
              | None =>
                  codec_send conn (error_response (request_id req)
                    "failed to parse request args")
              | Some request_msg =>
                  submit (mk_task conn (request_id req) service method request_msg)
              end
          end
      end
  end.

(** The response for a finished call. *)
Definition make_response (request_id : Z) (controller : RpcController.t) (response : Msg)
    : RpcResponse :=
  if RpcController.Failed controller
  then mk_response request_id false [] (RpcController.ErrorText controller)
  else mk_response request_id true (SerializeToString response).2 "".

(** Runs on a worker. *)
Definition dispatch_request (tk : task) : M W unit :=
  r ← zoom self (zoom user_lens (CallMethod (task_service tk) (task_method tk) (task_request tk)));
  match r with
  | None => ub "the worker waits for done forever"
  | Some (controller, response) =>
      run_in_loop (task_conn tk) (make_response (task_id tk) controller response)
  end.

End code.

(** ** The server and its network *)

Variable codec_send : Conn -> RpcResponse -> M N unit.

Definition send (conn : Conn) (resp : RpcResponse) : M t unit := zoom net_lens (codec_send conn resp).
Definition queue_functor (conn : Conn) (resp : RpcResponse) : M t unit :=
  modify (fun s => set_functors (functors s ++ [(conn, resp)]) s).

Definition frame_arrives (conn : Conn) (frame : bytes) : M t unit :=
  on_frame lens_id send conn frame.
Definition worker_runs (tk : task) : M t unit := dispatch_request lens_id queue_functor tk.

(** The functor [\[conn, resp\]{ codec::Codec::send(conn, resp); }]. *)
Definition run_functor (f : Conn * RpcResponse) : M t unit := send f.1 f.2.

(** ** Runs: frames arrive, workers finish tasks in any order, the loop sends *)

Inductive step : t -> list (Conn * bytes) -> t -> Prop :=
| step_frame conn frame s s' :
    frame_arrives conn frame s = Ret s' () -> step s [(conn, frame)] s'
| step_work l1 tk l2 s s' :
    tasks s = l1 ++ tk :: l2 ->
    worker_runs tk (set_tasks (l1 ++ l2) s) = Ret s' () -> step s [] s'
| step_reply f fs s s' :
    functors s = f :: fs ->
    run_functor f (set_functors fs s) = Ret s' () -> step s [] s'.

Inductive steps : t -> list (Conn * bytes) -> t -> Prop :=
| steps_refl s : steps s [] s
| steps_trans s fs1 s1 fs2 s2 : step s fs1 s1 -> steps s1 fs2 s2 -> steps s (fs1 ++ fs2) s2.

(** ** What a request deserves *)

(** The requests among some frames. *)
Definition requests (frames : list (Conn * bytes)) : list (Conn * RpcRequest) :=
  omap (fun cf => pair cf.1 <$> ParseFromString cf.2) frames.

(** [answers services req resp]: [resp] is a right answer to [req]. *)
Inductive answers (services : gmap string (Service U Msg)) (req : RpcRequest) : RpcResponse -> Prop :=
| answers_no_service :
    services !! service_name req = None ->
    answers services req (error_response (request_id req)
      ("service not found: " +:+ service_name req))
| answers_no_method service :
    services !! service_name req = Some service ->
    FindMethodByName service (method_name req) = None ->
    answers services req (error_response (request_id req)
      ("method not found: " +:+ method_name req))
| answers_bad_args service method :
    services !! service_name req = Some service ->
    FindMethodByName service (method_name req) = Some method ->
    ParseArgs service method (args_data req) = None ->
    answers services req (error_response (request_id req) "failed to parse request args")
| answers_call service method args u u' controller response :
    services !! service_name req = Some service ->
    FindMethodByName service (method_name req) = Some method ->
    ParseArgs service method (args_data req) = Some args ->
    CallMethod service method args u = Ret u' (Some (controller, response)) ->
    answers services req (make_response (request_id req) controller response).

(** [waits services req tk]: [tk] is the task of a request to be dispatched. *)
Definition waits (services : gmap string (Service U Msg)) (cr : Conn * RpcRequest) (tk : task) : Prop :=
  task_conn tk = cr.1 /\ task_id tk = request_id cr.2 /\
  services !! service_name cr.2 = Some (task_service tk) /\
  FindMethodByName (task_service tk) (method_name cr.2) = Some (task_method tk) /\
  ParseArgs (task_service tk) (task_method tk) (args_data cr.2) = Some (task_request tk).

Definition answers_on services (cr : Conn * RpcRequest) (a : Conn * RpcResponse) : Prop :=
  a.1 = cr.1 /\ answers services cr.2 a.2.

(** The responses handed to [Codec::send] so far, in order. *)
Variable answered : N -> list (Conn * RpcResponse).
Hypothesis codec_send_spec : forall conn resp n,
  wp (codec_send conn resp) n (fun n' _ => answered n' = answered n ++ [(conn, resp)]).

(** The requests so far are split into those that wait for a worker, those
    whose response waits for the loop, and those that were answered. *)
Record accounted (services : gmap string (Service U Msg)) (reqs : list (Conn * RpcRequest)) (s : t)
    : Prop := {
  acc_services : services_ s = services;
  acc_split : exists waiting finished, reqs ≡ₚ waiting ++ finished /\
    Forall2 (waits services) waiting (tasks s) /\
    Forall2 (answers_on services) finished (answered (net s) ++ functors s);
}.

Lemma acc_answer services reqs s n conn req resp :
  accounted services reqs s -> answers services req resp ->
  answered n = answered (net s) ++ [(conn, resp)] ->
  accounted services (reqs ++ [(conn, req)]) (lset net_lens n s).
Proof.
  intros [Hs (waiting & finished & Hp & Hw & Hf)] Ha Hn. split; [done|].
  apply Forall2_app_inv_r in Hf as (f1 & f2 & Hf1 & Hf2 & ->).
  exists waiting, (f1 ++ (conn, req) :: f2). split_and!; [|done|].
  - rewrite (Permutation_app_comm reqs), Hp. simpl.
    by rewrite <- (Permutation_middle f1), <- (Permutation_middle waiting).
  - simpl. rewrite Hn, <- app_assoc. apply Forall2_app; [done|]. simpl. by constructor.
Qed.

Lemma on_frame_accounted services reqs s s' conn frame :
  accounted services reqs s -> frame_arrives conn frame s = Ret s' () ->
  accounted services (reqs ++ requests [(conn, frame)]) s'.
Proof.
  intros Hacc. unfold frame_arrives, on_frame, requests. simpl.
  destruct (ParseFromString frame) as [req|]; simpl; [|intros [= <-]; by rewrite app_nil_r].
  unfold mbind at 1, M_bind, gets. rewrite (acc_services _ _ _ Hacc).
  assert (forall resp, answers services req resp ->
    send conn resp s = Ret s' () ->
    accounted services (reqs ++ [(conn, req)]) s') as Hsend.
  { intros resp Ha Hrun. pose proof (codec_send_spec conn resp (net s)) as Hspec.
    apply wp_ret_inv in Hspec as (n & [] & Heq & Hn). unfold send, zoom in Hrun. simpl in Hrun.
    rewrite Heq in Hrun. injection Hrun as <-. by eapply acc_answer. }
  destruct (services !! service_name req) as [svc|] eqn:Hsvc;
    [|apply Hsend; by apply answers_no_service].
  destruct (FindMethodByName svc (method_name req)) as [m|] eqn:Hm;
    [|apply Hsend; by eapply answers_no_method].
  destruct (ParseArgs svc m (args_data req)) as [args|] eqn:Ha;
    [|apply Hsend; by eapply answers_bad_args].
  unfold submit, mbind, M_bind, gets, zoom. simpl. destruct (stopped s); [done|]. intros [= <-].
  destruct Hacc as [Hs (waiting & finished & Hp & Hw & Hf)]. split; [done|].
  exists (waiting ++ [(conn, req)]), finished. split_and!; [|by apply Forall2_app; [|constructor]|done].
  rewrite Hp, <- !app_assoc. apply Permutation_app_head, Permutation_app_comm.
Qed.

Lemma work_accounted services reqs s s' l1 tk l2 :
  accounted services reqs s -> tasks s = l1 ++ tk :: l2 ->
  worker_runs tk (set_tasks (l1 ++ l2) s) = Ret s' () ->
  accounted services reqs s'.
Proof.
  intros [Hs (waiting & finished & Hp & Hw & Hf)] Htasks Hrun. rewrite Htasks in Hw.
  apply Forall2_app_inv_r in Hw as (w1 & w2 & Hw1 & Hw2 & ->).
  apply Forall2_cons_inv_r in Hw2 as ([conn req] & w2' & Hw & Hw2 & ->).
  destruct Hw as (Hconn & Hid & Hsvc & Hm & Ha). simpl in *.
  unfold worker_runs, dispatch_request, mbind, M_bind, zoom in Hrun. simpl in Hrun.
  destruct (CallMethod _ _ _ (user s)) as [u' [[ctl resp]|]| | |] eqn:Hcall; try done.
  injection Hrun as <-. split; [done|]. simpl.
  exists (w1 ++ w2'), (finished ++ [(conn, req)]). split_and!.
  - rewrite Hp, !app_assoc. rewrite (Permutation_app_comm _ [_]). simpl.
    by rewrite <- (Permutation_middle w1).
  - by apply Forall2_app.
  - rewrite app_assoc. apply Forall2_app; [done|]. constructor; [|done]. split; [done|].
    rewrite Hid. by eapply answers_call.
Qed.

Lemma reply_accounted services reqs s s' f fs :
  accounted services reqs s -> functors s = f :: fs ->
  run_functor f (set_functors fs s) = Ret s' () ->
  accounted services reqs s'.
Proof.
  intros [Hs (waiting & finished & Hp & Hw & Hf)] Hfs Hrun.
  pose proof (codec_send_spec f.1 f.2 (net s)) as Hspec.
  apply wp_ret_inv in Hspec as (n & [] & Heq & Hn).
  unfold run_functor, send, zoom in Hrun. simpl in Hrun. rewrite Heq in Hrun. injection Hrun as <-.
  split; [done|]. exists waiting, finished. split_and!; [done..|]. simpl.
  rewrite Hn, <- app_assoc. rewrite Hfs in Hf. by destruct f.
Qed.

Lemma steps_accounted services reqs s frames s' :
  steps s frames s' -> accounted services reqs s ->
  accounted services (reqs ++ requests frames) s'.
Proof.
  intros Hsteps. revert reqs.
  induction Hsteps as [s|s fs1 s1 fs2 s2 Hstep _ IH]; intros reqs Hacc.
  { unfold requests. simpl. by rewrite app_nil_r. }
  unfold requests in *. rewrite omap_app, app_assoc. apply IH.
  destruct Hstep as [conn frame s s' Hrun|l1 tk l2 s s' Ht Hrun|f fs s s' Hf Hrun].
  - by eapply on_frame_accounted.
  - simpl. rewrite app_nil_r. by eapply work_accounted.
  - simpl. rewrite app_nil_r. by eapply reply_accounted.
Qed.

(** Every request gets exactly one response, the right one, on its own
    connection.  From a server without work, whatever frames arrive, in
    whatever order the workers finish and the loop sends: once no task and no
    functor is left, the requests among the frames and the responses given to
    [Codec::send] correspond one to one, each response carrying its request's
    id and the error of the branch taken or the outcome of the service call. *)
Theorem one_response_per_request s frames s' (Ht : tasks s = []) (Hf : functors s = [])
    (Hn : answered (net s) = []) (Hruns : steps s frames s')
    (Ht' : tasks s' = []) (Hf' : functors s' = []) :
  exists finished, requests frames ≡ₚ finished /\
    Forall2 (answers_on (services_ s)) finished (answered (net s')).
Proof.
  assert (accounted (services_ s) [] s) as Hacc.
  { split; [done|]. exists [], []. rewrite Ht, Hf, Hn. split_and!; [done|constructor..]. }
  eapply steps_accounted in Hacc as [_ (waiting & finished & Hp & Hw & Hfin)]; [|exact Hruns].
  rewrite Ht' in Hw. apply Forall2_nil_inv_r in Hw as ->.
  rewrite Hf', app_nil_r in Hfin. exists finished. by split.
Qed.

(** [on_frame] on every branch. *)
Lemma on_frame_wp conn frame s :
  stopped s = false ->
  wp (frame_arrives conn frame) s (fun s' _ =>
    stopped s' = stopped s /\ services_ s' = services_ s /\ functors s' = functors s /\ user s' = user s /\
    match ParseFromString frame with
    | None => s' = s
    | Some req =>
        (exists resp, answers (services_ s) req resp /\ success resp = false /\
           answered (net s') = answered (net s) ++ [(conn, resp)] /\ tasks s' = tasks s) \/
        (exists tk, waits (services_ s) (conn, req) tk /\
           tasks s' = tasks s ++ [tk] /\ net s' = net s)
    end).
Proof.
  intros Hrun. unfold frame_arrives, on_frame. destruct (ParseFromString frame) as [req|]; [|by wp_pures].
  assert (forall resp, answers (services_ s) req resp -> success resp = false ->
    wp (send conn resp) s (fun s' _ =>
      stopped s' = stopped s /\ services_ s' = services_ s /\ functors s' = functors s /\ user s' = user s /\
      ((exists resp, answers (services_ s) req resp /\ success resp = false /\
         answered (net s') = answered (net s) ++ [(conn, resp)] /\ tasks s' = tasks s) \/
       (exists tk, waits (services_ s) (conn, req) tk /\
         tasks s' = tasks s ++ [tk] /\ net s' = net s)))) as Hsend.
  { intros resp Ha Hfail. unfold send. wp_pures. eapply wp_mono; [apply codec_send_spec|]. cbv beta.
    intros n _ Hn. split_and!; [done..|]. left. by exists resp. }
  wp_pures. simpl.
  destruct (services_ s !! service_name req) as [svc|] eqn:Hsvc;
    [|apply Hsend; [by apply answers_no_service|done]].
  destruct (FindMethodByName svc (method_name req)) as [m|] eqn:Hm;
    [|apply Hsend; [by eapply answers_no_method|done]].
  destruct (ParseArgs svc m (args_data req)) as [args|] eqn:Ha;
    [|apply Hsend; [by eapply answers_bad_args|done]].
  unfold submit. wp_pures. simpl. rewrite Hrun. wp_pures. split_and!; [done..|]. right.
  eexists. split; [|by split]. by split_and!.
Qed.

(** [on_frame] on every branch: a frame that does not parse is dropped; a
    request for an unknown service, an unknown method or with arguments that
    do not parse is answered at once with its id and the reason; any other is
    handed to the worker pool, and nothing is sent. *)
Theorem on_frame_spec conn frame s (Hrun : stopped s = false) :
  wp (frame_arrives conn frame) s (fun s' _ =>
    services_ s' = services_ s /\ functors s' = functors s /\ user s' = user s /\
    match ParseFromString frame with
    | None => s' = s
    | Some req =>
        (exists resp, answers (services_ s) req resp /\ success resp = false /\
           answered (net s') = answered (net s) ++ [(conn, resp)] /\ tasks s' = tasks s) \/
        (exists tk, waits (services_ s) (conn, req) tk /\
           tasks s' = tasks s ++ [tk] /\ net s' = net s)
    end).
Proof.
  eapply wp_mono; [by apply on_frame_wp|]. cbv beta. by intros s1 _ [_ Hs1].
Qed.

End server.
(** ** A concrete server: one echo service and two known request frames *)

Module Echo.

Definition good_request : RpcRequest := mk_request "Echo" "Say" 41 [Byte.x68; Byte.x69].
Definition lost_request : RpcRequest := mk_request "Nobody" "Say" 42 [].

#[export] Instance request_message : Message RpcRequest := {
  SerializeToString r :=
    if decide (r = good_request) then (true, [Byte.x01])
    else if decide (r = lost_request) then (true, [Byte.x02])
    else (false, []);
  ParseFromString bs :=
    match bs with
    | [Byte.x01] => Some good_request
    | [Byte.x02] => Some lost_request
    | _ => None
    end;
}.

#[export] Instance request_message_ok : MessageOk RpcRequest.
Proof.
  intros r bs. simpl. destruct (decide (r = good_request)) as [->|]; [by intros [= <-]|].
  destruct (decide (r = lost_request)) as [->|]; [by intros [= <-]|done].
Qed.

#[export] Instance bytes_message : Message bytes := {
  SerializeToString bs := (true, bs);
  ParseFromString bs := Some bs;
}.

(** The service counts its calls. *)
Definition echo : Service nat bytes := {|
  full_name := "Echo";
  FindMethodByName name := if String.eqb name "Say" then Some 0%nat else None;
  ParseArgs _ args := Some args;
  CallMethod _ request := n ← gets id; modify S ;; mret (Some (RpcController.make, request));
|}.

Abbreviation server := (t (Conn := nat) (U := nat) (Msg := bytes) (N := list (nat * RpcResponse))).
Definition log (conn : nat) (resp : RpcResponse) : M (list (nat * RpcResponse)) unit :=
  modify (fun l => l ++ [(conn, resp)]).

Lemma log_spec conn resp n :
  wp (log conn resp) n (fun n' _ => id n' = id n ++ [(conn, resp)]).
Proof. done. Qed.

Definition start : server := mk {["Echo" := echo]} false [] [] 0%nat [].
Definition frames : list (nat * bytes) :=
  [(7%nat, [Byte.x01]); (8%nat, [Byte.x02]); (7%nat, [Byte.xff])].
Definition served : server := mk {["Echo" := echo]} false [] [] 1%nat
  [(8%nat, mk_response 42 false [] "service not found: Nobody");
   (7%nat, mk_response 41 true [Byte.x68; Byte.x69] "")].

Lemma served_steps : steps log start frames served.
Proof.
  unfold frames.
  refine (steps_trans _ _ [(7%nat, [Byte.x01])] _ _ _ (step_frame _ _ _ _ _ _) _); [reflexivity|].
  refine (steps_trans _ _ [(8%nat, [Byte.x02])] _ _ _ (step_frame _ _ _ _ _ _) _); [reflexivity|].
  refine (steps_trans _ _ [(7%nat, [Byte.xff])] _ [] _ (step_frame _ _ _ _ _ _) _); [reflexivity|].
  refine (steps_trans _ _ [] _ [] _ (step_work _ [] _ [] _ _ _ _) _); [reflexivity..|].
  refine (steps_trans _ _ [] _ [] _ (step_reply _ _ [] _ _ _ _) _); [reflexivity..|].
  apply steps_refl.
Qed.

Lemma one_response_per_request_witness :
  exists finished, requests frames ≡ₚ finished /\
    Forall2 (answers_on (services_ start)) finished (net served).
Proof.
  exact (one_response_per_request log id log_spec start frames served
    eq_refl eq_refl eq_refl served_steps eq_refl eq_refl).
Defined.

Lemma on_frame_spec_witness :
  wp (frame_arrives log 7%nat [Byte.x01]) start (fun s' _ =>
    services_ s' = services_ start /\ functors s' = functors start /\ user s' = user start /\
    ((exists resp, answers (services_ start) good_request resp /\ success resp = false /\
       net s' = net start ++ [(7%nat, resp)] /\ tasks s' = tasks start) \/
     (exists tk, waits (services_ start) (7%nat, good_request) tk /\
       tasks s' = tasks start ++ [tk] /\ net s' = net start))).
Proof. exact (on_frame_spec log id log_spec 7%nat [Byte.x01] start eq_refl). Defined.

End Echo.

End RpcServer.
