(* ===== verification/RpcChannel.v ===== *)
(** * The RPC client (include/rpc/rpc_channel.h, src/rpc/rpc_channel.cpp)

    Connecting and disconnecting, the frame a call writes, and the framing
    loop of the reader thread.  The table of pending calls and the threads
    around it are in RpcCalls.v. *)

From Stdlib Require Import ZArith Lia.
From S2P Require Import Prelude Cxx NetBuffer Codec Rpc.
Import Protocol Proto.
Local Open Scope Z_scope.

Module RpcChannel.

(** ** Connecting *)

(** The members that [connect] and [disconnect] use, and the descriptors the
    process has open, the kernel's side of [close]. *)
Record t := mk { sockfd_ : Z; connected_ : bool; open_fds : gset Z }.

Definition EINPROGRESS : Z := 115.

(** What the system calls of one [connect] answer, in the order of the code. *)
Record answers := mk_answers {
  socket_ret : Z;
  connect_ret : Z;
  connect_errno : Z;
  poll_ret : Z;
  so_error : Z;
}.

Definition close_socket : M t unit :=
  modify (fun c => mk (sockfd_ c) (connected_ c) (open_fds c ∖ {[sockfd_ c]})) ;;
  modify (fun c => mk (-1) (connected_ c) (open_fds c)).

(** [connect(host, port, timeout_ms)]; the reader thread it starts is modelled
    below. *)
Definition connect (a : answers) : M t bool :=
  modify (fun c => mk (socket_ret a) (connected_ c)
    (if socket_ret a <? 0 then open_fds c else {[socket_ret a]} ∪ open_fds c)) ;;
  if socket_ret a <? 0 then mret false
  else if (connect_ret a <? 0) && negb (connect_errno a =? EINPROGRESS) then
    close_socket ;; mret false
  else
    let established : M t bool :=
      modify (fun c => mk (sockfd_ c) true (open_fds c)) ;; mret true in
    if negb (connect_ret a =? 0) then
      if poll_ret a <=? 0 then close_socket ;; mret false
      else if negb (so_error a =? 0) then close_socket ;; mret false
      else established
    else established.

Definition disconnect : M t unit :=
  was ← gets connected_;
  modify (fun c => mk (sockfd_ c) false (open_fds c)) ;;
  when was close_socket.

(** On a fresh descriptor, [connect] fails without leaking it or succeeds with
    exactly one more open, which [disconnect] closes. *)
Lemma connect_then_disconnect a fds :
  socket_ret a ∉ fds ->
  wp (connect a) (mk (-1) false fds) (fun c ok =>
    connected_ c = ok /\
    if ok then open_fds c = {[socket_ret a]} ∪ fds /\ sockfd_ c = socket_ret a /\
      wp disconnect c (fun c' _ => c' = mk (-1) false fds)
    else open_fds c = fds /\ sockfd_ c < 0).
Proof.
  intros Hfresh.
  assert (({[socket_ret a]} ∪ fds) ∖ {[socket_ret a]} = fds) as Hback by set_solver.
  assert (forall fd b, fd = socket_ret a -> wp close_socket (mk fd b ({[socket_ret a]} ∪ fds))
    (fun c _ => c = mk (-1) b fds)) as Hclose.
  { intros fd b ->. unfold close_socket. wp_pures. simpl. by rewrite Hback. }
  unfold connect. wp_pures. simpl. destruct (Z.ltb_spec (socket_ret a) 0) as [Hneg|Hpos]; simpl.
  { wp_pures. done. }
  assert (forall m : M t bool, m = (close_socket ;; mret false) ->
    wp m (mk (socket_ret a) false ({[socket_ret a]} ∪ fds)) (fun c ok => connected_ c = ok /\
    if ok then open_fds c = {[socket_ret a]} ∪ fds /\ sockfd_ c = socket_ret a /\
      wp disconnect c (fun c' _ => c' = mk (-1) false fds)
    else open_fds c = fds /\ sockfd_ c < 0)) as Hfail.
  { intros m ->. apply wp_bind. eapply wp_mono; [by apply Hclose|]. cbv beta. intros c [] ->.
    by wp_pures. }
  assert (forall m : M t bool, m = (modify (fun c => mk (sockfd_ c) true (open_fds c)) ;; mret true) ->
    wp m (mk (socket_ret a) false ({[socket_ret a]} ∪ fds)) (fun c ok => connected_ c = ok /\
    if ok then open_fds c = {[socket_ret a]} ∪ fds /\ sockfd_ c = socket_ret a /\
      wp disconnect c (fun c' _ => c' = mk (-1) false fds)
    else open_fds c = fds /\ sockfd_ c < 0)) as Hok.
  { intros m ->. wp_pures. simpl. split_and!; [done..|]. unfold disconnect. wp_pures. simpl.
    by apply Hclose. }
  destruct ((connect_ret a <? 0) && _); [by apply Hfail|].
  destruct (negb (connect_ret a =? 0)); [|by apply Hok].
  destruct (poll_ret a <=? 0); [by apply Hfail|].
  destruct (negb (so_error a =? 0)); [by apply Hfail|by apply Hok].
Qed.

(** ** The frame of a call *)

(** [wire] in [CallMethod] *)
Definition wire_frame (host : Wire.endian) (body : bytes) : bytes :=
  Wire.store_u32 host (Wire.htonl host kMagicNumber) ++
  Wire.store_u32 host (Wire.htonl host (u32 (zlen body))) ++ body.

Lemma wire_frame_encode host body : wire_frame host body = Framing.encode body.
Proof. unfold wire_frame, Framing.encode. by rewrite !Wire.store_htonl, Wire.be32_u32. Qed.

(** The body: the request envelope of a call. *)
Definition make_request `{Message A} (service_name method_name : string) (request_id : Z)
    (request : A) : RpcRequest :=
  mk_request service_name method_name request_id (SerializeToString request).2.
Definition call_body `{Message RpcRequest} (req : RpcRequest) : bytes := (SerializeToString req).2.

(** ** The reader thread *)

Section reader.
Context {W : Type} (host : Wire.endian) (buf : Lens W Buffer.t).
(** [on_message(nullptr, frame)] and [connected_.store(false)]. *)
Variable on_message : bytes -> M W unit.
Variable store_disconnected : M W unit.

(** The inner loop; false when the thread returns from inside it. *)
Fixpoint read_frames (fuel : nat) : M W bool :=
  match fuel with
  | O => out_of_fuel
  | S fuel' =>
      n ← gets (fun w => Buffer.readable (lget buf w));
      if n <? kHeaderSize then mret true
      else
        magic ← Codec.peek_u32 host buf 0;
        body_len ← Codec.peek_u32 host buf 4;
        if negb (magic =? kMagicNumber) then store_disconnected ;; mret false
        else
          n ← gets (fun w => Buffer.readable (lget buf w));
          if n <? kHeaderSize + body_len then mret true
          else
            zoom buf (Buffer.retrieve kHeaderSize) ;;
            frame ← zoom buf (Buffer.retrieve_as_string body_len);
            on_message frame ;;
            read_frames fuel'
  end.

(** Every turn consumes a header: this fuel is enough. *)
Definition read_all_frames : M W bool :=
  n ← gets (fun w => Buffer.readable (lget buf w));
  read_frames (S (Z.to_nat (n / kHeaderSize))).

(** One turn of the thread's outer loop, after [readv] answered [res]; false
    when the thread ends with it. *)
Variable fail_pending : M W unit.
Definition reader_turn (res : Buffer.read_result) : M W bool :=
  r ← zoom buf (Buffer.read_fd res);
  let n := r.1 in
  if n <=? 0 then store_disconnected ;; fail_pending ;; mret false
  else read_all_frames.

End reader.

(** The client accepts every length a header can state. *)
Definition no_cap : Z := 2 ^ 32 - 1.

Section refinement.
Context {W : Type} (host : Wire.endian) (buf : Lens W Buffer.t) `{!LensOk buf}.
Variable on_message : bytes -> M W unit.
Variable store_disconnected : M W unit.
(** [P fs w]: the frames [fs] have been handled; [D fs w]: and the stream was
    then found broken. *)
Variables P D : list bytes -> W -> Prop.
Hypothesis P_buf : forall fs b w, P fs w -> P fs (lset buf b w).
Hypothesis on_message_spec : forall fs f w, P fs w ->
  wp (on_message f) w (fun w' _ => P (fs ++ [f]) w' /\ lget buf w' = lget buf w).
Hypothesis disconnected_spec : forall fs w, P fs w ->
  wp store_disconnected w (fun w' _ => D fs w' /\ lget buf w' = lget buf w).

Lemma be32_below_cap (l : bytes) : length l = 4%nat -> (no_cap <? Wire.be32_value l) = false.
Proof.
  intros Hl. apply Z.ltb_ge. pose proof (Wire.be32_value_bound l Hl). unfold no_cap. lia.
Qed.

Definition read_post (fs0 : list bytes) (w : W) (w' : W) (go_on : bool) : Prop :=
  let '(fs, rest, st) := Framing.deframe no_cap (Buffer.contents (lget buf w)) in
  Buffer.wf (lget buf w') /\ Buffer.contents (lget buf w') = rest /\
  Buffer.buf_ (lget buf w') = Buffer.buf_ (lget buf w) /\
  match st with
  | Framing.NeedMore => go_on = true /\ P (fs0 ++ fs) w'
  | Framing.BadMagic => go_on = false /\ D (fs0 ++ fs) w'
  | Framing.TooLarge => False
  end.

Lemma header_lengths (q : bytes) :
  kHeaderSize <= zlen q -> length (ztake 4 q) = 4%nat /\ length (ztake 4 (zdrop 4 q)) = 4%nat.
Proof. unfold kHeaderSize, ztake, zdrop, zlen. rewrite !length_take, length_drop. lia. Qed.

Lemma read_frames_spec fuel fs0 w :
  Buffer.wf (lget buf w) -> P fs0 w ->
  zlen (Buffer.contents (lget buf w)) < kHeaderSize * Z.of_nat fuel ->
  wp (read_frames host buf on_message store_disconnected fuel) w (fun w' r => read_post fs0 w w' r).
Proof.
  revert fs0 w. induction fuel as [|fuel IH]; intros fs0 w Hwf HP Hfuel.
  { pose proof (zlen_nonneg (Buffer.contents (lget buf w))). unfold kHeaderSize in *. lia. }
  cbn [read_frames]. wp_pures. rewrite (Buffer.readable_eq _ Hwf).
  set (q := Buffer.contents (lget buf w)) in *.
  assert (forall st, Framing.next_frame no_cap q = Framing.Stop st ->
    forall w' r, Buffer.wf (lget buf w') -> Buffer.contents (lget buf w') = q ->
    Buffer.buf_ (lget buf w') = Buffer.buf_ (lget buf w) ->
    match st with
    | Framing.NeedMore => r = true /\ P fs0 w'
    | Framing.BadMagic => r = false /\ D fs0 w'
    | Framing.TooLarge => False
    end -> read_post fs0 w w' r) as Hstop.
  { intros st Hn w' r Hwf' Hc' Hb' Hst. unfold read_post. fold q.
    rewrite Framing.deframe_eq, Hn. split_and!; [done..|]. by destruct st; rewrite ?app_nil_r. }
  unfold Framing.next_frame in Hstop.
  destruct (Z.ltb_spec (zlen q) kHeaderSize) as [|Hhdr].
  { wp_pures. by eapply Hstop. }
  destruct (header_lengths q Hhdr) as [Hl1 Hl2]. pose proof Hhdr as Hhdr8.
  unfold kHeaderSize in Hhdr8.
  wp_pures. apply Codec.peek_u32_wp; [done|done|lia|fold q; lia|]. rewrite zdrop_0.
  wp_pures. apply Codec.peek_u32_wp; [done|done|lia|fold q; lia|]. fold q.
  destruct (negb (_ =? kMagicNumber)) eqn:Hmagic.
  { apply wp_bind. eapply wp_mono; [by apply disconnected_spec|]. cbv beta.
    intros w1 [] [HD Hi]. wp_pures. eapply Hstop; [done|by rewrite Hi..|done]. }
  rewrite be32_below_cap in Hstop by done.
  set (len := Wire.be32_value (ztake 4 (zdrop 4 q))) in *.
  assert (0 <= len) by by apply Wire.be32_value_bound.
  wp_pures. rewrite (Buffer.readable_eq _ Hwf). fold q.
  destruct (Z.ltb_spec (zlen q) (kHeaderSize + len)) as [|Hall].
  { wp_pures. by eapply Hstop. }
  apply Codec.take_frame_wpe; [done..|]. fold q. intros b Hb Hc Hm.
  apply wp_bind. eapply wp_mono; [by apply on_message_spec, P_buf|]. cbv beta.
  intros w1 [] [HP1 Hi1]. rewrite lens_get_set in Hi1.
  assert (Framing.next_frame no_cap q = Framing.Frame (ztake len (zdrop kHeaderSize q))
    (zdrop (kHeaderSize + len) q)) as Hn.
  { unfold Framing.next_frame. rewrite (proj2 (Z.ltb_ge _ _) Hhdr), Hmagic, be32_below_cap by done.
    fold len. by rewrite (proj2 (Z.ltb_ge _ _) Hall). }
  pose proof (Framing.next_frame_shrinks _ _ _ _ Hn) as [Hsh _].
  eapply wp_mono; [apply (IH (fs0 ++ [ztake len (zdrop kHeaderSize q)]) w1); [by rewrite Hi1|exact HP1|]|].
  - rewrite Hi1, Hc. unfold kHeaderSize in *. lia.
  - cbv beta. intros w2 r. unfold read_post. rewrite Hi1, Hc, Hm. fold q.
    rewrite (Framing.deframe_eq _ q), Hn.
    destruct (Framing.deframe no_cap (zdrop (kHeaderSize + len) q)) as [[fs rest] st].
    by rewrite <- app_assoc.
Qed.

Lemma read_all_frames_spec fs0 w :
  Buffer.wf (lget buf w) -> P fs0 w ->
  wp (read_all_frames host buf on_message store_disconnected) w
    (fun w' go_on => read_post fs0 w w' go_on).
Proof.
  intros Hwf HP. unfold read_all_frames. wp_pures. rewrite (Buffer.readable_eq _ Hwf).
  eapply wp_mono; [apply (read_frames_spec _ fs0); [done..|]|done].
  unfold kHeaderSize. set (n := zlen _). pose proof (zlen_nonneg (Buffer.contents (lget buf w))).
  pose proof (Z.mul_succ_div_gt n 8). pose proof (Z.div_pos n 8). fold n in H. lia.
Qed.

(** C24. The client's reader speaks the same wire format as the server's codec:
    from one read it handles exactly the frames the format's parser finds, in
    order, keeps exactly the bytes the parser leaves, and gives the connection
    up exactly on a bad magic number.  It terminates and stays within the
    buffer.  Unlike the server it accepts every stated length. *)
Theorem reader_refines fs0 w (Hwf : Buffer.wf (lget buf w)) (HP : P fs0 w) :
  wp (read_all_frames host buf on_message store_disconnected) w (fun w' go_on =>
    let '(fs, rest, st) := Framing.deframe no_cap (Buffer.contents (lget buf w)) in
    Buffer.wf (lget buf w') /\ Buffer.contents (lget buf w') = rest /\
    Buffer.buf_ (lget buf w') = Buffer.buf_ (lget buf w) /\
    match st with
    | Framing.NeedMore => go_on = true /\ P (fs0 ++ fs) w'
    | Framing.BadMagic => go_on = false /\ D (fs0 ++ fs) w'
    | Framing.TooLarge => False
    end).
Proof. by apply read_all_frames_spec. Qed.

(** A turn with data that leaves the stream in order. *)
Lemma reader_turn_spec (fail_pending : M W unit) c fs0 fs rest w :
  Buffer.wf (lget buf w) -> P fs0 w -> 0 < zlen c <= Buffer.iov_capacity (lget buf w) ->
  zlen (Buffer.buf_ (lget buf w)) + zlen c <= Mem.max_size ->
  Framing.deframe no_cap (Buffer.contents (lget buf w) ++ c) = (fs, rest, Framing.NeedMore) ->
  wp (reader_turn host buf on_message store_disconnected fail_pending (Buffer.ReadOk c)) w
    (fun w' go_on => go_on = true /\ P (fs0 ++ fs) w' /\ Buffer.wf (lget buf w') /\
       Buffer.contents (lget buf w') = rest /\
       zlen (Buffer.buf_ (lget buf w')) <= zlen (Buffer.buf_ (lget buf w)) + zlen c).
Proof.
  intros Hwf HP Hcap Hroom Hd. unfold reader_turn. wp_pures.
  eapply wp_mono; [by apply Buffer.read_fd_wp; [|lia|]|].
  cbv beta. intros b r (Hwf1 & Hc1 & -> & Hz1). wp_pures. simpl.
  rewrite (proj2 (Z.leb_gt _ _)) by lia.
  eapply wp_mono; [apply (read_all_frames_spec fs0); [by rewrite lens_get_set|by apply P_buf]|].
  cbv beta. intros w' r. unfold read_post. rewrite lens_get_set, Hc1, Hd.
  intros (? & ? & -> & ? & ?). by split_and!.
Qed.

End refinement.

Import Codec.Recorder.

Lemma close_ok fs w : delivered fs w ->
  wp close w (fun w' _ => refused Framing.BadMagic fs w' /\ lget input w' = lget input w).
Proof. unfold delivered, refused, close. intros H. wp_pures. simpl. by rewrite H. Qed.

(** A frame, a bad magic number, and bytes after it. *)
Definition broken_reply : bytes :=
  Framing.encode [Byte.x61] ++ replicate 8 Byte.x00 ++ [Byte.x62].

Lemma reader_refines_witness :
  wp (read_all_frames Wire.LittleEndian input msg_cb close) (holding broken_reply) (fun w' go_on =>
    Buffer.contents w'.1 = replicate 8 Byte.x00 ++ [Byte.x62] /\ go_on = false /\
    w'.2 = ([[Byte.x61]], true)).
Proof.
  pose proof (reader_refines Wire.LittleEndian input msg_cb close delivered
    (refused Framing.BadMagic) delivered_input msg_cb_ok close_ok [] (holding broken_reply)) as H.
  replace (Framing.deframe no_cap (Buffer.contents (lget input (holding broken_reply))))
    with ([[Byte.x61]], replicate 8 Byte.x00 ++ [Byte.x62], Framing.BadMagic) in H
    by (vm_compute; reflexivity).
  eapply wp_mono; [apply H; [split; vm_compute; congruence|reflexivity]|].
  cbv beta iota. intros w' r (_ & Hc & _ & Hr & Hd). split; [exact Hc|]. split; [exact Hr|exact Hd].
Defined.

End RpcChannel.
