(* ===== verification/ServiceProxy.v ===== *)
(** * The service proxy (include/rpc/service_proxy.h)

    The RAII wrapper that owns the channel of a generated stub.  The objects of
    a program are in a store, for the defaulted moves leave the moved-from
    object behind, and C++ destroys it too; and the reader thread of a channel may
    see the end of its connection.  The stub only points to the channel, so it is not
    represented. *)

From Stdlib Require Import ZArith Lia.
From S2P Require Import Prelude CxxString RpcChannel.
Local Open Scope Z_scope.

Module ServiceProxy.

(** An [RpcChannel]: its socket and [connected_]. *)
Record channel := mk_channel { sockfd_ : Z; connected_ : bool }.

(** [channel_], null after a move. *)
Definition t : Type := option channel.

(** The proxies of the program, and the descriptors that the process has open. *)
Record world := mk { proxies : gmap nat t; fds : gset Z }.

Definition set_proxies m (w : world) : world := mk m (fds w).
Definition store (p : nat) (o : t) : M world unit :=
  modify (fun w => set_proxies (<[p := o]> (proxies w)) w).

(** Running a member function of a channel that lives at [c]. *)
Definition on_channel {X} (c : channel) (m : M RpcChannel.t X) : M world (channel * X) := fun w =>
  let back (c' : RpcChannel.t) := mk (proxies w) (RpcChannel.open_fds c') in
  match m (RpcChannel.mk (sockfd_ c) (connected_ c) (fds w)) with
  | Ret c' x => Ret (back c') (mk_channel (RpcChannel.sockfd_ c') (RpcChannel.connected_ c'), x)
  | Throw c' e => Throw (back c') e
  | Ub why => Ub why
  | OutOfFuel => OutOfFuel
  end.

(** [~RpcChannel()] *)
Definition destroy_channel (c : channel) : M world unit :=
  on_channel c RpcChannel.disconnect ;; mret ().

(** [ServiceProxy(host, port, timeout_ms)]: a constructor that throws has its
    members destroyed. *)
Definition construct (p : nat) (host : string) (port : Z) (a : RpcChannel.answers) : M world unit :=
  r ← on_channel (mk_channel (-1) false) (RpcChannel.connect a);
  let '(c, ok) := (r : channel * bool) in
  if ok then store p (Some c)
  else
    destroy_channel c ;;
    throw (runtime_error ("RpcChannel: connect failed to " +:+ host +:+ ":" +:+ Str.to_string port)).

(** The proxy that lives at [p]. *)
Definition proxy (p : nat) : M world t := fun w =>
  match proxies w !! p with Some o => Ret w o | None => Ub "no such proxy" end.

(** [~ServiceProxy()], then the members. *)
Definition destroy (p : nat) : M world unit :=
  o ← proxy p;
  match (o : t) with
  | None => ub "null pointer dereference"
  | Some c =>
      r ← on_channel c RpcChannel.disconnect;
      destroy_channel r.1 ;;
      modify (fun w => set_proxies (delete p (proxies w)) w)
  end.

(** [ServiceProxy(ServiceProxy&&) = default] *)
Definition move_construct (dst src : nat) : M world unit :=
  o ← proxy src; store src None ;; store dst o.

(** [operator=(ServiceProxy&&) = default]: the old channel is destroyed. *)
Definition move_assign (dst src : nat) : M world unit :=
  if (dst =? src)%nat then mret ()
  else
    old ← proxy dst;
    o ← proxy src;
    store src None ;; store dst o ;;
    match (old : t) with Some c => destroy_channel c | None => mret () end.

(** What the reader thread of the channel behind [p] does to it at the end of
    the stream or at a bad frame: [connected_.store(false)]. *)
Definition reader_ends (p : nat) : M world unit :=
  o ← proxy p;
  match (o : t) with
  | Some c => store p (Some (mk_channel (sockfd_ c) false))
  | None => ub "no such channel"
  end.

(** The channel behind [operator->]: what a call goes to. *)
Definition deref (p : nat) : M world channel :=
  o ← proxy p;
  match (o : t) with Some c => mret c | None => ub "null pointer dereference" end.

(** ** What a proxy owns *)

(** The descriptor of a connected channel. *)
Definition owned (o : t) : gset Z :=
  match o with Some c => if connected_ c then {[sockfd_ c]} else ∅ | None => ∅ end.

(** A store of proxies over the descriptors [base] that others have open: what
    is open besides is exactly what the proxies own, each its own. *)
Record inv (base : gset Z) (w : world) : Prop := {
  inv_fds : forall fd, fd ∈ fds w <-> fd ∈ base \/ exists p o, proxies w !! p = Some o /\ fd ∈ owned o;
  inv_base : forall p o fd, proxies w !! p = Some o -> fd ∈ owned o -> fd ∉ base;
  inv_own : forall p1 p2 o1 o2 fd, proxies w !! p1 = Some o1 -> proxies w !! p2 = Some o2 ->
    fd ∈ owned o1 -> fd ∈ owned o2 -> p1 = p2;
}.

Lemma owned_elem o fd : fd ∈ owned o <-> exists c, o = Some c /\ connected_ c = true /\ fd = sockfd_ c.
Proof. destruct o as [[s []]|]; simpl; set_solver. Qed.

(** Destroying a channel closes what it owns; a closed channel owns nothing. *)
Lemma disconnect_eq c w :
  on_channel c RpcChannel.disconnect w =
    Ret (mk (proxies w) (fds w ∖ owned (Some c)))
      (mk_channel (if connected_ c then -1 else sockfd_ c) false, ()).
Proof.
  unfold on_channel, RpcChannel.disconnect, RpcChannel.close_socket, mbind, M_bind, gets, modify, when.
  destruct c as [s []]; simpl; [done|]. by rewrite difference_empty_L.
Qed.

Lemma destroy_channel_eq c w :
  destroy_channel c w = Ret (mk (proxies w) (fds w ∖ owned (Some c))) ().
Proof. unfold destroy_channel, mbind, M_bind. by rewrite disconnect_eq. Qed.

Lemma connect_wp a w :
  RpcChannel.socket_ret a ∉ fds w ->
  wp (on_channel (mk_channel (-1) false) (RpcChannel.connect a)) w (fun w' r =>
    connected_ r.1 = r.2 /\ proxies w' = proxies w /\
    if r.2 : bool then sockfd_ r.1 = RpcChannel.socket_ret a /\ fds w' = {[RpcChannel.socket_ret a]} ∪ fds w
    else fds w' = fds w).
Proof.
  intros Hf. pose proof (RpcChannel.connect_then_disconnect a (fds w) Hf) as Hwp.
  apply wp_ret_inv in Hwp as (c & ok & Heq & Hc & Hrest). unfold wp, wpe, on_channel. simpl.
  rewrite Heq. simpl. destruct ok; naive_solver.
Qed.

(** A new owner of a fresh descriptor, or of none, in place of nothing. *)
Lemma inv_store base w p o fds' :
  inv base w -> proxies w !! p = None ->
  (forall fd, fd ∈ owned o -> fd ∉ fds w) -> (forall fd, fd ∈ fds' <-> fd ∈ fds w \/ fd ∈ owned o) ->
  inv base (mk (<[p := o]> (proxies w)) fds').
Proof.
  intros [Hfds Hbase Hown] Hp Hfresh Hfds'.
  assert (forall p' o', <[p := o]> (proxies w) !! p' = Some o' ->
    p' = p /\ o' = o \/ p' <> p /\ proxies w !! p' = Some o') as Hlook.
  { intros p' o'. rewrite lookup_insert_Some. naive_solver. }
  split; simpl.
  - intros fd. rewrite Hfds', Hfds. split.
    + intros [[?|(p' & o' & Ho' & Hin)]|Hin]; [by left| |].
      * right. exists p', o'. rewrite lookup_insert_ne; [done|]. intros <-. congruence.
      * right. exists p, o. by rewrite lookup_insert_eq.
    + intros [?|(p' & o' & [[-> ->]|[_ Ho']]%Hlook & Hin)]; [by left; left|by right|].
      left. right. by exists p', o'.
  - intros p' o' fd [[-> ->]|[_ Ho']]%Hlook Hin; [|by eapply Hbase].
    intros Hb. apply (Hfresh fd Hin), Hfds. by left.
  - intros p1 p2 o1 o2 fd [[-> ->]|[? H1]]%Hlook [[-> ->]|[? H2]]%Hlook Hin1 Hin2; [done| | |by eapply Hown].
    + destruct (Hfresh fd Hin1). apply Hfds. right. by exists p2, o2.
    + destruct (Hfresh fd Hin2). apply Hfds. right. by exists p1, o1.
Qed.

(** Taking an owner away, with what it owns. *)
Lemma inv_take base w p o :
  inv base w -> proxies w !! p = Some o ->
  inv base (mk (delete p (proxies w)) (fds w ∖ owned o)).
Proof.
  intros [Hfds Hbase Hown] Hp. split; simpl.
  - intros fd. rewrite elem_of_difference, Hfds. split.
    + intros [[?|(p' & o' & Ho' & Hin)] Hnot]; [by left|right].
      exists p', o'. rewrite lookup_delete_ne; [done|]. intros <-. naive_solver.
    + intros [Hb|(p' & o' & [Hne Ho']%lookup_delete_Some & Hin)].
      * split; [by left|]. intros Hin. by eapply Hbase.
      * split; [right; by exists p', o'|]. intros Hin'. by destruct (Hne (Hown p p' o o' fd Hp Ho' Hin' Hin)).
  - intros p' o' fd [_ Ho']%lookup_delete_Some. by apply (Hbase p').
  - intros p1 p2 o1 o2 fd [_ H1]%lookup_delete_Some [_ H2]%lookup_delete_Some. by apply (Hown p1 p2 o1 o2).
Qed.

(** ** Programs *)

Inductive op :=
| Construct (p : nat) (host : string) (port : Z) (a : RpcChannel.answers)
| MoveConstruct (dst src : nat)
| MoveAssign (dst src : nat)
| Destroy (p : nat)
| ReaderEnds (p : nat).

Definition run_op (o : op) : M world unit :=
  match o with
  | Construct p host port a => construct p host port a
  | MoveConstruct dst src => move_construct dst src
  | MoveAssign dst src => move_assign dst src
  | Destroy p => destroy p
  | ReaderEnds p => reader_ends p
  end.

(** Objects are constructed where there is none, sockets are new descriptors,
    and nothing is done to what does not exist. *)
Definition op_ok (w : world) (o : op) : Prop :=
  match o with
  | Construct p _ _ a => proxies w !! p = None /\ RpcChannel.socket_ret a ∉ fds w
  | MoveConstruct dst src => proxies w !! dst = None /\ is_Some (proxies w !! src)
  | MoveAssign dst src => is_Some (proxies w !! dst) /\ is_Some (proxies w !! src)
  | Destroy p => is_Some (proxies w !! p)
  | ReaderEnds p => exists c : channel, proxies w !! p = Some (Some c : t)
  end.

(** The descriptors that nobody closes any more: once the reader has cleared
    [connected_], [disconnect()] does nothing. *)
Definition given_up (w : world) (o : op) : gset Z :=
  match o with
  | ReaderEnds p => match proxies w !! p with Some o => owned o | None => ∅ end
  | _ => ∅
  end.

Lemma inv_destroyed base w p o :
  inv base w -> proxies w !! p = Some o -> inv base (mk (<[p := None]> (proxies w)) (fds w ∖ owned o)).
Proof.
  intros Hw Hp. pose proof (inv_take base w p o Hw Hp) as Ht.
  pose proof (inv_store base _ p None (fds w ∖ owned o) Ht) as Hi. simpl in Hi.
  rewrite insert_delete_eq in Hi. apply Hi; [apply lookup_delete_eq|set_solver..].
Qed.

(** The owner at [src] moves to the free place [dst]. *)
Lemma inv_move base w dst src o :
  inv base w -> proxies w !! src = Some o -> proxies w !! dst = None ->
  inv base (mk (<[dst := o]> (<[src := None]> (proxies w))) (fds w)).
Proof.
  intros Hw Hs Hd. assert (src <> dst) as Hne by congruence.
  pose proof (inv_destroyed base w src o Hw Hs) as Hw1.
  assert (forall fd, fd ∈ owned o -> fd ∈ fds w) as Hsub.
  { intros fd Hin. apply (inv_fds _ _ Hw). right. by exists src, o. }
  pose proof (inv_store base _ dst o (fds w) Hw1) as Hi. simpl in Hi. apply Hi.
  - by rewrite lookup_insert_ne.
  - set_solver.
  - intros fd. destruct (decide (fd ∈ owned o)); set_solver.
Qed.

Lemma move_assign_inv base w dst src o old :
  inv base w -> dst <> src -> proxies w !! src = Some o -> proxies w !! dst = Some old ->
  inv base (mk (<[dst := o]> (<[src := None]> (proxies w))) (fds w ∖ owned old)).
Proof.
  intros Hw Hne Hs Hd. pose proof (inv_take base w dst old Hw Hd) as Hw1.
  apply (inv_move base _ dst src o) in Hw1; simpl in *.
  - by rewrite insert_insert_ne, insert_delete_eq, insert_insert_ne in Hw1.
  - by rewrite lookup_delete_ne.
  - apply lookup_delete_eq.
Qed.

(** An owner gives up what it owns: nobody closes it any more. *)
Lemma inv_give_up base w p o o' :
  inv base w -> proxies w !! p = Some o -> owned o' = ∅ ->
  inv (base ∪ owned o) (mk (<[p := o']> (proxies w)) (fds w)).
Proof.
  intros [Hfds Hbase Hown] Hp Ho'.
  assert (forall p1 o1 fd, <[p := o']> (proxies w) !! p1 = Some o1 -> fd ∈ owned o1 ->
    p1 <> p /\ proxies w !! p1 = Some o1) as Hlook.
  { intros p1 o1 fd [[<- <-]|[? ?]]%lookup_insert_Some Hin; [set_solver|done]. }
  split; simpl.
  - intros fd. rewrite elem_of_union, Hfds. split.
    + intros [?|(p1 & o1 & H1 & Hin)]; [by left; left|].
      destruct (decide (p1 = p)) as [->|Hne]; [left; right; by simplify_eq|right].
      exists p1, o1. by rewrite lookup_insert_ne.
    + intros [[?|Hin]|(p1 & o1 & H1 & Hin)]; [by left|right; by exists p, o|right].
      exists p1, o1. split; [by apply (Hlook p1 o1 fd)|done].
  - intros p1 o1 fd H1 Hin. destruct (Hlook p1 o1 fd H1 Hin) as [Hne H1'].
    rewrite elem_of_union. intros [Hb|Ho]; [by apply (Hbase p1 o1 fd)|]. by apply Hne, (Hown p1 p o1 o fd).
  - intros p1 p2 o1 o2 fd H1 H2 Hin1 Hin2.
    apply (Hown p1 p2 o1 o2 fd); try done; [by apply (Hlook p1 o1 fd)|by apply (Hlook p2 o2 fd)].
Qed.

(** C40. A proxy owns its socket until the server ends the connection.  Whatever
    a program does with its proxies, the process has exactly the sockets open
    that belong to its connected proxies, each to one, besides [base]; but when
    the reader thread has seen the end of a connection, its socket passes to
    [base]: no destructor closes it.  A constructor that cannot connect throws
    and leaves everything as it was; and the only way to fail is to destroy a
    proxy that was moved from. *)
Theorem proxies_own_their_sockets base w o (Hw : inv base w) (Hok : op_ok w o) :
  match run_op o w with
  | Ret w' _ => inv (base ∪ given_up w o) w'
  | Throw w' e => w' = w /\ exists p host port a, o = Construct p host port a /\
      e = runtime_error ("RpcChannel: connect failed to " +:+ host +:+ ":" +:+ Str.to_string port)
  | Ub _ => exists p, o = Destroy p /\ proxies w !! p = Some None
  | OutOfFuel => False
  end.
Proof.
  destruct o as [p host port a|dst src|dst src|p|p]; simpl in *; rewrite ?union_empty_r_L.
  - destruct Hok as [Hp Hf]. unfold construct.
    pose proof (connect_wp a w Hf) as Hc. apply wp_ret_inv in Hc as (w' & [c ok] & Heq & Hcn & Hpr & Hr).
    unfold mbind at 1, M_bind. rewrite Heq. destruct w' as [m' fds']. simpl in *. subst m'. destruct ok.
    + destruct Hr as [Hs ->]. unfold store, modify, set_proxies. simpl.
      apply (inv_store base w p (Some c)); [done..| |]; destruct c as [s b]; simpl in *; subst; set_solver.
    + subst fds'. unfold mbind, M_bind. rewrite destroy_channel_eq. destruct c as [s b]. simpl in *.
      subst b. rewrite difference_empty_L. split; [by destruct w|]. by exists p, host, port, a.
  - destruct Hok as [Hd [o Hs]]. unfold move_construct, proxy, mbind, M_bind. rewrite Hs.
    exact (inv_move base w dst src o Hw Hs Hd).
  - destruct Hok as [[old Hd] [o Hs]]. unfold move_assign, proxy, mbind, M_bind.
    destruct (Nat.eqb_spec dst src) as [->|Hne]; [done|]. rewrite Hd, Hs. simpl.
    pose proof (move_assign_inv base w dst src o old Hw Hne Hs Hd) as Hi.
    destruct old as [c|]; [by rewrite destroy_channel_eq|]. simpl in Hi. by rewrite difference_empty_L in Hi.
  - destruct Hok as [o Hp]. unfold destroy, proxy, mbind, M_bind. rewrite Hp.
    destruct o as [c|]; [|by exists p]. rewrite disconnect_eq. cbn [fst]. rewrite destroy_channel_eq. simpl.
    unfold set_proxies. simpl. rewrite difference_empty_L. exact (inv_take base w p (Some c) Hw Hp).
  - destruct Hok as [c Hp]. rewrite Hp. unfold reader_ends, proxy, mbind, M_bind. rewrite Hp.
    exact (inv_give_up base w p (Some c) (Some (mk_channel (sockfd_ c) false)) Hw Hp eq_refl).
Qed.

(** When all proxies are gone, so are their sockets. *)
Lemma all_destroyed base w : inv base w -> proxies w = ∅ -> forall fd, fd ∈ fds w <-> fd ∈ base.
Proof.
  intros [Hfds _ _] Hp fd. rewrite Hfds, Hp. split; [|by left].
  intros [?|(p & o & Ho & _)]; [done|]. by rewrite lookup_empty in Ho.
Qed.

(** A moved-from proxy cannot be destroyed: its destructor calls
    [disconnect()] through the null pointer that the move left.  Since every
    object is destroyed in the end, no program can move a proxy. *)
Theorem moved_proxy_crashes w dst src o (Hd : proxies w !! dst = None) (Hs : proxies w !! src = Some o) :
  (move_construct dst src ;; destroy src) w = Ub "null pointer dereference".
Proof.
  assert (src <> dst) by congruence.
  unfold move_construct, destroy, proxy, mbind, M_bind. rewrite Hs. simpl.
  by rewrite lookup_insert_ne, lookup_insert_eq.
Qed.

(** ** Examples *)

(** A connection in progress that succeeds, and one that times out. *)
Definition succeeds : RpcChannel.answers := RpcChannel.mk_answers 5 (-1) RpcChannel.EINPROGRESS 1 0.
Definition times_out : RpcChannel.answers := RpcChannel.mk_answers 6 (-1) RpcChannel.EINPROGRESS 0 0.
Definition nothing : world := mk ∅ {[0; 1; 2]}.
Definition connected : world :=
  match construct 0 "127.0.0.1" 8080 succeeds nothing with Ret w _ => w | _ => nothing end.

Lemma nothing_inv : inv {[0; 1; 2]} nothing.
Proof. split; simpl; [|by intros ????..|by intros ?????]. intros fd. split; [by left|]. by intros [?|(?&?&?&_)]. Qed.

Lemma proxies_own_their_sockets_witness :
  run_op (Construct 0 "127.0.0.1" 8080 succeeds) nothing = Ret connected () /\ inv {[0; 1; 2]} connected.
Proof.
  assert (run_op (Construct 0 "127.0.0.1" 8080 succeeds) nothing = Ret connected ()) as Heq by reflexivity.
  split; [exact Heq|].
  pose proof (proxies_own_their_sockets {[0; 1; 2]} nothing (Construct 0 "127.0.0.1" 8080 succeeds)
    nothing_inv ltac:(split; [reflexivity|vm_compute; set_solver])) as H.
  rewrite Heq in H. simpl in H. rewrite union_empty_r_L in H. exact H.
Defined.

Lemma moved_proxy_crashes_witness :
  (move_construct 1 0 ;; destroy 0) connected = Ub "null pointer dereference".
Proof. apply (moved_proxy_crashes connected 1 0 (Some (mk_channel 5 true))); vm_compute; reflexivity. Defined.

(** A proxy in a scope: nothing is left open, and a failed one throws. *)
Example scope_leaves_nothing :
  match (construct 0 "127.0.0.1" 8080 succeeds ;; destroy 0) nothing with
  | Ret w _ => w = nothing
  | _ => False
  end /\
  construct 0 "127.0.0.1" 8080 times_out nothing =
    Throw nothing (runtime_error "RpcChannel: connect failed to 127.0.0.1:8080").
Proof. split; vm_compute; reflexivity. Qed.

(** The server closes first: the client's socket stays open for good. *)
Example server_closes_first :
  match (construct 0 "127.0.0.1" 8080 succeeds ;; reader_ends 0 ;; destroy 0) nothing with
  | Ret w _ => proxies w = ∅ /\ fds w = {[0; 1; 2; 5]}
  | _ => False
  end.
Proof. split; vm_compute; reflexivity. Qed.

End ServiceProxy.
