(* ===== verification/RpcCalls.v ===== *)
(** * Calls in flight (src/rpc/rpc_channel.cpp: [CallMethod], [on_message],
    the reader thread)

    The threads that call [CallMethod] and the reader thread of one channel as
    a transition system over the table of pending calls.  A step is one access
    to shared state, or what the code does under one hold of [mu_]. *)

From Stdlib Require Import ZArith Lia.
From S2P Require Import Prelude Rpc.
Import Proto.
Local Open Scope Z_scope.

Module Calls.

(** Where a caller stands in [CallMethod]. *)
Inductive caller_pc :=
| CCheck                   (* about to test is_connected() *)
| CGetId                   (* about to take a request id *)
| CInsert (id : Z)         (* about to enter the call in pending_calls_ *)
| CWrite (id : Z)          (* about to write the frame *)
| CErase (id : Z)          (* the write failed: about to withdraw the call *)
| CWait (id : Z)           (* waits for done_flag *)
| CReturned.

(** A call: the caller's thread, its controller and response objects, and the
    [PendingCall]; [is_sync] means that [done] is null, [done_runs] counts the
    runs of [done], and [response] is the argument of the last
    [response->ParseFromString]. *)
Record call := mk_call {
  is_sync : bool;
  pc : caller_pc;
  controller : RpcController.t;
  response : option bytes;
  done_flag : bool;
  done_runs : nat;
  the_id : option Z;
}.

(** Where the reader thread stands. *)
Inductive reader_pc :=
| RTest                                  (* about to test connected_ *)
| RRead                                  (* in read_fd *)
| RFrames                                (* in the inner loop *)
| RFound (i : nat) (resp : RpcResponse)  (* on_message took call i out of the table *)
| RFlag (i : nat)                        (* about to set done_flag *)
| RDone (i : nat)                        (* about to run done *)
| RClosing                               (* connected_ is false: about to fail all calls *)
| RExited.

Record state := mk {
  connected_ : bool;
  next_request_id_ : Z;
  pending_calls_ : gmap Z nat;
  calls : list call;
  reader : reader_pc;
  sent : list Z;                         (* ids of the frames written *)
  received : list RpcResponse;           (* responses parsed *)
}.

Definition set_pc p (c : call) : call :=
  mk_call (is_sync c) p (controller c) (response c) (done_flag c) (done_runs c) (the_id c).
Definition set_id id (c : call) : call :=
  mk_call (is_sync c) (pc c) (controller c) (response c) (done_flag c) (done_runs c) (Some id).
Definition set_failed (reason : string) (c : call) : call :=
  mk_call (is_sync c) (pc c) (RpcController.SetFailed reason (controller c)) (response c)
    (done_flag c) (done_runs c) (the_id c).
Definition parse_response (data : bytes) (c : call) : call :=
  mk_call (is_sync c) (pc c) (controller c) (Some data) (done_flag c) (done_runs c) (the_id c).
Definition set_done_flag (c : call) : call :=
  mk_call (is_sync c) (pc c) (controller c) (response c) true (done_runs c) (the_id c).
(** [if (done) done->Run();] *)
Definition run_done (c : call) : call :=
  mk_call (is_sync c) (pc c) (controller c) (response c) (done_flag c)
    (if is_sync c then done_runs c else S (done_runs c)) (the_id c).

Definition set_call (i : nat) (c : call) (s : state) : state :=
  mk (connected_ s) (next_request_id_ s) (pending_calls_ s) (<[i := c]> (calls s)) (reader s)
    (sent s) (received s).
Definition set_reader (r : reader_pc) (s : state) : state :=
  mk (connected_ s) (next_request_id_ s) (pending_calls_ s) (calls s) r (sent s) (received s).
Definition set_pending m (s : state) : state :=
  mk (connected_ s) (next_request_id_ s) m (calls s) (reader s) (sent s) (received s).
Definition set_connected b (s : state) : state :=
  mk b (next_request_id_ s) (pending_calls_ s) (calls s) (reader s) (sent s) (received s).
Definition set_next id (s : state) : state :=
  mk (connected_ s) id (pending_calls_ s) (calls s) (reader s) (sent s) (received s).
Definition add_sent id (s : state) : state :=
  mk (connected_ s) (next_request_id_ s) (pending_calls_ s) (calls s) (reader s) (sent s ++ [id])
    (received s).
Definition add_received r (s : state) : state :=
  mk (connected_ s) (next_request_id_ s) (pending_calls_ s) (calls s) (reader s) (sent s)
    (received s ++ [r]).

(** A connected channel and the calls that threads will make on it. *)
Definition new_call (sync : bool) : call :=
  mk_call sync CCheck RpcController.make None false 0 None.
Definition init (syncs : list bool) : state :=
  mk true 1 ∅ (new_call <$> syncs) RTest [] [].

(** The next step of the caller of call [i]; [write_ok] is the answer of its
    [write].  A step is one access to shared state, or what the code does
    under one hold of [mu_]. *)
Definition caller_step (i : nat) (write_ok : bool) (s : state) : option state :=
  match calls s !! i with
  | None => None
  | Some c =>
      match pc c with
      | CCheck =>
          if connected_ s then Some (set_call i (set_pc CGetId c) s)
          else Some (set_call i (set_pc CReturned (run_done (set_failed "not connected" c))) s)
      | CGetId =>
          let id := next_request_id_ s in
          Some (set_call i (set_pc (CInsert id) (set_id id c)) (set_next (u32 (id + 1)) s))
      | CInsert id =>
          Some (set_call i (set_pc (CWrite id) c)
            (set_pending (<[id := i]> (pending_calls_ s)) s))
      | CWrite id =>
          if write_ok
          then Some (set_call i (set_pc (if is_sync c then CWait id else CReturned) c) (add_sent id s))
          else Some (set_call i (set_pc (CErase id) c) s)
      | CErase id =>
          Some (set_call i (set_pc CReturned (run_done (set_failed "write failed" c)))
            (set_pending (delete id (pending_calls_ s)) s))
      | CWait id => if done_flag c then Some (set_call i (set_pc CReturned c) s) else None
      | CReturned => None
      end
  end.

(** [for (auto& [id, call] : pending_calls_) { ...SetFailed; done_flag = true; }] *)
Definition fail_pending (s : state) : state :=
  mk (connected_ s) (next_request_id_ s) (pending_calls_ s)
    (imap (fun i c => if bool_decide (i ∈ (map_to_list (pending_calls_ s)).*2)
                      then set_done_flag (set_failed "connection closed" c) else c) (calls s))
    (reader s) (sent s) (received s).

(** The lookup of [on_message], under [mu_]. *)
Definition take_call (resp : RpcResponse) (s : state) : state :=
  match pending_calls_ s !! response_id resp with
  | None => s
  | Some i => set_reader (RFound i resp)
      (set_pending (delete (response_id resp) (pending_calls_ s)) s)
  end.

(** What the reader meets: data, the end of the stream or an error, a frame
    (its response, if it parses), a bad magic number, the end of the data. *)
Inductive input := Data | Eof | AFrame (resp : option RpcResponse) | BadMagic | NoMore | Go.

Definition reader_step (inp : input) (s : state) : option state :=
  match reader s, inp with
  | RTest, Go => Some (set_reader (if connected_ s then RRead else RExited) s)
  | RRead, Data => Some (set_reader RFrames s)
  | RRead, Eof => Some (set_reader RClosing (set_connected false s))
  | RFrames, AFrame None => Some s
  | RFrames, AFrame (Some resp) =>
      Some (take_call resp (add_received resp s))
  | RFrames, BadMagic => Some (set_reader RExited (set_connected false s))
  | RFrames, NoMore => Some (set_reader RTest s)
  | RFound i resp, Go =>
      match calls s !! i with
      | Some c => Some (set_reader (RFlag i) (set_call i
          (if success resp then parse_response (result_data resp) c
           else set_failed (error_msg resp) c) s))
      | None => None
      end
  | RFlag i, Go =>
      match calls s !! i with
      | Some c => Some (set_reader (RDone i) (set_call i (set_done_flag c) s))
      | None => None
      end
  | RDone i, Go =>
      match calls s !! i with
      | Some c => Some (set_reader RFrames (set_call i (run_done c) s))
      | None => None
      end
  | RClosing, Go => Some (set_reader RExited (fail_pending s))
  | _, _ => None
  end.

Inductive action := Caller (i : nat) (write_ok : bool) | Reader (inp : input) | Disconnect.

Definition perform (a : action) (s : state) : option state :=
  match a with
  | Caller i write_ok => caller_step i write_ok s
  | Reader inp => reader_step inp s
  | Disconnect => Some (set_connected false s)
  end.

(** A server answers only requests it was sent. *)
Definition honest (a : action) (s : state) : Prop :=
  match a with
  | Reader (AFrame (Some resp)) => response_id resp ∈ sent s
  | _ => True
  end.

Definition step (s s' : state) : Prop := exists a, honest a s /\ perform a s = Some s'.
Definition reachable (syncs : list bool) (s : state) : Prop := rtc step (init syncs) s.

(** ** Invariant *)

(** The caller can tell how the call ended. *)
Definition outcome (c : call) : Prop :=
  RpcController.Failed (controller c) = true \/ is_Some (response c).

Definition target (r : reader_pc) : option nat :=
  match r with RFound i _ | RFlag i | RDone i => Some i | _ => None end.

(** One call against the table, the ids sent and the reader's target. *)
Definition phase_ok (pend : gmap Z nat) (ids : list Z) (rd : option nat) (i : nat) (c : call) : Prop :=
  (done_flag c = true -> outcome c) /\
  (pc c = CReturned -> is_sync c = true -> outcome c) /\
  (is_sync c = true -> done_runs c = 0%nat) /\ (done_runs c <= 1)%nat /\
  match the_id c with
  | None => rd <> Some i /\
      match pc c with
      | CCheck | CGetId => done_runs c = 0%nat
      | CReturned => True
      | _ => False
      end
  | Some id =>
      (pend !! id = Some i \/ rd = Some i -> done_runs c = 0%nat) /\
      (pend !! id = Some i -> rd <> Some i) /\
      match pc c with
      | CInsert id' => id' = id /\ pend !! id = None /\ (id ∉ ids) /\ rd <> Some i /\
          done_runs c = 0%nat
      | CWrite id' | CErase id' => id' = id /\ pend !! id = Some i /\ id ∉ ids
      | CWait id' => id' = id /\ is_sync c = true /\ id ∈ ids
      | CReturned => id ∈ ids \/ (pend !! id = None /\ rd <> Some i)
      | _ => False
      end
  end.

Definition ids_ok (next : Z) (cs : list call) : Prop :=
  next = 1 + zlen (omap the_id cs) /\
  (forall i c id, cs !! i = Some c -> the_id c = Some id -> 0 < id < next) /\
  (forall i j c d id, cs !! i = Some c -> cs !! j = Some d ->
     the_id c = Some id -> the_id d = Some id -> i = j).

Definition has_call (cs : list call) (i : nat) (P : call -> Prop) : Prop :=
  exists c, cs !! i = Some c /\ P c.

Definition responses_ok (rs : list RpcResponse) (c : call) : Prop :=
  forall data, response c = Some data ->
    exists r, r ∈ rs /\ the_id c = Some (response_id r) /\ success r = true /\ result_data r = data.

Record inv (s : state) : Prop := {
  inv_ids : ids_ok (next_request_id_ s) (calls s);
  inv_phases : forall i c, calls s !! i = Some c ->
    phase_ok (pending_calls_ s) (sent s) (target (reader s)) i c;
  inv_pending : forall id i, pending_calls_ s !! id = Some i ->
    has_call (calls s) i (fun c => the_id c = Some id);
  inv_sent : forall id, id ∈ sent s -> exists i, has_call (calls s) i (fun c => the_id c = Some id);
  inv_target : forall i, target (reader s) = Some i ->
    has_call (calls s) i (fun c => (exists id, the_id c = Some id /\ id ∈ sent s) /\
      match reader s with
      | RFound _ r => the_id c = Some (response_id r) /\ r ∈ received s
      | _ => outcome c
      end);
  inv_responses : forall i c, calls s !! i = Some c -> responses_ok (received s) c;
}.

(** *** What the invariant of one call depends on *)

Lemma phase_ok_frame pend pend' ids ids' rd rd' i c :
  (forall id, the_id c = Some id ->
     (pend' !! id = Some i <-> pend !! id = Some i) /\ (pend' !! id = None <-> pend !! id = None) /\
     (id ∈ ids' <-> id ∈ ids)) ->
  (rd' = Some i <-> rd = Some i) ->
  phase_ok pend ids rd i c -> phase_ok pend' ids' rd' i c.
Proof.
  unfold phase_ok. intros Hf Hrd (H1 & H2 & H3 & H4 & H5). split_and!; [done..|].
  destruct (the_id c) as [id|]; [|destruct H5 as [H5 H6]; split; [by rewrite Hrd|done]].
  destruct (Hf id eq_refl) as (Hp & Hn & Hids). destruct H5 as (H5 & H6 & H7).
  split_and!; [naive_solver..|]. destruct (pc c); naive_solver.
Qed.

(** Storing an outcome and setting the flag change nothing else. *)
Lemma phase_ok_outcome pend ids rd i c c' :
  is_sync c' = is_sync c -> pc c' = pc c -> done_runs c' = done_runs c -> the_id c' = the_id c ->
  (done_flag c' = true -> outcome c') -> (outcome c -> outcome c') ->
  phase_ok pend ids rd i c -> phase_ok pend ids rd i c'.
Proof.
  unfold phase_ok. intros -> -> -> -> Hd Ho (H1 & H2 & H3 & H4 & H5). split_and!; auto.
Qed.

Lemma set_failed_outcome reason c : outcome (set_failed reason c).
Proof. by left. Qed.
Lemma parse_response_outcome data c : outcome (parse_response data c).
Proof. right. by eexists. Qed.

(** A call that fails before its frame is out returns with its outcome, its
    [done] run once. *)
Lemma phase_ok_failed pend ids rd i c reason :
  done_runs c = 0%nat -> rd <> Some i ->
  (forall id, the_id c = Some id -> pend !! id = None) ->
  phase_ok pend ids rd i (set_pc CReturned (run_done (set_failed reason c))).
Proof.
  intros Hd Hrd Hid. unfold phase_ok. simpl. rewrite Hd.
  assert (outcome (set_pc CReturned (run_done (set_failed reason c)))) as Ho by by left.
  split_and!; [done..|by intros ->|by destruct (is_sync c); lia|].
  destruct (the_id c) as [id|]; [|done]. rewrite (Hid id eq_refl). naive_solver.
Qed.

(** *** Ids *)

Lemma ids_ok_same next cs i c c' :
  cs !! i = Some c -> the_id c' = the_id c -> ids_ok next cs -> ids_ok next (<[i := c']> cs).
Proof.
  intros Hc Hid (Hn & Hb & Hu).
  assert (forall j d, <[i := c']> cs !! j = Some d -> exists d', cs !! j = Some d' /\ the_id d = the_id d')
    as Hback.
  { intros j d Hd. apply list_lookup_insert_Some in Hd as [(<- & <- & _)|[_ Hd]]; eauto. }
  split_and!.
  - rewrite Hn. do 2 f_equal. clear -Hc Hid. revert i Hc.
    induction cs as [|d cs IH]; intros [|i] Hc; simpl in *; simplify_eq; [by rewrite Hid|].
    specialize (IH i Hc). destruct (the_id d); [exact (f_equal (cons _) IH)|exact IH].
  - intros j d id Hd. destruct (Hback j d Hd) as (d' & Hd' & ->). by apply (Hb j d').
  - intros j k d e id Hd He. destruct (Hback j d Hd) as (d' & Hd' & ->).
    destruct (Hback k e He) as (e' & He' & ->). by apply (Hu j k d' e').
Qed.

Lemma omap_ids_fresh cs i c id :
  cs !! i = Some c -> the_id c = None ->
  zlen (omap the_id (<[i := set_id id c]> cs)) = 1 + zlen (omap the_id cs).
Proof.
  intros Hc Hid. revert i Hc. induction cs as [|d cs IH]; intros [|i] Hc; simpl in *; simplify_eq.
  - rewrite Hid. by rewrite zlen_cons.
  - specialize (IH i Hc). destruct (the_id d); [|exact IH].
    rewrite !zlen_cons.
    by apply (f_equal (Z.add 1)) in IH.
Qed.

Lemma ids_ok_fresh next cs i c p :
  cs !! i = Some c -> the_id c = None -> ids_ok next cs ->
  ids_ok (next + 1) (<[i := set_pc p (set_id next c)]> cs).
Proof.
  intros Hc Hid (Hn & Hb & Hu).
  assert (the_id (set_pc p (set_id next c)) = the_id (set_id next c)) as Hsame by done.
  rewrite <- (list_insert_insert_eq cs i (set_pc p (set_id next c)) (set_id next c)).
  eapply ids_ok_same; [by apply list_lookup_insert_eq, lookup_lt_is_Some_1; eexists|done|].
  pose proof (zlen_nonneg (omap the_id cs)). split_and!.
  - rewrite (omap_ids_fresh cs i c) by done. lia.
  - intros j d id Hd Heq. apply list_lookup_insert_Some in Hd as [(<- & <- & _)|[_ Hd]].
    + injection Heq as <-. lia.
    + specialize (Hb j d id Hd Heq). lia.
  - intros j k d e id Hd He Hdi Hei.
    apply list_lookup_insert_Some in Hd as [(<- & <- & _)|[Hj Hd]];
      apply list_lookup_insert_Some in He as [(<- & <- & _)|[Hk He]]; [done|..|by eapply Hu].
    + injection Hdi as <-. specialize (Hb k e next He Hei). lia.
    + injection Hei as <-. specialize (Hb j d next Hd Hdi). lia.
Qed.

(** *** Updating one call *)

Lemma insert_here (cs : list call) i c c' : cs !! i = Some c -> <[i := c']> cs !! i = Some c'.
Proof. intros Hc. apply list_lookup_insert_eq, lookup_lt_is_Some_1. by eexists. Qed.

Lemma has_call_update cs i c c' j (P : call -> Prop) :
  cs !! i = Some c -> (j = i -> P c -> P c') -> has_call cs j P -> has_call (<[i := c']> cs) j P.
Proof.
  intros Hc HP (d & Hd & Hp). destruct (decide (j = i)) as [->|Hne].
  - simplify_eq. exists c'. split; [by eapply insert_here|by apply HP].
  - exists d. by rewrite list_lookup_insert_ne.
Qed.

Section update.
Variables (s s' : state) (i : nat) (c c' : call).
Hypothesis Hinv : inv s.
Hypothesis Hc : calls s !! i = Some c.
Hypothesis Hcalls : calls s' = <[i := c']> (calls s).
Hypothesis Hids : ids_ok (next_request_id_ s') (calls s').
Hypothesis Hkeep : the_id c' = the_id c \/ the_id c = None.
Hypothesis Hphase : phase_ok (pending_calls_ s') (sent s') (target (reader s')) i c'.
Hypothesis Hothers : forall id, the_id c' <> Some id ->
  pending_calls_ s' !! id = pending_calls_ s !! id /\ (id ∈ sent s' <-> id ∈ sent s).
Hypothesis Hpend : forall id j, pending_calls_ s' !! id = Some j ->
  pending_calls_ s !! id = Some j \/ j = i /\ the_id c' = Some id.
Hypothesis Hsent : forall id, id ∈ sent s' -> id ∈ sent s \/ the_id c' = Some id.
Hypothesis Hgrows : forall id, id ∈ sent s -> id ∈ sent s'.
Hypothesis Htarget : forall j, j <> i -> target (reader s') = Some j <-> target (reader s) = Some j.
Hypothesis Hrecv : forall r, r ∈ received s -> r ∈ received s'.

Lemma update_id id : the_id c = Some id -> the_id c' = Some id.
Proof using Hkeep. destruct Hkeep as [->|Hn]; [done|]. by rewrite Hn. Qed.

Lemma update_here : calls s' !! i = Some c'.
Proof using Hc Hcalls. rewrite Hcalls. by eapply insert_here. Qed.

Lemma inv_update :
  (forall j, target (reader s') = Some j ->
    has_call (calls s') j (fun c => (exists id, the_id c = Some id /\ id ∈ sent s') /\
      match reader s' with
      | RFound _ r => the_id c = Some (response_id r) /\ r ∈ received s'
      | _ => outcome c
      end)) ->
  responses_ok (received s') c' -> inv s'.
Proof.
  intros Htgt Hresp. split; [done|..|done|].
  - intros j d Hd. destruct (decide (j = i)) as [->|Hne].
    { pose proof update_here. by simplify_eq. }
    pose proof Hd as Hd'. rewrite Hcalls, list_lookup_insert_ne in Hd' by done.
    eapply phase_ok_frame; [| |by apply (inv_phases s Hinv)]; [|by apply Htarget].
    intros id Hid. destruct (Hothers id) as [-> ->]; [|done].
    intros Hid'. apply Hne. destruct Hids as (_ & _ & Hu). by apply (Hu j i d c' id); [|apply update_here|..].
  - intros id j Hp. destruct (Hpend id j Hp) as [Hp'|[-> Hid]]; [|by exists c'; rewrite update_here].
    rewrite Hcalls. eapply has_call_update; [done| |by apply (inv_pending s Hinv)].
    intros _. apply update_id.
  - intros id Hin. destruct (Hsent id Hin) as [Hin'|Hid]; [|by exists i, c'; rewrite update_here].
    destruct (inv_sent s Hinv id Hin') as [j Hj]. exists j. rewrite Hcalls.
    eapply has_call_update; [done| |done]. intros _. apply update_id.
  - intros j d Hd. destruct (decide (j = i)) as [->|Hne].
    { pose proof update_here. by simplify_eq. }
    rewrite Hcalls, list_lookup_insert_ne in Hd by done. intros data Hdata.
    destruct (inv_responses s Hinv j d Hd data Hdata) as (r & Hr & ?). exists r. eauto.
Qed.

(** A caller's step: the reader does not move. *)
Lemma inv_caller :
  reader s' = reader s -> received s' = received s -> response c' = response c ->
  (outcome c -> outcome c') -> inv s'.
Proof.
  intros Hr Hrecv' Hres Hout. apply inv_update.
  - intros j Hj. rewrite Hr in Hj |- *. rewrite Hcalls. rewrite Hrecv'.
    eapply has_call_update; [done| |].
    + intros -> [(id & Hid & Hin) Hm]. split; [exists id; split; [by apply update_id|]|].
      * exact Hin.
      * destruct (reader s); auto. destruct Hm as [Hm ?]. split; [by apply update_id|done].
    + destruct (inv_target s Hinv j Hj) as (d & Hd & (id & Hid & Hin) & Hm). exists d. split; [done|].
      split; [|done]. exists id. auto.
  - intros data Hdata. rewrite Hres in Hdata. rewrite Hrecv'.
    destruct (inv_responses s Hinv i c Hc data Hdata) as (r & Hin & Hid & ?). exists r.
    split_and!; [done|by apply update_id|naive_solver..].
Qed.
End update.

Lemma omap_ids_lt cs i c :
  cs !! i = Some c -> the_id c = None -> zlen (omap the_id cs) < zlen cs.
Proof.
  intros Hc Hid. pose proof (omap_ids_fresh cs i c 0 Hc Hid) as Hf.
  assert (forall l : list call, zlen (omap the_id l) <= zlen l) as Hle.
  { induction l as [|d l IH]; [done|]. simpl. destruct (the_id d); rewrite !zlen_cons.
    - by apply Z.add_le_mono_l.
    - etrans; [exact IH|]. lia. }
  specialize (Hle (<[i := set_id 0 c]> cs)). rewrite Hf in Hle. unfold zlen in *.
  rewrite length_insert in Hle. lia.
Qed.

Lemma fresh_id s id :
  inv s -> next_request_id_ s <= id -> pending_calls_ s !! id = None /\ (id ∉ sent s).
Proof.
  intros Hinv Hle. destruct (inv_ids s Hinv) as (_ & Hb & _). split.
  - destruct (pending_calls_ s !! id) as [j|] eqn:Hp; [|done].
    destruct (inv_pending s Hinv id j Hp) as (c & Hc & Hid). specialize (Hb j c id Hc Hid). lia.
  - intros Hin. destruct (inv_sent s Hinv id Hin) as (j & c & Hc & Hid).
    specialize (Hb j c id Hc Hid). lia.
Qed.

Lemma caller_inv i write_ok s s' :
  inv s -> zlen (calls s) < 2 ^ 32 - 1 -> caller_step i write_ok s = Some s' -> inv s'.
Proof.
  intros Hinv Hlen Hstep. unfold caller_step in Hstep.
  destruct (calls s !! i) as [c|] eqn:Hc; [|done].
  pose proof (inv_phases s Hinv i c Hc) as Hph. pose proof (inv_ids s Hinv) as Hids.
  pose proof Hph as (H1 & H2 & H3 & H4 & H5).
  destruct (pc c) as [| |id|id|id|id|] eqn:Hpc; try done.
  - destruct (the_id c) as [|] eqn:Hid; [naive_solver|]. destruct (connected_ s); simplify_eq.
    + eapply (inv_caller s _ i c); try done; simpl; eauto using ids_ok_same.
      unfold phase_ok. simpl. rewrite Hid. naive_solver.
    + eapply (inv_caller s _ i c); try done; simpl; eauto using ids_ok_same.
      * apply phase_ok_failed; naive_solver.
      * by left.
  - destruct (the_id c) as [|] eqn:Hid; [naive_solver|]. simplify_eq.
    pose proof (omap_ids_lt _ _ _ Hc Hid) as Hlt. pose proof (zlen_nonneg (omap the_id (calls s))).
    assert (u32 (next_request_id_ s + 1) = next_request_id_ s + 1) as Hw.
    { apply u32_small. destruct Hids as [-> _]. lia. }
    eapply (inv_caller s _ i c); try done; simpl; rewrite ?Hw; eauto using ids_ok_fresh.
    destruct (fresh_id s (next_request_id_ s) Hinv (Z.le_refl _)) as [Hfp Hfs].
    unfold phase_ok. simpl. rewrite Hfp. naive_solver.
  - destruct (the_id c) as [id'|] eqn:Hid; [|naive_solver]. simplify_eq.
    eapply (inv_caller s _ i c); try done; simpl; eauto using ids_ok_same.
    + unfold phase_ok. simpl. rewrite Hid. destruct H5 as (H5 & H6 & -> & H7 & H8 & H9 & H10).
      rewrite lookup_insert_eq. naive_solver.
    + intros k Hk. rewrite lookup_insert_ne by naive_solver. done.
    + intros k j Hk. apply lookup_insert_Some in Hk as [[<- <-]|[? Hk]]; naive_solver.
  - destruct (the_id c) as [id'|] eqn:Hid; [|naive_solver]. destruct write_ok; simplify_eq.
    + eapply (inv_caller s _ i c); try done; simpl; eauto using ids_ok_same.
      * unfold phase_ok. simpl. rewrite Hid. destruct H5 as (H5 & H6 & -> & H7 & H8).
        assert (id' ∈ sent s ++ [id']) by set_solver. destruct (is_sync c); naive_solver.
      * intros k Hk. rewrite elem_of_app, list_elem_of_singleton. naive_solver.
      * intros k. rewrite elem_of_app, list_elem_of_singleton. naive_solver.
      * intros k. rewrite elem_of_app. by left.
    + eapply (inv_caller s _ i c); try done; simpl; eauto using ids_ok_same.
      unfold phase_ok. simpl. rewrite Hid. naive_solver.
  - destruct (the_id c) as [id'|] eqn:Hid; [|naive_solver]. simplify_eq.
    eapply (inv_caller s _ i c); try done; simpl; eauto using ids_ok_same.
    + apply phase_ok_failed; [naive_solver..|].
      intros k Hk. rewrite Hid in Hk. destruct H5 as (_ & _ & -> & _). simplify_eq.
      apply lookup_delete_eq.
    + intros k Hk. rewrite lookup_delete_ne by naive_solver. done.
    + intros k j Hk. apply lookup_delete_Some in Hk as [_ Hk]. by left.
    + by left.
  - destruct (the_id c) as [id'|] eqn:Hid; [|naive_solver]. destruct (done_flag c) eqn:Hd; simplify_eq.
    eapply (inv_caller s _ i c); try done; simpl; eauto using ids_ok_same.
    unfold phase_ok. simpl. rewrite Hid. naive_solver.
Qed.

(** *** The reader's steps *)

Lemma inv_quiet s s' :
  inv s -> next_request_id_ s' = next_request_id_ s -> calls s' = calls s ->
  pending_calls_ s' = pending_calls_ s -> sent s' = sent s ->
  (forall r, r ∈ received s -> r ∈ received s') ->
  target (reader s) = None -> target (reader s') = None -> inv s'.
Proof.
  intros Hinv Hn Hc Hp Hs Hr Ht Ht'. split; rewrite ?Hn, ?Hc, ?Hp, ?Hs.
  - apply Hinv.
  - intros i c Hi. rewrite Ht', <- Ht. by apply Hinv.
  - apply Hinv.
  - apply Hinv.
  - rewrite Ht'. done.
  - intros i c Hi data Hd. destruct (inv_responses s Hinv i c Hi data Hd) as (r & ? & ?).
    exists r. eauto.
Qed.

Lemma take_inv s resp i :
  inv s -> reader s = RFrames -> response_id resp ∈ sent s ->
  pending_calls_ s !! response_id resp = Some i ->
  inv (set_reader (RFound i resp)
    (set_pending (delete (response_id resp) (pending_calls_ s)) (add_received resp s))).
Proof.
  intros Hinv Hr Hsent Hp. destruct (inv_pending s Hinv _ _ Hp) as (c & Hc & Hid).
  pose proof (inv_phases s Hinv i c Hc) as (H1 & H2 & H3 & H4 & H5). rewrite Hid in H5.
  rewrite Hr in H5. simpl in H5.
  eapply (inv_update s _ i c c); try done; simpl.
  - by rewrite list_insert_id.
  - apply Hinv.
  - by left.
  - unfold phase_ok. simpl. rewrite Hid, lookup_delete_eq. split_and!; [done..|naive_solver|done|].
    destruct (pc c); naive_solver.
  - intros k Hk. rewrite lookup_delete_ne by naive_solver. done.
  - intros k j Hk. apply lookup_delete_Some in Hk as [_ Hk]. by left.
  - by left.
  - rewrite Hr. simpl. naive_solver.
  - intros r Hin. apply elem_of_app. by left.
  - intros j [= <-]. exists c. split_and!; [done|by eexists|done|]. set_solver.
  - intros data Hd. destruct (inv_responses s Hinv i c Hc data Hd) as (r & Hin & ?).
    exists r. split; [|done]. apply elem_of_app. by left.
Qed.

(** The steps on a call that the reader has taken out. *)
Lemma found_inv s i resp c :
  inv s -> reader s = RFound i resp -> calls s !! i = Some c ->
  inv (set_reader (RFlag i) (set_call i
    (if success resp then parse_response (result_data resp) c
     else set_failed (error_msg resp) c) s)).
Proof.
  intros Hinv Hr Hc. pose proof (inv_phases s Hinv i c Hc) as Hph.
  destruct (inv_target s Hinv i) as (d & Hd & Hsent & Hm); [by rewrite Hr|]. rewrite Hr in Hm, Hph.
  simplify_eq. destruct Hm as [Hid Hin].
  set (c' := if success resp then _ else _).
  assert (the_id c' = the_id c) as Hid' by by unfold c'; destruct (success resp).
  assert (outcome c') as Ho by (unfold c'; destruct (success resp); [right; by eexists|by left]).
  eapply (inv_update s _ i c c'); try done; simpl; eauto.
  - eapply ids_ok_same; [done..|]. apply Hinv.
  - eapply phase_ok_outcome; [..|exact Hph]; [by unfold c'; destruct (success resp)..|by intros _|by intros _].
  - by rewrite Hr.
  - intros j [= <-]. exists c'. split_and!; [by eapply insert_here|by rewrite Hid'|done].
  - intros data. unfold c'. destruct (success resp) eqn:Hok; simpl.
    + intros [= <-]. by exists resp.
    + apply (inv_responses s Hinv i c Hc).
Qed.

Lemma flag_inv s i c :
  inv s -> reader s = RFlag i -> calls s !! i = Some c ->
  inv (set_reader (RDone i) (set_call i (set_done_flag c) s)).
Proof.
  intros Hinv Hr Hc. pose proof (inv_phases s Hinv i c Hc) as Hph.
  destruct (inv_target s Hinv i) as (d & Hd & Hsent & Ho); [by rewrite Hr|]. rewrite Hr in Ho, Hph.
  simplify_eq. eapply (inv_update s _ i c (set_done_flag c)); try done; simpl; eauto.
  - eapply ids_ok_same; [done..|]. apply Hinv.
  - eapply phase_ok_outcome; [..|exact Hph]; try done.
  - by rewrite Hr.
  - intros j [= <-]. exists (set_done_flag c). split; [by eapply insert_here|done].
  - apply (inv_responses s Hinv i c Hc).
Qed.

Lemma done_inv s i c :
  inv s -> reader s = RDone i -> calls s !! i = Some c ->
  inv (set_reader RFrames (set_call i (run_done c) s)).
Proof.
  intros Hinv Hr Hc. pose proof (inv_phases s Hinv i c Hc) as (H1 & H2 & H3 & H4 & H5).
  destruct (inv_target s Hinv i) as (d & Hd & (id & Hid & Hsent) & Ho); [by rewrite Hr|].
  rewrite Hr in Ho, H5. simplify_eq. rewrite Hid in H5. simpl in H5.
  destruct H5 as (H5 & H6 & H7). assert (done_runs c = 0%nat) as H0 by by apply H5; right.
  assert (pending_calls_ s !! id <> Some i) as Hp by by intros Hp; apply H6.
  eapply (inv_update s _ i c (run_done c)); try done; simpl; eauto.
  - eapply ids_ok_same; [done..|]. apply Hinv.
  - unfold phase_ok. simpl. rewrite Hid, H0. split_and!; [done..|by intros ->|by destruct (is_sync c); lia|naive_solver|done|].
    destruct (pc c); naive_solver.
  - rewrite Hr. simpl. naive_solver.
  - apply (inv_responses s Hinv i c Hc).
Qed.

(** *** Failing every pending call *)

Lemma omap_imap_ids (f : nat -> call -> call) cs :
  (forall i c, the_id (f i c) = the_id c) -> omap the_id (imap f cs) = omap the_id cs.
Proof.
  revert f. induction cs as [|c cs IH]; intros f Hf; [done|].
  specialize (IH (f ∘ S) (fun i => Hf (S i))). rewrite imap_cons. simpl. rewrite Hf.
  destruct (the_id c); [exact (f_equal (cons _) IH)|exact IH].
Qed.

Lemma fail_pending_inv s :
  inv s -> reader s = RClosing -> inv (set_reader RExited (fail_pending s)).
Proof.
  intros Hinv Hr.
  assert (forall i c', calls (fail_pending s) !! i = Some c' ->
    exists c, calls s !! i = Some c /\
      (c' = c \/ c' = set_done_flag (set_failed "connection closed" c))) as Hback.
  { intros i c'. simpl. rewrite list_lookup_imap. destruct (calls s !! i) as [c|]; [|done].
    simpl. intros [= <-]. exists c. case_bool_decide; auto. }
  assert (forall i P, (forall c, P c -> P (set_done_flag (set_failed "connection closed" c))) ->
    has_call (calls s) i P -> has_call (calls (fail_pending s)) i P) as Hfwd.
  { intros i P HP (c & Hc & Hp). simpl. unfold has_call. rewrite list_lookup_imap, Hc. simpl.
    eexists. split; [done|]. case_bool_decide; auto. }
  split; simpl.
  - destruct (inv_ids s Hinv) as (Hn & Hb & Hu). split_and!.
    + rewrite Hn, omap_imap_ids; [done|]. intros i c. by case_bool_decide.
    + intros i c id Hi Hid. destruct (Hback i c Hi) as (d & Hd & [->| ->]); eauto.
    + intros i j c d id Hi Hj Hic Hjd. destruct (Hback i c Hi) as (c0 & Hc0 & Hc).
      destruct (Hback j d Hj) as (d0 & Hd0 & Hd).
      apply (Hu i j c0 d0 id); [done..| |]; naive_solver.
  - intros i c' Hc'. destruct (Hback i c' Hc') as (c & Hc & Hor).
    pose proof (inv_phases s Hinv i c Hc) as Hph. rewrite Hr in Hph.
    destruct Hor as [->| ->]; [done|].
    eapply phase_ok_outcome; [..|exact Hph]; try done; by left.
  - intros id i Hp. apply Hfwd; [done|]. by apply Hinv.
  - intros id Hin. destruct (inv_sent s Hinv id Hin) as [i Hi]. exists i. by apply Hfwd.
  - done.
  - intros i c' Hc'. destruct (Hback i c' Hc') as (c & Hc & [->| ->]);
      apply (inv_responses s Hinv i c Hc).
Qed.

Lemma reader_inv inp s s' :
  inv s -> honest (Reader inp) s -> reader_step inp s = Some s' -> inv s'.
Proof.
  intros Hinv Hh Hstep. unfold reader_step in Hstep.
  destruct inp as [| |[resp|]| | |], (reader s) eqn:Hr; simplify_eq;
    try done; try (eapply inv_quiet; [done..|by rewrite Hr|done]).
  - simpl in Hh. unfold take_call. cbn [pending_calls_ add_received].
    destruct (pending_calls_ s !! response_id resp) as [i|] eqn:Hp.
    + by apply take_inv.
    + eapply inv_quiet; [done..| |by rewrite Hr|by simpl; rewrite Hr].
      intros r Hin. apply elem_of_app. by left.
  - eapply inv_quiet; [done..|by rewrite Hr|]. simpl. by destruct (connected_ s).
  - destruct (calls s !! i) as [c|] eqn:Hc; simplify_eq. by apply found_inv.
  - destruct (calls s !! i) as [c|] eqn:Hc; simplify_eq. by apply flag_inv.
  - destruct (calls s !! i) as [c|] eqn:Hc; simplify_eq. by apply done_inv.
  - by apply fail_pending_inv.
Qed.

(** *** The invariant holds in every reachable state *)

Lemma init_inv syncs : inv (init syncs).
Proof.
  assert (forall i c, calls (init syncs) !! i = Some c -> exists b, c = new_call b) as Hnew.
  { intros i c. simpl. rewrite list_lookup_fmap. destruct (syncs !! i) as [b|]; [|done].
    intros [= <-]. by exists b. }
  split.
  - split_and!.
    + simpl. assert (omap the_id (new_call <$> syncs) = []) as Hnil by (clear; by induction syncs).
      by rewrite Hnil.
    + intros i c id Hc Hid. by destruct (Hnew i c Hc) as [b ->].
    + intros i j c d id Hc _ Hid. by destruct (Hnew i c Hc) as [b ->].
  - intros i c Hc. destruct (Hnew i c Hc) as [b ->]. unfold phase_ok. simpl. split_and!; done || lia.
  - intros id i. simpl. by rewrite lookup_empty.
  - intros id Hin. by apply not_elem_of_nil in Hin.
  - done.
  - intros i c Hc data. by destruct (Hnew i c Hc) as [b ->].
Qed.

Lemma perform_length a s s' : perform a s = Some s' -> zlen (calls s') = zlen (calls s).
Proof.
  destruct a as [i ok|inp|]; simpl; unfold caller_step, reader_step, take_call; intros Hs; unfold zlen;
    simplify_eq; repeat (case_match; simplify_eq); simpl; rewrite ?length_insert, ?length_imap; done.
Qed.

(** Who is synchronous does not change. *)
Lemma insert_sync i c c' (cs : list call) :
  cs !! i = Some c -> is_sync c' = is_sync c -> is_sync <$> <[i := c']> cs = is_sync <$> cs.
Proof.
  intros Hc Hs. rewrite list_fmap_insert, Hs, list_insert_id; [done|]. by rewrite list_lookup_fmap, Hc.
Qed.

Lemma perform_syncs a s s' : perform a s = Some s' -> is_sync <$> calls s' = is_sync <$> calls s.
Proof.
  destruct a as [i ok|inp|]; simpl; unfold caller_step, reader_step, take_call; intros Hs;
    simplify_eq; repeat (case_match; simplify_eq); simpl; try done; try (by eapply insert_sync).
  rewrite fmap_imap. unfold compose. apply list_eq. intros i. rewrite list_lookup_imap, list_lookup_fmap.
  destruct (calls s !! i); [|done]. simpl. by case_bool_decide.
Qed.

Lemma calls_reachable_inv syncs s :
  zlen syncs < 2 ^ 32 - 1 -> reachable syncs s -> inv s /\ zlen (calls s) = zlen syncs.
Proof.
  intros Hlen. revert s. refine (rtc_ind_r _ _ _ _).
  - split; [apply init_inv|]. simpl. unfold zlen. by rewrite length_fmap.
  - intros s s' _ (a & Hh & Ha) [Hinv Hz].
    pose proof (perform_length a s s' Ha) as Hl. split; [|lia].
    destruct a as [i ok|inp|]; simpl in Ha.
    + eapply caller_inv; [done|lia|done].
    + by eapply reader_inv.
    + simplify_eq. by destruct Hinv.
Qed.

(** C14. Multiplexing is safe.  Whatever the callers, the reader, an honest
    server and [disconnect] do, in any interleaving, for fewer than 2^32 - 1
    calls: no two calls share a request id; a [done] runs at most once; a
    synchronous [CallMethod] returns only with a failed controller or a parsed
    response; and what is parsed into a call's response object is the payload
    of a received response with that call's own id. *)
Theorem calls_never_mixed_up syncs s i c (Hlen : zlen syncs < 2 ^ 32 - 1)
    (Hr : reachable syncs s) (Hc : calls s !! i = Some c) :
  (forall j d id, calls s !! j = Some d -> the_id c = Some id -> the_id d = Some id -> i = j) /\
  (done_runs c <= (if is_sync c then 0 else 1))%nat /\
  (pc c = CReturned -> is_sync c = true -> outcome c) /\
  (forall data, response c = Some data -> exists r, r ∈ received s /\
     the_id c = Some (response_id r) /\ success r = true /\ result_data r = data).
Proof.
  destruct (calls_reachable_inv syncs s Hlen Hr) as [Hinv _].
  pose proof (inv_phases s Hinv i c Hc) as (H1 & H2 & H3 & H4 & _). split_and!.
  - intros j d id Hd. destruct (inv_ids s Hinv) as (_ & _ & Hu). by apply (Hu i j c d).
  - destruct (is_sync c); [rewrite H3; done|done].
  - done.
  - by apply (inv_responses s Hinv i c).
Qed.

(** ** A response completes its call *)

Fixpoint run (l : list action) (s : state) : option state :=
  match l with
  | [] => Some s
  | a :: l' => s' ← perform a s; run l' s'
  end.

Lemma run_cons a l s s1 : perform a s = Some s1 -> run (a :: l) s = run l s1.
Proof. intros Ha. simpl. by rewrite Ha. Qed.

(** A step of the reader that changes call [i] to [c'] and moves on to [r]. *)
Definition moves (s s' : state) (r : reader_pc) (i : nat) (c' : call) : Prop :=
  reader s' = r /\ calls s' = <[i := c']> (calls s) /\ pending_calls_ s' = pending_calls_ s /\
  sent s' = sent s /\ connected_ s' = connected_ s.

Lemma perform_frame s resp i :
  reader s = RFrames -> pending_calls_ s !! response_id resp = Some i ->
  exists s', perform (Reader (AFrame (Some resp))) s = Some s' /\ reader s' = RFound i resp /\
    calls s' = calls s /\ pending_calls_ s' = delete (response_id resp) (pending_calls_ s) /\
    sent s' = sent s /\ connected_ s' = connected_ s.
Proof.
  intros Hr Hp. unfold perform, reader_step, take_call. rewrite Hr. cbn [pending_calls_ add_received].
  rewrite Hp. by eexists.
Qed.

Lemma perform_found s i resp c :
  reader s = RFound i resp -> calls s !! i = Some c ->
  exists s', perform (Reader Go) s = Some s' /\ moves s s' (RFlag i) i
    (if success resp then parse_response (result_data resp) c else set_failed (error_msg resp) c).
Proof. intros Hr Hc. unfold perform, reader_step. rewrite Hr, Hc. by eexists. Qed.

Lemma perform_flag s i c :
  reader s = RFlag i -> calls s !! i = Some c ->
  exists s', perform (Reader Go) s = Some s' /\ moves s s' (RDone i) i (set_done_flag c).
Proof. intros Hr Hc. unfold perform, reader_step. rewrite Hr, Hc. by eexists. Qed.

Lemma perform_done s i c :
  reader s = RDone i -> calls s !! i = Some c ->
  exists s', perform (Reader Go) s = Some s' /\ moves s s' RFrames i (run_done c).
Proof. intros Hr Hc. unfold perform, reader_step. rewrite Hr, Hc. by eexists. Qed.

Lemma perform_return s i id c ok :
  calls s !! i = Some c -> pc c = CWait id -> done_flag c = true ->
  perform (Caller i ok) s = Some (set_call i (set_pc CReturned c) s).
Proof. intros Hc Hpc Hd. unfold perform, caller_step. by rewrite Hc, Hpc, Hd. Qed.

(** What [on_message] leaves of a call. *)
Definition completed (resp : RpcResponse) (c : call) : call :=
  run_done (set_done_flag
    (if success resp then parse_response (result_data resp) c else set_failed (error_msg resp) c)).

(** A response completes exactly its own call: the frame and the three
    steps of [on_message] after it take the call out of the table, store the
    result or the error, raise the flag and run [done]; no other call and no
    other entry changes; a synchronous caller that waits can then return. *)
Theorem response_completes_its_call s resp i c (Hrd : reader s = RFrames)
    (Hp : pending_calls_ s !! response_id resp = Some i) (Hc : calls s !! i = Some c) :
  exists s', run [Reader (AFrame (Some resp)); Reader Go; Reader Go; Reader Go] s = Some s' /\
    pending_calls_ s' = delete (response_id resp) (pending_calls_ s) /\
    calls s' = <[i := completed resp c]> (calls s) /\ reader s' = RFrames /\
    sent s' = sent s /\ connected_ s' = connected_ s /\
    (forall id, pc c = CWait id -> exists s'', perform (Caller i true) s' = Some s'' /\
       calls s'' !! i = Some (set_pc CReturned (completed resp c))).
Proof.
  destruct (perform_frame s resp i Hrd Hp) as (s1 & H1 & Hr1 & Hc1 & Hp1 & Hs1 & Hn1).
  rewrite <- Hc1 in Hc.
  destruct (perform_found s1 i resp c Hr1 Hc) as (s2 & H2 & Hr2 & Hc2 & Hp2 & Hs2 & Hn2).
  edestruct (perform_flag s2 i) as (s3 & H3 & Hr3 & Hc3 & Hp3 & Hs3 & Hn3);
    [done|rewrite Hc2; by eapply insert_here|].
  edestruct (perform_done s3 i) as (s4 & H4 & Hr4 & Hc4 & Hp4 & Hs4 & Hn4);
    [done|rewrite Hc3, Hc2, list_insert_insert_eq; by eapply insert_here|].
  rewrite Hc3, Hc2, Hc1, !list_insert_insert_eq in Hc4. rewrite Hc1 in Hc.
  change (calls s4 = <[i := completed resp c]> (calls s)) in Hc4.
  exists s4. rewrite (run_cons _ _ _ _ H1), (run_cons _ _ _ _ H2), (run_cons _ _ _ _ H3), (run_cons _ _ _ _ H4).
  split_and!; try done; try congruence.
  intros id Hpc. pose proof (insert_here _ _ _ (completed resp c) Hc) as Hhere.
  rewrite <- Hc4 in Hhere. eexists. split.
  - apply (perform_return _ _ id _ _ Hhere); unfold completed; by destruct (success resp).
  - simpl. by eapply insert_here.
Qed.

(** ** Calls that nobody will complete *)

(** The reader thread has ended, and the caller still waits, or its [done] has
    not run. *)
Definition stranded (s : state) (i : nat) : Prop :=
  reader s = RExited /\
  has_call (calls s) i (fun c =>
    if is_sync c then (exists id, pc c = CWait id) /\ done_flag c = false
    else pc c = CReturned /\ done_runs c = 0%nat).

Lemma stranded_step s s' i : stranded s i -> step s s' -> stranded s' i.
Proof.
  intros [Hr (c & Hc & Hst)] (a & _ & Ha). destruct a as [j ok|inp|]; simpl in Ha; simplify_eq.
  - destruct (decide (j = i)) as [->|Hne].
    + exfalso. unfold caller_step in Ha. rewrite Hc in Ha. destruct (is_sync c).
      * destruct Hst as [[id Hpc] Hd]. by rewrite Hpc, Hd in Ha.
      * destruct Hst as [Hpc _]. by rewrite Hpc in Ha.
    + unfold caller_step in Ha. split; [by repeat case_match; simplify_eq|].
      exists c. split; [|done].
      repeat case_match; simplify_eq; simpl; by rewrite list_lookup_insert_ne.
  - unfold reader_step in Ha. rewrite Hr in Ha. by destruct inp.
  - split; [done|]. by exists c.
Qed.

(** The steps up to the wait, or the return of an asynchronous call. *)
Definition whole_call (i : nat) : list action := replicate 4 (Caller i true).

(** The end of the stream between the check and the insertion. *)
Definition late_insert : list action :=
  Caller 0 true :: [Reader Go; Reader Eof; Reader Go] ++ replicate 3 (Caller 0 true).
(** A broken stream. *)
Definition broken_stream : list action :=
  whole_call 0 ++ [Reader Go; Reader Data; Reader BadMagic].
(** [disconnect] while the reader is between two reads. *)
Definition disconnected : list action := whole_call 0 ++ [Disconnect; Reader Go].
(** The end of the stream. *)
Definition closed_stream : list action := whole_call 0 ++ [Reader Go; Reader Eof; Reader Go].

Lemma calls_run_reachable l syncs s :
  Forall (fun a => forall resp, a <> Reader (AFrame (Some resp))) l ->
  run l (init syncs) = Some s -> reachable syncs s.
Proof.
  unfold reachable. generalize (init syncs). induction l as [|a l IH]; intros s0 Hl Hrun; simpl in Hrun.
  { by simplify_eq. }
  apply Forall_cons in Hl as [Ha Hl]. destruct (perform a s0) as [s1|] eqn:Hp; [|done].
  eapply rtc_l; [|by apply IH]. exists a. split; [|done].
  destruct a as [| [| |[resp|]| | |] |]; try done. by destruct (Ha resp).
Qed.

Definition is_wait (p : caller_pc) : bool := match p with CWait _ => true | _ => false end.
Definition is_returned (p : caller_pc) : bool := match p with CReturned => true | _ => false end.
Definition is_exited (r : reader_pc) : bool := match r with RExited => true | _ => false end.

Definition strandedb (s : state) (i : nat) : bool :=
  is_exited (reader s) &&
  match calls s !! i with
  | Some c => if is_sync c then is_wait (pc c) && negb (done_flag c)
              else is_returned (pc c) && (done_runs c =? 0)%nat
  | None => false
  end.

Lemma strandedb_stranded s i : strandedb s i = true -> stranded s i.
Proof.
  unfold strandedb, stranded, has_call. destruct (reader s); try done.
  destruct (calls s !! i) as [c|]; [|done]. simpl. intros H. split; [done|]. exists c.
  split; [done|]. destruct (is_sync c).
  - apply andb_prop in H as [H1 H2]. split; [destruct (pc c); by eauto|by destruct (done_flag c)].
  - apply andb_prop in H as [H1 H2]. split; [by destruct (pc c)|by apply Nat.eqb_eq].
Qed.

(** [run_check l syncs P]: the actions [l] can be taken from the start, bring
    no frame, and lead to a state that satisfies [P]. *)
Definition brings_frame (a : action) : bool :=
  match a with Reader (AFrame (Some _)) => true | _ => false end.
Definition run_check (l : list action) (syncs : list bool) (P : state -> bool) : bool :=
  negb (existsb brings_frame l) &&
  match run l (init syncs) with Some s => P s | None => false end.

Lemma run_check_spec l syncs P :
  run_check l syncs P = true ->
  exists s, run l (init syncs) = Some s /\ reachable syncs s /\ P s = true.
Proof.
  unfold run_check. intros [Hl Hp]%andb_prop. destruct (run l (init syncs)) as [s|] eqn:Hrun; [|done].
  exists s. split_and!; [done| |done]. eapply calls_run_reachable; [|done]. clear Hrun.
  induction l as [|a l IH]; [done|]. simpl in Hl. rewrite negb_orb in Hl.
  apply andb_prop in Hl as [Ha Hl]. constructor; [|by apply IH]. by intros resp ->.
Qed.

Lemma hang_from l syncs :
  run_check l syncs (fun s => strandedb s 0) = true ->
  exists s, run l (init syncs) = Some s /\ reachable syncs s /\
    forall s', rtc step s s' -> stranded s' 0.
Proof.
  intros (s & Hrun & Hr & Hs)%run_check_spec. exists s. split_and!; [done..|].
  apply strandedb_stranded in Hs. intros s' Hsteps. clear Hrun Hr.
  induction Hsteps; eauto using stranded_step.
Qed.

(** C37. A call can wait forever.  A synchronous caller hangs when the stream
    ends between its connection check and its table entry, when the server
    breaks the framing, or when [disconnect] meets the reader between two
    reads; and when the stream ends, the [done] of an asynchronous call never
    runs.  In each case no later step of any thread helps. *)
Theorem calls_can_hang :
  Forall (fun '(sync, h) => exists s, run h (init [sync]) = Some s /\ reachable [sync] s /\
    forall s', rtc step s s' -> stranded s' 0)
  [(true, late_insert); (true, broken_stream); (true, disconnected); (false, closed_stream)].
Proof.
  repeat (apply Forall_cons; split; [apply hang_from; vm_compute; reflexivity|]). by apply Forall_nil.
Qed.

(** With the closed stream, a synchronous call does return, failed. *)
Example closed_stream_fails_sync :
  (s ← run (closed_stream ++ [Caller 0 true]) (init [true]); c ← calls s !! 0%nat;
   Some (RpcController.ErrorText (controller c), is_returned (pc c)))
  = Some ("connection closed"%string, true).
Proof. vm_compute. reflexivity. Qed.

(** A run with two calls, answered in the other order. *)
Definition two_calls : list action :=
  whole_call 0 ++ whole_call 1 ++ [Reader Go; Reader Data].
Definition answer_to (id : Z) : RpcResponse := mk_response id true [Byte.x2a] "".

Definition awaits_second (s : state) : bool :=
  match reader s, pending_calls_ s !! 2, calls s !! 1%nat with
  | RFrames, Some 1%nat, Some _ => true
  | _, _, _ => false
  end.

Lemma two_calls_reachable : exists s c, reachable [true; false] s /\ reader s = RFrames /\
  pending_calls_ s !! 2 = Some 1%nat /\ calls s !! 1%nat = Some c.
Proof.
  destruct (run_check_spec two_calls [true; false] awaits_second) as (s & _ & Hr & Hs).
  { vm_compute. reflexivity. }
  unfold awaits_second in Hs. destruct (reader s) eqn:Hrd, (pending_calls_ s !! 2) as [[|[]]|] eqn:Hp,
    (calls s !! 1%nat) as [c|] eqn:Hc; try done. by exists s, c.
Qed.

Lemma response_completes_its_call_witness : exists s s',
  reachable [true; false] s /\
  run [Reader (AFrame (Some (answer_to 2))); Reader Go; Reader Go; Reader Go] s = Some s'.
Proof.
  destruct two_calls_reachable as (s & c & Hr & Hrd & Hp & Hc).
  destruct (response_completes_its_call s (answer_to 2) 1 c Hrd Hp Hc) as (s' & Hs' & _).
  by exists s, s'.
Defined.

Lemma calls_never_mixed_up_witness : exists s c,
  reachable [true; false] s /\ calls s !! 1%nat = Some c /\
  (done_runs c <= (if is_sync c then 0 else 1))%nat.
Proof.
  destruct two_calls_reachable as (s & c & Hr & _ & _ & Hc). exists s, c.
  split; [done|]. split; [done|].
  by apply (calls_never_mixed_up [true; false] s 1 c).
Defined.

End Calls.
