(* ===== verification/RpcProgress.v ===== *)
(** * Calls that are answered finish (src/rpc/rpc_channel.cpp)

    The good news about the threads of RpcCalls.v: left to themselves they come
    to rest, and then a call is over, with its outcome or its [done] run once,
    unless its frame was sent and no response to it was read.  (The histories
    in which that happens are in RpcCalls.v: [calls_can_hang].) *)

From Stdlib Require Import ZArith Lia.
From S2P Require Import Prelude Rpc RpcCalls.
Import Proto.
Local Open Scope Z_scope.

Module RpcProgress.
Import Calls.

(** What the threads can do by themselves: no input for the reader. *)
Definition internal (a : action) : bool :=
  match a with Caller _ _ | Reader Go => true | _ => false end.
Definition internal_step (s s' : state) : Prop := exists a, internal a = true /\ perform a s = Some s'.

(** Its frame was sent, and no response to it was read. *)
Definition unanswered (s : state) (c : call) : Prop :=
  exists id, the_id c = Some id /\ id ∈ sent s /\ forall r, r ∈ received s -> response_id r <> id.

(** ** They come to rest *)

Definition caller_rank (p : caller_pc) : nat :=
  match p with
  | CCheck => 5 | CGetId => 4 | CInsert _ => 3 | CWrite _ => 2 | CErase _ | CWait _ => 1 | CReturned => 0
  end.
Definition reader_rank (r : reader_pc) : nat :=
  match r with RFound _ _ => 3 | RFlag _ => 2 | RDone _ | RTest | RClosing => 1 | _ => 0 end.
Definition rank (s : state) : nat :=
  (sum_list (caller_rank <$> (pc <$> calls s)) + reader_rank (reader s))%nat.

Lemma rank_insert (cs : list call) i c c' :
  cs !! i = Some c -> (sum_list (caller_rank <$> (pc <$> <[i := c']> cs)) + caller_rank (pc c) =
    sum_list (caller_rank <$> (pc <$> cs)) + caller_rank (pc c'))%nat.
Proof. intros Hc. rewrite !list_fmap_insert. apply sum_list_insert. by rewrite !list_lookup_fmap, Hc. Qed.

Lemma fail_pending_pcs s : pc <$> calls (fail_pending s) = pc <$> calls s.
Proof.
  simpl. rewrite fmap_imap. apply list_eq. intros i. rewrite list_lookup_imap, list_lookup_fmap.
  destruct (calls s !! i); [|done]. unfold compose. simpl. by case_bool_decide.
Qed.

Lemma internal_step_rank s s' : internal_step s s' -> (rank s' < rank s)%nat.
Proof.
  intros ([i ok|[]|] & Hi & Hs); try done; unfold rank.
  - simpl in Hs. unfold caller_step in Hs. destruct (calls s !! i) as [c|] eqn:Hc; [|done].
    destruct (pc c) eqn:Hpc; repeat case_match; simplify_eq; simpl;
      match goal with |- context [<[i := ?d]> _] => pose proof (rank_insert (calls s) i c d Hc) as Hr end;
      rewrite Hpc in Hr; simpl in Hr; lia.
  - simpl in Hs. unfold reader_step in Hs. destruct (reader s) eqn:Hrd; try done; simpl in *.
    + simplify_eq. simpl. destruct (connected_ s); simpl; lia.
    + destruct (calls s !! i) as [c|] eqn:Hc; simplify_eq. simpl.
      match goal with |- context [<[i := ?d]> _] => pose proof (rank_insert (calls s) i c d Hc) as Hr end.
      destruct (success resp); simpl in *; lia.
    + destruct (calls s !! i) as [c|] eqn:Hc; simplify_eq. simpl.
      pose proof (rank_insert (calls s) i c (set_done_flag c) Hc). simpl in *. lia.
    + destruct (calls s !! i) as [c|] eqn:Hc; simplify_eq. simpl.
      pose proof (rank_insert (calls s) i c (run_done c) Hc). simpl in *. lia.
    + simplify_eq. pose proof (fail_pending_pcs s) as Hp. simpl in *. rewrite Hp. lia.
Qed.

Lemma internal_steps_end s : sn internal_step s.
Proof. apply (ranked_sn rank), internal_step_rank. Qed.

(** ** What has become of a call whose frame was sent *)

Definition ended (c : call) : Prop := done_flag c = true /\ (is_sync c = false -> done_runs c = 1%nat).

Record settled (s : state) : Prop := {
  se_sent : forall i c id, calls s !! i = Some c -> the_id c = Some id -> id ∈ sent s ->
    pending_calls_ s !! id = Some i \/ target (reader s) = Some i \/ ended c;
  se_done : forall i, reader s = RDone i -> has_call (calls s) i (fun c => done_flag c = true);
  se_received : forall r, r ∈ received s -> response_id r ∈ sent s /\ pending_calls_ s !! response_id r = None;
  se_failed : forall i c, calls s !! i = Some c -> pc c = CReturned -> is_sync c = false ->
    (exists id, the_id c = Some id /\ id ∈ sent s) \/ done_runs c = 1%nat;
}.

Lemma settled_init syncs : settled (init syncs).
Proof.
  split; simpl; try done.
  - intros i c id (b & -> & _)%list_lookup_fmap_Some. done.
  - by intros r ?%elem_of_nil.
  - by intros i c (b & -> & _)%list_lookup_fmap_Some.
Qed.

(** A step of the caller of [i], which takes [c] to [c']. *)
Lemma settled_caller s s' i c c' :
  settled s -> calls s !! i = Some c -> calls s' = <[i := c']> (calls s) -> reader s' = reader s ->
  received s' = received s ->
  (forall id, id ∈ sent s -> id ∈ sent s' /\ pending_calls_ s' !! id = pending_calls_ s !! id) ->
  (forall j d id, j <> i -> calls s !! j = Some d -> the_id d = Some id -> id ∈ sent s' -> id ∈ sent s) ->
  done_flag c' = done_flag c ->
  (forall id, the_id c' = Some id -> id ∈ sent s' ->
     (the_id c = Some id /\ id ∈ sent s /\ (ended c -> ended c')) \/ pending_calls_ s' !! id = Some i) ->
  (pc c' = CReturned -> is_sync c' = false ->
     (exists id, the_id c' = Some id /\ id ∈ sent s') \/ done_runs c' = 1%nat) ->
  settled s'.
Proof.
  intros [Hsent Hdone Hrecv Hfail] Hc Hcs Hrd Hrv Hold Hothers Hflag Hid Hret. split; rewrite ?Hrd, ?Hrv, ?Hcs.
  - intros j d id Hd Hdid Hin. destruct (decide (j = i)) as [->|Hne].
    + rewrite list_lookup_insert_eq in Hd by by eapply lookup_lt_Some. simplify_eq.
      destruct (Hid id Hdid Hin) as [(Hcid & Hs & He)|?]; [|by left].
      destruct (Hold id Hs) as [_ ->]. destruct (Hsent i c id Hc Hcid Hs) as [?|[?|?]]; auto.
    + rewrite list_lookup_insert_ne in Hd by done.
      assert (id ∈ sent s) as Hs by by apply (Hothers j d). destruct (Hold id Hs) as [_ ->]. by apply Hsent.
  - intros j Hj. destruct (Hdone j Hj) as (d & Hd & Hf). destruct (decide (j = i)) as [->|Hne].
    + exists c'. rewrite list_lookup_insert_eq by by eapply lookup_lt_Some. split; [done|]. congruence.
    + exists d. by rewrite list_lookup_insert_ne.
  - intros r Hr. destruct (Hrecv r Hr) as [Hin Hp]. destruct (Hold _ Hin) as [? ->]. done.
  - intros j d Hd Hpc Hsy. destruct (decide (j = i)) as [->|Hne].
    + rewrite list_lookup_insert_eq in Hd by by eapply lookup_lt_Some. simplify_eq. by apply Hret.
    + rewrite list_lookup_insert_ne in Hd by done.
      destruct (Hfail j d Hd Hpc Hsy) as [(id & ? & Hin)|?]; [|by right].
      left. exists id. split; [done|]. by apply Hold.
Qed.

Lemma caller_settled i ok s s' :
  inv s -> settled s -> caller_step i ok s = Some s' -> settled s'.
Proof.
  intros Hinv Hset Hstep. unfold caller_step in Hstep.
  destruct (calls s !! i) as [c|] eqn:Hc; [|done].
  pose proof (inv_phases s Hinv i c Hc) as (_ & _ & H3 & _ & H5). pose proof (inv_ids s Hinv) as (_ & Hb & Hu).
  assert (forall id, id ∈ sent s -> id < next_request_id_ s) as Hlt.
  { intros id Hin. destruct (inv_sent s Hinv id Hin) as (j & d & Hd & Hid). by apply (Hb j d). }
  destruct (pc c) as [| |id|id|id|id|] eqn:Hpc; try done.
  - destruct (the_id c) as [|] eqn:Hid; [naive_solver|].
    destruct (connected_ s); simplify_eq; eapply (settled_caller s _ i c _ Hset Hc); try done; simpl;
      try (rewrite Hid; done).
    intros _ Hsy. right. destruct H5 as [_ ->]. by rewrite Hsy.
  - simplify_eq. eapply (settled_caller s _ i c _ Hset Hc); try done; simpl.
    intros id [= <-] Hin%Hlt. lia.
  - destruct (the_id c) as [id'|] eqn:Hid; [|naive_solver]. simplify_eq.
    destruct H5 as (_ & _ & -> & _ & Hnew & _).
    eapply (settled_caller s _ i c _ Hset Hc); try done; simpl.
    + intros id Hin. split; [done|]. by rewrite lookup_insert_ne by (intros <-; done).
    + rewrite Hid. by intros id [= <-].
  - destruct (the_id c) as [id'|] eqn:Hid; [|naive_solver]. destruct H5 as (_ & _ & -> & Hp & Hnew).
    destruct ok; simplify_eq; eapply (settled_caller s _ i c _ Hset Hc); try done; simpl.
    + intros id Hin. split; [by apply elem_of_app; left|done].
    + intros j d id Hne Hd Hdid [Hin|Heq%list_elem_of_singleton]%elem_of_app; [done|subst id].
      by destruct Hne; eapply Hu.
    + rewrite Hid. intros id [= <-] _. by right.
    + intros _ _. left. exists id'. split; [done|]. apply elem_of_app. right. by apply list_elem_of_singleton.
    + rewrite Hid. intros id [= <-] Hin. done.
  - destruct (the_id c) as [id'|] eqn:Hid; [|naive_solver]. simplify_eq.
    destruct H5 as (Hruns & _ & -> & Hp & Hnew).
    eapply (settled_caller s _ i c _ Hset Hc); try done; simpl.
    + intros id Hin. split; [done|]. by rewrite lookup_delete_ne by (intros <-; done).
    + rewrite Hid. by intros id [= <-].
    + intros _ Hsy. right. rewrite Hruns by by left. by rewrite Hsy.
  - destruct (the_id c) as [id'|] eqn:Hid; [|naive_solver]. destruct (done_flag c) eqn:Hd; simplify_eq.
    destruct H5 as (_ & _ & -> & Hsy & Hin).
    eapply (settled_caller s _ i c _ Hset Hc); try done; simpl.
    + intros id Hi _. left. rewrite Hid in Hi. simplify_eq. done.
    + intros _ Hno. congruence.
Qed.

(** A step of the reader on the call [i] it has found. *)
Lemma settled_found s i c c' rd' :
  settled s -> calls s !! i = Some c -> target (reader s) = Some i ->
  the_id c' = the_id c -> pc c' = pc c -> is_sync c' = is_sync c ->
  (done_runs c = 1%nat -> done_runs c' = 1%nat) ->
  (target rd' = Some i \/ ended c') -> (forall j, target rd' = Some j -> j = i) ->
  (forall j, rd' = RDone j -> done_flag c' = true) ->
  settled (set_reader rd' (set_call i c' s)).
Proof.
  intros [Hsent Hdone Hrecv Hfail] Hc Ht Hid Hpc Hsy Hruns Hgo Hsame Hd'.
  assert (forall j d, <[i := c']> (calls s) !! j = Some d -> j = i /\ d = c' \/ j <> i /\ calls s !! j = Some d) as Hlook.
  { intros j d [(<- & <- & _)|[? ?]]%list_lookup_insert_Some; naive_solver. }
  split; simpl; [| |done|].
  - intros j d id Hd Hdid Hin. apply Hlook in Hd as [[-> ->]|[Hne Hd]]; [naive_solver|].
    destruct (Hsent j d id Hd Hdid Hin) as [?|[Hj|?]]; [by left|congruence|auto].
  - intros j Hj. assert (j = i) as -> by (apply Hsame; by rewrite Hj).
    exists c'. rewrite list_lookup_insert_eq by by eapply lookup_lt_Some. naive_solver.
  - intros j d Hd. apply Hlook in Hd as [[-> ->]|[Hne Hd]]; [|exact (Hfail j d Hd)].
    rewrite Hpc, Hsy, Hid. intros H1 H2. destruct (Hfail i c Hc H1 H2); naive_solver.
Qed.

(** The reader stands elsewhere, with no call in hand. *)
Lemma settled_reader s rd' :
  settled s -> target (reader s) = None -> target rd' = None -> settled (set_reader rd' s).
Proof.
  intros [Hsent Hdone Hrecv Hfail] Ht Ht'. split; simpl; [|by intros i ->|done|done].
  intros i c id Hc Hid Hin. destruct (Hsent i c id Hc Hid Hin) as [?|[?|?]]; [by left|congruence|auto].
Qed.

Lemma settled_connected s b : settled s -> settled (set_connected b s).
Proof. by intros []. Qed.

(** A response: its call leaves the table, if it was there. *)
Lemma settled_take s resp :
  settled s -> target (reader s) = None -> response_id resp ∈ sent s ->
  settled (take_call resp (add_received resp s)).
Proof.
  intros [Hsent Hdone Hrecv Hfail] Ht Hin. unfold take_call. simpl.
  destruct (pending_calls_ s !! response_id resp) as [i|] eqn:Hp; split; simpl; try done.
  - intros j d id Hd Hid Hs. destruct (Hsent j d id Hd Hid Hs) as [Hj|[?|?]]; [|congruence|auto].
    destruct (decide (id = response_id resp)) as [->|Hne]; [right; left; congruence|].
    left. by rewrite lookup_delete_ne.
  - intros r [Hr|Hr%list_elem_of_singleton]%elem_of_app.
    + destruct (Hrecv r Hr) as [? Hr']. split; [done|]. by apply lookup_delete_None; right.
    + subst r. split; [done|apply lookup_delete_eq].
  - intros r [Hr|Hr%list_elem_of_singleton]%elem_of_app; [by apply Hrecv|by subst r].
Qed.

Lemma settled_fail_pending s :
  settled s -> target (reader s) = None -> settled (fail_pending s).
Proof.
  intros [Hsent Hdone Hrecv Hfail] Ht.
  assert (forall i d, calls (fail_pending s) !! i = Some d -> exists c, calls s !! i = Some c /\
    the_id d = the_id c /\ pc d = pc c /\ is_sync d = is_sync c /\ done_runs d = done_runs c /\ (ended c -> ended d)) as Hlook.
  { intros i d Hd. simpl in Hd. rewrite list_lookup_imap in Hd. destruct (calls s !! i) as [c|]; [|done].
    exists c. split; [done|]. simpl in Hd. case_bool_decide; simplify_eq; [|done].
    split_and!; [done..|]. by intros [_ ?]. }
  split; simpl.
  - intros i d id Hd Hid Hin. destruct (Hlook i d Hd) as (c & Hc & Hci & _ & _ & _ & He).
    rewrite Hci in Hid. destruct (Hsent i c id Hc Hid Hin) as [?|[?|?]]; [by left|congruence|auto].
  - intros i Hi. by rewrite Hi in Ht.
  - done.
  - intros i d Hd Hpc Hsy. destruct (Hlook i d Hd) as (c & Hc & -> & Hpc' & Hsy' & -> & _).
    apply (Hfail i c Hc); congruence.
Qed.

Lemma reader_settled inp s s' :
  inv s -> settled s -> honest (Reader inp) s -> reader_step inp s = Some s' -> settled s'.
Proof.
  intros Hinv Hset Hh Hstep. unfold reader_step in Hstep. destruct (reader s) eqn:Hrd.
  1-3: assert (target (reader s) = None) as Ht by by rewrite Hrd.
  - destruct inp; simplify_eq. apply settled_reader; [done..|]. by destruct (connected_ s).
  - destruct inp; simplify_eq; by repeat apply settled_connected || apply settled_reader.
  - destruct inp as [| |[resp|]| | |]; simplify_eq;
      try (by apply settled_reader; [try apply settled_connected|..]); [|done].
    by apply settled_take.
  - destruct inp; try done. destruct (calls s !! i) as [c|] eqn:Hc; simplify_eq.
    apply (settled_found s i c); try done; simpl; try by destruct (success resp).
    all: try by left. all: try congruence. all: by rewrite Hrd.
  - destruct inp; try done. destruct (calls s !! i) as [c|] eqn:Hc; simplify_eq.
    apply (settled_found s i c); try done; simpl.
    all: try by left. all: try congruence. all: by rewrite Hrd.
  - destruct inp; try done. destruct (calls s !! i) as [c|] eqn:Hc; simplify_eq.
    destruct (se_done s Hset i Hrd) as (c' & Hc' & Hflag). simplify_eq.
    pose proof (inv_phases s Hinv i c Hc) as (_ & _ & _ & _ & Hph). rewrite Hrd in Hph. simpl in Hph.
    assert (done_runs c = 0%nat) as Hruns by (destruct (the_id c); naive_solver).
    apply (settled_found s i c); try done; simpl; [by rewrite Hrd|congruence|].
    right. split; [done|]. simpl. intros ->. by rewrite Hruns.
  - destruct inp; simplify_eq. apply settled_reader; [apply settled_fail_pending; [done|by rewrite Hrd]|simpl; by rewrite Hrd|done].
  - by destruct inp.
Qed.

Lemma reachable_settled syncs s :
  zlen syncs < 2 ^ 32 - 1 -> reachable syncs s -> inv s /\ settled s.
Proof.
  intros Hlen. revert s. refine (rtc_ind_r _ _ _ _); [split; [apply init_inv|apply settled_init]|].
  intros s s' Hr (a & Hh & Ha) [Hinv Hset].
  assert (reachable syncs s') as Hr' by (eapply rtc_r; [exact Hr|by exists a]).
  split; [by apply (calls_reachable_inv syncs)|].
  destruct a as [i ok|inp|]; simpl in Ha.
  - by eapply caller_settled.
  - by eapply reader_settled.
  - simplify_eq. by apply settled_connected.
Qed.

(** ** At rest *)

Lemma rest_reader s : inv s -> nf internal_step s -> target (reader s) = None.
Proof.
  intros Hinv Hnf. destruct (target (reader s)) as [i|] eqn:Ht; [exfalso|done].
  destruct (inv_target s Hinv i Ht) as (c & Hc & _).
  assert (is_Some (reader_step Go s)) as [s' Hs].
  { unfold reader_step. destruct (reader s) as [| | |j resp|j|j| |]; simpl in Ht; simplify_eq; rewrite Hc; by eexists. }
  apply Hnf. exists s', (Reader Go). done.
Qed.

Lemma rest_caller s i c :
  nf internal_step s -> calls s !! i = Some c ->
  pc c = CReturned \/ (exists id, pc c = CWait id) /\ done_flag c = false.
Proof.
  intros Hnf Hc.
  assert (caller_step i true s = None) as Hno.
  { destruct (caller_step i true s) as [s'|] eqn:Hs; [|done]. exfalso. apply Hnf. exists s', (Caller i true). done. }
  unfold caller_step in Hno. rewrite Hc in Hno. destruct (pc c) eqn:Hpc; try done; [by destruct (connected_ s)| |by left].
  right. split; [by eexists|]. by destruct (done_flag c).
Qed.

(** What a call has come to, at rest. *)
Definition over (c : call) : Prop :=
  if is_sync c then pc c = CReturned /\ outcome c else pc c = CReturned /\ done_runs c = 1%nat.

Lemma rest_calls s i c :
  inv s -> settled s -> nf internal_step s -> calls s !! i = Some c -> over c \/ unanswered s c.
Proof.
  intros Hinv [Hsent _ Hrecv Hfail] Hnf Hc. pose proof (rest_reader s Hinv Hnf) as Ht. unfold over.
  assert (forall id, the_id c = Some id -> id ∈ sent s -> ended c \/ unanswered s c) as Hend.
  { intros id Hid Hin. destruct (Hsent i c id Hc Hid Hin) as [Hp|[?|?]]; [right|congruence|by left].
    exists id. split_and!; [done..|]. intros r Hrr Heq. destruct (Hrecv r Hrr) as [_ Hnone]. congruence. }
  pose proof (inv_phases s Hinv i c Hc) as (_ & Hout & _ & _ & Hph).
  destruct (rest_caller s i c Hnf Hc) as [Hpc|[[id Hpc] Hflag]]; rewrite Hpc in Hph.
  - destruct (is_sync c) eqn:Hsy; [left; by split; [|apply Hout]|].
    destruct (Hfail i c Hc Hpc Hsy) as [(id & Hid & Hin)|?]; [|by left].
    destruct (Hend id Hid Hin) as [[_ He]|?]; [left; auto|by right].
  - destruct (the_id c) as [id'|] eqn:Hid; [|naive_solver]. destruct Hph as (_ & _ & -> & _ & Hin).
    destruct (Hend id' eq_refl Hin) as [[? _]|?]; [congruence|by right].
Qed.

Lemma internal_reachable syncs s s' : reachable syncs s -> rtc internal_step s s' -> reachable syncs s'.
Proof.
  unfold reachable. intros Hr Hss'. etrans; [exact Hr|]. eapply rtc_subrel; [|exact Hss'].
  intros x y (a & Ha & Hs). exists a. split; [|done]. by destruct a as [|[]|].
Qed.

(** Calls that are answered finish.  From every state that callers, reader,
    an honest server and [disconnect] reach, in any interleaving of fewer than
    2^32 - 1 calls: the threads, with no further input, come to rest after
    finitely many steps, and then each synchronous call has returned, with a
    failed controller or a parsed response, and each asynchronous call has run
    its [done] once, except for a call whose frame was sent and to which no
    response was read. *)
Theorem answered_calls_finish syncs s (Hlen : zlen syncs < 2 ^ 32 - 1) (Hr : reachable syncs s) :
  sn internal_step s /\
  forall s', rtc internal_step s s' -> nf internal_step s' -> forall i c, calls s' !! i = Some c ->
    over c \/ unanswered s' c.
Proof.
  split; [apply internal_steps_end|]. intros s' Hss' Hnf i c.
  destruct (reachable_settled syncs s' Hlen (internal_reachable syncs s s' Hr Hss')). by apply rest_calls.
Qed.

(** ** Two calls, the second asynchronous, answered in the other order *)

Module Demo.

Definition honest_now (a : action) (s : state) : bool :=
  match a with
  | Reader (AFrame (Some resp)) => bool_decide (response_id resp ∈ sent s)
  | _ => true
  end.
Fixpoint honest_run (l : list action) (s : state) : option state :=
  match l with
  | [] => Some s
  | a :: l' => if honest_now a s then s' ← perform a s; honest_run l' s' else None
  end.

Lemma honest_run_reachable l syncs s s' :
  reachable syncs s -> honest_run l s = Some s' -> reachable syncs s'.
Proof.
  revert s. induction l as [|a l IH]; intros s Hr Hrun; simpl in Hrun; [by simplify_eq|].
  destruct (honest_now a s) eqn:Hh; [|done]. destruct (perform a s) as [s1|] eqn:Ha; [|done].
  apply (IH s1); [|done]. eapply rtc_r; [exact Hr|]. exists a. split; [|done].
  destruct a as [| [| |[resp|]| | |]|]; try done. simpl in *. by apply bool_decide_eq_true in Hh.
Qed.

Definition both_sent : list action := whole_call 0 ++ whole_call 1 ++ [Reader Go; Reader Data].
Definition answered_second : list action :=
  Reader (AFrame (Some (answer_to 2))) :: replicate 3 (Reader Go).
Definition found_first : state :=
  default (init [])
    (honest_run (both_sent ++ answered_second ++ [Reader (AFrame (Some (answer_to 1)))]) (init [true; false])).

(** What is left is the reader's three steps and the caller's last. *)
Example at_rest :
  match honest_run (replicate 3 (Reader Go) ++ [Caller 0 true]) found_first with
  | Some s => (pc <$> calls s) = [CReturned; CReturned] /\ (done_runs <$> calls s) = [0; 1]%nat
  | None => False
  end.
Proof. by vm_compute. Qed.

Lemma answered_calls_finish_witness :
  sn internal_step found_first /\
  forall s', rtc internal_step found_first s' -> nf internal_step s' -> forall i c, calls s' !! i = Some c ->
    over c \/ unanswered s' c.
Proof.
  apply (answered_calls_finish [true; false]); [reflexivity|].
  apply (honest_run_reachable (both_sent ++ answered_second ++ [Reader (AFrame (Some (answer_to 1)))]) _
    (init [true; false])); [apply rtc_refl|vm_compute; reflexivity].
Defined.

End Demo.

End RpcProgress.
