(* ===== verification/RpcSystem.v ===== *)
(** * The RPC path end to end

    The client's frames through the server's codec to [RpcServer::on_frame],
    and the server's responses through [Codec::send] and a [TcpConnection] to
    the client's reader: the components of the other files composed as
    src/rpc/rpc_server.cpp and src/rpc/rpc_channel.cpp compose them. *)

From Stdlib Require Import ZArith Lia.
From S2P Require Import Prelude Cxx NetBuffer Codec Channel EpollPoller EventLoop TcpConnection.
From S2P Require Import Rpc RpcServer RpcChannel RpcCalls.
Import Protocol Proto.
Local Open Scope Z_scope.

Module RpcSystem.

(** A message whose serialization succeeds within the cap of the codec. *)
Definition sendable `{Message A} (m : A) : Prop :=
  (SerializeToString m).1 = true /\ zlen (SerializeToString m).2 <= kMaxBodySize.

Definition body_of `{Message A} (m : A) : bytes := (SerializeToString m).2.

Lemma sendable_parse `{MessageOk A} (m : A) : sendable m -> ParseFromString (body_of m) = Some m.
Proof. intros [Hok _]. by apply serialized_parses. Qed.

(** Bodies that parse back to the messages they were made from. *)
Lemma omap_bodies `{MessageOk A} (ms : list A) :
  Forall sendable ms -> omap ParseFromString (body_of <$> ms) = ms.
Proof.
  induction 1 as [|m ms Hm _ IH]; [done|]. simpl. rewrite sendable_parse by done.
  exact (f_equal (cons m) IH).
Qed.

Lemma bodies_capped `{Message A} (ms : list A) :
  Forall sendable ms -> Forall (fun body => zlen body <= kMaxBodySize) (body_of <$> ms).
Proof. intros Hms. rewrite Forall_fmap. eapply Forall_impl; [exact Hms|]. by intros m []. Qed.

(** ** Requests: from [CallMethod] to the server *)

Section requests.
Context {Conn U Msg N : Type} `{MessageOk RpcRequest} `{Message Msg}.
Abbreviation server := (RpcServer.t (Conn := Conn) (U := U) (Msg := Msg) (N := N)).
Variable host : Wire.endian.
Variable codec_send : Conn -> RpcResponse -> M N unit.
Variable answered : N -> list (Conn * RpcResponse).
Hypothesis codec_send_spec : forall conn resp n,
  wp (codec_send conn resp) n (fun n' _ => answered n' = answered n ++ [(conn, resp)]).

(** The connection's input buffer and the server; [RpcServer::on_message]
    gives the buffer to the codec, whose callback is [on_frame]. *)
Variable conn : Conn.
Definition on_frame (frame : bytes) : M (Buffer.t * server) unit :=
  zoom lens_snd (RpcServer.frame_arrives codec_send conn frame).
Variable err_cb_ : option (string -> M (Buffer.t * server) unit).
Variable force_close : M (Buffer.t * server) unit.
Hypothesis reject_returns : forall why w,
  wp (Codec.reject err_cb_ force_close why) w (fun w' _ => w'.1 = w.1).

(** What the server has done with the frames [fs]. *)
Definition processed (services : gmap string (RpcServer.Service U Msg)) (fs : list bytes)
    (w : Buffer.t * server) : Prop :=
  RpcServer.stopped w.2 = false /\
  RpcServer.accounted answered services (RpcServer.requests (pair conn <$> fs)) w.2.

Lemma on_frame_processed services fs f w :
  processed services fs w ->
  wp (on_frame f) w (fun w' _ => processed services (fs ++ [f]) w' /\ w'.1 = w.1).
Proof.
  intros [Hrun Hacc]. unfold on_frame. wp_pures.
  pose proof (RpcServer.on_frame_wp codec_send answered codec_send_spec conn f w.2 Hrun) as Hwp.
  apply wp_ret_inv in Hwp as (s' & [] & Heq & Hst & _).
  unfold wp, wpe. change (lget lens_snd w) with (w.2). rewrite Heq. split; [|done].
  split; [by simpl; rewrite Hst|]. unfold RpcServer.requests. rewrite fmap_app, omap_app.
  by apply (RpcServer.on_frame_accounted codec_send answered codec_send_spec _ _ w.2).
Qed.

Lemma rejected services fs st w :
  processed services fs w -> st <> Framing.NeedMore ->
  wp (Codec.reject err_cb_ force_close (Codec.reason_of st)) w
    (fun w' _ => True /\ lget lens_fst w' = lget lens_fst w).
Proof. intros _ _. eapply wp_mono; [apply reject_returns|]. cbv beta; by intros w1 _ Hw1. Qed.

Lemma requests_of_bodies (reqs : list RpcRequest) :
  Forall sendable reqs ->
  RpcServer.requests (pair conn <$> (body_of <$> reqs)) = pair conn <$> reqs.
Proof.
  unfold RpcServer.requests. induction 1 as [|r reqs Hr _ IH]; [done|].
  simpl. rewrite sendable_parse by done. exact (f_equal (cons (conn, r)) IH).
Qed.

(** What the client calls, the server gets.  The frames that [CallMethod]
    writes for a sequence of requests, cut by the network into any reads, go
    through the server's buffer and codec to [on_frame]; afterwards the server
    accounts for exactly these requests in this connection: each waits for a
    worker with its own service, method and arguments, or has its response
    under way or sent, and no byte is left over. *)
Theorem requests_reach_the_server (reqs : list RpcRequest) chunks b (s : server)
    (Hreqs : Forall sendable reqs)
    (Hchunks : concat chunks =
       concat (map (fun r => RpcChannel.wire_frame host (RpcChannel.call_body r)) reqs))
    (Hb : Buffer.wf b) (Hempty : Buffer.contents b = [])
    (Hok : Codec.reads_ok lens_fst (Codec.feed host lens_fst on_frame err_cb_ force_close) chunks (b, s))
    (Hroom : zlen (Buffer.buf_ b) + zlen (concat chunks) <= Mem.max_size)
    (Hrun : RpcServer.stopped s = false) (Ht : RpcServer.tasks s = [])
    (Hf : RpcServer.functors s = []) (Ha : answered (RpcServer.net s) = []) :
  wp (for_each (Codec.feed host lens_fst on_frame err_cb_ force_close) chunks) (b, s)
    (fun w' _ => Buffer.contents w'.1 = [] /\
       RpcServer.accounted answered (RpcServer.services_ s) (pair conn <$> reqs) w'.2).
Proof.
  rewrite <- (requests_of_bodies reqs Hreqs).
  eapply wp_mono; [apply (Codec.reads_frames_spec lens_fst kMaxBodySize _
    (processed (RpcServer.services_ s))
    (Codec.feed_need_more host lens_fst on_frame err_cb_ force_close
      (processed (RpcServer.services_ s)) (fun _ _ _ => True) (fun fs b w H => H) (on_frame_processed _) (rejected _)) (body_of <$> reqs))|].
  - done.
  - done.
  - split; [done|]. split; [done|]. exists [], []. simpl. rewrite Ht, Hf, Ha.
    split_and!; [done|constructor..].
  - by apply bodies_capped.
  - done.
  - rewrite Hchunks. f_equal. clear. induction reqs as [|r reqs IH]; [done|]. simpl.
    by rewrite RpcChannel.wire_frame_encode, IH.
  - done.
  - done.
  - cbv beta. intros w' _ [[_ Hacc] Hc]. done.
Qed.

(** The server never makes up a response: at any moment of any run from a
    server without work, a response given to [Codec::send] has the id of a
    request that has arrived on its connection.  It is the assumption on the
    server under which the client's calls are shown safe. *)
Theorem server_is_honest (s s' : server) frames
    (Ht : RpcServer.tasks s = []) (Hf : RpcServer.functors s = [])
    (Ha : answered (RpcServer.net s) = [])
    (Hruns : RpcServer.steps codec_send s frames s') :
  Forall (fun cr => exists req, (cr.1, req) ∈ RpcServer.requests frames /\
    response_id cr.2 = request_id req) (answered (RpcServer.net s')).
Proof.
  assert (RpcServer.accounted answered (RpcServer.services_ s) [] s) as Hacc.
  { split; [done|]. exists [], []. rewrite Ht, Hf, Ha. split_and!; [done|constructor..]. }
  eapply (RpcServer.steps_accounted codec_send answered codec_send_spec) in Hacc
    as [_ (waiting & finished & Hp & _ & Hfin)]; [|exact Hruns].
  apply Forall2_app_inv_r in Hfin as (f1 & f2 & Hf1 & _ & ->).
  apply Forall_forall. intros [c resp] (i & Hi)%list_elem_of_lookup.
  eapply Forall2_lookup_r in Hf1 as ([c' req] & Hreq & Hconn & Hans); [|exact Hi]. simpl in *. subst c'.
  exists req. split.
  - rewrite Hp. apply elem_of_app. right. apply elem_of_app. left.
    by eapply list_elem_of_lookup_2.
  - by destruct Hans; try done; unfold RpcServer.make_response; repeat case_match.
Qed.

End requests.

(** ** Responses: from [Codec::send] to the client's reader *)

Section responses.
Context {K U : Type} `{SocketOk K} `{MessageOk RpcResponse}.
Abbreviation W := (TcpConnection.world K U).
Variables server_host client_host : Wire.endian.

(** The server's connection, with callbacks that keep it sound; an
    [RpcServer] sets no write-complete callback. *)
#[local] Existing Instance TcpConnection.ext_preorder.
Variable ch : EpollPoller.ptr.
Variables conn_cb_ close_cb_ : option (M W unit).
Variables (fd0 : Z) (k0 : gmap Z Z) (m0 : gmap Z EpollPoller.ptr).
Variable J : U -> list TcpConnection.functor -> Prop.
Variable gone : U -> Prop.
Abbreviation sound := (TcpConnection.inv ch fd0 k0 m0 J).
Abbreviation ext := (TcpConnection.ext gone).
Hypothesis conn_cb_good : TcpConnection.good ch fd0 k0 m0 J gone (call_if conn_cb_).
Hypothesis close_cb_lets_go : forall w, sound w -> TcpConnection.state w = TcpConnection.kDisconnected ->
  wpe (call_if close_cb_) w (fun w' _ => sound w' /\ TcpConnection.ext0 gone w w' /\
    gone (TcpConnection.user w') /\ TcpConnection.off w') TcpConnection.oom.

(** [codec::Codec::send(conn, resp)] on the connection's loop *)
Definition send_response (resp : RpcResponse) : M W unit :=
  let '(ok, bs) := SerializeToString resp in
  Codec.send server_host (TcpConnection.send_buffer ch conn_cb_ None close_cb_ true)
    (if ok then Some bs else None).

Definition frames_of (resps : list RpcResponse) : bytes :=
  concat (map Framing.encode (body_of <$> resps)).

Lemma frames_of_app l1 l2 : frames_of (l1 ++ l2) = frames_of l1 ++ frames_of l2.
Proof. unfold frames_of. by rewrite fmap_app, map_app, concat_app. Qed.

Lemma frames_of_one resp : frames_of [resp] = Framing.encode (body_of resp).
Proof. apply app_nil_r. Qed.

Lemma send_response_wpe resp w :
  sendable resp -> sound w ->
  wpe (send_response resp) w (fun w' _ => sound w' /\ ext w w' /\
    (TcpConnection.state w = TcpConnection.kConnected ->
       TcpConnection.stream w' = TcpConnection.stream w ++ frames_of [resp] \/
       TcpConnection.state w' = TcpConnection.kDisconnected)) TcpConnection.oom.
Proof.
  rewrite frames_of_one. unfold sendable, send_response, body_of.
  destruct (SerializeToString resp) as [ok bs]. cbn [fst snd]. intros [-> Hlen] Hw.
  unfold kMaxBodySize in Hlen. pose proof (zlen_nonneg bs).
  apply Codec.send_raw_wpe.
  { unfold Buffer.kPrependSize, Buffer.kInitialSize, Mem.max_size. lia. }
  intros b Hb Hc. rewrite <- Hc.
  eapply wpe_mono; [apply (TcpConnection.send_buffer_wpe ch conn_cb_ None close_cb_ fd0 k0 m0 J gone)| |done];
    try done.
  2: { intros p [] (? & ? & Hp). split_and!; [done..|]. intros Hs.
       destruct (Hp Hs) as [[_ Heq]|]; [left; by apply Heq|by right]. }
  unfold Buffer.is_object. rewrite Hc. unfold Framing.encode.
  rewrite !zlen_app, !Wire.be32_zlen. unfold Mem.max_size. lia.
Qed.

(** Sent from an open connection, as long as it stays open: whole and in order. *)
Definition all_sent (w0 : W) (resps : list RpcResponse) (w : W) : Prop :=
  TcpConnection.state w = TcpConnection.kConnected ->
  TcpConnection.stream w = TcpConnection.stream w0 ++ frames_of resps.

Lemma send_responses_wpe resps w :
  Forall sendable resps -> sound w -> TcpConnection.state w = TcpConnection.kConnected ->
  wpe (for_each send_response resps) w
    (fun w' _ => sound w' /\ ext w w' /\ all_sent w resps w') TcpConnection.oom.
Proof.
  intros Hresps Hw Hopen.
  assert (forall todo sent w1, Forall sendable todo -> sound w1 -> ext w w1 ->
    all_sent w sent w1 ->
    wpe (for_each send_response todo) w1 (fun w' _ => sound w' /\ ext w w' /\
      all_sent w (sent ++ todo) w') TcpConnection.oom) as Hgen.
  { induction todo as [|r todo IH]; intros sent w1 Hs Hw1 He1 Ha1; simpl.
    { apply wpe_ret. by rewrite app_nil_r. }
    apply Forall_cons in Hs as [Hr Hs]. apply wpe_bind.
    eapply wpe_mono; [by apply send_response_wpe| |done].
    intros w2 [] (Hw2 & He2 & Hp). rewrite (cons_middle r), app_assoc.
    apply IH; [done|done|by etrans|]. intros Hs2.
    assert (TcpConnection.state w1 = TcpConnection.kConnected) as Hs1.
    { pose proof (TcpConnection.ext_rank _ _ _ (TcpConnection.ext_base _ _ _ He1)) as Hr1.
      pose proof (TcpConnection.ext_rank _ _ _ (TcpConnection.ext_base _ _ _ He2)) as Hr2. rewrite Hs2 in Hr2. rewrite Hopen in Hr1.
      by destruct (TcpConnection.state w1); simpl in *; try lia. }
    destruct (Hp Hs1) as [->|]; [|congruence]. by rewrite frames_of_app, app_assoc, (Ha1 Hs1). }
  apply (Hgen resps [] w); [done..|]. intros _. unfold frames_of. simpl. by rewrite app_nil_r.
Qed.

(** The client's reader: its buffer, the responses that [on_message] parsed,
    and [connected_]. *)
Definition client : Type := Buffer.t * (list RpcResponse * bool).
Definition on_message (frame : bytes) : M client unit :=
  match ParseFromString frame with
  | None => mret ()
  | Some resp => modify (fun c => (c.1, (c.2.1 ++ [resp], c.2.2)))
  end.
Definition store_disconnected : M client unit := modify (fun c => (c.1, (c.2.1, false))).

(** One read of the reader thread; an empty piece of the stream is no read. *)
Definition read_chunk (c : bytes) : M client unit :=
  match c with
  | [] => mret ()
  | _ => RpcChannel.reader_turn client_host lens_fst on_message store_disconnected (mret ())
           (Buffer.ReadOk c) ;; mret ()
  end.

Definition parsed (fs : list bytes) (c : client) : Prop :=
  c.2 = (omap ParseFromString fs, true).

Lemma on_message_parsed fs f c :
  parsed fs c -> wp (on_message f) c (fun c' _ => parsed (fs ++ [f]) c' /\ lget lens_fst c' = lget lens_fst c).
Proof.
  unfold parsed, on_message. intros Hc. rewrite omap_app. simpl.
  destruct (ParseFromString f) as [resp|]; simpl; wp_pures; simpl; rewrite Hc;
    by rewrite ?app_nil_r.
Qed.

Lemma read_chunk_spec c fs0 fs rest (w : client) :
  Buffer.wf (lget lens_fst w) -> parsed fs0 w ->
  zlen c <= Buffer.iov_capacity (lget lens_fst w) ->
  zlen (Buffer.buf_ (lget lens_fst w)) + zlen c <= Mem.max_size ->
  Framing.next_frame RpcChannel.no_cap (Buffer.contents (lget lens_fst w))
    = Framing.Stop Framing.NeedMore ->
  Framing.deframe RpcChannel.no_cap (Buffer.contents (lget lens_fst w) ++ c)
    = (fs, rest, Framing.NeedMore) ->
  wp (read_chunk c) w (fun w' _ => parsed (fs0 ++ fs) w' /\ Buffer.wf (lget lens_fst w') /\
    Buffer.contents (lget lens_fst w') = rest /\
    zlen (Buffer.buf_ (lget lens_fst w')) <= zlen (Buffer.buf_ (lget lens_fst w)) + zlen c).
Proof.
  intros Hwf HP Hcap Hroom Hn Hd. destruct c as [|x c].
  { rewrite app_nil_r, Framing.deframe_eq, Hn in Hd. injection Hd as <- <-. wp_pures.
    rewrite app_nil_r. split_and!; [done..|]. zlia. }
  unfold read_chunk. wp_pures. eapply wp_mono.
  - apply (RpcChannel.reader_turn_spec client_host lens_fst on_message store_disconnected parsed
      (fun _ _ => True) (fun fs b w H => H) on_message_parsed) with (fs0 := fs0);
      [|done..|split; [zlia|done]|done|exact Hd].
    intros fs1 w1 _. unfold store_disconnected. by wp_pures.
  - cbv beta. intros w' r (_ & ? & ? & ? & ?). by wp_pures.
Qed.

(** C5. What the server answers, the caller gets.  Responses that the server
    sends on an open connection go through [Codec::send] and the connection,
    which accepts, buffers and writes as the kernel allows; as long as the
    connection stays open, its stream holds exactly their frames, whole and in
    order; and a client that reads those bytes, cut in any way, hands
    [on_message] exactly these responses, in order, and nothing is left over. *)
Theorem responses_reach_the_caller (resps : list RpcResponse) (w : W)
    (Hresps : Forall sendable resps) (Hw : sound w)
    (Hopen : TcpConnection.state w = TcpConnection.kConnected) :
  wpe (for_each send_response resps) w (fun w' _ => sound w' /\
    (TcpConnection.state w' = TcpConnection.kConnected ->
     exists wire, TcpConnection.stream w' = TcpConnection.stream w ++ wire /\
       forall chunks b, concat chunks = wire -> Buffer.wf b -> Buffer.contents b = [] ->
         Codec.reads_ok lens_fst read_chunk chunks (b, ([], true)) ->
         zlen (Buffer.buf_ b) + zlen (concat chunks) <= Mem.max_size ->
         wp (for_each read_chunk chunks) (b, ([], true))
           (fun c _ => c.2 = (resps, true) /\ Buffer.contents c.1 = [])))
    TcpConnection.oom.
Proof.
  eapply wpe_mono; [by apply send_responses_wpe| |done].
  intros w' [] (Hw' & _ & Hall). split; [done|]. intros Hs. exists (frames_of resps).
  split; [by apply Hall|]. intros chunks b Hchunks Hb Hempty Hok Hroom.
  eapply wp_mono; [apply (Codec.reads_frames_spec lens_fst RpcChannel.no_cap read_chunk parsed
    read_chunk_spec (body_of <$> resps)); try done|].
  - eapply Forall_impl; [by apply bodies_capped|]. cbv beta. unfold kMaxBodySize, RpcChannel.no_cap.
    intros body ?. lia.
  - cbv beta. unfold parsed. intros c _ [Hc ?]. by rewrite omap_bodies in Hc.
Qed.

End responses.

(** ** Concrete runs *)

Module Demo.
Import RpcServer.Echo TcpConnection.Pipe.

Definition the_requests : list RpcRequest := [good_request; lost_request; good_request].
Definition force_close : M (Buffer.t * server) unit := mret ().

(** Their frames, cut in the middle of a header and of a body. *)
Definition request_chunks : list bytes :=
  let wire := concat (map (fun r => RpcChannel.wire_frame Wire.LittleEndian
    (RpcChannel.call_body r)) the_requests) in
  [ztake 3 wire; ztake 13 (zdrop 3 wire); zdrop 16 wire].

Lemma force_close_returns why (w : Buffer.t * server) :
  wp (Codec.reject None force_close why) w (fun w' _ => w'.1 = w.1).
Proof. done. Qed.

Lemma requests_reach_the_server_witness :
  wp (for_each (Codec.feed Wire.BigEndian lens_fst (on_frame log 7%nat) None force_close)
        request_chunks) (Buffer.make 16, start)
    (fun w' _ => Buffer.contents w'.1 = [] /\
       RpcServer.accounted id (RpcServer.services_ start) (pair 7%nat <$> the_requests) w'.2).
Proof.
  apply (requests_reach_the_server Wire.BigEndian log id log_spec 7%nat None force_close
    force_close_returns the_requests request_chunks (Buffer.make 16) start).
  - repeat constructor; vm_compute; congruence.
  - vm_compute. reflexivity.
  - apply Buffer.make_wf; vm_compute; congruence.
  - reflexivity.
  - vm_compute. repeat split; congruence.
  - vm_compute. congruence.
  - reflexivity.
  - reflexivity.
  - reflexivity.
  - reflexivity.
Defined.

Lemma server_is_honest_witness :
  Forall (fun cr => exists req, (cr.1, req) ∈ RpcServer.requests frames /\
    response_id cr.2 = request_id req) (RpcServer.net served).
Proof.
  exact (server_is_honest log id log_spec start served frames eq_refl eq_refl eq_refl
    served_steps).
Defined.

Definition yes : RpcResponse := mk_response 41 true [Byte.x68; Byte.x69] "".
Definition no : RpcResponse := mk_response 42 false [] "service not found: Nobody".

#[export] Instance response_message : Message RpcResponse := {
  SerializeToString r :=
    if decide (r = yes) then (true, [Byte.x01; Byte.x02])
    else if decide (r = no) then (true, []) else (false, []);
  ParseFromString bs :=
    match bs with
    | [Byte.x01; Byte.x02] => Some yes
    | [] => Some no
    | _ => None
    end;
}.

#[export] Instance response_message_ok : MessageOk RpcResponse.
Proof.
  intros r bs. simpl. destruct (decide (r = yes)) as [->|]; [by intros [= <-]|].
  destruct (decide (r = no)) as [->|]; [by intros [= <-]|done].
Qed.

(** Over the connection with "hello" half sent, its window now closed. *)
Lemma responses_reach_the_caller_witness :
  wpe (for_each (send_response (K := pipe) (U := bool) Wire.LittleEndian 0%nat None (Some let_go)) [no; yes])
    half_sent (fun w' _ => pinv w' /\
    (TcpConnection.state w' = TcpConnection.kConnected ->
     exists wire, TcpConnection.stream w' = TcpConnection.stream half_sent ++ wire /\
       forall chunks b, concat chunks = wire -> Buffer.wf b -> Buffer.contents b = [] ->
         Codec.reads_ok lens_fst (read_chunk Wire.BigEndian) chunks (b, ([], true)) ->
         zlen (Buffer.buf_ b) + zlen (concat chunks) <= Mem.max_size ->
         wp (for_each (read_chunk Wire.BigEndian) chunks) (b, ([], true))
           (fun c _ => c.2 = ([no; yes], true) /\ Buffer.contents c.1 = [])))
    TcpConnection.oom.
Proof.
  apply (responses_reach_the_caller Wire.LittleEndian Wire.BigEndian 0%nat None (Some let_go) 9 ∅ ∅
    any_owner was_let_go none_good let_go_lets_go [no; yes] half_sent).
  - repeat constructor; vm_compute; congruence.
  - exact half_sent_inv.
  - vm_compute. reflexivity.
Defined.

(** The premises about the reads can be met: the two frames in two reads. *)
Example responses_can_be_read :
  let wire := frames_of [no; yes] in
  match for_each (read_chunk Wire.BigEndian) [ztake 11 wire; zdrop 11 wire]
    (Buffer.make 16, ([], true)) with
  | Ret c _ => c.2 = ([no; yes], true)
  | _ => False
  end.
Proof. vm_compute. reflexivity. Qed.

End Demo.

End RpcSystem.
