(* ===== verification/TcpOwner.v ===== *)
(** * What a TCP server does to its owner (src/net/tcp_server.cpp)

    The part of a [TcpServer]'s state that its owner sees: the owner's own state
    and the functors that it has queued on the loop, in order.  The server
    changes it only through the owner's callbacks and functors, each functor
    once and in order; so a relation that those respect holds of every action. *)

From Stdlib Require Import ZArith.
From S2P Require Import Prelude Channel EpollPoller EventLoop TcpConnection TcpServer.
Local Open Scope Z_scope.

Module TcpOwner.
Import TcpServer.

Section view.
Context {K A G : Type} `{Socket K}.
Abbreviation S := (t K A G).
Abbreviation W := (TcpConnection.world K S).

Definition app_functors (fs : list (functor G)) : list (Z * G) :=
  omap (fun f => match f with AppFunctor id g => Some (id, g) | ConnFunctor _ _ => None end) fs.

(** [batch] are the functors that the loop has still to run. *)
Definition view_with (batch : list (functor G)) (s : S) : A * list (Z * G) :=
  (app s, app_functors (batch ++ pending s)).
Definition view (s : S) : A * list (Z * G) := view_with [] s.

Lemma app_functors_app fs gs : app_functors (fs ++ gs) = app_functors fs ++ app_functors gs.
Proof. apply omap_app. Qed.

Lemma app_functors_conn id fs : app_functors (ConnFunctor id <$> fs) = [].
Proof. by induction fs. Qed.

Variables conn_cb_ msg_cb_ wc_cb_ : option (Z -> M W unit).
Variable app_functor : Z -> G -> M W unit.
Variable app_holds : A -> Z -> bool.

(** How the owner's view may move. *)
Variable R : A * list (Z * G) -> A * list (Z * G) -> Prop.
Context `{!PreOrder R}.
Definition moved (s s' : S) : Prop := R (view s) (view s').

Abbreviation user_view := (fun w : W => view (TcpConnection.user w)).
Hypothesis conn_cb_keeps : forall id, keeps user_view (call_if (cb_of conn_cb_ id)).
Hypothesis wc_cb_keeps : forall id, keeps user_view (call_if (cb_of wc_cb_ id)).
Hypothesis msg_cb_moves : forall id,
  moves (fun w w' => R (user_view w) (user_view w')) (call_if (cb_of msg_cb_ id)).
(** A functor is taken off the view when it runs. *)
Hypothesis app_functor_moves : forall id g w w' gs, app_functor id g w = Ret w' () ->
  app_functors (pending (TcpConnection.user w')) = app_functors (pending (TcpConnection.user w)) /\
  R (app (TcpConnection.user w), (id, g) :: gs) (app (TcpConnection.user w'), gs).

#[local] Instance moved_preorder : PreOrder moved.
Proof. split; [by intros s; unfold moved|intros s1 s2 s3; unfold moved; by etrans]. Qed.

Lemma moved_same s s' : view s' = view s -> moved s s'.
Proof. unfold moved. by intros ->. Qed.

Lemma keeps_moved {X} (m : M S X) : keeps view m -> moves moved m.
Proof. apply moves_mono, moved_same. Qed.

Lemma leave_view batch id w : view_with batch (leave id w) = view_with batch (TcpConnection.user w).
Proof.
  unfold view_with, pending, leave. simpl. f_equal.
  by rewrite !app_functors_app, app_functors_conn, app_nil_r.
Qed.

Lemma leave_user id w : view (leave id w) = view (TcpConnection.user w).
Proof. apply leave_view. Qed.

(** One connection's operation. *)
Lemma on_conn_moves {X} (Q : A * list (Z * G) -> A * list (Z * G) -> Prop) id (m : M W X) :
  moves (fun w w' => Q (user_view w) (user_view w')) m ->
  moves (fun s s' => Q (view s) (view s')) (on_conn id m).
Proof.
  intros Hm s s' x. unfold on_conn. destruct (objects s !! id) as [o|]; [|done].
  destruct (m (enter s o)) as [w y| | |] eqn:Hw; try done. intros [= <- _].
  rewrite leave_user. by apply (Hm _ _ _ Hw).
Qed.

Lemma on_conn_keeps {X} id (m : M W X) : keeps user_view m -> keeps view (on_conn id m).
Proof. apply (on_conn_moves (fun v v' => v' = v)). Qed.

Lemma user_same (w w' : W) :
  TcpConnection.the_input w' = TcpConnection.the_input w -> TcpConnection.user w' = TcpConnection.user w ->
  EventLoop.calm (TcpConnection.loop w) (TcpConnection.loop w') ->
  unchanged user_view w w'.
Proof. unfold unchanged. by intros _ ->. Qed.

Lemma close_cb_keeps id : keeps user_view (call_if (close_cb conn_cb_ id)).
Proof.
  simpl. unfold remove_connection. apply moves_bind; [exact _| |intros _].
  { apply (moves_zoom_in _ _ (unchanged view)); [done|by apply moves_modify]. }
  apply TcpConnection.connection_destroyed_moves; [exact _|apply user_same|apply conn_cb_keeps].
Qed.

(** *** The actions *)

Lemma release_keeps batch : keeps view (release app_holds batch).
Proof. by apply moves_modify. Qed.

Lemma then_release {X} (m : M S X) :
  moves moved m -> moves moved (m ≫= fun _ => release app_holds []).
Proof. intros Hm. apply moves_bind; [exact _|done|]. intros _. apply keeps_moved, release_keeps. Qed.

Lemma conn_event_moves id revents :
  moves moved (conn_event conn_cb_ msg_cb_ wc_cb_ app_holds id revents).
Proof.
  assert (forall w w' : W, unchanged user_view w w' -> R (user_view w) (user_view w')) as Hsame
    by (unfold unchanged; by intros w w' ->).
  assert (PreOrder (fun w w' : W => R (user_view w) (user_view w'))).
  { split; [by intros w|intros w1 w2 w3 ??; by etrans]. }
  apply then_release, (on_conn_moves R). apply TcpConnection.on_event_moves; [done|..].
  - intros w w' ? ? ?. by apply Hsame, user_same.
  - eapply moves_mono, conn_cb_keeps. exact Hsame.
  - eapply moves_mono, wc_cb_keeps. exact Hsame.
  - eapply moves_mono, close_cb_keeps. exact Hsame.
  - apply msg_cb_moves.
  - intros b w. by apply Hsame.
Qed.

Lemma accept_reg_keeps {X} (m : M (Channel.t * EpollPoller.t) X) : keeps view (zoom accept_reg m).
Proof. by apply moves_zoom. Qed.
Lemma accept_keeps {X} (m : M Channel.t X) : keeps view (zoom accept_lens m).
Proof. by apply moves_zoom. Qed.
#[local] Hint Resolve accept_reg_keeps accept_keeps : moves.

Lemma start_keeps : keeps view (start (K := K) (A := A) (G := G)).
Proof.
  unfold start, Channel.enable_reading, Channel.change_events, accept_update, EventLoop.update_channel.
  moves_walk.
Qed.

Lemma new_connection_keeps fd k : keeps view (new_connection conn_cb_ fd k).
Proof.
  unfold new_connection. moves_walk. apply on_conn_keeps, TcpConnection.connection_established_moves;
    [exact _|apply user_same|apply conn_cb_keeps].
Qed.
#[local] Hint Resolve new_connection_keeps release_keeps : moves.

Lemma accept_event_keeps revents accepted :
  keeps view (accept_event conn_cb_ app_holds revents accepted).
Proof.
  unfold accept_event, Channel.handle_event, Channel.handle_event_with_guard, call_if, handle_accept.
  moves_walk.
Qed.

(** *** The loop's functors *)

Lemma view_with_split fs s : view_with fs s = (app s, app_functors fs ++ (view s).2).
Proof. unfold view_with. by rewrite app_functors_app. Qed.

Lemma view_with_same fs s s' : view s' = view s -> view_with fs s' = view_with fs s.
Proof. intros Hv. pose proof (f_equal fst Hv) as Ha. simpl in Ha. by rewrite !view_with_split, Hv, Ha. Qed.

Abbreviation run_functor' := (run_functor conn_cb_ wc_cb_ app_functor).

Lemma run_queued_moves f fs s s' :
  run_functor' f s = Ret s' () -> R (view_with (f :: fs) s) (view_with fs s').
Proof.
  destruct f as [id f|id g]; simpl.
  - intros Hs. assert (keeps view (on_conn id (TcpConnection.run_functor (channel_of id)
      (cb_of conn_cb_ id) (cb_of wc_cb_ id) (close_cb conn_cb_ id) f))) as Hk.
    { apply on_conn_keeps, TcpConnection.run_functor_moves;
        [exact _|apply user_same|apply conn_cb_keeps|apply wc_cb_keeps|apply close_cb_keeps]. }
    by rewrite (view_with_same fs s s' (Hk _ _ _ Hs)).
  - unfold on_conn. destruct (objects s !! id) as [o|]; [|done].
    destruct (app_functor id g (enter s o)) as [w []| | |] eqn:Hw; try done. intros [= <-].
    destruct (app_functor_moves id g _ _ (app_functors (fs ++ pending s)) Hw) as [Hp Hr].
    rewrite leave_view. unfold view_with.
    rewrite (app_functors_app fs (pending (TcpConnection.user w))), Hp, <- app_functors_app. exact Hr.
Qed.

Lemma run_functors_moves batch fs s s' :
  for_each (fun f => run_functor' f ;; release app_holds batch) fs s = Ret s' () ->
  R (view_with fs s) (view s').
Proof.
  revert s. induction fs as [|f fs IH]; intros s; simpl; [by intros [= <-]|].
  unfold mbind, M_bind. destruct (run_functor' f s) as [s1 []| | |] eqn:Hs; try done.
  intros Hfs. etrans; [by eapply run_queued_moves|].
  exact (IH (released app_holds batch s1) Hfs).
Qed.

Lemma run_pending_moves s s' :
  run_pending conn_cb_ wc_cb_ app_functor app_holds s = Ret s' () -> moved s s'.
Proof.
  unfold run_pending. intros (s1 & batch & [= <- <-] & Hrun)%bind_ret_inv.
  apply bind_ret_inv in Hrun as (s1 & [] & Hrun & [= <-]).
  unfold EventLoop.do_pending_functors in Hrun.
  apply bind_ret_inv in Hrun as (s2 & [] & [= <-] & Hrun).
  apply bind_ret_inv in Hrun as (s3 & fs & [= <- <-] & Hrun).
  apply bind_ret_inv in Hrun as (s4 & [] & [= <-] & Hrun).
  apply bind_ret_inv in Hrun as (s5 & [] & Hrun & [= <-]).
  apply run_functors_moves in Hrun. rewrite view_with_split in Hrun.
  unfold view at 1, view_with in Hrun. simpl in Hrun. rewrite app_nil_r in Hrun. exact Hrun.
Qed.

(** After a turn none of the owner's functors is left: none queues another. *)
Lemma run_queued_pending f s s' : run_functor' f s = Ret s' () -> (view s').2 = (view s).2.
Proof.
  destruct f as [id f|id g]; simpl.
  - intros Hs. enough (keeps view (on_conn id (TcpConnection.run_functor (channel_of id)
      (cb_of conn_cb_ id) (cb_of wc_cb_ id) (close_cb conn_cb_ id) f))) as Hk
      by exact (f_equal snd (Hk _ _ _ Hs)).
    apply on_conn_keeps, TcpConnection.run_functor_moves;
      [exact _|apply user_same|apply conn_cb_keeps|apply wc_cb_keeps|apply close_cb_keeps].
  - unfold on_conn. destruct (objects s !! id) as [o|]; [|done].
    destruct (app_functor id g (enter s o)) as [w []| | |] eqn:Hw; try done. intros [= <-].
    destruct (app_functor_moves id g _ _ [] Hw) as [Hp _].
    etrans; [exact (f_equal snd (leave_user id w))|exact Hp].
Qed.

Lemma run_pending_empties s s' :
  run_pending conn_cb_ wc_cb_ app_functor app_holds s = Ret s' () -> (view s').2 = [].
Proof.
  set (queued := fun s : S => (view s).2).
  assert (forall batch f, keeps queued (run_functor' f ;; release app_holds batch)) as Hrun.
  { intros batch f. apply moves_bind; [exact _| |by intros []; apply moves_modify].
    intros s1 s2 []. apply run_queued_pending. }
  intros Hs. change (queued s' = []). unfold run_pending in Hs.
  apply bind_ret_inv in Hs as (s1 & batch & [= <- <-] & Hs).
  apply bind_ret_inv in Hs as (s1 & [] & Hs & [= <-]). unfold EventLoop.do_pending_functors in Hs.
  apply bind_ret_inv in Hs as (s2 & [] & [= <-] & Hs).
  apply bind_ret_inv in Hs as (s3 & fs & [= <- <-] & Hs).
  apply bind_ret_inv in Hs as (s4 & [] & [= <-] & Hs).
  apply bind_ret_inv in Hs as (s5 & [] & Hs & [= <-]).
  exact (moves_for_each (unchanged queued) _ _ (Hrun _) _ _ _ Hs).
Qed.

Lemma perform_moves a c c' :
  perform conn_cb_ msg_cb_ wc_cb_ app_functor app_holds a c = Ret c' () -> moved c.1 c'.1.
Proof.
  assert (forall m : M S unit, moves moved m -> zoom lens_fst m c = Ret c' () -> moved c.1 c'.1) as Hfst.
  { intros m Hm Hc. by apply (moves_zoom_in (fun c c' : config => moved c.1 c'.1) lens_fst moved m
      (fun _ _ H => H) Hm _ _ _ Hc). }
  assert (forall w w', TcpConnection.the_input w' = TcpConnection.the_input w ->
    TcpConnection.user w' = TcpConnection.user w ->
    EventLoop.calm (TcpConnection.loop w) (TcpConnection.loop w') ->
    unchanged user_view w w') as Hrest by apply user_same.
  destruct a as [|active|revents accepted| |id|id data|id]; simpl.
  - apply Hfst, keeps_moved, start_keeps.
  - intros [= <-]. by destruct c.
  - unfold dispatch, mbind, M_bind, gets. destruct c.2 as [|x active]; [by intros [= <-]|].
    unfold zoom at 1. simpl. intros Hc. change c.1 with (c.1, active).1.
    apply (moves_zoom_in (fun c c' : config => moved c.1 c'.1) lens_fst moved) in Hc; [done|done|].
    destruct (x =? 0); [apply keeps_moved, accept_event_keeps|apply conn_event_moves].
  - intros Hc. unfold zoom in Hc.
    destruct (run_pending _ _ _ _ _) as [s' []| | |] eqn:Hs; try done. injection Hc as <-.
    by apply run_pending_moves.
  - apply Hfst, then_release, keeps_moved, on_conn_keeps, TcpConnection.force_close_moves; [exact _|done].
  - apply Hfst, then_release, keeps_moved, on_conn_keeps, TcpConnection.send_moves;
      [exact _|done|apply conn_cb_keeps|apply wc_cb_keeps|apply close_cb_keeps].
  - apply Hfst, then_release, keeps_moved, on_conn_keeps, TcpConnection.shutdown_moves;
      [exact _|done|apply conn_cb_keeps|apply wc_cb_keeps|apply close_cb_keeps].
Qed.

End view.

(** ** No action disturbs the loop *)

Section calm.
Context {K A G : Type} `{Socket K}.
Abbreviation S := (t K A G).
Abbreviation W := (TcpConnection.world K S).
Variables conn_cb_ msg_cb_ wc_cb_ : option (Z -> M W unit).
Variable app_functor : Z -> G -> M W unit.
Variable app_holds : A -> Z -> bool.

Definition quitting (s : S) : bool := EventLoop.quit_ (loop_ s).
Definition calm (s s' : S) : Prop := EventLoop.calm (loop_ s) (loop_ s').
Definition conn_calm (w w' : W) : Prop := EventLoop.calm (TcpConnection.loop w) (TcpConnection.loop w').

#[local] Instance calm_preorder : PreOrder calm.
Proof. split; [by intros s; unfold calm|intros s1 s2 s3; unfold calm; by etrans]. Qed.
#[local] Instance conn_calm_preorder : PreOrder conn_calm.
Proof. split; [by intros w; unfold conn_calm|intros w1 w2 w3; unfold conn_calm; by etrans]. Qed.

Hypothesis conn_cb_calm : forall id, moves conn_calm (call_if (cb_of conn_cb_ id)).
Hypothesis msg_cb_calm : forall id, moves conn_calm (call_if (cb_of msg_cb_ id)).
Hypothesis wc_cb_calm : forall id, moves conn_calm (call_if (cb_of wc_cb_ id)).
Hypothesis app_functor_calm : forall id g, moves conn_calm (app_functor id g).

Lemma calm_rest (w w' : W) :
  TcpConnection.the_input w' = TcpConnection.the_input w -> TcpConnection.user w' = TcpConnection.user w ->
  EventLoop.calm (TcpConnection.loop w) (TcpConnection.loop w') -> conn_calm w w'.
Proof. done. Qed.

Lemma on_conn_calm {X} id (m : M W X) : moves conn_calm m -> moves calm (on_conn id m).
Proof.
  intros Hm s s' x. unfold on_conn. destruct (objects s !! id) as [o|]; [|done].
  destruct (m (enter s o)) as [w y| | |] eqn:Hw; try done. intros [= <- _].
  destruct (Hm _ _ _ Hw) as [Hq He]. by split.
Qed.

Lemma close_cb_calm id : moves conn_calm (call_if (close_cb conn_cb_ id)).
Proof.
  simpl. unfold remove_connection. apply moves_bind; [exact _|by apply moves_zoom|intros _].
  apply TcpConnection.connection_destroyed_moves; [exact _|apply calm_rest|apply conn_cb_calm].
Qed.
#[local] Hint Resolve conn_cb_calm msg_cb_calm wc_cb_calm close_cb_calm app_functor_calm : moves.

Lemma release_calm batch : moves calm (release app_holds batch).
Proof. by apply moves_modify. Qed.

Lemma accept_reg_calm {X} (m : M (Channel.t * EpollPoller.t) X) : moves calm (zoom accept_reg m).
Proof. by apply moves_zoom. Qed.
Lemma accept_calm {X} (m : M Channel.t X) : moves calm (zoom accept_lens m).
Proof. by apply moves_zoom. Qed.
Lemma loop_calm g :
  (forall l, EventLoop.calm l (g l)) -> moves calm (zoom loop_lens (modify g)).
Proof. intros Hg s s' [] [= <-]. apply Hg. Qed.
#[local] Hint Resolve release_calm accept_reg_calm accept_calm : moves.
#[local] Hint Extern 0 (calm _ _) => apply EventLoop.calm_same; reflexivity : moves.
#[local] Hint Extern 0 (moves calm (zoom loop_lens (modify _))) =>
  apply loop_calm; intros; apply EventLoop.calm_same; reflexivity : moves.

Lemma start_calm : moves calm (start (K := K) (A := A) (G := G)).
Proof.
  unfold start, Channel.enable_reading, Channel.change_events, accept_update, EventLoop.update_channel.
  moves_walk.
Qed.

Lemma new_connection_calm fd k : moves calm (new_connection conn_cb_ fd k).
Proof.
  unfold new_connection. moves_walk. apply on_conn_calm, TcpConnection.connection_established_moves;
    [exact _|apply calm_rest|apply conn_cb_calm].
Qed.
#[local] Hint Resolve new_connection_calm : moves.

Lemma accept_event_calm revents accepted :
  moves calm (accept_event conn_cb_ app_holds revents accepted).
Proof.
  unfold accept_event, Channel.handle_event, Channel.handle_event_with_guard, call_if, handle_accept.
  moves_walk.
Qed.

Lemma conn_event_calm id revents :
  moves calm (conn_event conn_cb_ msg_cb_ wc_cb_ app_holds id revents).
Proof.
  unfold conn_event. moves_walk. apply on_conn_calm, TcpConnection.on_event_moves;
    first [exact _|apply calm_rest|by auto with moves|done].
Qed.

Lemma run_functor_calm f : moves calm (run_functor conn_cb_ wc_cb_ app_functor f).
Proof.
  destruct f as [id f|id g]; simpl; apply on_conn_calm; [|done].
  apply TcpConnection.run_functor_moves; first [exact _|apply calm_rest|by auto with moves].
Qed.

Lemma run_pending_calm : moves calm (run_pending conn_cb_ wc_cb_ app_functor app_holds).
Proof.
  unfold run_pending, EventLoop.do_pending_functors. moves_walk.
  apply moves_for_each; [exact _|]. intros f. moves_walk. apply run_functor_calm.
Qed.

Lemma act_calm a c c' :
  perform conn_cb_ msg_cb_ wc_cb_ app_functor app_holds a c = Ret c' () -> calm c.1 c'.1.
Proof.
  assert (forall (m : M S unit) (x y : config), moves calm m -> zoom lens_fst m x = Ret y () ->
    calm x.1 y.1) as Hfst.
  { intros m x y Hm. unfold zoom. destruct (m (lget lens_fst x)) as [s' []| | |] eqn:Hs; try done.
    intros [= <-]. exact (Hm _ _ _ Hs). }
  assert (forall (m : M S unit), moves calm m -> moves calm (m ;; release app_holds [])) as Hrel
    by (intros; by moves_walk).
  destruct a as [|active|revents accepted| |id|id data|id]; simpl.
  - apply Hfst, start_calm.
  - by intros [= <-].
  - unfold dispatch, mbind, M_bind, gets. destruct c.2 as [|x active]; [by intros [= <-]|].
    unfold zoom at 1. simpl. intros Hc. apply Hfst in Hc; [done|].
    destruct (x =? 0); [apply accept_event_calm|apply conn_event_calm].
  - apply Hfst, run_pending_calm.
  - apply Hfst, Hrel, on_conn_calm, TcpConnection.force_close_moves; [exact _|done].
  - apply Hfst, Hrel, on_conn_calm, TcpConnection.send_moves; first [exact _|done|by auto with moves].
  - apply Hfst, Hrel, on_conn_calm, TcpConnection.shutdown_moves; first [exact _|done|by auto with moves].
Qed.

End calm.

End TcpOwner.
