(* ===== verification/RpcServe.v ===== *)
(** * The whole server (src/rpc/rpc_server.cpp on src/net/tcp_server.cpp)

    [RpcServer] as the owner of a [TcpServer]: the callbacks its constructor
    sets, the codec between the connections' buffers and [on_frame], the
    workers, and the functors that send the responses from the loop.  Here the
    hypotheses on callbacks in TcpServer.v and TcpOwner.v are discharged with
    the callbacks of the program: the whole server is safe, and refines the
    server of RpcServer.v. *)

From Stdlib Require Import ZArith Lia.
From S2P Require Import Prelude Cxx NetBuffer Codec Channel EpollPoller EventLoop TcpConnection TcpServer.
From S2P Require Import TcpOwner Rpc RpcServer RpcSystem.
Import Proto.
Local Open Scope Z_scope.

Module RpcServe.
#[local] Existing Instances TcpConnection.ext0_preorder TcpConnection.ext_preorder
  TcpConnection.input_lens_ok.

Section code.
Context {K U Msg : Type} `{Socket K} `{Message RpcRequest} `{Message RpcResponse} `{Message Msg}.

(** The frames that the codec has delivered and the responses that it has been
    given to send, in order: the code keeps no such history. *)
Record history := mk_history {
  frames : list (Z * bytes);
  responses : list (Z * RpcResponse);
}.

(** The members of the [RpcServer] besides its [TcpServer]; connections are
    named by their ids. *)
Abbreviation rpc := (RpcServer.t (Conn := Z) (U := U) (Msg := Msg) (N := history)).
Abbreviation S := (TcpServer.t K rpc RpcResponse).
Abbreviation W := (TcpConnection.world K S).
Variable host : Wire.endian.

Definition app_lens : Lens S rpc := mkLens TcpServer.app TcpServer.set_app.
Definition rpc_lens : Lens W rpc :=
  mkLens (fun w => TcpServer.app (TcpConnection.user w))
    (fun a w => lset TcpServer.owner_lens (TcpServer.set_app a (TcpConnection.user w)) w).

Definition note_frame (id : Z) (frame : bytes) (h : history) : history :=
  mk_history (frames h ++ [(id, frame)]) (responses h).
Definition note_response (id : Z) (resp : RpcResponse) (h : history) : history :=
  mk_history (frames h) (responses h ++ [(id, resp)]).
Definition note (f : history -> history) : M W unit :=
  zoom rpc_lens (zoom RpcServer.net_lens (modify f)).

(** *** On the loop's thread *)

(** [on_connection(conn)] only writes to the log. *)
Definition on_connection (id : Z) : M W unit := mret ().
Definition conn_cb : option (Z -> M W unit) := Some on_connection.

(** [codec::Codec::send(conn, resp)] *)
Definition send_response (id : Z) (resp : RpcResponse) : M W unit :=
  RpcSystem.send_response host (TcpServer.channel_of id) (TcpServer.cb_of conn_cb id)
    (TcpServer.close_cb conn_cb id) resp.
Definition codec_send (id : Z) (resp : RpcResponse) : M W unit :=
  note (note_response id resp) ;; send_response id resp.

Definition on_frame (id : Z) (frame : bytes) : M W unit :=
  note (note_frame id frame) ;; RpcServer.on_frame rpc_lens codec_send id frame.

(** [on_message(conn, buf)]: the codec has no error callback. *)
Definition on_message (id : Z) : M W unit :=
  Codec.on_message host TcpConnection.input_lens (on_frame id) None (TcpConnection.force_close true).
Definition msg_cb : option (Z -> M W unit) := Some on_message.

(** *** On the workers *)

(** [conn->loop()->run_in_loop(\[conn, resp\]{ ... })] *)
Definition queue_response (id : Z) (resp : RpcResponse) : M S unit :=
  EventLoop.queue_in_loop TcpServer.loop_lens false (TcpServer.AppFunctor id resp).

(** A worker takes the task at [i] off the pool and runs it. *)
Definition work (i : nat) : M S unit :=
  s ← gets (lget app_lens);
  match RpcServer.tasks s !! i with
  | None => mret ()
  | Some tk =>
      zoom app_lens (modify (RpcServer.set_tasks (delete i (RpcServer.tasks s)))) ;;
      RpcServer.dispatch_request app_lens queue_response tk
  end.

(** A task's closure holds its connection. *)
Definition holds (a : rpc) (id : Z) : bool :=
  existsb (fun tk => RpcServer.task_conn tk =? id) (RpcServer.tasks a).

(** *** Its owner's calls, from another thread *)

Definition register_service (service : RpcServer.Service U Msg) : M S unit :=
  RpcServer.register_service app_lens service.
Definition quit : M S unit := EventLoop.quit TcpServer.loop_lens false.

(** *** What [loop()] does besides dispatching and running functors *)

Definition enter_loop : M S unit :=
  zoom TcpServer.loop_lens (modify (EventLoop.set_quit false)).
Definition handle_read : M S unit := EventLoop.handle_read TcpServer.loop_lens.

(** The server when its constructor has opened the listening descriptor. *)
Definition make (listen_fd : Z) (l : EventLoop.t (TcpServer.functor RpcResponse)) (u : U) : S :=
  TcpServer.make listen_fd l (RpcServer.mk ∅ false [] [] u (mk_history [] [])).

(** [~RpcServer()] on the loop's thread, after [loop()] has returned: the body,
    then the members, last to first: the pool's workers run what is queued,
    then the connections are destroyed. *)
Definition drain : M S unit :=
  queued ← gets (fun s => length (RpcServer.tasks (TcpServer.app s)));
  for_each (fun _ => work 0) (seq 0 queued).
Definition destroy (order : list Z) : M S unit :=
  EventLoop.quit TcpServer.loop_lens true ;;
  drain ;;
  TcpServer.destroy conn_cb order.

(** *** What happens to the server *)

Inductive event :=
| OnLoop (a : TcpServer.action (K := K))
| EnterLoop
| HandleRead
| Work (i : nat)
| Register (service : RpcServer.Service U Msg)
| Quit.

Definition perform (e : event) : M (TcpServer.config (K := K) (A := rpc) (G := RpcResponse)) unit :=
  match e with
  | OnLoop a => TcpServer.perform conn_cb msg_cb None codec_send holds a
  | EnterLoop => zoom lens_fst (enter_loop ;; TcpServer.release holds [])
  | HandleRead => zoom lens_fst (handle_read ;; TcpServer.release holds [])
  | Work i => zoom lens_fst (work i ;; TcpServer.release holds [])
  | Register service => zoom lens_fst (register_service service ;; TcpServer.release holds [])
  | Quit => zoom lens_fst (quit ;; TcpServer.release holds [])
  end.

End code.

Section proofs.
Context {K U Msg : Type} `{SocketOk K} `{Message RpcRequest} `{Message RpcResponse} `{Message Msg}.
Abbreviation rpc := (RpcServer.t (Conn := Z) (U := U) (Msg := Msg) (N := history)).
Abbreviation S := (TcpServer.t K rpc RpcResponse).
Abbreviation W := (TcpConnection.world K S).
Variable host : Wire.endian.

(** A message serializes to at most 2 GB, as protocol buffers do. *)
Hypothesis serialized_size : forall resp : RpcResponse, zlen (SerializeToString resp).2 <= int_max.

(** A call that completes, and throws nothing. *)
Definition call_completes (svc : RpcServer.Service U Msg) (m : nat) (req : Msg) : Prop := forall u,
  wp (RpcServer.CallMethod svc m req) u (fun _ r => r <> None).

(** A service that completes the calls of its methods on their requests. *)
Definition completes (svc : RpcServer.Service U Msg) : Prop := forall name m args req,
  RpcServer.FindMethodByName svc name = Some m -> RpcServer.ParseArgs svc m args = Some req ->
  call_completes svc m req.
Definition task_completes (tk : RpcServer.task (Conn := Z) (U := U) (Msg := Msg)) : Prop :=
  call_completes (RpcServer.task_service tk) (RpcServer.task_method tk) (RpcServer.task_request tk).

(** The pool accepts tasks, and the services complete their calls. *)
Record rpc_ok (a : rpc) : Prop := {
  ok_running : RpcServer.stopped a = false;
  ok_services : map_Forall (fun _ => completes) (RpcServer.services_ a);
  ok_tasks : Forall task_completes (RpcServer.tasks a);
}.

Abbreviation owner := (TcpServer.owner (K := K) (G := RpcResponse) holds rpc_ok).
Abbreviation good id s m := (forall fd k0 m0,
  TcpConnection.good (TcpServer.channel_of id) fd k0 m0 (owner id s) (TcpServer.gone id) m).

(** ** The callbacks are sound *)

Lemma on_connection_good id s : good id s (call_if (TcpServer.cb_of conn_cb id)).
Proof. intros fd k0 m0. apply TcpConnection.good_ret. Qed.

Lemma no_callback_good id s : good id s (call_if (TcpServer.cb_of None id)).
Proof. intros fd k0 m0. apply TcpConnection.good_ret. Qed.

(** A change of the server's state that keeps what it holds, but for [id]. *)
Lemma set_app_good id s a fd k0 m0 w :
  TcpConnection.inv (TcpServer.channel_of id) fd k0 m0 (owner id s) w ->
  rpc_ok a -> (forall id', holds a id' = true -> id' = id \/ holds (lget rpc_lens w) id' = true) ->
  TcpConnection.inv (TcpServer.channel_of id) fd k0 m0 (owner id s) (lset rpc_lens a w) /\
  TcpConnection.ext (TcpServer.gone id) w (lset rpc_lens a w).
Proof.
  intros [? ? ? ? (? & ? & ? & ? & ? & ? & ? & _ & Hh)] Hok Ha. split.
  - split; try done. split_and!; try done. intros id' Hid'.
    destruct (Ha id' Hid') as [|Hold]; [by left|]. by apply Hh.
  - split; [by split|by left|done].
Qed.

Lemma owner_ok id s fd k0 m0 w :
  TcpConnection.inv (TcpServer.channel_of id) fd k0 m0 (owner id s) w -> rpc_ok (lget rpc_lens w).
Proof. intros Hw. by destruct (TcpConnection.inv_user _ _ _ _ _ _ Hw) as (_&_&_&_&_&_&_&?&_). Qed.

Lemma note_good id f s m : good id s m -> good id s (note f ;; m).
Proof.
  intros Hm fd k0 m0 w Hw. unfold note. wpe_pures.
  pose proof (owner_ok _ _ _ _ _ _ Hw) as [? ? ?].
  destruct (set_app_good id s (lset RpcServer.net_lens (f (RpcServer.net (lget rpc_lens w))) (lget rpc_lens w))
    fd k0 m0 w Hw) as [Hw1 He1]; [by split|by right|].
  by apply TcpConnection.good_from; [apply Hm|..].
Qed.

Lemma send_response_good id resp s : good id s (send_response host id resp).
Proof.
  intros fd k0 m0 w Hw. unfold send_response, RpcSystem.send_response.
  pose proof (serialized_size resp) as Hsz. unfold int_max in Hsz.
  destruct (SerializeToString resp) as [[] bs]; cbn [snd] in *; [|by apply TcpConnection.good_ret].
  pose proof (zlen_nonneg bs). apply Codec.send_raw_wpe.
  { unfold Buffer.kPrependSize, Buffer.kInitialSize, Mem.max_size. lia. }
  intros b Hb Hc.
  eapply wpe_mono; [apply (TcpConnection.send_buffer_wpe (TcpServer.channel_of id) _ None _ fd k0 m0
    (owner id s) (TcpServer.gone id))| |done]; try done.
  - intros w'. by apply (TcpServer.remove_connection_lets_go conn_cb (codec_send host) holds rpc_ok on_connection_good).
  - unfold Buffer.is_object. rewrite Hc. unfold Framing.encode.
    rewrite !zlen_app, !Wire.be32_zlen. unfold Mem.max_size. lia.
  - intros p [] (? & ? & _). by split.
Qed.

Lemma codec_send_good id resp s : good id s (codec_send host id resp).
Proof. apply note_good, send_response_good. Qed.

Lemma on_frame_good id frame s : good id s (on_frame host id frame).
Proof.
  apply note_good. intros fd k0 m0 w Hw. unfold RpcServer.on_frame.
  destruct (ParseFromString frame) as [req|]; [|by apply TcpConnection.good_ret]. wpe_pures.
  destruct (RpcServer.services_ _ !! _) as [svc|] eqn:Hsvc; [|by apply codec_send_good].
  destruct (RpcServer.FindMethodByName svc _) as [m|] eqn:Hm; [|by apply codec_send_good].
  destruct (RpcServer.ParseArgs svc m _) as [args|] eqn:Hargs; [|by apply codec_send_good].
  unfold RpcServer.submit. wpe_pures. destruct (owner_ok _ _ _ _ _ _ Hw) as [Hrun Hsvcs Htasks].
  rewrite Hrun. wpe_pures. apply set_app_good; [done|split; try done|].
  - simpl. apply Forall_app. split; [done|]. apply Forall_singleton. exact (Hsvcs _ _ Hsvc _ _ _ _ Hm Hargs).
  - intros id'. unfold holds. simpl. rewrite existsb_app, orb_true_iff. simpl. rewrite orb_false_r.
    intros [?|Heq%Z.eqb_eq]; [by right|by left].
Qed.

(** ** How far the callbacks move the state *)

(** Sending changes neither the input buffer nor what the server's owner sees. *)
Section sending.
Variable R : W -> W -> Prop.
Context `{!PreOrder R}.
Hypothesis R_rest : forall w w', TcpConnection.the_input w' = TcpConnection.the_input w ->
  TcpConnection.user w' = TcpConnection.user w ->
  EventLoop.calm (TcpConnection.loop w) (TcpConnection.loop w') -> R w w'.
Hypothesis R_table : forall w m, R w (lset TcpServer.owner_lens (TcpServer.set_connections m (TcpConnection.user w)) w).

Lemma close_cb_moves id : moves R (call_if (TcpServer.close_cb conn_cb id)).
Proof.
  simpl. unfold TcpServer.remove_connection. apply moves_bind; [done| |intros _].
  - intros w w' []. unfold zoom, modify. simpl. intros [= <-]. apply R_table.
  - apply TcpConnection.connection_destroyed_moves; [done|done|]. simpl. by apply moves_ret.
Qed.

Lemma send_response_moves id resp : moves R (send_response host id resp).
Proof.
  unfold send_response, RpcSystem.send_response, Codec.send.
  destruct (SerializeToString resp) as [[] bs]; [|by apply moves_ret].
  assert (PreOrder (fun p q : W * Buffer.t => R p.1 q.1)).
  { split; [by intros p|intros p q r ??; by etrans]. }
  unfold Codec.send_raw. apply moves_with_local.
  repeat (apply moves_bind; [done|by apply moves_zoom|]; intros _).
  apply TcpConnection.send_buffer_moves; try done; [by apply moves_ret..|apply close_cb_moves].
Qed.

End sending.

(** So [on_frame] leaves the input buffer alone. *)
Abbreviation same_input := (unchanged (TcpConnection.the_input (K := K) (U := S))).

Lemma note_keeps f : moves same_input (note f).
Proof. by apply moves_zoom. Qed.

Lemma codec_send_keeps id resp : moves same_input (codec_send host id resp).
Proof.
  unfold codec_send. apply moves_bind; [exact _|apply note_keeps|]. intros _.
  by apply send_response_moves; [exact _|..].
Qed.

Lemma on_frame_keeps id frame : moves same_input (on_frame host id frame).
Proof.
  unfold on_frame. apply moves_bind; [exact _|apply note_keeps|]. intros _.
  unfold RpcServer.on_frame, RpcServer.submit. moves_walk; apply codec_send_keeps.
Qed.

Lemma on_message_good id s : good id s (call_if (TcpServer.cb_of (msg_cb host) id)).
Proof.
  intros fd k0 m0 w Hw. simpl. unfold on_message.
  apply (Codec.on_message_keeps host TcpConnection.input_lens (on_frame host id) None
    (TcpConnection.force_close true) (fun w' =>
      TcpConnection.inv (TcpServer.channel_of id) fd k0 m0 (owner id s) w' /\
      TcpConnection.ext (TcpServer.gone id) w w')).
  - intros w' [[] _]. done.
  - intros w' b [[] He] Hb. split; [by split|]. etrans; [exact He|]. split; [by split|by left|done].
  - intros f w' [Hw' He]. apply (wpe_moves same_input); [apply on_frame_keeps|].
    by apply TcpConnection.good_from; [apply on_frame_good|..].
  - intros why w' [Hw' He]. unfold Codec.reject. apply wpe_bind, wpe_ret.
    apply TcpConnection.good_from; [|done..].
    apply (TcpConnection.good_force_close _ _ _ _ _ TcpServer.allowed); [|done].
    intros u fs f Hf. by apply TcpServer.owner_push.
  - by split.
Qed.

(** ** The workers *)

Lemma holds_true (a : rpc) id :
  holds a id = true <-> exists tk, tk ∈ RpcServer.tasks a /\ RpcServer.task_conn tk = id.
Proof.
  unfold holds. rewrite existsb_exists.
  split; intros (tk & Hin & Heq); exists tk; (split; [by apply list_elem_of_In|lia]).
Qed.

(** A worker's step changes the server only as its owner may. *)
Lemma work_wpe i s E :
  rpc_ok (TcpServer.app s) ->
  wpe (work (K := K) i) s (fun s' _ => TcpServer.app_step holds rpc_ok s s' /\
    RpcServer.tasks (TcpServer.app s') = delete i (RpcServer.tasks (TcpServer.app s)) /\
    RpcServer.net (TcpServer.app s') = RpcServer.net (TcpServer.app s)) E.
Proof.
  intros [Hrun Hsvcs Htasks]. unfold work. wpe_pures. simpl.
  destruct (RpcServer.tasks (TcpServer.app s) !! i) as [tk|] eqn:Htk.
  2: { apply wpe_ret. split; [split; try done; exists []; simpl; by rewrite app_nil_r|]. split; [|done].
       apply lookup_ge_None in Htk. by rewrite delete_take_drop, take_ge, drop_ge, app_nil_r by lia. }
  pose proof (list_elem_of_lookup_2 _ _ _ Htk) as Hin.
  unfold RpcServer.dispatch_request. wpe_pures. apply wp_wpe. eapply wp_mono.
  { rewrite Forall_forall in Htasks. by apply Htasks. }
  cbv beta. intros u [[ctl resp]|] Hr; [|done].
  unfold queue_response, EventLoop.queue_in_loop, EventLoop.wakeup. simpl. wpe_pures.
  split; [|done]. split; try done; simpl.
  - split; [done|done|]. by apply Forall_delete.
  - intros id. rewrite !holds_true. intros (tk' & Hin' & <-). exists tk'.
    split; [|done]. by eapply list_elem_of_delete_inv.
  - eexists [(_, _)]. split; [done|]. repeat constructor. simpl. apply holds_true. by exists tk.
Qed.

(** Neither do [quit()] and [register_service()]. *)
Lemma quit_wpe (s : S) E :
  rpc_ok (TcpServer.app s) -> wpe quit s (fun s' _ => TcpServer.app_step holds rpc_ok s s') E.
Proof.
  intros Hok. unfold quit, EventLoop.quit, EventLoop.wakeup. simpl. wpe_pures.
  split; try done. exists []. unfold TcpServer.pending. simpl. by rewrite app_nil_r.
Qed.

(** So do [loop()] itself and the handler of the wake-up channel. *)
Lemma set_loop_wpe f (s : S) E :
  rpc_ok (TcpServer.app s) ->
  (forall l, EventLoop.poller_ (f l) = EventLoop.poller_ l /\
     EventLoop.pending_functors_ (f l) = EventLoop.pending_functors_ l) ->
  wpe (zoom TcpServer.loop_lens (modify f)) s (fun s' _ => TcpServer.app_step holds rpc_ok s s') E.
Proof.
  intros Hok Hf. wpe_pures. destruct (Hf (TcpServer.loop_ s)) as [Hp Hq].
  split; try done. exists []. unfold TcpServer.pending. simpl. by rewrite Hq, app_nil_r.
Qed.

Lemma register_wpe svc (s : S) E :
  completes svc -> rpc_ok (TcpServer.app s) ->
  wpe (register_service svc) s (fun s' _ => TcpServer.app_step holds rpc_ok s s') E.
Proof.
  intros Hsvc [Hrun Hsvcs Htasks]. unfold register_service, RpcServer.register_service. wpe_pures.
  split; try done; simpl.
  - split; [done| |done]. by apply map_Forall_insert_2.
  - exists []. unfold TcpServer.pending. simpl. by rewrite app_nil_r.
Qed.

(** ** The destructor *)

(** The descriptors of the loop's other channels. *)
Variable rest : TcpServer.others.
Abbreviation core := (TcpServer.core (K := K) (G := RpcResponse) holds rpc_ok rest []).

(** What the workers leave as it is when they run all the tasks. *)
Record drained (s s' : S) : Prop := {
  dr_tasks : RpcServer.tasks (TcpServer.app s') = [];
  dr_net : RpcServer.net (TcpServer.app s') = RpcServer.net (TcpServer.app s);
  dr_table : TcpServer.connections_ s' = TcpServer.connections_ s;
  dr_objects : TcpServer.objects s' = TcpServer.objects s;
  dr_accept : TcpServer.accept_channel_ s' = TcpServer.accept_channel_ s;
}.

Lemma run_tasks_wpe {A} (l : list A) (s : S) E :
  core s -> length (RpcServer.tasks (TcpServer.app s)) = length l ->
  wpe (for_each (fun _ => work 0) l) s (fun s' _ => core s' /\ drained s s') E.
Proof.
  revert s. induction l as [|x l IH]; intros s Hs Hlen; simpl.
  { apply nil_length_inv in Hlen. by split. }
  apply wpe_bind. eapply wpe_mono; [apply work_wpe, (TcpServer.c_app_ok _ _ _ _ _ Hs)| |done].
  cbv beta. intros s1 [] (Hstep & Htasks & Hnet).
  eapply wpe_mono; [apply IH; [by eapply TcpServer.app_step_core|]| |done].
  - rewrite Htasks. destruct (RpcServer.tasks (TcpServer.app s)); [done|]. simpl in *. lia.
  - cbv beta. intros s2 [] (? & [? ? ? ? ?]). destruct Hstep. split; [done|]. split; congruence.
Qed.

Lemma drain_wpe (s : S) E : core s -> wpe drain s (fun s' _ => core s' /\ drained s s') E.
Proof. intros Hs. unfold drain. wpe_pures. apply run_tasks_wpe; [done|by rewrite length_seq]. Qed.

Lemma rpc_destroy_wpe order (s : S) :
  core s -> order ≡ₚ elements (TcpServer.connections_ s) ->
  wpe (destroy order) s (fun s' _ => TcpServer.dying rpc_ok rest [] s' /\
    TcpServer.connections_ s' = ∅) TcpConnection.oom.
Proof.
  intros Hs Horder. unfold destroy, EventLoop.quit. simpl. wpe_pures.
  set (s1 := lset TcpServer.loop_lens _ s).
  assert (core s1) as Hs1.
  { apply (TcpServer.app_step_core _ _ _ s); [done|]. split; try done; [apply Hs|].
    exists []. unfold TcpServer.pending. simpl. by rewrite app_nil_r. }
  eapply wpe_mono; [by apply drain_wpe| |done]. cbv beta. intros s2 [] (Hs2 & [_ _ Htab _ _]).
  apply (TcpServer.destroy_wpe conn_cb (msg_cb host) None (codec_send host) holds);
    auto using on_connection_good, on_message_good, no_callback_good, codec_send_good.
  by rewrite Htab.
Qed.

(** ** Runs *)

Abbreviation config := (TcpServer.config (K := K) (A := rpc) (G := RpcResponse)).
Abbreviation config_inv := (TcpServer.config_inv (K := K) (G := RpcResponse) holds rpc_ok rest).

(** The loop's thread and the kernel as in TcpServer.v; a worker, or the thread
    that quits, may run at any time; services are registered before the first
    request arrives. *)
Definition event_ok (c : config) (e : event) : Prop :=
  match e with
  | OnLoop a => TcpServer.action_ok rest c a
  | Register service => completes service /\ frames (RpcServer.net (TcpServer.app c.1)) = []
  | EnterLoop | HandleRead | Work _ | Quit => True
  end.

Inductive reachable (s0 : S) : config -> Prop :=
| reach_init : reachable s0 (s0, [])
| reach_event c e c' : reachable s0 c -> event_ok c e -> perform host e c = Ret c' () ->
    reachable s0 c'.

(** A step of the owner, and what it lets go. *)
Lemma owner_step_wp (m : M S unit) (c : config) :
  wp m c.1 (fun s' _ => TcpServer.app_step holds rpc_ok c.1 s') ->
  wp (zoom lens_fst (m ;; TcpServer.release holds [])) c (fun c' _ => exists s',
    TcpServer.app_step holds rpc_ok c.1 s' /\ c' = (TcpServer.released holds [] s', c.2)).
Proof.
  intros Hm. apply wp_zoom, wp_bind. eapply wp_mono; [exact Hm|].
  intros s' [] Hs'. unfold TcpServer.release. wp_pures. by exists s'.
Qed.

Lemma owner_event_wp e c :
  config_inv c -> event_ok c e -> (forall a, e <> OnLoop a) ->
  wp (perform host e) c (fun c' _ => exists s',
    TcpServer.app_step holds rpc_ok c.1 s' /\ c' = (TcpServer.released holds [] s', c.2)).
Proof.
  intros ([Hcore _] & _) Hev He. pose proof (TcpServer.c_app_ok _ _ _ _ _ Hcore) as Hok.
  destruct e as [a| | |i|svc|]; [by destruct (He a)|..]; apply owner_step_wp.
  - by apply set_loop_wpe.
  - by apply set_loop_wpe.
  - eapply wp_mono; [by apply work_wpe|]. by intros s' _ [].
  - by apply register_wpe; [apply Hev|].
  - by apply quit_wpe.
Qed.

Section server.
Variables (listen_fd : Z) (l : EventLoop.t (TcpServer.functor RpcResponse)).
Variable u : U.
Hypothesis Hl : TcpServer.loop_ready rest l.
Hypothesis Hfd : listen_fd ∉ rest.
Abbreviation s0 := (make (K := K) listen_fd l u).

Lemma s0_inv : TcpServer.inv holds rpc_ok rest s0.
Proof. apply TcpServer.make_inv; [done| |done]. split; [|done]. by split. Qed.

Lemma reachable_tcp c :
  reachable s0 c ->
  TcpServer.reachable conn_cb (msg_cb host) None (codec_send host) holds rpc_ok rest s0 c.
Proof.
  induction 1 as [|c e c' _ IH Hok Hrun]; [apply TcpServer.reach_init|].
  assert (TcpServer.reachable conn_cb (msg_cb host) None (codec_send host) holds rpc_ok rest s0 c ->
    config_inv c) as Hinv by (apply TcpServer.reachable_config_inv; auto using s0_inv,
      on_connection_good, on_message_good, no_callback_good, codec_send_good).
  assert ((forall a, e <> OnLoop a) ->
    TcpServer.reachable conn_cb (msg_cb host) None (codec_send host) holds rpc_ok rest s0 c') as Hstep.
  { intros He. pose proof (owner_event_wp e c (Hinv IH) Hok He) as Hw. unfold wp, wpe in Hw.
    rewrite Hrun in Hw. destruct Hw as (s' & Hs' & ->). destruct c as [s active].
    by apply (TcpServer.reach_app _ _ _ _ _ _ _ _ s). }
  destruct e as [a| | |i|svc|]; [by eapply TcpServer.reach_step|by apply Hstep..].
Qed.

Lemma reachable_config c : reachable s0 c -> config_inv c.
Proof.
  intros Hc%reachable_tcp. eapply TcpServer.reachable_config_inv; [..|exact Hc];
    auto using s0_inv, on_connection_good, on_message_good, no_callback_good, codec_send_good.
Qed.

(** Whatever happens next goes well. *)
Lemma event_wpe c e :
  reachable s0 c -> event_ok c e -> wpe (perform host e) c (fun _ _ => True) TcpConnection.oom.
Proof.
  intros Hc%reachable_config He. destruct e as [a| | |i|svc|].
  1: { eapply wpe_mono; [eapply (TcpServer.perform_wpe conn_cb (msg_cb host) None
         (codec_send host) holds rpc_ok rest); auto using
         on_connection_good, on_message_good, no_callback_good, codec_send_good|done..]. }
  all: apply wp_wpe; eapply wp_mono; [by apply owner_event_wp|done].
Qed.

(** C7. The whole server is safe.  [RpcServer] with its callbacks, its codec and
    its workers on a [TcpServer]: in every state it can reach, whatever the peers
    send, whatever the kernel answers, however the workers interleave with the
    loop and whoever quits, a task that waits for a worker and a response that
    waits for the loop have their connection; a connection outside the table is
    closed, unregistered and held by one of those or a queued close; and whatever happens next, no
    destroyed connection is used, no assertion fails and no worker blocks (only
    an allocation can fail).  At the end [~RpcServer()] runs the queued tasks and
    leaves no connection and not the acceptor in the poller or the kernel. *)
Theorem rpc_server_run c (Hr : reachable s0 c) :
  (forall tk, tk ∈ RpcServer.tasks (TcpServer.app c.1) ->
     task_completes tk /\
     is_Some (TcpServer.objects c.1 !! RpcServer.task_conn tk)) /\
  (forall id resp, TcpServer.AppFunctor id resp ∈ TcpServer.pending c.1 ->
     is_Some (TcpServer.objects c.1 !! id)) /\
  (forall id o, TcpServer.objects c.1 !! id = Some o -> id ∉ TcpServer.connections_ c.1 ->
     TcpServer.off_object o /\ TcpServer.holder holds [] c.1 id = true) /\
  (forall e, event_ok c e -> wpe (perform host e) c (fun _ _ => True) TcpConnection.oom) /\
  (forall order, order ≡ₚ elements (TcpServer.connections_ c.1) ->
     wpe (destroy order) c.1 (fun s' _ => TcpServer.connections_ s' = ∅ /\
       exists k, EpollPoller.Interest.replay (EpollPoller.calls (TcpServer.poller s')) ∅ = Some k /\
         forall fd, fd ∉ rest -> k !! fd = None /\
           EpollPoller.channels_ (TcpServer.poller s') !! fd = None) TcpConnection.oom).
Proof.
  pose proof (reachable_config c Hr) as Hc. pose proof Hc as ([Hcore Hheld] & _).
  destruct (TcpServer.c_app_ok _ _ _ _ _ Hcore) as [_ _ Htasks]. split_and!.
  - intros tk Htk. rewrite Forall_forall in Htasks. split; [by apply Htasks|].
    apply (TcpServer.c_app _ _ _ _ _ Hcore), holds_true. by exists tk.
  - intros id resp Hin. pose proof (TcpServer.c_pending _ _ _ _ _ Hcore) as Hp.
    rewrite app_nil_r, Forall_forall in Hp. by apply (Hp _ Hin).
  - intros id o Ho Hid. split; [by apply (TcpServer.c_off _ _ _ _ _ Hcore id)|].
    by destruct (Hheld id o Ho).
  - intros e He. by apply event_wpe.
  - intros order Ho. eapply wpe_mono; [by apply rpc_destroy_wpe| |done].
    intros s' [] [Hd Ht]. split; [done|by apply (TcpServer.dying_nothing_left rpc_ok)].
Qed.

End server.

End proofs.

(** ** The whole server refines RpcServer.v *)

Section refinement.
Context {K U Msg : Type} `{Socket K} `{Message RpcRequest} `{Message RpcResponse} `{Message Msg}.
Abbreviation rpc := (RpcServer.t (Conn := Z) (U := U) (Msg := Msg) (N := history)).
Abbreviation S := (TcpServer.t K rpc RpcResponse).
Abbreviation W := (TcpConnection.world K S).
Variable host : Wire.endian.

(** The server of RpcServer.v whose network is the list of the responses. *)
Abbreviation server := (RpcServer.t (Conn := Z) (U := U) (Msg := Msg) (N := list (Z * RpcResponse))).
Definition log (id : Z) (resp : RpcResponse) : M (list (Z * RpcResponse)) unit :=
  modify (fun l => l ++ [(id, resp)]).
Definition abstract (v : rpc * list (Z * RpcResponse)) : server :=
  RpcServer.mk (RpcServer.services_ v.1) (RpcServer.stopped v.1) (RpcServer.tasks v.1) v.2
    (RpcServer.user v.1) (responses (RpcServer.net v.1)).
Definition delivered (v : rpc * list (Z * RpcResponse)) : list (Z * bytes) :=
  frames (RpcServer.net v.1).

(** The owner's view advances by steps of that server, on the frames that were
    delivered. *)
Definition advances (v v' : rpc * list (Z * RpcResponse)) : Prop :=
  exists fs, delivered v' = delivered v ++ fs /\ RpcServer.steps log (abstract v) fs (abstract v').

Lemma steps_app (a b c : server) fs gs :
  RpcServer.steps log a fs b -> RpcServer.steps log b gs c -> RpcServer.steps log a (fs ++ gs) c.
Proof.
  induction 1 as [|a fs1 a1 fs2 b Hs _ IH]; [done|]. intros Hc. rewrite <- app_assoc.
  eapply RpcServer.steps_trans; [exact Hs|by apply IH].
Qed.

#[local] Instance advances_preorder : PreOrder advances.
Proof.
  split.
  - intros v. exists []. split; [by rewrite app_nil_r|apply RpcServer.steps_refl].
  - intros v1 v2 v3 (fs & Hf & Hs) (gs & Hg & Ht). exists (fs ++ gs).
    rewrite Hg, Hf, app_assoc. split; [done|by eapply steps_app].
Qed.

Lemma advances_step v v' fs :
  delivered v' = delivered v ++ fs -> RpcServer.step log (abstract v) fs (abstract v') -> advances v v'.
Proof.
  intros Hf Hs. exists fs. split; [done|]. rewrite <- (app_nil_r fs).
  eapply RpcServer.steps_trans; [exact Hs|apply RpcServer.steps_refl].
Qed.

Abbreviation user_view := (fun w : W => TcpOwner.view (TcpConnection.user w)).

Lemma send_response_keeps id resp : keeps user_view (send_response host id resp).
Proof.
  apply send_response_moves; [exact _|apply TcpOwner.user_same|done].
Qed.

(** A response that is sent is noted, and nothing else changes for the owner. *)
Lemma codec_send_view id resp w w' :
  codec_send host id resp w = Ret w' () ->
  user_view w' = (lset RpcServer.net_lens
    (note_response id resp (RpcServer.net (lget rpc_lens w))) (lget rpc_lens w), (user_view w).2).
Proof.
  intros (w1 & [] & [= <-] & Hs)%bind_ret_inv. exact (send_response_keeps id resp _ _ _ Hs).
Qed.

Lemma on_frame_advances id frame :
  moves (fun w w' => advances (user_view w) (user_view w')) (on_frame host id frame).
Proof.
  intros w w' [] (w1 & [] & Hnote & Hrun)%bind_ret_inv.
  set (v1 := (lset RpcServer.net_lens (note_frame id frame (RpcServer.net (lget rpc_lens w))) (lget rpc_lens w),
    (user_view w).2)).
  assert (user_view w1 = v1) as Hv1 by by injection Hnote as <-. clear Hnote.
  assert (delivered v1 = delivered (user_view w) ++ [(id, frame)]) as Hd1 by done.
  assert (lget rpc_lens w1 = v1.1) as Ha1 by by rewrite <- Hv1.
  assert (RpcServer.frame_arrives log id frame (abstract (user_view w)) = Ret (abstract (user_view w')) () /\
    delivered (user_view w') = delivered v1) as [Harr Hd].
  2: { apply (advances_step _ _ [(id, frame)]); [by rewrite Hd|by apply RpcServer.step_frame]. }
  assert (forall resp, codec_send host id resp w1 = Ret w' () ->
    RpcServer.send log id resp (abstract (user_view w)) = Ret (abstract (user_view w')) () /\
    delivered (user_view w') = delivered v1) as Hsend.
  { intros resp Hs. pose proof (codec_send_view id resp w1 w' Hs) as Hv. cbv beta in *.
    rewrite Ha1, Hv1 in Hv. by rewrite Hv. }
  unfold RpcServer.frame_arrives, RpcServer.on_frame in *.
  destruct (ParseFromString frame) as [req|]; [|injection Hrun as <-; by rewrite Hv1].
  apply bind_ret_inv in Hrun as (w2 & services & [= <- <-] & Hrun).
  change (TcpServer.app (TcpConnection.user w1)) with (lget rpc_lens w1) in Hrun. rewrite Ha1 in Hrun.
  unfold mbind at 1, M_bind, gets.
  change (RpcServer.services_ (lget lens_id (abstract (TcpOwner.view (TcpConnection.user w))))) with (RpcServer.services_ v1.1).
  destruct (RpcServer.services_ v1.1 !! _) as [svc|]; [|by apply Hsend].
  destruct (RpcServer.FindMethodByName svc _) as [m|]; [|by apply Hsend].
  destruct (RpcServer.ParseArgs svc m _) as [args|]; [|by apply Hsend].
  unfold RpcServer.submit in *. apply bind_ret_inv in Hrun as (w2 & stop & [= <- <-] & Hrun).
  change (TcpServer.app (TcpConnection.user w1)) with (lget rpc_lens w1) in Hrun. rewrite Ha1 in Hrun. unfold mbind at 1, M_bind, gets.
  change (RpcServer.stopped (lget lens_id (abstract (TcpOwner.view (TcpConnection.user w))))) with (RpcServer.stopped v1.1).
  destruct (RpcServer.stopped v1.1); [done|].
  set (a' := RpcServer.set_tasks (RpcServer.tasks v1.1 ++ [RpcServer.mk_task id (request_id req) svc m args]) v1.1).
  assert (w' = lset rpc_lens a' w1) as ->.
  { unfold zoom, modify in Hrun. rewrite Ha1 in Hrun. by injection Hrun. }
  assert (TcpOwner.view (TcpConnection.user (lset rpc_lens a' w1)) = (a', v1.2)) as ->
    by by rewrite <- Hv1.
  done.
Qed.

Lemma on_message_advances id :
  moves (fun w w' => advances (user_view w) (user_view w')) (call_if (TcpServer.cb_of (msg_cb host) id)).
Proof.
  assert (PreOrder (fun w w' : W => advances (user_view w) (user_view w'))).
  { split; [by intros w|intros w1 w2 w3 ??; by etrans]. }
  simpl. unfold on_message. apply Codec.on_message_moves; [done|done|apply on_frame_advances|].
  intros why. unfold Codec.reject. apply moves_bind; [done|by apply moves_ret|]. intros _.
  apply TcpConnection.force_close_moves; [done|]. by intros w w' _ -> _.
Qed.

(** The loop runs the functor that sends a response. *)
Lemma functor_advances id resp w w' fs :
  codec_send host id resp w = Ret w' () ->
  TcpOwner.app_functors (TcpServer.pending (TcpConnection.user w')) =
    TcpOwner.app_functors (TcpServer.pending (TcpConnection.user w)) /\
  advances (TcpServer.app (TcpConnection.user w), (id, resp) :: fs)
    (TcpServer.app (TcpConnection.user w'), fs).
Proof.
  intros Hs%codec_send_view. cbv beta in Hs.
  unfold TcpOwner.view, TcpOwner.view_with in Hs. simpl app in Hs. injection Hs as Ha Hp. split; [done|].
  rewrite Ha. apply (advances_step _ _ []); [by rewrite app_nil_r|].
  by eapply (RpcServer.step_reply _ (id, resp) fs).
Qed.

(** What a worker that finds a task does. *)
Lemma work_runs i (s s' : S) tk :
  let a := TcpServer.app s in
  RpcServer.tasks a !! i = Some tk -> work i s = Ret s' () ->
  exists u ctl r, RpcServer.CallMethod (RpcServer.task_service tk) (RpcServer.task_method tk)
      (RpcServer.task_request tk) (RpcServer.user a) = Ret u (Some (ctl, r)) /\
    TcpOwner.view s' = (lset RpcServer.user_lens u (RpcServer.set_tasks (delete i (RpcServer.tasks a)) a),
      (TcpOwner.view s).2 ++ [(RpcServer.task_conn tk, RpcServer.make_response (RpcServer.task_id tk) ctl r)]).
Proof.
  intros a Htk (s1 & a1 & [= <- <-] & Hrun)%bind_ret_inv. simpl in Hrun. fold a in Hrun. rewrite Htk in Hrun.
  apply bind_ret_inv in Hrun as (s1 & [] & [= <-] & Hrun).
  apply bind_ret_inv in Hrun as (s2 & r & Hcall & Hrun). unfold zoom in Hcall. simpl in Hcall. fold a in Hcall.
  destruct (RpcServer.CallMethod _ _ _ _) as [u r'| | |]; try done. injection Hcall as <- <-.
  destruct r' as [[ctl r]|]; [|done]. exists u, ctl, r. split; [done|]. injection Hrun as <-.
  unfold TcpOwner.view, TcpOwner.view_with, TcpServer.pending. simpl.
  by rewrite !TcpOwner.app_functors_app.
Qed.

Lemma work_advances i (s s' : S) :
  work i s = Ret s' () -> advances (TcpOwner.view s) (TcpOwner.view s').
Proof.
  intros Hrun. destruct (RpcServer.tasks (TcpServer.app s) !! i) as [tk|] eqn:Htk.
  2: { assert (s' = s) as ->; [|done]. unfold work, mbind, M_bind, gets in Hrun. simpl in Hrun.
       rewrite Htk in Hrun. by injection Hrun. }
  destruct (work_runs i s s' tk Htk Hrun) as (u & ctl & r & Hcall & ->).
  apply (advances_step _ _ []); [by rewrite app_nil_r|].
  eapply (RpcServer.step_work _ (take i (RpcServer.tasks (TcpServer.app s))) tk
    (drop (Datatypes.S i) (RpcServer.tasks (TcpServer.app s)))); [simpl; by rewrite take_drop_middle|].
  rewrite <- delete_take_drop.
  unfold RpcServer.worker_runs, RpcServer.dispatch_request, mbind, M_bind, zoom. simpl. by rewrite Hcall.
Qed.

Lemma event_advances e (c c' : TcpServer.config) :
  (forall svc, e <> Register svc) -> perform host e c = Ret c' () ->
  advances (TcpOwner.view c.1) (TcpOwner.view c'.1).
Proof.
  intros He. destruct e as [a| | |i|svc|]; simpl; [| | | |by destruct (He svc)|].
  - apply (TcpOwner.perform_moves conn_cb (msg_cb host) None (codec_send host) holds advances);
      [by intros id w w' x [= <- _]..|apply on_message_advances|intros; by apply functor_advances].
  - by intros [= <-].
  - by intros [= <-].
  - unfold zoom, mbind, M_bind. destruct (work i (lget lens_fst c)) as [s1 []| | |] eqn:Hs; try done.
    intros [= <-]. exact (work_advances _ _ _ Hs).
  - by intros [= <-].
Qed.

(** At the end of a turn every response that was queued has been sent. *)
Lemma turn_sends_queued (c c' : TcpServer.config (A := rpc)) :
  perform host (OnLoop TcpServer.RunPending) c = Ret c' () -> (TcpOwner.view c'.1).2 = [].
Proof.
  simpl. unfold zoom. destruct (TcpServer.run_pending _ _ _ _ _) as [s []| | |] eqn:Hs; try done. intros [= <-].
  eapply (TcpOwner.run_pending_empties conn_cb None (codec_send host) holds advances); [| | |exact Hs].
  - by intros id w w' x [= <- _].
  - by intros id w w' x [= <- _].
  - intros. by apply functor_advances.
Qed.

(** From a server without work only a frame makes a step. *)
Lemma step_brings (a b : server) fs :
  RpcServer.step log a fs b -> RpcServer.tasks a = [] -> RpcServer.functors a = [] -> fs <> [].
Proof.
  intros [| l1 tk l2 s s' Htk _|f gs s s' Hgs _] Ht Hf; [done|rewrite Ht in Htk; by destruct l1|congruence].
Qed.

Lemma steps_nothing (a b : server) fs :
  RpcServer.tasks a = [] -> RpcServer.functors a = [] -> RpcServer.steps log a fs b -> fs = [] -> b = a.
Proof.
  intros Ht Hf Hsteps. revert Ht Hf. destruct Hsteps as [|a fs1 b1 fs2 b2 Hstep _]; [done|].
  intros Ht Hf [-> ->]%app_nil.
  by destruct (step_brings _ _ _ Hstep Ht Hf).
Qed.

Lemma log_appends id resp l : wp (log id resp) l (fun l' _ => l' = l ++ [(id, resp)]).
Proof. done. Qed.

Section server.
Variables (rest : TcpServer.others) (listen_fd : Z) (l : EventLoop.t (TcpServer.functor RpcResponse)) (u : U).
Hypothesis Hl : EventLoop.pending_functors_ l = [].
Abbreviation s0 := (make (K := K) (Msg := Msg) listen_fd l u).

(** The server of RpcServer.v before its first frame. *)
Definition fresh (services : gmap string (RpcServer.Service U Msg)) : server :=
  RpcServer.mk services false [] [] u [].

Lemma fresh_accounted services fs (a : server) :
  RpcServer.steps log (fresh services) fs a ->
  RpcServer.accounted (fun n => n) services (RpcServer.requests fs) a.
Proof.
  intros Hsteps.
  apply (RpcServer.steps_accounted log (fun n => n) log_appends services [] _ _ _ Hsteps).
  split; [done|]. exists [], []. by split_and!.
Qed.

(** Only [register_service()] changes the table of the services. *)
Lemma refines_event e (c c' : TcpServer.config) :
  let services := RpcServer.services_ (TcpServer.app c.1) in
  RpcServer.steps log (fresh services) (delivered (TcpOwner.view c.1)) (abstract (TcpOwner.view c.1)) ->
  (forall svc, e <> Register svc) -> perform host e c = Ret c' () ->
  RpcServer.services_ (TcpServer.app c'.1) = services /\
  RpcServer.steps log (fresh services) (delivered (TcpOwner.view c'.1)) (abstract (TcpOwner.view c'.1)).
Proof.
  intros services Hc He Hrun. destruct (event_advances e c c' He Hrun) as (fs & Hfs & Hsteps).
  assert (RpcServer.steps log (fresh services) (delivered (TcpOwner.view c'.1)) (abstract (TcpOwner.view c'.1)))
    as Hall by (rewrite Hfs; by eapply steps_app).
  split; [|done]. exact (RpcServer.acc_services _ _ _ _ (fresh_accounted _ _ _ Hall)).
Qed.

Lemma refines c :
  reachable host rest s0 c ->
  RpcServer.steps log (fresh (RpcServer.services_ (TcpServer.app c.1)))
    (delivered (TcpOwner.view c.1)) (abstract (TcpOwner.view c.1)).
Proof.
  induction 1 as [|c e c' _ IH Hok Hrun].
  { unfold abstract, TcpOwner.view, TcpOwner.view_with, TcpServer.pending. simpl. rewrite Hl.
    apply RpcServer.steps_refl. }
  assert ((forall svc, e <> Register svc) \/ exists svc, e = Register svc) as [He|[svc ->]]
    by (destruct e; eauto; by left).
  - by destruct (refines_event e c c' IH He Hrun) as [-> ?].
  - destruct Hok as [_ Hnone]. apply steps_nothing in IH; [|done..].
    injection Hrun as <-. unfold abstract in *. injection IH as Hst Ht Hf Hu Hn.
    unfold delivered. simpl in *. rewrite Hnone.
    match goal with |- context [TcpServer.pending ?s] =>
      change (TcpServer.pending s) with (TcpServer.pending c.1) end.
    rewrite Hst, Ht, Hf, Hu, Hn. apply RpcServer.steps_refl.
Qed.

(** C1. The whole server does what RpcServer.v says.  In every state that
    [RpcServer] on its [TcpServer] can reach, whatever the peers, the kernel, the
    workers and the owner do: the frames that its codec delivered, its tasks, the
    responses queued on the loop and those given to [Codec::send] are those of a
    run of the server of RpcServer.v on exactly these frames.  So once no task
    and no functor is left, requests and responses correspond one to one, each
    response right and on the connection of its request. *)
Theorem server_refines c (Hr : reachable host rest s0 c) :
  let services := RpcServer.services_ (TcpServer.app c.1) in
  RpcServer.steps log (fresh services)
    (delivered (TcpOwner.view c.1)) (abstract (TcpOwner.view c.1)) /\
  (RpcServer.tasks (TcpServer.app c.1) = [] -> (TcpOwner.view c.1).2 = [] ->
   exists finished, RpcServer.requests (delivered (TcpOwner.view c.1)) ≡ₚ finished /\
     Forall2 (RpcServer.answers_on services) finished (responses (RpcServer.net (TcpServer.app c.1)))).
Proof.
  intros services. pose proof (refines c Hr) as Hruns. split; [exact Hruns|]. intros Ht Hf.
  destruct (fresh_accounted _ _ _ Hruns) as [_ (waiting & finished & Hp & Hw & Hfin)].
  simpl in Hw, Hfin. rewrite Ht in Hw. apply Forall2_nil_inv_r in Hw as ->.
  exists finished. split; [done|].
  unfold TcpOwner.view, TcpOwner.view_with in Hf. simpl in Hf. rewrite Hf, app_nil_r in Hfin. exact Hfin.
Qed.

End server.

End refinement.

(** ** A server of the echo service, with a socket that delivers *)

Module Demo.
Import RpcServer.Echo RpcSystem.Demo.

(** The bytes that the peer has sent, and those sent to it. *)
Record duplex := mk_duplex { incoming : bytes; outgoing : bytes }.

#[export] Instance duplex_socket : Socket duplex := {
  sys_write data k := (WriteOk (zlen data), mk_duplex (incoming k) (outgoing k ++ data));
  sys_readv cap k :=
    match incoming k with
    | [] => (Buffer.ReadErr EWOULDBLOCK, k)
    | bs => (Buffer.ReadOk (ztake cap bs), mk_duplex (zdrop cap bs) (outgoing k))
    end;
  sys_shutdown k := k;
}.

#[export] Instance duplex_ok : SocketOk duplex.
Proof.
  refine {| sent := outgoing |}; simpl.
  - intros data k n k' [= <- <-]. pose proof (zlen_nonneg data). simpl. split; [lia|].
    by rewrite ztake_all.
  - intros data k e k' [=].
  - intros cap k d k' Hcap. destruct (incoming k) as [|b bs]; [done|]. intros [= <- <-].
    split; [|done]. unfold ztake, zlen. rewrite length_take. lia.
  - intros cap k e k'. destruct (incoming k); [|done]. by intros [= <- <-].
  - done.
Defined.

Abbreviation server := (TcpServer.t duplex (RpcServer.t (Conn := Z) (U := nat) (Msg := bytes) (N := history)) RpcResponse).
Definition server0 : server := make 3 TcpServer.Demo.loop0 0%nat.

Abbreviation run := (for_each (perform Wire.LittleEndian)).
Definition result (es : list (event (K := duplex) (U := nat) (Msg := bytes))) : TcpServer.config :=
  match run es (server0, []) with Ret c _ => c | _ => (server0, []) end.

(** The peer connects with a request in flight; the loop reads it. *)
Definition peer : duplex := mk_duplex (Framing.encode [Byte.x01]) [].
Definition accepting : list (event (K := duplex) (U := nat) (Msg := bytes)) :=
  [Register echo; OnLoop TcpServer.Start; OnLoop (TcpServer.Poll [0]);
   OnLoop (TcpServer.Dispatch Epoll.EPOLLIN (Some (9, peer)))].
Definition reading : list (event (K := duplex) (U := nat) (Msg := bytes)) :=
  [OnLoop (TcpServer.Poll [1]); OnLoop (TcpServer.Dispatch Epoll.EPOLLIN None)].

(** The response, framed, is what the peer gets. *)
Example request_is_answered :
  let c := result (accepting ++ reading ++ [Work 0; OnLoop TcpServer.RunPending]) in
  outgoing <$> (snd <$> TcpServer.objects c.1 !! 1) = Some (Framing.encode [Byte.x01; Byte.x02]).
Proof. by vm_compute. Qed.

(** The peer hangs up while the worker runs: the task, then the response, hold
    the connection; the response is dropped, and then nothing is left of it. *)
Example late_response_is_dropped :
  let hung := accepting ++ reading ++
    [OnLoop (TcpServer.Poll [1]); OnLoop (TcpServer.Dispatch Epoll.EPOLLHUP None)] in
  TcpServer.connections_ (result hung).1 = ∅ /\
  dom (TcpServer.objects (result hung).1) = {[1]} /\
  TcpServer.pending (result (hung ++ [Work 0])).1 =
    [TcpServer.AppFunctor 1 (mk_response 41 true [Byte.x68; Byte.x69] "")] /\
  outgoing <$> (snd <$> TcpServer.objects (result (hung ++ [Work 0])).1 !! 1) = Some [] /\
  TcpServer.objects (result (hung ++ [Work 0; OnLoop TcpServer.RunPending])).1 = ∅.
Proof. by vm_compute. Qed.

(** The server with the task of the request waiting is reachable. *)
Lemma echo_completes : completes echo.
Proof. done. Qed.

Lemma serialized_size (resp : RpcResponse) : zlen (SerializeToString resp).2 <= int_max.
Proof. simpl. repeat case_decide; by vm_compute. Qed.

Section reached.
(** Whatever else the loop has open. *)
Variable rest : TcpServer.others.
Hypothesis Hlisten : 3 ∉ rest.
Hypothesis Hpeer : 9 ∉ rest.

Abbreviation reached := (reachable Wire.LittleEndian rest server0).
Lemma reach_result es e :
  reached (result es) -> event_ok rest (result es) e ->
  perform Wire.LittleEndian e (result es) = Ret (result (es ++ [e])) () -> reached (result (es ++ [e])).
Proof. intros. by eapply reach_event. Qed.

Lemma reading_reachable : reached (result (accepting ++ reading)).
Proof using Hlisten Hpeer.
  apply (reach_result (accepting ++ [OnLoop (TcpServer.Poll [1])])
    (OnLoop (TcpServer.Dispatch Epoll.EPOLLIN None))); [|by vm_compute|by vm_compute].
  apply (reach_result accepting (OnLoop (TcpServer.Poll [1]))); [| |by vm_compute].
  2: { split_and!; [by vm_compute|apply NoDup_singleton|]. repeat constructor; [done|].
       exists 9. split; [done|by vm_compute]. }
  apply (reach_result [_; _; _] (OnLoop (TcpServer.Dispatch Epoll.EPOLLIN (Some (9, peer)))));
    [| |by vm_compute].
  2: { split; [by vm_compute|]. split; [|by vm_compute]. split_and!; [by vm_compute|done|].
       by intros id o. }
  apply (reach_result [_; OnLoop TcpServer.Start] (OnLoop (TcpServer.Poll [0]))); [| |by vm_compute].
  2: { split_and!; [by vm_compute|apply NoDup_singleton|]. repeat constructor; [done|].
       exists 3. split; [done|by vm_compute]. }
  apply (reach_result [Register echo] (OnLoop TcpServer.Start)); [|done|by vm_compute].
  apply (reach_result [] (Register echo)); [apply reach_init|by split|by vm_compute].
Qed.
End reached.

Lemma listen_not_rest : 3 ∉ TcpServer.Demo.rest.
Proof. by apply TcpServer.Demo.not_rest. Qed.
Lemma peer_not_rest : 9 ∉ TcpServer.Demo.rest.
Proof. by apply TcpServer.Demo.not_rest. Qed.

Lemma rpc_server_run_witness :
  let c := result (accepting ++ reading) in
  (exists tk, RpcServer.tasks (TcpServer.app c.1) = [tk] /\ task_completes tk /\
     is_Some (TcpServer.objects c.1 !! RpcServer.task_conn tk)) /\
  (forall e, event_ok TcpServer.Demo.rest c e ->
     wpe (perform Wire.LittleEndian e) c (fun _ _ => True) TcpConnection.oom).
Proof.
  destruct (rpc_server_run (Msg := bytes) Wire.LittleEndian serialized_size TcpServer.Demo.rest 3 TcpServer.Demo.loop0
    0%nat TcpServer.Demo.loop0_ready listen_not_rest
    _ (reading_reachable _ listen_not_rest peer_not_rest)) as (Htasks & _ & _ & Hall & _).
  split; [|exact Hall].
  exists (RpcServer.mk_task 1 41 echo 0%nat [Byte.x68; Byte.x69]). split; [vm_compute; reflexivity|].
  apply Htasks. vm_compute. left.
Defined.

(** Once the response is on its way, request and response correspond. *)
Lemma answered_reachable :
  reachable Wire.LittleEndian TcpServer.Demo.rest server0 (result (accepting ++ reading ++ [Work 0; OnLoop TcpServer.RunPending])).
Proof.
  apply (reach_result _ (accepting ++ reading ++ [Work 0]) (OnLoop TcpServer.RunPending));
    [|by vm_compute|by vm_compute].
  apply (reach_result _ (accepting ++ reading) (Work 0)); [|done|by vm_compute].
  apply (reading_reachable _ listen_not_rest peer_not_rest).
Qed.

Lemma server_refines_witness :
  exists finished, [(1, good_request)] ≡ₚ finished /\
    Forall2 (RpcServer.answers_on ({["Echo" := echo]} : gmap string (RpcServer.Service nat bytes)))
      finished [(1, mk_response 41 true [Byte.x68; Byte.x69] "")].
Proof.
  destruct (server_refines (Msg := bytes) Wire.LittleEndian TcpServer.Demo.rest 3 TcpServer.Demo.loop0
    0%nat eq_refl _ answered_reachable) as [_ Hall].
  apply Hall; vm_compute; reflexivity.
Defined.

End Demo.

End RpcServe.
