(* ===== verification/RpcWire.v ===== *)
(** * The server's bytes (src/rpc/rpc_server.cpp over src/net)

    What the whole server of RpcServe.v reads and writes on each connection,
    against what it has been asked and what it has answered: the frames given
    to [on_frame] are those of the bytes that were read, cut as the wire format
    says, and the bytes written are the frames of the responses, in order.  A
    relation between the states before and after each operation that returns;
    RpcServe.v shows that they do. *)

From Stdlib Require Import ZArith Lia.
From S2P Require Import Prelude Cxx NetBuffer Codec Channel EpollPoller EventLoop TcpConnection TcpServer.
From S2P Require Import TcpOwner Rpc RpcServer RpcSystem RpcServe.
Import Protocol Proto.
Local Open Scope Z_scope.

(** [received]: the bytes that the kernel has handed over, in order. *)
Class Receiving (K : Type) `{Socket K} := {
  received : K -> bytes;
  readv_received cap k d k' : sys_readv cap k = (Buffer.ReadOk d, k') -> received k' = received k ++ d;
  readv_failed cap k e k' : sys_readv cap k = (Buffer.ReadErr e, k') -> received k' = received k;
  write_received data k r k' : sys_write data k = (r, k') -> received k' = received k;
  shutdown_received k : received (sys_shutdown k) = received k;
}.

Module RpcWire.
Import RpcServe.
#[local] Existing Instances TcpConnection.state_eq_dec TcpConnection.input_lens_ok.

(** ** Streams of frames *)

(** What arrives later is parsed after what was left. *)
Lemma deframe_grow cap q x fs r st :
  Framing.deframe cap q = (fs, r, st) ->
  Framing.deframe cap (q ++ x) = let '(fs', r', st') := Framing.deframe cap (r ++ x) in (fs ++ fs', r', st').
Proof.
  intros Hd. rewrite Framing.deframe_app, Hd. destruct st; [done|..];
    rewrite (Framing.deframe_app _ r x), (Framing.deframe_stop _ _ _ _ _ Hd); by rewrite app_nil_r.
Qed.

Section wire.
Context {K U Msg : Type} `{SocketOk K} `{!Receiving K}.
Context `{Message RpcRequest} `{Message RpcResponse} `{Message Msg}.
Abbreviation rpc := (RpcServer.t (Conn := Z) (U := U) (Msg := Msg) (N := history)).
Abbreviation S := (TcpServer.t K rpc RpcResponse).
Abbreviation W := (TcpConnection.world K S).
Variable host : Wire.endian.
Implicit Types (w : W) (s : S) (h : history).

(** The frames delivered from a connection, and the bytes of the responses given
    to [Codec::send] for it. *)
Definition frames_on (id : Z) h : list bytes := (filter (fun f => f.1 = id) (frames h)).*2.
Definition frame_of (resp : RpcResponse) : bytes :=
  let '(ok, bs) := SerializeToString resp in if ok then Framing.encode bs else [].
Definition answer_bytes (id : Z) h : bytes :=
  concat (frame_of <$> (filter (fun r => r.1 = id) (responses h)).*2).

Definition hist w : history := RpcServer.net (TcpServer.app (TcpConnection.user w)).

Definition bufs w : Prop :=
  Buffer.wf (TcpConnection.input_buf_ (TcpConnection.conn w)) /\
  Buffer.wf (TcpConnection.output_buf_ (TcpConnection.conn w)).

(** What was accepted for sending: what the kernel has and what is buffered. *)
Definition out_ok (id : Z) w : Prop :=
  TcpConnection.stream w `prefix_of` answer_bytes id (hist w) /\
  (TcpConnection.state w = TcpConnection.kConnected -> TcpConnection.stream w = answer_bytes id (hist w)).
Definition in_ok (id : Z) w : Prop := exists st,
  Framing.deframe kMaxBodySize (received (TcpConnection.sock w)) =
    (frames_on id (hist w), Buffer.contents (TcpConnection.the_input w), st).
Record wire (id : Z) w : Prop := {
  wr_bufs : bufs w;
  wr_out : out_ok id w;
  wr_in : in_ok id w;
}.

(** ** Operations that neither read nor send *)

Record still w w' : Prop := {
  st_received : received (TcpConnection.sock w') = received (TcpConnection.sock w);
  st_input : TcpConnection.the_input w' = TcpConnection.the_input w;
  st_hist : hist w' = hist w;
  st_stream : TcpConnection.stream w' = TcpConnection.stream w;
  st_state : TcpConnection.state w' = TcpConnection.kConnected -> TcpConnection.state w = TcpConnection.kConnected;
}.
Definition quiet w w' : Prop := bufs w -> bufs w' /\ still w w'.

#[local] Instance still_preorder : PreOrder still.
Proof. split; [by intros w|]. intros w1 w2 w3 [] []. split; [congruence..|auto]. Qed.

#[local] Instance quiet_preorder : PreOrder quiet.
Proof.
  split; [by intros w Hw|]. intros w1 w2 w3 H12 H23 Hw1.
  destruct (H12 Hw1) as [Hw2 ?]. destruct (H23 Hw2). split; [done|by etrans].
Qed.

Lemma quiet_intro (m : M W unit) :
  (forall w, bufs w -> wlp m w (fun w' _ => bufs w' /\ still w w')) -> moves quiet m.
Proof. intros Hm w w' [] Hrun Hw. by apply (Hm w Hw w' ()). Qed.

Lemma quiet_from m w w1 :
  moves quiet m -> bufs w1 -> still w w1 -> wlp m w1 (fun w2 (_ : unit) => bufs w2 /\ still w w2).
Proof. intros Hm Hb Hs w2 [] Hrun. destruct (Hm _ _ _ Hrun Hb). split; [done|by etrans]. Qed.

#[local] Hint Extern 0 (quiet _ _) => intros ?; split; [done|by split] : moves.

Lemma store_quiet st : st <> TcpConnection.kConnected -> moves quiet (TcpConnection.store_state (K := K) (U := S) st).
Proof. intros Hst w w' [] [= <-] Hw. split; [done|by split]. Qed.
#[local] Hint Extern 0 (moves quiet (TcpConnection.store_state _)) => by apply store_quiet : moves.

Lemma change_events_quiet ch g :
  moves quiet (Channel.change_events TcpConnection.channel_lens (TcpConnection.update_channel ch) g).
Proof. unfold Channel.change_events, TcpConnection.update_channel, EventLoop.update_channel. moves_walk. Qed.
#[local] Hint Resolve change_events_quiet : moves.

(** What the callbacks of the server do when a connection closes. *)
Section closing.
Variable id : Z.
Abbreviation ch := (TcpServer.channel_of id).
Abbreviation conn_cb_ := (TcpServer.cb_of (K := K) (A := rpc) (G := RpcResponse) conn_cb id).
Abbreviation close_cb_ := (TcpServer.close_cb (K := K) (A := rpc) (G := RpcResponse) conn_cb id).

Lemma conn_cb_quiet : moves quiet (call_if conn_cb_).
Proof. by intros w w' [] [= <-]. Qed.
#[local] Hint Resolve conn_cb_quiet : moves.

Lemma connection_destroyed_quiet : moves quiet (TcpConnection.connection_destroyed ch conn_cb_).
Proof.
  unfold TcpConnection.connection_destroyed, TcpConnection.load_state, TcpConnection.channel_remove, Channel.remove,
    TcpConnection.disable_all, Channel.disable_all, TcpConnection.remove_from_loop, EventLoop.remove_channel.
  moves_walk.
Qed.

Lemma close_cb_quiet : moves quiet (call_if close_cb_).
Proof.
  simpl. unfold TcpServer.remove_connection. apply moves_bind; [exact _| |intros _; apply connection_destroyed_quiet].
  by intros w w' [] [= <-].
Qed.
#[local] Hint Resolve close_cb_quiet : moves.

Lemma handle_close_quiet : moves quiet (TcpConnection.handle_close ch conn_cb_ close_cb_).
Proof. unfold TcpConnection.handle_close, TcpConnection.disable_all, Channel.disable_all. moves_walk. Qed.

(** It leaves the connection closed. *)
Lemma handle_close_closes w :
  bufs w -> wlp (TcpConnection.handle_close ch conn_cb_ close_cb_) w (fun w' _ =>
    bufs w' /\ still w w' /\ TcpConnection.state w' <> TcpConnection.kConnected).
Proof.
  intros Hw w' [] Hrun. destruct (handle_close_quiet _ _ _ Hrun Hw) as [Hw' Hs]. split_and!; [done..|].
  apply bind_ret_inv in Hrun as (w1 & [] & [= <-] & Hrun). intros Hc.
  assert (moves quiet (TcpConnection.disable_all ch ;; call_if conn_cb_ ;; call_if close_cb_)) as Hm
    by (unfold TcpConnection.disable_all, Channel.disable_all; moves_walk).
  destruct (Hm _ _ _ Hrun Hw) as [_ [_ _ _ _ Hst]]. discriminate (Hst Hc).
Qed.

End closing.

Lemma queue_quiet in_loop f : moves quiet (EventLoop.queue_in_loop (TcpConnection.loop_lens (K := K) (U := S)) in_loop f).
Proof. unfold EventLoop.queue_in_loop, EventLoop.wakeup. moves_walk. Qed.

Lemma force_close_quiet in_loop : moves quiet (TcpConnection.force_close (K := K) (U := S) in_loop).
Proof.
  unfold TcpConnection.force_close, TcpConnection.load_state. moves_walk; apply queue_quiet.
Qed.

Lemma shutdown_quiet : moves quiet (TcpConnection.shutdown_in_loop (K := K) (U := S)).
Proof.
  unfold TcpConnection.shutdown_in_loop, TcpConnection.is_writing. moves_walk.
  intros w w' [] [= <-] Hw. split; [done|]. split; try done; simpl; [apply shutdown_received|].
  unfold TcpConnection.stream. simpl. by rewrite shutdown_sent.
Qed.

(** [handle_write]: the kernel takes bytes off the buffer. *)
Lemma handle_write_quiet ch : moves quiet (TcpConnection.handle_write (K := K) (U := S) ch None).
Proof.
  apply quiet_intro. intros w Hw. pose proof Hw as [Hin Hout].
  unfold TcpConnection.handle_write, TcpConnection.is_writing. wlp_pures.
  destruct (negb _); [by apply wlp_ret|]. wlp_pures. rewrite (Buffer.readable_eq _ Hout).
  set (b := TcpConnection.output_buf_ (TcpConnection.conn w)) in *. pose proof (zlen_nonneg (Buffer.contents b)).
  change (lget TcpConnection.output_lens w) with b. apply wp_wlp, Buffer.peek_spec; [done|lia..|].
  rewrite zdrop_0, ztake_all by done.
  replace (lset TcpConnection.output_lens _ w) with w by by destruct w as [[] ? ? ?].
  wlp_pures. intros w1 r. unfold TcpConnection.write.
  destruct (sys_write (Buffer.contents b) (TcpConnection.sock w)) as [r' k] eqn:Hk. intros [= <- <-].
  pose proof (write_received _ _ _ _ Hk) as Hrcv. destruct r' as [e|n].
  { apply wlp_ret. split; [done|]. split; try done. unfold TcpConnection.stream. simpl.
    by rewrite (write_err _ _ _ _ Hk). }
  destruct (write_ok _ _ _ _ Hk) as [Hn Hsent].
  apply wlp_when; [intros Hpos|intros Hzero].
  2: { split; [done|]. split; try done. unfold TcpConnection.stream. simpl.
       rewrite Hsent. assert (n = 0) as -> by lia. by rewrite ztake_0, app_nil_r. }
  wlp_pures. simpl. apply wp_wlp. eapply wp_mono; [by apply Buffer.retrieve_wp|].
  cbv beta. intros b1 [] (Hb1 & Hc1 & _).
  assert (bufs (TcpConnection.flushed k b1 w) /\ still w (TcpConnection.flushed k b1 w)) as [Hw1 Hs1].
  { split; [by split|]. split; try done. unfold TcpConnection.stream. simpl.
    by rewrite Hsent, Hc1, <- app_assoc, ztake_zdrop. }
  apply quiet_from; [|done..]. clear. unfold TcpConnection.disable_writing, Channel.disable_writing,
    TcpConnection.load_state. moves_walk. apply shutdown_quiet.
Qed.

(** ** Sending *)

Record sends (data : bytes) w w' : Prop := {
  se_received : received (TcpConnection.sock w') = received (TcpConnection.sock w);
  se_input : TcpConnection.the_input w' = TcpConnection.the_input w;
  se_hist : hist w' = hist w;
  se_stream : TcpConnection.stream w' `prefix_of` TcpConnection.stream w ++ data;
  se_open : TcpConnection.state w' = TcpConnection.kConnected ->
    TcpConnection.stream w' = TcpConnection.stream w ++ data;
}.

(** What the kernel did not take is buffered. *)
Lemma buffer_rest_sends ch rest data w w1 :
  bufs w1 -> Buffer.is_object rest ->
  received (TcpConnection.sock w1) = received (TcpConnection.sock w) ->
  TcpConnection.the_input w1 = TcpConnection.the_input w -> hist w1 = hist w ->
  TcpConnection.stream w1 ++ rest = TcpConnection.stream w ++ data ->
  wlp (zoom TcpConnection.output_lens (Buffer.append rest) ;;
       writing ← TcpConnection.is_writing;
       when (negb writing) (TcpConnection.enable_writing ch)) w1 (fun w' _ => bufs w' /\ sends data w w').
Proof.
  intros [Hi Ho] Hobj Hr Hin Hh Hst. wlp_pures.
  eapply wpe_wlp, wpe_mono; [by apply Buffer.append_wpe| |by intros b e He; exact He].
  cbv beta. intros b _ (Hb & Hc & _). unfold TcpConnection.is_writing. wlp_pures.
  set (w2 := lset TcpConnection.output_lens b w1).
  assert (TcpConnection.stream w2 = TcpConnection.stream w ++ data) as Hst2.
  { rewrite <- Hst. unfold TcpConnection.stream. simpl. by rewrite Hc, app_assoc. }
  eapply wlp_mono; [apply (quiet_from _ w2 w2); [|by split|done]|].
  - unfold TcpConnection.enable_writing, Channel.enable_writing. moves_walk.
  - cbv beta. intros w3 [] [Hw3 [E1 E2 E3 E4 _]]. split; [done|].
    split; [by rewrite E1|by rewrite E2|by rewrite E3|by rewrite E4, Hst2|by rewrite E4].
Qed.

Lemma send_in_loop_sends id data w :
  bufs w -> TcpConnection.state w = TcpConnection.kConnected -> Buffer.is_object data ->
  wlp (TcpConnection.send_in_loop (TcpServer.channel_of id) (TcpServer.cb_of conn_cb id) None
    (TcpServer.close_cb conn_cb id) true data) w (fun w' _ => bufs w' /\ sends data w w').
Proof.
  intros Hw Hs Hobj. pose proof Hw as [Hi Ho]. unfold TcpConnection.send_in_loop, EventLoop.assert_in_loop_thread,
    TcpConnection.load_state, TcpConnection.is_writing. wlp_pures.
  change (lget TcpConnection.state_lens w) with (TcpConnection.state w). rewrite Hs.
  rewrite decide_False by done. wlp_pures. rewrite (Buffer.readable_eq _ Ho).
  assert (Buffer.is_object (zdrop 0 data)) as Hobj0 by by apply TcpConnection.zdrop_object.
  destruct (_ && _) eqn:Hempty.
  2: by apply buffer_rest_sends.
  apply andb_true_iff in Hempty as [_ Hempty%Z.eqb_eq]. apply zlen_0_nil in Hempty.
  apply wlp_bind. intros w1 r. unfold TcpConnection.write.
  destruct (sys_write data (TcpConnection.sock w)) as [r' k] eqn:Hk. intros [= <- <-].
  pose proof (write_received _ _ _ _ Hk) as Hrcv. destruct r' as [e|n].
  - pose proof (write_err _ _ _ _ Hk) as Hsame.
    assert (TcpConnection.stream (TcpConnection.set_sock k w) = TcpConnection.stream w) as Hst
      by (unfold TcpConnection.stream; simpl; by rewrite Hsame).
    destruct (negb _); [|by apply buffer_rest_sends; try done; rewrite Hst, zdrop_0].
    eapply wlp_mono; [by apply handle_close_closes|]. cbv beta.
    intros w' [] (Hw' & [E1 E2 E3 E4 _] & Hclosed). split; [done|].
    split; [by rewrite E1|by rewrite E2|by rewrite E3|rewrite E4, Hst; by apply prefix_app_r|done].
  - destruct (write_ok _ _ _ _ Hk) as [Hn Hsent].
    assert (TcpConnection.stream (TcpConnection.set_sock k w) = TcpConnection.stream w ++ ztake n data) as Hst.
    { unfold TcpConnection.stream. simpl. by rewrite Hsent, Hempty, !app_nil_r. }
    destruct (Z.eqb_spec n (zlen data)) as [->|Hlt].
    + rewrite ztake_all in Hst by done. apply wlp_ret. split; [done|]. by split; try done; rewrite Hst.
    + apply buffer_rest_sends; try done; [by apply TcpConnection.zdrop_object|].
      by rewrite Hst, <- app_assoc, ztake_zdrop.
Qed.

(** ** Responses *)

(** A message serializes to at most 2 GB, as protocol buffers do. *)
Hypothesis serialized_size : forall resp : RpcResponse, zlen (SerializeToString resp).2 <= int_max.

Lemma send_response_spec id resp w :
  bufs w -> wlp (send_response host id resp) w (fun w' _ => bufs w' /\
    (TcpConnection.state w = TcpConnection.kConnected /\ sends (frame_of resp) w w' \/
     TcpConnection.state w <> TcpConnection.kConnected /\ still w w')).
Proof.
  intros Hw. unfold send_response, RpcSystem.send_response, frame_of. pose proof (serialized_size resp) as Hsz.
  unfold int_max in Hsz. destruct (SerializeToString resp) as [[] bs]; cbn [snd] in *.
  2: { apply wlp_ret. split; [done|].
       destruct (decide (TcpConnection.state w = TcpConnection.kConnected)); [left|by right].
       split; [done|]. by split; rewrite ?app_nil_r. }
  pose proof (zlen_nonneg bs).
  destruct (Codec.send_raw_eq host (TcpConnection.send_buffer (TcpServer.channel_of id) (TcpServer.cb_of conn_cb id) None
    (TcpServer.close_cb conn_cb id) true) bs w) as (b & Hb & Hc & Heq).
  { unfold Buffer.kPrependSize, Buffer.kInitialSize, Mem.max_size. lia. }
  unfold Codec.send, wlp. rewrite Heq. apply wlp_with_local.
  unfold TcpConnection.send_buffer, TcpConnection.load_state. wlp_pures. cbn [lget lset lens_fst fst snd].
  change (TcpConnection.state_ (TcpConnection.conn w)) with (TcpConnection.state w).
  case_decide as Hs; [|apply wlp_ret; split; [done|by right]]. wlp_pures. cbn [lget lset lens_fst lens_snd fst snd].
  apply wp_wlp. eapply wp_mono; [by apply Buffer.retrieve_all_wp|]. cbv beta. intros b' data (_ & -> & _). rewrite Hc.
  apply wlp_zoom. cbn [lget lset lens_fst lens_snd fst snd].
  eapply wlp_mono; [apply (send_in_loop_sends id); [done..|]|cbv beta; intros w' [] [? ?]; split; [done|by left]].
  unfold Buffer.is_object, Framing.encode. rewrite !zlen_app, !Wire.be32_zlen. unfold Mem.max_size. lia.
Qed.

(** ** Answering *)

(** What [on_frame] may do to its connection. *)
Definition talks (id : Z) w w' : Prop := bufs w -> out_ok id w ->
  bufs w' /\ out_ok id w' /\
  received (TcpConnection.sock w') = received (TcpConnection.sock w) /\
  TcpConnection.the_input w' = TcpConnection.the_input w /\
  frames_on id (hist w') = frames_on id (hist w).

#[local] Instance talks_preorder id : PreOrder (talks id).
Proof.
  split; [by intros w|]. intros w1 w2 w3 H12 H23 Hb Ho.
  destruct (H12 Hb Ho) as (Hb2 & Ho2 & ? & ? & ?). destruct (H23 Hb2 Ho2) as (? & ? & ? & ? & ?).
  split_and!; [done..|congruence|congruence|congruence].
Qed.

Lemma still_out id w w' : still w w' -> out_ok id w -> out_ok id w'.
Proof. intros [_ _ Hh Hs Hst] [Hp Hc]. unfold out_ok. rewrite Hh, Hs. auto. Qed.

Lemma quiet_talks id w w' : quiet w w' -> talks id w w'.
Proof.
  intros Hq Hb Ho. destruct (Hq Hb) as [Hb' Hs]. split_and!; [done|by eapply still_out|apply Hs|apply Hs|].
  by rewrite (st_hist _ _ Hs).
Qed.

Lemma answer_bytes_note id resp h :
  answer_bytes id (note_response id resp h) = answer_bytes id h ++ frame_of resp.
Proof.
  unfold answer_bytes. simpl. rewrite filter_app, filter_cons_True by done.
  rewrite !fmap_app, concat_app. simpl. by rewrite app_nil_r.
Qed.

Lemma frames_on_note id frame h : frames_on id (note_frame id frame h) = frames_on id h ++ [frame].
Proof. unfold frames_on. simpl. by rewrite filter_app, filter_cons_True, fmap_app by done. Qed.

Lemma codec_send_talks id resp : moves (talks id) (codec_send host id resp).
Proof.
  intros w w' [] Hrun Hb Ho. apply bind_ret_inv in Hrun as (w1 & [] & Hnote & Hrun).
  assert (bufs w1 /\ TcpConnection.stream w1 = TcpConnection.stream w /\ TcpConnection.state w1 = TcpConnection.state w /\
    received (TcpConnection.sock w1) = received (TcpConnection.sock w) /\
    TcpConnection.the_input w1 = TcpConnection.the_input w /\
    hist w1 = note_response id resp (hist w)) as (Hb1 & Hst & Hs & Hr & Hi & Hh) by by injection Hnote as <-.
  destruct (send_response_spec id resp w1 Hb1 w' () Hrun) as [Hb' Hsend]. destruct Ho as [Hp Hc].
  unfold out_ok, frames_on. destruct Hsend as [[Hopen [E1 E2 E3 E4 E5]]|[Hclosed [E1 E2 E3 E4 E5]]];
    rewrite E3, Hh, answer_bytes_note, E1, E2.
  - rewrite Hst, Hc in E4, E5 by congruence. by split_and!.
  - rewrite E4, Hst. split_and!; [done| | |done..]; [by apply prefix_app_r|]. intros Hs'. by destruct Hclosed; apply E5.
Qed.

Lemma submit_talks id tk : moves (talks id) (RpcServer.submit rpc_lens tk).
Proof.
  unfold RpcServer.submit. moves_walk. intros w w' [] [= <-]. apply quiet_talks. intros Hb. split; [done|by split].
Qed.

Lemma on_frame_talks id frame : moves (talks id) (RpcServer.on_frame rpc_lens (codec_send host) id frame).
Proof. unfold RpcServer.on_frame. moves_walk; first [apply codec_send_talks|apply submit_talks]. Qed.

(** ** Reading *)

(** [on_message] gives [on_frame] the frames of the input buffer. *)
Lemma on_message_wire id w :
  bufs w -> out_ok id w -> wlp (on_message host id) w (fun w' _ => bufs w' /\ out_ok id w' /\
    received (TcpConnection.sock w') = received (TcpConnection.sock w) /\
    let '(fs, rest, _) := Framing.deframe kMaxBodySize (Buffer.contents (TcpConnection.the_input w)) in
    frames_on id (hist w') = frames_on id (hist w) ++ fs /\ Buffer.contents (TcpConnection.the_input w') = rest).
Proof.
  intros [Hi Hout] Ho.
  set (P := fun (fs : list bytes) w' => Buffer.wf (TcpConnection.output_buf_ (TcpConnection.conn w')) /\ out_ok id w' /\
    received (TcpConnection.sock w') = received (TcpConnection.sock w) /\
    frames_on id (hist w') = frames_on id (hist w) ++ fs).
  eapply wlp_mono; [apply (Codec.on_message_returns host TcpConnection.input_lens (on_frame host id) None
    (TcpConnection.force_close true) P); [..|exact Hi|]|].
  - by intros fs b w1 _ HP.
  - intros fs f w1 Hwf (Hb1 & Ho1 & Hr1 & Hf1) w2 [] Hrun.
    apply bind_ret_inv in Hrun as (w3 & [] & Hnote & Hrun).
    assert (bufs w3 /\ out_ok id w3 /\ received (TcpConnection.sock w3) = received (TcpConnection.sock w1) /\
      TcpConnection.the_input w3 = TcpConnection.the_input w1 /\ hist w3 = note_frame id f (hist w1))
      as (Hb3 & Ho3 & Hr3 & Hi3 & Hh3) by by injection Hnote as <-.
    destruct (on_frame_talks id f _ _ _ Hrun Hb3 Ho3) as ([_ Hb2] & Ho2 & Hr2 & Hi2 & Hf2).
    split; [|exact (eq_trans Hi2 Hi3)]. split_and!; [done..|congruence|].
    by rewrite Hf2, Hh3, frames_on_note, Hf1, app_assoc.
  - intros fs why w1 Hwf (Hb1 & Ho1 & Hr1 & Hf1) w2 [] Hrun. unfold Codec.reject in Hrun.
    apply bind_ret_inv in Hrun as (w3 & [] & [= <-] & Hrun).
    destruct (force_close_quiet _ _ _ _ Hrun) as [[_ Hb2] Hs]; [by split|].
    split; [|apply Hs]. split_and!; [done|by eapply still_out|by rewrite (st_received _ _ Hs)|by rewrite (st_hist _ _ Hs)].
  - split_and!; [done..|by rewrite app_nil_r].
  - cbv beta. intros w' []. change (lget TcpConnection.input_lens w) with (TcpConnection.the_input w).
    destruct (Framing.deframe _ _) as [[fs rest] st]. by intros ((? & ? & ? & ?) & ? & ?).
Qed.

(** Any operation keeps what its connection has read and written in order. *)
Definition keeps_wire (id : Z) w w' : Prop := wire id w -> wire id w'.

#[local] Instance keeps_wire_preorder id : PreOrder (keeps_wire id).
Proof. split; [by intros w Hw|]. unfold keeps_wire, Transitive. auto. Qed.

Lemma wire_intro id (m : M W unit) :
  (forall w, wire id w -> wlp m w (fun w' _ => wire id w')) -> moves (keeps_wire id) m.
Proof. intros Hm w w' [] Hrun Hw. by apply (Hm w Hw w' ()). Qed.

Lemma talks_keeps_wire id w w' : talks id w w' -> keeps_wire id w w'.
Proof.
  intros Ht [Hb Ho [st Hin]]. destruct (Ht Hb Ho) as (? & ? & Hr & Hi & Hf). split; [done..|].
  exists st. by rewrite Hr, Hi, Hf.
Qed.

Lemma quiet_keeps_wire id w w' : quiet w w' -> keeps_wire id w w'.
Proof. intros Hq. by apply talks_keeps_wire, quiet_talks. Qed.

Lemma quiet_wire {X} id (m : M W X) : moves quiet m -> moves (keeps_wire id) m.
Proof. apply moves_mono, quiet_keeps_wire. Qed.

Abbreviation handle_read' id := (TcpConnection.handle_read (TcpServer.channel_of id) (TcpServer.cb_of conn_cb id)
  (TcpServer.cb_of (msg_cb host) id) (TcpServer.close_cb conn_cb id)).

(** What was read is in the input buffer. *)
Lemma read_wire id w k b d :
  wire id w -> received k = received (TcpConnection.sock w) ++ d -> sent k = sent (TcpConnection.sock w) ->
  Buffer.wf b -> Buffer.contents b = Buffer.contents (TcpConnection.the_input w) ++ d ->
  wlp (on_message host id) (lset TcpConnection.input_lens b (TcpConnection.set_sock k w)) (fun w' _ => wire id w').
Proof.
  intros [[Hi Hout] Ho [st Hin]] Hr Hs Hb Hc. set (w1 := lset _ b _).
  assert (TcpConnection.stream w1 = TcpConnection.stream w) as Hst by (unfold TcpConnection.stream; simpl; by rewrite Hs).
  assert (out_ok id w1) as Ho1 by (destruct Ho; split; by rewrite Hst).
  eapply wlp_mono; [by apply (on_message_wire id w1)|]. cbv beta.
  change (TcpConnection.the_input w1) with b. change (hist w1) with (hist w).
  change (received (TcpConnection.sock w1)) with (received k). rewrite Hc, Hr. intros w' [] (Hb' & Ho' & Hr' & Hf').
  destruct (Framing.deframe kMaxBodySize (_ ++ d)) as [[fs rest] st'] eqn:Hd. destruct Hf' as [Hf' Hc'].
  split; [done..|]. exists st'. by rewrite Hr', (deframe_grow _ _ _ _ _ _ Hin), Hd, Hf', Hc'.
Qed.

Lemma handle_read_wire id : moves (keeps_wire id) (handle_read' id).
Proof.
  apply wire_intro. intros w Hw. pose proof Hw as [[Hi Hout] Ho [st Hin]].
  unfold TcpConnection.handle_read, TcpConnection.handle_error. wlp_pures.
  set (cap := Buffer.iov_capacity _).
  assert (0 <= cap) as Hcap.
  { unfold cap, Buffer.iov_capacity. rewrite Buffer.writable_eq by done.
    pose proof (Buffer.wf_end _ Hi). unfold Buffer.kExtraSize. case_match; lia. }
  intros w1 r. unfold TcpConnection.readv.
  destruct (sys_readv cap (TcpConnection.sock w)) as [r' k] eqn:Hk. intros [= <- <-]. wlp_pures.
  assert (forall w2, wire id w2 -> wlp (TcpConnection.handle_close (TcpServer.channel_of id)
    (TcpServer.cb_of conn_cb id) (TcpServer.close_cb conn_cb id)) w2 (fun w' _ => wire id w')) as Hclose.
  { intros w2 Hw2 w' [] Hrun. by apply (quiet_wire id _ (handle_close_quiet id) _ _ _ Hrun). }
  destruct r' as [e|d].
  - unfold Buffer.read_fd. wlp_pures. apply Hclose.
    refine (quiet_keeps_wire id w _ _ Hw). intros _. split; [by split|]. split; try done; simpl.
    + by eapply readv_failed.
    + unfold TcpConnection.stream. simpl. by rewrite (readv_err _ _ _ _ Hk).
  - destruct (readv_ok _ _ _ _ Hcap Hk) as [Hd Hsent]. pose proof (readv_received _ _ _ _ Hk) as Hrcv.
    eapply wpe_wlp, wpe_mono; [apply Buffer.read_fd_wpe; [exact Hi|exact Hd]| |by intros b e He; exact He].
    cbv beta. intros b r (Hb & Hc & ->). cbn [fst].
    destruct (Z.ltb_spec 0 (zlen d)); [by apply (read_wire id w k b d)|].
    assert (d = []) as -> by (apply zlen_0_nil; pose proof (zlen_nonneg d); lia). rewrite app_nil_r in Hrcv, Hc.
    apply Hclose. split; [by split| |].
    + unfold out_ok, TcpConnection.stream. simpl. by rewrite Hsent.
    + exists st. unfold TcpConnection.the_input. simpl. by rewrite Hrcv, Hc.
Qed.

(** ** The events of a connection *)

Lemma on_event_wire id revents : moves (keeps_wire id)
  (TcpConnection.on_event (TcpServer.channel_of id) (TcpServer.cb_of conn_cb id) (TcpServer.cb_of (msg_cb host) id)
     None (TcpServer.close_cb conn_cb id) revents).
Proof.
  assert (forall w w' : W, quiet w w' -> keeps_wire id w w') as Hq by apply quiet_keeps_wire.
  pose proof (quiet_wire id _ (handle_close_quiet id)) as Hclose.
  pose proof (quiet_wire id _ (handle_write_quiet (TcpServer.channel_of id))) as Hwrite.
  pose proof (handle_read_wire id) as Hread.
  unfold TcpConnection.on_event, Channel.handle_event, Channel.handle_event_with_guard, TcpConnection.handle_error.
  cbn [call_if]. moves_walk.
Qed.

(** A new connection is established before anything was read or written. *)
Lemma established_wire id w :
  wire id w -> answer_bytes id (hist w) = [] ->
  wlp (TcpConnection.connection_established (TcpServer.channel_of id) (TcpServer.cb_of conn_cb id)) w
    (fun w' _ => wire id w').
Proof.
  intros [Hb [Hp _] Hin] Hnone w' [] Hrun. apply bind_ret_inv in Hrun as (w1 & [] & [= <-] & Hrun).
  rewrite Hnone in Hp. apply prefix_nil_inv in Hp.
  set (w1 := TcpConnection.set_conn _ w) in *. assert (wire id w1) as Hw1.
  { split; [done| |done]. unfold out_ok. change (hist w1) with (hist w).
    change (TcpConnection.stream w1) with (TcpConnection.stream w). by rewrite Hnone, Hp. }
  revert Hw1. assert (moves quiet (Channel.tie TcpConnection.channel_lens (TcpServer.channel_of id) ;;
    TcpConnection.enable_reading (TcpServer.channel_of id) ;; call_if (TcpServer.cb_of conn_cb id))) as Hm.
  { unfold Channel.tie, TcpConnection.enable_reading, Channel.enable_reading. moves_walk. apply conn_cb_quiet. }
  exact (quiet_keeps_wire id _ _ (Hm _ _ _ Hrun)).
Qed.

(** ** Whose history changes *)

(** An operation on [id] adds to the history for [id] only. *)
Record own (id : Z) w w' : Prop := {
  ow_objects : TcpServer.objects (TcpConnection.user w') = TcpServer.objects (TcpConnection.user w);
  ow_next : TcpServer.next_conn_id_ (TcpConnection.user w') = TcpServer.next_conn_id_ (TcpConnection.user w);
  ow_frames : exists fs, frames (hist w') = frames (hist w) ++ (pair id <$> fs);
  ow_responses : exists rs, responses (hist w') = responses (hist w) ++ (pair id <$> rs);
}.

#[local] Instance own_preorder id : PreOrder (own id).
Proof.
  split; [intros w; split; try done; by exists []; rewrite app_nil_r|].
  intros w1 w2 w3 [? ? (fs1 & Hf1) (rs1 & Hr1)] [? ? (fs2 & Hf2) (rs2 & Hr2)]. split; [congruence|congruence| |].
  - exists (fs1 ++ fs2). by rewrite Hf2, Hf1, fmap_app, app_assoc.
  - exists (rs1 ++ rs2). by rewrite Hr2, Hr1, fmap_app, app_assoc.
Qed.

(** Most operations add nothing. *)
Lemma own_same id w w' :
  TcpServer.objects (TcpConnection.user w') = TcpServer.objects (TcpConnection.user w) ->
  TcpServer.next_conn_id_ (TcpConnection.user w') = TcpServer.next_conn_id_ (TcpConnection.user w) ->
  hist w' = hist w -> own id w w'.
Proof. intros Ho Hn Hh. split; [done..| |]; exists []; by rewrite Hh, app_nil_r. Qed.

Lemma own_rest id w w' :
  TcpConnection.the_input w' = TcpConnection.the_input w -> TcpConnection.user w' = TcpConnection.user w ->
  EventLoop.calm (TcpConnection.loop w) (TcpConnection.loop w') -> own id w w'.
Proof. intros _ Hu _. apply own_same; unfold hist; by rewrite Hu. Qed.

Lemma codec_send_own id resp : moves (own id) (codec_send host id resp).
Proof.
  unfold codec_send. apply moves_bind; [exact _| |intros _].
  - intros w w' [] [= <-]. split; [done..|exists []; by rewrite app_nil_r|by exists [resp]].
  - apply send_response_moves; [exact _|apply own_rest|]. intros w m. by apply own_same.
Qed.

Lemma on_frame_own id frame : moves (own id) (on_frame host id frame).
Proof.
  unfold on_frame. apply moves_bind; [exact _| |intros _].
  - intros w w' [] [= <-]. split; [done..|by exists [frame]|exists []; by rewrite app_nil_r].
  - unfold RpcServer.on_frame, RpcServer.submit. moves_walk; try apply codec_send_own.
    intros w w' [] [= <-]. by apply own_same.
Qed.

Lemma close_cb_own id : moves (own id) (call_if (TcpServer.close_cb conn_cb id)).
Proof. apply close_cb_moves; [exact _|apply own_rest|]. intros w m. by apply own_same. Qed.

Lemma conn_cb_own id : moves (own id) (call_if (TcpServer.cb_of (K := K) (A := rpc) (G := RpcResponse) conn_cb id)).
Proof. by intros w w' [] [= <-]. Qed.

Lemma on_message_own id : moves (own id) (call_if (TcpServer.cb_of (msg_cb host) id)).
Proof.
  simpl. unfold on_message. apply Codec.on_message_moves; [exact _| |apply on_frame_own|].
  - intros b w. by apply own_same.
  - intros why. unfold Codec.reject. apply moves_bind; [exact _|by intros w w' x [= <- _]|]. intros _.
    apply TcpConnection.force_close_moves; [exact _|apply own_rest].
Qed.

Lemma on_event_own id revents : moves (own id)
  (TcpConnection.on_event (TcpServer.channel_of id) (TcpServer.cb_of conn_cb id) (TcpServer.cb_of (msg_cb host) id)
     None (TcpServer.close_cb conn_cb id) revents).
Proof.
  apply TcpConnection.on_event_moves; [exact _|apply own_rest|apply conn_cb_own|by intros w w' [] [= <-]|
    apply close_cb_own|apply on_message_own|]. intros b w. by apply own_same.
Qed.

(** ** The whole server *)

Abbreviation net s := (RpcServer.net (TcpServer.app s)).

Record wired s : Prop := {
  wd_conns : forall id o, TcpServer.objects s !! id = Some o -> wire id (TcpServer.enter s o);
  wd_ids : forall id o, TcpServer.objects s !! id = Some o -> id < TcpServer.next_conn_id_ s;
  wd_frames : Forall (fun f => f.1 < TcpServer.next_conn_id_ s) (frames (net s));
  wd_responses : Forall (fun r => r.1 < TcpServer.next_conn_id_ s) (responses (net s));
}.

(** A connection's wire does not depend on the rest of the server. *)
Lemma wire_elsewhere id s s' o :
  wire id (TcpServer.enter s o) -> frames_on id (net s') = frames_on id (net s) ->
  answer_bytes id (net s') = answer_bytes id (net s) -> wire id (TcpServer.enter s' o).
Proof.
  intros [Hb [Hp Hc] [st Hin]] Hf Ha. split; [done| |].
  - unfold out_ok. change (hist (TcpServer.enter s' o)) with (net s'). rewrite Ha. by split.
  - exists st. change (hist (TcpServer.enter s' o)) with (net s'). rewrite Hf. exact Hin.
Qed.

Lemma filter_elsewhere {A} (id id' : Z) (xs : list A) :
  id' <> id -> filter (fun x : Z * A => x.1 = id') (pair id <$> xs) = [].
Proof. intros Hne. induction xs as [|x xs IH]; [done|]. simpl. by rewrite filter_cons_False. Qed.

Lemma on_conn_wired {X} id (m : M W X) s s' x :
  wired s -> (forall o, TcpServer.objects s !! id = Some o -> wire id (TcpServer.enter s o) ->
    wlp m (TcpServer.enter s o) (fun w _ => wire id w)) ->
  moves (own id) m -> TcpServer.on_conn id m s = Ret s' x -> wired s'.
Proof.
  intros [Hc Hids Hf Hr] Hm Hown. unfold TcpServer.on_conn.
  destruct (TcpServer.objects s !! id) as [o|] eqn:Ho; [|done].
  destruct (m (TcpServer.enter s o)) as [w y| | |] eqn:Hrun; try done. intros [= <- _].
  pose proof (Hm o eq_refl (Hc id o Ho) w y Hrun) as Hw.
  destruct (Hown _ _ _ Hrun) as [Hobj Hnext (fs & Hfs) (rs & Hrs)].
  change (TcpServer.objects (TcpConnection.user (TcpServer.enter s o))) with (TcpServer.objects s) in Hobj.
  change (TcpServer.next_conn_id_ (TcpConnection.user (TcpServer.enter s o))) with (TcpServer.next_conn_id_ s) in Hnext.
  change (hist (TcpServer.enter s o)) with (net s) in Hfs, Hrs.
  pose proof (Hids id o Ho) as Hid.
  split; change (net (TcpServer.leave id w)) with (hist w);
    change (TcpServer.objects (TcpServer.leave id w)) with
      (<[id := (TcpConnection.conn w, TcpConnection.sock w)]> (TcpServer.objects (TcpConnection.user w)));
    change (TcpServer.next_conn_id_ (TcpServer.leave id w)) with (TcpServer.next_conn_id_ (TcpConnection.user w));
    rewrite ?Hobj, ?Hnext.
  - intros id' o' [[<- <-]|[Hne Ho']]%lookup_insert_Some.
    + destruct Hw as [Hb [Hp Hop] [st Hin]]. split; [done| |by exists st]. by split.
    + apply (wire_elsewhere id' s); [by apply Hc|..]; change (net (TcpServer.leave id w)) with (hist w).
      * unfold frames_on. by rewrite Hfs, filter_app, filter_elsewhere, app_nil_r by congruence.
      * unfold answer_bytes. by rewrite Hrs, filter_app, filter_elsewhere, app_nil_r by congruence.
  - intros id' o' [[<- <-]|[_ Ho']]%lookup_insert_Some; [done|by eapply Hids].
  - rewrite Hfs. apply Forall_app. split; [done|]. by apply Forall_fmap, Forall_true.
  - rewrite Hrs. apply Forall_app. split; [done|]. by apply Forall_fmap, Forall_true.
Qed.

(** *** What happens to the server *)

Lemma same_wired s s' :
  TcpServer.objects s' = TcpServer.objects s -> TcpServer.next_conn_id_ s' = TcpServer.next_conn_id_ s ->
  net s' = net s -> wired s -> wired s'.
Proof.
  intros Ho Hn Hh [Hc Hids Hf Hr]. split; rewrite ?Ho, ?Hn, ?Hh; try done. intros id o Hid.
  apply (wire_elsewhere id s); [by apply Hc|by rewrite Hh..].
Qed.

Lemma released_wired batch s : wired s -> wired (TcpServer.released holds batch s).
Proof.
  intros [Hc Hids Hf Hr].
  assert (forall id o, TcpServer.objects (TcpServer.released holds batch s) !! id = Some o ->
    TcpServer.objects s !! id = Some o) as Hsub by (intros id o [? _]%TcpServer.released_lookup; done).
  split; [|by intros id o ?%Hsub; eapply Hids|done..]. intros id o Ho%Hsub.
  by apply (wire_elsewhere id s); [apply Hc|..].
Qed.

Lemma history_before {A} (id : Z) (n : Z) (xs : list (Z * A)) :
  Forall (fun x => x.1 < n) xs -> n <= id -> filter (fun x => x.1 = id) xs = [].
Proof.
  intros Hxs Hn. induction Hxs as [|x xs Hx _ IH]; [done|]. by rewrite filter_cons_False by lia.
Qed.

(** A new connection, whose socket has neither received nor sent. *)
Lemma new_connection_wired fd k s :
  wired s -> received k = [] -> sent k = [] -> 0 < TcpServer.next_conn_id_ s < 2 ^ 64 - 1 ->
  wlp (TcpServer.new_connection conn_cb fd k) s (fun s' _ => wired s').
Proof.
  intros [Hc Hids Hf Hr] Hrk Hsk Hn. unfold TcpServer.new_connection. wlp_pures.
  set (n := TcpServer.next_conn_id_ s) in *. set (s1 := TcpServer.added fd k s).
  change (TcpServer.set_connections _ _) with s1.
  assert (frames_on n (net s) = []) as Hfn by (unfold frames_on; by rewrite (history_before n n)).
  assert (answer_bytes n (net s) = []) as Han by (unfold answer_bytes; by rewrite (history_before n n)).
  assert (wired s1) as Hw1.
  { split; unfold s1, TcpServer.added; simpl; rewrite u64_small by lia; fold n.
    - intros id o [[<- <-]|[_ Ho]]%lookup_insert_Some; [|by apply (wire_elsewhere id s); [apply Hc|..]].
      split; [split; apply Buffer.default_wf| |].
      + unfold out_ok, TcpConnection.stream. simpl. rewrite Hsk. by split; [apply prefix_nil|].
      + exists Framing.NeedMore. simpl. rewrite Hrk. unfold hist. simpl. by rewrite Hfn.
    - intros id o [[<- <-]|[_ Ho]]%lookup_insert_Some; [lia|]. apply Hids in Ho. lia.
    - eapply Forall_impl; [exact Hf|]. cbv beta. intros x ?. lia.
    - eapply Forall_impl; [exact Hr|]. cbv beta. intros x ?. lia. }
  intros s' [] Hrun. eapply (on_conn_wired n _ s1); [done| | |exact Hrun].
  - intros o _ Hw. by apply established_wire.
  - apply TcpConnection.connection_established_moves; [exact _|apply own_rest|apply conn_cb_own].
Qed.

(** The kernel's new sockets. *)
Definition new_socket (accepted : option (Z * K)) : Prop :=
  match accepted with Some (_, k) => received k = [] /\ sent k = [] | None => True end.

Lemma accept_event_wired revents accepted s :
  wired s -> new_socket accepted -> 0 < TcpServer.next_conn_id_ s ->
  (accepted <> None -> TcpServer.next_conn_id_ s < 2 ^ 64 - 1) ->
  wlp (TcpServer.accept_event conn_cb holds revents accepted) s (fun s' _ => wired s').
Proof.
  intros Hw Hnew Hpos Hn. unfold TcpServer.accept_event. wlp_pures. set (s1 := lset TcpServer.accept_lens _ s).
  assert (wired s1) as Hw1 by by apply (same_wired s).
  apply (wlp_mono _ _ (fun s2 _ => wired s2)); [|intros s2 [] Hw2; by apply wlp_modify, released_wired].
  assert (wlp (TcpServer.handle_accept conn_cb accepted) s1 (fun s2 _ => wired s2)) as Hacc.
  { destruct accepted as [[fd k]|]; [|by apply wlp_ret]. destruct Hnew. simpl.
    apply new_connection_wired; try done. split; [done|]. by apply Hn. }
  assert (wlp (Channel.handle_event_with_guard TcpServer.accept_lens (Some (TcpServer.handle_accept conn_cb accepted))
    None None None) s1 (fun s2 _ => wired s2)) as Hguard.
  { assert (forall c (Q : S -> unit -> Prop) s2, Q s2 () -> wlp (when c (mret ())) s2 Q) as Hret
      by (intros [] Q s2 HQ; by apply wlp_ret).
    unfold Channel.handle_event_with_guard. cbn [call_if]. wlp_pures. apply Hret. wlp_pures. apply Hret. wlp_pures.
    apply (wlp_mono _ _ (fun s2 _ => wired s2)); [by apply wlp_when|].
    intros s2 [] Hw2. wlp_pures. by apply Hret. }
  unfold Channel.handle_event. wlp_pures. destruct (Channel.tie_ _); [wlp_pures; by apply wlp_when|done].
Qed.

(** The loop runs its functors: closes and responses. *)
Definition closes_or_answers (f : TcpServer.functor RpcResponse) : Prop :=
  match f with TcpServer.ConnFunctor _ f => f = TcpConnection.HandleClose | TcpServer.AppFunctor _ _ => True end.

Lemma run_functor_wired f s :
  closes_or_answers f -> wired s ->
  wlp (TcpServer.run_functor conn_cb None (codec_send host) f) s (fun s' _ => wired s').
Proof.
  intros Hf Hw s' [] Hrun. destruct f as [id f|id resp]; simpl in Hf, Hrun.
  - subst f. eapply (on_conn_wired id _ s); [done| | |exact Hrun].
    + intros o _ Hwire w [] Hc. exact (quiet_wire id _ (handle_close_quiet id) _ _ _ Hc Hwire).
    + apply TcpConnection.run_functor_moves with (f := TcpConnection.HandleClose);
        [exact _|apply own_rest|apply conn_cb_own|by intros w w' [] [= <-]|apply close_cb_own].
  - eapply (on_conn_wired id _ s); [done| |apply codec_send_own|exact Hrun].
    intros o _ Hwire w [] Hc. by apply (talks_keeps_wire id _ _ (codec_send_talks id resp _ _ _ Hc)).
Qed.

Lemma run_pending_wired s :
  Forall closes_or_answers (TcpServer.pending s) -> wired s ->
  wlp (TcpServer.run_pending conn_cb None (codec_send host) holds) s (fun s' _ => wired s').
Proof.
  intros Hall Hw. unfold TcpServer.run_pending, EventLoop.do_pending_functors. wlp_pures.
  change (EventLoop.pending_functors_ (TcpServer.loop_ s)) with (TcpServer.pending s).
  change (EventLoop.pending_functors_ (EventLoop.set_calling _ _)) with (TcpServer.pending s).
  eapply wlp_mono; [apply (wlp_for_each _ _ wired); [by apply (same_wired s)|]|].
  - intros f s1 Hf Hw1. wlp_pures. rewrite Forall_forall in Hall.
    eapply wlp_mono; [apply run_functor_wired; [by apply Hall|done]|].
    cbv beta. intros s2 [] Hw2. by apply wlp_modify, released_wired.
  - cbv beta. intros s1 [] Hw1. wlp_pures. by apply wlp_modify, released_wired, (same_wired s1).
Qed.

Lemma conn_event_wired id revents s :
  wired s -> wlp (TcpServer.conn_event conn_cb (msg_cb host) None holds id revents) s (fun s' _ => wired s').
Proof.
  intros Hw. unfold TcpServer.conn_event. apply wlp_bind. intros s1 [] Hrun.
  apply wlp_modify, released_wired. eapply (on_conn_wired id _ s); [done| |apply on_event_own|exact Hrun].
  intros o _ Hwire w [] Hev. exact (on_event_wire id revents _ _ _ Hev Hwire).
Qed.

Lemma force_close_wired id s :
  wired s -> wlp (TcpServer.on_conn id (TcpConnection.force_close false) ;; TcpServer.release holds []) s
    (fun s' _ => wired s').
Proof.
  intros Hw. apply wlp_bind. intros s1 [] Hrun. apply wlp_modify, released_wired.
  eapply (on_conn_wired id _ s); [done| | |exact Hrun].
  - intros o _ Hwire w [] Hc. exact (quiet_wire id _ (force_close_quiet false) _ _ _ Hc Hwire).
  - apply TcpConnection.force_close_moves; [exact _|apply own_rest].
Qed.

Lemma start_wired s : wired s -> wlp TcpServer.start s (fun s' _ => wired s').
Proof.
  intros Hw s' [] Hrun.
  assert (keeps (fun s => (TcpServer.objects s, TcpServer.next_conn_id_ s, net s)) (TcpServer.start (K := K) (A := rpc)
    (G := RpcResponse))) as Hk.
  { unfold TcpServer.start, Channel.enable_reading, Channel.change_events, TcpServer.accept_update,
      EventLoop.update_channel. moves_walk. }
  pose proof (Hk _ _ _ Hrun) as Heq. unfold unchanged in Heq. injection Heq as Ho Hn Hh. by apply (same_wired s).
Qed.

(** ** Runs *)

(** What happens, with the sockets that [accept()] returns new. *)
Definition fresh_socket (e : event (K := K) (U := U) (Msg := Msg)) : Prop :=
  match e with OnLoop (TcpServer.Dispatch _ accepted) => new_socket accepted | _ => True end.

Section server.
Variables (rest : TcpServer.others) (listen_fd : Z) (l : EventLoop.t (TcpServer.functor RpcResponse)) (u : U).
Hypothesis Hl : TcpServer.loop_ready rest l.
Hypothesis Hfd : listen_fd ∉ rest.
Abbreviation s0 := (make (K := K) (Msg := Msg) listen_fd l u).
Abbreviation config := (TcpServer.config (K := K) (A := rpc) (G := RpcResponse)).

Inductive runs : config -> Prop :=
| runs_init : runs (s0, [])
| runs_event c e c' : runs c -> event_ok rest c e -> fresh_socket e -> perform host e c = Ret c' () -> runs c'.

Lemma runs_reachable c : runs c -> reachable host rest s0 c.
Proof. induction 1; [apply reach_init|by eapply reach_event]. Qed.

Lemma s0_wired : wired s0.
Proof. by split. Qed.

(** What the loop's thread does, and what the other threads do. *)
Lemma action_wired a (c : config) :
  TcpServer.core holds (rpc_ok (U := U) (Msg := Msg)) rest [] c.1 -> wired c.1 ->
  TcpServer.action_ok rest c a -> fresh_socket (OnLoop a) ->
  wlp (perform host (OnLoop a)) c (fun c' _ => wired c'.1).
Proof.
  intros Hcore Hw Hok Hnew. destruct a as [|active|revents accepted| |id|id data|id]; simpl in *; try done.
  - apply wlp_zoom. by eapply wlp_mono; [apply start_wired|].
  - by apply wlp_zoom, wlp_modify.
  - unfold TcpServer.dispatch. wlp_pures. destruct c.2 as [|x active]; [by apply wlp_ret|]. wlp_pures. simpl.
    destruct (x =? 0); [|by eapply wlp_mono; [apply conn_event_wired|]].
    eapply wlp_mono; [apply accept_event_wired; [done..|apply Hcore|]|done].
    intros Hacc. destruct Hok as [_ Hacc']. destruct accepted as [[]|]; [apply Hacc'|done].
  - apply wlp_zoom. eapply wlp_mono; [apply run_pending_wired; [|done]|done].
    pose proof (TcpServer.c_pending _ _ _ _ _ Hcore) as Hp. rewrite app_nil_r in Hp.
    eapply Forall_impl; [exact Hp|]. intros [id f|id resp]; [by intros []|done].
  - apply wlp_zoom. by eapply wlp_mono; [apply force_close_wired|].
Qed.

Lemma event_wired e (c c' : config) :
  TcpServer.core holds rpc_ok rest [] c.1 -> wired c.1 -> event_ok rest c e -> fresh_socket e ->
  perform host e c = Ret c' () -> wired c'.1.
Proof.
  intros Hcore Hw Hok Hnew Hrun. destruct e as [a| | |i|svc|].
  1: exact (action_wired a c Hcore Hw Hok Hnew c' () Hrun).
  3: { pose proof (work_wpe i c.1 (fun _ _ => False) (TcpServer.c_app_ok _ _ _ _ _ Hcore)) as Hwork.
       simpl in Hrun. unfold zoom in Hrun. destruct (work i c.1) as [s1 []| | |] eqn:Hs;
         unfold mbind, M_bind in Hrun; simpl in Hrun; rewrite Hs in Hrun; try done.
       injection Hrun as <-. unfold wpe in Hwork. rewrite Hs in Hwork. destruct Hwork as ([] & _ & Hnet).
       by apply released_wired, (same_wired c.1). }
  all: injection Hrun as <-; by apply released_wired, (same_wired c.1).
Qed.

Lemma runs_wired c : runs c -> wired c.1.
Proof.
  induction 1 as [|c e c' Hc IH Hok Hnew Hrun]; [apply s0_wired|].
  destruct (reachable_config host serialized_size rest _ _ _ Hl Hfd c (runs_reachable c Hc)) as ([Hcore _] & _).
  by eapply event_wired.
Qed.

(** The answers to the requests of one connection. *)
Lemma answers_on_one services (id : Z) reqs (answers : list (Z * RpcResponse)) :
  Forall2 (RpcServer.answers_on (U := U) (Msg := Msg) services) reqs answers ->
  Forall2 (RpcServer.answers services) (filter (fun r => r.1 = id) reqs).*2 (filter (fun a => a.1 = id) answers).*2.
Proof.
  induction 1 as [|[id1 req] [id2 a] reqs answers [Heq Ha] _ IH]; [constructor|]. simpl in Heq, Ha. subst id2.
  destruct (decide (id1 = id)); [|by rewrite !filter_cons_False].
  rewrite !filter_cons_True by done. by constructor.
Qed.

Lemma requests_on_one (id : Z) (frames : list (Z * bytes)) :
  (filter (fun r => r.1 = id) (RpcServer.requests frames)).*2 =
    omap ParseFromString (filter (fun f => f.1 = id) frames).*2.
Proof.
  unfold RpcServer.requests. induction frames as [|[id1 f] frames IH]; [done|]. simpl.
  destruct (decide (id1 = id)) as [->|].
  - rewrite (filter_cons_True _ (id, f)) by done. simpl. destruct (ParseFromString f); simpl; [|done].
    rewrite filter_cons_True by done. simpl. by f_equal.
  - rewrite (filter_cons_False _ (id1, f)) by done. destruct (ParseFromString f); simpl; [|done].
    by rewrite filter_cons_False.
Qed.

(** C2. What the server reads and writes on the wire.  In every state that the
    server can reach, whatever the kernel does and however the workers and the
    loop interleave, for each of its connections: the bytes that the kernel has
    handed over, cut into frames as the wire format says (up to the size limit),
    leave in the input buffer exactly what is not yet a frame; and the bytes
    that the peer has been sent, with those in the output buffer behind them,
    are the frames of right answers to requests among them, whole and in order,
    each request answered at most once; a closed connection may have lost the
    end.  When no task and no functor is left, they are the answers to all the
    requests. *)
Theorem server_on_the_wire c (Hr : runs c) id o (Ho : TcpServer.objects c.1 !! id = Some o) :
  let services := RpcServer.services_ (TcpServer.app c.1) in
  let written := sent o.2 ++ Buffer.contents (TcpConnection.output_buf_ o.1) in
  exists fs st, Framing.deframe kMaxBodySize (received o.2) =
      (fs, Buffer.contents (TcpConnection.input_buf_ o.1), st) /\
    exists finished answers, finished ⊆+ omap ParseFromString fs /\
      Forall2 (RpcServer.answers services) finished answers /\
      written `prefix_of` concat (frame_of <$> answers) /\
      (TcpConnection.state_ o.1 = TcpConnection.kConnected -> written = concat (frame_of <$> answers)) /\
      (RpcServer.tasks (TcpServer.app c.1) = [] -> (TcpOwner.view c.1).2 = [] ->
       finished ≡ₚ omap ParseFromString fs).
Proof.
  intros services written. destruct (wd_conns _ (runs_wired c Hr) id o Ho) as [_ [Hpre Heq] [st Hin]].
  exists (frames_on id (net c.1)), st. split; [exact Hin|].
  destruct (fresh_accounted _ _ _ _ (refines host rest listen_fd l u (proj1 Hl) c (runs_reachable c Hr)))
    as [_ (waiting & finished & Hp & Hw & Hfin)].
  apply Forall2_app_inv_r in Hfin as (f1 & f2 & Hf1 & Hf2 & ->).
  exists (filter (fun r => r.1 = id) f1).*2, (filter (fun a => a.1 = id) (responses (net c.1))).*2.
  unfold frames_on. rewrite <- requests_on_one.
  change (delivered (TcpOwner.view c.1)) with (frames (net c.1)) in Hp. rewrite Hp, !filter_app, !fmap_app.
  split_and!; [|by apply answers_on_one|done|done|].
  - etrans; [|apply submseteq_inserts_l; reflexivity]. by apply submseteq_inserts_r.
  - intros Ht Hf. simpl in Hw, Hf2. rewrite Ht in Hw. apply Forall2_nil_inv_r in Hw as ->.
    unfold TcpOwner.view, TcpOwner.view_with in Hf, Hf2. simpl in Hf, Hf2. rewrite Hf in Hf2.
    apply Forall2_nil_inv_r in Hf2 as ->. by rewrite app_nil_r.
Qed.

End server.

End wire.

(** ** A socket that remembers what it has handed over *)

Record tapped (K : Type) := mk_tapped { line : K; taken : bytes }.
Arguments mk_tapped {K} line taken.
Arguments line {K}.
Arguments taken {K}.

Section tapped.
Context {K : Type} `{SocketOk K}.

#[export] Instance tapped_socket : Socket (tapped K) := {
  sys_write data t := let '(r, k) := sys_write data (line t) in (r, mk_tapped k (taken t));
  sys_readv cap t :=
    let '(r, k) := sys_readv cap (line t) in
    (r, mk_tapped k (taken t ++ match r with Buffer.ReadOk d => d | Buffer.ReadErr _ => [] end));
  sys_shutdown t := mk_tapped (sys_shutdown (line t)) (taken t);
}.

#[export] Instance tapped_ok : SocketOk (tapped K).
Proof.
  refine {| sent t := sent (line t) |}; simpl.
  - intros data t n t'. destruct (sys_write data (line t)) eqn:Hk. intros [= -> <-]. by apply write_ok.
  - intros data t e t'. destruct (sys_write data (line t)) eqn:Hk. intros [= -> <-]. by apply write_err in Hk.
  - intros cap t d t' Hcap. destruct (sys_readv cap (line t)) eqn:Hk. intros [= -> <-]. by apply (readv_ok cap).
  - intros cap t e t'. destruct (sys_readv cap (line t)) eqn:Hk. intros [= -> <-]. by apply readv_err in Hk.
  - intros t. apply shutdown_sent.
Defined.

#[export] Instance tapped_receiving : Receiving (tapped K).
Proof.
  refine {| received := taken |}; simpl.
  - intros cap t d t'. destruct (sys_readv cap (line t)). by intros [= -> <-].
  - intros cap t e t'. destruct (sys_readv cap (line t)). intros [= -> <-]. apply app_nil_r.
  - intros data t r t'. destruct (sys_write data (line t)). by intros [= _ <-].
  - done.
Defined.

End tapped.

(** ** The echo service over a tapped socket *)

Module Demo.
Import RpcServer.Echo RpcSystem.Demo RpcServe.Demo.

(** The peer sends a request, and the first bytes of another frame. *)
Definition peer : tapped duplex := mk_tapped (mk_duplex (Framing.encode [Byte.x01] ++ [Byte.x00; Byte.x00]) []) [].
Abbreviation event := (event (K := tapped duplex) (U := nat) (Msg := bytes)).
Definition serving : list event :=
  [Register echo; OnLoop TcpServer.Start; OnLoop (TcpServer.Poll [0]);
   OnLoop (TcpServer.Dispatch Epoll.EPOLLIN (Some (9, peer)));
   OnLoop (TcpServer.Poll [1]); OnLoop (TcpServer.Dispatch Epoll.EPOLLIN None);
   Work 0; OnLoop TcpServer.RunPending].
Definition server0 := make (K := tapped duplex) (Msg := bytes) 3 TcpServer.Demo.loop0 0%nat.
Definition after (n : nat) : TcpServer.config :=
  match for_each (perform Wire.LittleEndian) (take n serving) (server0, []) with
  | Ret c _ => c
  | _ => (server0, [])
  end.

Abbreviation reached := (runs (K := tapped duplex) (Msg := bytes) Wire.LittleEndian TcpServer.Demo.rest 3
  TcpServer.Demo.loop0 0%nat).

Lemma reach_next n e :
  reached (after n) -> serving !! n = Some e -> event_ok TcpServer.Demo.rest (after n) e -> fresh_socket e ->
  perform Wire.LittleEndian e (after n) = Ret (after (Datatypes.S n)) () -> reached (after (Datatypes.S n)).
Proof. intros. by eapply runs_event. Qed.

Lemma serving_reached : reached (after 8).
Proof.
  eapply reach_next; [|by vm_compute..].
  eapply reach_next; [|by vm_compute..].
  eapply reach_next; [|by vm_compute..].
  eapply reach_next; [|done| |done|by vm_compute].
  2: { split_and!; [by vm_compute|apply NoDup_singleton|]. repeat constructor; [done|].
       exists 9. split; [apply peer_not_rest|by vm_compute]. }
  eapply reach_next; [|done| |by vm_compute|by vm_compute].
  2: { split; [by vm_compute|]. split; [|by vm_compute]. split_and!; [by vm_compute|apply peer_not_rest|].
       by intros id o. }
  eapply reach_next; [|done| |done|by vm_compute].
  2: { split_and!; [by vm_compute|apply NoDup_singleton|]. repeat constructor; [done|].
       exists 3. split; [apply listen_not_rest|by vm_compute]. }
  eapply reach_next; [|by vm_compute..].
  eapply reach_next; [apply runs_init|done|by split|done|by vm_compute].
Qed.

(** What was read and written, and what is left in the buffers. *)
Lemma serving_sockets : exists o, TcpServer.objects (after 8).1 !! 1 = Some o /\
  received o.2 = Framing.encode [Byte.x01] ++ [Byte.x00; Byte.x00] /\
  Buffer.contents (TcpConnection.input_buf_ o.1) = [Byte.x00; Byte.x00] /\
  Buffer.contents (TcpConnection.output_buf_ o.1) = [] /\
  TcpConnection.state_ o.1 = TcpConnection.kConnected.
Proof.
  assert (is_Some (TcpServer.objects (after 8).1 !! 1)) as [o Ho] by (vm_compute; eauto).
  exists o. split; [done|]. vm_compute in Ho. injection Ho as <-. by vm_compute.
Qed.

(** The response is on the wire, and two bytes wait for the rest of a frame. *)
Lemma server_on_the_wire_witness : exists o, TcpServer.objects (after 8).1 !! 1 = Some o /\
  Buffer.contents (TcpConnection.input_buf_ o.1) = [Byte.x00; Byte.x00] /\
  exists finished answers, finished ≡ₚ [good_request] /\
    Forall2 (RpcServer.answers ({["Echo" := echo]} : gmap string (RpcServer.Service nat bytes))) finished answers /\
    sent o.2 = concat (frame_of <$> answers).
Proof.
  destruct serving_sockets as (o & Ho & Hr & Hin & Hout & Hs).
  destruct (server_on_the_wire (Msg := bytes) Wire.LittleEndian serialized_size TcpServer.Demo.rest 3
    TcpServer.Demo.loop0 0%nat TcpServer.Demo.loop0_ready listen_not_rest (after 8) serving_reached 1 o Ho)
    as (fs & st & Hd & finished & answers & _ & Ha & _ & Hw & Hp).
  rewrite Hr in Hd. vm_compute in Hd. injection Hd as <- _ _. rewrite Hout, app_nil_r in Hw.
  exists o. split; [exact Ho|]. split; [exact Hin|].
  exists finished, answers. split; [apply Hp; vm_compute; reflexivity|]. split; [exact Ha|exact (Hw Hs)].
Defined.

End Demo.

End RpcWire.
