(* ===== verification/RpcLife.v ===== *)
(** * A running server (src/rpc/rpc_server.cpp, src/net/event_loop.cpp)

    [start()], which enables the acceptor and runs [loop()], as the thread that
    drives the events of RpcServe.v one after the other while other threads
    interleave: the workers, [register_service], [force_close] and [quit].
    [start()] ends exactly on [quit()], and then within a turn of the loop;
    but a [quit()] that comes before the loop is lost. *)

From Stdlib Require Import ZArith Lia.
From S2P Require Import Prelude Cxx NetBuffer Codec Channel EpollPoller EventLoop TcpConnection TcpServer.
From S2P Require Import TcpOwner Rpc RpcServer RpcSystem RpcServe.
Import Proto.
Local Open Scope Z_scope.

Module RpcLife.
Import RpcServe.

(** ** What runs on the loop leaves [quit_] and the wake-ups alone *)

Section calm.
Context {K U Msg : Type} `{Socket K} `{Message RpcRequest} `{Message RpcResponse} `{Message Msg}.
Abbreviation rpc := (RpcServer.t (Conn := Z) (U := U) (Msg := Msg) (N := history)).
Abbreviation S := (TcpServer.t K rpc RpcResponse).
Abbreviation W := (TcpConnection.world K S).
Variable host : Wire.endian.
Abbreviation conn_calm := (TcpOwner.conn_calm (K := K) (A := rpc) (G := RpcResponse)).
#[local] Existing Instances TcpOwner.calm_preorder TcpOwner.conn_calm_preorder.

Lemma no_callback_calm id : moves conn_calm (call_if (TcpServer.cb_of None id)).
Proof. by intros w w' x [= <- _]. Qed.

Lemma on_connection_calm id : moves conn_calm (call_if (TcpServer.cb_of conn_cb id)).
Proof. by intros w w' x [= <- _]. Qed.

Lemma note_calm f : moves conn_calm (note f).
Proof. by apply moves_zoom. Qed.

Lemma codec_send_calm id resp : moves conn_calm (codec_send host id resp).
Proof.
  unfold codec_send. apply moves_bind; [exact _|apply note_calm|]. intros _.
  by apply send_response_moves; [exact _|..].
Qed.
#[local] Hint Resolve note_calm codec_send_calm : moves.
#[local] Hint Extern 0 (TcpOwner.conn_calm _ _) => apply EventLoop.calm_same; reflexivity : moves.
#[local] Hint Extern 0 (TcpOwner.calm _ _) => apply EventLoop.calm_same; reflexivity : moves.
#[local] Hint Extern 0 (moves TcpOwner.calm (zoom TcpServer.loop_lens (modify _))) =>
  apply TcpOwner.loop_calm; intros; split; [reflexivity|first [reflexivity|apply EventLoop.eventfd_add_le]] : moves.

Lemma on_message_calm id : moves conn_calm (call_if (TcpServer.cb_of (msg_cb host) id)).
Proof.
  simpl. unfold on_message. apply Codec.on_message_moves; [exact _|done| |].
  - intros frame. unfold on_frame, RpcServer.on_frame, RpcServer.submit. moves_walk.
  - intros why. unfold Codec.reject. apply moves_bind; [exact _|by intros w w' x [= <- _]|]. intros _.
    by apply TcpConnection.force_close_moves; [exact _|].
Qed.

Abbreviation config := (TcpServer.config (K := K) (A := rpc) (G := RpcResponse)).
Abbreviation event := (event (K := K) (U := U) (Msg := Msg)).

Lemma work_calm i : moves TcpOwner.calm (work (K := K) (U := U) (Msg := Msg) i).
Proof.
  unfold work, RpcServer.dispatch_request, queue_response, EventLoop.queue_in_loop, EventLoop.wakeup.
  moves_walk.
Qed.

(** Only [quit()] and the entry of [loop()] write [quit_], and only the handler
    of the wake-up channel takes wake-ups. *)
Lemma perform_calm (e : event) (c c' : config) :
  perform host e c = Ret c' () ->
  match e with OnLoop _ | Work _ | Register _ => TcpOwner.calm c.1 c'.1 | EnterLoop | HandleRead | Quit => True end.
Proof.
  destruct e as [a| | |i|svc|]; simpl; try done.
  - apply TcpOwner.act_calm; auto using on_connection_calm, on_message_calm, no_callback_calm, codec_send_calm.
  - unfold zoom, mbind, M_bind. destruct (work i (lget lens_fst c)) as [s []| | |] eqn:Hs; try done.
    intros [= <-]. exact (work_calm i _ _ _ Hs).
  - by intros [= <-].
Qed.

Lemma perform_quit (e : event) (c c' : config) :
  perform host e c = Ret c' () ->
  TcpOwner.quitting c'.1 = match e with EnterLoop => false | Quit => true | _ => TcpOwner.quitting c.1 end.
Proof.
  intros Hrun. pose proof (perform_calm e c c' Hrun) as Hcalm.
  destruct e; simpl in *; try exact (EventLoop.calm_quit _ _ Hcalm); by injection Hrun as <-.
Qed.

End calm.

(** ** [start()] and the threads around it *)

Section start.
Context {K U Msg : Type} `{SocketOk K} `{Message RpcRequest} `{Message RpcResponse} `{Message Msg}.
Abbreviation rpc := (RpcServer.t (Conn := Z) (U := U) (Msg := Msg) (N := history)).
Abbreviation S := (TcpServer.t K rpc RpcResponse).
Abbreviation config := (TcpServer.config (K := K) (A := rpc) (G := RpcResponse)).
Abbreviation event := (RpcServe.event (K := K) (U := U) (Msg := Msg)).
Variable host : Wire.endian.
Variable rest : TcpServer.others.

(** Where the thread that called [start()] stands. *)
Inductive pc :=
| PStart                    (* before [server_.start()] *)
| PEnter                    (* before [loop_.loop()] *)
| PTest                     (* about to test [quit_] *)
| PEvents (wake : bool)     (* handling what [epoll_wait] found, with the wake-up channel or not *)
| PReturned
| PThrew (e : exn).

(** The events that it may perform next, and where they lead. *)
Definition loop_event (c : config) (p : pc) (e : event) (p' : pc) : Prop :=
  match p, e, p' with
  | PStart, OnLoop TcpServer.Start, PEnter => True
  | PEnter, EnterLoop, PTest => True
  | PTest, OnLoop (TcpServer.Poll _), PEvents wake =>
      TcpOwner.quitting c.1 = false /\ (wake = true -> 0 < EventLoop.eventfd (TcpServer.loop_ c.1))
  | PEvents wake, HandleRead, PEvents wake' => wake = true /\ wake' = false
  | PEvents wake, OnLoop (TcpServer.Dispatch _ _), PEvents wake' => wake' = wake
  | PEvents wake, OnLoop TcpServer.RunPending, PTest => wake = false
  | _, _, _ => False
  end.

Inductive loop_step : config * pc -> config * pc -> Prop :=
| loop_goes c p e p' c' : loop_event c p e p' -> event_ok rest c e -> perform host e c = Ret c' () ->
    loop_step (c, p) (c', p')
| loop_throws c p e p' c' x : loop_event c p e p' -> event_ok rest c e -> perform host e c = Throw c' x ->
    loop_step (c, p) (c', PThrew x)
| loop_returns c : TcpOwner.quitting c.1 = true -> loop_step (c, PTest) (c, PReturned).

(** The other threads. *)
Definition of_others (e : event) : bool :=
  match e with
  | Work _ | Register _ | Quit => true
  | OnLoop (TcpServer.OtherForceClose _) => true
  | _ => false
  end.
Inductive other_step (e : event) : config * pc -> config * pc -> Prop :=
| other_goes c p c' : of_others e = true -> event_ok rest c e -> perform host e c = Ret c' () ->
    other_step e (c, p) (c', p).

Definition step (x y : config * pc) : Prop := loop_step x y \/ exists e, other_step e x y.
(** Steps with no call of [quit()]. *)
Definition quiet_step (x y : config * pc) : Prop :=
  loop_step x y \/ exists e, e <> Quit /\ other_step e x y.

(** A run, with the number of steps of the thread in [start()]. *)
Inductive turns : nat -> config * pc -> config * pc -> Prop :=
| turns_refl x : turns 0 x x
| turns_loop n x y z : loop_step x y -> turns n y z -> turns (Datatypes.S n) x z
| turns_other n e x y z : other_step e x y -> turns n y z -> turns n x z.

(** *** The channels still to be dispatched *)

Lemma perform_active (e : event) (c c' : config) :
  perform host e c = Ret c' () ->
  c'.2 = match e with
         | OnLoop (TcpServer.Poll active) => active
         | OnLoop (TcpServer.Dispatch _ _) => tail c.2
         | _ => c.2
         end.
Proof.
  assert (forall m : M S unit, zoom lens_fst m c = Ret c' () -> c'.2 = c.2) as Hfst.
  { intros m. unfold zoom. destruct (m (lget lens_fst c)); try done. by intros [= <-]. }
  destruct e as [[]| | |i|svc|]; simpl; try apply Hfst.
  - by intros [= <-].
  - unfold TcpServer.dispatch, mbind, M_bind, gets. destruct c as [s [|x active]]; [by intros [= <-]|].
    unfold zoom. simpl. destruct (if x =? 0 then _ else _); try done. by intros [= <-].
Qed.

(** *** After [quit()] *)

(** In [loop()], with [quit_] set. *)
Definition told_to_quit (x : config * pc) : Prop :=
  match x.2 with
  | PStart | PEnter => False
  | PTest | PEvents _ => TcpOwner.quitting x.1.1 = true
  | PReturned | PThrew _ => True
  end.

(** The steps that [loop()] can still take. *)
Definition steps_left (x : config * pc) : nat :=
  match x.2 with
  | PTest => 1
  | PEvents wake => 2 + (if wake then 1 else 0) + length x.1.2
  | _ => 0
  end.

Lemma loop_step_left x y :
  told_to_quit x -> loop_step x y -> told_to_quit y /\ (steps_left y < steps_left x)%nat.
Proof.
  intros Hq Hstep. destruct Hstep as [c p e p' c' He Hok Hrun|c p e p' c' t He Hok Hrun|c Hc].
  - pose proof (perform_quit host e c c' Hrun) as Hquit. pose proof (perform_active e c c' Hrun) as Hact.
    unfold told_to_quit, steps_left in *. simpl in *.
    destruct p as [| | |wake| |], e as [[]| | |i|svc|], p' as [| | |wake'| |]; simpl in *; try done.
    + destruct He as [He _]. congruence.
    + subst wake'. rewrite Hquit, Hact. split; [done|]. destruct Hok as [Hne _].
      destruct c.2; [done|]. simpl. lia.
    + rewrite Hquit. subst wake. split; [done|]. lia.
    + destruct He as [-> ->]. rewrite Hquit, Hact. split; [done|]. lia.
  - unfold told_to_quit, steps_left in *. simpl in *. split; [done|].
    destruct p as [| | |[]| |], e as [[]| | |i|svc|], p' as [| | |wake'| |]; simpl in *; try done; lia.
  - unfold told_to_quit, steps_left. simpl. split; [done|lia].
Qed.

Lemma other_step_left e x y :
  told_to_quit x -> other_step e x y -> told_to_quit y /\ steps_left y = steps_left x.
Proof.
  intros Hq Hs. destruct Hs as [c p c' He Hok Hrun].
  pose proof (perform_quit host e c c' Hrun) as Hquit. pose proof (perform_active e c c' Hrun) as Hact.
  assert (c'.2 = c.2) as Hact' by (by destruct e as [[]| | |i|svc|]).
  unfold told_to_quit, steps_left in *. simpl in *. rewrite Hact'. split; [|done].
  destruct p; simpl in *; try done; rewrite Hquit; by destruct e as [[]| | |i|svc|].
Qed.

Lemma turns_left n x y :
  told_to_quit x -> turns n x y -> told_to_quit y /\ (n + steps_left y <= steps_left x)%nat.
Proof.
  intros Hq Ht. revert Hq. induction Ht as [x|n x y z Hs _ IH|n e x y z Hs _ IH]; intros Hq; [done|..].
  - destruct (loop_step_left x y Hq Hs) as [Hy Hl]. destruct (IH Hy). split; [done|lia].
  - destruct (other_step_left e x y Hq Hs) as [Hy Hl]. destruct (IH Hy). split; [done|lia].
Qed.

(** *** Without [quit()] *)

Definition serving (x : config * pc) : Prop :=
  match x.2 with
  | PStart | PEnter | PThrew _ => True
  | PTest | PEvents _ => TcpOwner.quitting x.1.1 = false
  | PReturned => False
  end.

Lemma quiet_serving x y : serving x -> quiet_step x y -> serving y.
Proof.
  intros Hx [Hs|(e & He & Hs)].
  - destruct Hs as [c p e p' c' He Hok Hrun|c p e p' c' t He Hok Hrun|c Hc].
    + pose proof (perform_quit host e c c' Hrun) as Hquit. unfold serving in *. simpl in *.
      destruct p as [| | |wake| |], e as [[]| | |i|svc|], p' as [| | |wake'| |]; simpl in *; try done; congruence.
    + done.
    + unfold serving in Hx. simpl in Hx. congruence.
  - destruct Hs as [c p c' Ho Hok Hrun].
    pose proof (perform_quit host e c c' Hrun) as Hquit. unfold serving in *. simpl in *.
    destruct p; simpl in *; try done; rewrite Hquit; by destruct e as [[]| | |i|svc|].
Qed.

(** *** The run of a server *)

(** A message serializes to at most 2 GB, as protocol buffers do. *)
Hypothesis serialized_size : forall resp : RpcResponse, zlen (SerializeToString resp).2 <= int_max.
Variables (listen_fd : Z) (l : EventLoop.t (TcpServer.functor RpcResponse)) (u : U).
Hypothesis Hl : TcpServer.loop_ready rest l.
Hypothesis Hfd : listen_fd ∉ rest.
Abbreviation s0 := (make (K := K) listen_fd l u).
Definition starting : config * pc := ((s0, []), PStart).

(** Between turns nothing is left to dispatch. *)
Definition between (x : config * pc) : Prop :=
  match x.2 with
  | PStart | PEnter | PTest | PReturned => x.1.2 = []
  | PEvents _ => True
  | PThrew e => e = length_error "vector::_M_default_append"
  end.
Definition sound (x : config * pc) : Prop :=
  between x /\ match x.2 with PThrew _ => True | _ => reachable host rest s0 x.1 end.

Lemma sound_goes c p e p' c' :
  sound (c, p) -> event_ok rest c e -> perform host e c = Ret c' () -> (forall t, p <> PThrew t) ->
  (forall t, p' <> PThrew t) -> between (c', p') -> sound (c', p').
Proof.
  intros [_ Hr] Hok Hrun Hp Hp' Hb. split; [done|]. simpl in *.
  assert (reachable host rest s0 c') by (apply (reach_event _ _ _ c e); [destruct p; naive_solver|done..]).
  destruct p'; naive_solver.
Qed.

Lemma throws_oom c e c' t :
  reachable host rest s0 c -> event_ok rest c e -> perform host e c = Throw c' t ->
  t = length_error "vector::_M_default_append".
Proof.
  intros Hr Hok Hrun. pose proof (event_wpe host serialized_size rest listen_fd l u Hl Hfd c e Hr Hok) as Hall.
  unfold wpe in Hall. by rewrite Hrun in Hall.
Qed.

Lemma loop_step_sound x y : sound x -> loop_step x y -> sound y.
Proof.
  intros Hx Hs. destruct Hs as [c p e p' c' He Hok Hrun|c p e p' c' t He Hok Hrun|c Hc].
  - pose proof (perform_active e c c' Hrun) as Hact. pose proof (proj1 Hx) as Hb.
    unfold between in Hb. simpl in Hb.
    destruct p as [| | |wake| |t], e as [[]| | |i|svc|], p' as [| | |wake'| |]; simpl in He; try done;
      apply (sound_goes c _ _ _ c' Hx Hok Hrun); try done; unfold between; simpl in *;
      first [done|congruence].
  - split; [|done]. destruct Hx as [_ Hr]. unfold between. simpl.
    apply (throws_oom c e c'); [|done..]. by destruct p.
  - done.
Qed.

Lemma other_step_sound e x y : sound x -> other_step e x y -> sound y.
Proof.
  intros Hx Hs. destruct Hs as [c p c' He Hok Hrun].
  pose proof (perform_active e c c' Hrun) as Hact.
  assert (c'.2 = c.2) as Hact' by (by destruct e as [[]| | |i|svc|]).
  assert (between (c', p)) as Hb.
  { destruct Hx as [Hb _]. unfold between in *. simpl in *. rewrite Hact'. exact Hb. }
  destruct p; try by apply (sound_goes c _ e _ c' Hx Hok Hrun). by split.
Qed.

Lemma run_sound x : rtc step starting x -> sound x.
Proof.
  assert (sound starting) as Hs0 by (split; [done|apply reach_init]). intros Hr. revert Hs0.
  induction Hr as [|x y z [Hs|[e Hs]] _ IH]; [done| |]; intros Hx; apply IH;
    eauto using loop_step_sound, other_step_sound.
Qed.

(** The thread in [loop()] can always go on. *)
Lemma event_goes c p e p' :
  reachable host rest s0 c -> loop_event c p e p' -> event_ok rest c e -> exists y, loop_step (c, p) y.
Proof.
  intros Hr He Hok.
  pose proof (event_wpe host serialized_size rest listen_fd l u Hl Hfd c e Hr Hok) as Hall. unfold wpe in Hall. destruct (perform host e c) as [c' []|c' t|why|] eqn:Hrun; try done.
  - eexists. by eapply loop_goes.
  - eexists. by eapply loop_throws.
Qed.

Lemma loop_can_go x :
  sound x -> x.2 <> PReturned -> (forall t, x.2 <> PThrew t) -> exists y, loop_step x y.
Proof.
  destruct x as [c p]. intros [Hb Hr] Hret Hthrew. unfold between in *. simpl in *.
  destruct p as [| | |wake| |t]; [| | | |done|by destruct (Hthrew t)].
  - by apply (event_goes c PStart (OnLoop TcpServer.Start) PEnter).
  - by apply (event_goes c PEnter EnterLoop PTest).
  - destruct (TcpOwner.quitting c.1) eqn:Hq; [eexists; by apply loop_returns|].
    apply (event_goes c PTest (OnLoop (TcpServer.Poll [])) (PEvents false)); [done|by split|].
    split; [done|]. split; constructor.
  - destruct c.2 as [|x active] eqn:Hact.
    + destruct wake; [by apply (event_goes c _ HandleRead (PEvents false))|].
      by apply (event_goes c _ (OnLoop TcpServer.RunPending) PTest).
    + apply (event_goes c _ (OnLoop (TcpServer.Dispatch 0 None)) (PEvents wake)); [done..|]. simpl. by rewrite Hact.
Qed.

Lemma loop_goes_on x :
  sound x -> (forall y, ~ loop_step x y) ->
  x.2 = PReturned \/ x.2 = PThrew (length_error "vector::_M_default_append").
Proof.
  intros Hx Hstuck. pose proof (loop_can_go x Hx) as Hgo. destruct Hx as [Hb _], x as [c p].
  destruct p as [| | |wake| |t]; [..|by left|by rewrite <- Hb; right];
    (destruct Hgo as [y Hy]; [done..|by destruct (Hstuck y)]).
Qed.


End start.

(** ** The echo server of RpcServe.v is told to quit *)

Module Demo.
Import RpcServer.Echo RpcSystem.Demo RpcServe.Demo.

Abbreviation rest := TcpServer.Demo.rest.
Abbreviation starting' := (starting (K := duplex) (U := nat) (Msg := bytes) 3 TcpServer.Demo.loop0 0%nat).
Abbreviation step' := (step (K := duplex) (U := nat) (Msg := bytes) Wire.LittleEndian rest).
Abbreviation loop_step' := (loop_step (K := duplex) (U := nat) (Msg := bytes) Wire.LittleEndian rest).
Abbreviation turns' := (turns (K := duplex) (U := nat) (Msg := bytes) Wire.LittleEndian rest).
Abbreviation quiet_step' := (quiet_step (K := duplex) (U := nat) (Msg := bytes) Wire.LittleEndian rest).

(** The loop has begun when another thread calls [quit()]. *)
Definition entered : list (event (K := duplex) (U := nat) (Msg := bytes)) := [OnLoop TcpServer.Start; EnterLoop].
Definition told := (result (entered ++ [Quit]), PTest).

Lemma told_reached : rtc step' starting' told.
Proof.
  eapply rtc_l; [left; eapply (loop_goes _ _ _ _ (OnLoop TcpServer.Start) PEnter (result [OnLoop TcpServer.Start]));
    [done|done|by vm_compute]|].
  eapply rtc_l; [left; eapply (loop_goes _ _ _ _ EnterLoop PTest (result entered)); [done|done|by vm_compute]|].
  eapply rtc_l; [right; exists Quit; eapply (other_goes _ _ _ _ _ (result (entered ++ [Quit])));
    [done|done|by vm_compute]|]. apply rtc_refl.
Qed.


(** A [quit()] that comes first is lost: the loop polls again. *)
Example early_quit_is_lost :
  match for_each (perform Wire.LittleEndian) [Quit; OnLoop TcpServer.Start; EnterLoop] (server0, []) with
  | Ret c _ => TcpOwner.quitting c.1 = false /\ EventLoop.eventfd (TcpServer.loop_ c.1) = 1
  | _ => False
  end.
Proof. by vm_compute. Qed.

End Demo.

End RpcLife.
