(* ===== verification/RpcResources.v ===== *)
(** * The descriptors of a server (src/rpc/rpc_server.cpp, src/net/tcp_server.cpp)

    The constructors of [RpcServer]'s loop and [TcpServer] with their error paths,
    and the destructors of the whole object, members included, over the open
    descriptors of the process.  [server_life]: whatever happened in between,
    the destructor closes each descriptor of the server once and no other,
    leaves the kernel's interest set empty, and destroys no channel that still
    asks for events. *)

From Stdlib Require Import ZArith Lia.
From S2P Require Import Prelude Cxx NetBuffer Codec Channel EpollPoller EventLoop TcpConnection TcpServer.
From S2P Require Import ThreadPool TcpOwner Rpc RpcServer RpcSystem RpcServe.
Import Proto.
Local Open Scope Z_scope.

Module RpcResources.
Import RpcServe.

Section code.
Context {K U Msg : Type} `{Socket K} `{Message RpcRequest} `{Message RpcResponse} `{Message Msg}.
Abbreviation rpc := (RpcServer.t (Conn := Z) (U := U) (Msg := Msg) (N := history)).
Abbreviation S := (TcpServer.t K rpc RpcResponse).
Abbreviation loop := (EventLoop.t (TcpServer.functor RpcResponse)).

(** ** Construction *)

(** What the system calls of the constructors answer. *)
Record answers := mk_answers { epoll_ret : Z; eventfd_ret : Z; listen_rets : TcpServer.listen_answers }.

(** The members that [RpcServer] starts with. *)
Definition new_members (u : U) : rpc := RpcServer.mk ∅ false [] [] u (mk_history [] []).

(** [~EventLoop()] of a loop with no functors. *)
Definition destroy_loop (wakeup_ch : EpollPoller.ptr) (epfd : Z) : M (EventLoop.owned (TcpServer.functor RpcResponse)) unit :=
  EventLoop.destroy wakeup_ch true ;; EventLoop.destroy_members epfd.

(** [server_], after [loop_], which is destroyed when the constructor throws. *)
Definition construct_server (wakeup_ch : EpollPoller.ptr) (port : string) (a : answers) (u : U)
    (cl : Channel.t * loop) : M (gset Z) (S * Channel.t) := fun fds =>
  match TcpServer.construct cl.2 port (listen_rets a) (new_members u) fds with
  | Ret fds' s => Ret fds' (s, cl.1)
  | Throw fds' e =>
      match destroy_loop wakeup_ch (epoll_ret a) (EventLoop.mk_owned cl.1 cl.2 fds') with
      | Ret o _ => Throw (EventLoop.fds o) e
      | Throw _ _ => Ub "std::terminate: a destructor throws"
      | Ub why => Ub why
      | OutOfFuel => OutOfFuel
      end
  | Ub why => Ub why
  | OutOfFuel => OutOfFuel
  end.

(** The members but for the pool. *)
Definition construct_members (wakeup_ch : EpollPoller.ptr) (port : string) (a : answers) (u : U) :
    M (gset Z) (S * Channel.t) :=
  cl ← EventLoop.construct (epoll_ret a) (eventfd_ret a) wakeup_ch;
  construct_server wakeup_ch port a u cl.

(** ** Destruction *)

(** The server, the wake-up channel of its loop and the open descriptors. *)
Record world := mk_world { server : S; wakeup : Channel.t; open : gset Z }.

Definition server_lens : Lens world S := mkLens server (fun s w => mk_world s (wakeup w) (open w)).
Definition open_lens : Lens world (gset Z) := mkLens open (fun f w => mk_world (server w) (wakeup w) f).
Definition loop_lens : Lens world (EventLoop.owned (TcpServer.functor RpcResponse)) :=
  mkLens (fun w => EventLoop.mk_owned (wakeup w) (TcpServer.loop_ (server w)) (open w))
    (fun o w => mk_world (TcpServer.set_loop (EventLoop.the_loop o) (server w))
       (EventLoop.wakeup_channel_ o) (EventLoop.fds o)).

(** The last pointer to a connection goes: [~TcpConnection()]. *)
Definition destroy_object (id : Z) : M world unit := fun w =>
  match TcpServer.objects (server w) !! id with
  | None => Ub "use of a destroyed TcpConnection"
  | Some o =>
      match TcpConnection.destroy (o.1, open w) with
      | Ret p _ => Ret (mk_world (TcpServer.set_objects (delete id (TcpServer.objects (server w))) (server w))
                          (wakeup w) p.2) ()
      | Throw p e => Throw (mk_world (server w) (wakeup w) p.2) e
      | Ub why => Ub why
      | OutOfFuel => OutOfFuel
      end
  end.

(** The connections that nobody holds any more are destroyed. *)
Definition unheld (s : S) : list Z :=
  elements (dom (TcpServer.objects s) ∖ dom (TcpServer.objects (TcpServer.released holds [] s))).
Definition release : M world unit :=
  ids ← gets (fun w => unheld (server w)); for_each destroy_object ids.

(** [~TcpServer()], then its members; [order] is the order of the table. *)
Definition destroy_tcp_server (order : list Z) : M world unit :=
  zoom server_lens TcpServer.destroy_acceptor ;;
  listen_fd_ ← gets (fun w => Channel.fd_ (TcpServer.accept_channel_ (server w)));
  zoom open_lens (EpollPoller.close listen_fd_) ;;
  zoom server_lens (TcpServer.destroy_connections conn_cb order) ;;
  zoom server_lens (modify (TcpServer.set_connections ∅)) ;;
  release ;;
  zoom server_lens (Channel.destroy TcpServer.accept_lens).

(** [~EventLoop()], then its members: the functors that never ran first. *)
Definition destroy_event_loop (wakeup_ch : EpollPoller.ptr) (epfd : Z) : M world unit :=
  zoom loop_lens (EventLoop.destroy wakeup_ch true) ;;
  zoom server_lens (modify (fun s => TcpServer.set_loop (EventLoop.set_pending [] (TcpServer.loop_ s)) s)) ;;
  release ;;
  zoom loop_lens (EventLoop.destroy_members epfd).

(** [~RpcServer()], then its members, last to first. *)
Definition destroy (wakeup_ch : EpollPoller.ptr) (epfd : Z) (order : list Z) : M world unit :=
  zoom server_lens (EventLoop.quit TcpServer.loop_lens true) ;;
  zoom server_lens drain ;;
  destroy_tcp_server order ;;
  destroy_event_loop wakeup_ch epfd.

(** ** The whole constructor *)

(** [worker_pool_], the last member: when it throws, the members before it are
    destroyed. *)
Definition construct_pool (wakeup_ch : EpollPoller.ptr) (epfd : Z) (io_threads : Z) (spawn : nat -> bool)
    (sc : S * Channel.t) : M (gset Z) (S * Channel.t) := fun fds =>
  match ThreadPool.construct (Task := RpcServer.task (Conn := Z) (U := U) (Msg := Msg)) spawn (Z.to_nat (u64 io_threads)) [] fds with
  | Ret fds' _ => Ret fds' sc
  | Throw fds' e =>
      match (destroy_tcp_server [] ;; destroy_event_loop wakeup_ch epfd) (mk_world sc.1 sc.2 fds') with
      | Ret w _ => Throw (open w) e
      | Throw _ _ => Ub "std::terminate: a destructor throws"
      | Ub why => Ub why
      | OutOfFuel => OutOfFuel
      end
  | Ub why => Ub why
  | OutOfFuel => OutOfFuel
  end.

(** [RpcServer(host, port, io_threads)] *)
Definition construct (wakeup_ch : EpollPoller.ptr) (port : string) (a : answers) (u : U)
    (io_threads : Z) (spawn : nat -> bool) : M (gset Z) (S * Channel.t) :=
  sc ← construct_members wakeup_ch port a u;
  construct_pool wakeup_ch (epoll_ret a) io_threads spawn sc.

End code.

(** ** Construction: a server, or nothing *)

Section construction.
Variables (base : gset Z) (wakeup_ch : EpollPoller.ptr) (a : answers).

(** What the loop has open besides the server's descriptors, over those of the
    rest of the process. *)
Definition others : TcpServer.others :=
  TcpServer.mk_others ({[eventfd_ret a; epoll_ret a]} ∪ base)
    {[eventfd_ret a := Channel.kReadEvent]} {[eventfd_ret a := wakeup_ch]}.

Lemma others_elem fd : fd ∈ others <-> fd = eventfd_ret a \/ fd = epoll_ret a \/ fd ∈ base.
Proof.
  change (fd ∈ TcpServer.other_fds others <-> fd = eventfd_ret a \/ fd = epoll_ret a \/ fd ∈ base).
  simpl. set_solver.
Qed.

Lemma new_loop_ready :
  TcpServer.loop_ready others (EventLoop.new_loop (F := TcpServer.functor RpcResponse) (eventfd_ret a) wakeup_ch).
Proof.
  split; [done|]. split; [by repeat constructor|]. exists {[eventfd_ret a := Channel.kReadEvent]}. split_and!.
  - simpl. unfold EpollPoller.Interest.ctl. simpl. by rewrite insert_empty.
  - intros fd Hfd. rewrite others_elem in Hfd. simpl. by rewrite !lookup_singleton_ne by naive_solver.
  - done.
Qed.

(** The wake-up channel as the poller knows it. *)
Lemma wakeup_registered (p : EpollPoller.t) k :
  EpollPoller.Interest.replay (EpollPoller.calls p) ∅ = Some k ->
  Forall (fun c => EpollPoller.level_triggered (EpollPoller.mask c)) (EpollPoller.calls p) ->
  k !! eventfd_ret a = Some Channel.kReadEvent ->
  EpollPoller.channels_ p !! eventfd_ret a = Some wakeup_ch ->
  EpollPoller.registered wakeup_ch (eventfd_ret a) k (EpollPoller.channels_ p) True
    (EventLoop.registered_wakeup (eventfd_ret a), p) k.
Proof.
  intros Hk Hm Hkw Hmw. apply (EpollPoller.consistent_registered wakeup_ch (EventLoop.registered_wakeup (eventfd_ret a)) p k Hk Hm).
  split; [by right; left|simpl; by rewrite Hkw|simpl; by rewrite Hmw|done].
Qed.

Lemma destroy_new_loop fds :
  eventfd_ret a ∈ fds -> epoll_ret a ∈ fds -> eventfd_ret a <> epoll_ret a ->
  wp (destroy_loop wakeup_ch (epoll_ret a)) (EventLoop.mk_owned
      (EventLoop.registered_wakeup (eventfd_ret a)) (EventLoop.new_loop (eventfd_ret a) wakeup_ch) fds)
    (fun o _ => EventLoop.fds o = fds ∖ {[eventfd_ret a]} ∖ {[epoll_ret a]}).
Proof.
  intros Hw He Hne. unfold destroy_loop. apply wp_bind.
  pose proof (wakeup_registered (EventLoop.poller_ (EventLoop.new_loop (F := TcpServer.functor RpcResponse)
    (eventfd_ret a) wakeup_ch)) {[eventfd_ret a := Channel.kReadEvent]}) as Hreg.
  eapply wp_mono; [eapply EventLoop.destroy_wp; [apply Hreg|done]|].
  - simpl. unfold EpollPoller.Interest.ctl. simpl. by rewrite insert_empty.
  - by repeat constructor.
  - apply lookup_singleton_eq.
  - apply lookup_singleton_eq.
  - cbv beta. intros o _ (c & p & k' & -> & _ & _ & Hc).
    eapply wp_mono; [apply EventLoop.destroy_members_wp; [done|set_solver]|].
    cbv beta. by intros o _ ->.
Qed.

(** The loop and the server, or nothing. *)
Lemma construct_members_wpe {K U Msg : Type} `{Socket K} (port : string) (u : U)
    (Hep : epoll_ret a ∉ base) (Hev : eventfd_ret a ∉ {[epoll_ret a]} ∪ base)
    (Hls : TcpServer.socket_ret (listen_rets a) ∉ {[eventfd_ret a]} ∪ ({[epoll_ret a]} ∪ base)) :
  let listen_fd := TcpServer.socket_ret (listen_rets a) in
  wpe (construct_members (K := K) (Msg := Msg) wakeup_ch port a u) base (fun fds r =>
    fds = {[listen_fd; eventfd_ret a; epoll_ret a]} ∪ base /\
    r = (make listen_fd (EventLoop.new_loop (eventfd_ret a) wakeup_ch) u,
         EventLoop.registered_wakeup (eventfd_ret a)) /\
    TcpServer.loop_ready others (TcpServer.loop_ r.1) /\ (listen_fd ∉ others))
    (fun fds _ => fds = base).
Proof.
  intros listen_fd. unfold construct_members. apply wpe_bind.
  eapply wpe_mono; [by apply EventLoop.construct_loop_wpe| |done].
  cbv beta. intros fds cl (_ & _ & -> & ->). unfold construct_server. simpl.
  pose proof (TcpServer.create_listen_fd_spec port (listen_rets a) _ Hls) as Hc.
  unfold wpe, TcpServer.construct, mbind, M_bind in *.
  destruct (TcpServer.create_listen_fd port (listen_rets a) _) as [fds fd|fds e|why|]; try done.
  - destruct Hc as (-> & _ & ->). split_and!; [set_solver|done|apply new_loop_ready|].
    rewrite others_elem. set_solver.
  - subst fds. pose proof (destroy_new_loop ({[eventfd_ret a]} ∪ ({[epoll_ret a]} ∪ base))) as Hd.
    apply wp_ret_inv in Hd as (o & [] & -> & ->); [|set_solver..]. simpl. set_solver.
Qed.
End construction.

(** ** Destruction: everything goes, once *)

Section destruction.
Context {K U Msg : Type} `{SocketOk K} `{Message RpcRequest} `{Message RpcResponse} `{Message Msg}.
Abbreviation rpc := (RpcServer.t (Conn := Z) (U := U) (Msg := Msg) (N := history)).
Abbreviation S := (TcpServer.t K rpc RpcResponse).
Abbreviation world := (world (K := K) (U := U) (Msg := Msg)).
Implicit Types (s : S) (w : world).

(** The descriptors of the connections that exist. *)
Definition conn_fds s : gset Z := map_img (TcpServer.fd_of <$> TcpServer.objects s).

Lemma elem_of_conn_fds fd s :
  fd ∈ conn_fds s <-> exists id o, TcpServer.objects s !! id = Some o /\ TcpServer.fd_of o = fd.
Proof.
  unfold conn_fds. rewrite elem_of_map_img. split.
  - intros (id & (o & <- & Ho)%lookup_fmap_Some). by exists id, o.
  - intros (id & o & Ho & <-). exists id. by rewrite lookup_fmap, Ho.
Qed.

(** Every connection is closed for good, on a descriptor of its own; what is
    open are these and [left]. *)
Record shut (left : gset Z) w : Prop := {
  sh_off : forall id o, TcpServer.objects (server w) !! id = Some o ->
    TcpConnection.unhooked (TcpServer.chan o) /\ TcpServer.fd_of o ∉ left;
  sh_own : forall id1 id2 o1 o2, TcpServer.objects (server w) !! id1 = Some o1 ->
    TcpServer.objects (server w) !! id2 = Some o2 -> TcpServer.fd_of o1 = TcpServer.fd_of o2 -> id1 = id2;
  sh_open : open w = left ∪ conn_fds (server w);
}.

Definition without (id : Z) s : S := TcpServer.set_objects (delete id (TcpServer.objects s)) s.

Lemma destroy_object_wp left id o w :
  shut left w -> TcpServer.objects (server w) !! id = Some o ->
  wp (destroy_object id) w (fun w' _ => shut left w' /\ server w' = without id (server w) /\
    wakeup w' = wakeup w).
Proof.
  intros [Hoff Hown Hopen] Ho. destruct (Hoff id o Ho) as [[_ Hev] Hleft].
  assert (TcpServer.fd_of o ∈ open w) as Hin.
  { rewrite Hopen. apply elem_of_union_r, elem_of_conn_fds. by exists id, o. }
  assert (TcpConnection.destroy (o.1, open w) = Ret (o.1, open w ∖ {[TcpServer.fd_of o]}) ()) as Hd.
  { unfold TcpConnection.destroy, mbind, M_bind, gets, zoom, EpollPoller.close, with_local, Channel.destroy. simpl.
    unfold mbind, M_bind, gets, assert_. simpl.
    change (Channel.fd_ (TcpConnection.channel_ o.1)) with (TcpServer.fd_of o).
    rewrite bool_decide_eq_true_2 by done. simpl. unfold Channel.is_none_event.
    change (TcpConnection.channel_ o.1) with (TcpServer.chan o). by rewrite Hev. }
  unfold wp, wpe, destroy_object. rewrite Ho, Hd. cbn [snd]. split; [|done].
  split; simpl.
  - intros id' o' [_ Ho']%lookup_delete_Some. by apply (Hoff id').
  - intros id1 id2 o1 o2 [_ H1']%lookup_delete_Some [_ H2']%lookup_delete_Some. by apply Hown.
  - rewrite Hopen. apply set_eq. intros fd.
    rewrite elem_of_difference, !elem_of_union, elem_of_singleton, !elem_of_conn_fds. simpl. split.
    + intros [[?|(id' & o' & Ho' & <-)] Hne]; [by left|right]. exists id', o'. split; [|done].
      apply lookup_delete_Some. split; [|done]. intros ->. congruence.
    + intros [Hl|(id' & o' & [Hne Ho']%lookup_delete_Some & <-)].
      * split; [by left|]. by intros ->.
      * split; [right; by exists id', o'|]. intros Heq. apply Hne. symmetry. by apply (Hown id' id o' o).
Qed.

(** The connections that nobody holds are destroyed, and only those. *)
Lemma release_wp left w :
  shut left w ->
  wp release w (fun w' _ => shut left w' /\ server w' = TcpServer.released holds [] (server w) /\
    wakeup w' = wakeup w).
Proof.
  intros Hw. unfold release. wp_pures. set (s0 := server w). set (ids := unheld s0).
  set (gone := fun (done : list Z) => TcpServer.set_objects
    (filter (fun io => io.1 ∉ done) (TcpServer.objects s0)) s0).
  assert (forall id, id ∈ ids <-> is_Some (TcpServer.objects s0 !! id) /\
    TcpServer.objects (TcpServer.released holds [] s0) !! id = None) as Hids.
  { intros id. unfold ids, unheld. by rewrite elem_of_elements, elem_of_difference, elem_of_dom, not_elem_of_dom. }
  eapply wp_mono.
  { apply (wp_for_each _ ids _ (fun done w' => shut left w' /\ server w' = gone done /\ wakeup w' = wakeup w)).
    - split_and!; [done| |done]. unfold gone. rewrite map_filter_id; [unfold s0; by destruct (server w)|].
      intros id o _. apply not_elem_of_nil.
    - intros done id todo w1 Heq (Hw1 & Hs1 & Hk1).
      assert (id ∉ done) as Hnew.
      { assert (NoDup ids) as Hnd by apply NoDup_elements. rewrite Heq in Hnd.
        apply NoDup_app in Hnd as (_ & Hnd & _). intros Hin. apply (Hnd id Hin). by left. }
      assert (exists o, TcpServer.objects s0 !! id = Some o) as [o Ho].
      { apply Hids. rewrite Heq. apply elem_of_app. right. by left. }
      eapply wp_mono; [apply (destroy_object_wp left id o); [done|]|].
      + rewrite Hs1. unfold gone. simpl. by apply map_lookup_filter_Some.
      + cbv beta. intros w2 _ (Hw2 & Hs2 & Hk2). split_and!; [done| |by rewrite Hk2].
        rewrite Hs2, Hs1. unfold without, gone, TcpServer.set_objects. simpl. f_equal.
        apply map_eq. intros id'. destruct (decide (id' = id)) as [->|Hne].
        * rewrite lookup_delete_eq. symmetry. apply map_lookup_filter_None. right. intros o' _. simpl. set_solver.
        * rewrite lookup_delete_ne by done. apply option_eq. intros o'.
          rewrite !map_lookup_filter_Some. simpl. set_solver. }
  cbv beta. intros w' _ (Hw' & Hs' & Hk'). split_and!; [done| |done]. rewrite Hs'.
  unfold gone, TcpServer.released, TcpServer.set_objects. f_equal.
  apply map_filter_ext. intros id o Ho. simpl. rewrite Hids.
  rewrite eq_None_not_Some. split.
  - intros Hn. destruct (decide (is_Some (TcpServer.objects (TcpServer.released holds [] s0) !! id))) as [[o' Ho']|Hno].
    + by apply TcpServer.released_lookup in Ho' as [_ ?].
    + destruct Hn. split; [by exists o|done].
  - intros Hh [_ Hno]. apply Hno. exists o. by apply TcpServer.released_lookup.
Qed.

(** Closing one of the others. *)
Lemma shut_close fd left w :
  shut left w -> fd ∈ left ->
  shut (left ∖ {[fd]}) (mk_world (server w) (wakeup w) (open w ∖ {[fd]})).
Proof.
  intros [Hoff Hown Hopen] Hfd. split; simpl.
  - intros id o Ho. destruct (Hoff id o Ho). split; [done|set_solver].
  - exact Hown.
  - rewrite Hopen. assert (fd ∉ conn_fds (server w)) as Hno.
    { intros (id & o & Ho & <-)%elem_of_conn_fds. by destruct (Hoff id o Ho). }
    set_solver.
Qed.

(** The rest of the server may change. *)
Lemma shut_server left w s wk f :
  shut left w -> TcpServer.objects s = TcpServer.objects (server w) -> f = open w ->
  shut left (mk_world s wk f).
Proof.
  intros [Hoff Hown Hopen] Hs ->. split; simpl; [by rewrite Hs..|].
  unfold conn_fds. by rewrite Hs.
Qed.

Lemma singleton_taken (x : Z) (X : gset Z) : x ∉ X -> ({[x]} ∪ X) ∖ {[x]} = X.
Proof. set_solver. Qed.

(** A channel that asks for nothing can be destroyed. *)
Lemma unhooked_channel_eq {A} (ch : Lens A Channel.t) (x : A) :
  TcpConnection.unhooked (lget ch x) -> Channel.destroy ch x = Ret x ().
Proof.
  intros [_ Hev]. unfold Channel.destroy, mbind, M_bind, gets, assert_, Channel.is_none_event. by rewrite Hev.
Qed.

(** *** [~TcpServer()] *)

Variables (base : gset Z) (wakeup_ch : EpollPoller.ptr) (a : answers).
Abbreviation rest := (others base wakeup_ch a).
Abbreviation wakeup_fd := (eventfd_ret a).
Abbreviation epfd := (epoll_ret a).
Hypothesis wakeup_own : wakeup_fd ∉ {[epfd]} ∪ base.
Hypothesis epfd_own : epfd ∉ base.
Abbreviation core := (TcpServer.core (K := K) (G := RpcResponse) holds rpc_ok rest []).
Definition listening s : Z := Channel.fd_ (TcpServer.accept_channel_ s).

(** What is open while the server runs. *)
Definition all_open s : gset Z := {[listening s]} ∪ TcpServer.other_fds rest ∪ conn_fds s.

Lemma all_open_descriptors s s' : TcpServer.descriptors s' = TcpServer.descriptors s -> all_open s' = all_open s.
Proof. unfold TcpServer.descriptors, all_open, listening, conn_fds. by intros [= -> ->]. Qed.

Lemma dying_shut s wk :
  TcpServer.dying rpc_ok rest [] s ->
  shut (TcpServer.other_fds rest) (mk_world s wk (TcpServer.other_fds rest ∪ conn_fds s)).
Proof.
  intros [[k Hk] _ _ _ Hdone]. split; simpl; [|apply (TcpServer.p_fds _ _ _ Hk)|done].
  intros id o Ho. split; [by destruct (Hdone id o Ho) as [[]%elem_of_nil|]|].
  by apply (TcpServer.p_conn_rest _ _ _ Hk id o Ho).
Qed.

Abbreviation net s := (RpcServer.net (TcpServer.app s)).

Lemma destroy_connections_keeps order :
  keeps (fun s : S => TcpServer.app s) (TcpServer.destroy_connections conn_cb order).
Proof.
  apply moves_for_each; [exact _|]. intros id.
  apply (moves_mono (unchanged TcpOwner.view)); [intros s s' Hv; exact (f_equal fst Hv)|].
  apply TcpOwner.on_conn_keeps, TcpConnection.connection_destroyed_moves; [exact _|apply TcpOwner.user_same|].
  by intros w w' x [= <- _].
Qed.

Lemma core_listening s : core s -> listening s ∉ TcpServer.other_fds rest ∪ conn_fds s.
Proof.
  intros Hs. destruct (TcpServer.c_poller _ _ _ _ _ Hs) as [k Hk].
  pose proof (TcpServer.p_accept_rest _ _ _ Hk : listening s ∉ TcpServer.other_fds rest) as Hr.
  assert (listening s ∉ conn_fds s) as Hc; [|by intros [?|?]%elem_of_union].
  intros (id & o & Ho & Heq)%elem_of_conn_fds. by apply (TcpServer.p_accept_fd _ _ _ Hk id o Ho).
Qed.

(** Only the callback of a connection can run out of memory. *)
Definition may_throw {A} (order : list Z) (x : A) (e : exn) : Prop := order <> [] /\ TcpConnection.oom x e.

Lemma release_connections_wpe order s :
  core s -> TcpConnection.unhooked (TcpServer.accept_channel_ s) ->
  order ≡ₚ elements (TcpServer.connections_ s) ->
  wpe (TcpServer.destroy_connections conn_cb order) s (fun s' _ =>
    (TcpServer.dying rpc_ok rest [] s' /\ TcpServer.descriptors s' = TcpServer.descriptors s) /\
    TcpServer.app s' = TcpServer.app s) (may_throw order).
Proof.
  intros Hs Hun Horder.
  assert (wpe (TcpServer.destroy_connections conn_cb order) s (fun s' _ =>
    (TcpServer.dying rpc_ok rest [] s' /\ TcpServer.descriptors s' = TcpServer.descriptors s) /\
    TcpServer.app s' = TcpServer.app s) TcpConnection.oom) as Hwpe.
  2: { destruct order; [exact Hwpe|]. by eapply wpe_mono; [exact Hwpe|auto|]. }
  apply (wpe_moves (unchanged (fun s : S => TcpServer.app s)));
    [apply destroy_connections_keeps|].
  apply (TcpServer.destroy_connections_wpe conn_cb None None (fun _ _ => mret ()) holds);
    auto using on_connection_good, no_callback_good.
Qed.

Lemma destroy_tcp_server_wpe order w :
  core (server w) -> open w = all_open (server w) ->
  order ≡ₚ elements (TcpServer.connections_ (server w)) ->
  wpe (destroy_tcp_server order) w (fun w' _ => shut (TcpServer.other_fds rest) w' /\
    TcpServer.loop_clear rest (TcpServer.loop_ (server w')) /\ TcpServer.connections_ (server w') = ∅ /\
    TcpServer.app (server w') = TcpServer.app (server w) /\ wakeup w' = wakeup w) (may_throw order).
Proof.
  intros Hs Hopen Horder. unfold destroy_tcp_server.
  apply wpe_bind, wpe_zoom, wp_wpe. eapply wp_mono; [by apply TcpServer.destroy_acceptor_wp|].
  cbv beta. intros s1 _ (Hs1 & (c & p & -> & Hfd) & Hun). wpe_pures. set (s1 := lset TcpServer.accept_reg (c, p) _) in *.
  assert (all_open s1 = all_open (server w)) as Hall1.
  { apply all_open_descriptors. unfold TcpServer.descriptors. simpl. by rewrite Hfd. }
  pose proof (core_listening s1 Hs1) as Hlist. simpl. rewrite Hopen, <- Hall1.
  apply wp_wpe, EpollPoller.close_wp; [unfold all_open; set_solver|].
  wpe_pures. simpl. eapply wpe_mono; [by apply release_connections_wpe| |done].
  cbv beta. intros s2 [] [[Hd2 Hds2] Ha2]. wpe_pures. simpl.
  set (s3 := TcpServer.set_connections ∅ s2).
  assert (TcpServer.dying rpc_ok rest [] s3) as Hd3 by by apply TcpServer.dying_set_connections.
  apply wp_wpe. eapply wp_mono.
  { apply (release_wp (TcpServer.other_fds rest)). eapply shut_server; [by apply (dying_shut s3 (wakeup w))|done|].
    simpl. unfold all_open. rewrite <- (assoc_L (∪)), (singleton_taken _ _ Hlist : (_ ∪ _) ∖ {[Channel.fd_ c]} = _). unfold TcpServer.descriptors in Hds2.
    injection Hds2 as _ Hconns. unfold conn_fds. simpl. by rewrite Hconns. }
  cbv beta. intros w4 _ (Hshut & Hs4 & Hk4). destruct w4 as [s4 wk4 f4]. simpl in Hs4, Hk4. subst s4 wk4.
  unfold wp, wpe, zoom. simpl. rewrite unhooked_channel_eq; [|by apply (TcpServer.d_accept _ _ _ _ Hd3)].
  split_and!; [done|exact (TcpServer.dying_clear _ _ _ Hd3)|done|exact Ha2|done].
Qed.

(** *** [~EventLoop()] *)

(** With the table and the queue empty nobody holds a connection. *)
Lemma released_all s :
  TcpServer.connections_ s = ∅ -> TcpServer.pending s = [] -> RpcServer.tasks (TcpServer.app s) = [] ->
  TcpServer.objects (TcpServer.released holds [] s) = ∅.
Proof.
  intros Ht Hp Htasks. apply map_empty. intros id. apply eq_None_not_Some. intros [o Ho].
  apply TcpServer.released_lookup in Ho as [_ [Hin|Hh]]; [rewrite Ht in Hin; set_solver|].
  unfold TcpServer.holder, TcpServer.pending, holds in *. by rewrite Hp, Htasks in Hh.
Qed.

(** The kernel's interest set when the wake-up channel has left it too. *)
Lemma clear_and_unregistered l k c p k' :
  TcpServer.loop_clear (G := RpcResponse) rest l ->
  EpollPoller.Interest.replay (EpollPoller.calls (EventLoop.poller_ l)) ∅ = Some k ->
  EpollPoller.registered wakeup_ch wakeup_fd k (EpollPoller.channels_ (EventLoop.poller_ l)) True (c, p) k' ->
  k' !! wakeup_fd = None -> k' = ∅.
Proof.
  intros (_ & k1 & Hk1 & Hout & Hin) Hk Hreg Hw. assert (k1 = k) as -> by congruence.
  apply map_empty. intros fd. destruct (decide (fd = wakeup_fd)) as [->|Hne]; [done|].
  destruct (EpollPoller.reg_frame _ _ _ _ _ _ _ Hreg fd Hne) as [-> _].
  destruct (decide (fd ∈ TcpServer.other_fds rest)) as [Hr|Hr]; [|by apply Hout].
  destruct (Hin fd Hr) as [-> _]. simpl. by apply lookup_singleton_ne.
Qed.

Lemma destroy_event_loop_wp w :
  shut (TcpServer.other_fds rest) w -> TcpServer.loop_clear rest (TcpServer.loop_ (server w)) ->
  TcpServer.connections_ (server w) = ∅ -> RpcServer.tasks (TcpServer.app (server w)) = [] ->
  wakeup w = EventLoop.registered_wakeup wakeup_fd ->
  wp (destroy_event_loop wakeup_ch epfd) w (fun w' _ => TcpServer.objects (server w') = ∅ /\ open w' = base /\
    EpollPoller.Interest.replay (EpollPoller.calls (TcpServer.poller (server w'))) ∅ = Some ∅ /\
    TcpServer.app (server w') = TcpServer.app (server w)).
Proof.
  intros Hshut Hclear Ht Htasks Hwk. unfold destroy_event_loop. apply wp_bind, wp_zoom.
  pose proof Hclear as (Hm & k & Hk & _ & Hin).
  assert (wakeup_fd ∈ TcpServer.other_fds rest) as Hwr by (simpl; set_solver).
  destruct (Hin wakeup_fd Hwr) as [Hkw Hcw]. simpl in Hkw, Hcw.
  rewrite lookup_singleton_eq in Hkw. rewrite lookup_singleton_eq in Hcw.
  pose proof (wakeup_registered wakeup_ch a _ k Hk Hm Hkw Hcw) as Hreg.
  eapply wp_mono.
  { eapply (EventLoop.destroy_wp wakeup_ch wakeup_fd); simpl; [rewrite Hwk; exact Hreg|].
    rewrite (sh_open _ _ Hshut). apply elem_of_union_l, Hwr. }
  cbv beta. intros o _ (c & p & k' & -> & Hreg' & Hgone & Hnone). simpl.
  pose proof (clear_and_unregistered _ k c p k' Hclear Hk Hreg' Hgone) as ->.
  wp_pures. simpl. eapply wp_mono.
  { eapply release_wp, shut_server; [exact (shut_close _ _ _ Hshut Hwr)|done|done]. }
  cbv beta. intros w3 _ (Hshut3 & Hs3 & Hk3). simpl in Hs3, Hk3. apply wp_zoom.
  assert (TcpServer.objects (server w3) = ∅) as Hobj by (rewrite Hs3; by apply released_all).
  assert (open w3 = TcpServer.other_fds rest ∖ {[wakeup_fd]}) as Hopen3.
  { rewrite (sh_open _ _ Hshut3). unfold conn_fds. rewrite Hobj, fmap_empty, map_img_empty_L. by rewrite union_empty_r_L. }
  eapply wp_mono; [apply EventLoop.destroy_members_wp; simpl; [by rewrite Hk3|rewrite Hopen3; simpl; set_solver]|].
  cbv beta. intros o _ ->. simpl. split_and!; [done| | |by rewrite Hs3].
  - rewrite Hopen3. simpl. set_solver.
  - rewrite Hs3. exact (EpollPoller.reg_replay _ _ _ _ _ _ _ Hreg').
Qed.

(** *** The whole constructor *)

(** A server, or nothing. *)
Lemma construct_wpe (port : string) (u : U) (io_threads : Z) (spawn : nat -> bool)
    (Hls : TcpServer.socket_ret (listen_rets a) ∉ {[wakeup_fd]} ∪ ({[epfd]} ∪ base))
    (Hspawn : forall i, (0 < i < Z.to_nat (u64 io_threads))%nat -> spawn i = true) :
  let listen_fd := TcpServer.socket_ret (listen_rets a) in
  wpe (construct (K := K) (Msg := Msg) wakeup_ch port a u io_threads spawn) base (fun fds r =>
    fds = {[listen_fd; wakeup_fd; epfd]} ∪ base /\
    r = (make listen_fd (EventLoop.new_loop wakeup_fd wakeup_ch) u, EventLoop.registered_wakeup wakeup_fd) /\
    TcpServer.loop_ready rest (TcpServer.loop_ r.1) /\ (listen_fd ∉ rest))
    (fun fds _ => fds = base).
Proof.
  intros listen_fd. apply wpe_bind.
  eapply wpe_mono; [by apply (construct_members_wpe base wakeup_ch a port u)| |done].
  cbv beta. intros fds sc (-> & -> & Hready & Hfd). unfold construct_pool. cbn [fst snd] in *.
  set (opened := {[_; _; _]} ∪ base). set (s0 := make _ _ u) in *.
  pose proof (ThreadPool.construct_spec (Task := RpcServer.task (Conn := Z) (U := U) (Msg := Msg)) spawn
    (Z.to_nat (u64 io_threads)) [] opened) as Hpool.
  unfold wpe at 1. destruct (ThreadPool.construct _ _ _ _) as [f p|f e|why|]; [|..|done].
  - by destruct Hpool as [-> _].
  - destruct Hpool as [-> _].
    assert (core s0) as Hcore by by apply (s0_inv rest listen_fd _ u Hready Hfd).
    assert (wp (destroy_tcp_server [] ;; destroy_event_loop wakeup_ch epfd)
      (mk_world s0 (EventLoop.registered_wakeup wakeup_fd) opened) (fun w _ => open w = base)) as Hd.
    { apply wpe_bind. eapply wpe_mono; [apply destroy_tcp_server_wpe; simpl; [done| |done]| |by intros w e' []].
      - unfold opened, all_open, conn_fds. simpl. rewrite fmap_empty, map_img_empty_L. set_solver.
      - cbv beta. intros w [] (Hshut & Hclear & Ht & Ha & Hk).
        eapply wp_mono; [apply destroy_event_loop_wp; try done; by rewrite Ha|].
        cbv beta. by intros w' [] (_ & ? & _). }
    apply wp_ret_inv in Hd as (w & [] & Hd & Hw). by rewrite Hd.
  - destruct Hpool as (i & Hi & Hs). by rewrite Hspawn in Hs.
Qed.

(** C35. Constructing a server leaves a server or nothing.  Whichever of
    [epoll_create1], [eventfd], [socket], [bind] and [listen] fails, or the
    first thread of the pool, the constructor throws with no descriptor left open and none closed that
    it had not opened; otherwise it returns the server, ready to start, with
    exactly its three descriptors open besides.  ([spawn] says which threads the
    system can start; when it is a later one that fails, the program ends.) *)
Theorem construct_server_or_nothing (port : string) (u : U) (io_threads : Z) (spawn : nat -> bool)
    (Hls : TcpServer.socket_ret (listen_rets a) ∉ {[wakeup_fd]} ∪ ({[epfd]} ∪ base))
    (Hspawn : forall i, (0 < i < Z.to_nat (u64 io_threads))%nat -> spawn i = true) :
  let listen_fd := TcpServer.socket_ret (listen_rets a) in
  wpe (construct (K := K) (Msg := Msg) wakeup_ch port a u io_threads spawn) base (fun fds r =>
    fds = {[listen_fd; wakeup_fd; epfd]} ∪ base /\
    r = (make listen_fd (EventLoop.new_loop wakeup_fd wakeup_ch) u, EventLoop.registered_wakeup wakeup_fd) /\
    TcpServer.loop_ready rest (TcpServer.loop_ r.1) /\ (listen_fd ∉ rest))
    (fun fds _ => fds = base).
Proof. exact (construct_wpe port u io_threads spawn Hls Hspawn). Qed.

(** *** [~RpcServer()] *)

Variable host : Wire.endian.
(** A message serializes to at most 2 GB, as protocol buffers do. *)
Hypothesis serialized_size : forall resp : RpcResponse, zlen (SerializeToString resp).2 <= int_max.
Variables (listen_fd : Z) (u : U).
Hypothesis listen_own : listen_fd ∉ rest.
Abbreviation s0 := (make (K := K) (Msg := Msg) listen_fd (EventLoop.new_loop wakeup_fd wakeup_ch) u).

(** C9. A server takes and gives back.  Let [RpcServer] be constructed over the
    descriptors [base] of the rest of the process, and run to any state, whatever
    its peers, its workers, its owner and the kernel do.  Then its destructor,
    with those of all its members and of the connections, in whatever order the
    table is walked, closes every descriptor of the server exactly once and no
    other, destroys no channel that is registered or asks for events, and leaves
    the kernel's interest set empty.  Its workers run the tasks that wait, but none
    of their responses is sent. *)
Theorem server_life c order (Hr : reachable host rest s0 c)
    (Horder : order ≡ₚ elements (TcpServer.connections_ c.1)) :
  wpe (destroy wakeup_ch epfd order)
    (mk_world c.1 (EventLoop.registered_wakeup wakeup_fd) (all_open c.1)) (fun w' _ =>
      open w' = base /\ TcpServer.objects (server w') = ∅ /\
      EpollPoller.Interest.replay (EpollPoller.calls (TcpServer.poller (server w'))) ∅ = Some ∅ /\
      RpcServer.tasks (TcpServer.app (server w')) = [] /\ net (server w') = net c.1) TcpConnection.oom.
Proof.
  apply (reachable_config host serialized_size rest listen_fd _ u (new_loop_ready base wakeup_ch a) listen_own)
    in Hr as ([Hcore _] & _).
  unfold destroy, EventLoop.quit. cbn [negb when]. wpe_pures.
  set (s1 := lset TcpServer.loop_lens (EventLoop.set_quit true (TcpServer.loop_ c.1)) c.1).
  assert (core s1) as Hs1.
  { apply (TcpServer.app_step_core _ _ _ c.1); [done|]. split; try done; [apply Hcore|].
    exists []. unfold TcpServer.pending. simpl. by rewrite app_nil_r. }
  eapply wpe_mono; [eapply (drain_wpe _ s1 (fun _ _ => False)), Hs1| |done]. cbv beta. intros s2 [] (Hs2 & [Ht2 Hn2 Htab2 Hobj2 Hacc2]).
  apply wpe_bind. eapply wpe_mono; [apply destroy_tcp_server_wpe; simpl; [done| |by rewrite Htab2]| |by intros w e []].
  { symmetry. apply all_open_descriptors. unfold TcpServer.descriptors. by rewrite Hobj2, Hacc2. }
  cbv beta. intros w3 [] (Hshut & Hclear & Ht3 & Ha3 & Hk3). simpl in Ha3, Hk3.
  apply wp_wpe. eapply wp_mono; [apply destroy_event_loop_wp; try done; by rewrite Ha3|].
  cbv beta. intros w4 [] (Hobj4 & Hopen4 & Hk4 & Ha4). split_and!; [done..| |].
  - by rewrite Ha4, Ha3.
  - by rewrite Ha4, Ha3, Hn2.
Qed.

End destruction.

(** ** The echo server of RpcServe.v, from its constructor to its destructor *)

Module Demo.
Import RpcServer.Echo RpcSystem.Demo RpcServe.Demo.

(** The process has its standard descriptors open. *)
Definition base : gset Z := {[0; 1; 2]}.
Definition wakeup_ch : EpollPoller.ptr := 100%nat.
Definition system : answers := mk_answers 5 4 (TcpServer.mk_listen_answers 3 0 0).
Abbreviation rest := (others base wakeup_ch system).

Definition constructed := construct (K := duplex) (Msg := bytes) wakeup_ch "9090" system 0%nat 4 (fun _ => true).

Lemma own (P : Prop) `{!Decision P} : bool_decide P = true -> P.
Proof. by intros H%bool_decide_eq_true_1. Qed.

Lemma construct_server_or_nothing_witness :
  wpe constructed base (fun fds r => fds = {[3; 4; 5]} ∪ base /\
    r = (server0, EventLoop.registered_wakeup 4) /\
    TcpServer.loop_ready rest (TcpServer.loop_ r.1) /\ (3 ∉ rest)) (fun fds _ => fds = base).
Proof.
  refine (construct_server_or_nothing base wakeup_ch system (K := duplex) (Msg := bytes) _ _ "9090" 0%nat 4 (fun _ => true) _ _);
    [apply (own _); vm_compute; reflexivity..|done].
Defined.

(** [listen()] fails: nothing stays open. *)
Example listen_fails :
  match construct (K := duplex) (Msg := bytes) wakeup_ch "9090"
    (mk_answers 5 4 (TcpServer.mk_listen_answers 3 0 (-1))) 0%nat 4 (fun _ => true) base with
  | Throw fds e => fds = base /\ e = runtime_error "listen() failed"
  | _ => False
  end.
Proof. by vm_compute. Qed.

(** No thread can be started: the server is taken down again.  The third one
    cannot: the program ends. *)
Example threads_fail :
  match construct (K := duplex) (Msg := bytes) wakeup_ch "9090" system 0%nat 4 (fun _ => false) base with
  | Throw fds e => fds = base /\ e = runtime_error "system_error"
  | _ => False
  end /\
  construct (K := duplex) (Msg := bytes) wakeup_ch "9090" system 0%nat 4 (fun i => i <? 2)%nat base =
    Ub "std::terminate: destruction of a joinable thread".
Proof. vm_compute. by split_and!. Qed.

Lemma outside_rest fd : bool_decide (fd ∈ TcpServer.other_fds rest) = false -> fd ∉ rest.
Proof. by intros H%bool_decide_eq_false_1. Qed.

(** A connection is open and its request waits for a worker when the server is
    destroyed: the descriptors 3 to 5 and 9 are closed, the task has run, and
    its response is lost. *)
Definition at_work := result (accepting ++ reading).
Lemma server_life_witness :
  wpe (destroy wakeup_ch 5 [1]) (mk_world at_work.1 (EventLoop.registered_wakeup 4) (all_open base wakeup_ch system at_work.1))
    (fun w' _ => open w' = base /\ TcpServer.objects (RpcResources.server w') = ∅ /\
      EpollPoller.Interest.replay (EpollPoller.calls (TcpServer.poller (RpcResources.server w'))) ∅ = Some ∅ /\
      RpcServer.tasks (TcpServer.app (RpcResources.server w')) = [] /\
      responses (RpcServer.net (TcpServer.app (RpcResources.server w'))) = []) TcpConnection.oom.
Proof.
  eapply wpe_mono.
  - apply (server_life (Msg := bytes) base wakeup_ch system)
      with (host := Wire.LittleEndian) (listen_fd := 3) (u := 0%nat).
    + apply (own _). vm_compute. reflexivity.
    + apply (own _). vm_compute. reflexivity.
    + exact serialized_size.
    + apply (outside_rest 3). vm_compute. reflexivity.
    + apply reading_reachable; apply outside_rest; vm_compute; reflexivity.
    + vm_compute. reflexivity.
  - cbv beta. intros w [] (? & ? & ? & ? & ->). split_and!; try done.
  - done.
Defined.

Example all_open_at_work : all_open base wakeup_ch system at_work.1 = {[0; 1; 2; 3; 4; 5; 9]}.
Proof. by vm_compute. Qed.

End Demo.

End RpcResources.
