(* ===== verification/RpcLocal.v ===== *)
(** * A remote call is a local call (src/rpc/rpc_channel.cpp with
    src/rpc/rpc_server.cpp)

    The client's calls in flight against a server whose responses are answers
    in the sense of RpcServer.v: what a finished [CallMethod] leaves in the
    caller's controller and response is what the service's method would have
    left, called directly with the parsed arguments. *)

From Stdlib Require Import ZArith Lia.
From S2P Require Import Prelude Rpc RpcServer RpcChannel RpcCalls.
Import Proto.
Local Open Scope Z_scope.

Module RpcLocal.
Import Calls.

Section calls.
Context {U Msg A : Type} `{Message Msg} `{Message A}.
Variable services : gmap string (RpcServer.Service U Msg).

(** What the caller of call [i] calls: the service, the method, the argument. *)
Variable what : nat -> string * string * A.
Definition request_of (i : nat) (id : Z) : RpcRequest :=
  let '(service, method, arg) := what i in RpcChannel.make_request service method id arg.

(** [resp] answers the request that call [i] has sent. *)
Definition answers_call_of (s : state) (resp : RpcResponse) (i : nat) (c : call) : Prop :=
  calls s !! i = Some c /\ the_id c = Some (response_id resp) /\
  RpcServer.answers services (request_of i (response_id resp)) resp.

(** The server sends answers to requests that it got. *)
Definition answering (a : action) (s : state) : Prop :=
  match a with
  | Reader (AFrame (Some resp)) =>
      response_id resp ∈ sent s /\ exists i c, answers_call_of s resp i c
  | _ => True
  end.

Definition answering_step (s s' : state) : Prop := exists a, answering a s /\ perform a s = Some s'.
Definition answering_runs (syncs : list bool) (s : state) : Prop :=
  rtc answering_step (init syncs) s.

(** The reasons for a failure that the client gives itself. *)
Definition local_reasons : list string := ["not connected"; "write failed"; "connection closed"]%string.

(** What the method of call [i] can leave: the response of a call that did not
    fail, *)
Definition method_returns (i : nat) (data : bytes) : Prop :=
  let '(service_name, method_name, arg) := what i in
  exists service method request u u' controller response,
    services !! service_name = Some service /\
    RpcServer.FindMethodByName service method_name = Some method /\
    RpcServer.ParseArgs service method (SerializeToString arg).2 = Some request /\
    RpcServer.CallMethod service method request u = Ret u' (Some (controller, response)) /\
    RpcController.Failed controller = false /\ data = (SerializeToString response).2.

(** or an error: of the dispatch, or the method's own. *)
Definition method_fails (i : nat) (text : string) : Prop :=
  let '(service_name, method_name, arg) := what i in
  (services !! service_name = None /\ text = "service not found: " +:+ service_name) \/
  exists service, services !! service_name = Some service /\
    ((RpcServer.FindMethodByName service method_name = None /\
        text = "method not found: " +:+ method_name) \/
     exists method, RpcServer.FindMethodByName service method_name = Some method /\
       ((RpcServer.ParseArgs service method (SerializeToString arg).2 = None /\
           text = "failed to parse request args") \/
        exists request u u' controller response,
          RpcServer.ParseArgs service method (SerializeToString arg).2 = Some request /\
          RpcServer.CallMethod service method request u = Ret u' (Some (controller, response)) /\
          RpcController.Failed controller = true /\ text = RpcController.ErrorText controller)).

(** ** What an answer says *)

Lemma answer_success i id resp :
  RpcServer.answers services (request_of i id) resp -> success resp = true ->
  method_returns i (result_data resp).
Proof.
  unfold request_of, method_returns. destruct (what i) as [[sn mn] arg].
  intros Ha. destruct Ha as [Hs|svc Hs Hm|svc m Hs Hm Hp|svc m args u u' ctl r Hs Hm Hp Hc]; try done.
  unfold RpcServer.make_response. destruct (RpcController.Failed ctl) eqn:Hf; [done|]. intros _.
  by exists svc, m, args, u, u', ctl, r.
Qed.

Lemma answer_failure i id resp :
  RpcServer.answers services (request_of i id) resp -> success resp = false ->
  method_fails i (error_msg resp).
Proof.
  unfold request_of, method_fails. destruct (what i) as [[sn mn] arg].
  intros Ha. destruct Ha as [Hs|svc Hs Hm|svc m Hs Hm Hp|svc m args u u' ctl r Hs Hm Hp Hc]; intros Hf.
  - by left.
  - right. exists svc. split; [done|]. by left.
  - right. exists svc. split; [done|]. right. exists m. split; [done|]. by left.
  - right. exists svc. split; [done|]. right. exists m. split; [done|]. right.
    exists args, u, u', ctl, r. split_and!; [done..| |];
      unfold RpcServer.make_response in *; by destruct (RpcController.Failed ctl).
Qed.

(** ** Where failures come from *)

(** A failed call has a local reason, or the message of a response to it. *)
Definition explained (rs : list RpcResponse) (c : call) : Prop :=
  RpcController.Failed (controller c) = true ->
  RpcController.ErrorText (controller c) ∈ local_reasons \/
  exists r, r ∈ rs /\ the_id c = Some (response_id r) /\ success r = false /\
    error_msg r = RpcController.ErrorText (controller c).

(** How one step may change a call. *)
Definition call_moves (s : state) (i : nat) (c c' : call) : Prop :=
  (the_id c = None \/ the_id c' = the_id c) /\
  (controller c' = controller c \/
   (exists reason, reason ∈ local_reasons /\ controller c' = RpcController.SetFailed reason (controller c)) \/
   exists resp, reader s = RFound i resp /\ success resp = false /\ the_id c' = the_id c /\
     controller c' = RpcController.SetFailed (error_msg resp) (controller c)).

Lemma call_moves_refl s i c : call_moves s i c c.
Proof. split; [by right|by left]. Qed.

Lemma set_call_moves s j d d' :
  calls s !! j = Some d -> call_moves s j d d' ->
  forall i c', <[j := d']> (calls s) !! i = Some c' -> exists c, calls s !! i = Some c /\ call_moves s i c c'.
Proof.
  intros Hd Hm i c' [(<- & <- & _)|[_ Hc]]%list_lookup_insert_Some; [by exists d|].
  exists c'. split; [done|apply call_moves_refl].
Qed.

Lemma failed_moves s i c c' reason :
  reason ∈ local_reasons -> the_id c' = the_id c ->
  controller c' = RpcController.SetFailed reason (controller c) -> call_moves s i c c'.
Proof. intros. split; [by right|]. right. left. by exists reason. Qed.

Lemma perform_call_moves a s s' :
  inv s -> perform a s = Some s' ->
  forall i c', calls s' !! i = Some c' -> exists c, calls s !! i = Some c /\ call_moves s i c c'.
Proof.
  intros Hinv.
  assert (forall i c', calls s !! i = Some c' -> exists c, calls s !! i = Some c /\ call_moves s i c c')
    as Hsame by (intros i c' Hc; exists c'; split; [done|apply call_moves_refl]).
  destruct a as [j ok|inp|]; simpl; [|..|by intros [= <-]].
  - unfold caller_step. destruct (calls s !! j) as [d|] eqn:Hd; [|done].
    intros Hrun. destruct (pc d) eqn:Hpc; repeat case_match; simplify_eq; simpl;
      apply (set_call_moves s j d); try done;
      first [by split; [right|left] | by eapply failed_moves; [|done..]; set_solver | idtac].
    pose proof (inv_phases s Hinv j d Hd) as (_ & _ & _ & _ & Hph). split; [|by left]. left.
    rewrite Hpc in Hph. by destruct (the_id d); [naive_solver|].
  - unfold reader_step, take_call. intros Hrun. destruct (reader s) eqn:Hrd; repeat case_match; simplify_eq; simpl;
      try done.
    + eapply set_call_moves; [done|]. by split; [right|left].
    + eapply set_call_moves; [done|]. split; [by right|]. right. right. by exists resp.
    + eapply set_call_moves; [done|]. by split; [right|left].
    + eapply set_call_moves; [done|]. by split; [right|left].
    + intros i c' Hc. rewrite list_lookup_imap in Hc.
      destruct (calls s !! i) as [c|] eqn:Hci; [|done]. exists c. split; [done|].
      simpl in Hc. case_bool_decide; simplify_eq; [|apply call_moves_refl].
      by eapply failed_moves; [|done..]; set_solver.
Qed.

Lemma received_grows a s s' :
  perform a s = Some s' ->
  received s' = received s \/ exists resp, a = Reader (AFrame (Some resp)) /\ received s' = received s ++ [resp].
Proof.
  destruct a as [j ok|inp|]; simpl; [|..|by intros [= <-]; left].
  - unfold caller_step. intros. repeat case_match; simplify_eq; by left.
  - unfold reader_step, take_call. intros Hrun.
    repeat case_match; simplify_eq; simpl; first [by left | right; by eexists].
Qed.

(** ** Runs *)

Record traced (s : state) : Prop := {
  tr_explained : forall i c, calls s !! i = Some c -> explained (received s) c;
  tr_received : forall r, r ∈ received s -> exists i c, answers_call_of s r i c;
}.

Lemma answers_call_moves a s s' r i c :
  inv s -> perform a s = Some s' -> answers_call_of s r i c -> exists c', answers_call_of s' r i c'.
Proof.
  intros Hinv Hs (Hc & Hid & Ha). pose proof (perform_length a s s' Hs) as Hlen. unfold zlen in Hlen.
  assert (is_Some (calls s' !! i)) as [c' Hc'].
  { apply lookup_lt_is_Some. apply lookup_lt_Some in Hc. lia. }
  exists c'. split; [done|]. split; [|done].
  destruct (perform_call_moves a s s' Hinv Hs i c' Hc') as (c0 & Hc0 & [Hnone|Hsame] & _); congruence.
Qed.

Lemma explained_moves s s' i c c' :
  inv s -> call_moves s i c c' -> calls s !! i = Some c -> calls s' !! i = Some c' ->
  received s ⊆ received s' -> explained (received s) c -> explained (received s') c'.
Proof.
  intros Hinv [Hid Hctl] Hc Hc' Hsub He. unfold explained.
  destruct Hctl as [-> |[(reason & Hr & ->)|(resp & Hrd & Hf & Hsame & ->)]]; [|by left|].
  - intros Hf. destruct (He Hf) as [|(r & Hr & Hrid & ?)]; [by left|right]. exists r.
    destruct Hid as [Hnone|Hsame]; [congruence|]. split_and!; [by apply Hsub|congruence|naive_solver..].
  - intros _. right. destruct (inv_target s Hinv i) as (c0 & Hc0 & _ & Ht); [by rewrite Hrd|].
    rewrite Hrd in Ht. destruct Ht as [Ht Hin]. simplify_eq.
    exists resp. split_and!; [by apply Hsub|congruence|done..].
Qed.

Lemma traced_step a s s' :
  inv s -> traced s -> answering a s -> perform a s = Some s' -> traced s'.
Proof.
  intros Hinv [He Hr] Hans Hs.
  pose proof (received_grows a s s' Hs) as Hgrow. split.
  - intros i c' Hc'. destruct (perform_call_moves a s s' Hinv Hs i c' Hc') as (c & Hc & Hm).
    eapply (explained_moves s); [done..| |by apply (He i)].
    destruct Hgrow as [-> |(resp & _ & ->)]; set_solver.
  - intros r Hin. assert (exists i c, answers_call_of s r i c) as (i & c & Hic).
    { destruct Hgrow as [Heq|(resp & -> & Heq)]; rewrite Heq in Hin; [by apply Hr|].
      apply elem_of_app in Hin as [Hin|Hin%list_elem_of_singleton]; [by apply Hr|]. subst r.
      by destruct Hans. }
    exists i. by eapply answers_call_moves.
Qed.

Lemma answering_honest a s : answering a s -> honest a s.
Proof. destruct a as [| [| |[resp|]| | |] |]; simpl; naive_solver. Qed.

Lemma answering_runs_traced syncs s :
  zlen syncs < 2 ^ 32 - 1 -> answering_runs syncs s -> inv s /\ traced s.
Proof.
  intros Hlen Hruns.
  assert (reachable syncs s /\ traced s) as [Hr Ht].
  { revert s Hruns. refine (rtc_ind_r _ _ _ _).
    - split; [by apply rtc_refl|]. split; [|by intros r ?%elem_of_nil]. intros i c Hc.
      simpl in Hc. apply list_lookup_fmap_Some in Hc as (b & -> & _). done.
    - intros s s' _ (a & Ha & Hs) [Hr Ht]. split.
      + eapply rtc_r; [exact Hr|]. exists a. split; [by apply answering_honest|done].
      + eapply traced_step; [|done..]. by apply (calls_reachable_inv syncs). }
  split; [by apply (calls_reachable_inv syncs)|done].
Qed.

(** The calls are those that the threads make. *)
Lemma answering_runs_syncs syncs s : answering_runs syncs s -> is_sync <$> calls s = syncs.
Proof.
  revert s. refine (rtc_ind_r _ _ _ _).
  - simpl. rewrite <- list_fmap_compose. apply list_fmap_id.
  - intros s s' _ (a & _ & Hs) <-. by apply (perform_syncs a).
Qed.

(** A synchronous call that has returned: what its controller says, and where
    it comes from. *)
Lemma returned_call syncs s i c :
  zlen syncs < 2 ^ 32 - 1 -> answering_runs syncs s -> calls s !! i = Some c ->
  is_sync c = true -> pc c = CReturned ->
  if RpcController.Failed (controller c)
  then RpcController.ErrorText (controller c) ∈ local_reasons \/
       exists r, RpcServer.answers services (request_of i (response_id r)) r /\
         success r = false /\ error_msg r = RpcController.ErrorText (controller c)
  else exists r, RpcServer.answers services (request_of i (response_id r)) r /\
         success r = true /\ response c = Some (result_data r).
Proof.
  intros Hlen Hruns Hc Hsync Hret.
  destruct (answering_runs_traced syncs s Hlen Hruns) as [Hinv [He Hr]].
  assert (forall r, r ∈ received s -> the_id c = Some (response_id r) ->
    RpcServer.answers services (request_of i (response_id r)) r) as Hmine.
  { intros r Hin Hid. destruct (Hr r Hin) as (j & d & Hd & Hdid & Ha).
    destruct (inv_ids s Hinv) as (_ & _ & Hu). by rewrite (Hu i j c d _ Hc Hd Hid Hdid). }
  destruct (RpcController.Failed (controller c)) eqn:Hf.
  - destruct (He i c Hc Hf) as [|(r & Hin & Hid & ? & ?)]; [by left|right]. exists r. auto.
  - destruct (inv_phases s Hinv i c Hc) as (_ & Hout & _).
    destruct (Hout Hret Hsync) as [|[data Hdata]]; [congruence|].
    destruct (inv_responses s Hinv i c Hc data Hdata) as (r & Hin & Hid & ? & <-). exists r. auto.
Qed.

(** A remote call is a local call.  Whatever the callers, the reader, the
    disconnecting thread and a server that sends answers do, in any
    interleaving: when a synchronous [CallMethod] has returned, either its
    controller has not failed, and then the bytes parsed into its response are
    the serialization of what the named method of the named service returned
    for exactly this call's arguments; or the controller has failed, with one
    of the client's own reasons, with the dispatch error that this service and
    method name deserve, or with the text the method itself set. *)
Theorem returned_is_local syncs s i c (Hlen : zlen syncs < 2 ^ 32 - 1)
    (Hruns : answering_runs syncs s) (Hc : calls s !! i = Some c)
    (Hsync : is_sync c = true) (Hret : pc c = CReturned) :
  if RpcController.Failed (controller c)
  then RpcController.ErrorText (controller c) ∈ local_reasons \/
       method_fails i (RpcController.ErrorText (controller c))
  else exists data, response c = Some data /\ method_returns i data.
Proof.
  pose proof (returned_call syncs s i c Hlen Hruns Hc Hsync Hret) as Hcall.
  destruct (RpcController.Failed (controller c)).
  - destruct Hcall as [|(r & Ha & Hs & <-)]; [by left|right]. by eapply answer_failure.
  - destruct Hcall as (r & Ha & Hs & Hdata). exists (result_data r). split; [done|]. by eapply answer_success.
Qed.

(** Runs without frames. *)
Lemma quiet_run l s s' :
  existsb brings_frame l = false -> run l s = Some s' -> rtc answering_step s s'.
Proof.
  revert s. induction l as [|a l IH]; intros s Hl Hrun; simpl in *; [by simplify_eq|].
  apply orb_false_iff in Hl as [Ha Hl]. destruct (perform a s) as [s1|] eqn:Hs; [|done].
  eapply rtc_l; [|by apply (IH s1)]. exists a. split; [|done]. by destruct a as [| [| |[]| | |] |].
Qed.

(** A run with one frame, an answer. *)
Lemma one_answer l1 l2 resp s0 s1 s2 s :
  existsb brings_frame l1 = false -> run l1 s0 = Some s1 ->
  answering (Reader (AFrame (Some resp))) s1 -> reader_step (AFrame (Some resp)) s1 = Some s2 ->
  existsb brings_frame l2 = false -> run l2 s2 = Some s -> rtc answering_step s0 s.
Proof.
  intros H1 Hr1 Ha Hs H2 Hr2.
  etrans; [exact (quiet_run l1 _ s1 H1 Hr1)|].
  eapply rtc_l; [|exact (quiet_run l2 _ s H2 Hr2)]. by exists (Reader (AFrame (Some resp))).
Qed.

End calls.

(** The actions of a synchronous call that is answered. *)
Definition before_answer : list action := whole_call 0 ++ [Reader Go; Reader Data].
Definition after_answer : list action := [Reader Go; Reader Go; Reader Go; Caller 0 true].
Definition called : state := default (init []) (run before_answer (init [true])).
Definition answered (resp : RpcResponse) : state :=
  default (init []) (s ← reader_step (AFrame (Some resp)) called; run after_answer s).

(** ** A call of the echo service *)

Module Demo.
Import RpcServer.Echo.

Definition echo_call (_ : nat) : string * string * bytes := ("Echo", "Say", [Byte.x68; Byte.x69])%string.
Definition echoed : RpcResponse := mk_response 1 true [Byte.x68; Byte.x69] "".

Lemma echo_answers : answering_runs {["Echo" := echo]} echo_call [true] (answered echoed).
Proof.
  eapply (one_answer _ _ before_answer after_answer echoed _ called);
    [reflexivity|vm_compute; reflexivity| |vm_compute; reflexivity|reflexivity|vm_compute; reflexivity].
  split; [by left|]. exists 0%nat. eexists. split; [vm_compute; reflexivity|]. split; [reflexivity|].
  by refine (RpcServer.answers_call _ _ echo 0%nat [Byte.x68; Byte.x69] 0%nat 1%nat RpcController.make
    [Byte.x68; Byte.x69] _ _ _ _).
Qed.

Definition the_call : call :=
  mk_call true CReturned RpcController.make (Some [Byte.x68; Byte.x69]) true 0 (Some 1).

Lemma returned_is_local_witness : calls (answered echoed) !! 0%nat = Some the_call /\
  exists data, response the_call = Some data /\ method_returns {["Echo" := echo]} echo_call 0 data.
Proof.
  assert (calls (answered echoed) !! 0%nat = Some the_call) as Hc by (vm_compute; reflexivity).
  split; [exact Hc|].
  exact (returned_is_local {["Echo" := echo]} echo_call [true] (answered echoed) 0%nat the_call
    eq_refl echo_answers Hc eq_refl eq_refl).
Defined.

End Demo.

End RpcLocal.
