(* ===== verification/RpcEndToEnd.v ===== *)
(** * Clients and a server (src/rpc/rpc_channel.cpp with src/rpc/rpc_server.cpp)

    The whole system at the level of frames: any number of clients, each a
    channel with its threads (RpcCalls.v), and the server with its workers
    (RpcServer.v), over connections that keep the order of what they carry and
    may be cut.  (That the frames travel whole through sockets, buffers and
    codec is in RpcSystem.v.)  No behaviour of the server is assumed here: what a
    call returns is what its method returned, and when everything has come to
    rest every call on a connection that was not cut is over. *)

From Stdlib Require Import ZArith Lia.
From S2P Require Import Prelude Rpc RpcServer RpcChannel RpcCalls RpcProgress RpcLocal.
Import Proto.
Local Open Scope Z_scope.

Module RpcEndToEnd.
Import Calls.

Section system.
Context {U Msg A : Type} `{MessageOk RpcRequest} `{MessageOk RpcResponse} `{Message Msg} `{Message A}.
Abbreviation Service := (RpcServer.Service U Msg).
Implicit Types (s : state) (k i : nat) (f : bytes) (req : RpcRequest) (resp : RpcResponse).

(** What call [i] of client [k] calls. *)
Variable what : nat -> nat -> string * string * A.
Abbreviation request_of k := (RpcLocal.request_of (what k)).

(** The frames on their way to the clients, and all that [Codec::send] was
    given. *)
Record net := mk_net { down : list (nat * bytes); log : list (nat * RpcResponse) }.
Definition codec_send (k : nat) (resp : RpcResponse) : M net unit :=
  modify (fun n => mk_net (down n ++ [(k, (SerializeToString resp).2)]) (log n ++ [(k, resp)])).

Abbreviation server_t := (RpcServer.t (Conn := nat) (U := U) (Msg := Msg) (N := net)).

(** The clients, the frames on their way to the server, and the server;
    [cut] says which connections have lost something. *)
Record system := mk {
  clients : list state;
  up : list (nat * bytes);
  server : server_t;
  cut : gset nat;
}.

(** What an action of client [k] writes: the frame of a request. *)
Definition written (k : nat) (a : action) (s : state) : list bytes :=
  match a with
  | Caller i true =>
      match calls s !! i with
      | Some c => match pc c with CWrite id => [(SerializeToString (request_of k i id)).2] | _ => [] end
      | None => []
      end
  | _ => []
  end.
Definition is_frame (a : action) : bool := match a with Reader (AFrame _) => true | _ => false end.

Definition drop_conn {X} (k : nat) (l : list (nat * X)) : list (nat * X) := filter (fun p => p.1 <> k) l.
Definition set_down (d : list (nat * bytes)) (x : server_t) : server_t :=
  lset RpcServer.net_lens (mk_net d (log (RpcServer.net x))) x.

(** The first frame of connection [k], and what remains. *)
Fixpoint take_first (k : nat) (l : list (nat * bytes)) : option (bytes * list (nat * bytes)) :=
  match l with
  | [] => None
  | (k', f) :: l' =>
      if decide (k' = k) then Some (f, l')
      else match take_first k l' with Some (g, r) => Some (g, (k', f) :: r) | None => None end
  end.

Definition returned {X} (r : Prelude.outcome X unit) : option X := match r with Ret x _ => Some x | _ => None end.

(** A client acts, a frame gets to the server, a worker runs the task at [i],
    the loop runs a functor, a frame gets to its client, a connection is cut. *)
Inductive event :=
| ClientMoves (k : nat) (a : action)
| ToServer (k : nat)
| Work (i : nat)
| Reply
| ToClient (k : nat)
| Cut (k : nat).

Definition step (e : event) (y : system) : option system :=
  match e with
  | ClientMoves k a =>
      if is_frame a then None
      else match clients y !! k with
           | Some s =>
               match perform a s with
               | Some s' => Some (mk (<[k := s']> (clients y)) (up y ++ (pair k <$> written k a s)) (server y) (cut y))
               | None => None
               end
           | None => None
           end
  | ToServer k =>
      match take_first k (up y) with
      | Some (f, l) =>
          match returned (RpcServer.frame_arrives codec_send k f (server y)) with
          | Some x => Some (mk (clients y) l x (cut y))
          | None => None
          end
      | None => None
      end
  | Work i =>
      match RpcServer.tasks (server y) !! i with
      | Some tk =>
          match returned (RpcServer.worker_runs tk
                  (RpcServer.set_tasks (delete i (RpcServer.tasks (server y))) (server y))) with
          | Some x => Some (mk (clients y) (up y) x (cut y))
          | None => None
          end
      | None => None
      end
  | Reply =>
      match RpcServer.functors (server y) with
      | g :: gs =>
          match returned (RpcServer.run_functor codec_send g (RpcServer.set_functors gs (server y))) with
          | Some x => Some (mk (clients y) (up y) x (cut y))
          | None => None
          end
      | [] => None
      end
  | ToClient k =>
      match take_first k (down (RpcServer.net (server y))), clients y !! k with
      | Some (f, l), Some s =>
          match reader_step (AFrame (ParseFromString f)) s with
          | Some s' => Some (mk (<[k := s']> (clients y)) (up y) (set_down l (server y)) (cut y))
          | None => None
          end
      | _, _ => None
      end
  | Cut k =>
      Some (mk (clients y) (drop_conn k (up y))
        (set_down (drop_conn k (down (RpcServer.net (server y)))) (server y)) ({[k]} ∪ cut y))
  end.

(** Each client is connected and is about to make its calls. *)
Variable syncss : list (list bool).
Variable services : gmap string Service.
Variable u : U.
Definition start : system :=
  mk (init <$> syncss) [] (RpcServer.mk services false [] [] u (mk_net [] [])) ∅.

Definition steps (y y' : system) : Prop := exists e, step e y = Some y'.
Definition reachable (y : system) : Prop := rtc steps start y.

(** What happens without new input: the threads of the clients, the frames on
    their way, the server. *)
Definition own (y : system) (e : event) : Prop :=
  match e with
  | ClientMoves k (Reader Data) => k ∈ (down (RpcServer.net (server y))).*1
  | ClientMoves _ a => RpcProgress.internal a = true
  | Cut _ => False
  | _ => True
  end.
Definition busy (y y' : system) : Prop := exists e, own y e /\ step e y = Some y'.

(** ** Invariant *)

Hypothesis few_calls : forall syncs, syncs ∈ syncss -> zlen syncs < 2 ^ 32 - 1.
Hypothesis requests_serialize : forall k i id, (SerializeToString (request_of k i id)).1 = true.
Hypothesis responses_serialize : forall resp, (SerializeToString resp).1 = true.

(** A call of client [k] has sent [req]. *)
Definition asked (cs : list state) (k : nat) (req : RpcRequest) : Prop :=
  exists s i c id, cs !! k = Some s /\ calls s !! i = Some c /\ the_id c = Some id /\ id ∈ sent s /\
    req = request_of k i id.

Record inv (reqs : list (nat * RpcRequest)) (y : system) : Prop := {
  in_clients : forall k s, clients y !! k = Some s ->
    exists syncs, syncs ∈ syncss /\ RpcLocal.answering_runs services (what k) syncs s;
  in_server : RpcServer.accounted log services reqs (server y);
  in_running : RpcServer.stopped (server y) = false;
  in_reqs : forall k req, (k, req) ∈ reqs -> asked (clients y) k req;
  in_up : forall k f, (k, f) ∈ up y -> exists req, asked (clients y) k req /\ f = (SerializeToString req).2;
  in_down : forall k f, (k, f) ∈ down (RpcServer.net (server y)) ->
    exists resp, (k, resp) ∈ log (RpcServer.net (server y)) /\ f = (SerializeToString resp).2;
  in_sent : forall k req, k ∉ cut y -> asked (clients y) k req ->
    (k, (SerializeToString req).2) ∈ up y \/ (k, req) ∈ reqs;
  in_log : forall k resp, k ∉ cut y -> (k, resp) ∈ log (RpcServer.net (server y)) ->
    (k, (SerializeToString resp).2) ∈ down (RpcServer.net (server y)) \/
    exists s, clients y !! k = Some s /\ resp ∈ received s;
}.

Lemma start_inv : inv [] start.
Proof.
  split; simpl; try by intros ?? ?%elem_of_nil.
  - intros k s (syncs & -> & Hk)%list_lookup_fmap_Some. exists syncs.
    split; [by eapply list_elem_of_lookup_2|apply rtc_refl].
  - split; [done|]. exists [], []. split_and!; [done|constructor..].
  - done.
  - intros k req _ (s & i & c & id & (syncs & -> & _)%list_lookup_fmap_Some & _ & _ & []%elem_of_nil & _).
  - intros k resp _ []%elem_of_nil.
Qed.

(** *** A client's step *)

Lemma client_sound reqs y k s : inv reqs y -> clients y !! k = Some s -> Calls.inv s.
Proof.
  intros Hy Hk. destruct (in_clients _ _ Hy k s Hk) as (syncs & Hs & Hruns).
  by apply (RpcLocal.answering_runs_traced services (what k) syncs s (few_calls syncs Hs) Hruns).
Qed.

Lemma client_settled reqs y k s : inv reqs y -> clients y !! k = Some s -> Calls.inv s /\ RpcProgress.settled s.
Proof.
  intros Hy Hk. destruct (in_clients _ _ Hy k s Hk) as (syncs & Hs & Hruns).
  apply (RpcProgress.reachable_settled syncs s (few_calls syncs Hs)).
  eapply rtc_subrel; [|exact Hruns]. intros s1 s2 (a & Ha & Hp). exists a. split; [|done].
  exact (RpcLocal.answering_honest services (what k) a s1 Ha).
Qed.

Lemma perform_sent a s s' id : perform a s = Some s' -> id ∈ sent s -> id ∈ sent s'.
Proof.
  destruct a as [i ok|inp|]; simpl; unfold caller_step, reader_step, take_call; intros Hs;
    repeat case_match; simplify_eq; simpl; try done; repeat case_match; simpl; try done; intros; apply elem_of_app; by left.
Qed.

(** A call keeps its id. *)
Lemma call_persists a s s' i c id :
  Calls.inv s -> perform a s = Some s' -> calls s !! i = Some c -> the_id c = Some id ->
  exists c', calls s' !! i = Some c' /\ the_id c' = Some id.
Proof.
  intros Hinv Hs Hc Hid. pose proof (perform_length a s s' Hs) as Hlen. unfold zlen in Hlen.
  assert (is_Some (calls s' !! i)) as [c' Hc'].
  { apply lookup_lt_is_Some. apply lookup_lt_Some in Hc. lia. }
  exists c'. split; [done|].
  destruct (RpcLocal.perform_call_moves (what 0%nat) a s s' Hinv Hs i c' Hc') as (c0 & Hc0 & [Hnone|Hsame] & _); congruence.
Qed.

Lemma asked_step a s s' cs k k' req :
  Calls.inv s -> perform a s = Some s' -> cs !! k = Some s -> asked cs k' req -> asked (<[k := s']> cs) k' req.
Proof.
  intros Hinv Hs Hk (s0 & i & c & id & Hs0 & Hc & Hid & Hin & ->). destruct (decide (k' = k)) as [->|Hne].
  - simplify_eq. destruct (call_persists a s s' i c id Hinv Hs Hc Hid) as (c' & Hc' & Hid').
    exists s', i, c', id. rewrite list_lookup_insert_eq by by eapply lookup_lt_Some.
    split_and!; [done..|by eapply perform_sent|done].
  - exists s0, i, c, id. by rewrite list_lookup_insert_ne.
Qed.

(** What is sent is what is written. *)
Lemma perform_written k a s s' :
  Calls.inv s -> perform a s = Some s' ->
  sent s' = sent s /\ written k a s = [] \/
  exists i c id, calls s !! i = Some c /\ the_id c = Some id /\ sent s' = sent s ++ [id] /\
    written k a s = [(SerializeToString (request_of k i id)).2].
Proof.
  intros Hinv. destruct a as [i ok|inp|]; simpl.
  - unfold caller_step. destruct (calls s !! i) as [c|] eqn:Hc; [|done].
    intros Hs. destruct (pc c) as [| |id|id|id|id|] eqn:Hpc.
    4: { pose proof (inv_phases s Hinv i c Hc) as (_ & _ & _ & _ & Hph). rewrite Hpc in Hph.
         destruct (the_id c) as [id'|] eqn:Hid; [|naive_solver]. destruct Hph as (_ & _ & -> & _).
         destruct ok; simplify_eq; [right|by left]. by exists i, c, id'. }
    all: left; destruct ok; repeat case_match; by simplify_eq.
  - unfold reader_step, take_call. intros Hs. left. repeat case_match; by simplify_eq.
  - intros [= <-]. by left.
Qed.

(** A request that was just sent, or had been. *)
Lemma asked_new a s s' cs k k' req :
  Calls.inv s -> Calls.inv s' -> perform a s = Some s' -> cs !! k = Some s ->
  asked (<[k := s']> cs) k' req ->
  asked cs k' req \/ k' = k /\ (SerializeToString req).2 ∈ written k a s.
Proof.
  intros Hinv Hinv' Hs Hk (s0 & i & c & id & Hs0 & Hc & Hid & Hin & ->).
  destruct (decide (k' = k)) as [->|Hne].
  2: { left. rewrite list_lookup_insert_ne in Hs0 by done. by exists s0, i, c, id. }
  rewrite list_lookup_insert_eq in Hs0 by (by eapply lookup_lt_Some). injection Hs0 as <-.
  destruct (inv_ids s' Hinv') as (_ & _ & Hu).
  assert (forall j d, calls s !! j = Some d -> the_id d = Some id -> j = i) as Hsame.
  { intros j d Hd Hdid. destruct (call_persists a s s' j d id Hinv Hs Hd Hdid) as (d' & Hd' & Hdid').
    by apply (Hu j i d' c id). }
  destruct (decide (id ∈ sent s)) as [Hold|Hnew].
  - left. destruct (inv_sent s Hinv id Hold) as (j & d & Hd & Hdid).
    assert (j = i) as -> by by apply (Hsame j d). by exists s, i, d, id.
  - right. split; [done|]. destruct (perform_written k a s s' Hinv Hs) as [[Heq _]|(j & d & id' & Hd & Hdid & Heq & ->)].
    + by rewrite Heq in Hin.
    + rewrite Heq in Hin. apply elem_of_app in Hin as [?| ->%list_elem_of_singleton]; [done|].
      assert (j = i) as -> by by apply (Hsame j d). by apply list_elem_of_singleton.
Qed.

(** *** The steps *)

Lemma client_runs syncs k a s s' :
  RpcLocal.answering_runs services (what k) syncs s -> RpcLocal.answering services (what k) a s ->
  perform a s = Some s' -> RpcLocal.answering_runs services (what k) syncs s'.
Proof. intros Hr Ha Hs. eapply rtc_r; [exact Hr|]. by exists a. Qed.

(** The part of the invariant that concerns the clients, after a step of one. *)
Lemma clients_step reqs y k a s s' :
  inv reqs y -> clients y !! k = Some s -> RpcLocal.answering services (what k) a s -> perform a s = Some s' ->
  Calls.inv s' /\ forall k1 s1, <[k := s']> (clients y) !! k1 = Some s1 ->
    exists syncs, syncs ∈ syncss /\ RpcLocal.answering_runs services (what k1) syncs s1.
Proof.
  intros Hy Hk Ha Hs. destruct (in_clients _ _ Hy k s Hk) as (syncs & Hsy & Hruns).
  pose proof (client_runs syncs k a s s' Hruns Ha Hs) as Hruns'. split.
  - by apply (RpcLocal.answering_runs_traced services (what k) syncs s' (few_calls syncs Hsy) Hruns').
  - intros k1 s1 [(<- & <- & _)|[_ Hk1]]%list_lookup_insert_Some; [by exists syncs|by apply (in_clients _ _ Hy)].
Qed.

Lemma received_stays a s s' resp : perform a s = Some s' -> resp ∈ received s -> resp ∈ received s'.
Proof.
  intros Hs Hin. destruct (RpcLocal.received_grows a s s' Hs) as [-> |(r & _ & ->)]; [done|].
  apply elem_of_app. by left.
Qed.

Lemma read_by_client reqs y k a s s' k1 resp :
  inv reqs y -> clients y !! k = Some s -> perform a s = Some s' ->
  (exists s1, clients y !! k1 = Some s1 /\ resp ∈ received s1) ->
  exists s1, <[k := s']> (clients y) !! k1 = Some s1 /\ resp ∈ received s1.
Proof.
  intros Hy Hk Hs (s1 & Hs1 & Hin). destruct (decide (k1 = k)) as [->|Hne].
  - simplify_eq. exists s'. rewrite list_lookup_insert_eq by by eapply lookup_lt_Some.
    split; [done|by eapply received_stays].
  - exists s1. by rewrite list_lookup_insert_ne.
Qed.

Lemma client_moves_inv reqs y k a s s' :
  inv reqs y -> clients y !! k = Some s -> is_frame a = false -> perform a s = Some s' ->
  inv reqs (mk (<[k := s']> (clients y)) (up y ++ (pair k <$> written k a s)) (server y) (cut y)).
Proof.
  intros Hy Hk Ha Hs. pose proof (client_sound reqs y k s Hy Hk) as Hinv.
  assert (RpcLocal.answering services (what k) a s) as Hans by by destruct a as [| [| |[]| | |]|].
  destruct (clients_step reqs y k a s s' Hy Hk Hans Hs) as [Hinv' Hcl].
  pose proof (perform_written k a s s' Hinv Hs) as Hw. split; simpl; [exact Hcl|apply Hy|apply Hy| | |apply Hy| |].
  - intros k1 req Hin. apply (asked_step a s s'); [done..|]. by apply (in_reqs _ _ Hy).
  - intros k1 f [Hin|Hin]%elem_of_app.
    + destruct (in_up _ _ Hy k1 f Hin) as (req & Hreq & ->). exists req. split; [|done]. by apply (asked_step a s s').
    + apply list_elem_of_fmap in Hin as (f' & [= -> ->] & Hin).
      destruct Hw as [[_ Hw]|(i & c & id & Hc & Hid & Hsent & Hw)]; rewrite Hw in Hin; [by apply elem_of_nil in Hin|].
      apply list_elem_of_singleton in Hin as ->. exists (request_of k i id). split; [|done].
      destruct (call_persists a s s' i c id Hinv Hs Hc Hid) as (c' & Hc' & Hid').
      exists s', i, c', id. rewrite list_lookup_insert_eq by by eapply lookup_lt_Some.
      split_and!; [done..| |done]. rewrite Hsent. apply elem_of_app. right. by apply list_elem_of_singleton.
  - intros k1 req Hcut Hreq. apply (asked_new a s s' (clients y) k k1 req Hinv Hinv' Hs Hk) in Hreq as [Hreq|[-> Hin]].
    + destruct (in_sent _ _ Hy k1 req Hcut Hreq); [left|by right]. apply elem_of_app. by left.
    + left. apply elem_of_app. right. apply list_elem_of_fmap. by eexists.
  - intros k1 resp Hcut Hin. destruct (in_log _ _ Hy k1 resp Hcut Hin) as [?|Hread]; [by left|right].
    by eapply read_by_client.
Qed.

(** The server's part: only what it sends is added. *)
Definition adds (x x' : server_t) : Prop :=
  RpcServer.stopped x' = RpcServer.stopped x /\
  exists out, down (RpcServer.net x') =
      down (RpcServer.net x) ++ ((fun cr => (cr.1, (SerializeToString cr.2).2)) <$> out) /\
    log (RpcServer.net x') = log (RpcServer.net x) ++ out.

Lemma adds_nothing x x' : RpcServer.net x' = RpcServer.net x -> RpcServer.stopped x' = RpcServer.stopped x -> adds x x'.
Proof. intros Hn Hs. split; [done|]. exists []. by rewrite Hn, !app_nil_r. Qed.

Lemma send_adds k resp x x' : RpcServer.send codec_send k resp x = Ret x' () -> adds x x'.
Proof. intros [= <-]. split; [done|]. by exists [(k, resp)]. Qed.

Lemma arrives_adds k f x x' : RpcServer.frame_arrives codec_send k f x = Ret x' () -> adds x x'.
Proof.
  unfold RpcServer.frame_arrives, RpcServer.on_frame, mbind, M_bind, gets. simpl.
  destruct (ParseFromString f) as [req|]; [|intros [= <-]; by apply adds_nothing].
  destruct (RpcServer.services_ x !! _) as [svc|]; [|apply send_adds].
  destruct (RpcServer.FindMethodByName svc _) as [m|]; [|apply send_adds].
  destruct (RpcServer.ParseArgs svc m _) as [args|]; [|apply send_adds].
  unfold RpcServer.submit, mbind, M_bind, gets, zoom. simpl.
  destruct (RpcServer.stopped x) eqn:Hx; [done|]. intros [= <-]. by apply adds_nothing.
Qed.

Lemma work_adds tk x x' : RpcServer.worker_runs tk x = Ret x' () -> adds x x'.
Proof.
  unfold RpcServer.worker_runs, RpcServer.dispatch_request, RpcServer.queue_functor, mbind, M_bind, zoom, modify.
  simpl. repeat case_match; intros Hrun; simplify_eq. by apply adds_nothing.
Qed.

Lemma server_moves_inv reqs reqs' y up' x :
  inv reqs y -> adds (server y) x -> RpcServer.accounted log services reqs' x ->
  (forall k req, (k, req) ∈ reqs' -> asked (clients y) k req) ->
  (forall k f, (k, f) ∈ up' -> (k, f) ∈ up y) ->
  (forall k req, asked (clients y) k req ->
     (k, (SerializeToString req).2) ∈ up y \/ (k, req) ∈ reqs -> (k, (SerializeToString req).2) ∈ up' \/ (k, req) ∈ reqs') ->
  inv reqs' (mk (clients y) up' x (cut y)).
Proof.
  intros Hy (Hstop & out & Hdown & Hlog) Hacc Hreqs Hup Hsent.
  split; simpl; [apply Hy|done|rewrite Hstop; apply Hy|done| | | |].
  - intros k f Hin. by apply (in_up _ _ Hy), Hup.
  - intros k f. rewrite Hdown, Hlog. intros [Hin|Hin]%elem_of_app.
    + destruct (in_down _ _ Hy k f Hin) as (resp & Hr & ->). exists resp. split; [|done]. apply elem_of_app. by left.
    + apply list_elem_of_fmap in Hin as ([k' resp] & [= -> ->] & Hin). exists resp. split; [|done]. apply elem_of_app. by right.
  - intros k req Hcut Hreq. apply Hsent; [done|]. by apply (in_sent _ _ Hy).
  - intros k resp Hcut. rewrite Hdown, Hlog. intros [Hin|Hin]%elem_of_app.
    + destruct (in_log _ _ Hy k resp Hcut Hin) as [?|?]; [left; apply elem_of_app; by left|by right].
    + left. apply elem_of_app. right. apply list_elem_of_fmap. by exists (k, resp).
Qed.

(** *** The server's and the network's events *)

Lemma take_first_perm k l f r : take_first k l = Some (f, r) -> l ≡ₚ (k, f) :: r.
Proof.
  revert r. induction l as [|[k' g] l IH]; intros r Hl; simpl in Hl; [done|].
  case_decide as Hk; [by simplify_eq|]. destruct (take_first k l) as [[h r']|]; [|done]. simplify_eq.
  rewrite (IH r' eq_refl). by apply perm_swap.
Qed.

Lemma take_first_is_Some k l : k ∈ l.*1 -> is_Some (take_first k l).
Proof.
  induction l as [|[k' g] l IH]; simpl; [by intros ?%elem_of_nil|]. case_decide; [by eexists|].
  intros [?|Hin]%elem_of_cons; [congruence|]. destruct (IH Hin) as [[h r] ->]. by eexists.
Qed.

Lemma answers_same_id req resp : RpcServer.answers services req resp -> response_id resp = request_id req.
Proof. intros []; try done. unfold RpcServer.make_response. by case_match. Qed.

Lemma request_of_id k i id : request_id (request_of k i id) = id.
Proof. unfold RpcLocal.request_of. by destruct (what k i) as [[? ?] ?]. Qed.

(** What is on its way to a client is an answer to a request of its. *)
Lemma frame_answers reqs y k f :
  inv reqs y -> (k, f) ∈ down (RpcServer.net (server y)) ->
  exists resp s, (k, resp) ∈ log (RpcServer.net (server y)) /\ ParseFromString f = Some resp /\
    f = (SerializeToString resp).2 /\ clients y !! k = Some s /\
    RpcLocal.answering services (what k) (Reader (AFrame (Some resp))) s.
Proof.
  intros Hy Hin. destruct (in_down _ _ Hy k f Hin) as (resp & Hlog & ->). exists resp.
  destruct (in_server _ _ Hy) as [_ (waiting & finished & Hp & _ & Hfin)].
  apply list_elem_of_lookup in Hlog as Hl. destruct Hl as [n Hl].
  destruct (Forall2_lookup_r _ _ _ n (k, resp) Hfin) as ([k' req] & Hreq & Hk & Ha);
    [by apply lookup_app_l_Some|]. simpl in Hk, Ha. subst k'.
  destruct (in_reqs _ _ Hy k req) as (s & i & c & id & Hs & Hc & Hid & Hsent & ->).
  { rewrite Hp. apply elem_of_app. right. by eapply list_elem_of_lookup_2. }
  pose proof (answers_same_id _ _ Ha) as Hrid. rewrite request_of_id in Hrid.
  exists s. split; [done|]. split; [by apply serialized_parses|]. split; [done|]. split; [done|].
  unfold RpcLocal.answering, RpcLocal.answers_call_of. rewrite Hrid. split; [done|]. by exists i, c.
Qed.

Lemma to_server_inv reqs y k f l x :
  inv reqs y -> take_first k (up y) = Some (f, l) ->
  RpcServer.frame_arrives codec_send k f (server y) = Ret x () ->
  exists reqs', inv reqs' (mk (clients y) l x (cut y)).
Proof.
  intros Hy Hf%take_first_perm Hx. destruct (in_up _ _ Hy k f) as (req & Hreq & Heq).
  { rewrite Hf. by left. }
  assert (ParseFromString f = Some req) as Hparse.
  { rewrite Heq. apply serialized_parses. destruct Hreq as (s & i & c & id & _ & _ & _ & _ & ->).
    apply requests_serialize. }
  exists (reqs ++ [(k, req)]). apply (server_moves_inv reqs _ y); [done|by eapply arrives_adds| | | |].
  - pose proof (RpcServer.on_frame_accounted codec_send log (fun _ _ _ => eq_refl) services reqs (server y) x k f
      (in_server _ _ Hy) Hx) as Hacc. unfold RpcServer.requests in Hacc. simpl in Hacc. by rewrite Hparse in Hacc.
  - intros k1 req1 [Hin|[= -> ->]%list_elem_of_singleton]%elem_of_app; [by apply (in_reqs _ _ Hy)|done].
  - intros k1 f1 Hin. rewrite Hf. by right.
  - intros k1 req1 Hreq1 [Hin|Hin]; [|right; apply elem_of_app; by left].
    rewrite Hf in Hin. apply elem_of_cons in Hin as [[= -> Hsame]|Hin]; [|by left].
    right. apply elem_of_app. right. apply list_elem_of_singleton. f_equal.
    assert (ParseFromString f = Some req1) as Hparse1; [|congruence].
    rewrite <- Hsame. apply serialized_parses. destruct Hreq1 as (s & i & c & id & _ & _ & _ & _ & ->).
    apply requests_serialize.
Qed.

Lemma to_client_inv reqs y k f l s s' :
  inv reqs y -> take_first k (down (RpcServer.net (server y))) = Some (f, l) -> clients y !! k = Some s ->
  reader_step (AFrame (ParseFromString f)) s = Some s' ->
  inv reqs (mk (<[k := s']> (clients y)) (up y) (set_down l (server y)) (cut y)).
Proof.
  intros Hy Hf%take_first_perm Hk Hs.
  assert (forall p, p ∈ l -> p ∈ down (RpcServer.net (server y))) as Hless by (intros p; rewrite Hf; by right).
  destruct (frame_answers reqs y k f Hy) as (resp & s1 & Hlog & Hparse & Heq & Hk1 & Hans); [rewrite Hf; by left|].
  rewrite Hk in Hk1. injection Hk1 as <-. rewrite Hparse in Hs.
  pose proof (client_sound reqs y k s Hy Hk) as Hinv. pose (a := Reader (AFrame (Some resp))).
  assert (perform a s = Some s') as Hp by done.
  destruct (clients_step reqs y k a s s' Hy Hk Hans Hp) as [Hinv' Hcl].
  pose proof (fun k1 req => asked_new a s s' (clients y) k k1 req Hinv Hinv' Hp Hk) as Hnew.
  split; simpl; [done| |apply Hy| | | | |].
  - destruct (in_server _ _ Hy) as [? Hacc]. by split.
  - intros k1 req Hin. apply (asked_step a s s'); [done..|]. by apply (in_reqs _ _ Hy).
  - intros k1 f1 Hin. destruct (in_up _ _ Hy k1 f1 Hin) as (req & Hreq & ->). exists req.
    split; [|done]. by apply (asked_step a s s').
  - intros k1 f1 Hin. by apply (in_down _ _ Hy), Hless.
  - intros k1 req Hcut Hreq. apply (in_sent _ _ Hy); [done|].
    by destruct (Hnew k1 req Hreq) as [|[_ Hin%elem_of_nil]].
  - intros k1 r Hcut Hin. destruct (in_log _ _ Hy k1 r Hcut Hin) as [Hd|Hread].
    + rewrite Hf in Hd. apply elem_of_cons in Hd as [[= -> Hsame]|Hd]; [|by left]. right.
      assert (ParseFromString f = Some r) as Hr by (rewrite <- Hsame; by apply serialized_parses).
      assert (r = resp) as -> by congruence. exists s'. rewrite list_lookup_insert_eq by by eapply lookup_lt_Some.
      split; [done|]. unfold reader_step, take_call in Hs. destruct (reader s); try done. simplify_eq.
      case_match; simpl; apply elem_of_app; right; by apply list_elem_of_singleton.
    + right. by eapply (read_by_client reqs y k a).
Qed.

Lemma cut_inv reqs y k :
  inv reqs y -> inv reqs (mk (clients y) (drop_conn k (up y))
    (set_down (drop_conn k (down (RpcServer.net (server y)))) (server y)) ({[k]} ∪ cut y)).
Proof.
  intros Hy. unfold drop_conn. split; simpl; try apply Hy.
  - destruct (in_server _ _ Hy) as [? Hacc]. by split.
  - intros k1 f [_ Hin]%list_elem_of_filter. by apply (in_up _ _ Hy).
  - intros k1 f [_ Hin]%list_elem_of_filter. by apply (in_down _ _ Hy).
  - intros k1 req [Hne Hcut]%not_elem_of_union Hreq. destruct (in_sent _ _ Hy k1 req Hcut Hreq); [left|by right].
    apply list_elem_of_filter. split; [|done]. simpl. set_solver.
  - intros k1 r [Hne Hcut]%not_elem_of_union Hin. destruct (in_log _ _ Hy k1 r Hcut Hin); [left|by right].
    apply list_elem_of_filter. split; [|done]. simpl. set_solver.
Qed.

Lemma work_inv reqs y i tk x :
  inv reqs y -> RpcServer.tasks (server y) !! i = Some tk ->
  RpcServer.worker_runs tk (RpcServer.set_tasks (delete i (RpcServer.tasks (server y))) (server y)) = Ret x () ->
  inv reqs (mk (clients y) (up y) x (cut y)).
Proof.
  intros Hy Htk Hx. apply (server_moves_inv reqs reqs y); [done| | |apply Hy|done|done].
  - exact (work_adds _ _ _ Hx).
  - apply (RpcServer.work_accounted log services reqs (server y) x (take i (RpcServer.tasks (server y))) tk
      (drop (S i) (RpcServer.tasks (server y)))); [apply Hy|by rewrite take_drop_middle|].
    by rewrite <- delete_take_drop.
Qed.

Lemma reply_inv reqs y g gs x :
  inv reqs y -> RpcServer.functors (server y) = g :: gs ->
  RpcServer.run_functor codec_send g (RpcServer.set_functors gs (server y)) = Ret x () ->
  inv reqs (mk (clients y) (up y) x (cut y)).
Proof.
  intros Hy Hg Hx. apply (server_moves_inv reqs reqs y); [done| | |apply Hy|done|done].
  - exact (send_adds _ _ _ _ Hx).
  - by apply (RpcServer.reply_accounted codec_send log (fun _ _ _ => eq_refl) services reqs (server y) x g gs);
      [apply Hy|..].
Qed.

Lemma event_inv e reqs y y' : inv reqs y -> step e y = Some y' -> exists reqs', inv reqs' y'.
Proof.
  intros Hy Hs. destruct e as [k a|k|i| |k|k]; simpl in Hs.
  - destruct (is_frame a) eqn:Ha; [done|]. destruct (clients y !! k) as [s|] eqn:Hk; [|done].
    destruct (perform a s) as [s'|] eqn:Hp; [|done]. simplify_eq. exists reqs. by apply (client_moves_inv reqs y k a s).
  - destruct (take_first k (up y)) as [[f l]|] eqn:Hf; [|done].
    destruct (RpcServer.frame_arrives codec_send k f (server y)) as [x []| | |] eqn:Hx; try done.
    simpl in Hs. simplify_eq. by eapply to_server_inv.
  - destruct (RpcServer.tasks (server y) !! i) as [tk|] eqn:Htk; [|done].
    destruct (RpcServer.worker_runs _ _) as [x []| | |] eqn:Hx; try done.
    simpl in Hs. simplify_eq. exists reqs. by eapply work_inv.
  - destruct (RpcServer.functors (server y)) as [|g gs] eqn:Hg; [done|].
    simplify_eq. exists reqs. by eapply reply_inv.
  - destruct (take_first k _) as [[f l]|] eqn:Hf; [|done]. destruct (clients y !! k) as [s|] eqn:Hk; [|done].
    destruct (reader_step _ s) as [s'|] eqn:Hp; [|done]. simplify_eq. exists reqs. by eapply to_client_inv.
  - simplify_eq. exists reqs. by apply cut_inv.
Qed.

Lemma system_inv y : reachable y -> exists reqs, inv reqs y.
Proof.
  revert y. refine (rtc_ind_r _ _ _ _); [exists []; apply start_inv|].
  intros y y' _ (e & Hs) (reqs & Hy). by eapply event_inv.
Qed.

(** C3. Every remote call is a local call.  Any number of clients, each with
    its threads, and the server with its workers, with frames on their way and
    connections cut, in any interleaving: when a synchronous [CallMethod] has
    returned, either its controller has not failed, and the bytes parsed into
    its response are the serialization of what the named method of the named
    service returned for exactly this call's argument; or the controller has
    failed, with one of the client's own reasons, with the dispatch error that
    this service and method name deserve, or with the text the method set.
    The server's behaviour is not a hypothesis. *)
Theorem every_call_is_local y k s i c (Hr : reachable y) (Hs : clients y !! k = Some s)
    (Hc : calls s !! i = Some c) (Hsync : is_sync c = true) (Hret : pc c = CReturned) :
  if RpcController.Failed (controller c)
  then RpcController.ErrorText (controller c) ∈ RpcLocal.local_reasons \/
       RpcLocal.method_fails services (what k) i (RpcController.ErrorText (controller c))
  else exists data, response c = Some data /\ RpcLocal.method_returns services (what k) i data.
Proof.
  destruct (system_inv y Hr) as [reqs Hy]. destruct (in_clients _ _ Hy k s Hs) as (syncs & Hsy & Hruns).
  by apply (RpcLocal.returned_is_local services (what k) syncs s i c (few_calls syncs Hsy) Hruns).
Qed.

(** ** Everything comes to rest *)

(** The weight of a client's threads, and of all that is left to do. *)
Definition weight (s : state) : nat :=
  40 * sum_list (RpcProgress.caller_rank <$> (pc <$> calls s)) + 2 * RpcProgress.reader_rank (reader s) +
  match reader s with RRead => 1 | _ => 0 end.
Definition server_load (x : server_t) : nat :=
  24 * length (RpcServer.tasks x) + 16 * length (RpcServer.functors x) + 8 * length (down (RpcServer.net x)).
Definition load (y : system) : nat :=
  sum_list (weight <$> clients y) + 32 * length (up y) + server_load (server y).

Lemma reader_pcs inp s s' : reader_step inp s = Some s' -> pc <$> calls s' = pc <$> calls s.
Proof.
  assert (forall i c c', calls s !! i = Some c -> pc c' = pc c -> pc <$> <[i := c']> (calls s) = pc <$> calls s) as Hset.
  { intros i c c' Hc Hpc. rewrite list_fmap_insert. apply list_insert_id. by rewrite list_lookup_fmap, Hc, Hpc. }
  unfold reader_step, take_call. intros Hs. repeat case_match; simplify_eq; try done; simpl;
    by first [by eapply Hset | apply (RpcProgress.fail_pending_pcs s)].
Qed.

Lemma caller_reader i ok s s' : caller_step i ok s = Some s' -> reader s' = reader s.
Proof. unfold caller_step. intros Hs. by repeat case_match; simplify_eq. Qed.

Lemma written_length k a s : (length (written k a s) <= 1)%nat.
Proof. destruct a as [i []| |]; simpl; repeat case_match; simpl; lia. Qed.

Lemma internal_weight k a s s' :
  RpcProgress.internal a = true -> perform a s = Some s' ->
  (weight s' + 32 * length (written k a s) < weight s)%nat.
Proof.
  intros Ha Hs. assert (RpcProgress.rank s' < RpcProgress.rank s)%nat as Hrank.
  { apply RpcProgress.internal_step_rank. by exists a. }
  pose proof (written_length k a s). unfold weight, RpcProgress.rank in *. destruct a as [i ok|[]|]; try done.
  - rewrite (caller_reader i ok s s' Hs) in *. lia.
  - rewrite (reader_pcs Go s s' Hs) in *. simpl. destruct (reader s'), (reader s); simpl in *; lia.
Qed.

Lemma data_weight s s' : reader_step Data s = Some s' -> (weight s' < weight s)%nat.
Proof.
  intros Hs. unfold weight. rewrite (reader_pcs _ s s' Hs). unfold reader_step in Hs.
  destruct (reader s); simplify_eq. simpl. lia.
Qed.

Lemma frame_weight o s s' : reader_step (AFrame o) s = Some s' -> (weight s' <= weight s + 6)%nat.
Proof.
  intros Hs. unfold weight. rewrite (reader_pcs _ s s' Hs).
  assert (RpcProgress.reader_rank (reader s') <= 3)%nat by (destruct (reader s'); simpl; lia).
  unfold reader_step in Hs. destruct (reader s) eqn:Hrd; try done.
  destruct o as [resp|]; simplify_eq; [|rewrite Hrd; simpl; lia].
  unfold take_call in *. case_match; simpl in *; [lia|]. rewrite Hrd in *. simpl in *. lia.
Qed.

Lemma client_load (cs : list state) k s s' :
  cs !! k = Some s -> (sum_list (weight <$> <[k := s']> cs) + weight s = sum_list (weight <$> cs) + weight s')%nat.
Proof. intros Hk. rewrite list_fmap_insert. apply sum_list_insert. by rewrite list_lookup_fmap, Hk. Qed.

Lemma arrives_load k f x x' :
  RpcServer.frame_arrives codec_send k f x = Ret x' () -> (server_load x' <= server_load x + 24)%nat.
Proof.
  unfold RpcServer.frame_arrives, RpcServer.on_frame, mbind, M_bind, gets. simpl.
  assert (forall resp, RpcServer.send codec_send k resp x = Ret x' () -> server_load x' <= server_load x + 24)%nat as Hsend.
  { intros resp [= <-]. unfold server_load. simpl. rewrite length_app. simpl. lia. }
  destruct (ParseFromString f) as [req|]; [|intros [= <-]; lia].
  destruct (RpcServer.services_ x !! _) as [svc|]; [|apply Hsend].
  destruct (RpcServer.FindMethodByName svc _) as [m|]; [|apply Hsend].
  destruct (RpcServer.ParseArgs svc m _) as [args|]; [|apply Hsend].
  unfold RpcServer.submit, mbind, M_bind, gets, zoom. simpl.
  destruct (RpcServer.stopped x); [done|]. intros [= <-]. unfold server_load. simpl. rewrite length_app. simpl. lia.
Qed.

Lemma work_load tk x x' :
  RpcServer.worker_runs tk x = Ret x' () -> server_load x' = (server_load x + 16)%nat.
Proof.
  unfold RpcServer.worker_runs, RpcServer.dispatch_request, RpcServer.queue_functor, mbind, M_bind, zoom, modify.
  simpl. repeat case_match; intros Hrun; simplify_eq. unfold server_load. simpl. rewrite length_app. simpl. lia.
Qed.

Lemma busy_load y y' : busy y y' -> (load y' < load y)%nat.
Proof.
  intros (e & Hown & Hs). unfold load. destruct e as [k a|k|i| |k|k]; simpl in Hs; [| | | | |done].
  - destruct (is_frame a) eqn:Ha; [done|]. destruct (clients y !! k) as [s|] eqn:Hk; [|done].
    destruct (perform a s) as [s'|] eqn:Hp; [|done]. simplify_eq. simpl. rewrite length_app, length_fmap.
    pose proof (client_load (clients y) k s s' Hk).
    assert (RpcProgress.internal a = true \/ a = Reader Data) as [Hi|Hi] by (destruct a as [|[]|]; auto).
    + pose proof (internal_weight k a s s' Hi Hp). lia.
    + subst a. pose proof (data_weight s s' Hp). simpl. lia.
  - destruct (take_first k (up y)) as [[f l]|] eqn:Hf; [|done]. apply take_first_perm in Hf.
    destruct (RpcServer.frame_arrives codec_send k f (server y)) as [x []| | |] eqn:Hx; try done.
    simpl in Hs. simplify_eq. apply arrives_load in Hx. simpl. rewrite Hf. simpl. lia.
  - destruct (RpcServer.tasks (server y) !! i) as [tk|] eqn:Htk; [|done].
    destruct (RpcServer.worker_runs _ _) as [x []| | |] eqn:Hx; try done.
    simpl in Hs. simplify_eq. apply work_load in Hx. simpl. rewrite Hx. unfold server_load. simpl.
    rewrite length_delete by by eexists. apply lookup_lt_Some in Htk. lia.
  - destruct (RpcServer.functors (server y)) as [|g gs] eqn:Hg; [done|].
    simplify_eq. unfold server_load. simpl. rewrite Hg, length_app. simpl. lia.
  - destruct (take_first k _) as [[f l]|] eqn:Hf; [|done]. destruct (clients y !! k) as [s|] eqn:Hk; [|done].
    destruct (reader_step _ s) as [s'|] eqn:Hp; [|done]. simplify_eq. apply take_first_perm in Hf.
    pose proof (client_load (clients y) k s s' Hk). apply frame_weight in Hp.
    unfold server_load. simpl. rewrite Hf. simpl. lia.
Qed.

(** The services complete the calls of their methods. *)
Hypothesis services_complete : forall name svc, services !! name = Some svc ->
  forall n m bs args v, RpcServer.FindMethodByName svc n = Some m -> RpcServer.ParseArgs svc m bs = Some args ->
  exists v' r, RpcServer.CallMethod svc m args v = Ret v' (Some r).

Lemma arrives_returns k f (x : server_t) :
  RpcServer.stopped x = false -> exists x', RpcServer.frame_arrives codec_send k f x = Ret x' ().
Proof.
  intros Hx. unfold RpcServer.frame_arrives, RpcServer.on_frame, mbind, M_bind, gets. simpl.
  repeat case_match; try by eexists. unfold RpcServer.submit, mbind, M_bind, gets. simpl. rewrite Hx. by eexists.
Qed.

Lemma worker_returns cr tk (x : server_t) :
  RpcServer.waits services cr tk -> exists x', RpcServer.worker_runs tk x = Ret x' ().
Proof.
  intros (_ & _ & Hsvc & Hm & Hargs).
  destruct (services_complete _ _ Hsvc _ _ _ _ (RpcServer.user x) Hm Hargs) as (v & [ctl r] & Hcall).
  unfold RpcServer.worker_runs, RpcServer.dispatch_request, mbind, M_bind, zoom. simpl. rewrite Hcall. by eexists.
Qed.

Lemma rest_server reqs y :
  inv reqs y -> nf busy y ->
  up y = [] /\ RpcServer.tasks (server y) = [] /\ RpcServer.functors (server y) = [].
Proof.
  intros Hy Hnf. assert (forall e y', own y e -> step e y = Some y' -> False) as Hno.
  { intros e y' Hown Hs. apply Hnf. exists y', e. done. }
  split_and!.
  - destruct (up y) as [|[k f] l] eqn:Hup; [done|exfalso].
    destruct (arrives_returns k f (server y)) as [x Hx]; [apply Hy|].
    eapply (Hno (ToServer k)); [done|]. simpl. rewrite Hup. simpl. rewrite decide_True by done. by rewrite Hx.
  - destruct (RpcServer.tasks (server y)) as [|tk l] eqn:Htk; [done|exfalso].
    destruct (in_server _ _ Hy) as [_ (waiting & finished & _ & Hw & _)]. rewrite Htk in Hw.
    apply Forall2_cons_inv_r in Hw as (cr & w' & Hwaits & _ & _).
    destruct (worker_returns cr tk (RpcServer.set_tasks l (server y)) Hwaits) as [x Hx].
    eapply (Hno (Work 0)); [done|]. simpl. rewrite Htk. simpl. by rewrite Hx.
  - destruct (RpcServer.functors (server y)) as [|g gs] eqn:Hg; [done|exfalso].
    eapply (Hno Reply); [done|]. simpl. by rewrite Hg.
Qed.

Lemma rest_client y k s : nf busy y -> clients y !! k = Some s -> nf RpcProgress.internal_step s.
Proof.
  intros Hnf Hk (s' & a & Ha & Hs). apply Hnf. eexists _, (ClientMoves k a). split.
  - by destruct a as [|[]|].
  - simpl. destruct (is_frame a) eqn:Hf; [by destruct a as [|[]|]|]. by rewrite Hk, Hs.
Qed.

(** A client whose reader still reads has got its frames. *)
Lemma rest_down reqs y k s :
  inv reqs y -> nf busy y -> clients y !! k = Some s -> reader s <> RExited ->
  k ∉ (down (RpcServer.net (server y))).*1.
Proof.
  intros Hy Hnf Hk Hrd Hin. pose proof (client_sound reqs y k s Hy Hk) as Hinv.
  pose proof (RpcProgress.rest_reader s Hinv (rest_client y k s Hnf Hk)) as Ht.
  destruct (reader s) eqn:Hread; try done.
  - apply (rest_client y k s Hnf Hk). eexists _, (Reader Go). split; [done|]. simpl. unfold reader_step. by rewrite Hread.
  - apply Hnf. eexists _, (ClientMoves k (Reader Data)). split; [done|]. simpl. rewrite Hk. unfold reader_step.
    by rewrite Hread.
  - destruct (take_first_is_Some k _ Hin) as [[f l] Hf].
    destruct (reader_step (AFrame (ParseFromString f)) s) as [s'|] eqn:Hs.
    + apply Hnf. eexists _, (ToClient k). split; [done|]. simpl. by rewrite Hf, Hk, Hs.
    + unfold reader_step in Hs. rewrite Hread in Hs. by destruct (ParseFromString f).
  - apply (rest_client y k s Hnf Hk). eexists _, (Reader Go). split; [done|]. simpl. unfold reader_step. by rewrite Hread.
Qed.

(** At rest, what was asked on a connection that is whole has been answered. *)
Lemma rest_answered reqs y k s c :
  inv reqs y -> nf busy y -> clients y !! k = Some s -> k ∉ cut y -> reader s <> RExited ->
  c ∈ calls s -> RpcProgress.unanswered s c -> False.
Proof.
  intros Hy Hnf Hk Hcut Hrd [i Hc]%list_elem_of_lookup (id & Hid & Hin & Hno).
  destruct (rest_server reqs y Hy Hnf) as (Hup & Htk & Hg).
  destruct (in_sent _ _ Hy k (request_of k i id) Hcut) as [Hu|Hreq]; [by exists s, i, c, id| |].
  { rewrite Hup in Hu. by apply elem_of_nil in Hu. }
  destruct (in_server _ _ Hy) as [_ (waiting & finished & Hp & Hw & Hfin)].
  rewrite Htk in Hw. apply Forall2_nil_inv_r in Hw as ->. rewrite Hg, app_nil_r in Hfin. rewrite Hp in Hreq.
  apply list_elem_of_lookup in Hreq as [n Hreq].
  destruct (Forall2_lookup_l _ _ _ n _ Hfin Hreq) as ([k' resp] & Hl & Hk' & Ha). simpl in Hk', Ha. subst k'.
  pose proof (answers_same_id _ _ Ha) as Hrid. rewrite request_of_id in Hrid.
  apply list_elem_of_lookup_2 in Hl.
  destruct (in_log _ _ Hy k resp Hcut Hl) as [Hd|(s1 & Hk1 & Hr)].
  - apply (rest_down reqs y k s Hy Hnf Hk Hrd), list_elem_of_fmap. by eexists (_, _).
  - rewrite Hk in Hk1. injection Hk1 as <-. by apply (Hno resp).
Qed.

(** C4. Every call finishes.  Any number of clients, each making fewer than
    2^32 - 1 calls, and a server whose services complete their calls: from
    every state that they reach, in any interleaving, the clients' threads, the
    frames on their way, the workers and the loop come to rest after finitely
    many steps; and then every call of a client whose connection was not cut
    and whose reader still reads is over: a synchronous one has returned,
    failed or with a response, an asynchronous one has run its [done] once. *)
Theorem all_calls_finish y (Hr : reachable y) :
  sn busy y /\
  forall y', rtc busy y y' -> nf busy y' -> forall k s, clients y' !! k = Some s -> k ∉ cut y' ->
    reader s <> RExited -> forall i c, calls s !! i = Some c -> RpcProgress.over c.
Proof.
  split; [apply (ranked_sn load), busy_load|].
  intros y' Hyy' Hnf k s Hk Hcut Hrd i c Hc.
  assert (reachable y') as Hr'.
  { unfold reachable in *. etrans; [exact Hr|]. eapply rtc_subrel; [|exact Hyy']. intros y1 y2 (e & _ & He). by exists e. }
  destruct (system_inv y' Hr') as [reqs Hy]. destruct (client_settled reqs y' k s Hy Hk) as [Hinv Hset].
  destruct (RpcProgress.rest_calls s i c Hinv Hset (rest_client y' k s Hnf Hk) Hc) as [|Hun]; [done|exfalso].
  eapply rest_answered; [done..| |done]. by eapply list_elem_of_lookup_2.
Qed.

End system.
(** ** Two clients: one calls the echo service, one a service that nobody has *)

Module Demo.

(** Any message as bytes: its code, bit by bit. *)
Fixpoint to_bits (p : positive) : bytes :=
  match p with
  | xH => []
  | xO q => Byte.x00 :: to_bits q
  | xI q => Byte.x01 :: to_bits q
  end.
Fixpoint of_bits (bs : bytes) : positive :=
  match bs with
  | [] => xH
  | b :: bs' => if decide (b = Byte.x00) then xO (of_bits bs') else xI (of_bits bs')
  end.

Lemma of_to_bits p : of_bits (to_bits p) = p.
Proof. induction p; simpl; congruence. Qed.

#[local] Instance byte_countable : Countable Init.Byte.byte :=
  inj_countable Byte.to_N Byte.of_N Byte.of_to_N.
#[local] Instance request_countable : Countable RpcRequest :=
  inj_countable' (fun r => (service_name r, method_name r, request_id r, args_data r))
    (fun '(s, m, id, a) => mk_request s m id a) (fun r => match r with mk_request _ _ _ _ => eq_refl end).
#[local] Instance response_countable : Countable RpcResponse :=
  inj_countable' (fun r => (response_id r, success r, result_data r, error_msg r))
    (fun '(id, ok, d, m) => mk_response id ok d m) (fun r => match r with mk_response _ _ _ _ => eq_refl end).

Definition coded {X} `{Countable X} : Message X := {|
  SerializeToString x := (true, to_bits (encode x));
  ParseFromString bs := decode (of_bits bs);
|}.
Lemma coded_ok {X} `{Countable X} : @MessageOk X coded.
Proof. intros x bs [= <-]. simpl. by rewrite of_to_bits, decode_encode. Qed.

#[local] Instance request_message : Message RpcRequest := coded.
#[local] Instance request_message_ok : MessageOk RpcRequest := coded_ok.
#[local] Instance response_message : Message RpcResponse := coded.
#[local] Instance response_message_ok : MessageOk RpcResponse := coded_ok.
#[local] Existing Instance RpcServer.Echo.bytes_message.

Definition calls_made (k i : nat) : string * string * bytes :=
  match k with
  | O => ("Echo", "Say", [Byte.x68; Byte.x69])
  | _ => ("Nobody", "Say", [])
  end%string.
Definition registered : gmap string (RpcServer.Service nat bytes) := {["Echo" := RpcServer.Echo.echo]}.
Abbreviation fresh := (start [[true]; [true]] registered 0%nat).

Fixpoint play (es : list event) (y : system (U := nat) (Msg := bytes)) : option (system (U := nat) (Msg := bytes)) :=
  match es with
  | [] => Some y
  | e :: es' => match step calls_made e y with Some y' => play es' y' | None => None end
  end.

Lemma play_reachable es y y' :
  reachable calls_made [[true]; [true]] registered 0%nat y -> play es y = Some y' ->
  reachable calls_made [[true]; [true]] registered 0%nat y'.
Proof.
  revert y. induction es as [|e es IH]; intros y Hr Hp; simpl in Hp; [by simplify_eq|].
  destruct (step calls_made e y) as [y1|] eqn:Hs; [|done]. apply (IH y1); [|done].
  eapply rtc_r; [exact Hr|]. by exists e.
Qed.

Definition calling (k : nat) : list event :=
  replicate 4 (ClientMoves k (Caller 0 true)) ++ [ClientMoves k (Reader Go); ClientMoves k (Reader Data)].
Definition answered (k : nat) : list event :=
  ToClient k :: replicate 3 (ClientMoves k (Reader Go)) ++ [ClientMoves k (Caller 0 true)].
Definition both_calling : list event := calling 0 ++ calling 1 ++ [ToServer 0; ToServer 1].
Definition both_answered : list event := both_calling ++ [Work 0; Reply] ++ answered 1 ++ answered 0.

Definition after (es : list event) : system (U := nat) (Msg := bytes) := default fresh (play es fresh).

Lemma few_made : forall syncs : list bool, syncs ∈ [[true]; [true]] -> zlen syncs < 2 ^ 32 - 1.
Proof. intros syncs. rewrite !elem_of_cons, elem_of_nil. by intros [->|[->|[]]]. Qed.

Lemma requests_code k i id : (SerializeToString (RpcLocal.request_of (calls_made k) i id)).1 = true.
Proof. done. Qed.
Lemma responses_code (resp : RpcResponse) : (SerializeToString resp).1 = true.
Proof. done. Qed.

Lemma echo_completes_all : forall name svc, registered !! name = Some svc ->
  forall n m bs args v, RpcServer.FindMethodByName svc n = Some m -> RpcServer.ParseArgs svc m bs = Some args ->
  exists v' r, RpcServer.CallMethod svc m args v = Ret v' (Some r).
Proof. intros name svc Hn n m bs args v _ _. unfold registered in Hn. apply lookup_singleton_Some in Hn as [_ <-]. by eexists _, _. Qed.

(** What the two clients have got. *)
Example both_over :
  (fun s => (fun c => (RpcController.ErrorText (controller c), response c)) <$> calls s) <$> clients (after both_answered) =
    [[("", Some [Byte.x68; Byte.x69])]; [("service not found: Nobody", None)]]%string.
Proof. by vm_compute. Qed.

Definition the_call : call :=
  mk_call true CReturned RpcController.make (Some [Byte.x68; Byte.x69]) true 0 (Some 1).

Lemma every_call_is_local_witness :
  (exists s, clients (after both_answered) !! 0%nat = Some s /\ calls s !! 0%nat = Some the_call) /\
  exists data, response the_call = Some data /\ RpcLocal.method_returns registered (calls_made 0) 0 data.
Proof.
  assert (exists s, clients (after both_answered) !! 0%nat = Some s /\ calls s !! 0%nat = Some the_call) as Hs
    by (eexists; split; vm_compute; reflexivity).
  split; [exact Hs|]. destruct Hs as (s & Hk & Hc).
  apply (every_call_is_local calls_made [[true]; [true]] registered 0%nat few_made requests_code
    responses_code (after both_answered) 0 s 0 the_call); [|exact Hk|exact Hc|reflexivity|reflexivity].
  apply (play_reachable both_answered fresh); [apply rtc_refl|vm_compute; reflexivity].
Defined.

Lemma all_calls_finish_witness :
  RpcServer.tasks (server (after both_calling)) <> [] /\
  sn (busy calls_made) (after both_calling) /\
  forall y', rtc (busy calls_made) (after both_calling) y' -> nf (busy calls_made) y' ->
    forall k s, clients y' !! k = Some s -> k ∉ cut y' -> reader s <> RExited ->
    forall i c, calls s !! i = Some c -> RpcProgress.over c.
Proof.
  split; [by vm_compute|].
  apply (all_calls_finish calls_made [[true]; [true]] registered 0%nat few_made requests_code
    responses_code echo_completes_all).
  apply (play_reachable both_calling fresh); [apply rtc_refl|vm_compute; reflexivity].
Defined.

End Demo.

End RpcEndToEnd.
