(* ===== verification/RpcExamples.v ===== *)
(** * The example services (src/example)

    The calculator and the greeter: their methods, and what a client of theirs
    gets through the framework.  protoc generates the service's base class and
    the stub: [Generated] states what they promise for a service and its
    methods.  [double] is IEEE 754 binary64, without payloads of NaNs. *)

From Stdlib Require Import ZArith Floats.SpecFloat.
From S2P Require Import Prelude Rpc RpcServer RpcChannel RpcCalls RpcLocal.
Import Proto.
Local Open Scope Z_scope.

(** ** Services *)

Module Service.

(** What a method works on: its controller and response, and whether it has run
    [done]. *)
Record call_state (Resp : Type) := mk_call_state {
  controller : RpcController.t;
  resp : Resp;
  done : bool;
}.
Arguments mk_call_state {Resp} controller resp done.
Arguments controller {Resp} c.
Arguments resp {Resp} c.
Arguments done {Resp} c.

Inductive message (Req Resp : Type) := ARequest (r : Req) | AResponse (r : Resp).
Arguments ARequest {Req Resp} r.
Arguments AResponse {Req Resp} r.

Section service.
Context {U Req Resp : Type} `{Message Req} `{Message Resp}.

Definition method : Type := Req -> M (call_state Resp) unit.
Definition set_resp (f : Resp -> Resp) : M (call_state Resp) unit :=
  modify (fun c => mk_call_state (controller c) (f (resp c)) (done c)).
(** [done->Run();] *)
Definition run_done : M (call_state Resp) unit :=
  modify (fun c => mk_call_state (controller c) (resp c) true).

(** A call of a method with a new response, [default]. *)
Definition invoke (default : Resp) (f : method) (r : Req) : M U (option (RpcController.t * message Req Resp)) :=
  fun u => match f r (mk_call_state RpcController.make default false) with
  | Ret c _ => Ret u (if done c then Some (controller c, AResponse (resp c)) else None)
  | Throw _ e => Throw u e
  | Ub why => Ub why
  | OutOfFuel => OutOfFuel
  end.

#[export] Instance message_message : Message (message Req Resp) := {
  SerializeToString m := match m with ARequest r => SerializeToString r | AResponse r => SerializeToString r end;
  ParseFromString bs := AResponse <$> ParseFromString bs;
}.

(** The base class generated for a service: its descriptor has the declared
    names, and it calls the method that a descriptor stands for. *)
Class Generated (svc : RpcServer.Service U (message Req Resp)) (name : string) (default : Resp)
    (methods : list (string * method)) : Prop := {
  gen_name : RpcServer.full_name svc = name;
  gen_find n : RpcServer.FindMethodByName svc n = fst <$> list_find (fun p => p.1 = n) methods;
  gen_parse m bs : is_Some (methods !! m) -> RpcServer.ParseArgs svc m bs = ARequest <$> ParseFromString bs;
  gen_call m n f r u : methods !! m = Some (n, f) ->
    RpcServer.CallMethod svc m (ARequest r) u = invoke default f r u;
}.

(** Such a service. *)
Definition generate (name : string) (default : Resp) (methods : list (string * method)) :
    RpcServer.Service U (message Req Resp) := {|
  RpcServer.full_name := name;
  RpcServer.FindMethodByName n := fst <$> list_find (fun p => p.1 = n) methods;
  RpcServer.ParseArgs m bs := ARequest <$> ParseFromString bs;
  RpcServer.CallMethod m r :=
    match methods !! m, r with
    | Some (_, f), ARequest r => invoke default f r
    | _, _ => ub "no such method"
    end;
|}.

#[export] Instance generate_generated name default methods :
  Generated (generate name default methods) name default methods.
Proof. split; [done|done|done|]. intros m n f r u Hm. simpl. by rewrite Hm. Qed.

(** [server.register_service(&svc);] on a new server: its table. *)
Definition main_services (svc : RpcServer.Service U (message Req Resp)) (u : U) :
    gmap string (RpcServer.Service U (message Req Resp)) :=
  match RpcServer.register_service lens_id svc
    (RpcServer.mk (Conn := nat) (N := unit) ∅ false [] [] u ()) with
  | Ret s _ => RpcServer.services_ s
  | _ => ∅
  end.

(** ** A remote call of a generated service's method *)

Context `{!MessageOk Req}.
Variables (svc : RpcServer.Service U (message Req Resp)) (name : string) (default : Resp).
Variable methods : list (string * method).
Hypothesis Hgen : Generated svc name default methods.

(** Calls of a method that is declared, runs through and runs [done]. *)
Lemma method_call what i n m f r c0 id answer u :
  what i = (name, n, r) -> list_find (fun p => p.1 = n) methods = Some (m, (n, f)) ->
  (SerializeToString r).1 = true ->
  f r (mk_call_state RpcController.make default false) = Ret c0 () -> done c0 = true ->
  RpcServer.answers (main_services svc u) (RpcLocal.request_of what i id) answer ->
  if RpcController.Failed (controller c0)
  then success answer = false /\ error_msg answer = RpcController.ErrorText (controller c0)
  else success answer = true /\ result_data answer = (SerializeToString (resp c0)).2.
Proof.
  intros Hwhat Hfind Hser Hrun Hdone Ha.
  pose proof (serialized_parses r Hser) as Hparse.
  apply list_find_Some in Hfind as Hmth. destruct Hmth as [Hmth _].
  assert (main_services svc u !! name = Some svc) as Hsvc.
  { unfold main_services. simpl. rewrite (gen_name (Generated := Hgen)). apply lookup_insert_eq. }
  unfold RpcLocal.request_of, RpcChannel.make_request in Ha. rewrite Hwhat in Ha.
  pose proof (gen_find (Generated := Hgen) n) as Hn. rewrite Hfind in Hn. simpl in Hn.
  destruct Ha as [Hs|svc' Hs Hm|svc' m' Hs Hm Hp|svc' m' args v v' ctl rs Hs Hm Hp Hc];
    cbn [service_name method_name args_data] in *; try congruence;
    rewrite Hsvc in Hs; injection Hs as <-; rewrite Hn in Hm; simplify_eq.
  - rewrite (gen_parse (Generated := Hgen)), Hparse in Hp; [done|by eexists].
  - rewrite (gen_parse (Generated := Hgen)), Hparse in Hp by by eexists. simpl in Hp. simplify_eq.
    rewrite (gen_call (Generated := Hgen) _ _ _ _ _ Hmth) in Hc. unfold invoke in Hc.
    rewrite Hrun, Hdone in Hc. simplify_eq. unfold RpcServer.make_response.
    by destruct (RpcController.Failed (controller c0)).
Qed.

(** The answer to such a call. *)
Lemma method_answers what i n m f r c0 id u :
  what i = (name, n, r) -> list_find (fun p => p.1 = n) methods = Some (m, (n, f)) ->
  (SerializeToString r).1 = true ->
  f r (mk_call_state RpcController.make default false) = Ret c0 () -> done c0 = true ->
  RpcServer.answers (main_services svc u) (RpcLocal.request_of what i id)
    (RpcServer.make_response id (controller c0) (AResponse (resp c0))).
Proof.
  intros Hwhat Hfind Hser Hrun Hdone. apply list_find_Some in Hfind as Hmth. destruct Hmth as [Hmth _].
  unfold RpcLocal.request_of. rewrite Hwhat.
  refine (RpcServer.answers_call _ _ svc m (ARequest r) u u (controller c0) (AResponse (resp c0)) _ _ _ _).
  - unfold main_services. simpl. rewrite (gen_name (Generated := Hgen)). apply lookup_insert_eq.
  - simpl. by rewrite (gen_find (Generated := Hgen)), Hfind.
  - simpl. rewrite (gen_parse (Generated := Hgen)), (serialized_parses r Hser) by by eexists. done.
  - rewrite (gen_call (Generated := Hgen) _ _ _ _ _ Hmth). unfold invoke. by rewrite Hrun, Hdone.
Qed.

(** So a synchronous remote call of a method that does not fail, unless the
    client itself gives up, leaves the method's response. *)
Lemma remote_method what syncs s i c n m f r c0 u :
  zlen syncs < 2 ^ 32 - 1 -> RpcLocal.answering_runs (main_services svc u) what syncs s ->
  Calls.calls s !! i = Some c -> Calls.is_sync c = true -> Calls.pc c = Calls.CReturned ->
  what i = (name, n, r) -> list_find (fun p => p.1 = n) methods = Some (m, (n, f)) ->
  (SerializeToString r).1 = true ->
  f r (mk_call_state RpcController.make default false) = Ret c0 () -> done c0 = true ->
  RpcController.Failed (controller c0) = false ->
  if RpcController.Failed (Calls.controller c)
  then RpcController.ErrorText (Calls.controller c) ∈ RpcLocal.local_reasons
  else Calls.response c = Some (SerializeToString (resp c0)).2.
Proof.
  intros Hlen Hruns Hc Hsync Hret Hwhat Hfind Hser Hrun Hdone Hok.
  pose proof (RpcLocal.returned_call _ what syncs s i c Hlen Hruns Hc Hsync Hret) as Hcall.
  destruct (RpcController.Failed (Calls.controller c)).
  - destruct Hcall as [|(a & Ha & Hf & _)]; [done|exfalso].
    eapply method_call in Ha; [|done..]. rewrite Hok in Ha. destruct Ha. congruence.
  - destruct Hcall as (a & Ha & _ & ->). eapply method_call in Ha; [|done..]. rewrite Hok in Ha.
    by destruct Ha as [_ ->].
Qed.

End service.

End Service.

(** ** The calculator (example/calculator) *)

Module Calculator.
Import Service.

(** [double] *)
Abbreviation double := spec_float.
Definition prec : Z := 53.
Definition emax : Z := 1024.
Definition zero : double := S754_zero false.

Record CalcRequest := mk_calc_request { a : double; b : double }.
Record CalcResponse := mk_calc_response { result : double; error : string }.
Definition no_response : CalcResponse := mk_calc_response zero "".

#[export] Instance request_eq_dec : EqDecision CalcRequest.
Proof. unfold EqDecision. assert (EqDecision double) by solve_decision. solve_decision. Defined.
#[export] Instance response_eq_dec : EqDecision CalcResponse.
Proof. unfold EqDecision. assert (EqDecision double) by solve_decision. solve_decision. Defined.

Section code.
Abbreviation method := (Service.method (Req := CalcRequest) (Resp := CalcResponse)).
Definition set_result (x : double) : M (call_state CalcResponse) unit :=
  set_resp (fun r => mk_calc_response x (error r)).
Definition set_error (text : string) : M (call_state CalcResponse) unit :=
  set_resp (fun r => mk_calc_response (result r) text).

Definition Add : method := fun req => set_result (SFadd prec emax (a req) (b req)) ;; run_done.
Definition Sub : method := fun req => set_result (SFsub prec emax (a req) (b req)) ;; run_done.
Definition Mul : method := fun req => set_result (SFmul prec emax (a req) (b req)) ;; run_done.
Definition Div : method := fun req =>
  (if SFeqb (b req) zero then set_error "division by zero"
   else set_result (SFdiv prec emax (a req) (b req))) ;;
  run_done.

Definition methods : list (string * method) := [("Add", Add); ("Sub", Sub); ("Mul", Mul); ("Div", Div)]%string.

(** *** The client: [call(stub, op, a, b)] *)

Definition stub_method (op : string) : string :=
  if String.eqb op "Add" then "Add"
  else if String.eqb op "Sub" then "Sub"
  else if String.eqb op "Mul" then "Mul"
  else "Div".

(** What it prints, from its controller and its response. *)
Inductive report :=
| RpcError (text : string)
| Error (text : string)
| Result (x : double).
Definition print (ctrl : RpcController.t) (resp : CalcResponse) : report :=
  if RpcController.Failed ctrl then RpcError (RpcController.ErrorText ctrl)
  else if negb (String.eqb (error resp) "") then Error (error resp)
  else Result (result resp).

(** The arithmetic it stands for. *)
Definition calculate (op : string) (x y : double) : report :=
  if String.eqb op "Add" then Result (SFadd prec emax x y)
  else if String.eqb op "Sub" then Result (SFsub prec emax x y)
  else if String.eqb op "Mul" then Result (SFmul prec emax x y)
  else if SFeqb y zero then Error "division by zero"
  else Result (SFdiv prec emax x y).
Definition response_for (op : string) (x y : double) : CalcResponse :=
  match calculate op x y with
  | Result z => mk_calc_response z ""
  | Error text | RpcError text => mk_calc_response zero text
  end.

End code.

Section proofs.
Context {U : Type} `{MessageOk CalcRequest} `{MessageOk CalcResponse}.
Variable svc : RpcServer.Service U (message CalcRequest CalcResponse).
Context `{!Generated svc "example.CalcService" no_response methods}.

(** The response object of [call] after [CallMethod]. *)
Definition response_of (c : Calls.call) : CalcResponse :=
  match Calls.response c ≫= ParseFromString with Some r => r | None => no_response end.

Lemma stub_runs op x y : exists m f,
  list_find (fun p => p.1 = stub_method op) methods = Some (m, (stub_method op, f)) /\
  f (mk_calc_request x y) (mk_call_state RpcController.make no_response false) =
    Ret (mk_call_state RpcController.make (response_for op x y) true) ().
Proof.
  unfold stub_method, response_for, calculate.
  destruct (String.eqb op "Add"); [by exists 0%nat, Add|].
  destruct (String.eqb op "Sub"); [by exists 1%nat, Sub|].
  destruct (String.eqb op "Mul"); [by exists 2%nat, Mul|].
  exists 3%nat, Div. split; [done|]. unfold Div. simpl. by destruct (SFeqb y zero).
Qed.

Lemma print_response op x y : 
  (if negb (String.eqb (error (response_for op x y)) "") then Error (error (response_for op x y))
   else Result (result (response_for op x y))) = calculate op x y.
Proof. unfold response_for, calculate. by repeat case_match; simplify_eq. Qed.

(** The calculator calculates.  In any interleaving of the calls on a
    channel to a server that runs [CalcServiceImpl] and sends answers: when
    [call(stub, op, x, y)] returns, it prints an RPC error only for one of the
    client's own reasons, and otherwise the binary64 result of the operation
    or, exactly when the divisor equals zero, of either sign, the error. *)
Theorem calculator_calculates (what : nat -> string * string * CalcRequest) syncs s i c u op x y (Hlen : zlen syncs < 2 ^ 32 - 1)
    (Hruns : RpcLocal.answering_runs (main_services svc u) what syncs s)
    (Hc : Calls.calls s !! i = Some c) (Hsync : Calls.is_sync c = true)
    (Hret : Calls.pc c = Calls.CReturned)
    (Hwhat : what i = ("example.CalcService"%string, stub_method op, mk_calc_request x y))
    (Hreq : (SerializeToString (mk_calc_request x y)).1 = true)
    (Hresp : (SerializeToString (response_for op x y)).1 = true) :
  (exists reason, reason ∈ RpcLocal.local_reasons /\
     print (Calls.controller c) (response_of c) = RpcError reason) \/
  print (Calls.controller c) (response_of c) = calculate op x y.
Proof.
  destruct (stub_runs op x y) as (m & f & Hfind & Hrun).
  pose proof (remote_method svc _ _ _ Generated0 what syncs s i c _ m f _ _ u Hlen Hruns Hc Hsync Hret
    Hwhat Hfind Hreq Hrun eq_refl eq_refl) as Hcall.
  unfold print. destruct (RpcController.Failed (Calls.controller c)); [left; by eexists|right].
  unfold response_of. rewrite Hcall. simpl. simpl in Hcall.
  by rewrite (serialized_parses _ Hresp), print_response.
Qed.

End proofs.

(** Dividing by -0.0 is an error too; 0 / 0 is never computed; an operation the
    client does not know is a division. *)
Example negative_zero_is_zero : calculate "Div" zero (S754_zero true) = Error "division by zero".
Proof. by vm_compute. Qed.
Example unknown_is_division : stub_method "Pow" = "Div"%string.
Proof. by vm_compute. Qed.

(** *** 10 / 0, remotely *)

Module Demo.

Definition ten : double := S754_finite false 5629499534213120 (-49).
Definition div_request : CalcRequest := mk_calc_request ten zero.
Definition div_response : CalcResponse := mk_calc_response zero "division by zero".

#[export] Instance request_message : Message CalcRequest := {
  SerializeToString r := if decide (r = div_request) then (true, [Byte.x01]) else (false, []);
  ParseFromString bs := match bs with [Byte.x01] => Some div_request | _ => None end;
}.
#[export] Instance request_message_ok : MessageOk CalcRequest.
Proof. intros r bs. simpl. destruct (decide (r = div_request)) as [->|]; [by intros [= <-]|done]. Qed.

#[export] Instance response_message : Message CalcResponse := {
  SerializeToString r := if decide (r = div_response) then (true, [Byte.x02]) else (false, []);
  ParseFromString bs := match bs with [Byte.x02] => Some div_response | _ => None end;
}.
#[export] Instance response_message_ok : MessageOk CalcResponse.
Proof. intros r bs. simpl. destruct (decide (r = div_response)) as [->|]; [by intros [= <-]|done]. Qed.

Definition svc : RpcServer.Service unit (message CalcRequest CalcResponse) :=
  generate "example.CalcService" no_response methods.
Definition what (_ : nat) : string * string * CalcRequest :=
  ("example.CalcService"%string, stub_method "Div", div_request).

(** The server's answer, and the call when it has returned. *)
Definition answer : RpcResponse := mk_response 1 true [Byte.x02] "".
Definition the_call : Calls.call :=
  Calls.mk_call true Calls.CReturned RpcController.make (Some [Byte.x02]) true 0 (Some 1).

Lemma div_answers :
  RpcLocal.answering_runs (main_services svc ()) what [true] (RpcLocal.answered answer).
Proof.
  eapply (RpcLocal.one_answer _ _ RpcLocal.before_answer RpcLocal.after_answer answer _ RpcLocal.called);
    [reflexivity|vm_compute; reflexivity| |vm_compute; reflexivity|reflexivity|vm_compute; reflexivity].
  split; [by left|]. exists 0%nat. eexists. split; [vm_compute; reflexivity|]. split; [reflexivity|].
  by refine (RpcServer.answers_call _ _ svc 3%nat (ARequest div_request) () () RpcController.make
    (AResponse div_response) _ _ _ _).
Qed.

Lemma calculator_calculates_witness :
  (exists reason, reason ∈ RpcLocal.local_reasons /\
     print (Calls.controller the_call) (response_of the_call) = RpcError reason) \/
  print (Calls.controller the_call) (response_of the_call) = Error "division by zero".
Proof.
  apply (calculator_calculates svc what [true] (RpcLocal.answered answer) 0%nat the_call () "Div" ten zero).
  - vm_compute. reflexivity.
  - exact div_answers.
  - vm_compute. reflexivity.
  - reflexivity.
  - reflexivity.
  - reflexivity.
  - vm_compute. reflexivity.
  - vm_compute. reflexivity.
Defined.

End Demo.

End Calculator.

(** ** The greeter (example/hello) *)

Module Hello.
Import Service.

Record HelloRequest := mk_hello_request { name : string }.
Record HelloResponse := mk_hello_response { message : string }.
#[export] Instance hello_request_eq_dec : EqDecision HelloRequest.
Proof. solve_decision. Defined.
#[export] Instance hello_response_eq_dec : EqDecision HelloResponse.
Proof. solve_decision. Defined.
Definition no_response : HelloResponse := mk_hello_response "".

Abbreviation method := (Service.method (Req := HelloRequest) (Resp := HelloResponse)).
Definition set_message (text : string) : M (call_state HelloResponse) unit :=
  set_resp (fun _ => mk_hello_response text).

Definition SayHello : method := fun req => set_message ("Hello, " +:+ name req +:+ "!") ;; run_done.
Definition SayBye : method := fun req => set_message ("Goodbye, " +:+ name req +:+ "!") ;; run_done.
Definition methods : list (string * method) := [("SayHello", SayHello); ("SayBye", SayBye)]%string.

Section proofs.
Context {U : Type} `{MessageOk HelloRequest} `{MessageOk HelloResponse}.
Variable svc : RpcServer.Service U (Service.message HelloRequest HelloResponse).
Context `{!Generated svc "example.HelloService" no_response methods}.

(** What a method answers, and the response object of a client's call. *)
Definition reply (method who : string) : HelloResponse :=
  mk_hello_response ((if String.eqb method "SayHello" then "Hello, " else "Goodbye, ") +:+ who +:+ "!").
Definition response_of (c : Calls.call) : HelloResponse :=
  match Calls.response c ≫= ParseFromString with Some r => r | None => no_response end.

(** A remote call that the client does not give up gets the reply. *)
Lemma hello_replies (what : nat -> string * string * HelloRequest) syncs s i c u method who :
  zlen syncs < 2 ^ 32 - 1 -> RpcLocal.answering_runs (main_services svc u) what syncs s ->
  Calls.calls s !! i = Some c -> Calls.is_sync c = true -> Calls.pc c = Calls.CReturned ->
  method ∈ methods.*1 ->
  what i = ("example.HelloService"%string, method, mk_hello_request who) ->
  (SerializeToString (mk_hello_request who)).1 = true -> (SerializeToString (reply method who)).1 = true ->
  if RpcController.Failed (Calls.controller c)
  then RpcController.ErrorText (Calls.controller c) ∈ RpcLocal.local_reasons
  else response_of c = reply method who.
Proof.
  intros Hlen Hruns Hc Hsync Hret Hm Hwhat Hreq Hresp.
  assert (exists m f, list_find (fun p => p.1 = method) methods = Some (m, (method, f)) /\
    f (mk_hello_request who) (mk_call_state RpcController.make no_response false) =
      Ret (mk_call_state RpcController.make (reply method who) true) ()) as (m & f & Hfind & Hrun).
  { simpl in Hm. apply elem_of_cons in Hm as [->|Hm]; [by exists 0%nat, SayHello|].
    apply list_elem_of_singleton in Hm as ->. by exists 1%nat, SayBye. }
  pose proof (remote_method svc _ _ _ Generated0 what syncs s i c _ m f _ _ u Hlen Hruns Hc Hsync Hret
    Hwhat Hfind Hreq Hrun eq_refl eq_refl) as Hcall.
  destruct (RpcController.Failed (Calls.controller c)); [done|].
  unfold response_of. rewrite Hcall. simpl. simpl in Hcall. by rewrite (serialized_parses _ Hresp).
Qed.

End proofs.

End Hello.
