(* ===== verification/ExampleClients.v ===== *)
(** * The example clients (example/hello/hello_client.cpp,
    example/calculator/calc_client.cpp)

    [main] of both programs: the arguments, the proxy in the scope of the [try]
    block, the calls one after the other, the exit code.  The stub's calls are
    those of a run of RpcCalls.v against the service. *)

From Stdlib Require Import ZArith Lia Floats.SpecFloat.
From S2P Require Import Prelude CxxString Rpc RpcServer RpcChannel ServiceProxy RpcCalls RpcLocal RpcExamples.
Import Proto.
Local Open Scope Z_scope.

Lemma bind_unfold {S A B} (m : M S A) (f : A -> M S B) s :
  (m ≫= f) s = match m s with
    Ret s' x => f x s' | Throw s' e => Throw s' e | Ub why => Ub why | OutOfFuel => OutOfFuel end.
Proof. done. Qed.

(** ** What both programs share *)

Module Client.

Section code.
Context {Req Resp Report : Type}.

(** What a program prints: the outcome of a call, or the [catch] block's line. *)
Inductive line := Printed (r : Report) | ErrorLine (what : string).

(** The process, its proxies, its output, and how many calls it has made. *)
Record world := mk { system : ServiceProxy.world; output : list line; made : nat }.
Definition system_lens : Lens world ServiceProxy.world :=
  mkLens system (fun p w => mk p (output w) (made w)).
Definition print (l : line) : M world unit := modify (fun w => mk (system w) (output w ++ [l]) (made w)).

(** [e.what()] *)
Definition what (e : exn) : string :=
  match e with runtime_error t | invalid_argument t | out_of_range t | length_error t => t end.

(** [try { m } catch (const std::exception& e) { h }] *)
Definition try_catch {X} (m : M world X) (h : exn -> M world X) : M world X := fun w =>
  match m w with
  | Throw w' e => h e w'
  | r => r
  end.

(** The arguments, without the name of the program.  [std::stoi] is not under
    the [try]. *)
Definition host_of (args : list string) : string := default "127.0.0.1"%string (args !! 0%nat).
Definition port_of (standard : Z) (args : list string) : M world Z :=
  match args !! 1%nat with
  | Some arg => z ← Str.stoi arg; mret (u16 z)
  | None => mret standard
  end.

(** The stub's [CallMethod], for call [n]: what it leaves in the controller and
    the response; [None] when it never returns. *)
Variable performs : nat -> string -> Req -> option (RpcController.t * Resp).
Definition call_method (method : string) (req : Req) : M world (RpcController.t * Resp) := fun w =>
  match performs (made w) method req with
  | Some r => Ret (mk (system w) (output w) (S (made w))) r
  | None => OutOfFuel
  end.

(** [{ ServiceProxy<...> proxy(host, port); body }]: the proxy is destroyed at
    the end, and when [body] throws; [ended] tells that the reader thread has seen the end
    of the connection by then. *)
Definition with_proxy (host : string) (port : Z) (a : RpcChannel.answers) (ended : bool)
    (body : M world unit) : M world unit :=
  let leave := when ended (zoom system_lens (ServiceProxy.reader_ends 0)) ;;
    zoom system_lens (ServiceProxy.destroy 0) in
  zoom system_lens (ServiceProxy.construct 0 host port a) ;;
  try_catch body (fun e => leave ;; throw e) ;;
  leave.

(** [main(argc, argv)] *)
Definition main (standard : Z) (args : list string) (a : RpcChannel.answers) (ended : bool)
    (body : M world unit) : M world Z :=
  port ← port_of standard args;
  try_catch (with_proxy (host_of args) port a ended body ;; mret 0)
    (fun e => print (ErrorLine (what e)) ;; mret 1).

(** [proxy->] *)
Definition arrow : M world unit := zoom system_lens (ServiceProxy.deref 0) ;; mret ().

End code.
Arguments line Report : clear implicits.
Arguments world Report : clear implicits.

(** ** What [main] does, whatever its calls print *)

Section proofs.
Context {Report : Type}.
Abbreviation world := (world Report).
Abbreviation line := (line Report).

(** [body], started when [n] calls have been made, runs through with a live
    proxy: it prints [ls], and then [n'] calls have been made. *)
Definition prints (n : nat) (body : M world unit) (ls : list line) (n' : nat) : Prop :=
  forall w c, ServiceProxy.proxies (system w) !! 0%nat = Some (Some c : ServiceProxy.t) -> made w = n ->
    body w = Ret (mk (system w) (output w ++ ls) n') ().

Lemma prints_seq n body1 ls1 n1 body2 ls2 n2 :
  prints n body1 ls1 n1 -> prints n1 body2 ls2 n2 -> prints n (body1 ;; body2) (ls1 ++ ls2) n2.
Proof.
  intros H1 H2 w c Hc Hn. rewrite bind_unfold, (H1 w c Hc Hn), (H2 (mk _ _ n1) c Hc eq_refl). simpl.
  by rewrite app_assoc.
Qed.

Lemma arrow_prints n : prints n arrow [] n.
Proof.
  intros w c Hc Hn. unfold arrow, ServiceProxy.deref, ServiceProxy.proxy, zoom, mbind, M_bind. simpl.
  rewrite Hc, app_nil_r, <- Hn. by destruct w.
Qed.

(** The outcome of [main]: an exception of [stoi] escapes; a proxy that
    cannot connect is reported and leaves no socket; otherwise the calls are printed and the
    socket is closed, unless the reader gave it up. *)
Definition main_outcome (standard : Z) (args : list string) (a : RpcChannel.answers) (ended : bool)
    (ls : list line) (w : world) (o : outcome world Z) : Prop :=
  match port_of standard args w with
  | Ret _ port =>
      (o = Ret (mk (system w) (output w ++ [ErrorLine ("RpcChannel: connect failed to " +:+ host_of args
         +:+ ":" +:+ Str.to_string port)]) 0) 1 /\
       ServiceProxy.construct 0 (host_of args) port a (system w) = Throw (system w) (runtime_error
         ("RpcChannel: connect failed to " +:+ host_of args +:+ ":" +:+ Str.to_string port))) \/
      exists sys n, o = Ret (mk sys (output w ++ ls) n) 0 /\
        ServiceProxy.proxies sys = ∅ /\
        ServiceProxy.fds sys =
          if ended then {[RpcChannel.socket_ret a]} ∪ ServiceProxy.fds (system w) else ServiceProxy.fds (system w)
  | Throw w' e => o = Throw w' e /\ w' = w
  | _ => False
  end.

Lemma port_of_keeps standard args (w : world) :
  match port_of standard args w with Ret w' _ | Throw w' _ => w' = w | _ => False end.
Proof.
  unfold port_of, Str.stoi. destruct (args !! 1%nat) as [arg|]; [|done].
  destruct (Str.read_int arg) as [z|]; [|done]. unfold mbind, M_bind. by destruct (_ && _).
Qed.

Lemma construct_cases host port a (s : ServiceProxy.world) :
  RpcChannel.socket_ret a ∉ ServiceProxy.fds s ->
  ServiceProxy.construct 0 host port a s = Throw s (runtime_error
    ("RpcChannel: connect failed to " +:+ host +:+ ":" +:+ Str.to_string port)) \/
  ServiceProxy.construct 0 host port a s =
    Ret (ServiceProxy.mk (<[0%nat := Some (ServiceProxy.mk_channel (RpcChannel.socket_ret a) true)]>
      (ServiceProxy.proxies s)) ({[RpcChannel.socket_ret a]} ∪ ServiceProxy.fds s)) ().
Proof.
  intros Hf. pose proof (ServiceProxy.connect_wp a s Hf) as Hc.
  apply wp_ret_inv in Hc as ([m fds] & [[fd c] ok] & Heq & Hcn & Hpr & Hr). simpl in *.
  unfold ServiceProxy.construct, mbind, M_bind. rewrite Heq. destruct ok.
  - right. destruct Hr as [-> ->]. by subst c m.
  - left. rewrite ServiceProxy.destroy_channel_eq. simpl. subst c m fds.
    rewrite difference_empty_L. by destruct s.
Qed.

Lemma main_runs standard args a ended body ls n (w : world) :
  prints 0 body ls n -> made w = 0%nat -> ServiceProxy.proxies (system w) = ∅ ->
  RpcChannel.socket_ret a ∉ ServiceProxy.fds (system w) ->
  main_outcome standard args a ended ls w (main standard args a ended body w).
Proof.
  intros Hbody Hmade Hnone Hf. unfold main_outcome, main.
  pose proof (port_of_keeps standard args w) as Hport. rewrite bind_unfold.
  destruct (port_of standard args w) as [w' port|w' e| |]; [rewrite Hport; clear Hport w'|by split|done|done].
  destruct w as [[m fds] out k]. simpl in *. subst m k.
  destruct (construct_cases (host_of args) port a (ServiceProxy.mk ∅ fds) Hf) as [Hc|Hc]; [left|right].
  - split; [|exact Hc]. unfold try_catch, with_proxy, mbind, M_bind, zoom. simpl. by rewrite Hc.
  - set (s1 := ServiceProxy.mk (<[0%nat := _]> _) _) in Hc.
    pose proof (Hbody (mk s1 out 0) (ServiceProxy.mk_channel (RpcChannel.socket_ret a) true)
      (lookup_insert_eq _ _ _) eq_refl) as Hn.
    assert (with_proxy (host_of args) port a ended body (mk (ServiceProxy.mk ∅ fds) out 0) =
      Ret (mk (ServiceProxy.mk ∅ (if ended then {[RpcChannel.socket_ret a]} ∪ fds else fds)) (out ++ ls) n) ()) as Hw.
    { unfold with_proxy, mbind, M_bind, zoom. simpl. rewrite Hc. unfold try_catch. simpl in *. rewrite Hn. simpl.
      unfold ServiceProxy.destroy, ServiceProxy.proxy, mbind, M_bind.
      assert (({[RpcChannel.socket_ret a]} ∪ fds) ∖ {[RpcChannel.socket_ret a]} = fds) as Hset by set_solver.
      destruct ended; unfold when; simpl.
      - unfold ServiceProxy.reader_ends, ServiceProxy.proxy, mbind, M_bind. simpl.
        rewrite lookup_insert_eq. simpl. rewrite lookup_insert_eq, ServiceProxy.disconnect_eq. cbn [fst].
        rewrite ServiceProxy.destroy_channel_eq. simpl. unfold ServiceProxy.set_proxies. simpl.
        rewrite !difference_empty_L, insert_insert_eq, delete_insert_id; [done|apply lookup_empty].
      - rewrite lookup_insert_eq. rewrite ServiceProxy.disconnect_eq. cbn [fst].
        rewrite ServiceProxy.destroy_channel_eq. simpl. unfold ServiceProxy.set_proxies. simpl.
        rewrite Hset, difference_empty_L, delete_insert_id; [done|apply lookup_empty]. }
    unfold try_catch, mbind, M_bind. rewrite Hw. eexists _, n. split; [done|]. by destruct ended.
Qed.

End proofs.

(** ** The stub, over a run of the calls on the proxy's channel *)

Section stub.
Context {Req Resp : Type} `{EqDecision Req}.
Variable service : string.
Variable what : nat -> string * string * Req.
Variable response_of : Calls.call -> Resp.
Variable s : Calls.state.

(** What call [i] has left when it has returned; call [i] is the one that
    [what] says. *)
Definition stub (i : nat) (method : string) (req : Req) : option (RpcController.t * Resp) :=
  if decide (what i = (service, method, req)) then
    c ← Calls.calls s !! i;
    match Calls.pc c with
    | Calls.CReturned => Some (Calls.controller c, response_of c)
    | _ => None
    end
  else None.

Lemma stub_returned i method req c :
  what i = (service, method, req) -> Calls.calls s !! i = Some c -> Calls.pc c = Calls.CReturned ->
  stub i method req = Some (Calls.controller c, response_of c).
Proof. intros Hw Hc Hpc. unfold stub. rewrite decide_True, Hc by done. simpl. by rewrite Hpc. Qed.

(** Every call of a run is there, and synchronous. *)
Lemma sync_calls {U Msg} `{Message Msg} `{Message Req} (services : gmap string (RpcServer.Service U Msg)) n i :
  RpcLocal.answering_runs services what (replicate n true) s -> (i < n)%nat ->
  exists c, Calls.calls s !! i = Some c /\ Calls.is_sync c = true.
Proof.
  intros Hruns Hi. pose proof (RpcLocal.answering_runs_syncs _ _ _ _ Hruns) as Hs.
  assert ((Calls.is_sync <$> Calls.calls s) !! i = Some true) as Hl by (rewrite Hs; by apply lookup_replicate_2).
  apply list_lookup_fmap_Some in Hl as (c & Hc & Hl). by exists c.
Qed.
End stub.
End Client.

(** ** The calculator's client *)

Module CalcClient.
Import Service Calculator.

(** A line of output: the operation, its operands and what came of it. *)
Definition entry : Type := string * double * double * report.

Section code.
Variable performs : nat -> string -> CalcRequest -> option (RpcController.t * CalcResponse).

(** [call(stub, op, a, b)] *)
Definition call (op : string) (x y : double) : M (Client.world entry) unit :=
  r ← Client.call_method performs (stub_method op) (mk_calc_request x y);
  Client.print (Client.Printed (op, x, y, print (fst r) (snd r))).

Definition ten : double := S754_finite false 5629499534213120 (-49).
Definition three : double := S754_finite false 6755399441055744 (-51).

Definition body : M (Client.world entry) unit :=
  Client.arrow ;;
  call "Add" ten three ;;
  call "Sub" ten three ;;
  call "Mul" ten three ;;
  call "Div" ten three ;;
  call "Div" ten zero.
Definition main : list string -> RpcChannel.answers -> bool -> M (Client.world entry) Z :=
  fun args a ended => Client.main 9091 args a ended body.
End code.

(** What the program calculates. *)
Definition script : list (string * double * double) :=
  [("Add", ten, three); ("Sub", ten, three); ("Mul", ten, three); ("Div", ten, three); ("Div", ten, zero)]%string.
Definition what (i : nat) : string * string * CalcRequest :=
  let '(op, x, y) := nth i script ("Div"%string, zero, zero) in
  ("example.CalcService"%string, stub_method op, mk_calc_request x y).


Section proofs.
Context {U : Type} `{MessageOk CalcRequest} `{MessageOk CalcResponse}.
Variable svc : RpcServer.Service U (message CalcRequest CalcResponse).
Context `{!Generated svc "example.CalcService" no_response methods}.
Variables (u : U) (s : Calls.state).
Abbreviation stub := (Client.stub "example.CalcService" what response_of s).

Hypothesis Hruns : RpcLocal.answering_runs (main_services svc u) what (replicate (length script) true) s.
Hypothesis Hret : forall c, c ∈ Calls.calls s -> Calls.pc c = Calls.CReturned.
Hypothesis Hser : forall op x y, (op, x, y) ∈ script ->
  (SerializeToString (mk_calc_request x y)).1 = true /\ (SerializeToString (response_for op x y)).1 = true.

(** A report that the program may print for a calculation. *)
Definition right_for (op : string) (x y : double) (r : report) : Prop :=
  (exists reason, reason ∈ RpcLocal.local_reasons /\ r = RpcError reason) \/ r = calculate op x y.

(** One line of output is one calculation. *)
Lemma call_prints i op x y :
  script !! i = Some (op, x, y) ->
  exists r, right_for op x y r /\
    Client.prints i (call stub op x y) [Client.Printed (op, x, y, r)] (S i).
Proof.
  intros Hi. assert (what i = ("example.CalcService"%string, stub_method op, mk_calc_request x y)) as Hwhat.
  { unfold what. by rewrite (nth_lookup_Some _ _ _ _ Hi). }
  destruct (Client.sync_calls what s _ _ i Hruns (lookup_lt_Some _ _ _ Hi)) as (c & Hc & Hsync).
  pose proof (Hret c (list_elem_of_lookup_2 _ _ _ Hc)) as Hpc.
  destruct (Hser op x y (list_elem_of_lookup_2 _ _ _ Hi)) as [Hreq Hresp].
  exists (print (Calls.controller c) (response_of c)). split.
  - refine (calculator_calculates svc what _ s i c u op x y _ Hruns Hc Hsync Hpc Hwhat Hreq Hresp). by vm_compute.
  - intros w ch _ Hm. unfold call. rewrite bind_unfold. unfold Client.call_method.
    rewrite (Client.stub_returned "example.CalcService" what response_of s (Client.made w) _ _ c) by by rewrite ?Hm.
    by subst i.
Qed.


End proofs.

(** *** Five answers *)

Module Demo.

(** Messages that serialize to their place in a table. *)
Section table.
Context {A : Type} `{EqDecision A} (table : list A).
Definition table_message : Message A := {|
  SerializeToString m :=
    match list_find (eq m) table with
    | Some (i, _) => (true, replicate i Byte.x00)
    | None => (false, [])
    end;
  ParseFromString bs := table !! length bs;
|}.
Lemma table_message_ok : @MessageOk A table_message.
Proof.
  intros m bs. simpl. destruct (list_find (eq m) table) as [[i m']|] eqn:Hi; [|done].
  intros [= <-]. apply list_find_Some in Hi as (Hi & -> & _). by rewrite length_replicate.
Qed.
End table.

#[local] Instance request_message : Message CalcRequest :=
  table_message [mk_calc_request ten three; mk_calc_request ten zero].
#[local] Instance request_message_ok : MessageOk CalcRequest := table_message_ok _.
#[local] Instance response_message : Message CalcResponse :=
  table_message ((fun '(op, x, y) => response_for op x y) <$> script).
#[local] Instance response_message_ok : MessageOk CalcResponse := table_message_ok _.

Definition svc : RpcServer.Service unit (message CalcRequest CalcResponse) :=
  generate "example.CalcService" no_response methods.

(** Call [i], its answer, and how it is received. *)
Definition answer (i : nat) : RpcResponse :=
  let '(op, x, y) := nth i script ("Div"%string, zero, zero) in
  RpcServer.make_response (Z.of_nat i + 1) RpcController.make (AResponse (Req := CalcRequest) (response_for op x y)).
Definition asking (i : nat) : list Calls.action :=
  Calls.whole_call i ++ [Calls.Reader Calls.Go; Calls.Reader Calls.Data].
Definition answered (i : nat) : list Calls.action :=
  replicate 3 (Calls.Reader Calls.Go) ++ [Calls.Reader Calls.NoMore; Calls.Caller i true].
Definition after (i : nat) (s : Calls.state) : Calls.state :=
  default s (s1 ← Calls.run (asking i) s; s2 ← Calls.reader_step (Calls.AFrame (Some (answer i))) s1;
    Calls.run (answered i) s2).
Definition syncs : list bool := replicate (length script) true.
Definition all_answered : Calls.state := after 4 (after 3 (after 2 (after 1 (after 0 (Calls.init syncs))))).

(** The server's answers. *)
Lemma answers_ok i :
  (i < 5)%nat -> RpcServer.answers (main_services svc ()) (RpcLocal.request_of what i (Z.of_nat i + 1)) (answer i).
Proof.
  intros Hi. destruct (lookup_lt_is_Some_2 script i) as [[[op x] y] Hs]; [done|].
  destruct (stub_runs op x y) as (m & f & Hfind & Hrun).
  unfold answer. rewrite (nth_lookup_Some _ _ _ _ Hs).
  apply (method_answers svc _ _ _ (generate_generated _ _ _) what i (stub_method op) m f (mk_calc_request x y)
    (mk_call_state RpcController.make (response_for op x y) true)); [|done| |done|done].
  - unfold what. by rewrite (nth_lookup_Some _ _ _ _ Hs).
  - destruct i as [|[|[|[|[|i]]]]]; simpl in Hs; simplify_eq; by vm_compute.
Qed.

(** One call, from asking to answered. *)
Lemma after_runs i s1 s2 s3 s c :
  (i < 5)%nat -> Calls.run (asking i) s1 = Some s2 ->
  Calls.reader_step (Calls.AFrame (Some (answer i))) s2 = Some s3 -> Calls.run (answered i) s3 = Some s ->
  Calls.calls s2 !! i = Some c -> Calls.the_id c = Some (response_id (answer i)) ->
  response_id (answer i) = Z.of_nat i + 1 -> response_id (answer i) ∈ Calls.sent s2 ->
  rtc (RpcLocal.answering_step (main_services svc ()) what) s1 s.
Proof.
  intros Hi H1 Hr H2 Hc Hid Hn Hin.
  eapply (RpcLocal.one_answer _ _ (asking i) (answered i) (answer i)); [|exact H1| |exact Hr| |exact H2].
  - destruct i as [|[|[|[|[|i]]]]]; [reflexivity..|lia].
  - split; [done|]. exists i, c. split_and!; [done..|]. rewrite Hn. by apply answers_ok.
  - by destruct i as [|[|[|[|[|i]]]]].
Qed.

(** A call that goes through, by evaluation. *)
Definition goes_through (i : nat) (s : Calls.state) : bool :=
  match Calls.run (asking i) s with
  | None => false
  | Some s2 =>
      match Calls.reader_step (Calls.AFrame (Some (answer i))) s2, Calls.calls s2 !! i with
      | Some s3, Some c =>
          bool_decide (is_Some (Calls.run (answered i) s3) /\ Calls.the_id c = Some (response_id (answer i)) /\
            response_id (answer i) = Z.of_nat i + 1 /\ response_id (answer i) ∈ Calls.sent s2)
      | _, _ => false
      end
  end.
Lemma step_of i s :
  (i < 5)%nat -> goes_through i s = true ->
  rtc (RpcLocal.answering_step (main_services svc ()) what) s (after i s).
Proof.
  intros Hi. unfold after, goes_through. destruct (Calls.run (asking i) s) as [s2|] eqn:H1; [|done]. simpl.
  destruct (Calls.reader_step _ s2) as [s3|] eqn:Hr; [|done]. simpl.
  destruct (Calls.calls s2 !! i) as [c|] eqn:Hc; [|done].
  intros ([s' H2] & Hid & Hn & Hin)%bool_decide_eq_true. rewrite H2. by eapply (after_runs i s s2 s3 s' c).
Qed.

Lemma all_answered_runs : RpcLocal.answering_runs (main_services svc ()) what syncs all_answered.
Proof.
  unfold RpcLocal.answering_runs, all_answered.
  do 4 (etrans; [|apply step_of; [lia|vm_compute; reflexivity]]). apply step_of; [lia|vm_compute; reflexivity].
Qed.

Definition start : Client.world entry := Client.mk ServiceProxy.nothing [] 0.
Definition performs := Client.stub "example.CalcService" what response_of all_answered.

(** 10 / 3, rounded to binary64. *)
Definition ten_thirds : double := S754_finite false 7505999378950827 (-51).

(** The program prints 13, 7, 30, 3.33 and the error, and leaves nothing open. *)
Example prints_results :
  match main performs [] ServiceProxy.succeeds false start with
  | Ret w code => code = 0 /\ Client.system w = ServiceProxy.nothing /\
      exists thirteen seven thirty, Client.output w = Client.Printed <$>
        [("Add", ten, three, Result thirteen); ("Sub", ten, three, Result seven); ("Mul", ten, three, Result thirty);
         ("Div", ten, three, Result ten_thirds); ("Div", ten, zero, Error "division by zero")]%string
  | _ => False
  end.
Proof. vm_compute. split_and!; [done..|]. do 3 eexists. reflexivity. Qed.


End Demo.

End CalcClient.

(** ** The greeter's client *)

Module HelloClient.
Import Service Hello.

(** What a block prints: "RPC failed: ", or the method and its message. *)
Inductive report := RpcFailed (text : string) | Said (method text : string).

Section code.
Variable performs : nat -> string -> HelloRequest -> option (RpcController.t * HelloResponse).

(** The block of a method. *)
Definition say (method : string) : M (Client.world report) unit :=
  Client.arrow ;;
  r ← Client.call_method performs method (mk_hello_request "World");
  Client.print (Client.Printed (
    if RpcController.Failed (fst r) then RpcFailed (RpcController.ErrorText (fst r))
    else Said method (Hello.message (snd r)))).

Definition body : M (Client.world report) unit := say "SayHello" ;; say "SayBye".
Definition main : list string -> RpcChannel.answers -> bool -> M (Client.world report) Z :=
  fun args a ended => Client.main 9090 args a ended body.
End code.

(** The calls of the program. *)
Definition script : list string := ["SayHello"; "SayBye"]%string.
Definition what (i : nat) : string * string * HelloRequest :=
  ("example.HelloService"%string, nth i script "SayBye"%string, mk_hello_request "World").

Section proofs.
Context {U : Type} `{MessageOk HelloRequest} `{MessageOk HelloResponse}.
Variable svc : RpcServer.Service U (Service.message HelloRequest HelloResponse).
Context `{!Generated svc "example.HelloService" no_response methods}.
Variables (u : U) (s : Calls.state).
Abbreviation stub := (Client.stub "example.HelloService" what response_of s).

Hypothesis Hruns : RpcLocal.answering_runs (main_services svc u) what (replicate (length script) true) s.
Hypothesis Hret : forall c, c ∈ Calls.calls s -> Calls.pc c = Calls.CReturned.
Hypothesis Hreq : (SerializeToString (mk_hello_request "World")).1 = true.
Hypothesis Hresp : forall method, method ∈ script -> (SerializeToString (reply method "World")).1 = true.

(** A report that the program may print for a method. *)
Definition right_for (method : string) (r : report) : Prop :=
  (exists reason, reason ∈ RpcLocal.local_reasons /\ r = RpcFailed reason) \/
  r = Said method (Hello.message (reply method "World")).

Lemma say_prints i method :
  script !! i = Some method ->
  exists r, right_for method r /\ Client.prints i (say stub method) [Client.Printed r] (S i).
Proof.
  intros Hi. assert (what i = ("example.HelloService"%string, method, mk_hello_request "World")) as Hwhat.
  { unfold what. by rewrite (nth_lookup_Some _ _ _ _ Hi). }
  destruct (Client.sync_calls what s _ _ i Hruns (lookup_lt_Some _ _ _ Hi)) as (c & Hc & Hsync).
  pose proof (Hret c (list_elem_of_lookup_2 _ _ _ Hc)) as Hpc.
  assert (method ∈ script) as Hm by by apply (list_elem_of_lookup_2 _ i).
  assert (zlen (replicate (length script) true) < 2 ^ 32 - 1) as Hlen by by vm_compute.
  pose proof (hello_replies svc what _ s i c u method "World" Hlen Hruns Hc Hsync Hpc Hm Hwhat Hreq
    (Hresp method Hm)) as Hreply.
  eexists. split; [|eapply (Client.prints_seq i _ [] i); [apply Client.arrow_prints|]].
  2:{ intros w ch _ Hn. rewrite bind_unfold. unfold Client.call_method.
      rewrite (Client.stub_returned "example.HelloService" what response_of s (Client.made w) _ _ c)
        by by rewrite ?Hn.
      by subst i. }
  simpl. unfold right_for. destruct (RpcController.Failed (Calls.controller c)); [left; by eexists|right].
  by rewrite Hreply.
Qed.

(** The greeter's client, as a program: like the calculator's, with the two
    replies to "World". *)
Lemma hello_client_main args a ended (w : Client.world report) :
  Client.made w = 0%nat -> ServiceProxy.proxies (Client.system w) = ∅ ->
  RpcChannel.socket_ret a ∉ ServiceProxy.fds (Client.system w) ->
  exists reports, Forall2 right_for script reports /\
    Client.main_outcome 9090 args a ended (Client.Printed <$> reports) w (main stub args a ended w).
Proof.
  destruct (say_prints 0 "SayHello" eq_refl) as (r0 & C0 & P0).
  destruct (say_prints 1 "SayBye" eq_refl) as (r1 & C1 & P1).
  exists [r0; r1]. split; [repeat (apply Forall2_cons_2; [done|]); apply Forall2_nil_2|].
  apply (Client.main_runs 9090 args a ended _ _ 2); [|done..].
  by eapply (Client.prints_seq 0 _ [_] 1).
Qed.

End proofs.

(** A port is reduced to 16 bits, and a port that is no number ends the program. *)
Definition nothing : Client.world report := Client.mk ServiceProxy.nothing [] 0.
Definition silent : nat -> string -> HelloRequest -> option (RpcController.t * HelloResponse) :=
  fun _ _ _ => None.

Example port_wraps_around :
  match main silent ["localhost"; "74626"]%string ServiceProxy.times_out false nothing with
  | Ret w code => code = 1 /\
      Client.output w = [Client.ErrorLine "RpcChannel: connect failed to localhost:9090"]
  | _ => False
  end.
Proof. split; by vm_compute. Qed.

Example bad_port_is_not_caught :
  main silent ["localhost"; "http"]%string ServiceProxy.times_out false nothing =
    Throw nothing (invalid_argument "stoi").
Proof. by vm_compute. Qed.

End HelloClient.
