(* ===== verification/ServerMain.v ===== *)
(** * The example servers (src/example/hello/hello_server.cpp,
    src/example/calculator/calc_server.cpp)

    [main] of both programs: [RpcServer] on its port with four workers, one
    service, [start()].  From the descriptors that the process starts with, the
    program serves and never ends, and what it sends is a function of what it
    has received, which [respond] computes. *)

From Stdlib Require Import ZArith Lia.
From S2P Require Import Prelude Cxx NetBuffer Codec Channel EpollPoller EventLoop TcpConnection TcpServer.
From S2P Require Import TcpOwner Rpc RpcServer RpcSystem RpcServe RpcLife RpcResources RpcExamples.
Import Proto.
Local Open Scope Z_scope.

(** ** What both programs share *)

Module Serving.
Import RpcServe.
#[local] Existing Instance Service.message_message.

Section code.
Context {K U Msg : Type} `{Socket K} `{Message RpcRequest} `{Message RpcResponse} `{Message Msg}.
Abbreviation rpc := (RpcServer.t (Conn := Z) (U := U) (Msg := Msg) (N := history)).
Abbreviation config := (TcpServer.config (K := K) (A := rpc) (G := RpcResponse)).
Variable host : Wire.endian.

(** [server.register_service(&service)], before [start()] *)
Definition register (service : RpcServer.Service U Msg) (c : config) : M (gset Z) config := fun fds =>
  match perform host (Register service) c with
  | Ret c' _ => Ret fds c'
  | Throw _ e => Throw fds e
  | Ub why => Ub why
  | OutOfFuel => OutOfFuel
  end.

(** [main] up to [server.start()], which is next; the service is stateless but
    for [u].  [a] and [spawn] are the system's answers. *)
Definition main (wakeup_ch : EpollPoller.ptr) (a : RpcResources.answers) (u : U) (spawn : nat -> bool)
    (port : string) (service : RpcServer.Service U Msg) : M (gset Z) (config * RpcLife.pc) :=
  sc ← RpcResources.construct wakeup_ch port a u 4 spawn;
  c ← register service (sc.1, []);
  mret (c, RpcLife.PStart).

(** Nobody calls [quit()] or [register_service()] any more: the thread in
    [start()] and the workers. *)
Definition step (rest : TcpServer.others) (x y : config * RpcLife.pc) : Prop :=
  RpcLife.loop_step host rest x y \/ exists i, RpcLife.other_step host rest (Work i) x y.

End code.

(** ** What the program is to do *)

Section spec.
Context {K U Msg : Type} `{Socket K} `{Message RpcRequest} `{Message RpcResponse} `{Message Msg}.
Abbreviation rpc := (RpcServer.t (Conn := Z) (U := U) (Msg := Msg) (N := history)).
Abbreviation config := (TcpServer.config (K := K) (A := rpc) (G := RpcResponse)).
Variables (host : Wire.endian) (rest : TcpServer.others).
Implicit Types y : config * RpcLife.pc.

(** The server, the requests that arrived, the responses that wait for the loop
    and those given to [Codec::send], with their connections; the wake-ups that
    wait for the thread. *)
Abbreviation app y := (TcpServer.app y.1.1).
Definition requests y : list (Z * RpcRequest) := RpcServer.requests (frames (RpcServer.net (app y))).
Definition queued y : list (Z * RpcResponse) := (TcpOwner.view y.1.1).2.
Definition sent y : list (Z * RpcResponse) := responses (RpcServer.net (app y)).
Definition wakeups y : Z := EventLoop.eventfd (TcpServer.loop_ y.1.1).

(** The thread waits in [epoll_wait]: there is nothing to wake it. *)
Definition asleep y : Prop := y.2 = RpcLife.PTest /\ wakeups y = 0.

(** It goes on, and so does every worker that finds a task; what was sent and
    what waits are the replies to the requests that no task waits for; and
    when it sleeps with no task left, every request has been replied to. *)
Record serves (reply : RpcRequest -> RpcResponse) y : Prop := {
  sv_goes : exists z, RpcLife.loop_step host rest y z;
  sv_works : forall i tk, RpcServer.tasks (app y) !! i = Some tk ->
    exists z, RpcLife.other_step host rest (Work i) y z;
  sv_replies : exists waiting finished, requests y ≡ₚ waiting ++ finished /\
    length waiting = length (RpcServer.tasks (app y)) /\
    sent y ++ queued y = (fun cr => (cr.1, reply cr.2)) <$> finished;
  sv_asleep : asleep y -> RpcServer.tasks (app y) = [] ->
    sent y ≡ₚ (fun cr => (cr.1, reply cr.2)) <$> requests y;
}.

(** In every state that the program reaches from [x] by its own threads. *)
Definition always_serves (reply : RpcRequest -> RpcResponse) (x : config * RpcLife.pc) : Prop :=
  forall y, rtc (step host rest) x y ->
    y.2 <> RpcLife.PReturned /\
    (serves reply y \/ y.2 = RpcLife.PThrew (length_error "vector::_M_default_append")).

End spec.

(** ** What a stateless service answers *)

Section respond.
Context {Req Resp : Type} `{Message Req} `{Message Resp}.
Variables (name : string) (has : string -> bool) (out : string -> Req -> Resp).

(** The response to a request, when [out] is what the methods compute. *)
Definition respond (req : RpcRequest) : RpcResponse :=
  if negb (String.eqb (service_name req) name)
  then RpcServer.error_response (request_id req) ("service not found: " +:+ service_name req)
  else if negb (has (method_name req))
  then RpcServer.error_response (request_id req) ("method not found: " +:+ method_name req)
  else match ParseFromString (args_data req) with
  | None => RpcServer.error_response (request_id req) "failed to parse request args"
  | Some r => mk_response (request_id req) true (SerializeToString (out (method_name req) r)).2 ""
  end.
End respond.

Section proofs.
Context {U Req Resp : Type} `{Message Req} `{Message Resp}.
Variables (svc : RpcServer.Service U (Service.message Req Resp)) (name : string) (default : Resp).
Variable methods : list (string * Service.method (Req := Req) (Resp := Resp)).
Context `{Hgen : !Service.Generated svc name default methods}.

(** Every method computes [out] and runs [done], without failing. *)
Variable out : string -> Req -> Resp.
Definition computes : Prop := forall n f r, (n, f) ∈ methods ->
  f r (Service.mk_call_state RpcController.make default false) =
    Ret (Service.mk_call_state RpcController.make (out n r) true) ().
Hypothesis methods_compute : computes.

Definition declared (n : string) : bool := bool_decide (n ∈ methods.*1).

Lemma found n m : RpcServer.FindMethodByName svc n = Some m -> exists f, methods !! m = Some (n, f).
Proof.
  rewrite (Service.gen_find (Generated := Hgen)). intros ([m' [n' f]] & Hfind & ->)%fmap_Some.
  apply list_find_Some in Hfind as (Hm & Hn & _). simpl in Hn. subst n'. by exists f.
Qed.

Lemma not_found n : RpcServer.FindMethodByName svc n = None -> declared n = false.
Proof.
  rewrite (Service.gen_find (Generated := Hgen)). intros Hfind%fmap_None.
  apply bool_decide_eq_false. intros ((n' & f) & -> & Hin)%list_elem_of_fmap.
  apply list_find_None in Hfind. rewrite Forall_forall in Hfind. by apply (Hfind _ Hin).
Qed.

Lemma call_runs n m f r u :
  methods !! m = Some (n, f) ->
  RpcServer.CallMethod svc m (Service.ARequest r) u =
    Ret u (Some (RpcController.make, Service.AResponse (out n r))).
Proof.
  intros Hm. rewrite (Service.gen_call (Generated := Hgen) _ _ _ _ _ Hm). unfold Service.invoke.
  by rewrite (methods_compute n f r) by by eapply list_elem_of_lookup_2.
Qed.

(** The table of the services, after its registration. *)
Definition table : gmap string (RpcServer.Service U (Service.message Req Resp)) := {[name := svc]}.

(** So it completes its calls, and its answers are those of [respond]. *)
Lemma service_completes : completes svc.
Proof.
  intros n m args req Hm Hargs u. destruct (found n m Hm) as [f Hmth].
  rewrite (Service.gen_parse (Generated := Hgen)) in Hargs by by eexists.
  apply fmap_Some in Hargs as (r & _ & ->).
  unfold wp, wpe. by rewrite (call_runs _ _ _ _ _ Hmth).
Qed.

Lemma answers_respond req resp :
  RpcServer.answers table req resp -> resp = respond name declared out req.
Proof.
  intros Ha. unfold respond.
  assert (forall svc', table !! service_name req = Some svc' ->
    svc' = svc /\ String.eqb (service_name req) name = true) as Hsvc.
  { unfold table. intros svc' [<- <-]%lookup_singleton_Some. split; [done|apply String.eqb_refl]. }
  assert (forall m, RpcServer.FindMethodByName svc (method_name req) = Some m ->
    declared (method_name req) = true) as Hdecl.
  { intros m (f & Hm)%found. apply bool_decide_eq_true, list_elem_of_fmap. exists (method_name req, f).
    split; [done|]. by eapply list_elem_of_lookup_2. }
  destruct Ha as [Hs|svc' Hs Hm|svc' m Hs Hm Hp|svc' m args u u' ctl r Hs Hm Hp Hc].
  - unfold table in Hs. apply lookup_singleton_None in Hs. by destruct (String.eqb_spec (service_name req) name).
  - apply Hsvc in Hs as [-> ->]. by rewrite (not_found _ Hm).
  - apply Hsvc in Hs as [-> ->]. rewrite (Hdecl m Hm). destruct (found _ _ Hm) as [f Hmth].
    rewrite (Service.gen_parse (Generated := Hgen)) in Hp by by eexists.
    apply fmap_None in Hp. by rewrite Hp.
  - apply Hsvc in Hs as [-> ->]. rewrite (Hdecl m Hm). destruct (found _ _ Hm) as [f Hmth].
    rewrite (Service.gen_parse (Generated := Hgen)) in Hp by by eexists.
    apply fmap_Some in Hp as (arg & -> & ->). rewrite (call_runs _ _ _ _ _ Hmth) in Hc.
    by injection Hc as _ <- <-.
Qed.

End proofs.

(** ** Runs of the program *)

Section runs.
Context {K U Req Resp : Type} `{SocketOk K} `{Message RpcRequest} `{Message RpcResponse}.
Context `{Message Req} `{Message Resp}.
Abbreviation Msg := (Service.message Req Resp).
Abbreviation rpc := (RpcServer.t (Conn := Z) (U := U) (Msg := Msg) (N := history)).
Abbreviation config := (TcpServer.config (K := K) (A := rpc) (G := RpcResponse)).
Variable host : Wire.endian.
(** A message serializes to at most 2 GB, as protocol buffers do. *)
Hypothesis serialized_size : forall resp : RpcResponse, zlen (SerializeToString resp).2 <= int_max.

(** The process: its descriptors, and new ones for the server. *)
Variables (base : gset Z) (wakeup_ch : EpollPoller.ptr) (a : RpcResources.answers).
Abbreviation listen_fd := (TcpServer.socket_ret (RpcResources.listen_rets a)).
Abbreviation wakeup_fd := (RpcResources.eventfd_ret a).
Abbreviation epfd := (RpcResources.epoll_ret a).
Abbreviation rest := (RpcResources.others base wakeup_ch a).
Hypothesis epfd_own : epfd ∉ base.
Hypothesis wakeup_own : wakeup_fd ∉ {[epfd]} ∪ base.
Hypothesis listen_own : listen_fd ∉ {[wakeup_fd]} ∪ ({[epfd]} ∪ base).

Variables (svc : RpcServer.Service U Msg) (name : string) (default : Resp).
Variable methods : list (string * Service.method (Req := Req) (Resp := Resp)).
Context `{Hgen : !Service.Generated svc name default methods}.
Variable out : string -> Req -> Resp.
Hypothesis methods_compute : computes default methods out.
Variable u : U.

Abbreviation loop0 := (EventLoop.new_loop (F := TcpServer.functor RpcResponse) wakeup_fd wakeup_ch).
Abbreviation server0 := (make (K := K) (Msg := Msg) listen_fd loop0 u).
Abbreviation sound := (RpcLife.sound host rest listen_fd loop0 u).
Abbreviation step := (step host rest).
Implicit Types x y : config * RpcLife.pc.

Lemma rest_ready : TcpServer.loop_ready rest loop0.
Proof. apply RpcResources.new_loop_ready. Qed.

Lemma listen_not_other : listen_fd ∉ rest.
Proof. rewrite RpcResources.others_elem. set_solver. Qed.

Abbreviation app y := (TcpServer.app y.1.1).

(** Before the thread sleeps, every response that waits for the loop has its
    wake-up. *)
Definition no_sleep y : Prop :=
  match y.2 with RpcLife.PEvents _ => True | _ => queued y <> [] -> 0 < wakeups y end.

Record running y : Prop := {
  rn_services : RpcServer.services_ (app y) = table svc name;
  rn_wakeups : 0 <= wakeups y;
  rn_no_sleep : no_sleep y;
}.
Definition served y : Prop :=
  sound y /\ RpcLife.serving y /\ ((forall t, y.2 <> RpcLife.PThrew t) -> running y).

Lemma work_wakes i (s s' : TcpServer.t K rpc RpcResponse) :
  work i s = Ret s' () -> 0 <= EventLoop.eventfd (TcpServer.loop_ s) ->
  s' = s \/ 0 < EventLoop.eventfd (TcpServer.loop_ s').
Proof.
  intros (s1 & a1 & [= <- <-] & Hrun)%bind_ret_inv He. simpl in Hrun.
  destruct (RpcServer.tasks (TcpServer.app s) !! i) as [tk|]; [right|left; by injection Hrun].
  apply bind_ret_inv in Hrun as (s1 & [] & [= <-] & Hrun).
  apply bind_ret_inv in Hrun as (s2 & r & Hcall & Hrun). unfold zoom in Hcall. simpl in Hcall.
  destruct (RpcServer.CallMethod _ _ _ _) as [u' r'| | |]; try done. injection Hcall as <- <-.
  destruct r' as [[ctl r]|]; [|done]. injection Hrun as <-. simpl. by apply EventLoop.eventfd_add_pos.
Qed.

Lemma perform_work i (c c' : config) :
  perform host (Work i) c = Ret c' () ->
  exists s, work i c.1 = Ret s () /\ c' = (TcpServer.released holds [] s, c.2).
Proof.
  simpl. unfold zoom, mbind, M_bind. simpl. destruct (work i c.1) as [s []| | |]; try done.
  intros [= <-]. by exists s.
Qed.

(** Every step keeps the table of the services. *)
Lemma step_services c e (c' : config) :
  reachable host rest server0 c -> (forall svc, e <> Register svc) -> perform host e c = Ret c' () ->
  RpcServer.services_ (TcpServer.app c'.1) = RpcServer.services_ (TcpServer.app c.1).
Proof.
  intros Hc He Hrun. eapply (refines_event host u e c c'); [|done..].
  by apply (refines host rest listen_fd loop0 u eq_refl).
Qed.

Lemma start_view (c c' : config) :
  perform host (OnLoop TcpServer.Start) c = Ret c' () -> TcpOwner.view c'.1 = TcpOwner.view c.1.
Proof.
  simpl. unfold zoom. destruct (TcpServer.start _) as [s []| | |] eqn:Hs; try done. intros [= <-].
  exact (TcpOwner.start_keeps _ _ _ Hs).
Qed.

Lemma loop_step_running x y :
  served x -> RpcLife.loop_step host rest x y -> (forall t, y.2 <> RpcLife.PThrew t) -> running y.
Proof.
  intros (Hsound & Hserving & Hx) Hs Hy. destruct Hs as [c p e p' c' He Hok Hrun|c p e p' c' t He Hok Hrun|c Hc].
  2: by destruct (Hy t).
  2: by unfold RpcLife.serving in Hserving; simpl in Hserving; congruence.
  assert (forall t, p <> RpcLife.PThrew t) as Hp by by intros t ->.
  destruct (Hx Hp) as [Hsvc Hwk Hno]. destruct Hsound as [_ Hr]. unfold wakeups in Hwk. cbn [fst snd] in *.
  assert (reachable host rest server0 c) as Hreach by by destruct p.
  pose proof (RpcLife.perform_calm host e c c' Hrun) as Hcalm.
  assert (forall svc, e <> Register svc) as He'.
  { intros ? ->. destruct p, p'; simpl in He; try done. }
  split; unfold wakeups; cbn [fst snd].
  - by rewrite (step_services c e c').
  - destruct e as [ac| | |i|svc'|]; try (destruct Hcalm; simpl in *; lia); try (injection Hrun as <-; simpl; lia).
    by destruct p, p'.
  - unfold no_sleep, queued, wakeups in *. cbn [fst snd] in *.
    destruct p as [| | |wake| |], e as [[]| | |i|svc'|], p' as [| | |wake'| |]; simpl in He; try done.
    + pose proof (EventLoop.calm_eventfd _ _ Hcalm) as Hle. rewrite (start_view c c' Hrun). intros Hq.
      specialize (Hno Hq). lia.
    + by injection Hrun as <-.
    + by rewrite (turn_sends_queued host c c' Hrun).
Qed.

Lemma worker_step_running i x y :
  served x -> RpcLife.other_step host rest (Work i) x y -> (forall t, y.2 <> RpcLife.PThrew t) -> running y.
Proof.
  intros ([_ Hr] & _ & Hx) Hs Hy. destruct Hs as [c p c' _ Hok Hrun].
  destruct (Hx Hy) as [Hsvc Hwk Hno]. unfold wakeups in Hwk. cbn [fst snd] in *.
  assert (reachable host rest server0 c) as Hreach by (destruct p; try done; by destruct (Hy e)).
  pose proof (EventLoop.calm_eventfd _ _ (RpcLife.perform_calm host (Work i) c c' Hrun)) as Hle.
  split; unfold wakeups; cbn [fst snd].
  - by rewrite (step_services c (Work i) c').
  - lia.
  - apply perform_work in Hrun as (s & Hs & ->). unfold no_sleep, queued, wakeups in *. cbn [fst snd] in *.
    change (TcpOwner.view (TcpServer.released holds [] s)) with (TcpOwner.view s).
    change (TcpServer.loop_ (TcpServer.released holds [] s)) with (TcpServer.loop_ s).
    destruct (work_wakes i c.1 s Hs Hwk) as [->|?]; [done|]. by destruct p.
Qed.

Lemma served_step x y : served x -> step x y -> served y.
Proof.
  intros Hx Hs. pose proof Hx as (Hsound & Hserving & _). split_and!.
  - destruct Hs as [Hs|[i Hs]]; [eapply RpcLife.loop_step_sound|eapply RpcLife.other_step_sound];
      eauto using rest_ready, listen_not_other.
  - apply (RpcLife.quiet_serving host rest x y Hserving). destruct Hs as [Hs|[i Hs]]; [by left|right].
    by exists (Work i).
  - destruct Hs as [Hs|[i Hs]]; [by eapply loop_step_running|by eapply worker_step_running].
Qed.

(** *** What a served state is worth *)

Definition reply_to (cr : Z * RpcRequest) : Z * RpcResponse :=
  (cr.1, respond name (declared methods) out cr.2).

Lemma served_accounted y :
  served y -> (forall t, y.2 <> RpcLife.PThrew t) -> exists waiting finished,
    requests y ≡ₚ waiting ++ finished /\
    Forall2 (RpcServer.waits (table svc name)) waiting (RpcServer.tasks (app y)) /\
    sent y ++ queued y = reply_to <$> finished.
Proof.
  intros ([_ Hr] & _ & Hrun) Hy. destruct (Hrun Hy) as [Hsvc _ _].
  assert (reachable host rest server0 y.1) as Hreach by (destruct (y.2) as [| | | | |t]; try done; by destruct (Hy t)).
  apply (refines host rest listen_fd loop0 u eq_refl), fresh_accounted in Hreach as [_ (waiting & finished & Hp & Hw & Hf)].
  rewrite Hsvc in *. exists waiting, finished. split_and!; [done..|].
  symmetry. apply list_eq_Forall2, Forall2_fmap_l. eapply Forall2_impl; [exact Hf|].
  intros cr [id resp] [Hid Ha%(answers_respond svc name default methods out methods_compute)].
  unfold reply_to. simpl in *. by rewrite <- Ha, <- Hid.
Qed.

Lemma served_goes y :
  served y -> (forall t, y.2 <> RpcLife.PThrew t) -> exists z, RpcLife.loop_step host rest y z.
Proof.
  intros (Hsound & Hserving & _) Hy. eapply RpcLife.loop_can_go; eauto using rest_ready, listen_not_other.
  intros Hret. unfold RpcLife.serving in Hserving. by rewrite Hret in Hserving.
Qed.

Lemma served_works y i :
  served y -> (forall t, y.2 <> RpcLife.PThrew t) -> exists z, RpcLife.other_step host rest (Work i) y z.
Proof.
  intros ([_ Hr] & _ & _) Hy. destruct y as [c p]. cbn [fst snd] in *.
  assert (reachable host rest server0 c) as Hreach by (destruct p; try done; by destruct (Hy e)).
  apply (reachable_config host serialized_size rest listen_fd loop0 u rest_ready listen_not_other) in Hreach.
  pose proof (owner_event_wp host rest (Work i) c Hreach I ltac:(done)) as Hw.
  apply wp_ret_inv in Hw as (c' & [] & Hrun & _). eexists. by eapply RpcLife.other_goes.
Qed.

Lemma served_serves y :
  served y -> (forall t, y.2 <> RpcLife.PThrew t) -> serves host rest (respond name (declared methods) out) y.
Proof.
  intros Hy Ht. destruct (served_accounted y Hy Ht) as (waiting & finished & Hp & Hw & Hf). split.
  - by apply served_goes.
  - intros i tk _. by apply served_works.
  - exists waiting, finished. split_and!; [done| |done]. by eapply Forall2_length.
  - intros [Hpc Hwk] Htasks. destruct (proj2 (proj2 Hy) Ht) as [_ _ Hno].
    unfold no_sleep in Hno. rewrite Hpc in Hno.
    assert (queued y = []) as Hq by (destruct (queued y); [done|]; specialize (Hno ltac:(done)); lia).
    rewrite Htasks in Hw. apply Forall2_nil_inv_r in Hw as ->. rewrite Hq, app_nil_r in Hf.
    rewrite Hf. by rewrite Hp.
Qed.

Lemma served_always x : served x -> always_serves host rest (respond name (declared methods) out) x.
Proof.
  intros Hx y Hy. assert (served y) as Hserved by (by eapply (rtc_keeps step served); [apply served_step|..]).
  pose proof Hserved as ([Hb _] & Hs & _). unfold RpcLife.serving in Hs. split; [by intros Hr; rewrite Hr in Hs|].
  destruct (y.2) as [| | | | |t] eqn:Hpc; [left; apply served_serves; [done|intros t; congruence]..|right].
  unfold RpcLife.between in Hb. rewrite Hpc in Hb. by subst t.
Qed.

(** [main] comes to the state before [start()], or fails with all that it opened closed. *)
Lemma main_wpe port spawn (Hspawn : forall i, (0 < i < 4)%nat -> spawn i = true) :
  wpe (main (K := K) host wakeup_ch a u spawn port svc) base (fun fds x =>
    fds = {[listen_fd; wakeup_fd; epfd]} ∪ base /\
    always_serves host rest (respond name (declared methods) out) x) (fun fds _ => fds = base).
Proof.
  unfold main. apply wpe_bind.
  eapply wpe_mono; [by apply (RpcResources.construct_wpe base wakeup_ch a wakeup_own epfd_own port u 4 spawn)| |done].
  cbv beta. intros fds sc (-> & -> & _). cbn [fst].
  set (x0 := (_, []) : config).
  assert (completes svc) as Hcomp by by eapply service_completes.
  assert (exists c, perform host (Register svc) x0 = Ret c ()) as [c Hrun] by by eexists.
  wpe_pures. unfold wpe, register, mbind, M_bind. rewrite Hrun. split; [done|]. apply served_always.
  assert (RpcLife.step host rest (RpcLife.starting listen_fd loop0 u) (c, RpcLife.PStart)) as Hstep.
  { right. exists (Register svc). by apply RpcLife.other_goes. }
  split_and!; [|done|].
  - eapply RpcLife.run_sound; eauto using rest_ready, listen_not_other. by apply rtc_once.
  - intros _. injection Hrun as <-. split; [|done|intros Hq; by destruct Hq]. simpl.
    unfold table. rewrite (Service.gen_name (Generated := Hgen)). apply insert_empty.
Qed.

End runs.

End Serving.

(** ** The greeter's server (example/hello/hello_server.cpp) *)

Module HelloServer.
Import RpcExamples.Hello.
#[local] Existing Instance Service.message_message.

Section code.
Context {K U : Type} `{Socket K} `{Message RpcRequest} `{Message RpcResponse}.
Context `{Message HelloRequest} `{Message HelloResponse}.
Variable host : Wire.endian.

(** [main()] up to [server.start()] *)
Definition main (wakeup_ch : EpollPoller.ptr) (a : RpcResources.answers) (u : U) (spawn : nat -> bool)
    (service : RpcServer.Service U (Service.message HelloRequest HelloResponse)) :=
  Serving.main (K := K) host wakeup_ch a u spawn "9090" service.

(** The response to a request. *)
Definition respond : RpcRequest -> RpcResponse :=
  Serving.respond "example.HelloService" (Serving.declared methods) (fun method r => reply method (name r)).

End code.

Lemma greetings_compute : Serving.computes no_response methods (fun method r => reply method (name r)).
Proof.
  intros n f r Hin. repeat (apply elem_of_cons in Hin as [[= -> ->]|Hin]; [done|]). by apply elem_of_nil in Hin.
Qed.

Section proofs.
Context {K U : Type} `{SocketOk K} `{Message RpcRequest} `{Message RpcResponse}.
Context `{Message HelloRequest} `{Message HelloResponse}.
Variable host : Wire.endian.
(** A message serializes to at most 2 GB, as protocol buffers do. *)
Hypothesis serialized_size : forall resp : RpcResponse, zlen (SerializeToString resp).2 <= int_max.
Variable svc : RpcServer.Service U (Service.message HelloRequest HelloResponse).
Context `{!Service.Generated svc "example.HelloService" no_response methods}.

(** The greeter's server greets: as the calculator's server calculates, below. *)
Lemma hello_server_main base wakeup_ch a u spawn
    (Hep : RpcResources.epoll_ret a ∉ base)
    (Hev : RpcResources.eventfd_ret a ∉ {[RpcResources.epoll_ret a]} ∪ base)
    (Hls : TcpServer.socket_ret (RpcResources.listen_rets a) ∉
       {[RpcResources.eventfd_ret a]} ∪ ({[RpcResources.epoll_ret a]} ∪ base))
    (Hspawn : forall i, (0 < i < 4)%nat -> spawn i = true) :
  wpe (main (K := K) host wakeup_ch a u spawn svc) base (fun fds x =>
    fds = {[TcpServer.socket_ret (RpcResources.listen_rets a); RpcResources.eventfd_ret a;
            RpcResources.epoll_ret a]} ∪ base /\
    Serving.always_serves host (RpcResources.others base wakeup_ch a) respond x) (fun fds _ => fds = base).
Proof.
  by apply (Serving.main_wpe host serialized_size base wakeup_ch a Hep Hev Hls svc _ _ _ _ greetings_compute).
Qed.

End proofs.

End HelloServer.

(** ** The calculator's server (example/calculator/calc_server.cpp) *)

Module CalcServer.
Import RpcExamples.Calculator.
#[local] Existing Instances Service.message_message Service.generate_generated.

Section code.
Context {K U : Type} `{Socket K} `{Message RpcRequest} `{Message RpcResponse}.
Context `{Message CalcRequest} `{Message CalcResponse}.
Variable host : Wire.endian.

(** [main()] up to [server.start()] *)
Definition main (wakeup_ch : EpollPoller.ptr) (a : RpcResources.answers) (u : U) (spawn : nat -> bool)
    (svc : RpcServer.Service U (Service.message CalcRequest CalcResponse)) :=
  Serving.main (K := K) host wakeup_ch a u spawn "9091" svc.

(** The response to a request. *)
Definition respond : RpcRequest -> RpcResponse :=
  Serving.respond "example.CalcService" (Serving.declared methods) (fun op r => response_for op (a r) (b r)).

End code.

Lemma divisions_compute : Serving.computes no_response methods (fun op r => response_for op (a r) (b r)).
Proof.
  intros n f r Hin. repeat (apply elem_of_cons in Hin as [[= -> ->]|Hin]; [|]).
  1-3: done.
  - unfold Div, response_for, calculate. simpl. by case_match.
  - by apply elem_of_nil in Hin.
Qed.

Section proofs.
Context {K U : Type} `{SocketOk K} `{Message RpcRequest} `{Message RpcResponse}.
Context `{Message CalcRequest} `{Message CalcResponse}.
Variable host : Wire.endian.
(** A message serializes to at most 2 GB, as protocol buffers do. *)
Hypothesis serialized_size : forall resp : RpcResponse, zlen (SerializeToString resp).2 <= int_max.
Variable svc : RpcServer.Service U (Service.message CalcRequest CalcResponse).
Context `{!Service.Generated svc "example.CalcService" no_response methods}.


End proofs.

(** *** 10 / 0, asked over a connection *)

Module Demo.
Import RpcExamples.Calculator.Demo RpcServe RpcServe.Demo.

Definition asked : RpcRequest := mk_request "example.CalcService" "Div" 7 [Byte.x01].
Definition answered : RpcResponse := mk_response 7 true [Byte.x02] "".

#[export] Instance rpc_request_message : Message RpcRequest := {
  SerializeToString r := if decide (r = asked) then (true, [Byte.x05]) else (false, []);
  ParseFromString bs := match bs with [Byte.x05] => Some asked | _ => None end;
}.
#[export] Instance rpc_response_message : Message RpcResponse := {
  SerializeToString r := if decide (r = answered) then (true, [Byte.x06]) else (false, []);
  ParseFromString bs := match bs with [Byte.x06] => Some answered | _ => None end;
}.

(** What the program is to answer. *)
Example respond_divides : respond asked = answered.
Proof. by vm_compute. Qed.

Lemma answers_size (resp : RpcResponse) : zlen (SerializeToString resp).2 <= int_max.
Proof. simpl. case_decide; by vm_compute. Qed.

Abbreviation event := (RpcServe.event (K := duplex) (U := unit) (Msg := Service.message CalcRequest CalcResponse)).

(** The program starts; a peer connects with the request in flight. *)
Definition started := main (K := duplex) Wire.LittleEndian RpcResources.Demo.wakeup_ch RpcResources.Demo.system
  () (fun _ => true) svc.
Definition client : duplex := mk_duplex (Framing.encode [Byte.x05]) [].
Definition session : list event :=
  [OnLoop TcpServer.Start; EnterLoop;
   OnLoop (TcpServer.Poll [0]); OnLoop (TcpServer.Dispatch Epoll.EPOLLIN (Some (9, client))); OnLoop TcpServer.RunPending;
   OnLoop (TcpServer.Poll [1]); OnLoop (TcpServer.Dispatch Epoll.EPOLLIN None); OnLoop TcpServer.RunPending;
   Work 0; OnLoop (TcpServer.Poll []); HandleRead; OnLoop TcpServer.RunPending].

Example session_answers :
  match started RpcResources.Demo.base with
  | Ret fds x =>
      match for_each (perform Wire.LittleEndian) session x.1 with
      | Ret c _ => fds = {[3; 4; 5; 0; 1; 2]} /\ Serving.sent (c, RpcLife.PTest) = [(1, answered)] /\
          outgoing <$> (snd <$> TcpServer.objects c.1 !! 1) = Some (Framing.encode [Byte.x06])
      | _ => False
      end
  | _ => False
  end.
Proof. vm_compute. by split_and!. Qed.


End Demo.

End CalcServer.
